(* ===== verification/_CoqProject ===== *)
-Q . S2P
Prelude.v
AvlTree.v
Envelope.v
ExpirationHeap.v
Store.v
StoreInv.v
StoreTruncate.v
StoreGet.v
StoreRefine.v
StoreConcurrent.v
StoreLoop.v
Routing.v
Proxies.v
GoStrings.v
GoFloat.v
Json.v
JsonDecode.v
NetURL.v
AccessLog.v
PromQLSources.v
CAPI.v
Config.v
CFAuth.v
AuthProxy.v
PromQL.v
PromQLSeries.v
Walk.v
FloatRound.v
GoFormat.v
NumberText.v
Metrics.v
Matchers.v
PromQLMessages.v
Marshaler.v
MarshalerSpec.v
Gateway.v
Parsing.v
LogWriter.v
UAA.v
CFAuthCommand.v
FloatReal.v
Memory.v
Query.v
QueryAccess.v
Syslog.v
OctetCounting.v
Diode.v
Batching.v
Nozzle.v
SyslogServer.v
Cluster.v
PromQLCluster.v
QuerySecrecy.v
LogCache.v
NodeServer.v
Commands.v
