(* ===== verification/Prelude.v ===== *)
(** * A verification development for Log Cache

    Log Cache keeps the recent logs and metrics of a platform in the memory of a
    cluster of nodes.  This library models the four programs of the repository (the
    node, the syslog server that feeds it, the gateway that translates HTTP for it
    and the auth proxy before the gateway) and proves what makes them correct.  File
    names below are relative to src/src/ of the repository; a definition has the
    name of the function or type it models.

    ** The parts and their files

    The data path, from the outside to the store:
    - cmd/syslog-server: sockets are framed by the vendored octet counting parser
      (OctetCounting.v), messages become envelopes in a channel (Syslog.v for
      internal/syslog/server.go's conversion and channel), under the listener, the
      deadlines and the options of SyslogServer.v; the nozzle (Nozzle.v for
      internal/nozzle/nozzle.go) batches them, over a diode (Diode.v, vendored
      go-diodes), into requests to a node.
    - internal/routing: the table from sources to nodes (Routing.v), the reader of
      the local store and the two reverse proxies (Proxies.v), the batches between
      nodes (Batching.v).
    - internal/cache/store/store.go: a tree of envelopes per source, keyed by
      timestamp.  AvlTree.v is the vendored tree, ExpirationHeap.v the heap of the
      truncation, Envelope.v the messages, Store.v all operations of the store;
      StoreInv.v, StoreTruncate.v and StoreGet.v are its invariant and lemmas,
      StoreRefine.v its contract.  StoreLoop.v is the truncation loop and those who
      wait for it.  StoreConcurrent.v cuts the operations at their critical sections
      and interleaves them.
    - internal/cache/log_cache.go: LogCache.v (options, [Start], cmd/log-cache),
      Cluster.v ([setupRouting], and nodes that call each other), PromQLCluster.v (the
      querier of a node over the cluster), NodeServer.v (the server goroutine against
      [Close]).  Memory.v is the memory analyzer and the
      consultant that says how much to prune.

    Queries and the HTTP side:
    - internal/promql: the source ids of a query (PromQLSources.v), the storage
      interface of the engine (PromQL.v, its contract in PromQLSeries.v), the
      queries (Query.v), times and durations (Parsing.v), and the reader that pages
      through a source (Walk.v, with the vendored client's walk).
    - pkg/marshaler: Marshaler.v, with the round trip in MarshalerSpec.v; the
      messages are in PromQLMessages.v.
    - internal/gateway and cmd/gateway: Gateway.v.
    - internal/auth, internal/cfauthproxy and cmd/cf-auth-proxy: tokens and their
      keys (UAA.v), grants (CAPI.v), the handlers of the routes (CFAuth.v), the
      access log (AccessLog.v), the proxy (AuthProxy.v) and the command that puts
      them together (CFAuthCommand.v).  QueryAccess.v follows a query from the
      proxy to the reads of a node, QuerySecrecy.v on to the stores of a cluster.
    - the config.go files, internal/config and internal/tls: Config.v.  What the four
      main functions have in common, before the parts they start: Commands.v, with
      the metrics they register (Metrics.v, over the vendored registry) and the
      lines they log (LogWriter.v for internal/plumbing/logwriter.go).
    - internal/matchers, which the tests use: Matchers.v.

    The parts of Go's standard library they use: GoStrings.v (strings, strconv for
    integers), NetURL.v, GoFloat.v and GoFormat.v (reading and printing floats, on
    the rounding of FloatRound.v and, as real numbers, FloatReal.v), NumberText.v,
    Json.v and JsonDecode.v.  This file holds what all share: outcomes, 64-bit
    integers, association lists, and generic lemmas.

    ** How code is modelled

    - A function that may panic returns an [outcome], one with an error a [result];
      a panic anywhere is the value [Panic], so a theorem that says [Done] excludes
      it.  [log.Fatal] is a panic too: both end the process.
    - Integers are [Z] with the wrap-around of their width written out ([wrap64],
      [wrapu64]); floats are the standard library's [spec_float] with the rounding
      Go has.  Times are nanoseconds.
    - Objects that are shared are locations in a map (the store's storages) or a
      state that every call threads.  Services behind an interface are operations on
      a world [W].
    - Goroutines are step relations: an event is one critical section or one whole
      operation where no other goroutine can see it half done.  Executable versions
      of the relations run the examples.
    - The order of a [range] over a map is an argument, and the theorems hold for
      every order.

    ** What the theorems show

    - The store ([store_refines_spec], [truncate_removes_oldest],
      [Put_never_overwrites], [Get_sound], [Get_complete], [Get_exact],
      [Meta_reports]): every sequence of operations completes and refines a map from
      sources to sorted lists.  [avl_implements_ordered_map] is the same for the
      tree.  Under concurrency [interleaving_accounts] says that no envelope is lost
      count of and [interleaving_panics_only] that three named races are the only
      crashes; the races are shown by runs.  [truncation_loop_serves] is the pace and
      the liveness of the truncation loop, [memory_limit_enforced] what it removes
      under a configured limit.
    - The cluster ([cluster_is_one_store], [sent_is_queried], [IngressReverseProxy_routes],
      [EgressReverseProxy_Read_routes], [LocalStoreReader_Read_contract],
      [batched_accounts], [batched_drains], [Close_never_crashes]): what is sent to
      any node is read, and queried, from any node.
    - The syslog path ([syslog_to_cache], [connection_delivers_messages],
      [connection_times_out], [convertToEnvelope_spec]): from the bytes of sockets to
      requests a node receives, with every drop counted for.
    - Authorization ([gateway_receives_only_justified],
      [queries_read_only_granted], [ungranted_sources_stay_secret],
      [protected_routes], [proxy_guards_gateway], [Read_sound], [Read_reads_payload],
      [RefreshTokenKeys_keys], [IsAuthorized_fresh],
      [doPaginatedResourceRequest_complete], [ReplaceSourceIdSets_exact],
      [access_line_reads_back]): a request reaches the gateway only for sources that
      a verified token grants, and a query is answered from those sources only.
    - Queries ([query_result_roundtrip], [queries_report_failures],
      [WalkingDataReader_reads_store], [Select_series], [Select_well_formed],
      [Marshal_roundtrip], [promql_errors_are_json]): a client of the gateway reads
      what the engine computed, from the envelopes the store holds.
    - The commands ([node_starts], [metrics_register], [timestamp_roundtrip]): what
      keeps a node from starting, that no metric is refused or shared by accident,
      and that the times of the log are times of queries.

    Where a theorem needs a hypothesis that the code does not ensure, facts at the
    end of the file run the code without it, and show what it does then.

    ** Bounds and fuel

    - A run of a store has fewer than [2 ^ 63] events ([2 ^ 46] where floats decide
      how much to prune), so its counters do not wrap; other counters have bounds of
      the same kind, stated with each theorem.
    - The loops of the heap, the fudge and the tree's traversals run on a fuel given
      by sizes, and are proved to finish within it.  The JSON parser's fuel is the
      length of its text; the scanner's is the bytes left
      ([msglen_loop_enough]); the walk's is the envelopes of its window; a request
      makes at most one hop between nodes.  The pages of the Cloud Controller are
      bounded by the server alone: their loop is proved to end when the server's
      pages do.

    ** What is a parameter

    Code that is not in the repository's own language or sources, generated code and
    the services the programs talk to: the RFC 5424 machine, the PromQL engine and
    its parser and printer, [xxhash] and [jmphash] (with its documented range), chi,
    JOSE, PEM and key parsing, [url.Parse], TLS configurations, sockets, gRPC
    connections and grpc-gateway's generated handlers, [html/template] as far as its
    escaping of text, the answers of the UAA and the Cloud Controller, the clock and
    what the machine says of its memory.  Hypotheses about them are named where they
    are used, and each theorem that has any is applied to concrete functions.

    ** What is not modelled

    The encoding of protocol buffers (generated; messages are values here), the text
    of most log lines, the HTTP server that serves the metrics and the handlers of
    the profiler (vendored and standard code), the spies and certificates of the
    tests, and the scripts and packages around the programs: none of them decides
    what the programs answer or keep. *)

From Stdlib Require Export ZArith Lia.
From stdpp Require Export prelude sorting strings gmap list.

#[global] Open Scope Z_scope.

(** ** Outcomes of Go code

    A Go function either returns or panics (a nil dereference, an index out of
    range, a failed type assertion, an explicit [panic]).  [outcome A] keeps
    the two apart.  A Go function with an [error] result returns a [result]. *)
Inductive outcome (A : Type) : Type :=
| Done (a : A)
| Panic.
Arguments Done {A} a.
Arguments Panic {A}.

Inductive result (E A : Type) : Type :=
| Ok (a : A)
| Err (e : E).
Arguments Ok {E A} a.
Arguments Err {E A} e.

#[export] Instance result_eq_dec {E A} `{EqDecision E, EqDecision A} : EqDecision (result E A).
Proof. solve_decision. Defined.

#[export] Instance outcome_ret : MRet outcome := @Done.
#[export] Instance outcome_bind : MBind outcome := λ A B f m,
  match m with Done a => f a | Panic => Panic end.
#[export] Instance outcome_fmap : FMap outcome := λ A B f m,
  match m with Done a => Done (f a) | Panic => Panic end.
#[export] Instance result_ret {E} : MRet (result E) := @Ok E.
#[export] Instance result_bind {E} : MBind (result E) := λ A B f m,
  match m with Ok a => f a | Err e => Err e end.

Definition failed {E A} (r : result E A) : bool :=
  match r with Ok _ => false | Err _ => true end.

(** [must o] is a use of a pointer that may be nil: nil panics. *)
Definition must {A} (o : option A) : outcome A :=
  match o with Some a => Done a | None => Panic end.

(** ** Machine integers *)
Definition MaxInt64 : Z := 9223372036854775807.
Definition MinInt64 : Z := -9223372036854775808.
Definition int64_range (z : Z) : Prop := MinInt64 ≤ z ≤ MaxInt64.
(** Two's complement wrap-around of [int64] (and of [int], 64 bits wide). *)
Definition wrap64 (z : Z) : Z := (z - MinInt64) `mod` 2 ^ 64 + MinInt64.
Definition MaxUint64 : Z := 18446744073709551615.
Definition uint64_range (z : Z) : Prop := 0 ≤ z ≤ MaxUint64.
Definition wrapu64 (z : Z) : Z := z `mod` 2 ^ 64.

(** ** Association lists sorted by key: the specification of an ordered map *)
Definition keys {V} (l : list (Z * V)) : list Z := l.*1.

Fixpoint alookup {V} (k : Z) (l : list (Z * V)) : option V :=
  match l with
  | [] => None
  | (k', v) :: l => if k =? k' then Some v else alookup k l
  end.

Fixpoint linsert {V} (k : Z) (v : V) (l : list (Z * V)) : list (Z * V) :=
  match l with
  | [] => [(k, v)]
  | (k', v') :: l' =>
      if k =? k' then (k, v) :: l'
      else if k <? k' then (k, v) :: l
      else (k', v') :: linsert k v l'
  end.

Definition lremove {V} (k : Z) (l : list (Z * V)) : list (Z * V) :=
  filter (λ p, p.1 ≠ k) l.

(** Strictly increasing keys. *)
Definition ksorted {V} (l : list (Z * V)) : Prop := StronglySorted Z.lt (keys l).

(** ** Tactics *)
Create HintDb logcache.

(** An equation between closed terms that compute to the same value. *)
Ltac vm_eq := match goal with |- _ = ?r => vm_cast_no_check (@eq_refl _ r) end.

(** Opens one layer of a bind whose result is known. *)

Ltac done_inv :=
  repeat match goal with
  | H : Done _ = Done _ |- _ => injection H as H; subst
  | H : Panic = Done _ |- _ => discriminate H
  | H : Done _ = Panic |- _ => discriminate H
  | H : Ok _ = Ok _ |- _ => injection H as H; subst
  | H : Err _ = Ok _ |- _ => discriminate H
  | H : Ok _ = Err _ |- _ => discriminate H
  | H : Err _ = Err _ |- _ => injection H as H; subst
  | H : context [mbind (M:=outcome) ?f ?m] |- _ =>
      let E := fresh "E" in destruct m eqn:E; simpl in H
  end.

Lemma wrap64_id z : int64_range z → wrap64 z = z.
Proof.
  unfold int64_range, wrap64, MinInt64, MaxInt64. intros Hz.
  rewrite Z.mod_small; lia.
Qed.

Lemma wrap64_range z : int64_range (wrap64 z).
Proof.
  unfold int64_range, wrap64, MinInt64, MaxInt64.
  pose proof (Z.mod_pos_bound (z - -9223372036854775808) (2 ^ 64)). lia.
Qed.

#[export] Hint Resolve wrap64_range : logcache.

Lemma bind_Done {A B} (m : outcome A) (f : A → outcome B) b :
  (m ≫= f) = Done b ↔ ∃ a, m = Done a ∧ f a = Done b.
Proof.
  destruct m; simpl; split; [eauto|intros (?&[= <-]&?)|..]; eauto; [done|].
  by intros (?&?&?).
Qed.

(** ** Lists *)
Lemma mapM_Done {A B} (f : A → outcome B) (g : A → B) l :
  (∀ x, x ∈ l → f x = Done (g x)) → mapM f l = Done (g <$> l).
Proof.
  induction l as [|x l IH]; intros H; simpl; [done|].
  rewrite (H x) by left. simpl. rewrite IH; [done|]. intros. apply H. by right.
Qed.

Lemma StronglySorted_mid {A} (R : relation A) l1 x l2 :
  StronglySorted R (l1 ++ x :: l2) →
  StronglySorted R l1 ∧ StronglySorted R l2 ∧
  (∀ p, p ∈ l1 → R p x) ∧ (∀ q, q ∈ l2 → R x q).
Proof.
  intros (H&H1&H2)%StronglySorted_app. apply StronglySorted_inv in H2 as [H2 H3].
  rewrite Forall_forall in H3. split_and!; [done..| |done]. intros. apply H; [done|left].
Qed.

Lemma Forall_app_mid {A} (P : A → Prop) l1 x l2 :
  Forall P (l1 ++ x :: l2) ↔ Forall P l1 ∧ P x ∧ Forall P l2.
Proof. by rewrite Forall_app, Forall_cons. Qed.

Lemma snoc_bind {A B} (f : A → list B) l x : (l ++ [x]) ≫= f = (l ≫= f) ++ f x.
Proof. rewrite bind_app. cbn [mbind list_bind]. by rewrite app_nil_r. Qed.

(** [omap] keeps an order. *)
Lemma StronglySorted_omap {A B} (R : relation A) (S : relation B) (f : A → option B) l :
  (∀ a b x y, a ∈ l → b ∈ l → R a b → f a = Some x → f b = Some y → S x y) →
  StronglySorted R l → StronglySorted S (omap f l).
Proof.
  intros HR. induction 1 as [|a l Hl IH Ha]; [constructor|]. cbn [omap list_omap].
  assert (StronglySorted S (omap f l)) as Hs by (apply IH; intros; eapply HR; eauto; by right).
  destruct (f a) as [x|] eqn:E; [|done]. constructor; [done|].
  apply Forall_forall. intros y (b&Hb&Eb)%list_elem_of_omap. rewrite Forall_forall in Ha.
  eapply HR; [left|right; exact Hb|by apply Ha|done|done].
Qed.

Lemma length_omap_le {A B} (g : A → option B) l : (length (omap g l) ≤ length l)%nat.
Proof.
  induction l as [|x l IH]; [done|]. change (omap g (x :: l)) with
    (match g x with Some y => y :: omap g l | None => omap g l end).
  destruct (g x); simpl; lia.
Qed.

Lemma reverse_filter {A} (P : A → Prop) `{!∀ x, Decision (P x)} (l : list A) :
  filter P (reverse l) = reverse (filter P l).
Proof.
  induction l as [|x l IH]; [done|]. rewrite reverse_cons, filter_app, IH, !filter_cons.
  case_decide; [by rewrite reverse_cons|by rewrite app_nil_r].
Qed.

Lemma omap_cons {A B} (g : A → option B) x l :
  omap g (x :: l) = option_list (g x) ++ omap g l.
Proof.
  change (omap g (x :: l)) with
    (match g x with Some y => y :: omap g l | None => omap g l end). by destruct (g x).
Qed.

Lemma omap_reverse {A B} (g : A → option B) (l : list A) :
  omap g (reverse l) = reverse (omap g l).
Proof.
  induction l as [|x l IH]; [done|].
  rewrite reverse_cons, omap_app, IH, !omap_cons. simpl.
  destruct (g x); simpl; [by rewrite reverse_cons|by rewrite app_nil_r].
Qed.

Lemma StronglySorted_reverse {A} (R : relation A) l :
  StronglySorted R l → StronglySorted (flip R) (reverse l).
Proof.
  induction 1 as [|x l Hl IH Hx]; [constructor|]. rewrite reverse_cons.
  apply StronglySorted_app_2; [|done|repeat constructor].
  intros y z Hy Hz. rewrite elem_of_reverse in Hy. apply list_elem_of_singleton in Hz as ->.
  rewrite Forall_forall in Hx.
  by apply Hx.
Qed.

Lemma StronglySorted_weaken {A} (R R' : relation A) l :
  (∀ x y, R x y → R' x y) → StronglySorted R l → StronglySorted R' l.
Proof.
  intros H. induction 1; constructor; [done|]. eapply Forall_impl; eauto.
Qed.

Lemma StronglySorted_filter {A} (R : relation A) (P : A → Prop) `{!∀ x, Decision (P x)} l :
  StronglySorted R l → StronglySorted R (filter P l).
Proof.
  induction 1 as [|x l Hl IH Hx]; [constructor|]. rewrite filter_cons. case_decide; [|done].
  constructor; [done|]. rewrite Forall_forall in *. intros y [_ Hy]%list_elem_of_filter. auto.
Qed.

Lemma prefix_take {A} (x l : list A) : x `prefix_of` l → x = take (length x) l.
Proof. intros [y ->]. by rewrite take_app_length. Qed.

Lemma filter_all {A} (P : A → Prop) `{!∀ x, Decision (P x)} (l : list A) :
  (∀ x, x ∈ l → P x) → filter P l = l.
Proof.
  induction l as [|x l IH]; intros Hl; [done|].
  rewrite filter_cons_True by (apply Hl; left). f_equal. apply IH. intros. apply Hl. by right.
Qed.

Lemma filter_none {A} (P : A → Prop) `{!∀ x, Decision (P x)} (l : list A) :
  (∀ x, x ∈ l → ¬ P x) → filter P l = [].
Proof.
  induction l as [|x l IH]; intros Hl; [done|].
  rewrite filter_cons_False by (apply Hl; left). apply IH. intros. apply Hl. by right.
Qed.

Definition sum (l : list Z) : Z := foldr Z.add 0 l.

Lemma sum_app l1 l2 : sum (l1 ++ l2) = sum l1 + sum l2.
Proof. induction l1; simpl; lia. Qed.

Lemma sum_cons x l : sum (x :: l) = x + sum l.
Proof. done. Qed.

Lemma sum_filter_split {A} (P : A → Prop) `{∀ x, Decision (P x)} (f : A → Z) l :
  sum (f <$> l) = sum (f <$> filter P l) + sum (f <$> filter (λ x, ¬ P x) l).
Proof.
  induction l as [|x l IH]; [done|]. rewrite fmap_cons, sum_cons, IH, !filter_cons.
  destruct (decide (P x)), (decide (¬ P x)); try done; rewrite fmap_cons, sum_cons; lia.
Qed.

#[export] Instance sum_perm : Proper ((≡ₚ) ==> (=)) sum.
Proof. intros l1 l2. induction 1; rewrite ?sum_cons; lia. Qed.

Lemma sum_nonneg (l : list Z) : Forall (λ x, 0 ≤ x) l → 0 ≤ sum l.
Proof. induction 1; rewrite ?sum_cons; [done|lia]. Qed.

Lemma sum_mono {A} (f g : A → Z) l : (∀ x, x ∈ l → f x ≤ g x) → sum (f <$> l) ≤ sum (g <$> l).
Proof.
  induction l as [|x l IH]; intros H; [done|]. rewrite !fmap_cons, !sum_cons.
  assert (f x ≤ g x) by (apply H; left). assert (sum (f <$> l) ≤ sum (g <$> l)); [|lia].
  apply IH. intros. apply H. by right.
Qed.

Lemma elem_of_delete {A} (l : list A) i x y : l !! i = Some x → y ∈ l → y ≠ x → y ∈ base.delete i l.
Proof.
  intros Hi Hy Hne. rewrite delete_take_drop. rewrite <- (take_drop_middle _ _ _ Hi) in Hy. set_solver.
Qed.

Lemma delete_fmap {A B} (f : A → B) (l : list A) i : f <$> base.delete i l = base.delete i (f <$> l).
Proof. by rewrite !delete_take_drop, fmap_app, fmap_take, fmap_drop. Qed.

Lemma take_snoc {A} (l : list A) i x :
  l !! i = Some x → take (S i) l = take i l ++ [x].
Proof. apply take_S_r. Qed.

Lemma sublist_take_le {A} (l : list A) i j : (i ≤ j)%nat → take i l `sublist_of` take j l.
Proof. intros. rewrite <- (Nat.min_l i j), <- take_take by done. apply sublist_take. Qed.

Lemma sublist_same_length {A} (l1 l2 : list A) :
  l1 `sublist_of` l2 → (length l2 ≤ length l1)%nat → l1 = l2.
Proof.
  induction 1 as [|x l1 l2 H IH|x l1 l2 H IH]; simpl; intros Hl; [done|f_equal; apply IH; lia|].
  apply sublist_length in H. lia.
Qed.

Section AssocLists.
Context {V : Type}.
Implicit Types (l : list (Z * V)) (k : Z) (v : V).

Lemma ksorted_cons k v l :
  ksorted ((k, v) :: l) ↔ Forall (λ p, k < p.1) l ∧ ksorted l.
Proof.
  unfold ksorted, keys. simpl. split.
  - intros H. inversion H; subst. split; [|done]. by rewrite Forall_fmap in *.
  - intros [H1 H2]. constructor; [done|]. by rewrite Forall_fmap.
Qed.

Lemma ksorted_app l1 l2 :
  ksorted (l1 ++ l2) ↔
  ksorted l1 ∧ ksorted l2 ∧ (∀ p q, p ∈ l1 → q ∈ l2 → p.1 < q.1).
Proof.
  induction l1 as [|[k v] l1 IH]; simpl.
  - split; [intros H|by intros (_ & H & _)]. split_and!; [constructor|done|set_solver].
  - rewrite !ksorted_cons, IH, Forall_app, !Forall_forall.
    setoid_rewrite elem_of_cons. split.
    + intros ((?&H2)&?&?&?). split_and!; try done.
      intros p q [->|?] Hq; [simpl; auto|auto].
    + intros ((?&?)&?&Hlt). split_and!; try done; intros; auto.
      apply (Hlt (k, v)); auto.
Qed.

Lemma ksorted_mid l1 k v l2 :
  ksorted (l1 ++ (k, v) :: l2) ↔
  ksorted l1 ∧ ksorted l2 ∧
  Forall (λ p, p.1 < k) l1 ∧ Forall (λ p, k < p.1) l2.
Proof.
  rewrite ksorted_app, ksorted_cons, !Forall_forall. split.
  - intros (?&(?&?)&Hlt). split_and!; try done. intros p Hp.
    apply (Hlt p (k, v)); set_solver.
  - intros (?&?&Hl&Hr). split_and!; try done.
    intros p q Hp [->|Hq]%elem_of_cons; [by apply Hl|].
    apply Hl in Hp. apply Hr in Hq. lia.
Qed.

Lemma linsert_lt k v l1 k' v' l2 :
  k < k' → linsert k v (l1 ++ (k', v') :: l2) = linsert k v l1 ++ (k', v') :: l2.
Proof.
  intros Hk. induction l1 as [|[k1 v1] l1 IH]; simpl.
  - destruct (Z.eqb_spec k k'); [lia|]. by destruct (Z.ltb_spec k k'); [|lia].
  - destruct (k =? k1), (k <? k1); simpl; try done. by rewrite IH.
Qed.

Lemma linsert_gt k v l1 l2 :
  Forall (λ p, p.1 < k) l1 → linsert k v (l1 ++ l2) = l1 ++ linsert k v l2.
Proof.
  induction 1 as [|[k1 v1] l1 H _ IH]; simpl in *; [done|].
  destruct (Z.eqb_spec k k1); [lia|]. destruct (Z.ltb_spec k k1); [lia|]. by rewrite IH.
Qed.

Lemma alookup_lt k l1 k' v' l2 :
  k < k' → Forall (λ p, k' < p.1) l2 →
  alookup k (l1 ++ (k', v') :: l2) = alookup k l1.
Proof.
  intros Hk Hl2. induction l1 as [|[k1 v1] l1 IH]; simpl.
  - destruct (Z.eqb_spec k k'); [lia|].
    induction Hl2 as [|[k2 v2] l2 H _ IH]; simpl in *; [done|].
    by destruct (Z.eqb_spec k k2); [lia|].
  - by destruct (k =? k1).
Qed.

Lemma alookup_gt k l1 l2 :
  Forall (λ p, p.1 < k) l1 → alookup k (l1 ++ l2) = alookup k l2.
Proof.
  induction 1 as [|[k1 v1] l1 H _ IH]; simpl in *; [done|].
  by destruct (Z.eqb_spec k k1); [lia|].
Qed.

Lemma linsert_gt_mid k v l1 k' v' l2 :
  k' < k → Forall (λ p, p.1 < k') l1 →
  linsert k v (l1 ++ (k', v') :: l2) = l1 ++ (k', v') :: linsert k v l2.
Proof.
  intros Hk Hl. rewrite linsert_gt.
  - simpl. destruct (Z.eqb_spec k k'); [lia|]. by destruct (Z.ltb_spec k k'); [lia|].
  - eapply Forall_impl; [exact Hl|]. simpl. lia.
Qed.

Lemma alookup_gt_mid k l1 k' v' l2 :
  k' < k → Forall (λ p, p.1 < k') l1 →
  alookup k (l1 ++ (k', v') :: l2) = alookup k l2.
Proof.
  intros Hk Hl. rewrite alookup_gt.
  - simpl. by destruct (Z.eqb_spec k k'); [lia|].
  - eapply Forall_impl; [exact Hl|]. simpl. lia.
Qed.

Lemma elem_of_linsert k v l p :
  ksorted l → p ∈ linsert k v l ↔ p = (k, v) ∨ (p ∈ l ∧ p.1 ≠ k).
Proof.
  induction l as [|[k' v'] l IH]; intros Hs; simpl.
  - set_solver.
  - apply ksorted_cons in Hs as [Hlt Hs]. rewrite Forall_forall in Hlt.
    destruct (Z.eqb_spec k k') as [->|Hne].
    { rewrite !elem_of_cons. split; [|naive_solver].
      intros [->|H]; [by left|]. right. split; [by right|].
      apply Hlt in H. lia. }
    destruct (Z.ltb_spec k k').
    { rewrite !elem_of_cons. split; [|naive_solver].
      intros [->|[->|H1]]; [by left|right; split; simpl; auto; lia|].
      right. split; [by right|]. apply Hlt in H1. lia. }
    rewrite !elem_of_cons, IH by done. split.
    + intros [->|[->|[??]]]; simpl; auto.
    + naive_solver.
Qed.

Lemma ksorted_linsert k v l : ksorted l → ksorted (linsert k v l).
Proof.
  induction l as [|[k' v'] l IH]; intros Hs; simpl.
  - apply ksorted_cons. split; [constructor|done].
  - pose proof Hs as Hs0. apply ksorted_cons in Hs as [Hlt Hs].
    destruct (Z.eqb_spec k k') as [->|Hne]; [by apply ksorted_cons|].
    destruct (Z.ltb_spec k k').
    + apply ksorted_cons. split; [|done]. constructor; [done|].
      eapply Forall_impl; [exact Hlt|]. simpl. lia.
    + apply ksorted_cons. split; [|auto].
      apply Forall_forall. intros p. rewrite elem_of_linsert by done.
      rewrite Forall_forall in Hlt. intros [->|[Hp _]]; simpl; [lia|auto].
Qed.


Lemma alookup_linsert k v l : ksorted l → alookup k (linsert k v l) = Some v.
Proof.
  induction l as [|[k' v'] l IH]; intros Hs; simpl; [by rewrite Z.eqb_refl|].
  apply ksorted_cons in Hs as [_ Hs].
  destruct (Z.eqb_spec k k') as [->|]; simpl; [by rewrite Z.eqb_refl|].
  destruct (Z.ltb_spec k k'); simpl; [by rewrite Z.eqb_refl|].
  destruct (Z.eqb_spec k k'); [done|auto].
Qed.

Lemma alookup_None k l : alookup k l = None ↔ k ∉ keys l.
Proof.
  induction l as [|[k' v'] l IH]; simpl; [set_solver|].
  rewrite not_elem_of_cons. destruct (Z.eqb_spec k k'); simpl; naive_solver.
Qed.

Lemma alookup_Some k v l : ksorted l → alookup k l = Some v ↔ (k, v) ∈ l.
Proof.
  induction l as [|[k' v'] l IH]; intros Hs; simpl; [set_solver|].
  apply ksorted_cons in Hs as [Hlt Hs]. rewrite elem_of_cons.
  rewrite Forall_forall in Hlt.
  destruct (Z.eqb_spec k k') as [->|]; [|rewrite IH by done; naive_solver].
  split; [naive_solver|]. intros [|H]; [naive_solver|].
  apply Hlt in H. simpl in H. lia.
Qed.

Lemma length_linsert_fresh k v l :
  alookup k l = None → length (linsert k v l) = S (length l).
Proof.
  induction l as [|[k' v'] l IH]; simpl; [done|].
  destruct (k =? k'); [done|]. destruct (k <? k'); simpl; auto.
Qed.

Lemma length_linsert_found k v v0 l :
  ksorted l → alookup k l = Some v0 → length (linsert k v l) = length l.
Proof.
  induction l as [|[k' v'] l IH]; simpl; [done|]. intros Hs.
  destruct (Z.eqb_spec k k'); [done|].
  apply ksorted_cons in Hs as [Hlt Hs]. destruct (Z.ltb_spec k k').
  - intros H1%alookup_Some; [|done]. rewrite Forall_forall in Hlt.
    apply Hlt in H1. simpl in H1. lia.
  - simpl. intros; f_equal; auto.
Qed.

Lemma length_linsert_le k v l : (length (linsert k v l) ≤ S (length l))%nat.
Proof.
  induction l as [|[k' v'] l IH]; simpl; [lia|].
  destruct (k =? k'), (k <? k'); simpl; lia.
Qed.

Lemma length_lremove_le k l : (length (lremove k l) ≤ length l)%nat.
Proof. apply length_filter. Qed.

Lemma lremove_app k l1 l2 : lremove k (l1 ++ l2) = lremove k l1 ++ lremove k l2.
Proof. apply filter_app. Qed.

Lemma lremove_notin k l : Forall (λ p, p.1 ≠ k) l → lremove k l = l.
Proof.
  unfold lremove. induction 1 as [|p l H _ IH]; [done|].
  by rewrite filter_cons_True, IH.
Qed.

Lemma lremove_cons_ne k k' v l : k' ≠ k → lremove k ((k', v) :: l) = (k', v) :: lremove k l.
Proof. intros. unfold lremove. by rewrite filter_cons_True. Qed.

Lemma lremove_cons_eq k v l : lremove k ((k, v) :: l) = lremove k l.
Proof. unfold lremove. rewrite filter_cons_False; [done|]. simpl. naive_solver. Qed.

(** Removal from the three positions of a search tree's in-order list. *)
Lemma lremove_mid_eq l1 k v l2 :
  ksorted (l1 ++ (k, v) :: l2) → lremove k (l1 ++ (k, v) :: l2) = l1 ++ l2.
Proof.
  intros (_&_&H1&H2)%ksorted_mid. rewrite lremove_app, lremove_cons_eq.
  rewrite !lremove_notin; [done|..]; eapply Forall_impl; eauto; simpl; lia.
Qed.

Lemma lremove_mid_lt k l1 k' v l2 :
  ksorted (l1 ++ (k', v) :: l2) → k < k' →
  lremove k (l1 ++ (k', v) :: l2) = lremove k l1 ++ (k', v) :: l2.
Proof.
  intros (_&_&_&H2)%ksorted_mid Hk. rewrite lremove_app, lremove_cons_ne by lia.
  rewrite (lremove_notin k l2); [done|]. eapply Forall_impl; eauto; simpl; lia.
Qed.

Lemma lremove_mid_gt k l1 k' v l2 :
  ksorted (l1 ++ (k', v) :: l2) → k' < k →
  lremove k (l1 ++ (k', v) :: l2) = l1 ++ (k', v) :: lremove k l2.
Proof.
  intros (_&_&H1&_)%ksorted_mid Hk. rewrite lremove_app, lremove_cons_ne by lia.
  rewrite (lremove_notin k l1); [done|]. eapply Forall_impl; eauto; simpl; lia.
Qed.

Lemma ksorted_lremove k l : ksorted l → ksorted (lremove k l).
Proof.
  induction l as [|[k' v'] l IH]; intros Hs; [done|].
  apply ksorted_cons in Hs as [Hlt Hs].
  destruct (decide (k' = k)) as [->|Hne].
  - rewrite lremove_cons_eq. auto.
  - rewrite lremove_cons_ne by done. apply ksorted_cons. split; [|auto].
    apply Forall_forall. intros p [??]%list_elem_of_filter.
    rewrite Forall_forall in Hlt. auto.
Qed.

(** Removing the first key of a sorted list drops its head. *)
Lemma lremove_head k v l : ksorted ((k, v) :: l) → lremove k ((k, v) :: l) = l.
Proof.
  intros [Hlt _]%ksorted_cons. rewrite lremove_cons_eq. apply lremove_notin.
  eapply Forall_impl; [exact Hlt|]. simpl. lia.
Qed.
End AssocLists.

(** ** Strings *)

(** The order of bytes, that of [sort.Strings]. *)
Definition string_le (a b : string) : Prop := String.leb a b = true.

#[export] Instance string_le_dec : RelDecision string_le.
Proof. intros a b. unfold string_le. apply _. Defined.

#[export] Instance string_le_total : Total string_le.
Proof. intros a b. apply String.leb_total. Qed.
#[export] Instance string_le_trans : Transitive string_le.
Proof.
  intros a b c. unfold string_le, String.leb. revert b c.
  induction a as [|x a IH]; intros [|y b] [|z c]; try done. cbn [String.compare]. unfold Ascii.compare.
  destruct (N.compare_spec (Ascii.N_of_ascii x) (Ascii.N_of_ascii y)) as [E1|E1|E1],
    (N.compare_spec (Ascii.N_of_ascii y) (Ascii.N_of_ascii z)) as [E2|E2|E2],
    (N.compare_spec (Ascii.N_of_ascii x) (Ascii.N_of_ascii z)) as [E3|E3|E3]; try done; try lia.
  apply IH.
Qed.

(** Entries of a map in the order of their keys. *)
Definition key_le {A} (a b : string * A) : Prop := string_le a.1 b.1.
#[export] Instance key_le_dec {A} : RelDecision (@key_le A).
Proof. intros a b. unfold key_le. apply _. Defined.
#[export] Instance key_le_total {A} : Total (@key_le A).
Proof. intros a b. apply string_le_total. Qed.
#[export] Instance key_le_trans {A} : Transitive (@key_le A).
Proof. intros a b c. apply string_le_trans. Qed.

Lemma sapp_cons c a b : String c a +:+ b = String c (a +:+ b).
Proof. done. Qed.
Lemma sapp_nil a : "" +:+ a = a.
Proof. done. Qed.
Lemma sapp_nil_r a : a +:+ "" = a.
Proof. induction a as [|c a IH]; [done|]. by rewrite sapp_cons, IH. Qed.
Lemma sapp_assoc a b c : (a +:+ b) +:+ c = a +:+ b +:+ c.
Proof. induction a as [|x a IH]; [done|]. by rewrite !sapp_cons, IH. Qed.
Lemma slength_app a b : String.length (a +:+ b) = (String.length a + String.length b)%nat.
Proof. induction a as [|x a IH]; [done|]. rewrite sapp_cons. simpl. by rewrite IH. Qed.
Lemma slength_cons c a : String.length (String c a) = S (String.length a).
Proof. done. Qed.

#[export] Hint Rewrite sapp_cons sapp_nil sapp_nil_r sapp_assoc : sapp.
#[export] Hint Rewrite slength_app slength_cons : slength.
