(* ===== verification/AvlTree.v ===== *)
(** * The AVL tree of the store and of the static route lookup

    Models the vendored [github.com/emirpasic/gods/trees/avltree] as far as
    Log Cache uses it: [Put], [Get], [Remove], [Size], [Left] and [Floor].  The
    shape of the tree matters: [store.Get] walks [Root] and [Children] itself.

    A node pointer is a [node] ([Nil] for a nil pointer); [*qp = s] is the
    returned node.  The [Parent] pointers are left out (only the iterators read
    them, and Log Cache uses no iterator).  Reading through a nil pointer is
    [Panic]; the theorems show that it never happens on a balanced tree. *)

From S2P Require Import Prelude.

(** The direction [c] of the code: [-1] (child 0) or [1] (child 1). *)
Inductive dir := DLeft | DRight.

Definition sgn (c : dir) : Z := match c with DLeft => -1 | DRight => 1 end.
Definition opp (c : dir) : dir := match c with DLeft => DRight | DRight => DLeft end.

Inductive node (V : Type) : Type :=
| Nil
| Node (b : Z) (child0 : node V) (key : Z) (value : V) (child1 : node V).
Arguments Nil {V}.
Arguments Node {V} b child0 key value child1.

Record Tree (V : Type) : Type := mkTree { Root : node V; size : Z }.
Arguments mkTree {V} Root size.
Arguments Root {V} t : rename.
Arguments size {V} t : rename.

Section Ops.
Context {V : Type}.
Implicit Types (n s q : node V) (k : Z) (v : V) (c : dir).

Definition NewTree : Tree V := mkTree Nil 0.

Definition child (c : dir) (n : node V) : node V :=
  match n, c with
  | Node _ l _ _ _, DLeft => l
  | Node _ _ _ _ r, DRight => r
  | Nil, _ => Nil
  end.

Definition set_child (c : dir) (x n : node V) : node V :=
  match n, c with
  | Node b _ k v r, DLeft => Node b x k v r
  | Node b l k v _, DRight => Node b l k v x
  | Nil, _ => Nil
  end.

(** The field [n.b]: nil panics. *)
Definition getb (n : node V) : outcome Z :=
  match n with Node b _ _ _ _ => Done b | Nil => Panic end.

Definition setb (b : Z) (n : node V) : node V :=
  match n with Node _ l k v r => Node b l k v r | Nil => Nil end.

Fixpoint GetNode (k : Z) (n : node V) : node V :=
  match n with
  | Nil => Nil
  | Node _ l k' _ r =>
      match k ?= k' with Eq => n | Lt => GetNode k l | Gt => GetNode k r end
  end.

Definition Get (t : Tree V) (k : Z) : option V :=
  match GetNode k (Root t) with Node _ _ _ v _ => Some v | Nil => None end.

(** [bottom d]: the outermost node in direction [d]. *)
Fixpoint bottom (d : dir) (n : node V) : node V :=
  match n with
  | Nil => Nil
  | Node _ l _ _ r =>
      match (match d with DLeft => l | DRight => r end) with
      | Nil => n
      | _ => bottom d (match d with DLeft => l | DRight => r end)
      end
  end.

Definition Left (t : Tree V) : node V := bottom DLeft (Root t).

(** [Floor]: the loop carries the best node found so far. *)
Fixpoint floor_loop (k : Z) (n floor : node V) : node V :=
  match n with
  | Nil => floor
  | Node _ l k' _ r =>
      match k ?= k' with
      | Eq => n
      | Lt => floor_loop k l floor
      | Gt => floor_loop k r n
      end
  end.

Definition Floor (t : Tree V) (k : Z) : node V := floor_loop k (Root t) Nil.

(** [rotate c s]: the child [r] of [s] in direction [c] becomes the root. *)
Definition rotate (c : dir) (s : node V) : outcome (node V) :=
  match s, child c s with
  | Node _ _ _ _ _, Node _ _ _ _ _ =>
      let r := child c s in
      Done (set_child (opp c) (set_child c (child (opp c) r) s) r)
  | _, _ => Panic
  end.

(** The old root [s] is the child of the new root in direction [opp c]. *)
Definition singlerot (c : dir) (s : node V) : outcome (node V) :=
  r ← rotate c (setb 0 s);
  Done (setb 0 r).

Definition doublerot (c : dir) (s : node V) : outcome (node V) :=
  r' ← rotate (opp c) (child c s);
  p ← rotate c (set_child c r' s);
  pb ← getb p;
  let '(sb, rb) :=
    if pb =? sgn c then (- sgn c, 0)
    else if pb =? - sgn c then (0, sgn c)
    else (0, 0) in
  Done (setb 0 (set_child (opp c) (setb sb (child (opp c) p))
                 (set_child c (setb rb (child c p)) p))).

Definition putFix (c : dir) (s : node V) : outcome (node V * bool) :=
  b ← getb s;
  if b =? 0 then Done (setb (sgn c) s, true)
  else if b =? - sgn c then Done (setb 0 s, false)
  else
    cb ← getb (child c s);
    s' ← (if cb =? sgn c then singlerot c s else doublerot c s);
    Done (s', false).

Definition removeFix (c : dir) (s : node V) : outcome (node V * bool) :=
  b ← getb s;
  if b =? 0 then Done (setb (sgn c) s, false)
  else if b =? - sgn c then Done (setb 0 s, true)
  else
    cb ← getb (child c s);
    if cb =? 0 then
      s' ← rotate c s;
      Done (setb (- sgn c) s', false)
    else
      s' ← (if cb =? sgn c then singlerot c s else doublerot c s);
      Done (s', true).

(** [put]: the new subtree, whether the caller must fix, and the size. *)
Fixpoint put (k : Z) (v : V) (q : node V) (sz : Z) : outcome (node V * bool * Z) :=
  match q with
  | Nil => Done (Node 0 Nil k v Nil, true, wrap64 (sz + 1))
  | Node b l k' v' r =>
      match k ?= k' with
      | Eq => Done (Node b l k v r, false, sz)
      | Lt =>
          '(l', fix_, sz') ← put k v l sz;
          if (fix_ : bool)
          then '(q', f) ← putFix DLeft (Node b l' k' v' r); Done (q', f, sz')
          else Done (Node b l' k' v' r, false, sz')
      | Gt =>
          '(r', fix_, sz') ← put k v r sz;
          if (fix_ : bool)
          then '(q', f) ← putFix DRight (Node b l k' v' r'); Done (q', f, sz')
          else Done (Node b l k' v' r', false, sz')
      end
  end.

(** [removeMin]: the new subtree, whether to fix, and the removed entry. *)
Fixpoint removeMin (q : node V) : outcome (node V * bool * (Z * V)) :=
  match q with
  | Nil => Panic
  | Node b Nil k v r => Done (r, true, (k, v))
  | Node b l k v r =>
      '(l', fix_, kv) ← removeMin l;
      if (fix_ : bool)
      then '(q', f) ← removeFix DRight (Node b l' k v r); Done (q', f, kv)
      else Done (Node b l' k v r, false, kv)
  end.

Fixpoint remove (k : Z) (q : node V) (sz : Z) : outcome (node V * bool * Z) :=
  match q with
  | Nil => Done (Nil, false, sz)
  | Node b l k' v' r =>
      match k ?= k' with
      | Eq =>
          let sz := wrap64 (sz - 1) in
          match r with
          | Nil => Done (l, true, sz)
          | _ =>
              '(r', fix_, (mk, mv)) ← removeMin r;
              if (fix_ : bool)
              then '(q', f) ← removeFix DLeft (Node b l mk mv r'); Done (q', f, sz)
              else Done (Node b l mk mv r', false, sz)
          end
      | Lt =>
          '(l', fix_, sz') ← remove k l sz;
          if (fix_ : bool)
          then '(q', f) ← removeFix DRight (Node b l' k' v' r); Done (q', f, sz')
          else Done (Node b l' k' v' r, false, sz')
      | Gt =>
          '(r', fix_, sz') ← remove k r sz;
          if (fix_ : bool)
          then '(q', f) ← removeFix DLeft (Node b l k' v' r'); Done (q', f, sz')
          else Done (Node b l k' v' r', false, sz')
      end
  end.

Definition Put (t : Tree V) (k : Z) (v : V) : outcome (Tree V) :=
  '(r, _, sz) ← put k v (Root t) (size t);
  Done (mkTree r sz).

Definition Remove (t : Tree V) (k : Z) : outcome (Tree V) :=
  '(r, _, sz) ← remove k (Root t) (size t);
  Done (mkTree r sz).

(** ** Specification: the in-order list, the height and the balance *)
Fixpoint inorder (n : node V) : list (Z * V) :=
  match n with
  | Nil => []
  | Node _ l k v r => inorder l ++ (k, v) :: inorder r
  end.

Fixpoint height (n : node V) : Z :=
  match n with Nil => 0 | Node _ l _ _ r => 1 + Z.max (height l) (height r) end.

(** The balance factor [b] is the height difference and is -1, 0 or 1. *)
Fixpoint balanced (n : node V) : Prop :=
  match n with
  | Nil => True
  | Node b l _ _ r =>
      b = height r - height l ∧ -1 ≤ b ≤ 1 ∧ balanced l ∧ balanced r
  end.

(** The entry a node pointer designates. *)
Definition entry (n : node V) : option (Z * V) :=
  match n with Nil => None | Node _ _ k v _ => Some (k, v) end.

Definition contents (t : Tree V) : list (Z * V) := inorder (Root t).

(** The well-formedness of a tree: a balanced search tree with its size. *)
Record wf_tree (t : Tree V) : Prop := {
  wf_sorted : ksorted (contents t);
  wf_balanced : balanced (Root t);
  wf_size : size t = Z.of_nat (length (contents t));
}.

(** A run of the two mutators, and its specification on sorted lists. *)
Inductive op := OpPut (k : Z) (v : V) | OpRemove (k : Z).

Fixpoint run (ops : list op) (t : Tree V) : outcome (Tree V) :=
  match ops with
  | [] => Done t
  | OpPut k v :: ops => t' ← Put t k v; run ops t'
  | OpRemove k :: ops => t' ← Remove t k; run ops t'
  end.

Fixpoint run_spec (ops : list op) (l : list (Z * V)) : list (Z * V) :=
  match ops with
  | [] => l
  | OpPut k v :: ops => run_spec ops (linsert k v l)
  | OpRemove k :: ops => run_spec ops (lremove k l)
  end.
End Ops.

(** ** Rotations and rebalancing *)
Section Lemmas.
Context {V : Type}.
Implicit Types (n s q l r : node V) (k : Z) (v : V) (c : dir).

(** [fix_start] opens a rebalancing step; [fix_done] closes a branch of it
    whose comparisons are decided. *)
Ltac fix_start :=
  unfold putFix, removeFix, doublerot; simpl in *;
  change (- -1) with 1 in *; change (- (1)) with (-1) in *.
Ltac fix_done :=
  do 2 eexists; split; [reflexivity|]; simpl;
  split_and?; try done; try lia; try (intros _ [=]; lia).

Lemma height_nonneg n : 0 ≤ height n.
Proof. induction n; simpl; lia. Qed.

Lemma height_0 n : height n = 0 → n = Nil.
Proof.
  destruct n as [|b l k v r]; [done|]. simpl.
  pose proof (height_nonneg l). pose proof (height_nonneg r). lia.
Qed.

Lemma inorder_setb b n : inorder (setb b n) = inorder n.
Proof. by destruct n. Qed.

Lemma height_setb b n : height (setb b n) = height n.
Proof. by destruct n. Qed.

Lemma rotate_inorder c s s' : rotate c s = Done s' → inorder s' = inorder s.
Proof.
  destruct s as [|b l k v r]; [by destruct c|].
  destruct c; simpl; [destruct l|destruct r]; intros; done_inv; simpl;
    by rewrite <- ?app_assoc.
Qed.

Lemma singlerot_inorder c s s' : singlerot c s = Done s' → inorder s' = inorder s.
Proof.
  unfold singlerot. intros (r&H&[= <-])%bind_Done.
  by rewrite inorder_setb, (rotate_inorder _ _ _ H), inorder_setb.
Qed.

Lemma doublerot_inorder c s s' : doublerot c s = Done s' → inorder s' = inorder s.
Proof.
  unfold doublerot.
  intros (r'&H1&H)%bind_Done. apply bind_Done in H as (p&H2&H).
  apply bind_Done in H as (pb&_&H). apply rotate_inorder in H1, H2.
  assert (inorder s' = inorder p) as ->.
  { destruct p as [|b l k v r]; destruct (pb =? sgn c), (pb =? - sgn c);
      destruct c; injection H as <-; simpl; by rewrite ?inorder_setb. }
  rewrite H2. destruct s as [|b l k v r]; [by destruct c|].
  destruct c; simpl in *; by rewrite H1.
Qed.

Lemma putFix_inorder c s s' f : putFix c s = Done (s', f) → inorder s' = inorder s.
Proof.
  unfold putFix. intros (b&_&H)%bind_Done.
  destruct (b =? 0); [simplify_eq; apply inorder_setb|].
  destruct (b =? - sgn c); [simplify_eq; apply inorder_setb|].
  apply bind_Done in H as (cb&_&H). apply bind_Done in H as (s1&H&[= -> _]).
  destruct (cb =? sgn c); eauto using singlerot_inorder, doublerot_inorder.
Qed.

Lemma removeFix_inorder c s s' f : removeFix c s = Done (s', f) → inorder s' = inorder s.
Proof.
  unfold removeFix. intros (b&_&H)%bind_Done.
  destruct (b =? 0); [simplify_eq; apply inorder_setb|].
  destruct (b =? - sgn c); [simplify_eq; apply inorder_setb|].
  apply bind_Done in H as (cb&_&H). destruct (cb =? 0).
  - apply bind_Done in H as (s1&H&[= <- _]).
    rewrite inorder_setb. eauto using rotate_inorder.
  - apply bind_Done in H as (s1&H&[= -> _]).
    destruct (cb =? sgn c); eauto using singlerot_inorder, doublerot_inorder.
Qed.

(** [putFix] after child [c] of a balanced node [s] grew by one. *)
Lemma putFix_left b l k v r :
  balanced l → balanced r → -1 ≤ b ≤ 1 → b = height r - (height l - 1) →
  1 ≤ height l → (height l = 1 ∨ getb l ≠ Done 0) →
  ∃ s' f, putFix DLeft (Node b l k v r) = Done (s', f) ∧ balanced s' ∧
    height s' = 1 + Z.max (height l - 1) (height r) + (if f then 1 else 0) ∧
    (f = true → getb s' ≠ Done 0).
Proof.
  intros Hl Hr Hb Hd Hh Hg. pose proof (height_nonneg r). fix_start.
  destruct (Z.eqb_spec b 0); [|destruct (Z.eqb_spec b 1)]; [fix_done..|].
  destruct l as [|bl ll kl vl lr]; [simpl in *; lia|]. simpl in *.
  destruct Hl as (Hbl&?&?&Hlr). pose proof (height_nonneg ll).
  pose proof (height_nonneg lr).
  assert (bl ≠ 0) by (destruct Hg as [|Hg]; [lia|congruence]).
  destruct (Z.eqb_spec bl (-1)); [fix_done|].
  destruct lr as [|b2 l2 k2 v2 r2]; [simpl in *; lia|].
  fix_start. destruct Hlr as (Hb2&?&?&?).
  destruct (Z.eqb_spec b2 (-1)); [fix_done|]. destruct (Z.eqb_spec b2 1); fix_done.
Qed.

Lemma putFix_right b l k v r :
  balanced l → balanced r → -1 ≤ b ≤ 1 → b = height r - 1 - height l →
  1 ≤ height r → (height r = 1 ∨ getb r ≠ Done 0) →
  ∃ s' f, putFix DRight (Node b l k v r) = Done (s', f) ∧ balanced s' ∧
    height s' = 1 + Z.max (height l) (height r - 1) + (if f then 1 else 0) ∧
    (f = true → getb s' ≠ Done 0).
Proof.
  intros Hl Hr Hb Hd Hh Hg. pose proof (height_nonneg l). fix_start.
  destruct (Z.eqb_spec b 0); [|destruct (Z.eqb_spec b (-1))]; [fix_done..|].
  destruct r as [|br rl kr vr rr]; [simpl in *; lia|]. simpl in *.
  destruct Hr as (Hbr&?&Hrl&?). pose proof (height_nonneg rl).
  pose proof (height_nonneg rr).
  assert (br ≠ 0) by (destruct Hg as [|Hg]; [lia|congruence]).
  destruct (Z.eqb_spec br 1); [fix_done|].
  destruct rl as [|b2 l2 k2 v2 r2]; [simpl in *; lia|].
  fix_start. destruct Hrl as (Hb2&?&?&?).
  destruct (Z.eqb_spec b2 1); [fix_done|]. destruct (Z.eqb_spec b2 (-1)); fix_done.
Qed.

(** [removeFix c] after the other child of a balanced node shrank by one. *)
Lemma removeFix_right b l k v r :
  balanced l → balanced r → -1 ≤ b ≤ 1 → b = height r - (height l + 1) →
  ∃ s' f, removeFix DRight (Node b l k v r) = Done (s', f) ∧ balanced s' ∧
    height s' = 1 + Z.max (height l + 1) (height r) - (if f then 1 else 0).
Proof.
  intros Hl Hr Hb Hd. pose proof (height_nonneg l). fix_start.
  destruct (Z.eqb_spec b 0); [|destruct (Z.eqb_spec b (-1))]; [fix_done..|].
  destruct r as [|br rl kr vr rr]; [simpl in *; lia|]. simpl in *.
  destruct Hr as (Hbr&?&Hrl&?). pose proof (height_nonneg rl).
  pose proof (height_nonneg rr).
  destruct (Z.eqb_spec br 0); [fix_done|].
  destruct (Z.eqb_spec br 1); [fix_done|].
  destruct rl as [|b2 l2 k2 v2 r2]; [simpl in *; lia|].
  fix_start. destruct Hrl as (Hb2&?&?&?).
  destruct (Z.eqb_spec b2 1); [fix_done|]. destruct (Z.eqb_spec b2 (-1)); fix_done.
Qed.

Lemma removeFix_left b l k v r :
  balanced l → balanced r → -1 ≤ b ≤ 1 → b = height r + 1 - height l →
  ∃ s' f, removeFix DLeft (Node b l k v r) = Done (s', f) ∧ balanced s' ∧
    height s' = 1 + Z.max (height l) (height r + 1) - (if f then 1 else 0).
Proof.
  intros Hl Hr Hb Hd. pose proof (height_nonneg r). fix_start.
  destruct (Z.eqb_spec b 0); [|destruct (Z.eqb_spec b 1)]; [fix_done..|].
  destruct l as [|bl ll kl vl lr]; [simpl in *; lia|]. simpl in *.
  destruct Hl as (Hbl&?&?&Hlr). pose proof (height_nonneg ll).
  pose proof (height_nonneg lr).
  destruct (Z.eqb_spec bl 0); [fix_done|].
  destruct (Z.eqb_spec bl (-1)); [fix_done|].
  destruct lr as [|b2 l2 k2 v2 r2]; [simpl in *; lia|].
  fix_start. destruct Hlr as (Hb2&?&?&?).
  destruct (Z.eqb_spec b2 (-1)); [fix_done|]. destruct (Z.eqb_spec b2 1); fix_done.
Qed.

(** ** Insertion *)
Lemma put_balanced k v q sz :
  balanced q →
  ∃ q' f sz', put k v q sz = Done (q', f, sz') ∧ balanced q' ∧
    height q' = height q + (if f then 1 else 0) ∧
    (f = true → height q' = 1 ∨ getb q' ≠ Done 0).
Proof.
  induction q as [|b l IHl k' v' r IHr]; intros Hb; simpl.
  { do 3 eexists. split; [done|]. simpl. split_and!; try done; lia || auto. }
  destruct Hb as (Hd&Hr&Hbl&Hbr).
  pose proof (height_nonneg l). pose proof (height_nonneg r).
  destruct (k ?= k').
  - do 3 eexists. split; [done|]. simpl. split_and!; try done; lia.
  - destruct (IHl Hbl) as (l'&f&sz'&->&Hb'&Hh&Hf). simpl. destruct f.
    + destruct (putFix_left b l' k' v' r) as (q'&f&->&?&?&?);
        [first [lia|by auto]..|].
      do 3 eexists. split; [done|]. split_and!; [done|destruct f; lia|auto].
    + do 3 eexists. split; [done|]. simpl. split_and!; try done; lia.
  - destruct (IHr Hbr) as (r'&f&sz'&->&Hb'&Hh&Hf). simpl. destruct f.
    + destruct (putFix_right b l k' v' r') as (q'&f&->&?&?&?);
        [first [lia|by auto]..|].
      do 3 eexists. split; [done|]. split_and!; [done|destruct f; lia|auto].
    + do 3 eexists. split; [done|]. simpl. split_and!; try done; lia.
Qed.

Lemma put_inorder k v q sz q' f sz' :
  ksorted (inorder q) → put k v q sz = Done (q', f, sz') →
  inorder q' = linsert k v (inorder q) ∧
  sz' = match alookup k (inorder q) with Some _ => sz | None => wrap64 (sz + 1) end.
Proof.
  revert q' f sz'. induction q as [|b l IHl k' v' r IHr]; simpl; intros q' f sz' Hs H.
  { by simplify_eq. }
  apply ksorted_mid in Hs as (Hsl&Hsr&Hl&Hr).
  destruct (Z.compare_spec k k') as [->|Hlt|Hgt].
  - simplify_eq. simpl. rewrite linsert_gt, alookup_gt by done. simpl.
    by rewrite Z.eqb_refl.
  - apply bind_Done in H as ([[l' f1] sz1]&H1&H). apply IHl in H1 as [E ->]; [|done].
    rewrite linsert_lt, alookup_lt by done. destruct f1.
    + apply bind_Done in H as ([q1 f2]&H2&[= <- <- <-]).
      apply putFix_inorder in H2. rewrite H2. simpl. by rewrite E.
    + simplify_eq. simpl. by rewrite E.
  - apply bind_Done in H as ([[r' f1] sz1]&H1&H). apply IHr in H1 as [E ->]; [|done].
    rewrite linsert_gt_mid, alookup_gt_mid by done. destruct f1.
    + apply bind_Done in H as ([q1 f2]&H2&[= <- <- <-]).
      apply putFix_inorder in H2. rewrite H2. simpl. by rewrite E.
    + simplify_eq. simpl. by rewrite E.
Qed.

Lemma GetNode_spec k q :
  ksorted (inorder q) →
  match GetNode k q with Nil => None | Node _ _ _ v _ => Some v end =
  alookup k (inorder q).
Proof.
  induction q as [|b l IHl k' v' r IHr]; simpl; intros Hs; [done|].
  apply ksorted_mid in Hs as (Hsl&Hsr&Hl&Hr).
  destruct (Z.compare_spec k k') as [->|Hlt|Hgt].
  - rewrite alookup_gt by done. simpl. by rewrite Z.eqb_refl.
  - by rewrite IHl, alookup_lt.
  - by rewrite IHr, alookup_gt_mid.
Qed.

(** ** Removal *)
Lemma nil_or_not n : n = Nil ∨ n ≠ Nil.
Proof. destruct n; auto. Qed.

Lemma not_nil_match {A} n (a b : A) :
  n ≠ Nil → match n with Nil => a | Node _ _ _ _ _ => b end = b.
Proof. by destruct n. Qed.

Lemma removeMin_step b l k v r :
  l ≠ Nil →
  removeMin (Node b l k v r) =
  ('(l', fix_, kv) ← removeMin l;
   if (fix_ : bool)
   then '(q', f) ← removeFix DRight (Node b l' k v r); Done (q', f, kv)
   else Done (Node b l' k v r, false, kv)).
Proof. by destruct l. Qed.

Lemma removeMin_balanced q :
  balanced q → q ≠ Nil →
  ∃ q' f kv, removeMin q = Done (q', f, kv) ∧ balanced q' ∧
    height q' = height q - (if f then 1 else 0) ∧ inorder q = kv :: inorder q'.
Proof.
  induction q as [|b l IHl k v r _]; intros Hb Hne; [done|]. clear Hne.
  destruct Hb as (Hd&Hr&Hbl&Hbr). pose proof (height_nonneg r).
  destruct (nil_or_not l) as [->|Hl].
  { do 3 eexists. split; [done|]. simpl in *. split_and!; [done|lia|done]. }
  rewrite removeMin_step by done.
  destruct IHl as (l'&f&kv&->&Hb'&Hh&Hi); [done..|]. simpl. destruct f.
  - destruct (removeFix_right b l' k v r) as (q'&f&E&?&?); [first [lia|by auto]..|].
    rewrite E. apply removeFix_inorder in E.
    do 3 eexists. split; [done|]. rewrite E, Hi.
    split_and!; [done|destruct f; lia|done].
  - do 3 eexists. split; [done|]. simpl. rewrite Hi. split_and!; try done; lia.
Qed.

Lemma remove_balanced k q sz :
  balanced q → ksorted (inorder q) →
  ∃ q' f sz', remove k q sz = Done (q', f, sz') ∧ balanced q' ∧
    height q' = height q - (if f then 1 else 0) ∧
    inorder q' = lremove k (inorder q) ∧
    sz' = match alookup k (inorder q) with Some _ => wrap64 (sz - 1) | None => sz end.
Proof.
  induction q as [|b l IHl k' v' r IHr]; intros Hb Hs; simpl.
  { do 3 eexists. split; [done|]. simpl. split_and!; try done; lia. }
  pose proof Hs as Hs0. simpl in Hs0. apply ksorted_mid in Hs0 as (Hsl&Hsr&Hl&Hrr).
  destruct Hb as (Hd&Hr&Hbl&Hbr). simpl in Hs.
  pose proof (height_nonneg l). pose proof (height_nonneg r).
  destruct (Z.compare_spec k k') as [->|Hlt|Hgt].
  - rewrite lremove_mid_eq, alookup_gt by done. simpl. rewrite Z.eqb_refl.
    destruct (nil_or_not r) as [->|Hne].
    { do 3 eexists. split; [done|]. simpl in *. rewrite app_nil_r.
      split_and!; try done; lia. }
    rewrite not_nil_match by done.
    destruct (removeMin_balanced r) as (r'&f&[mk mv]&->&?&?&Hi); [done..|].
    rewrite Hi. simpl. destruct f.
    + destruct (removeFix_left b l mk mv r') as (q'&f&E&?&?); [first [lia|by auto]..|].
      rewrite E. apply removeFix_inorder in E. do 3 eexists. split; [done|].
      rewrite E. split_and!; [done|destruct f; lia|done|done].
    + do 3 eexists. split; [done|]. simpl. split_and!; try done; lia.
  - rewrite lremove_mid_lt, alookup_lt by done.
    destruct (IHl Hbl Hsl) as (l'&f&sz'&->&Hb'&Hh&Hi&->). simpl. destruct f.
    + destruct (removeFix_right b l' k' v' r) as (q'&f&E&?&?); [first [lia|by auto]..|].
      rewrite E. apply removeFix_inorder in E. do 3 eexists. split; [done|].
      rewrite E. simpl. rewrite Hi. split_and!; [done|destruct f; lia|done|done].
    + do 3 eexists. split; [done|]. simpl. rewrite Hi. split_and!; try done; lia.
  - rewrite lremove_mid_gt, alookup_gt_mid by done.
    destruct (IHr Hbr Hsr) as (r'&f&sz'&->&Hb'&Hh&Hi&->). simpl. destruct f.
    + destruct (removeFix_left b l k' v' r') as (q'&f&E&?&?); [first [lia|by auto]..|].
      rewrite E. apply removeFix_inorder in E. do 3 eexists. split; [done|].
      rewrite E. simpl. rewrite Hi. split_and!; [done|destruct f; lia|done|done].
    + do 3 eexists. split; [done|]. simpl. rewrite Hi. split_and!; try done; lia.
Qed.

(** ** The tree as an ordered map *)
Implicit Types t : Tree V.

Lemma NewTree_wf : wf_tree (V := V) NewTree.
Proof. split; simpl; [constructor|done|done]. Qed.

Lemma Get_spec t k : wf_tree t → Get t k = alookup k (contents t).
Proof. intros [Hs _ _]. unfold Get, contents. by rewrite <- GetNode_spec. Qed.

Lemma Put_spec t k v :
  wf_tree t → Z.of_nat (length (contents t)) < MaxInt64 →
  ∃ t', Put t k v = Done t' ∧ wf_tree t' ∧ contents t' = linsert k v (contents t).
Proof.
  intros [Hs Hb Hz] Hlen. unfold Put, contents in *.
  destruct (put_balanced k v (Root t) (size t) Hb) as (q'&f&sz'&E&Hb'&_).
  rewrite E. destruct (put_inorder _ _ _ _ _ _ _ Hs E) as [Ei ->].
  eexists. split; [done|]. split; [|done]. split; unfold contents; simpl.
  - rewrite Ei. by apply ksorted_linsert.
  - done.
  - rewrite Ei, Hz. destruct (alookup k (inorder (Root t))) eqn:El.
    + by erewrite length_linsert_found.
    + rewrite length_linsert_fresh by done.
      rewrite wrap64_id; [lia|]. unfold int64_range, MinInt64 in *. lia.
Qed.

Lemma Remove_spec t k :
  wf_tree t → Z.of_nat (length (contents t)) ≤ MaxInt64 →
  ∃ t', Remove t k = Done t' ∧ wf_tree t' ∧ contents t' = lremove k (contents t).
Proof.
  intros [Hs Hb Hz] Hlen. unfold Remove, contents in *.
  destruct (remove_balanced k (Root t) (size t) Hb Hs) as (q'&f&sz'&E&Hb'&_&Ei&->).
  rewrite E. eexists. split; [done|]. split; [|done]. split; unfold contents; simpl.
  - rewrite Ei. by apply ksorted_lremove.
  - done.
  - rewrite Ei, Hz. destruct (alookup k (inorder (Root t))) eqn:El.
    + apply alookup_Some in El; [|done]. apply list_elem_of_split in El as (l1&l2&E1).
      rewrite E1 in *. rewrite lremove_mid_eq by done.
      rewrite !length_app in *. simpl in *. rewrite wrap64_id; [lia|].
      unfold int64_range, MinInt64, MaxInt64 in *. lia.
    + apply alookup_None in El. rewrite lremove_notin; [done|].
      apply Forall_forall. intros p Hp <-. apply El. apply list_elem_of_fmap. eauto.
Qed.

Lemma Left_spec t : entry (Left t) = head (contents t).
Proof.
  unfold Left, contents. generalize (Root t). intros n.
  induction n as [|b l IHl k v r _]; simpl; [done|].
  destruct l as [|b0 l0 k0 v0 r0]; [done|]. rewrite IHl. simpl.
  destruct (inorder l0); done.
Qed.

(** [floor_loop] finds the last entry whose key is at most [k]. *)
Lemma floor_loop_spec k n fl :
  ksorted (inorder n) →
  entry (floor_loop k n fl) =
  match last (filter (λ p, p.1 ≤ k) (inorder n)) with
  | Some p => Some p | None => entry fl end.
Proof.
  revert fl. induction n as [|b l IHl k' v r IHr]; intros fl Hs; [done|].
  cbn [inorder floor_loop] in *. apply ksorted_mid in Hs as (Hsl&Hsr&Hl&Hr).
  assert (∀ m : list (Z * V), Forall (λ p, k < p.1) m →
    filter (λ p : Z * V, p.1 ≤ k) m = []) as Hnil.
  { intros m. induction 1 as [|e m Hp _ IH]; [done|].
    rewrite filter_cons_False; [done|lia]. }
  rewrite filter_app. destruct (Z.compare_spec k k') as [->|Hlt|Hgt].
  - rewrite filter_cons_True by (simpl; lia). rewrite (Hnil (inorder r)) by done.
    by rewrite last_snoc.
  - rewrite filter_cons_False by (simpl; lia).
    rewrite (Hnil (inorder r)), app_nil_r; [auto|]. eapply Forall_impl; [exact Hr|]. simpl. lia.
  - rewrite filter_cons_True by (simpl; lia). rewrite IHr by done.
    rewrite last_app, last_cons. by destruct (last (filter _ (inorder r))).
Qed.

Lemma Floor_spec t k :
  wf_tree t →
  entry (Floor t k) = last (filter (λ p, p.1 ≤ k) (contents t)).
Proof.
  intros [Hs _ _]. unfold Floor. rewrite floor_loop_spec by done. simpl.
  unfold contents. by destruct (last _).
Qed.

(** A balanced tree of height [h] has at least [2^(h/2) - 1] entries. *)
Lemma balanced_height n :
  balanced n → 2 ^ height n ≤ (Z.of_nat (length (inorder n)) + 1) ^ 2.
Proof.
  induction n as [|b l IHl k v r IHr]; simpl; [done|].
  intros (Hd&Hb&Hl%IHl&Hr%IHr). rewrite length_app. simpl.
  pose proof (height_nonneg l). pose proof (height_nonneg r).
  set (a := Z.of_nat (length (inorder l)) + 1) in *.
  set (c := Z.of_nat (length (inorder r)) + 1) in *.
  replace (Z.of_nat (_ + S _) + 1) with (a + c) by lia.
  assert (∃ m, 0 ≤ m ≤ a ∧ m ≤ c ∧ 2 ^ (Z.max (height l) (height r) - 1) ≤ m ^ 2)
    as (m&Hm&Hmc&Hm2).
  { assert (∀ x y, 0 ≤ x → y - 1 ≤ x → 2 ^ (y - 1) ≤ 2 ^ x) as Hp
      by (intros; apply Z.pow_le_mono_r; lia).
    destruct (Z.le_gt_cases a c); [exists a|exists c];
      (split_and!; [lia..|]); (etrans; [apply Hp|done]); lia. }
  assert (2 ^ (1 + Z.max (height l) (height r)) ≤
    4 * 2 ^ (Z.max (height l) (height r) - 1) ∨
    Z.max (height l) (height r) = 0) as [Hp|Hz].
  { destruct (decide (Z.max (height l) (height r) = 0)); [by right|left].
    replace 4 with (2 ^ 2) by done. rewrite <- Z.pow_add_r by lia.
    apply Z.pow_le_mono_r; lia. }
  - nia.
  - rewrite Hz. assert (1 ≤ a) by (unfold a; lia). assert (1 ≤ c) by (unfold c; lia).
    change (2 ^ (1 + 0)) with 2. nia.
Qed.

Lemma run_refines ops t :
  wf_tree t → Z.of_nat (length (contents t) + length ops) ≤ MaxInt64 →
  ∃ t', run ops t = Done t' ∧ wf_tree t' ∧ contents t' = run_spec ops (contents t).
Proof.
  revert t. induction ops as [|[k v|k] ops IH]; intros t Ht Hlen; simpl in *.
  - eauto.
  - destruct (Put_spec t k v Ht) as (t1&->&Ht1&E); [lia|]. simpl. rewrite <- E.
    apply IH; [done|]. pose proof (length_linsert_le k v (contents t)). rewrite E. lia.
  - destruct (Remove_spec t k Ht) as (t1&->&Ht1&E); [lia|]. simpl. rewrite <- E.
    apply IH; [done|]. pose proof (length_lremove_le k (contents t)). rewrite E. lia.
Qed.
End Lemmas.

#[export] Hint Resolve NewTree_wf : logcache.

(** C18: any sequence of insertions and removals from the empty tree completes
    without a panic; the tree it leaves is a balanced search tree whose height
    is at most twice the logarithm of its size plus one, and its lookups, its
    leftmost node, its [Floor] and its [Size] are those of the sorted list of
    the specification. *)
Theorem avl_implements_ordered_map {V} (ops : list (op (V := V))) k :
  Z.of_nat (length ops) ≤ MaxInt64 →
  ∃ t, run ops NewTree = Done t ∧ wf_tree t ∧
    2 ^ height (Root t) ≤ (size t + 1) ^ 2 ∧
    let l := run_spec ops [] in
    Get t k = alookup k l ∧ entry (Left t) = head l ∧
    entry (Floor t k) = last (filter (λ p, p.1 ≤ k) l) ∧ size t = Z.of_nat (length l).
Proof.
  intros Hlen. destruct (run_refines ops NewTree) as (t&E&Ht&Hc); [apply NewTree_wf|done|].
  exists t. change (contents NewTree) with (@nil (Z * V)) in Hc. cbv zeta. rewrite <- Hc.
  split_and!; [done..| | | | |].
  - rewrite (wf_size _ Ht). apply balanced_height, Ht.
  - by apply Get_spec.
  - apply Left_spec.
  - by apply Floor_spec.
  - apply Ht.
Qed.

Lemma avl_implements_ordered_map_witness :
  ∃ t, run [OpPut 3 true; OpPut 5 false; OpPut 9 true; OpRemove 3] NewTree = Done t ∧
    wf_tree t ∧ 2 ^ height (Root t) ≤ (size t + 1) ^ 2 ∧
    let l := run_spec [OpPut 3 true; OpPut 5 false; OpPut 9 true; OpRemove 3] [] in
    Get t 8 = alookup 8 l ∧ entry (Left t) = head l ∧
    entry (Floor t 8) = last (filter (λ p, p.1 ≤ 8) l) ∧ size t = Z.of_nat (length l).
Proof. apply avl_implements_ordered_map. unfold MaxInt64. simpl. lia. Defined.
