(* ===== verification/Envelope.v ===== *)
(** * Envelopes and requests

    The data types of the generated protocol buffer code that Log Cache handles
    ([loggregator_v2.Envelope], [logcache_v1.EnvelopeType] and [MetaInfo]), with
    the source's field names and constructors.

    A protocol buffer pointer to a message is the message itself; the oneof
    [Message] is an [option] (unset is [None]).  The payload of a set oneof is
    present, as the decoder guarantees.  A nil map and an empty map are the same
    [gmap].  A [float64] is the standard library's [spec_float]; the functions
    of this file only copy it.  Byte slices are strings of bytes. *)

From Stdlib Require Export SpecFloat.
From S2P Require Import Prelude.

Abbreviation float64 := spec_float.

Inductive Log_Type := Log_OUT | Log_ERR | Log_Type_other (n : Z).

Record Log := mkLog { Log_Payload : string; Log_Type_ : Log_Type }.

Record Counter := mkCounter {
  Counter_Name : string; Counter_Delta : Z; Counter_Total : Z }.

Record GaugeValue := mkGaugeValue { GaugeValue_Unit : string; GaugeValue_Value : float64 }.

Record Gauge := mkGauge { Gauge_Metrics : gmap string GaugeValue }.

Record Timer := mkTimer { Timer_Name : string; Timer_Start : Z; Timer_Stop : Z }.

Record Event := mkEvent { Event_Title : string; Event_Body : string }.

Inductive Message_t :=
| Envelope_Log (l : Log)
| Envelope_Counter (c : Counter)
| Envelope_Gauge (g : Gauge)
| Envelope_Timer (t : Timer)
| Envelope_Event (e : Event).

Inductive Value :=
| Value_Text (s : string)
| Value_Integer (n : Z)
| Value_Decimal (f : float64).

Record Envelope := mkEnvelope {
  Timestamp : Z;
  SourceId : string;
  InstanceId : string;
  DeprecatedTags : gmap string Value;
  Tags : gmap string string;
  Message : option Message_t;
}.

(** Equality is decidable on all of them. *)
#[export] Instance spec_float_eq_dec : EqDecision spec_float.
Proof. solve_decision. Defined.
#[export] Instance Log_Type_eq_dec : EqDecision Log_Type.
Proof. solve_decision. Defined.
#[export] Instance Log_eq_dec : EqDecision Log.
Proof. solve_decision. Defined.
#[export] Instance Counter_eq_dec : EqDecision Counter.
Proof. solve_decision. Defined.
#[export] Instance GaugeValue_eq_dec : EqDecision GaugeValue.
Proof. solve_decision. Defined.
#[export] Instance Gauge_eq_dec : EqDecision Gauge.
Proof. solve_decision. Defined.
#[export] Instance Timer_eq_dec : EqDecision Timer.
Proof. solve_decision. Defined.
#[export] Instance Event_eq_dec : EqDecision Event.
Proof. solve_decision. Defined.
#[export] Instance Message_t_eq_dec : EqDecision Message_t.
Proof. solve_decision. Defined.
#[export] Instance Value_eq_dec : EqDecision Value.
Proof. solve_decision. Defined.
#[export] Instance Envelope_eq_dec : EqDecision Envelope.
Proof. solve_decision. Defined.

(** The accessors [GetLog], [GetCounter], ...: nil unless the oneof matches. *)
Definition GetLog (e : Envelope) : option Log :=
  match Message e with Some (Envelope_Log l) => Some l | _ => None end.
Definition GetCounter (e : Envelope) : option Counter :=
  match Message e with Some (Envelope_Counter c) => Some c | _ => None end.
Definition GetGauge (e : Envelope) : option Gauge :=
  match Message e with Some (Envelope_Gauge g) => Some g | _ => None end.
Definition GetTimer (e : Envelope) : option Timer :=
  match Message e with Some (Envelope_Timer t) => Some t | _ => None end.
Definition GetEvent (e : Envelope) : option Event :=
  match Message e with Some (Envelope_Event v) => Some v | _ => None end.

(** Proto3 enums are open: a request may carry any other number. *)
Inductive EnvelopeType :=
| EnvelopeType_ANY
| EnvelopeType_LOG
| EnvelopeType_COUNTER
| EnvelopeType_GAUGE
| EnvelopeType_TIMER
| EnvelopeType_EVENT
| EnvelopeType_other (n : Z).

Record MetaInfo := mkMetaInfo {
  Count : Z;
  Expired : Z;
  OldestTimestamp : Z;
  NewestTimestamp : Z;
}.

#[export] Instance EnvelopeType_eq_dec : EqDecision EnvelopeType.
Proof. solve_decision. Defined.

#[export] Instance MetaInfo_eq_dec : EqDecision MetaInfo.
Proof. solve_decision. Defined.
