(* ===== verification/ExpirationHeap.v ===== *)
(** * The expiration heap

    Models [ExpirationHeap] of internal/cache/store/store.go, and the functions
    [Init], [Push], [Pop], [up] and [down] of Go's [container/heap] that drive it.
    The heap is a slice: a list indexed from 0.  An index out of range is
    [Panic].  The loops [up] and [down] carry fuel; the theorems show that the
    fuel given by [heap_Push] and [heap_Pop] is enough. *)

From S2P Require Import Prelude.

(** The [tree *storage] of an entry is a location in the store's memory. *)
Record storageExpiration := mkExpiration {
  timestamp : Z;
  sourceId : string;
  tree : nat;
}.

#[export] Instance storageExpiration_inhabited : Inhabited storageExpiration :=
  populate (mkExpiration 0 "" 0%nat).

Abbreviation ExpirationHeap := (list storageExpiration).

Definition Len (h : ExpirationHeap) : nat := length h.

Definition Less (h : ExpirationHeap) (i j : nat) : outcome bool :=
  a ← must (h !! i);
  b ← must (h !! j);
  Done (timestamp a <? timestamp b).

Definition Swap (h : ExpirationHeap) (i j : nat) : outcome ExpirationHeap :=
  a ← must (h !! i);
  b ← must (h !! j);
  Done (<[j := a]> (<[i := b]> h)).

Definition Push (h : ExpirationHeap) (x : storageExpiration) : ExpirationHeap :=
  h ++ [x].

(** The method [Pop]: it removes the last element of the slice. *)
Definition Pop (h : ExpirationHeap) : outcome (storageExpiration * ExpirationHeap) :=
  match length h with
  | O => Panic
  | S n => x ← must (h !! n); Done (x, take n h)
  end.

(** ** Go's container/heap *)
Definition parent (j : nat) : nat := ((j - 1) / 2)%nat.

Fixpoint up (fuel : nat) (h : ExpirationHeap) (j : nat) : outcome ExpirationHeap :=
  match fuel with
  | O => Panic
  | S fuel =>
      let i := parent j in
      if decide (i = j) then Done h
      else
        lt ← Less h j i;
        if (lt : bool) then h' ← Swap h i j; up fuel h' i else Done h
  end.

Fixpoint down (fuel : nat) (h : ExpirationHeap) (i n : nat) : outcome ExpirationHeap :=
  match fuel with
  | O => Panic
  | S fuel =>
      let j1 := (2 * i + 1)%nat in
      if decide (n ≤ j1)%nat then Done h
      else
        let j2 := (j1 + 1)%nat in
        lt2 ← (if decide (j2 < n)%nat then Less h j2 j1 else Done false);
        let j := if (lt2 : bool) then j2 else j1 in
        lt ← Less h j i;
        if (lt : bool) then h' ← Swap h i j; down fuel h' j n else Done h
  end.

Definition heap_Push (h : ExpirationHeap) (x : storageExpiration) : outcome ExpirationHeap :=
  let h := Push h x in
  up (Len h) h (Len h - 1).

Definition heap_Pop (h : ExpirationHeap) : outcome (storageExpiration * ExpirationHeap) :=
  let n := (Len h - 1)%nat in
  h ← Swap h 0 n;
  h ← down (S n) h 0 n;
  Pop h.

(** ** Specification *)

(** The key at index [i], 0 outside. *)
Definition hkey (h : ExpirationHeap) (i : nat) : Z := timestamp (h !!! i).

(** Every entry among the first [n] is at least its parent. *)
Definition heap_upto (n : nat) (h : ExpirationHeap) : Prop :=
  ∀ i, (0 < i < n)%nat → hkey h (parent i) ≤ hkey h i.

Definition heap_ordered (h : ExpirationHeap) : Prop := heap_upto (length h) h.

(** ** Swapping *)
Definition swapped (h : ExpirationHeap) (i j : nat) : ExpirationHeap :=
  <[j := h !!! i]> (<[i := h !!! j]> h).

Lemma lookup_total_Some (h : ExpirationHeap) i :
  (i < length h)%nat → h !! i = Some (h !!! i).
Proof. apply list_lookup_lookup_total_lt. Qed.

Lemma Less_spec h i j :
  (i < length h)%nat → (j < length h)%nat →
  Less h i j = Done (hkey h i <? hkey h j).
Proof. intros Hi Hj. unfold Less. by rewrite !lookup_total_Some. Qed.

Lemma Swap_spec h i j :
  (i < length h)%nat → (j < length h)%nat → Swap h i j = Done (swapped h i j).
Proof. intros Hi Hj. unfold Swap. by rewrite !lookup_total_Some. Qed.

Lemma length_swapped h i j : length (swapped h i j) = length h.
Proof. unfold swapped. by rewrite !length_insert. Qed.

Lemma hkey_swapped h i j m :
  (i < length h)%nat → (j < length h)%nat →
  hkey (swapped h i j) m =
  if decide (m = j) then hkey h i else if decide (m = i) then hkey h j else hkey h m.
Proof.
  intros Hi Hj. unfold hkey, swapped. repeat case_decide; subst.
  - by rewrite list_lookup_total_insert_eq by (by rewrite length_insert).
  - rewrite list_lookup_total_insert_ne by done. by rewrite list_lookup_total_insert_eq.
  - by rewrite !list_lookup_total_insert_ne by done.
Qed.

Lemma swapped_perm h i j :
  (i < length h)%nat → (j < length h)%nat → swapped h i j ≡ₚ h.
Proof.
  intros Hi Hj. unfold swapped. destruct (decide (i = j)) as [->|Hne].
  { rewrite list_insert_insert_eq, list_insert_id; [done|]. by apply lookup_total_Some. }
  destruct (lookup_lt_is_Some_2 h i Hi) as [a Ha].
  destruct (lookup_lt_is_Some_2 h j Hj) as [b Hb].
  rewrite (list_lookup_total_correct _ _ _ Ha), (list_lookup_total_correct _ _ _ Hb).
  apply Permutation_inj. split; [by rewrite !length_insert|].
  exists (λ m, if decide (m = i) then j else if decide (m = j) then i else m). split.
  - intros x y. repeat case_decide; congruence.
  - intros m. repeat case_decide; subst.
    + rewrite list_lookup_insert_ne, list_lookup_insert_eq by done. done.
    + rewrite list_lookup_insert_eq by (by rewrite length_insert). done.
    + by rewrite !list_lookup_insert_ne by done.
Qed.

(** ** Sifting up *)
Lemma parent_lt i : (0 < i)%nat → (parent i < i)%nat.
Proof. intros. unfold parent. apply Nat.Div0.div_lt_upper_bound; lia. Qed.

Lemma parent_neq i : (0 < i)%nat → parent i ≠ i.
Proof. intros H%parent_lt. lia. Qed.

Lemma parent_child i c :
  (0 < c)%nat → parent c = i ↔ c = (2 * i + 1)%nat ∨ c = (2 * i + 1 + 1)%nat.
Proof.
  intros Hc. unfold parent.
  pose proof (Nat.div_mod_eq (c - 1) 2). pose proof (Nat.mod_upper_bound (c - 1) 2). lia.
Qed.

(** The heap order may fail between [j] and its parent only, and the children
    of [j] are at least the parent of [j]. *)
Definition heap_except_up (h : ExpirationHeap) (j : nat) : Prop :=
  (∀ i, (0 < i < length h)%nat → i ≠ j → hkey h (parent i) ≤ hkey h i) ∧
  (∀ c, (0 < c < length h)%nat → parent c = j → (0 < j)%nat →
    hkey h (parent j) ≤ hkey h c).

Lemma heap_except_up_swap h j :
  (0 < j < length h)%nat → heap_except_up h j → hkey h j < hkey h (parent j) →
  heap_except_up (swapped h (parent j) j) (parent j).
Proof.
  intros Hj [H1 H2] Hlt. pose proof (parent_lt j). split; rewrite length_swapped.
  - intros i Hi Hne. pose proof (parent_lt i). rewrite !hkey_swapped by lia.
    destruct (decide (i = j)) as [->|Hij].
    { rewrite decide_False, !decide_True by lia. lia. }
    pose proof (H1 i Hi Hij). rewrite (decide_False (P := i = parent j)) by done.
    destruct (decide (parent i = j)) as [Hpj|].
    { rewrite Hpj in *. pose proof (H2 i). lia. }
    case_decide as E; [|done]. rewrite E in *. lia.
  - intros c Hc Hp Hpos. rewrite !hkey_swapped by lia.
    pose proof (parent_lt (parent j)). pose proof (H1 c). pose proof (H1 (parent j)).
    repeat case_decide; subst; try lia. rewrite Hp in *. lia.
Qed.

Lemma up_spec fuel h j :
  (j < length h)%nat → (j < fuel)%nat → heap_except_up h j →
  ∃ h', up fuel h j = Done h' ∧ h' ≡ₚ h ∧ heap_ordered h'.
Proof.
  revert h j. induction fuel as [|fuel IH]; intros h j Hj Hf Hh; [lia|]. cbn [up].
  case_decide as Hp.
  { exists h. split_and!; [done..|]. intros i Hi. apply Hh; [done|].
    intros ->. pose proof (parent_lt j). lia. }
  assert (0 < j)%nat by (destruct j; [done|lia]). pose proof (parent_lt j).
  rewrite Less_spec by lia. cbn [mbind outcome_bind].
  destruct (Z.ltb_spec (hkey h j) (hkey h (parent j))).
  - rewrite Swap_spec by lia. cbn [mbind outcome_bind].
    destruct (IH (swapped h (parent j) j) (parent j)) as (h'&->&Hperm&Ho);
      [rewrite length_swapped; lia|lia|by apply heap_except_up_swap|].
    exists h'. split_and!; [done| |done]. rewrite Hperm. apply swapped_perm; lia.
  - exists h. split_and!; [done..|]. intros i Hi. destruct (decide (i = j)) as [->|];
      [done|by apply Hh].
Qed.

(** ** Sifting down *)

(** Among the first [n] entries the heap order may fail between [j] and its
    children only, which are at least the parent of [j]. *)
Definition heap_except_down (h : ExpirationHeap) (n j : nat) : Prop :=
  (∀ i, (0 < i < n)%nat → parent i ≠ j → hkey h (parent i) ≤ hkey h i) ∧
  (∀ c, (0 < c < n)%nat → parent c = j → (0 < j)%nat → hkey h (parent j) ≤ hkey h c).

Lemma heap_except_down_swap h n i j :
  (n ≤ length h)%nat → (0 < j < n)%nat → parent j = i → heap_except_down h n i →
  (∀ c, (0 < c < n)%nat → parent c = i → hkey h j ≤ hkey h c) → hkey h j < hkey h i →
  heap_except_down (swapped h i j) n j.
Proof.
  intros Hn Hj Hp [H1 H2] Hmin Hlt. pose proof (parent_lt j). subst i.
  assert (parent j ≠ j) by lia. split.
  - intros m Hm Hne. pose proof (parent_lt m). rewrite !hkey_swapped by lia.
    rewrite (decide_False (P := parent m = j)) by done.
    destruct (decide (m = j)) as [->|]; [rewrite decide_True by done; lia|].
    destruct (decide (m = parent j)) as [->|].
    { rewrite decide_False by lia. apply H2; lia. }
    case_decide; [by apply Hmin|by apply H1].
  - intros c Hc Hpc Hpos. pose proof (parent_lt c). rewrite !hkey_swapped by lia.
    rewrite decide_False, decide_True, !decide_False by lia.
    pose proof (H1 c Hc). rewrite Hpc in *. pose proof (Hmin j). lia.
Qed.

Lemma down_spec fuel h i n :
  (n ≤ length h)%nat → (i < n ∨ n = 0 ∧ i = 0)%nat → (n < fuel + i)%nat →
  heap_except_down h n i →
  ∃ h', down fuel h i n = Done h' ∧ h' ≡ₚ h ∧ heap_upto n h' ∧
    (∀ m, (n ≤ m)%nat → h' !! m = h !! m).
Proof.
  revert h i. induction fuel as [|fuel IH]; intros h i Hn Hi Hf Hh; [lia|]. cbn [down].
  case_decide as Hj1.
  { exists h. split_and!; try done. intros m Hm. apply Hh; [done|].
    rewrite parent_child; lia. }
  assert (∃ j, (0 < j < n)%nat ∧ parent j = i ∧
    (∀ c, (0 < c < n)%nat → parent c = i → hkey h j ≤ hkey h c) ∧
    (lt2 ← (if decide ((2 * i + 1) + 1 < n)%nat
            then Less h ((2 * i + 1) + 1) (2 * i + 1) else Done false);
     Done (if (lt2 : bool) then (2 * i + 1) + 1 else 2 * i + 1)%nat) = Done j)
    as (j&Hj&Hp&Hmin&Ej).
  { case_decide as Hj2.
    - rewrite Less_spec by lia. cbn [mbind outcome_bind].
      destruct (Z.ltb_spec (hkey h (2 * i + 1 + 1)) (hkey h (2 * i + 1)));
        [exists (2 * i + 1 + 1)%nat|exists (2 * i + 1)%nat];
        (split_and!; [lia|lia|apply parent_child; lia| |done]);
        intros c Hc Hpc; apply parent_child in Hpc as [-> | ->]; lia.
    - exists (2 * i + 1)%nat. split_and!; [lia|lia|apply parent_child; lia| |done].
      intros c Hc Hpc. apply parent_child in Hpc as [-> | ->]; lia. }
  apply bind_Done in Ej as (lt2&->&[= <-]). cbn [mbind outcome_bind].
  set (j := if lt2 then _ else _) in *. clearbody j. pose proof (parent_lt j).
  rewrite Less_spec by lia. cbn [mbind outcome_bind].
  destruct (Z.ltb_spec (hkey h j) (hkey h i)) as [Hlt|Hge].
  - rewrite Swap_spec by lia. cbn [mbind outcome_bind].
    destruct (IH (swapped h i j) j) as (h'&->&Hperm&Ho&Htl);
      [rewrite length_swapped; lia|lia|lia|by apply heap_except_down_swap|].
    exists h'. split_and!; [done| |done|].
    + rewrite Hperm. apply swapped_perm; lia.
    + intros m Hm. rewrite Htl by done. unfold swapped.
      by rewrite !list_lookup_insert_ne by lia.
  - exists h. split_and!; try done. intros m Hm.
    destruct (decide (parent m = i)) as [E|]; [|by apply Hh]. rewrite E.
    etrans; [exact Hge|]. by apply Hmin.
Qed.

(** ** Push and Pop *)
Lemma heap_root_min n h i : heap_upto n h → (i < n)%nat → hkey h 0 ≤ hkey h i.
Proof.
  intros Hh. induction (lt_wf i) as [i _ IH]. intros Hi.
  destruct (decide (i = 0%nat)) as [->|]; [lia|].
  pose proof (parent_lt i). pose proof (Hh i). pose proof (IH (parent i)). lia.
Qed.

Lemma hkey_app_l h h' i : (i < length h)%nat → hkey (h ++ h') i = hkey h i.
Proof. intros. unfold hkey. by rewrite lookup_total_app_l. Qed.

Lemma hkey_take n h i : (i < n)%nat → hkey (take n h) i = hkey h i.
Proof.
  intros. unfold hkey. rewrite !list_lookup_total_alt. by rewrite lookup_take_lt.
Qed.

Lemma heap_ordered_nil : heap_ordered [].
Proof. intros i Hi. simpl in Hi. lia. Qed.

Lemma heap_Push_spec h x :
  heap_ordered h → ∃ h', heap_Push h x = Done h' ∧ h' ≡ₚ x :: h ∧ heap_ordered h'.
Proof.
  intros Hh. unfold heap_Push, Push, Len.
  destruct (up_spec (length (h ++ [x])) (h ++ [x]) (length (h ++ [x]) - 1))
    as (h'&->&Hp&Ho); rewrite ?length_app; simpl; [lia..| |].
  - replace (length h + 1 - 1)%nat with (length h) by lia. split; rewrite length_app; simpl.
    + intros i Hi Hne. pose proof (parent_lt i).
      rewrite !hkey_app_l by lia. apply Hh. lia.
    + intros c Hc Hpc Hpos. pose proof (parent_lt c). lia.
  - exists h'. split_and!; [done| |done]. rewrite Hp. symmetry. apply Permutation_cons_append.
Qed.

Lemma Pop_snoc h x : Pop (h ++ [x]) = Done (x, h).
Proof.
  unfold Pop. rewrite length_app, Nat.add_1_r, list_lookup_middle by done. simpl.
  by rewrite take_app_length.
Qed.

Lemma heap_Pop_spec h :
  heap_ordered h → h ≠ [] →
  ∃ x h', heap_Pop h = Done (x, h') ∧ h ≡ₚ x :: h' ∧ heap_ordered h' ∧
    (∀ y, y ∈ h' → timestamp x ≤ timestamp y).
Proof.
  intros Hh Hne. assert (0 < length h)%nat by (destruct h; simpl; [done|lia]).
  unfold heap_Pop, Len. rewrite Swap_spec by lia. cbn [mbind outcome_bind].
  set (n := (length h - 1)%nat). set (h1 := swapped h 0 n).
  assert (length h1 = length h) as Hl1 by apply length_swapped.
  assert (∀ m, hkey h1 m = if decide (m = n) then hkey h 0
    else if decide (m = 0%nat) then hkey h n else hkey h m) as Hk
    by (intros; apply hkey_swapped; lia).
  destruct (down_spec (S n) h1 0 n) as (h2&->&Hp2&Ho2&Htl); [lia|lia|lia| |].
  { split; [|lia]. intros i Hi Hpi. pose proof (parent_lt i). rewrite !Hk.
    rewrite !decide_False by lia. apply Hh. lia. }
  cbn [mbind outcome_bind]. unfold Pop.
  assert (length h2 = S n) as Hl2 by (rewrite (Permutation_length Hp2); lia). rewrite Hl2.
  assert (h2 !! n = Some (h !!! 0%nat)) as Hx.
  { rewrite Htl by lia. rewrite lookup_total_Some by lia. f_equal.
    unfold h1, swapped. apply list_lookup_total_insert_eq. rewrite length_insert. lia. }
  rewrite Hx. cbn. do 2 eexists. split; [done|].
  assert (h2 = take n h2 ++ [h !!! 0%nat]) as E2.
  { rewrite <- (take_drop n h2) at 1. f_equal.
    rewrite (drop_S _ _ _ Hx), drop_ge by lia. done. }
  assert (h ≡ₚ h !!! 0%nat :: take n h2) as Hperm.
  { rewrite Permutation_cons_append, <- E2, Hp2. symmetry. apply swapped_perm; lia. }
  split_and!; [done|..].
  - intros i Hi. rewrite length_take in Hi. pose proof (parent_lt i).
    rewrite !hkey_take by lia. apply Ho2. lia.
  - intros y Hy. assert (y ∈ h) as (i&Hi)%list_elem_of_lookup by (rewrite Hperm; set_solver).
    pose proof (lookup_lt_Some _ _ _ Hi).
    apply (heap_root_min (length h) h i) in Hh; [|done]. unfold hkey in Hh.
    by rewrite (list_lookup_total_correct _ _ _ Hi) in Hh.
Qed.

#[export] Hint Resolve heap_ordered_nil : logcache.

(** ** The heap as a priority queue *)
Fixpoint push_all (h : ExpirationHeap) (l : list storageExpiration) : outcome ExpirationHeap :=
  match l with
  | [] => Done h
  | x :: l => h ← heap_Push h x; push_all h l
  end.

Fixpoint pop_all (n : nat) (h : ExpirationHeap) : outcome (list storageExpiration) :=
  match n with
  | O => Done []
  | S n => '(x, h) ← heap_Pop h; l ← pop_all n h; Done (x :: l)
  end.

Lemma push_all_spec h l :
  heap_ordered h → ∃ h', push_all h l = Done h' ∧ h' ≡ₚ l ++ h ∧ heap_ordered h'.
Proof.
  revert h. induction l as [|x l IH]; intros h Hh; simpl; [eauto|].
  destruct (heap_Push_spec h x Hh) as (h1&->&Hp&Ho). cbn [mbind outcome_bind].
  destruct (IH h1 Ho) as (h'&->&Hp'&Ho'). exists h'. split_and!; [done| |done].
  by rewrite Hp', Hp, Permutation_middle.
Qed.

Lemma pop_all_spec n h :
  heap_ordered h → length h = n →
  ∃ l, pop_all n h = Done l ∧ l ≡ₚ h ∧
    StronglySorted (λ x y, timestamp x ≤ timestamp y) l.
Proof.
  revert h. induction n as [|n IH]; intros h Hh Hn; simpl.
  { apply nil_length_inv in Hn as ->. exists []. repeat constructor. }
  destruct (heap_Pop_spec h Hh) as (x&h1&->&Hp&Ho&Hmin); [by intros ->|].
  cbn [mbind outcome_bind]. destruct (IH h1 Ho) as (l&->&Hl&Hs).
  { apply Permutation_length in Hp. simpl in Hp. lia. }
  exists (x :: l). split_and!; [done|by rewrite Hp, Hl|]. constructor; [done|].
  apply Forall_forall. intros y Hy. apply Hmin. by rewrite <- Hl.
Qed.

(** The expiration heap is a priority queue: pushing any entries and then
    popping them all, with [container/heap], panics nowhere and gives the same
    entries from the oldest to the newest. *)
Theorem heap_sorts l :
  ∃ h out, push_all [] l = Done h ∧ pop_all (length l) h = Done out ∧
    out ≡ₚ l ∧ StronglySorted (λ x y, timestamp x ≤ timestamp y) out.
Proof.
  destruct (push_all_spec [] l heap_ordered_nil) as (h&E&Hp&Ho). rewrite app_nil_r in Hp.
  destruct (pop_all_spec (length l) h Ho) as (out&E'&Hp'&Hs); [by rewrite Hp|].
  exists h, out. split_and!; [done..|by rewrite Hp'|done].
Qed.
