(* ===== verification/Store.v ===== *)
(** * The store: state and operations

    Models internal/cache/store/store.go.

    [Store] is the struct, with the heap of the [storage] objects it points to:
    [storageIndex] maps a source id to a location and [mem] a location to its
    [storage], so that a storage that left the index can still be reached by a
    pointer held elsewhere (by the expiration heap, or by a concurrent [Put]).
    One definition is one critical section of the code; [now] is the value
    [time.Now().UnixNano()] returns in it.

    [sync.Map.Range] and [range] over a map visit the keys in an unspecified
    order: the operations take the order as an argument and the theorems hold
    for every order.  Counters and gauges keep the integer passed to [Add] and
    [Set], before its conversion to [float64]. *)

From S2P Require Import Prelude AvlTree Envelope ExpirationHeap.

(** [MIN_INT64] of the source: [int64(^uint64(0) >> 1)]. *)
Definition MIN_INT64 : Z := Z.shiftr (Z.lxor 0 MaxUint64) 1.

Record Metrics := mkMetrics {
  expired : Z;
  cachePeriod : Z;
  ingress : Z;
  egress : Z;
  storeSize : Z;
}.

Record storage := mkStorage {
  storage_sourceId : string;
  meta : MetaInfo;
  storage_Tree : Tree Envelope;
}.

Record Store := mkStore {
  storageIndex : gmap string nat;
  mem : gmap nat storage;
  nextLoc : nat;
  count : Z;
  oldestTimestamp : Z;
  maxPerSource : Z;
  maxTimestampFudge : Z;
  metrics : Metrics;
  prunesPerGC : Z;
  consecutiveTruncation : Z;
  gcRuns : Z;
}.

(** Field updates. *)
Definition upd_index (f : gmap string nat → gmap string nat) (s : Store) : Store :=
  mkStore (f (storageIndex s)) (mem s) (nextLoc s) (count s) (oldestTimestamp s)
    (maxPerSource s) (maxTimestampFudge s) (metrics s) (prunesPerGC s)
    (consecutiveTruncation s) (gcRuns s).
Definition set_mem (l : nat) (st : storage) (s : Store) : Store :=
  mkStore (storageIndex s) (<[l := st]> (mem s)) (nextLoc s) (count s)
    (oldestTimestamp s) (maxPerSource s) (maxTimestampFudge s) (metrics s)
    (prunesPerGC s) (consecutiveTruncation s) (gcRuns s).
Definition set_count (c : Z) (s : Store) : Store :=
  mkStore (storageIndex s) (mem s) (nextLoc s) c (oldestTimestamp s) (maxPerSource s)
    (maxTimestampFudge s) (metrics s) (prunesPerGC s) (consecutiveTruncation s) (gcRuns s).
Definition set_oldest (t : Z) (s : Store) : Store :=
  mkStore (storageIndex s) (mem s) (nextLoc s) (count s) t (maxPerSource s)
    (maxTimestampFudge s) (metrics s) (prunesPerGC s) (consecutiveTruncation s) (gcRuns s).
Definition upd_metrics (f : Metrics → Metrics) (s : Store) : Store :=
  mkStore (storageIndex s) (mem s) (nextLoc s) (count s) (oldestTimestamp s)
    (maxPerSource s) (maxTimestampFudge s) (f (metrics s)) (prunesPerGC s)
    (consecutiveTruncation s) (gcRuns s).
Definition set_consecutive (c : Z) (s : Store) : Store :=
  mkStore (storageIndex s) (mem s) (nextLoc s) (count s) (oldestTimestamp s)
    (maxPerSource s) (maxTimestampFudge s) (metrics s) (prunesPerGC s) c (gcRuns s).
Definition run_GC (s : Store) : Store :=
  mkStore (storageIndex s) (mem s) (nextLoc s) (count s) (oldestTimestamp s)
    (maxPerSource s) (maxTimestampFudge s) (metrics s) (prunesPerGC s)
    (consecutiveTruncation s) (gcRuns s + 1).
(** A fresh [&storage{...}]: its location and the store that points to it. *)
Definition alloc (st : storage) (s : Store) : nat * Store :=
  (nextLoc s,
   mkStore (storageIndex s) (<[nextLoc s := st]> (mem s)) (S (nextLoc s)) (count s)
     (oldestTimestamp s) (maxPerSource s) (maxTimestampFudge s) (metrics s)
     (prunesPerGC s) (consecutiveTruncation s) (gcRuns s)).

Definition add_expired (n : Z) (m : Metrics) : Metrics :=
  mkMetrics (expired m + n) (cachePeriod m) (ingress m) (egress m) (storeSize m).
Definition set_cachePeriod (n : Z) (m : Metrics) : Metrics :=
  mkMetrics (expired m) n (ingress m) (egress m) (storeSize m).
Definition add_ingress (n : Z) (m : Metrics) : Metrics :=
  mkMetrics (expired m) (cachePeriod m) (ingress m + n) (egress m) (storeSize m).
Definition add_egress (n : Z) (m : Metrics) : Metrics :=
  mkMetrics (expired m) (cachePeriod m) (ingress m) (egress m + n) (storeSize m).
Definition set_storeSize (n : Z) (m : Metrics) : Metrics :=
  mkMetrics (expired m) (cachePeriod m) (ingress m) (egress m) n.

Definition with_tree (t : Tree Envelope) (st : storage) : storage :=
  mkStorage (storage_sourceId st) (meta st) t.
Definition incr_Expired (st : storage) : storage :=
  let m := meta st in
  mkStorage (storage_sourceId st)
    (mkMetaInfo (Count m) (wrap64 (Expired m + 1)) (OldestTimestamp m) (NewestTimestamp m))
    (storage_Tree st).
Definition set_Newest (t : Z) (st : storage) : storage :=
  let m := meta st in
  mkStorage (storage_sourceId st)
    (mkMetaInfo (Count m) (Expired m) (OldestTimestamp m) t) (storage_Tree st).
Definition set_Oldest (t : Z) (st : storage) : storage :=
  let m := meta st in
  mkStorage (storage_sourceId st)
    (mkMetaInfo (Count m) (Expired m) t (NewestTimestamp m)) (storage_Tree st).

(** ** Construction and insertion *)
Definition NewStore (maxPerSource prunesPerGC : Z) : Store :=
  mkStore ∅ ∅ 0 0 MIN_INT64 maxPerSource 4000 (mkMetrics 0 0 0 0 0) prunesPerGC 0 0.

Definition new_storage (sourceId : string) : storage :=
  mkStorage sourceId (mkMetaInfo 0 0 0 0) NewTree.

Definition getOrInitializeStorage (s : Store) (sourceId : string) : Store * nat * bool :=
  match storageIndex s !! sourceId with
  | Some loc => (s, loc, false)
  | None =>
      let '(loc, s) := alloc (new_storage sourceId) s in
      (upd_index (insert sourceId loc) s, loc, true)
  end.

(** The loop [for timestampFudge = 0; timestampFudge < max; timestampFudge++]:
    [n] iterations are left. *)
Fixpoint findFudge (exists_ : Z → bool) (ts fudge : Z) (n : nat) : Z :=
  match n with
  | O => fudge
  | S n => if exists_ (wrap64 (ts + fudge)) then findFudge exists_ ts (fudge + 1) n else fudge
  end.

Definition timestampFudge (exists_ : Z → bool) (ts max : Z) : Z :=
  findFudge exists_ ts 0 (Z.to_nat max).

(** [calculateCachePeriod]: milliseconds, by Go's truncated division. *)
Definition calculateCachePeriod (now oldest : Z) : Z := Z.quot (wrap64 (now - oldest)) 1000000.

(** [storage.Left().Key.(int64)]. *)
Definition left_key (t : Tree Envelope) : outcome Z := fst <$> must (entry (Left t)).

(** The capacity check that opens [insertOrSwap]. *)
Definition evict_or_count (s : Store) (st : storage) : outcome (Store * storage) :=
  if maxPerSource s <=? size (storage_Tree st) then
    oldest ← left_key (storage_Tree st);
    t ← Remove (storage_Tree st) oldest;
    Done (upd_metrics (add_expired 1) s, incr_Expired (with_tree t st))
  else
    let c := wrap64 (count s + 1) in
    Done (upd_metrics (set_storeSize c) (set_count c s), st).

Definition insertOrSwap (s : Store) (loc : nat) (e : Envelope) (now : Z) : outcome Store :=
  st ← must (mem s !! loc);
  '(s, st) ← evict_or_count s st;
  let exists_ k := bool_decide (is_Some (AvlTree.Get (storage_Tree st) k)) in
  let fudge := timestampFudge exists_ (Timestamp e) (maxTimestampFudge s) in
  t ← AvlTree.Put (storage_Tree st) (wrap64 (Timestamp e + fudge)) e;
  let st := with_tree t st in
  let st := if NewestTimestamp (meta st) <? Timestamp e
            then set_Newest (Timestamp e) st else st in
  oldest ← left_key t;
  let st := set_Oldest oldest st in
  let s := if oldest <? oldestTimestamp s then set_oldest oldest s else s in
  let s := upd_metrics (set_cachePeriod (calculateCachePeriod now (oldestTimestamp s))) s in
  Done (set_mem loc st s).

Definition Put (s : Store) (now : Z) (envelope : Envelope) (sourceId : string) : outcome Store :=
  let s := upd_metrics (add_ingress 1) s in
  let '(s, loc, _) := getOrInitializeStorage s sourceId in
  insertOrSwap s loc envelope now.

(** ** Truncation *)
Fixpoint BuildExpirationHeap_loop (s : Store) (order : list (string * nat))
    (h : list storageExpiration) : outcome (list storageExpiration) :=
  match order with
  | [] => Done h
  | (src, loc) :: order =>
      st ← must (mem s !! loc);
      oldest ← left_key (storage_Tree st);
      h ← heap_Push h (mkExpiration oldest src loc);
      BuildExpirationHeap_loop s order h
  end.

Definition BuildExpirationHeap (s : Store) (order : list (string * nat)) :
    outcome (list storageExpiration) :=
  BuildExpirationHeap_loop s order [].

Definition removeOldestEnvelope (s : Store) (treeToPrune : nat) (src : string) :
    outcome (Store * (Z * bool)) :=
  st ← must (mem s !! treeToPrune);
  if size (storage_Tree st) =? 0 then Done (s, (0, false))
  else
    let s := upd_metrics (add_expired 1) (set_count (wrap64 (count s - 1)) s) in
    oldest ← left_key (storage_Tree st);
    t ← Remove (storage_Tree st) oldest;
    let st := with_tree t st in
    if size t =? 0 then
      Done (upd_index (delete src) (set_mem treeToPrune st s), (0, false))
    else
      newOldest ← left_key t;
      Done (set_mem treeToPrune (set_Oldest newOldest (incr_Expired st)) s,
            (newOldest, true)).

(** One iteration of the removal loop: pop, remove, push back. *)
Definition truncate_step (s : Store) (h : list storageExpiration) :
    outcome (Store * list storageExpiration) :=
  '(oldest, h) ← heap_Pop h;
  '(s, (newOldest, valid)) ← removeOldestEnvelope s (tree oldest) (sourceId oldest);
  if (valid : bool)
  then h ← heap_Push h (mkExpiration newOldest (sourceId oldest) (tree oldest)); Done (s, h)
  else Done (s, h).

Fixpoint truncate_loop (n : nat) (s : Store) (h : list storageExpiration) :
    outcome (Store * list storageExpiration) :=
  match n with
  | O => Done (s, h)
  | S n => '(s, h) ← truncate_step s h; truncate_loop n s h
  end.

(** What [truncate] does once the removal loop is over. *)
Definition truncate_finish (s : Store) (h : list storageExpiration) (now : Z) : outcome Store :=
  if bool_decide (Len h = 0%nat) then
    Done (upd_metrics (set_cachePeriod 0) (set_oldest MIN_INT64 s))
  else
    '(oldest, _) ← Pop h;
    let s := set_oldest (timestamp oldest) s in
    let s := upd_metrics (set_cachePeriod (calculateCachePeriod now (timestamp oldest))) s in
    let c := wrap64 (consecutiveTruncation s + 1) in
    let s := set_consecutive c s in
    if prunesPerGC s <=? c then Done (set_consecutive 0 (run_GC s)) else Done s.

(** [truncate]: the new store and the status sent to [truncationCompleted].
    [quantity] is [store.mc.GetQuantityToPrune]. *)
Definition truncate (quantity : Z → Z) (s : Store) (order : list (string * nat)) (now : Z) :
    outcome (Store * bool) :=
  let storeCount := count s in
  let numberToPrune := quantity storeCount in
  if numberToPrune =? 0 then Done (set_consecutive 0 s, false)
  else
    let numberToPrune := if storeCount <? numberToPrune then storeCount else numberToPrune in
    h ← BuildExpirationHeap s order;
    '(s, h) ← truncate_loop (Z.to_nat numberToPrune) s h;
    s ← truncate_finish s h now;
    Done (upd_metrics (set_storeSize (count s)) s, true).

(** ** Reading *)
Definition filterByName (envelope : Envelope) (nameFilter : option (string → bool)) :
    option Envelope :=
  match nameFilter with
  | None => Some envelope
  | Some MatchString =>
      match Message envelope with
      | Some (Envelope_Counter c) =>
          if MatchString (Counter_Name c) then Some envelope else None
      | Some (Envelope_Gauge g) =>
          let filteredMetrics := filter (λ kv, MatchString kv.1 = true) (Gauge_Metrics g) in
          if decide (filteredMetrics = ∅) then None
          else Some (mkEnvelope (Timestamp envelope) (SourceId envelope)
                 (InstanceId envelope) (DeprecatedTags envelope) (Tags envelope)
                 (Some (Envelope_Gauge (mkGauge filteredMetrics))))
      | Some (Envelope_Timer t) =>
          if MatchString (Timer_Name t) then Some envelope else None
      | _ => None
      end
  end.

Definition checkEnvelopeType (e : Envelope) (t : EnvelopeType) : outcome bool :=
  match t with
  | EnvelopeType_ANY => Done true
  | EnvelopeType_LOG => Done (bool_decide (is_Some (GetLog e)))
  | EnvelopeType_COUNTER => Done (bool_decide (is_Some (GetCounter e)))
  | EnvelopeType_GAUGE => Done (bool_decide (is_Some (GetGauge e)))
  | EnvelopeType_TIMER => Done (bool_decide (is_Some (GetTimer e)))
  | EnvelopeType_EVENT => Done (bool_decide (is_Some (GetEvent e)))
  | EnvelopeType_other _ => Panic
  end.

Fixpoint anyEnvelopeType (e : Envelope) (types : list EnvelopeType) : outcome bool :=
  match types with
  | [] => Done false
  | t :: types =>
      b ← checkEnvelopeType e t;
      if (b : bool) then Done true else anyEnvelopeType e types
  end.

(** A nil slice of types is [None]. *)
Definition validEnvelopeType (e : Envelope) (types : option (list EnvelopeType)) : outcome bool :=
  match types with None => Done true | Some types => anyEnvelopeType e types end.

(** [nextChildIndex] is a direction; the node is not nil in the code. *)
Definition isNodeAFudgeSequenceMember (n : node Envelope) (nextChildIndex : dir) : bool :=
  match n with
  | Nil => false
  | Node _ _ key e _ =>
      if negb (Timestamp e =? key) then true
      else
        match child nextChildIndex n with
        | Nil => false
        | Node _ _ key' e' _ => negb (Timestamp e' =? key')
        end
  end.

Section Traverse.
Context {R : Type}.
Implicit Types f : Envelope → R → outcome (bool * R).

(** The traversals thread the variable [res] that the callback [f] updates. *)
Fixpoint treeAscTraverse (n : node Envelope) (start end_ : Z) f (res : R) :
    outcome (bool * R) :=
  match n with
  | Nil => Done (false, res)
  | Node _ l _ e r =>
      let t := Timestamp e in
      if start <=? t then
        '(stop, res) ← treeAscTraverse l start end_ f res;
        if (stop : bool) then Done (true, res)
        else
          '(hit, res) ← (if end_ <=? t then Done (true, res) else f e res);
          if (hit : bool) && negb (isNodeAFudgeSequenceMember n DRight)
          then Done (true, res)
          else treeAscTraverse r start end_ f res
      else treeAscTraverse r start end_ f res
  end.

Fixpoint treeDescTraverse (n : node Envelope) (start end_ : Z) f (res : R) :
    outcome (bool * R) :=
  match n with
  | Nil => Done (false, res)
  | Node _ l _ e r =>
      let t := Timestamp e in
      if t <? end_ then
        '(stop, res) ← treeDescTraverse r start end_ f res;
        if (stop : bool) then Done (true, res)
        else
          '(hit, res) ← (if t <? start then Done (true, res) else f e res);
          if (hit : bool) && negb (isNodeAFudgeSequenceMember n DLeft)
          then Done (true, res)
          else treeDescTraverse l start end_ f res
      else treeDescTraverse l start end_ f res
  end.
End Traverse.

(** The callback of [Get]. *)
Definition collect (nameFilter : option (string → bool)) (types : option (list EnvelopeType))
    (limit : Z) (e : Envelope) (res : list Envelope) : outcome (bool * list Envelope) :=
  match filterByName e nameFilter with
  | None => Done (false, res)
  | Some e =>
      valid ← validEnvelopeType e types;
      let res := if (valid : bool) then res ++ [e] else res in
      Done (limit <=? Z.of_nat (length res), res)
  end.

Definition Get (s : Store) (index : string) (start end_ : Z)
    (envelopeTypes : option (list EnvelopeType)) (nameFilter : option (string → bool))
    (limit : Z) (descending : bool) : outcome (Store * list Envelope) :=
  match storageIndex s !! index with
  | None => Done (s, [])
  | Some loc =>
      st ← must (mem s !! loc);
      let traverser := if descending then treeDescTraverse else treeAscTraverse in
      '(_, res) ← traverser (Root (storage_Tree st)) start end_
                    (collect nameFilter envelopeTypes limit) [];
      Done (upd_metrics (add_egress (Z.of_nat (length res))) s, res)
  end.

(** ** Meta *)
Definition Meta_entry (count : Z) (st : storage) : MetaInfo :=
  mkMetaInfo count (Expired (meta st)) (OldestTimestamp (meta st)) (NewestTimestamp (meta st)).

(** The first pass, a [Range] over the index. *)
Definition Meta_range (s : Store) : outcome (list (string * MetaInfo)) :=
  mapM (λ '(src, loc),
    st ← must (mem s !! loc);
    Done (src, Meta_entry (Count (meta st)) st)) (map_to_list (storageIndex s)).

(** The second pass loads every reported source id again: an id that left the
    index in between is a failed type assertion. *)
Definition Meta_fill (s : Store) (report : list (string * MetaInfo)) :
    outcome (list (string * MetaInfo)) :=
  mapM (λ '(src, _),
    loc ← must (storageIndex s !! src);
    st ← must (mem s !! loc);
    Done (src, Meta_entry (size (storage_Tree st)) st)) report.

Definition Meta (s : Store) : outcome (gmap string MetaInfo) :=
  report ← Meta_range s;
  report ← Meta_fill s report;
  Done (list_to_map report).

Definition GetConsecutiveTruncations (s : Store) : Z := consecutiveTruncation s.
