(* ===== verification/StoreInv.v ===== *)
(** * The store: invariant, abstraction and the mutators

    The abstract store maps a source id to the list of its entries sorted by
    key.  [abs] is the abstraction function, [wf_store] the invariant.  Each
    mutator of Store.v is shown to preserve the invariant and to act on the
    abstract store as its specification does. *)

From S2P Require Import Prelude AvlTree Envelope ExpirationHeap Store.

Abbreviation astore := (gmap string (list (Z * Envelope))).

Definition view (s : Store) (loc : nat) : list (Z * Envelope) :=
  match mem s !! loc with Some st => contents (storage_Tree st) | None => [] end.

Definition abs (s : Store) : astore := view s <$> storageIndex s.

(** The entries of a source; none for an unknown one. *)
Definition entries (a : astore) (src : string) : list (Z * Envelope) := default [] (a !! src).

(** The number of envelopes of the abstract store. *)
Definition total (a : astore) : Z :=
  map_fold (λ _ l n, Z.of_nat (length l) + n) 0 a.

(** What holds of every storage in the index at any time ... *)
Record wf_storage (max : Z) (src : string) (st : storage) : Prop := {
  ws_id : storage_sourceId st = src;
  ws_tree : wf_tree (storage_Tree st);
  ws_max : Z.of_nat (length (contents (storage_Tree st))) ≤ max;
}.

(** ... and of a storage that received its first envelope: its metadata hold
    the smallest key. *)
Definition wf_filled (st : storage) : Prop :=
  head (keys (contents (storage_Tree st))) = Some (OldestTimestamp (meta st)).

(** The configuration fields no operation changes. *)
Definition same_config (s s' : Store) : Prop :=
  maxPerSource s' = maxPerSource s ∧ maxTimestampFudge s' = maxTimestampFudge s ∧
  prunesPerGC s' = prunesPerGC s.

#[export] Instance same_config_preorder : PreOrder same_config.
Proof.
  split; [by intros s; split_and!|].
  intros s1 s2 s3 (?&?&?) (?&?&?). split_and!; congruence.
Qed.

(** The invariant; the sources outside [filled] may still be empty. *)
Record wf_store_gen (filled : string → Prop) (s : Store) : Prop := {
  wf_index : ∀ src loc, storageIndex s !! src = Some loc →
    ∃ st, mem s !! loc = Some st ∧ wf_storage (maxPerSource s) src st ∧
      (filled src → wf_filled st);
  wf_alloc : ∀ loc, is_Some (mem s !! loc) → (loc < nextLoc s)%nat;
  wf_config : 1 ≤ maxPerSource s ≤ MaxInt64;
}.

Definition wf_store : Store → Prop := wf_store_gen (λ _, True).

(** ** Specifications of the mutators *)

(** Inserting in one source: drop the oldest entry when the source is full,
    then insert at the first free key from the envelope's timestamp. *)
Definition make_room (max : Z) (l : list (Z * Envelope)) : list (Z * Envelope) :=
  if max <=? Z.of_nat (length l) then tail l else l.

Definition free_key (fudge : Z) (ts : Z) (l : list (Z * Envelope)) : Z :=
  wrap64 (ts + timestampFudge (λ k, bool_decide (is_Some (alookup k l))) ts fudge).

Definition insert_spec (max fudge : Z) (e : Envelope) (l : list (Z * Envelope)) :
    list (Z * Envelope) :=
  let l := make_room max l in
  linsert (free_key fudge (Timestamp e) l) e l.

Definition put_spec (max fudge : Z) (e : Envelope) (src : string) (a : astore) : astore :=
  <[src := insert_spec max fudge e (entries a src)]> a.

(** Dropping the oldest entry of one source; an emptied source is forgotten. *)
Definition drop_oldest (src : string) (a : astore) : astore :=
  match entries a src with
  | [] | [_] => delete src a
  | _ :: l => <[src := l]> a
  end.

(** ** Basic lemmas *)
Lemma MIN_INT64_is_max : MIN_INT64 = MaxInt64.
Proof. reflexivity. Qed.

Lemma lookup_abs s src : abs s !! src = view s <$> storageIndex s !! src.
Proof. apply lookup_fmap. Qed.

Lemma total_insert a src l :
  total (<[src := l]> a) = total a - Z.of_nat (length (entries a src)) + Z.of_nat (length l).
Proof.
  assert (∀ b, b !! src = None → total (<[src := l]> b) = Z.of_nat (length l) + total b)
    as Hfresh.
  { intros b Hb. unfold total. rewrite map_fold_insert_L; [done| |done]. intros. lia. }
  unfold entries. destruct (a !! src) as [l0|] eqn:E; simpl.
  - rewrite <- (insert_delete_eq a), Hfresh by apply lookup_delete_eq.
    unfold total at 2. rewrite (map_fold_delete_L _ _ src l0 a); [|intros; lia|done].
    fold (total (delete src a)). lia.
  - rewrite Hfresh by done. lia.
Qed.

Lemma total_delete a src :
  total (delete src a) = total a - Z.of_nat (length (entries a src)).
Proof.
  unfold entries. destruct (a !! src) as [l0|] eqn:E; simpl.
  - unfold total at 2. rewrite (map_fold_delete_L _ _ src l0 a); [|intros; lia|done].
    fold (total (delete src a)). lia.
  - rewrite delete_id by done. lia.
Qed.

Lemma total_nonneg a : 0 ≤ total a.
Proof.
  unfold total. apply (map_fold_weak_ind (λ r _, 0 ≤ r)); [done|]. intros. lia.
Qed.

Lemma total_empty_iff a : map_Forall (λ _ l, l ≠ []) a → total a = 0 ↔ a = ∅.
Proof.
  intros Ha. split; [|by intros ->]. intros H0. apply map_empty. intros src.
  destruct (a !! src) as [l|] eqn:E; [|done].
  pose proof (total_delete a src). pose proof (total_nonneg (delete src a)).
  unfold entries in *. rewrite E in *. simpl in *. pose proof (Ha _ _ E).
  destruct l; [done|simpl in *; lia].
Qed.

Lemma length_tail_lt {A} (l : list A) : l ≠ [] → (length (tail l) < length l)%nat.
Proof. destruct l; simpl; [done|lia]. Qed.

Lemma findFudge_ext f g ts fudge n :
  (∀ k, f k = g k) → findFudge f ts fudge n = findFudge g ts fudge n.
Proof. intros H. revert fudge. induction n; intros; simpl; [done|]. rewrite H. by case_match. Qed.

Lemma timestampFudge_ext f g ts max :
  (∀ k, f k = g k) → timestampFudge f ts max = timestampFudge g ts max.
Proof. intros H. unfold timestampFudge. by apply findFudge_ext. Qed.

(** The fudge is at most the bound, every key tried before it is taken, and it
    is free unless the bound is reached. *)
Lemma findFudge_spec f ts fudge n :
  let r := findFudge f ts fudge n in
  fudge ≤ r ≤ fudge + Z.of_nat n ∧
  (∀ i, fudge ≤ i < r → f (wrap64 (ts + i)) = true) ∧
  (r < fudge + Z.of_nat n → f (wrap64 (ts + r)) = false).
Proof.
  revert fudge. induction n as [|n IH]; intros fudge; simpl.
  { split_and!; try lia. }
  destruct (f (wrap64 (ts + fudge))) eqn:E.
  - destruct (IH (fudge + 1)) as (H1&H2&H3). split_and!; [lia..| |].
    + intros i Hi. destruct (decide (i = fudge)) as [->|]; [done|]. apply H2. lia.
    + intros. apply H3. lia.
  - split_and!; try lia. done.
Qed.

Lemma left_key_spec (t : Tree Envelope) k v l : contents t = (k, v) :: l → left_key t = Done k.
Proof. intros E. unfold left_key. by rewrite Left_spec, E. Qed.

Lemma remove_left (t : Tree Envelope) k v l :
  wf_tree t → contents t = (k, v) :: l → Z.of_nat (length (contents t)) ≤ MaxInt64 →
  ∃ t', Remove t k = Done t' ∧ wf_tree t' ∧ contents t' = l.
Proof.
  intros Ht E Hl. destruct (Remove_spec t k Ht Hl) as (t'&->&Ht'&E').
  exists t'. split_and!; [done..|]. rewrite E', E. apply lremove_head.
  rewrite <- E. apply Ht.
Qed.

#[export] Hint Resolve total_nonneg : logcache.

(** ** Insertion *)
Lemma evict_or_count_spec s st :
  wf_tree (storage_Tree st) → 1 ≤ maxPerSource s ≤ MaxInt64 →
  Z.of_nat (length (contents (storage_Tree st))) ≤ maxPerSource s →
  ∃ s' st', evict_or_count s st = Done (s', st') ∧
    wf_tree (storage_Tree st') ∧
    contents (storage_Tree st') = make_room (maxPerSource s) (contents (storage_Tree st)) ∧
    storage_sourceId st' = storage_sourceId st ∧
    storageIndex s' = storageIndex s ∧ mem s' = mem s ∧ nextLoc s' = nextLoc s ∧
    same_config s s' ∧ oldestTimestamp s' = oldestTimestamp s ∧
    count s' = (if maxPerSource s <=? Z.of_nat (length (contents (storage_Tree st)))
                then count s else wrap64 (count s + 1)).
Proof.
  intros Ht Hmax Hlen. unfold evict_or_count, make_room. rewrite (wf_size _ Ht).
  destruct (Z.leb_spec (maxPerSource s) (Z.of_nat (length (contents (storage_Tree st))))).
  - destruct (contents (storage_Tree st)) as [|[k v] l] eqn:E; [simpl in *; lia|].
    rewrite (left_key_spec _ _ _ _ E). cbn [mbind outcome_bind].
    destruct (remove_left _ _ _ _ Ht E) as (t'&->&Ht'&E'); [rewrite E; lia|].
    do 2 eexists. split; [done|]. by split_and!.
  - do 2 eexists. split; [done|]. by split_and!.
Qed.

Lemma linsert_not_nil k (v : Envelope) l : linsert k v l ≠ [].
Proof. destruct l as [|[k' v'] l]; simpl; [done|]. by destruct (k =? k'), (k <? k'). Qed.

Lemma length_make_room max l :
  1 ≤ max → Z.of_nat (length l) ≤ max → Z.of_nat (length (make_room max l)) < max.
Proof.
  intros Hm Hl. unfold make_room.
  destruct (Z.leb_spec max (Z.of_nat (length l))); [|lia]. destruct l; simpl in *; lia.
Qed.

Lemma length_insert_spec max fudge e l :
  1 ≤ max → Z.of_nat (length l) ≤ max →
  Z.of_nat (length (insert_spec max fudge e l)) ≤ max.
Proof.
  intros Hm Hl. unfold insert_spec. pose proof (length_make_room max l Hm Hl).
  pose proof (length_linsert_le (free_key fudge (Timestamp e) (make_room max l)) e
    (make_room max l)). lia.
Qed.

(** What [insertOrSwap] does to the storage it is called on. *)
Record inserted (s s' : Store) (loc : nat) (st st' : storage) (e : Envelope) : Prop := {
  ins_index : storageIndex s' = storageIndex s;
  ins_mem : mem s' = <[loc := st']> (mem s);
  ins_next : nextLoc s' = nextLoc s;
  ins_config : same_config s s';
  ins_id : storage_sourceId st' = storage_sourceId st;
  ins_tree : wf_tree (storage_Tree st');
  ins_contents : contents (storage_Tree st') =
    insert_spec (maxPerSource s) (maxTimestampFudge s) e (contents (storage_Tree st));
  ins_oldest : head (keys (contents (storage_Tree st'))) = Some (OldestTimestamp (meta st'));
  ins_count : count s' =
    if maxPerSource s <=? Z.of_nat (length (contents (storage_Tree st)))
    then count s else wrap64 (count s + 1);
  ins_store_oldest : oldestTimestamp s' =
    Z.min (oldestTimestamp s) (OldestTimestamp (meta st'));
}.

Lemma insertOrSwap_spec s loc e now st :
  mem s !! loc = Some st → wf_tree (storage_Tree st) → 1 ≤ maxPerSource s ≤ MaxInt64 →
  Z.of_nat (length (contents (storage_Tree st))) ≤ maxPerSource s →
  ∃ s' st', insertOrSwap s loc e now = Done s' ∧ inserted s s' loc st st' e.
Proof.
  intros Hm Ht Hmax Hlen. unfold insertOrSwap. rewrite Hm. cbn [must mbind outcome_bind].
  destruct (evict_or_count_spec s st Ht Hmax Hlen)
    as (s1&st1&->&Ht1&E1&Hid&Hi&Hmem&Hn&Hc&Ho&Hcount).
  cbn [mbind outcome_bind].
  rewrite (timestampFudge_ext _ (λ k, bool_decide (is_Some
    (alookup k (contents (storage_Tree st1)))))) by (intros; by rewrite Get_spec).
  destruct Hc as (Hc1&Hc2&Hc3). rewrite Hc2.
  fold (free_key (maxTimestampFudge s) (Timestamp e) (contents (storage_Tree st1))).
  destruct (Put_spec (storage_Tree st1)
    (free_key (maxTimestampFudge s) (Timestamp e) (contents (storage_Tree st1))) e Ht1)
    as (t&->&Htt&Et).
  { rewrite E1. pose proof (length_make_room _ _ (proj1 Hmax) Hlen). lia. }
  cbn [mbind outcome_bind].
  destruct (contents t) as [|[k v] l] eqn:Ek.
  { by destruct (linsert_not_nil (free_key (maxTimestampFudge s) (Timestamp e)
      (contents (storage_Tree st1))) e (contents (storage_Tree st1))). }
  rewrite (left_key_spec _ _ _ _ Ek). cbn [mbind outcome_bind].
  set (s2 := if k <? oldestTimestamp s1 then set_oldest k s1 else s1).
  set (st2 := if NewestTimestamp _ <? _ then _ else _).
  assert (storageIndex s2 = storageIndex s ∧ mem s2 = mem s ∧ nextLoc s2 = nextLoc s ∧
    same_config s s2 ∧ count s2 = count s1 ∧
    oldestTimestamp s2 = Z.min (oldestTimestamp s1) k) as (?&Hmem2&?&?&?&?).
  { unfold s2, same_config. destruct (Z.ltb_spec k (oldestTimestamp s1)); simpl;
      split_and!; try done; lia. }
  assert (storage_sourceId st2 = storage_sourceId st ∧ storage_Tree st2 = t) as [Hid2 Ht2].
  { unfold st2. destruct (NewestTimestamp _ <? _); by split. }
  eexists _, (set_Oldest k st2). split; [done|].
  split; simpl; rewrite ?Hid2, ?Ht2; try done; try congruence.
  - rewrite Ek, Et, E1. done.
  - by rewrite Ek.
Qed.

(** The updated storage belongs to one source only. *)
Lemma wf_index_inj P s src src' loc :
  wf_store_gen P s → storageIndex s !! src = Some loc →
  storageIndex s !! src' = Some loc → src = src'.
Proof.
  intros Hwf (st&Hst&[<- _ _]&_)%(wf_index _ _ Hwf) (st'&Hst'&[<- _ _]&_)%(wf_index _ _ Hwf).
  congruence.
Qed.

Lemma abs_update P s s' src loc st' :
  wf_store_gen P s → storageIndex s !! src = Some loc →
  storageIndex s' = storageIndex s → mem s' = <[loc := st']> (mem s) →
  abs s' = <[src := contents (storage_Tree st')]> (abs s).
Proof.
  intros Hwf Hl Hi Hm. apply map_eq. intros src'. rewrite lookup_insert, !lookup_abs, Hi.
  case_decide as E.
  - subst. rewrite Hl. simpl. unfold view. by rewrite Hm, lookup_insert_eq.
  - destruct (storageIndex s !! src') as [loc'|] eqn:El; [|done]. simpl.
    unfold view. rewrite Hm, lookup_insert_ne; [done|]. intros ->. apply E.
    by eapply wf_index_inj.
Qed.

Lemma wf_update P s s' src loc st' :
  wf_store_gen (λ x, P x ∧ x ≠ src) s → storageIndex s !! src = Some loc →
  storageIndex s' = storageIndex s → mem s' = <[loc := st']> (mem s) →
  nextLoc s' = nextLoc s → same_config s s' →
  wf_storage (maxPerSource s) src st' → wf_filled st' → wf_store_gen P s'.
Proof.
  intros Hwf Hl Hi Hm Hn (Hc&_) Hst Hf. split; rewrite ?Hc, ?Hn, ?Hi, ?Hm.
  - intros src' loc' Hl'. destruct (decide (loc' = loc)) as [->|Hne].
    + rewrite lookup_insert_eq. assert (src' = src) as -> by by eapply wf_index_inj.
      eauto.
    + rewrite lookup_insert_ne by done.
      destruct (wf_index _ _ Hwf _ _ Hl') as (st&?&?&Hf'). exists st.
      split_and!; [done..|]. intros. apply Hf'. split; [done|]. congruence.
  - intros loc' [x Hx]. apply (wf_alloc _ _ Hwf).
    destruct (decide (loc' = loc)) as [->|]; [|rewrite lookup_insert_ne in Hx; eauto].
    destruct (wf_index _ _ Hwf _ _ Hl) as (st&?&_). eauto.
  - apply Hwf.
Qed.

Lemma nextLoc_fresh P s st : wf_store_gen P s → mem s !! nextLoc s = Some st → False.
Proof.
  intros Hwf Hst. assert (nextLoc s < nextLoc s)%nat; [|lia].
  apply (wf_alloc _ _ Hwf). eauto.
Qed.

Lemma getOrInitializeStorage_spec s src :
  wf_store s →
  ∃ s1 loc b, getOrInitializeStorage s src = (s1, loc, b) ∧
    wf_store_gen (λ x, True ∧ x ≠ src) s1 ∧ storageIndex s1 !! src = Some loc ∧
    view s1 loc = entries (abs s) src ∧ (∀ l, <[src := l]> (abs s1) = <[src := l]> (abs s)) ∧
    count s1 = count s ∧ oldestTimestamp s1 = oldestTimestamp s ∧ same_config s s1.
Proof.
  intros Hwf. unfold getOrInitializeStorage, entries. rewrite lookup_abs.
  destruct (storageIndex s !! src) as [loc|] eqn:E; simpl.
  - do 3 eexists. split; [done|]. split_and!; try done. split; try apply Hwf.
    intros src' loc' (st&?&?&?)%(wf_index _ _ Hwf). eauto 10.
  - do 3 eexists. split; [done|]. simpl. rewrite lookup_insert_eq.
    split_and!; try done.
    + split; simpl; [| |apply Hwf].
      * intros src' loc'. rewrite lookup_insert. case_decide as Hs.
        { intros [= <-]. subst. exists (new_storage src'). rewrite lookup_insert_eq.
          split_and!; [done| |by intros [_ []]]. split; simpl; [done|apply NewTree_wf|].
          destruct (wf_config _ _ Hwf). lia. }
        intros (st&Hst&?&?)%(wf_index _ _ Hwf). exists st. rewrite lookup_insert_ne; [eauto 10|].
        intros <-. by apply (nextLoc_fresh _ _ _ Hwf Hst).
      * intros loc'. rewrite lookup_insert_is_Some. intros [<-|[_ H]]; [lia|].
        apply (wf_alloc _ _ Hwf) in H. lia.
    + unfold view. simpl. by rewrite lookup_insert_eq.
    + intros l. apply map_eq. intros x. rewrite !lookup_insert, !lookup_abs. simpl.
      case_decide; [done|]. rewrite lookup_insert_ne by done.
      destruct (storageIndex s !! x) as [lx|] eqn:Ex; simpl; [|done].
      destruct (wf_index _ _ Hwf _ _ Ex) as (st&Hst&_). unfold view. simpl.
      rewrite lookup_insert_ne; [done|]. intros <-.
      by apply (nextLoc_fresh _ _ _ Hwf Hst).
Qed.

(** [Put] preserves the invariant and implements [put_spec]. *)
Lemma Put_ok s now e src :
  wf_store s →
  ∃ s', Put s now e src = Done s' ∧ wf_store s' ∧ same_config s s' ∧
    abs s' = put_spec (maxPerSource s) (maxTimestampFudge s) e src (abs s) ∧
    count s' = (if maxPerSource s <=? Z.of_nat (length (entries (abs s) src))
                then count s else wrap64 (count s + 1)).
Proof.
  intros Hwf. unfold Put.
  assert (wf_store (upd_metrics (add_ingress 1) s)) as Hwf0 by (split; apply Hwf).
  destruct (getOrInitializeStorage_spec _ src Hwf0)
    as (s1&loc&b&->&Hwf1&Hl&Hv&Habs&Hcount&_&Hcfg).
  change (abs (upd_metrics (add_ingress 1) s)) with (abs s) in *.
  destruct Hcfg as (Hc1&Hc2&Hc3). simpl in Hc1, Hc2, Hc3, Hcount.
  destruct (wf_index _ _ Hwf1 _ _ Hl) as (st&Hst&[Hid Ht Hmax]&_).
  destruct (insertOrSwap_spec s1 loc e now st Hst Ht) as (s'&st'&E&Hins);
    [apply Hwf1|done|].
  exists s'. split; [done|]. unfold view in Hv. rewrite Hst in Hv.
  destruct Hins as [Hi Hm Hn (?&?&?) Hid' Ht' Hct Hold Hcnt _].
  rewrite Hc1, Hc2, Hv in *. split_and!; try congruence.
  - apply (wf_update (λ _, True) s1 s' src loc st'); try done; [by split_and!; congruence|].
    split; [congruence|done|]. rewrite Hct, Hc1. apply length_insert_spec.
    + destruct (wf_config _ _ Hwf). done.
    + rewrite <- Hv. congruence.
  - split_and!; congruence.
  - rewrite (abs_update _ _ _ _ _ _ Hwf1 Hl Hi Hm), Habs, Hct. done.
  - by rewrite Hcnt, Hcount.
Qed.

(** ** Removal *)
Lemma filled_entry P s src loc st :
  wf_store_gen P s → P src → storageIndex s !! src = Some loc → mem s !! loc = Some st →
  ∃ k e l, contents (storage_Tree st) = (k, e) :: l.
Proof.
  intros Hwf HP Hl Hst. destruct (wf_index _ _ Hwf _ _ Hl) as (st'&?&_&Hf).
  simplify_eq. specialize (Hf HP). unfold wf_filled in Hf.
  destruct (contents (storage_Tree st)) as [|[k e] l]; [done|eauto].
Qed.

Lemma entries_index s src loc st :
  storageIndex s !! src = Some loc → mem s !! loc = Some st →
  entries (abs s) src = contents (storage_Tree st).
Proof. intros Hl Hst. unfold entries, view. rewrite lookup_abs, Hl. simpl. unfold view. by rewrite Hst. Qed.

(** The result of [removeOldestEnvelope] on a source with entries [(k, e) :: l]. *)
Definition next_oldest (l : list (Z * Envelope)) : Z * bool :=
  match l with [] => (0, false) | (k, _) :: _ => (k, true) end.

Lemma removeOldest_ok P s src loc k e l :
  wf_store_gen P s → storageIndex s !! src = Some loc → entries (abs s) src = (k, e) :: l →
  ∃ s', removeOldestEnvelope s loc src = Done (s', next_oldest l) ∧
    wf_store_gen P s' ∧ same_config s s' ∧ abs s' = drop_oldest src (abs s) ∧
    count s' = wrap64 (count s - 1) ∧
    storageIndex s' = (if (next_oldest l).2 then storageIndex s
                       else delete src (storageIndex s)) ∧
    view s' loc = l ∧ (∀ loc', loc' ≠ loc → view s' loc' = view s loc') ∧
    metrics s' = add_expired 1 (metrics s) ∧
    ∃ st', mem s' = <[loc := st']> (mem s) ∧ storage_sourceId st' = src ∧ wf_tree (storage_Tree st').
Proof.
  intros Hwf Hl He. destruct (wf_index _ _ Hwf _ _ Hl) as (st&Hst&[Hid Ht Hmax]&Hf).
  pose proof (entries_index _ _ _ _ Hl Hst) as Hc. rewrite He in Hc. symmetry in Hc.
  unfold removeOldestEnvelope. rewrite Hst. cbn [must mbind outcome_bind].
  rewrite (wf_size _ Ht), Hc. replace (Z.of_nat (length ((k, e) :: l)) =? 0) with false
    by (symmetry; apply Z.eqb_neq; simpl; lia).
  rewrite (left_key_spec _ _ _ _ Hc). cbn [mbind outcome_bind].
  destruct (remove_left _ _ _ _ Ht Hc) as (t&->&Htt&Et).
  { destruct (wf_config _ _ Hwf). lia. }
  cbn [mbind outcome_bind]. rewrite (wf_size _ Htt), Et.
  destruct l as [|[k' e'] l].
  - simpl. eexists. split; [done|]. split_and!; try done.
    + split; simpl; [| |apply Hwf].
      * intros src' loc' [Hne Hl']%lookup_delete_Some.
        rewrite lookup_insert_ne; [by apply Hwf|]. intros <-. apply Hne.
        by eapply wf_index_inj.
      * intros loc' [<-|[_ H]]%lookup_insert_is_Some; apply (wf_alloc _ _ Hwf); eauto.
    + apply map_eq. intros src'. unfold drop_oldest. rewrite He, lookup_abs. simpl.
      rewrite !lookup_delete. case_decide; [done|]. rewrite lookup_abs.
      destruct (storageIndex s !! src') as [loc'|] eqn:E; [|done]. simpl. unfold view. simpl.
      rewrite lookup_insert_ne; [done|]. intros <-. by eapply H, wf_index_inj.
    + unfold view. simpl. by rewrite lookup_insert_eq.
    + intros loc' Hne. unfold view. simpl. by rewrite lookup_insert_ne.
    + by eexists.
  - replace (Z.of_nat (length ((k', e') :: l)) =? 0) with false
      by (symmetry; apply Z.eqb_neq; simpl; lia).
    rewrite (left_key_spec _ _ _ _ Et). cbn [mbind outcome_bind].
    set (st' := set_Oldest _ _). set (s' := set_mem _ _ _).
    assert (wf_storage (maxPerSource s) src st' ∧ wf_filled st') as [Hst' Hf'].
    { split; [split; [done..|]|]; unfold wf_filled; simpl; rewrite Et; [|done].
      rewrite Hc in Hmax. simpl in Hmax |- *. lia. }
    exists s'. split; [done|]. split_and!; try done.
    + apply (wf_update P s s' src loc st'); try done.
      split; try apply Hwf. intros x y (z&?&?&?)%(wf_index _ _ Hwf). exists z. naive_solver.
    + rewrite (abs_update _ s s' src loc st' Hwf) by done. simpl. rewrite Et.
      unfold drop_oldest. by rewrite He.
    + unfold view. simpl. by rewrite lookup_insert_eq.
    + intros loc' Hne. unfold view. simpl. by rewrite lookup_insert_ne.
    + by eexists.
Qed.
