(* ===== verification/StoreTruncate.v ===== *)
(** * The store: truncation removes the oldest envelopes of all sources

    The specification of one removal is [oldest_step]: some source whose first
    entry is the smallest of all sources loses it.  The expiration heap holds,
    at every iteration, one entry per source in the index, keyed by the smallest
    key of the source; each iteration of [truncate]'s loop is one [oldest_step]. *)

From S2P Require Import Prelude AvlTree Envelope ExpirationHeap Store StoreInv.

(** ** Specification *)

(** Every source of [a] has only keys that are at least [k]. *)
Definition oldest_key (a : astore) (k : Z) : Prop :=
  ∀ src p, p ∈ entries a src → k ≤ p.1.

Definition oldest_step (a a' : astore) : Prop :=
  ∃ src k e l, entries a src = (k, e) :: l ∧ oldest_key a k ∧ a' = drop_oldest src a.

(** [a'] is [a] without the [n] oldest envelopes: every source lost a prefix of
    its entries, [n] entries were lost, and no lost entry is newer than a kept one. *)
Definition oldest_removed (n : nat) (a a' : astore) : Prop :=
  ∃ removed : string → list (Z * Envelope),
    (∀ src, entries a src = removed src ++ entries a' src) ∧
    total a = Z.of_nat n + total a' ∧
    (∀ src src' p q, p ∈ removed src → q ∈ entries a' src' → p.1 ≤ q.1).

(** Every source is sorted by key. *)
Definition sorted_store (a : astore) : Prop := ∀ src, ksorted (entries a src).

(** ** The heap against the index *)
Definition first_key (l : list (Z * Envelope)) : Z :=
  match l with [] => 0 | (k, _) :: _ => k end.

Definition heap_entry (s : Store) (p : string * nat) : storageExpiration :=
  mkExpiration (first_key (view s p.2)) p.1 p.2.

Record heap_for (s : Store) (h : list storageExpiration) : Prop := {
  hf_ordered : heap_ordered h;
  hf_index : h ≡ₚ heap_entry s <$> map_to_list (storageIndex s);
}.

(** ** The abstract removal *)
Lemma entries_drop src src' a :
  entries (drop_oldest src a) src' =
  if decide (src = src') then tail (entries a src) else entries a src'.
Proof.
  unfold drop_oldest, entries. destruct (default [] (a !! src)) as [|p [|q l]] eqn:E.
  - rewrite lookup_delete. by case_decide.
  - rewrite lookup_delete. by case_decide.
  - rewrite lookup_insert. by case_decide.
Qed.

Lemma total_drop src a p l :
  entries a src = p :: l → total (drop_oldest src a) = total a - 1.
Proof.
  intros E. unfold drop_oldest. rewrite E.
  destruct l; [rewrite total_delete|rewrite total_insert]; rewrite E; simpl; lia.
Qed.

Lemma sorted_drop src a : sorted_store a → sorted_store (drop_oldest src a).
Proof.
  intros Hs src'. rewrite entries_drop. case_decide as E; [|done].
  specialize (Hs src). destruct (entries a src) as [|[k e] l]; [done|].
  by apply ksorted_cons in Hs as [_ ?].
Qed.

Lemma wf_store_sorted {P} s : wf_store_gen P s → sorted_store (abs s).
Proof.
  intros Hwf src. unfold entries. rewrite lookup_abs.
  destruct (storageIndex s !! src) as [loc|] eqn:E; simpl; [|constructor].
  destruct (wf_index _ _ Hwf _ _ E) as (st&Hst&[_ Ht _]&_).
  unfold view. rewrite Hst. apply Ht.
Qed.

(** In a sorted store the smallest first key bounds every key. *)
Lemma oldest_key_first a k :
  sorted_store a → (∀ src k' e' l, entries a src = (k', e') :: l → k ≤ k') →
  oldest_key a k.
Proof.
  intros Hs Hk src p Hp. specialize (Hs src).
  destruct (entries a src) as [|[k' e'] l] eqn:E; [set_solver|].
  pose proof (Hk _ _ _ _ E). apply ksorted_cons in Hs as [Hl _].
  apply elem_of_cons in Hp as [->|Hp]; [done|].
  rewrite Forall_forall in Hl. apply Hl in Hp. lia.
Qed.

Lemma nsteps_oldest_removed n a a' :
  sorted_store a → nsteps oldest_step n a a' → oldest_removed n a a'.
Proof.
  intros Hs. induction 1 as [a|n a b c Hstep _ IH].
  { exists (λ _, []). split_and!; [done|lia|set_solver]. }
  destruct Hstep as (src&k&e&l&E&Hk&->).
  destruct IH as (rem&Hpre&Htot&Hle); [by apply sorted_drop|].
  exists (λ x, if decide (src = x) then (k, e) :: rem x else rem x). split_and!.
  - intros x. specialize (Hpre x). rewrite entries_drop in Hpre.
    case_decide; [|done]. subst. rewrite E in Hpre |- *. simpl in *. by rewrite Hpre.
  - rewrite (total_drop _ _ _ _ E) in Htot. lia.
  - intros x y p q Hp Hq. assert (q ∈ entries a y) as Hqa.
    { specialize (Hpre y). rewrite entries_drop in Hpre.
      destruct (decide (src = y)) as [<-|].
      - rewrite E in Hpre |- *. simpl in Hpre. rewrite Hpre. set_solver.
      - rewrite Hpre. set_solver. }
    case_decide; [|by eapply Hle].
    apply elem_of_cons in Hp as [->|Hp]; [by eapply Hk|by eapply Hle].
Qed.

(** ** The loop *)
Lemma BuildExpirationHeap_loop_spec s order h :
  wf_store s → Forall (λ p, storageIndex s !! p.1 = Some p.2) order → heap_ordered h →
  ∃ h', BuildExpirationHeap_loop s order h = Done h' ∧ heap_ordered h' ∧
    h' ≡ₚ (heap_entry s <$> order) ++ h.
Proof.
  intros Hwf Ho. revert h. induction Ho as [|[src loc] order Hl _ IH]; intros h Hh; simpl in *.
  { eauto. }
  destruct (wf_index _ _ Hwf _ _ Hl) as (st&Hst&_). rewrite Hst. simpl.
  destruct (filled_entry _ _ _ _ _ Hwf I Hl Hst) as (k&e&l&Hc).
  rewrite (left_key_spec _ _ _ _ Hc). simpl.
  destruct (heap_Push_spec h (mkExpiration k src loc) Hh) as (h1&->&Hp1&Ho1). simpl.
  destruct (IH h1 Ho1) as (h'&->&Ho'&Hp'). exists h'. split_and!; [done..|].
  rewrite Hp', Hp1. unfold heap_entry at 2. simpl. unfold view. rewrite Hst, Hc. simpl.
  by rewrite Permutation_middle.
Qed.

Lemma BuildExpirationHeap_spec s order :
  wf_store s → order ≡ₚ map_to_list (storageIndex s) →
  ∃ h, BuildExpirationHeap s order = Done h ∧ heap_for s h.
Proof.
  intros Hwf Ho. unfold BuildExpirationHeap.
  destruct (BuildExpirationHeap_loop_spec s order [] Hwf) as (h&->&Hh&Hp).
  - rewrite Ho. apply Forall_forall. intros [src loc]. by rewrite elem_of_map_to_list.
  - apply heap_ordered_nil.
  - exists h. split; [done|]. split; [done|]. by rewrite Hp, app_nil_r, Ho.
Qed.

Lemma heap_for_elem s h x :
  heap_for s h → x ∈ h ↔ ∃ src loc, storageIndex s !! src = Some loc ∧
    x = heap_entry s (src, loc).
Proof.
  intros [_ Hp]. rewrite Hp, list_elem_of_fmap. split.
  - intros ([src loc]&->&H%elem_of_map_to_list). eauto.
  - intros (src&loc&H&->). exists (src, loc). by rewrite elem_of_map_to_list.
Qed.

Lemma heap_for_nil s h : heap_for s h → h = [] ↔ storageIndex s = ∅.
Proof.
  intros [_ Hp]. split.
  - intros ->. apply Permutation_nil, fmap_nil_inv, map_to_list_empty_iff in Hp. done.
  - intros E. rewrite E, map_to_list_empty in Hp. by apply Permutation_nil_r in Hp.
Qed.

Lemma heap_entry_frame s s' (idx : gmap string nat) loc :
  (∀ loc', loc' ≠ loc → view s' loc' = view s loc') →
  (∀ src, idx !! src ≠ Some loc) →
  heap_entry s' <$> map_to_list idx = heap_entry s <$> map_to_list idx.
Proof.
  intros Hv Hne. apply list_fmap_ext. intros i [src loc'] Hi. simpl.
  apply list_elem_of_lookup_2, elem_of_map_to_list in Hi.
  unfold heap_entry. simpl. rewrite Hv; [done|]. intros ->. by apply (Hne src).
Qed.

(** One iteration of the loop is one removal of the oldest envelope. *)
Lemma truncate_step_spec s h :
  wf_store s → heap_for s h → h ≠ [] →
  ∃ s' h', truncate_step s h = Done (s', h') ∧ wf_store s' ∧ heap_for s' h' ∧
    same_config s s' ∧ oldest_step (abs s) (abs s') ∧ count s' = wrap64 (count s - 1).
Proof.
  intros Hwf Hh Hne. unfold truncate_step.
  destruct (heap_Pop_spec h (hf_ordered _ _ Hh) Hne) as (x&h1&->&Hp&Ho&Hmin).
  cbn [mbind outcome_bind].
  assert (x ∈ h) as (src&loc&Hl&->)%(heap_for_elem _ _ _ Hh) by (rewrite Hp; set_solver).
  destruct (wf_index _ _ Hwf _ _ Hl) as (st&Hst&_).
  destruct (filled_entry _ _ _ _ _ Hwf I Hl Hst) as (k&e&l&Hc).
  pose proof (entries_index _ _ _ _ Hl Hst) as He. rewrite Hc in He.
  assert (oldest_key (abs s) k) as Hold.
  { apply oldest_key_first; [by eapply wf_store_sorted|]. intros src' k' e' l' He'.
    assert (∃ loc', storageIndex s !! src' = Some loc' ∧ view s loc' = (k', e') :: l')
      as (loc'&Hl'&Hv').
    { unfold entries in He'. rewrite lookup_abs in He'.
      destruct (storageIndex s !! src'); [eauto|done]. }
    assert (heap_entry s (src', loc') ∈ h) as Hin by (apply (heap_for_elem _ _ _ Hh); eauto).
    rewrite Hp in Hin. assert (first_key (view s loc) = k) as Hk
      by (unfold view; by rewrite Hst, Hc).
    apply elem_of_cons in Hin as [[= E _ _]|Hin%Hmin].
    - rewrite Hv', Hk in E. simpl in E. lia.
    - simpl in Hin. rewrite Hv', Hk in Hin. done. }
  cbn [tree sourceId heap_entry fst snd].
  destruct (removeOldest_ok _ s src loc k e l Hwf Hl He)
    as (s'&->&Hwf'&Hcfg&Habs&Hcnt&Hidx&Hv&Hvo&_).
  cbn [mbind outcome_bind]. destruct (next_oldest l) as [newOldest valid] eqn:En.
  assert (h1 ≡ₚ heap_entry s' <$> map_to_list (delete src (storageIndex s))) as Hp1.
  { rewrite (heap_entry_frame s s' _ loc Hvo).
    - apply (Permutation_cons_inv (a := heap_entry s (src, loc))).
      rewrite <- Hp, (hf_index _ _ Hh), <- fmap_cons. by rewrite map_to_list_delete.
    - intros src' [Hs Hl']%lookup_delete_Some. apply Hs.
      by apply (wf_index_inj _ _ _ _ _ Hwf Hl Hl'). }
  assert (oldest_step (abs s) (abs s')) by (exists src, k, e, l; done).
  simpl in Hidx. destruct valid.
  - destruct (heap_Push_spec h1 (mkExpiration newOldest src loc) Ho) as (h'&->&Hp'&Ho').
    exists s', h'. split_and!; try done. split; [done|]. rewrite Hp', Hp1, Hidx.
    assert (mkExpiration newOldest src loc = heap_entry s' (src, loc)) as ->.
    { unfold heap_entry. simpl. rewrite Hv. destruct l as [|[k1 e1] l]; by simplify_eq/=. }
    rewrite <- fmap_cons. by rewrite map_to_list_delete.
  - exists s', h1. split_and!; try done. split; [done|]. by rewrite Hidx.
Qed.

Lemma truncate_loop_spec n s h :
  wf_store s → heap_for s h → count s = total (abs s) → count s ≤ MaxInt64 →
  Z.of_nat n ≤ count s →
  ∃ s' h', truncate_loop n s h = Done (s', h') ∧ wf_store s' ∧ heap_for s' h' ∧
    same_config s s' ∧ nsteps oldest_step n (abs s) (abs s') ∧
    count s' = total (abs s') ∧ total (abs s') = total (abs s) - Z.of_nat n.
Proof.
  revert s h. induction n as [|n IH]; intros s h Hwf Hh Hc Hmax Hn; simpl.
  { exists s, h. split_and!; try done; [constructor|lia]. }
  destruct (truncate_step_spec s h Hwf Hh) as (s1&h1&->&Hwf1&Hh1&Hcfg1&Hstep&Hc1).
  { intros ->. assert (storageIndex s = ∅) as E by by apply (heap_for_nil _ _ Hh).
    assert (abs s = ∅) as Ea by (unfold abs; by rewrite E, fmap_empty).
    rewrite Ea in Hc. unfold total in Hc. rewrite map_fold_empty in Hc. lia. }
  cbn [mbind outcome_bind].
  assert (total (abs s1) = total (abs s) - 1) as Ht1.
  { destruct Hstep as (src&k&e&l&E&_&->). by eapply total_drop. }
  assert (count s1 = total (abs s1)) as Hc1'.
  { rewrite Hc1, Ht1, <- Hc. apply wrap64_id. unfold int64_range, MinInt64. lia. }
  destruct (IH s1 h1 Hwf1 Hh1 Hc1') as (s'&h'&->&Hwf'&Hh'&Hcfg&Hsteps&Hc'&Ht'); [lia..|].
  exists s', h'. split_and!; try done; [by etrans|by econstructor|lia].
Qed.

(** ** The whole of [truncate] *)
Lemma truncate_finish_spec s h now :
  wf_store s → heap_for s h →
  ∃ s', truncate_finish s h now = Done s' ∧ wf_store s' ∧ same_config s s' ∧
    abs s' = abs s ∧ count s' = count s ∧
    if decide (h = []) then oldestTimestamp s' = MaxInt64
    else ∃ src k e l, entries (abs s) src = (k, e) :: l ∧ oldestTimestamp s' = k.
Proof.
  intros Hwf Hh. unfold truncate_finish, Len. case_bool_decide as E.
  - apply nil_length_inv in E as ->. eexists. split; [done|]. split_and!; try done.
    split; apply Hwf.
  - destruct (decide (h = [])) as [->|Hne]; [done|].
    destruct (exists_last Hne) as (h0&x&->).
    rewrite Pop_snoc. cbn [mbind outcome_bind].
    assert (x ∈ h0 ++ [x]) as (src&loc&Hl&->)%(heap_for_elem _ _ _ Hh) by set_solver.
    destruct (wf_index _ _ Hwf _ _ Hl) as (st&Hst&_).
    destruct (filled_entry _ _ _ _ _ Hwf I Hl Hst) as (k&e&l&Hc).
    pose proof (entries_index _ _ _ _ Hl Hst) as He. rewrite Hc in He.
    assert (first_key (view s loc) = k) as Hk by (unfold view; by rewrite Hst, Hc).
    cbn [heap_entry timestamp fst snd]. rewrite Hk.
    match goal with |- context [if ?b then _ else _] => destruct b end;
      (eexists; split; [done|]; split_and!; try done; [split; apply Hwf|by eauto 6]).
Qed.

Lemma truncate_ok quantity s order now :
  wf_store s → order ≡ₚ map_to_list (storageIndex s) →
  count s = total (abs s) → count s ≤ MaxInt64 → quantity (count s) ≠ 0 →
  let n := Z.to_nat (Z.min (quantity (count s)) (count s)) in
  ∃ s', truncate quantity s order now = Done (s', true) ∧ wf_store s' ∧ same_config s s' ∧
    oldest_removed n (abs s) (abs s') ∧ count s' = total (abs s') ∧
    total (abs s') = total (abs s) - Z.of_nat n ∧
    storeSize (metrics s') = count s' ∧
    (storageIndex s' = ∅ → oldestTimestamp s' = MaxInt64).
Proof.
  intros Hwf Ho Hc Hmax Hq n. unfold truncate.
  destruct (Z.eqb_spec (quantity (count s)) 0) as [|_]; [done|].
  replace (if count s <? quantity (count s) then count s else quantity (count s))
    with (Z.min (quantity (count s)) (count s)) by (destruct (Z.ltb_spec (count s) (quantity (count s))); lia).
  fold n. destruct (BuildExpirationHeap_spec s order Hwf Ho) as (h&->&Hh).
  cbn [mbind outcome_bind]. pose proof (total_nonneg (abs s)).
  destruct (truncate_loop_spec n s h Hwf Hh Hc Hmax)
    as (s1&h1&->&Hwf1&Hh1&Hcfg1&Hsteps&Hc1&Ht1); [lia|].
  cbn [mbind outcome_bind].
  destruct (truncate_finish_spec s1 h1 now Hwf1 Hh1) as (s2&->&Hwf2&Hcfg2&Habs2&Hc2&Hold).
  cbn [mbind outcome_bind]. eexists. split; [done|]. split_and!.
  - split; apply Hwf2.
  - etrans; [done|]. by etrans; [exact Hcfg2|].
  - change (oldest_removed n (abs s) (abs s2)). rewrite Habs2.
    apply nsteps_oldest_removed; [by eapply wf_store_sorted|done].
  - change (count s2 = total (abs s2)). congruence.
  - change (total (abs s2) = total (abs s) - Z.of_nat n). rewrite Habs2. lia.
  - done.
  - simpl. intros E2. rewrite decide_True in Hold; [done|].
    apply (heap_for_nil _ _ Hh1). apply dom_empty_iff_L.
    assert (dom (abs s2) = dom (abs s1)) as Hd by by rewrite Habs2.
    unfold abs in Hd. rewrite !dom_fmap_L, E2 in Hd. rewrite <- Hd. apply dom_empty_L.
Qed.
