(* ===== verification/StoreGet.v ===== *)
(** * The store: what a read returns

    [answer] is the specification of [Get]: the envelopes of the source in the
    time range, of a requested type, with a metric name that matches, in key
    order.  The two traversals of the code are one [walk] over the tree in the
    two directions; what [Get] returns is compared with [answer]. *)

From S2P Require Import Prelude AvlTree Envelope ExpirationHeap Store StoreInv StoreTruncate.

(** ** Specification *)
Definition has_type (e : Envelope) (t : EnvelopeType) : bool :=
  match t with
  | EnvelopeType_ANY => true
  | EnvelopeType_LOG => bool_decide (is_Some (GetLog e))
  | EnvelopeType_COUNTER => bool_decide (is_Some (GetCounter e))
  | EnvelopeType_GAUGE => bool_decide (is_Some (GetGauge e))
  | EnvelopeType_TIMER => bool_decide (is_Some (GetTimer e))
  | EnvelopeType_EVENT => bool_decide (is_Some (GetEvent e))
  | EnvelopeType_other _ => false
  end.

(** The enum values the code knows; any other makes [checkEnvelopeType] panic. *)
Definition known_types (types : option (list EnvelopeType)) : Prop :=
  match types with
  | None => True
  | Some types => Forall (λ t, ∀ n, t ≠ EnvelopeType_other n) types
  end.

Definition type_matches (types : option (list EnvelopeType)) (e : Envelope) : bool :=
  match types with None => true | Some types => existsb (has_type e) types end.

Section Answer.
Variable nameFilter : option (string → bool).
Variable types : option (list EnvelopeType).

(** What a read returns for one envelope. *)
Definition accepts (e : Envelope) : option Envelope :=
  e' ← filterByName e nameFilter;
  if type_matches types e' then Some e' else None.

(** The accepted envelopes among those [skip] and [past] leave. *)
Definition select (skip past : Z → bool) (l : list (Z * Envelope)) : list Envelope :=
  omap accepts
    (filter (λ e, skip (Timestamp e) = false ∧ past (Timestamp e) = false) l.*2).

Definition answer (start end_ : Z) (l : list (Z * Envelope)) : list Envelope :=
  omap accepts (filter (λ e, start ≤ Timestamp e < end_) l.*2).
End Answer.

(** ** One walk for the two directions *)

(** The subtree visited first and the one visited last. *)
Definition near {A} (d : dir) (l r : A) : A := match d with DLeft => l | DRight => r end.
Definition far {A} (d : dir) (l r : A) : A := match d with DLeft => r | DRight => l end.

Section Walk.
Context {R : Type}.

Fixpoint walk (d : dir) (skip past : Z → bool) (f : Envelope → R → outcome (bool * R))
    (n : node Envelope) (res : R) : outcome (bool * R) :=
  match n with
  | Nil => Done (false, res)
  | Node _ l _ e r =>
      let c := near d l r in
      let o := far d l r in
      let t := Timestamp e in
      if skip t then walk d skip past f o res
      else
        '(stop, res) ← walk d skip past f c res;
        if (stop : bool) then Done (true, res)
        else
          '(hit, res) ← (if past t then Done (true, res) else f e res);
          if (hit : bool) && negb (isNodeAFudgeSequenceMember n (opp d))
          then Done (true, res)
          else walk d skip past f o res
  end.
End Walk.

(** The entries in the order the walk visits them. *)
Definition visited (d : dir) (l : list (Z * Envelope)) : list (Z * Envelope) :=
  match d with DLeft => l | DRight => reverse l end.

Fixpoint walk_order (d : dir) (n : node Envelope) : list (Z * Envelope) :=
  match n with
  | Nil => []
  | Node _ l k e r =>
      walk_order d (near d l r) ++ (k, e) :: walk_order d (far d l r)
  end.

(** [skip] holds of a prefix of the visited entries and [past] of a suffix. *)
Definition separated (skip past : Z → bool) (p q : Z * Envelope) : Prop :=
  (skip (Timestamp q.2) = true → skip (Timestamp p.2) = true) ∧
  (past (Timestamp p.2) = true → past (Timestamp q.2) = true).

(** No envelope was inserted away from its timestamp. *)
Definition no_fudge (l : list (Z * Envelope)) : Prop :=
  Forall (λ p, Timestamp p.2 = p.1) l.

Lemma asc_walk {R} n start end_ (f : Envelope → R → outcome (bool * R)) res :
  treeAscTraverse n start end_ f res =
  walk DLeft (λ t, t <? start) (λ t, end_ <=? t) f n res.
Proof.
  revert res. induction n as [|b l IHl k e r IHr]; intros res; simpl; [done|].
  rewrite Z.leb_antisym. destruct (Timestamp e <? start); simpl; [done|].
  rewrite IHl. destruct (walk _ _ _ _ l res) as [[[] res']|]; simpl; [done| |done].
  destruct (if end_ <=? Timestamp e then _ else _) as [[hit res'']|]; simpl; [|done].
  by rewrite IHr.
Qed.

Lemma desc_walk {R} n start end_ (f : Envelope → R → outcome (bool * R)) res :
  treeDescTraverse n start end_ f res =
  walk DRight (λ t, end_ <=? t) (λ t, t <? start) f n res.
Proof.
  revert res. induction n as [|b l IHl k e r IHr]; intros res; simpl; [done|].
  rewrite Z.ltb_antisym. destruct (end_ <=? Timestamp e); simpl; [done|].
  rewrite IHr. destruct (walk _ _ _ _ r res) as [[[] res']|]; simpl; [done| |done].
  destruct (if Timestamp e <? start then _ else _) as [[hit res'']|]; simpl; [|done].
  by rewrite IHl.
Qed.

Lemma walk_order_visited d n : walk_order d n = visited d (inorder n).
Proof.
  induction n as [|b l IHl k e r IHr]; simpl; [by destruct d|].
  destruct d; simpl; rewrite IHl, IHr; simpl; [done|].
  by rewrite reverse_app, reverse_cons, <- app_assoc.
Qed.

(** Induction along the order of the walk. *)
Lemma walk_ind (d : dir) (P : node Envelope → Prop) :
  P Nil → (∀ b l k e r, P (near d l r) → P (far d l r) → P (Node b l k e r)) → ∀ n, P n.
Proof. intros HN HC n. induction n; [done|]. apply HC; by destruct d. Qed.

(** ** Filters *)
Lemma checkEnvelopeType_spec e t :
  (∀ n, t ≠ EnvelopeType_other n) → checkEnvelopeType e t = Done (has_type e t).
Proof. destruct t; try done. intros H. by destruct (H n). Qed.

Lemma validEnvelopeType_spec e types :
  known_types types → validEnvelopeType e types = Done (type_matches types e).
Proof.
  destruct types as [types|]; simpl; [|done]. induction 1 as [|t types Ht _ IH]; simpl; [done|].
  rewrite checkEnvelopeType_spec by done. simpl. by destruct (has_type e t).
Qed.

Lemma collect_spec nf types limit e res :
  known_types types →
  collect nf types limit e res =
  match accepts nf types e with
  | Some e' => Done (limit <=? Z.of_nat (length res + 1), res ++ [e'])
  | None => Done (match filterByName e nf with
                  | None => false | Some _ => limit <=? Z.of_nat (length res) end, res)
  end.
Proof.
  intros Ht. unfold collect, accepts. simpl.
  destruct (filterByName e nf) as [e'|]; simpl; [|done].
  rewrite validEnvelopeType_spec by done. simpl.
  destruct (type_matches types e'); [|done]. by rewrite length_app.
Qed.

Section WalkSpec.
Variables (nf : option (string → bool)) (types : option (list EnvelopeType)) (limit : Z).
Variables (d : dir) (skip past : Z → bool).
Hypothesis types_known : known_types types.

Notation f := (collect nf types limit).
Notation sel := (select nf types skip past).

Lemma select_app l1 l2 : sel (l1 ++ l2) = sel l1 ++ sel l2.
Proof. unfold select. by rewrite fmap_app, filter_app, omap_app. Qed.

Lemma select_cons k e l : sel ((k, e) :: l) = sel [(k, e)] ++ sel l.
Proof. apply (select_app [(k, e)]). Qed.

Lemma select_one_out k e : skip (Timestamp e) = true ∨ past (Timestamp e) = true → sel [(k, e)] = [].
Proof.
  intros H. unfold select. simpl. rewrite filter_cons_False; [done|].
  intros [??]. destruct H; congruence.
Qed.

Lemma select_one_in k e :
  skip (Timestamp e) = false → past (Timestamp e) = false →
  sel [(k, e)] = option_list (accepts nf types e).
Proof.
  intros H1 H2. unfold select. simpl. rewrite filter_cons_True by done. simpl.
  by destruct (accepts nf types e).
Qed.

Lemma select_none l :
  Forall (λ p, skip (Timestamp p.2) = true ∨ past (Timestamp p.2) = true) l → sel l = [].
Proof.
  induction 1 as [|[k e] l H _ IH]; [done|].
  by rewrite select_cons, select_one_out, IH.
Qed.

(** The step at one node: the callback, unless the walk is past the range. *)
Lemma visit_spec k e res :
  skip (Timestamp e) = false →
  ∃ hit, (if past (Timestamp e) then Done (true, res) else f e res)
         = Done (hit, res ++ sel [(k, e)]) ∧
    (hit = true → past (Timestamp e) = true ∨ limit ≤ Z.of_nat (length (res ++ sel [(k, e)]))) ∧
    (past (Timestamp e) = true → hit = true) ∧
    (hit = false → sel [(k, e)] ≠ [] → Z.of_nat (length (res ++ sel [(k, e)])) < limit).
Proof.
  intros Hs. destruct (past (Timestamp e)) eqn:Ep.
  - rewrite select_one_out by auto. rewrite app_nil_r. exists true. split_and!; auto; done.
  - rewrite select_one_in, collect_spec by done.
    destruct (accepts nf types e) as [e'|]; simpl; rewrite ?app_nil_r.
    + eexists. split; [done|]. rewrite length_app. simpl. split_and!; [|done|].
      * intros ?%Z.leb_le. right. lia.
      * intros ?%Z.leb_gt. lia.
    + eexists. split; [done|]. split_and!; [|done..].
      destruct (filterByName e nf); [|done]. intros ?%Z.leb_le. by right.
Qed.

Lemma walk_sound n res :
  ∃ stop x, walk d skip past f n res = Done (stop, res ++ x) ∧
    x `sublist_of` sel (walk_order d n).
Proof.
  revert res. induction n as [|b l k e r IHc IHo] using (walk_ind d); intros res; simpl.
  { exists false, []. by rewrite app_nil_r. }
  rewrite select_app, select_cons. destruct (skip (Timestamp e)) eqn:Es.
  { destruct (IHo res) as (stop&x&->&Hx). exists stop, x. split; [done|].
    by do 2 apply sublist_inserts_l. }
  destruct (IHc res) as (stop&x&->&Hx). cbn [mbind outcome_bind].
  destruct stop; [exists true, x; split; [done|by apply sublist_inserts_r]|].
  destruct (visit_spec k e (res ++ x) Es) as (hit&->&_). cbn [mbind outcome_bind].
  destruct (hit && _).
  - exists true, (x ++ sel [(k, e)]). rewrite app_assoc. split; [done|].
    apply sublist_app; [done|]. by apply sublist_inserts_r.
  - destruct (IHo ((res ++ x) ++ sel [(k, e)])) as (stop&y&->&Hy).
    exists stop, (x ++ sel [(k, e)] ++ y). rewrite !app_assoc. split; [done|].
    rewrite <- !app_assoc. by repeat apply sublist_app.
Qed.

(** With separated bounds the walk returns a prefix of the selection, and the
    whole of it unless the limit was reached. *)
Lemma walk_complete n res :
  StronglySorted (separated skip past) (walk_order d n) →
  ∃ stop x, walk d skip past f n res = Done (stop, res ++ x) ∧
    x `prefix_of` sel (walk_order d n) ∧
    (stop = false → x = sel (walk_order d n)) ∧
    (stop = true → limit ≤ Z.of_nat (length (res ++ x)) ∨
       (x = sel (walk_order d n) ∧ ∃ p, p ∈ walk_order d n ∧ past (Timestamp p.2) = true)).
Proof.
  revert res. induction n as [|b l k e r IHc IHo] using (walk_ind d); intros res; simpl.
  { exists false, []. rewrite app_nil_r. by split_and!. }
  intros (Hc&Ho&Hcx&Hxo)%StronglySorted_mid. rewrite select_app, select_cons.
  destruct (skip (Timestamp e)) eqn:Es.
  { rewrite (select_none (walk_order d (near d l r))), select_one_out by
      (rewrite ?Forall_forall; intros; left; try done; by apply (Hcx _ H)).
    destruct (IHo res Ho) as (stop&x&->&Hp&Hf&Ht). exists stop, x.
    split_and!; [done..|]. intros [|(?&p&?&?)]%Ht; [by left|right].
    split; [done|]. exists p. set_solver. }
  assert (past (Timestamp e) = true → sel (walk_order d (far d l r)) = []) as Hpast.
  { intros Hp. apply select_none, Forall_forall. intros q Hq. right. by apply (Hxo q Hq). }
  destruct (IHc res Hc) as (stop&x&->&Hp&Hf&Ht). cbn [mbind outcome_bind].
  destruct stop.
  { exists true, x. split_and!; [done|by apply prefix_app_r|done|]. intros _.
    destruct (Ht eq_refl) as [|(->&p&Hin&Hpp)]; [by left|right].
    assert (past (Timestamp e) = true) as Hpe by by apply (Hcx p Hin).
    rewrite select_one_out, Hpast, app_nil_r by auto. split; [done|]. exists p. set_solver. }
  rewrite <- (Hf eq_refl). clear Hp Hf Ht.
  destruct (visit_spec k e (res ++ x) Es) as (hit&->&Hhit&Hph&_). cbn [mbind outcome_bind].
  destruct (hit && _) eqn:Eh.
  - apply andb_prop in Eh as [-> _]. exists true, (x ++ sel [(k, e)]). rewrite app_assoc.
    split_and!; [done| |done|].
    + rewrite !app_assoc. by apply prefix_app_r.
    + intros _. destruct (Hhit eq_refl) as [Hpe|]; [right|by left].
      rewrite Hpast, app_nil_r by done. split; [done|]. exists (k, e). set_solver.
  - destruct (IHo ((res ++ x) ++ sel [(k, e)]) Ho) as (stop&y&->&Hy&Hf&Ht).
    exists stop, (x ++ sel [(k, e)] ++ y). rewrite !app_assoc. split_and!; [done| | |].
    + by apply prefix_app.
    + intros E. by rewrite (Hf E).
    + intros [|(->&p&?&?)]%Ht; [by left|right]. split; [done|]. exists p. set_solver.
Qed.

Lemma not_fudge_member b l k e r :
  no_fudge (walk_order d (Node b l k e r)) →
  isNodeAFudgeSequenceMember (Node b l k e r) (opp d) = false.
Proof.
  unfold no_fudge. simpl. intros (_&He&Ho)%Forall_app_mid. simpl in He.
  rewrite He, Z.eqb_refl. simpl.
  replace (match opp d with DLeft => l | DRight => r end) with (far d l r) by by destruct d.
  destruct (far d l r) as [|b' l' k' e' r']; [done|]. simpl in Ho.
  apply Forall_app_mid in Ho as (_&He'&_). simpl in He'. by rewrite He', Z.eqb_refl.
Qed.

(** Without fudged keys the walk stops at the limit. *)
Lemma walk_bounded n res :
  no_fudge (walk_order d n) → Z.of_nat (length res) < limit →
  ∃ stop x, walk d skip past f n res = Done (stop, res ++ x) ∧
    Z.of_nat (length (res ++ x)) ≤ limit ∧
    (stop = false → Z.of_nat (length (res ++ x)) < limit).
Proof.
  revert res. induction n as [|b l k e r IHc IHo] using (walk_ind d); intros res Hnf Hl.
  { exists false, []. rewrite app_nil_r. split_and!; [done|lia..]. }
  pose proof (not_fudge_member _ _ _ _ _ Hnf) as Hmem.
  unfold no_fudge in Hnf. simpl in Hnf. apply Forall_app_mid in Hnf as (Hc&_&Ho).
  simpl walk. destruct (skip (Timestamp e)) eqn:Es; [auto|].
  destruct (IHc res Hc Hl) as (stop&x&->&Hx&Hf). cbn [mbind outcome_bind].
  destruct stop; [by exists true, x|]. specialize (Hf eq_refl).
  destruct (visit_spec k e (res ++ x) Es) as (hit&->&_&_&Hlt). cbn [mbind outcome_bind].
  simpl in Hmem. rewrite Hmem, andb_true_r. destruct hit.
  - exists true, (x ++ sel [(k, e)]). rewrite app_assoc. split_and!; [done| |done].
    rewrite length_app. assert (length (sel [(k, e)]) ≤ 1)%nat; [|lia].
    etrans; [apply length_omap_le|]. etrans; [apply length_filter|]. done.
  - destruct (IHo ((res ++ x) ++ sel [(k, e)]) Ho) as (stop&y&->&Hy&Hf').
    + destruct (decide (sel [(k, e)] = [])) as [->|]; [by rewrite app_nil_r|auto].
    + exists stop, (x ++ sel [(k, e)] ++ y). rewrite !app_assoc. by split_and!.
Qed.

Lemma walk_exact n :
  StronglySorted (separated skip past) (walk_order d n) → no_fudge (walk_order d n) →
  1 ≤ limit →
  ∃ stop, walk d skip past f n [] = Done (stop, take (Z.to_nat limit) (sel (walk_order d n))).
Proof.
  intros Hs Hn Hl.
  destruct (walk_complete n [] Hs) as (stop&x&Hw&Hp&Hf&Ht).
  destruct (walk_bounded n [] Hn) as (stop'&x'&Hw'&Hle&_); [simpl; lia|].
  rewrite Hw' in Hw. injection Hw as -> ->. rewrite Hw'. exists stop. f_equal. f_equal.
  simpl in *. assert (x = sel (walk_order d n) ∨ limit ≤ Z.of_nat (length x)) as [->|Hge]
    by (destruct stop; naive_solver).
  - symmetry. apply take_ge. lia.
  - rewrite (prefix_take _ _ Hp) at 1. f_equal. lia.
Qed.
End WalkSpec.

(** ** [Get] *)
Definition get_dir (descending : bool) : dir := if descending then DRight else DLeft.
Definition get_skip (descending : bool) (start end_ t : Z) : bool :=
  if descending then end_ <=? t else t <? start.
Definition get_past (descending : bool) (start end_ t : Z) : bool :=
  if descending then t <? start else end_ <=? t.

(** A list in the order of the read. *)
Definition in_order {A} (descending : bool) (l : list A) : list A :=
  if descending then reverse l else l.

(** The timestamps follow the keys. *)
Definition monotone (l : list (Z * Envelope)) : Prop :=
  StronglySorted (λ p q, Timestamp p.2 ≤ Timestamp q.2) l.

(** What a read changes: the [Egress] counter. *)
Definition counted_egress (res : list Envelope) (s : Store) : Store :=
  upd_metrics (add_egress (Z.of_nat (length res))) s.

Lemma select_answer nf types start end_ desc l :
  select nf types (get_skip desc start end_) (get_past desc start end_)
    (visited (get_dir desc) l) = in_order desc (answer nf types start end_ l).
Proof.
  unfold select, answer.
  assert (∀ l : list Envelope, filter (λ e, get_skip desc start end_ (Timestamp e) = false ∧
    get_past desc start end_ (Timestamp e) = false) l =
    filter (λ e, start ≤ Timestamp e < end_) l) as Hf.
  { intros x. apply list_filter_iff. intros e. unfold get_skip, get_past.
    destruct desc; rewrite Z.ltb_ge, Z.leb_gt; lia. }
  rewrite Hf. destruct desc; simpl; [|done].
  by rewrite fmap_reverse, reverse_filter, omap_reverse.
Qed.

Lemma monotone_separated desc start end_ l :
  monotone l →
  StronglySorted (separated (get_skip desc start end_) (get_past desc start end_))
    (visited (get_dir desc) l).
Proof.
  intros Hm. unfold separated, get_skip, get_past. destruct desc; simpl.
  - apply StronglySorted_reverse in Hm. eapply StronglySorted_weaken; [|exact Hm].
    intros p q H. simpl in H. rewrite !Z.ltb_lt, !Z.leb_le. lia.
  - eapply StronglySorted_weaken; [|exact Hm].
    intros p q H. simpl in H. rewrite !Z.ltb_lt, !Z.leb_le. lia.
Qed.

Lemma no_fudge_monotone l : ksorted l → no_fudge l → monotone l.
Proof.
  unfold monotone. induction l as [|[k e] l IH]; [constructor|].
  intros [Hlt Hs]%ksorted_cons [He Hn]%Forall_cons. simpl in He.
  constructor; [auto|]. rewrite !Forall_forall in *. intros p Hp.
  simpl. rewrite He, (Hn p Hp). apply Hlt in Hp. lia.
Qed.

Lemma no_fudge_visited d l : no_fudge l → no_fudge (visited d l).
Proof. destruct d; simpl; [done|]. unfold no_fudge. by rewrite Forall_reverse. Qed.

(** [Get] is a walk over the source's tree. *)
Lemma Get_walk {P} s src start end_ types nf limit desc :
  wf_store_gen P s →
  ∃ n : node Envelope, inorder n = entries (abs s) src ∧
    Get s src start end_ types nf limit desc =
    '(_, res) ← walk (get_dir desc) (get_skip desc start end_) (get_past desc start end_)
                  (collect nf types limit) n [];
    Done (counted_egress res s, res).
Proof.
  intros Hwf. unfold Get. destruct (storageIndex s !! src) as [loc|] eqn:El.
  - destruct (wf_index _ _ Hwf _ _ El) as (st&Hst&_). rewrite Hst.
    exists (Root (storage_Tree st)). split; [by rewrite (entries_index _ _ _ _ El Hst)|].
    cbn [must mbind outcome_bind]. destruct desc; by rewrite ?asc_walk, ?desc_walk.
  - exists Nil. unfold entries. rewrite lookup_abs, El. split; [done|]. simpl.
    unfold counted_egress, upd_metrics, add_egress. simpl. rewrite Z.add_0_r.
    by destruct s as [? ? ? ? ? ? ? [] ? ? ?].
Qed.

Section GetSpec.
Context {P : string → Prop} (s : Store) (src : string) (start end_ : Z) (types : option (list EnvelopeType)).
Context (nf : option (string → bool)) (limit : Z) (desc : bool).
Hypothesis Hwf : wf_store_gen P s.
Hypothesis Hknown : known_types types.

Notation full := (in_order desc (answer nf types start end_ (entries (abs s) src))).

Lemma Get_sublist :
  ∃ res, Get s src start end_ types nf limit desc = Done (counted_egress res s, res) ∧
    res `sublist_of` full.
Proof.
  destruct (Get_walk s src start end_ types nf limit desc Hwf) as (n&En&->).
  destruct (walk_sound nf types limit (get_dir desc) (get_skip desc start end_)
    (get_past desc start end_) Hknown n []) as (stop&x&->&Hx).
  exists x. split; [done|]. by rewrite walk_order_visited, select_answer, En in Hx.
Qed.

Lemma Get_prefix :
  monotone (entries (abs s) src) →
  ∃ res, Get s src start end_ types nf limit desc = Done (counted_egress res s, res) ∧
    res `prefix_of` full ∧ (res = full ∨ limit ≤ Z.of_nat (length res)).
Proof.
  intros Hm. destruct (Get_walk s src start end_ types nf limit desc Hwf) as (n&En&->).
  rewrite <- En in *. pose proof (monotone_separated desc start end_ _ Hm) as Hs.
  rewrite <- walk_order_visited in Hs.
  destruct (walk_complete nf types limit (get_dir desc) _ _ Hknown n [] Hs)
    as (stop&x&->&Hp&Hf&Ht).
  rewrite walk_order_visited, select_answer in *. exists x. split; [done|]. split; [done|].
  destruct stop; [|auto]. destruct Ht as [|[]]; auto.
Qed.

Lemma Get_take :
  no_fudge (entries (abs s) src) → 1 ≤ limit →
  Get s src start end_ types nf limit desc =
  Done (counted_egress (take (Z.to_nat limit) full) s, take (Z.to_nat limit) full).
Proof.
  intros Hn Hl. destruct (Get_walk s src start end_ types nf limit desc Hwf) as (n&En&->).
  pose proof (wf_store_sorted s Hwf src) as Hs. rewrite <- En in *.
  pose proof (monotone_separated desc start end_ _ (no_fudge_monotone _ Hs Hn)) as Hm.
  apply (no_fudge_visited (get_dir desc)) in Hn. rewrite <- walk_order_visited in Hm, Hn.
  destruct (walk_exact nf types limit (get_dir desc) _ _ Hknown n Hm Hn Hl) as (stop&->).
  by rewrite walk_order_visited, select_answer.
Qed.
End GetSpec.
