(* ===== verification/StoreRefine.v ===== *)
(** * The store as a state machine, and its correctness

    A store without concurrent operations runs a sequence of events: insertions,
    truncations, reads and metadata reports.  [reach] is reachability from
    [NewStore], [spec_event] what each event does to the abstract store.  The
    theorems of this file are the store's contract. *)

From S2P Require Import Prelude AvlTree Envelope ExpirationHeap Store StoreInv StoreTruncate StoreGet.

(** ** Metadata *)
Definition lookup_storage (s : Store) (loc : nat) : storage :=
  default (new_storage "") (mem s !! loc).

(** The report for one storage. *)
Definition meta_of (s : Store) (loc : nat) : MetaInfo :=
  let st := lookup_storage s loc in Meta_entry (Z.of_nat (length (view s loc))) st.

(** ** Events *)
Inductive event :=
| EPut (now : Z) (e : Envelope) (src : string)
| ETruncate (quantity : Z → Z) (order : list (string * nat)) (now : Z)
| EGet (src : string) (start end_ : Z) (types : option (list EnvelopeType))
    (nameFilter : option (string → bool)) (limit : Z) (descending : bool)
| EMeta.

Definition exec (s : Store) (ev : event) : outcome Store :=
  match ev with
  | EPut now e src => Put s now e src
  | ETruncate quantity order now => fst <$> truncate quantity s order now
  | EGet src start end_ types nf limit desc =>
      fst <$> Get s src start end_ types nf limit desc
  | EMeta => _ ← Meta s; Done s
  end.

(** The first free key from the timestamp is within the bound on the fudge. *)
Definition fresh_put (max fudge : Z) (e : Envelope) (l : list (Z * Envelope)) : Prop :=
  alookup (free_key fudge (Timestamp e) (make_room max l)) (make_room max l) = None.

(** The events of a run: a [Range] lists the index, a read asks for known types,
    an insertion finds a free key. *)
Definition valid_event (s : Store) (ev : event) : Prop :=
  match ev with
  | EPut _ e src => fresh_put (maxPerSource s) (maxTimestampFudge s) e (entries (abs s) src)
  | ETruncate _ order _ => order ≡ₚ map_to_list (storageIndex s)
  | EGet _ _ _ types _ _ _ => known_types types
  | EMeta => True
  end.

Inductive reach (max prunes : Z) : nat → Store → Prop :=
| reach_new : reach max prunes 0 (NewStore max prunes)
| reach_step n s ev s' :
    reach max prunes n s → valid_event s ev → exec s ev = Done s' →
    reach max prunes (S n) s'.

(** What an event does to the abstract store. *)
Definition spec_event (max fudge : Z) (a : astore) (ev : event) (a' : astore) : Prop :=
  match ev with
  | EPut _ e src => a' = put_spec max fudge e src a
  | ETruncate quantity _ _ =>
      if decide (quantity (total a) = 0) then a' = a
      else oldest_removed (Z.to_nat (Z.min (quantity (total a)) (total a))) a a'
  | EGet _ _ _ _ _ _ _ | EMeta => a' = a
  end.

(** ** Lemmas *)
Lemma Meta_spec s : wf_store s → Meta s = Done (meta_of s <$> storageIndex s).
Proof.
  intros Hwf. unfold Meta, Meta_range.
  rewrite (mapM_Done _ (λ p, (p.1, Meta_entry (Count (meta (lookup_storage s p.2)))
    (lookup_storage s p.2)))).
  2: { intros [src loc] (st&Hst&_)%elem_of_map_to_list%(wf_index _ _ Hwf).
       unfold lookup_storage. simpl. by rewrite Hst. }
  cbn [mbind outcome_bind]. unfold Meta_fill.
  rewrite (mapM_Done _ (λ p, (p.1, default (mkMetaInfo 0 0 0 0)
    (meta_of s <$> storageIndex s !! p.1)))).
  2: { intros p ([src loc]&->&Hl%elem_of_map_to_list)%list_elem_of_fmap. simpl.
       destruct (wf_index _ _ Hwf _ _ Hl) as (st&Hst&[_ Ht _]&_). rewrite Hl. simpl.
       unfold meta_of, lookup_storage, view. rewrite Hst. simpl. by rewrite (wf_size _ Ht). }
  cbn [mbind outcome_bind]. f_equal. rewrite <- list_fmap_compose.
  rewrite <- (list_to_map_to_list (storageIndex s)) at 2.
  rewrite <- list_to_map_fmap. f_equal. apply list_fmap_ext.
  intros i [src loc] Hi. apply list_elem_of_lookup_2, elem_of_map_to_list in Hi.
  simpl. by rewrite Hi.
Qed.

Lemma NewStore_wf max prunes : 1 ≤ max ≤ MaxInt64 → wf_store (NewStore max prunes).
Proof.
  intros H. split; simpl; [intros ??; by rewrite lookup_empty| |done].
  intros loc. rewrite lookup_empty. by intros [].
Qed.

Lemma total_put max fudge e src a :
  1 ≤ max → fresh_put max fudge e (entries a src) →
  Z.of_nat (length (entries a src)) ≤ max →
  total (put_spec max fudge e src a) =
  if max <=? Z.of_nat (length (entries a src)) then total a else total a + 1.
Proof.
  intros Hm Hf Hl. unfold put_spec. rewrite total_insert. unfold insert_spec.
  rewrite length_linsert_fresh by exact Hf. unfold make_room.
  destruct (Z.leb_spec max (Z.of_nat (length (entries a src)))); [|lia].
  destruct (entries a src); simpl in *; lia.
Qed.

Lemma entries_max s src :
  wf_store s → Z.of_nat (length (entries (abs s) src)) ≤ maxPerSource s.
Proof.
  intros Hwf. pose proof (wf_config _ _ Hwf). unfold entries. rewrite lookup_abs.
  destruct (storageIndex s !! src) as [loc|] eqn:E; simpl; [|lia].
  destruct (wf_index _ _ Hwf _ _ E) as (st&Hst&[_ _ Hmax]&_). unfold view. by rewrite Hst.
Qed.

(** One event from a good state. *)
Lemma exec_ok s ev :
  wf_store s → count s = total (abs s) → count s < MaxInt64 → valid_event s ev →
  ∃ s', exec s ev = Done s' ∧ wf_store s' ∧ same_config s s' ∧
    count s' = total (abs s') ∧ total (abs s') ≤ total (abs s) + 1 ∧
    spec_event (maxPerSource s) (maxTimestampFudge s) (abs s) ev (abs s').
Proof.
  intros Hwf Hc Hmax Hv. pose proof (total_nonneg (abs s)).
  destruct ev as [now e src|quantity order now|src start end_ types nf limit desc|];
    simpl in Hv |- *.
  - destruct (Put_ok s now e src Hwf) as (s'&->&Hwf'&Hcfg&Ha&Hc').
    exists s'. rewrite Ha, total_put by first [done|apply Hwf|by apply entries_max].
    assert (wrap64 (count s + 1) = count s + 1) as Hw
      by (apply wrap64_id; unfold int64_range, MinInt64; lia).
    destruct (_ <=? _); split_and!; try done; lia.
  - destruct (decide (quantity (count s) = 0)) as [E|E].
    + unfold truncate. rewrite E. simpl. eexists. split; [done|].
      rewrite <- Hc, decide_True by done. simpl.
      split_and!; try done; [split; apply Hwf|change (abs (set_consecutive 0 s)) with (abs s); lia].
    + destruct (truncate_ok quantity s order now Hwf Hv Hc) as
        (s'&->&Hwf'&Hcfg&Hrem&Hc'&Ht&_); [lia|done|].
      exists s'. rewrite <- Hc, decide_False by done. rewrite <- Hc in Ht.
      split_and!; try done. lia.
  - destruct (Get_sublist s src start end_ types nf limit desc Hwf Hv) as (res&->&_).
    exists (counted_egress res s). split; [done|]. split_and!; try done; [split; apply Hwf|].
    change (abs (counted_egress res s)) with (abs s). lia.
  - rewrite Meta_spec by done. exists s. split_and!; try done. lia.
Qed.

Lemma reach_inv max prunes n s :
  1 ≤ max ≤ MaxInt64 → reach max prunes n s → Z.of_nat n ≤ MaxInt64 →
  wf_store s ∧ count s = total (abs s) ∧ count s ≤ Z.of_nat n ∧
  maxPerSource s = max ∧ maxTimestampFudge s = 4000.
Proof.
  intros Hm. induction 1 as [|n s ev s' Hr IH Hv Hs]; intros Hn.
  { split_and!; try done; by apply NewStore_wf. }
  destruct IH as (Hwf&Hc&Hle&Hmax&Hfu); [lia|].
  destruct (exec_ok s ev Hwf Hc) as (s1&E&Hwf1&(Hm1&Hf1&_)&Hc1&Ht1&_); [lia|done|].
  rewrite E in Hs. injection Hs as ->. split_and!; congruence || lia || done.
Qed.

(** ** Fudging *)
Lemma wrap64_inj a i j :
  0 ≤ i < 2 ^ 64 → 0 ≤ j < 2 ^ 64 → wrap64 (a + i) = wrap64 (a + j) → i = j.
Proof.
  unfold wrap64. intros Hi Hj E.
  assert ((a + i - MinInt64) `mod` 2 ^ 64 = (a + j - MinInt64) `mod` 2 ^ 64) as E' by lia.
  pose proof (Z.div_mod (a + i - MinInt64) (2 ^ 64)).
  pose proof (Z.div_mod (a + j - MinInt64) (2 ^ 64)). lia.
Qed.

(** A source with fewer entries than the bound has a free key below it. *)
Lemma timestampFudge_free (l : list (Z * Envelope)) ts fudge :
  Z.of_nat (length l) < fudge < 2 ^ 64 →
  let i := timestampFudge (λ k, bool_decide (is_Some (alookup k l))) ts fudge in
  0 ≤ i < fudge ∧ alookup (wrap64 (ts + i)) l = None.
Proof.
  intros Hl. cbv zeta. unfold timestampFudge.
  destruct (findFudge_spec (λ k, bool_decide (is_Some (alookup k l))) ts 0 (Z.to_nat fudge))
    as (Hr&Htaken&Hfree). rewrite Z.add_0_l, Z2Nat.id in * by lia.
  set (r := findFudge _ _ _ _) in *.
  destruct (decide (r < fudge)) as [Hlt|Hge].
  - split; [lia|]. apply Hfree in Hlt. apply bool_decide_eq_false in Hlt.
    by apply eq_None_not_Some.
  - exfalso. set (ks := (λ i, wrap64 (ts + i)) <$> seqZ 0 fudge).
    assert (NoDup ks) as Hnd.
    { apply NoDup_fmap_2_strong; [|apply NoDup_seqZ].
      intros x y Hx%elem_of_seqZ Hy%elem_of_seqZ. apply wrap64_inj; lia. }
    assert (ks ⊆ keys l) as Hsub.
    { intros k (i&->&Hi%elem_of_seqZ)%list_elem_of_fmap.
      assert (0 ≤ i < r) as Hir by lia. apply Htaken in Hir.
      apply bool_decide_eq_true in Hir. destruct (decide (wrap64 (ts + i) ∈ keys l)); [done|].
      apply alookup_None in n. rewrite n in Hir. by destruct Hir. }
    pose proof (submseteq_length _ _ (NoDup_submseteq _ _ Hnd Hsub)) as Hlen.
    unfold ks, keys in Hlen. rewrite !length_fmap, length_seqZ in Hlen. lia.
Qed.

Lemma linsert_permutation k (v : Envelope) l :
  alookup k l = None → linsert k v l ≡ₚ (k, v) :: l.
Proof.
  induction l as [|[k' v'] l IH]; simpl; [done|].
  destruct (k =? k'); [done|]. intros E. destruct (k <? k'); [done|].
  rewrite IH by done. apply Permutation_swap.
Qed.

(** ** The contract of the store *)


(** C5: a truncation of a store in a good state removes the
    [min quantity count] oldest envelopes: each source loses a prefix of its
    entries, no removed envelope is newer than a kept one, and [count] and the
    [StoreSize] metric are the number of envelopes left. *)
Theorem truncate_removes_oldest quantity s order now :
  wf_store s → count s = total (abs s) → count s ≤ MaxInt64 →
  order ≡ₚ map_to_list (storageIndex s) → quantity (count s) ≠ 0 →
  ∃ s', truncate quantity s order now = Done (s', true) ∧ wf_store s' ∧
    oldest_removed (Z.to_nat (Z.min (quantity (count s)) (count s))) (abs s) (abs s') ∧
    count s' = total (abs s') ∧ storeSize (metrics s') = total (abs s') ∧
    (storageIndex s' = ∅ → oldestTimestamp s' = MaxInt64).
Proof.
  intros Hwf Hc Hmax Ho Hq.
  destruct (truncate_ok quantity s order now Hwf Ho Hc Hmax Hq)
    as (s'&?&?&?&?&?&?&?&?). exists s'. split_and!; congruence || done.
Qed.

(** C6: when a source may not hold more envelopes than the bound on the fudge,
    no insertion overwrites an entry: the source's entries become the previous
    ones, without the oldest if the source was full, and the new envelope at
    the first free key from its timestamp. *)
Theorem Put_never_overwrites s now e src :
  wf_store s → maxPerSource s ≤ maxTimestampFudge s < 2 ^ 64 →
  ∃ s' i, Put s now e src = Done s' ∧ wf_store s' ∧ 0 ≤ i < maxTimestampFudge s ∧
    entries (abs s') src ≡ₚ
      (wrap64 (Timestamp e + i), e) :: make_room (maxPerSource s) (entries (abs s) src) ∧
    (∀ j, 0 ≤ j < i → wrap64 (Timestamp e + j) ∈
      keys (make_room (maxPerSource s) (entries (abs s) src))) ∧
    (∀ src', src' ≠ src → entries (abs s') src' = entries (abs s) src').
Proof.
  intros Hwf Hf. destruct (Put_ok s now e src Hwf) as (s'&E&Hwf'&_&Ha&_).
  set (l := make_room (maxPerSource s) (entries (abs s) src)).
  destruct (timestampFudge_free l (Timestamp e) (maxTimestampFudge s)) as [Hi Hfree].
  { pose proof (length_make_room (maxPerSource s) (entries (abs s) src)
      (proj1 (wf_config _ _ Hwf)) (entries_max s src Hwf)). subst l. lia. }
  exists s', (timestampFudge (λ k, bool_decide (is_Some (alookup k l))) (Timestamp e)
    (maxTimestampFudge s)). split_and!; try done; try lia.
  - rewrite Ha. unfold entries, put_spec. rewrite lookup_insert_eq. simpl.
    unfold insert_spec. fold l. by apply linsert_permutation.
  - intros j Hj. destruct (findFudge_spec (λ k, bool_decide (is_Some (alookup k l)))
      (Timestamp e) 0 (Z.to_nat (maxTimestampFudge s))) as (_&Ht&_).
    apply Ht, bool_decide_eq_true in Hj. destruct (decide (wrap64 (Timestamp e + j) ∈ keys l))
      as [|Hn%alookup_None]; [done|]. rewrite Hn in Hj. by destruct Hj.
  - intros src' Hne. rewrite Ha. unfold entries, put_spec. by rewrite lookup_insert_ne.
Qed.

(** C14: a read returns a subsequence of the envelopes of the source that match
    the time range, the types and the name filter, in the order asked for, and
    changes nothing but the [Egress] counter. *)
Theorem Get_sound s src start end_ types nf limit desc :
  wf_store s → known_types types →
  ∃ res, Get s src start end_ types nf limit desc = Done (counted_egress res s, res) ∧
    res `sublist_of` in_order desc (answer nf types start end_ (entries (abs s) src)).
Proof. intros. by eapply Get_sublist. Qed.

(** C11: when the timestamps of the source follow its keys, a read misses
    nothing: it returns a prefix of the matching envelopes, all of them unless
    it reached the limit. *)
Theorem Get_complete s src start end_ types nf limit desc :
  wf_store s → known_types types → monotone (entries (abs s) src) →
  ∃ res, Get s src start end_ types nf limit desc = Done (counted_egress res s, res) ∧
    res `prefix_of` in_order desc (answer nf types start end_ (entries (abs s) src)) ∧
    (res = in_order desc (answer nf types start end_ (entries (abs s) src)) ∨
     limit ≤ Z.of_nat (length res)).
Proof. intros. by eapply Get_prefix. Qed.

(** C13: when every envelope of the source is stored under its own timestamp, a
    read returns exactly the first [limit] matching envelopes in the order
    asked for. *)
Theorem Get_exact s src start end_ types nf limit desc :
  wf_store s → known_types types → no_fudge (entries (abs s) src) → 1 ≤ limit →
  snd <$> Get s src start end_ types nf limit desc =
  Done (take (Z.to_nat limit)
    (in_order desc (answer nf types start end_ (entries (abs s) src)))).
Proof. intros. by erewrite Get_take. Qed.

(** C15: [Meta] reports exactly the sources in the index; a source's count is the
    number of its entries and its oldest timestamp their smallest key. *)
Theorem Meta_reports s :
  wf_store s →
  ∃ m, Meta s = Done m ∧ dom m = dom (abs s) ∧
    ∀ src info, m !! src = Some info →
      Count info = Z.of_nat (length (entries (abs s) src)) ∧
      head (keys (entries (abs s) src)) = Some (OldestTimestamp info).
Proof.
  intros Hwf. eexists. rewrite Meta_spec by done. split; [done|]. split.
  { unfold abs. by rewrite !dom_fmap_L. }
  intros src info. rewrite lookup_fmap_Some. intros (loc&<-&Hl).
  destruct (wf_index _ _ Hwf _ _ Hl) as (st&Hst&_&Hf).
  rewrite (entries_index _ _ _ _ Hl Hst). unfold meta_of, view, lookup_storage.
  rewrite Hst. simpl. split; [done|]. by apply Hf.
Qed.

(** What was put can be read: after [Put], a read of a range that holds the
    envelope's timestamp returns the envelope, unless it returned the limit. *)
Theorem read_your_write s now e src start end_ types nf limit desc e' :
  wf_store s → known_types types → start ≤ Timestamp e < end_ → accepts nf types e = Some e' →
  monotone (insert_spec (maxPerSource s) (maxTimestampFudge s) e (entries (abs s) src)) →
  ∃ s' res, Put s now e src = Done s' ∧
    Get s' src start end_ types nf limit desc = Done (counted_egress res s', res) ∧
    (e' ∈ res ∨ limit ≤ Z.of_nat (length res)).
Proof.
  intros Hwf Hk Ht Hacc Hm. destruct (Put_ok s now e src Hwf) as (s'&E&Hwf'&_&Ha&_).
  assert (entries (abs s') src =
    insert_spec (maxPerSource s) (maxTimestampFudge s) e (entries (abs s) src)) as He.
  { rewrite Ha. unfold put_spec. unfold entries at 1. by rewrite lookup_insert_eq. }
  destruct (Get_prefix s' src start end_ types nf limit desc Hwf' Hk) as (res&Eg&_&Hres).
  { by rewrite He. }
  exists s', res. split_and!; [done..|]. destruct Hres as [->|]; [left|by right].
  assert (e' ∈ answer nf types start end_ (entries (abs s') src)) as Hin.
  { unfold answer. apply list_elem_of_omap. exists e. split; [|done].
    apply list_elem_of_filter. split; [done|]. apply list_elem_of_fmap.
    rewrite He. unfold insert_spec. eexists (_, e). split; [done|].
    apply elem_of_linsert; [|by left]. pose proof (wf_store_sorted s Hwf src) as Hs.
    unfold make_room. destruct (_ <=? _); [|done].
    destruct (entries (abs s) src) as [|[]]; [done|]. by apply ksorted_cons in Hs as [_ ?]. }
  destruct desc; simpl; [by apply elem_of_reverse_2|done].
Qed.

(** ** Concrete instances *)
Definition demo_log (ts : Z) : Envelope :=
  mkEnvelope ts "a" "0" ∅ ∅ (Some (Envelope_Log (mkLog "m" Log_OUT))).

Definition ran (o : outcome Store) : Store :=
  match o with Done s => s | Panic => NewStore 1 1 end.

(** Two sources; ["a"] is full and one of its envelopes is fudged. *)
Definition demo_events : list event :=
  [EPut 10 (demo_log 5) "a"; EPut 11 (demo_log 7) "b"; EPut 12 (demo_log 5) "a";
   EPut 13 (demo_log 9) "a"].
Definition demo_store : Store :=
  foldl (λ s ev, ran (exec s ev)) (NewStore 2 1) demo_events.

Lemma reach_ran max prunes n s ev :
  reach max prunes n s → valid_event s ev → (if exec s ev then True else False) →
  reach max prunes (S n) (ran (exec s ev)).
Proof. intros Hr Hv. destruct (exec s ev) eqn:E; [|done]. intros _. by eapply reach_step. Qed.

Lemma demo_reach : reach 2 1 4 demo_store.
Proof.
  unfold demo_store, demo_events, foldl.
  do 4 (apply reach_ran; [|by vm_compute|by vm_compute]). apply reach_new.
Qed.

Lemma demo_wf : wf_store demo_store.
Proof. apply (reach_inv 2 1 4); [unfold MaxInt64; lia|apply demo_reach|unfold MaxInt64; lia]. Qed.


Lemma truncate_removes_oldest_witness :
  ∃ s', truncate (λ n, n - 1) demo_store [("b", 1%nat); ("a", 0%nat)] 20 = Done (s', true) ∧
    wf_store s' ∧ oldest_removed (Z.to_nat 2) (abs demo_store) (abs s') ∧
    count s' = total (abs s') ∧ storeSize (metrics s') = total (abs s') ∧
    (storageIndex s' = ∅ → oldestTimestamp s' = MaxInt64).
Proof.
  apply (truncate_removes_oldest (λ n, n - 1) demo_store [("b", 1%nat); ("a", 0%nat)] 20);
    [apply demo_wf|by vm_compute|by vm_compute| |by vm_compute].
  change (map_to_list (storageIndex demo_store)) with
    (map_to_list (storageIndex demo_store)). vm_compute. constructor.
Defined.

Lemma Put_never_overwrites_witness :
  ∃ s' i, Put demo_store 14 (demo_log 5) "a" = Done s' ∧ wf_store s' ∧
    0 ≤ i < maxTimestampFudge demo_store ∧
    entries (abs s') "a" ≡ₚ (wrap64 (5 + i), demo_log 5) ::
      make_room (maxPerSource demo_store) (entries (abs demo_store) "a") ∧
    (∀ j, 0 ≤ j < i → wrap64 (5 + j) ∈
      keys (make_room (maxPerSource demo_store) (entries (abs demo_store) "a"))) ∧
    (∀ src', src' ≠ "a"%string → entries (abs s') src' = entries (abs demo_store) src').
Proof.
  apply (Put_never_overwrites demo_store 14 (demo_log 5) "a");
    [apply demo_wf|split; by vm_compute].
Defined.

Lemma Get_sound_witness :
  ∃ res, Get demo_store "a" 0 10 None None 1 true = Done (counted_egress res demo_store, res) ∧
    res `sublist_of` in_order true (answer None None 0 10 (entries (abs demo_store) "a")).
Proof. apply (Get_sound demo_store "a" 0 10 None None 1 true); [apply demo_wf|done]. Defined.

Lemma Get_complete_witness :
  ∃ res, Get demo_store "a" 0 10 (Some [EnvelopeType_LOG]) None 5 false =
    Done (counted_egress res demo_store, res) ∧
    res `prefix_of` in_order false
      (answer None (Some [EnvelopeType_LOG]) 0 10 (entries (abs demo_store) "a")) ∧
    (res = in_order false
      (answer None (Some [EnvelopeType_LOG]) 0 10 (entries (abs demo_store) "a")) ∨
     5 ≤ Z.of_nat (length res)).
Proof.
  apply (Get_complete demo_store "a" 0 10 (Some [EnvelopeType_LOG]) None 5 false);
    [apply demo_wf|repeat constructor; done|].
  vm_compute. repeat constructor; intros [=].
Defined.

Lemma Get_exact_witness :
  snd <$> Get demo_store "b" 7 8 None None 1 true =
  Done (take 1 (in_order true (answer None None 7 8 (entries (abs demo_store) "b")))).
Proof.
  apply (Get_exact demo_store "b" 7 8 None None 1 true);
    [apply demo_wf|done|vm_compute; repeat constructor|lia].
Defined.

Lemma Meta_reports_witness :
  ∃ m, Meta demo_store = Done m ∧ dom m = dom (abs demo_store) ∧
    ∀ src info, m !! src = Some info →
      Count info = Z.of_nat (length (entries (abs demo_store) src)) ∧
      head (keys (entries (abs demo_store) src)) = Some (OldestTimestamp info).
Proof. apply (Meta_reports demo_store), demo_wf. Defined.

Lemma read_your_write_witness :
  ∃ s' res, Put demo_store 20 (demo_log 8) "b" = Done s' ∧
    Get s' "b" 8 9 None None 10 false = Done (counted_egress res s', res) ∧
    (demo_log 8 ∈ res ∨ 10 ≤ Z.of_nat (length res)).
Proof.
  apply (read_your_write demo_store 20 (demo_log 8) "b" 8 9 None None 10 false);
    [apply demo_wf|done|simpl; lia|done|].
  vm_compute. repeat constructor; intros [=].
Defined.

(** ** Where the code departs from its intent *)

(** An insertion sequence for one source, and what a read of it returns. *)
Definition puts (s : Store) (ts : list Z) : Store :=
  foldl (λ s t, ran (Put s 0 (demo_log t) "a")) s ts.
Definition read_ts (s : Store) (start end_ limit : Z) (desc : bool) : outcome (list Z) :=
  r ← Get s "a" start end_ None None limit desc; Done (map Timestamp (snd r)).

(** A pruned subtree can hold an envelope in the range: the envelope of
    timestamp 6 is stored, and a read of [6, 100) misses it, since the root
    is an envelope of timestamp 5 that was fudged to the key 7. *)
Fact Get_misses_an_envelope :
  let s := puts (NewStore 4 3) [5; 6; 8; 5; 9] in
  map Timestamp (answer None None 6 100 (entries (abs s) "a")) = [6; 8; 9] ∧
  read_ts s 6 100 100 false = Done [8; 9].
Proof. by vm_compute. Qed.

(** A limit can break up a group of envelopes with one timestamp: the node that
    opens the group is a leaf, and its successor is not its child. *)
Fact limit_splits_a_group :
  let s := puts (NewStore 4 3) [5; 5; 5] in
  read_ts s 0 100 1 false = Done [5] ∧ read_ts s 0 100 2 false = Done [5; 5; 5].
Proof. by vm_compute. Qed.

(** After a truncation [oldestTimestamp] is the last entry of the heap's slice,
    not its smallest: here it is 30 and an envelope of timestamp 20 remains. *)
Fact oldestTimestamp_is_not_the_oldest :
  let put src t s := ran (Put s 0 (demo_log t) src) in
  let s := put "c" 30 (put "b" 20 (put "a" 10 (NewStore 5 3))) in
  let s' := ran (fst <$> truncate (λ _, 1) s [("a", 0%nat); ("b", 1%nat); ("c", 2%nat)] 50) in
  oldestTimestamp s' = 30 ∧ keys (entries (abs s') "b") = [20].
Proof. by vm_compute. Qed.

(** A read for a type number that is not in the enumeration panics, as soon as it
    meets an envelope. *)
Fact unknown_type_panics :
  Get demo_store "b" 0 100 (Some [EnvelopeType_other 9]) None 10 false = Panic.
Proof. by vm_compute. Qed.
