(* ===== verification/StoreConcurrent.v ===== *)
(** * The store under concurrency

    Models the goroutines of internal/cache/store/store.go that share a store:
    any number of [Put]s and [Meta]s, reads, and the one truncation loop.  A step
    is one critical section or one atomic access of the code; between two steps
    of a goroutine any other may run.

    - [Put] looks its storage up ([getOrInitializeStorage], under the mutex of
      the index) and later inserts ([insertOrSwap], under the lock of the storage);
      in between it holds a pointer.
    - [truncate] reads the count, visits the storages of a [Range], and then
      removes one envelope per step.  Its heap is local to it.
    - [Meta] visits the storages of a [Range] and then loads every source again.

    A [Range] visits each source at most once, and all that are in the index from
    its start to its end; a source that comes or goes may be visited or not.  The
    [Range] of [truncate] runs while no source is deleted, since only [truncate]
    deletes; that of [Meta] is let end after any visits, of which its real ends are
    some.  [perform] is [None] where the goroutine cannot take the
    step and a panic where the code panics, which ends the process.  The counter
    [oldestTimestamp], that only feeds a gauge, is updated within the section that
    computes it. *)

From S2P Require Import Prelude AvlTree Envelope ExpirationHeap Store StoreInv StoreTruncate StoreGet StoreRefine.

(** ** The goroutines *)

(** The truncation: between two runs, visiting the sources of its snapshot with
    [n] envelopes to remove, or with [n] still to remove. *)
Inductive truncation :=
| Idle
| Building (n : Z) (snapshot : list string) (h : list storageExpiration)
| Removing (n : nat) (h : list storageExpiration).

(** A [Meta]: in its [Range], or filling in its report. *)
Inductive meta_call :=
| Ranging (report : list (string * MetaInfo))
| Filling (todo : list string) (report : list (string * MetaInfo)).

Record system := mkSystem {
  store : Store;
  puts : list (nat * Envelope);
  phase : truncation;
  metas : list meta_call;
}.

Definition set_store (s : Store) (c : system) : system := mkSystem s (puts c) (phase c) (metas c).
Definition set_puts (l : list (nat * Envelope)) (c : system) : system :=
  mkSystem (store c) l (phase c) (metas c).
Definition set_phase (p : truncation) (c : system) : system := mkSystem (store c) (puts c) p (metas c).
Definition set_metas (l : list meta_call) (c : system) : system :=
  mkSystem (store c) (puts c) (phase c) l.

Definition heap_of (p : truncation) : list storageExpiration :=
  match p with Idle => [] | Building _ _ h | Removing _ h => h end.

Inductive action :=
| PutLookup (e : Envelope) (src : string)
| PutInsert (i : nat) (now : Z)
| Truncate (quantity : Z → Z)
| Visit (src : string)
| Built
| Remove1
| Finish (now : Z)
| MetaCall
| MetaVisit (i : nat) (src : string)
| MetaRanged (i : nat)
| MetaFill (i : nat) (src : string)
| Read (src : string) (start end_ : Z) (types : option (list EnvelopeType))
    (nameFilter : option (string → bool)) (limit : Z) (descending : bool).

(** The sources of a snapshot that a [Range] still owes a visit. *)
Definition owed (s : Store) (visited snapshot : list string) : list string :=
  filter (λ src, is_Some (storageIndex s !! src) ∧ src ∉ visited) snapshot.

Definition keys_of (s : Store) : list string := (map_to_list (storageIndex s)).*1.

(** The first part of [truncate]. *)
Definition start_truncate (quantity : Z → Z) (c : system) : system :=
  let s := store c in
  let n := quantity (count s) in
  if n =? 0 then set_store (set_consecutive 0 s) c
  else set_phase (Building (if count s <? n then count s else n) (keys_of s) []) c.

(** One call of the function given to [Range] in [BuildExpirationHeap]. *)
Definition visit (s : Store) (src : string) (loc : nat) (h : list storageExpiration) :
    outcome (list storageExpiration) :=
  st ← must (mem s !! loc);
  oldest ← left_key (storage_Tree st);
  heap_Push h (mkExpiration oldest src loc).

Definition perform (c : system) (a : action) : option (outcome system) :=
  let s := store c in
  match a with
  | PutLookup e src =>
      let '(s, loc, _) := getOrInitializeStorage (upd_metrics (add_ingress 1) s) src in
      Some (Done (set_store s (set_puts (puts c ++ [(loc, e)]) c)))
  | PutInsert i now =>
      '(loc, e) ← puts c !! i;
      Some (s ← insertOrSwap s loc e now; Done (set_store s (set_puts (base.delete i (puts c)) c)))
  | Truncate quantity =>
      match phase c with Idle => Some (Done (start_truncate quantity c)) | _ => None end
  | Visit src =>
      match phase c with
      | Building n snap h =>
          if decide (src ∈ sourceId <$> h) then None
          else
            loc ← storageIndex s !! src;
            Some (h ← visit s src loc h; Done (set_phase (Building n snap h) c))
      | _ => None
      end
  | Built =>
      match phase c with
      | Building n snap h =>
          if decide (owed s (sourceId <$> h) snap = []) then
            Some (Done (set_phase (Removing (Z.to_nat n) h) c))
          else None
      | _ => None
      end
  | Remove1 =>
      match phase c with
      | Removing (S n) h =>
          Some ('(s, h) ← truncate_step s h; Done (set_store s (set_phase (Removing n h) c)))
      | _ => None
      end
  | Finish now =>
      match phase c with
      | Removing O h =>
          Some (s ← truncate_finish s h now;
                Done (set_store (upd_metrics (set_storeSize (count s)) s) (set_phase Idle c)))
      | _ => None
      end
  | MetaCall => Some (Done (set_metas (metas c ++ [Ranging []]) c))
  | MetaVisit i src =>
      m ← metas c !! i;
      match m with
      | Ranging report =>
          if decide (src ∈ report.*1) then None
          else
            loc ← storageIndex s !! src;
            Some (st ← must (mem s !! loc);
                  Done (set_metas (<[i := Ranging ((src, Meta_entry (Count (meta st)) st) :: report)]>
                                     (metas c)) c))
      | Filling _ _ => None
      end
  | MetaRanged i =>
      m ← metas c !! i;
      match m with
      | Ranging report => Some (Done (set_metas (<[i := Filling report.*1 []]> (metas c)) c))
      | Filling _ _ => None
      end
  | MetaFill i src =>
      m ← metas c !! i;
      match m with
      | Filling todo report =>
          if decide (src ∈ todo) then
            Some (loc ← must (storageIndex s !! src);
                  st ← must (mem s !! loc);
                  Done (set_metas (<[i := Filling (filter (λ x, x ≠ src) todo)
                                        ((src, Meta_entry (size (storage_Tree st)) st) :: report)]>
                                     (metas c)) c))
          else None
      | Ranging _ => None
      end
  | Read src start end_ types nf limit desc =>
      Some ('(s, _) ← Get s src start end_ types nf limit desc; Done (set_store s c))
  end.

(** ** Runs *)
Definition initial (max prunes : Z) : system := mkSystem (NewStore max prunes) [] Idle [].

(** An insertion finds a free key within the bound on the fudge, and a read asks
    for known types: the other behaviours are those of the sequential store. *)
Definition valid_action (c : system) (a : action) : Prop :=
  match a with
  | PutInsert i _ =>
      ∀ loc e, puts c !! i = Some (loc, e) →
        fresh_put (maxPerSource (store c)) (maxTimestampFudge (store c)) e (view (store c) loc)
  | Read _ _ _ types _ _ _ => known_types types
  | _ => True
  end.

(** The systems reached in [n] steps without a panic. *)
Inductive run (max prunes : Z) : nat → system → Prop :=
| run_initial : run max prunes 0 (initial max prunes)
| run_step n c a c' :
    run max prunes n c → valid_action c a → perform c a = Some (Done c') → run max prunes (S n) c'.

(** ** Counting *)

(** The envelopes of a storage, and of all that a heap points to. *)
Definition view_len (s : Store) (loc : nat) : Z := Z.of_nat (length (view s loc)).
Definition heap_len (s : Store) (h : list storageExpiration) : Z := sum (view_len s ∘ tree <$> h).

(** The envelopes of the storages with a property. *)
Definition stored (P : nat * storage → Prop) `{∀ p, Decision (P p)} (s : Store) : Z :=
  sum ((λ p, Z.of_nat (length (contents (storage_Tree p.2)))) <$> filter P (map_to_list (mem s))).

(** A storage is attached while the index points to it.  The others hold envelopes
    that no reader finds any more. *)
Definition attached (s : Store) (p : nat * storage) : Prop :=
  storageIndex s !! storage_sourceId p.2 = Some p.1.
#[export] Instance attached_dec s p : Decision (attached s p).
Proof. unfold attached. apply _. Defined.

Definition all_stored (s : Store) : Z := stored (λ _, True) s.
Definition stranded (s : Store) : Z := stored (λ p, ¬ attached s p) s.

(** Every storage is well formed and the index knows storages by their source. *)
Record sound (s : Store) : Prop := {
  so_wf : wf_store_gen (λ _, False) s;
  so_mem : ∀ loc st, mem s !! loc = Some st →
    wf_tree (storage_Tree st) ∧ Z.of_nat (length (contents (storage_Tree st))) ≤ maxPerSource s;
}.

Lemma total_sum (a : astore) : total a = sum ((λ p, Z.of_nat (length p.2)) <$> map_to_list a).
Proof.
  induction a as [|src l a Hl IH] using map_ind; [done|].
  rewrite total_insert. unfold entries. rewrite Hl, map_to_list_insert, fmap_cons, sum_cons by done.
  simpl. lia.
Qed.

(** The attached storages are the values of the index. *)
Lemma attached_index s : sound s →
  (λ p, (storage_sourceId p.2, p.1)) <$> filter (attached s) (map_to_list (mem s)) ≡ₚ
  map_to_list (storageIndex s).
Proof.
  intros Hs. apply NoDup_Permutation.
  - apply (NoDup_fmap_1 snd). rewrite <- list_fmap_compose.
    apply (sublist_NoDup _ (map_to_list (mem s)).*1); [apply NoDup_fst_map_to_list|].
    apply (fmap_sublist (A := nat * storage) fst), sublist_filter.
  - apply NoDup_map_to_list.
  - intros [src loc]. rewrite elem_of_map_to_list, list_elem_of_fmap. split.
    + intros ([loc' st]&[= -> ->]&[Ha Hm]%list_elem_of_filter). done.
    + intros Hl. destruct (wf_index _ _ (so_wf _ Hs) _ _ Hl) as (st&Hst&[<- _ _]&_).
      exists (loc, st). split; [done|]. apply list_elem_of_filter.
      split; [done|]. by apply elem_of_map_to_list.
Qed.

Lemma stored_attached s : sound s → stored (attached s) s = total (abs s).
Proof.
  intros Hs. rewrite total_sum. unfold abs. rewrite map_to_list_fmap, <- list_fmap_compose.
  rewrite <- (attached_index s Hs), <- list_fmap_compose.
  unfold stored. f_equal. apply list_fmap_ext. intros i [loc st] Hi. simpl.
  apply list_elem_of_lookup_2, list_elem_of_filter in Hi as [_ Hi%elem_of_map_to_list].
  unfold view. by rewrite Hi.
Qed.

(** Every envelope of a storage is in the index or stranded. *)
Lemma all_stored_split s : sound s → all_stored s = total (abs s) + stranded s.
Proof.
  intros Hs. rewrite <- stored_attached by done. unfold all_stored, stranded, stored.
  rewrite (sum_filter_split (attached s) _ (filter (λ _, True) _)), (filter_all (λ _, True)); [done|].
  by intros.
Qed.

Lemma stored_nonneg P `{∀ p, Decision (P p)} s : 0 ≤ stored P s.
Proof. apply sum_nonneg, Forall_fmap, Forall_forall. intros. simpl. lia. Qed.

(** A stranded envelope is in a storage the index does not point to. *)
Lemma stranded_pos s : 0 < stranded s →
  ∃ loc st, mem s !! loc = Some st ∧ storageIndex s !! storage_sourceId st ≠ Some loc ∧
    contents (storage_Tree st) ≠ [].
Proof.
  unfold stranded, stored. intros Hpos.
  destruct (decide (Exists (λ p, contents (storage_Tree p.2) ≠ [])
    (filter (λ p, ¬ attached s p) (map_to_list (mem s))))) as [He|He].
  - apply Exists_exists in He as ([loc st]&[Ha Hm%elem_of_map_to_list]%list_elem_of_filter&Hc). eauto.
  - exfalso. apply not_Exists_Forall in He; [|by apply _].
    assert (∀ l, Forall (not ∘ (λ p : nat * storage, contents (storage_Tree p.2) ≠ [])) l →
      sum ((λ p, Z.of_nat (length (contents (storage_Tree p.2)))) <$> l) = 0) as H0.
    { induction 1 as [|p l Hp _ IH]; [done|]. rewrite fmap_cons, sum_cons, IH.
      apply dec_stable in Hp. by rewrite Hp. }
    rewrite H0 in Hpos by done. lia.
Qed.

(** Updating or adding one storage. *)
Lemma all_stored_insert s s' loc st : mem s' = <[loc := st]> (mem s) →
  all_stored s' = all_stored s - view_len s loc + Z.of_nat (length (contents (storage_Tree st))).
Proof.
  intros Hm. unfold all_stored, stored. rewrite !(filter_all (λ _, True)) by by intros.
  rewrite Hm. unfold view_len, view. destruct (mem s !! loc) as [st0|] eqn:E.
  - assert (map_to_list (mem s) ≡ₚ (loc, st0) :: map_to_list (delete loc (mem s))) as ->
      by (symmetry; by apply map_to_list_delete).
    rewrite <- (insert_delete_eq (mem s)), map_to_list_insert, !fmap_cons, !sum_cons by apply lookup_delete_eq.
    simpl. lia.
  - rewrite map_to_list_insert, fmap_cons, sum_cons by done. simpl. lia.
Qed.

(** ** What a critical section does to the storages *)
Lemma view_update s s' loc st : mem s' = <[loc := st]> (mem s) →
  ∀ loc', view s' loc' = if decide (loc' = loc) then contents (storage_Tree st) else view s loc'.
Proof.
  intros Hm loc'. unfold view. rewrite Hm. case_decide as E; [subst; by rewrite lookup_insert_eq|].
  by rewrite lookup_insert_ne.
Qed.

Lemma sound_update s s' loc st st' :
  sound s → mem s !! loc = Some st → storageIndex s' ⊆ storageIndex s → mem s' = <[loc := st']> (mem s) →
  nextLoc s' = nextLoc s → same_config s s' → storage_sourceId st' = storage_sourceId st →
  wf_tree (storage_Tree st') → Z.of_nat (length (contents (storage_Tree st'))) ≤ maxPerSource s →
  sound s'.
Proof.
  intros [Hwf Hmem] Hst Hi Hm Hn (Hc&_) Hid Ht Hl. split.
  - split; rewrite ?Hc, ?Hn, ?Hm; [| |apply Hwf].
    + intros src loc' Hl'. apply (lookup_weaken _ _ _ _ Hl') in Hi as Hl0.
      destruct (wf_index _ _ Hwf _ _ Hl0) as (st0&Hst0&Hw&_). destruct (decide (loc' = loc)) as [->|].
      * exists st'. rewrite lookup_insert_eq. split_and!; [done| |done]. simplify_eq.
        destruct Hw as [Hid0 _ _]. split; congruence.
      * exists st0. by rewrite lookup_insert_ne.
    + intros loc' [<-|[_ H]]%lookup_insert_is_Some; apply (wf_alloc _ _ Hwf); eauto.
  - intros loc' st0. rewrite Hm, Hc, lookup_insert_Some. intros [[<- <-]|[_ H]]; [done|by apply (Hmem loc')].
Qed.

(** [getOrInitializeStorage] adds at most an empty storage. *)
Record looks_up (s s' : Store) (src : string) (loc : nat) : Prop := {
  lu_sound : sound s';
  lu_metrics : metrics s' = metrics s;
  lu_count : count s' = count s;
  lu_index : storageIndex s ⊆ storageIndex s';
  lu_new : ∀ src' loc', storageIndex s' !! src' = Some loc' → storageIndex s !! src' = Some loc' ∨ loc' = loc;
  lu_dom : dom (mem s) ⊆ dom (mem s');
  lu_alloc : is_Some (mem s' !! loc);
  lu_view : ∀ loc', view s' loc' = view s loc';
  lu_all : all_stored s' = all_stored s;
  lu_total : total (abs s') = total (abs s);
}.

Definition with_new (s : Store) (src : string) : Store :=
  upd_index (insert src (nextLoc s)) (alloc (new_storage src) s).2.

Lemma new_sound s src : sound s → sound (with_new s src).
Proof.
  intros Hs. pose proof (wf_config _ _ (so_wf _ Hs)) as Hmax.
  assert (wf_tree (storage_Tree (new_storage src)) ∧
    Z.of_nat (length (contents (storage_Tree (new_storage src)))) ≤ maxPerSource s) as [Ht Hl]
    by (split; [apply NewTree_wf|simpl; lia]).
  split; [split; [| |done]|]; cbn [with_new upd_index alloc storageIndex mem nextLoc maxPerSource snd].
  - intros src' loc'. rewrite lookup_insert_Some. intros [[<- <-]|[Hne Hi]].
    { exists (new_storage src). by rewrite lookup_insert_eq. }
    destruct (wf_index _ _ (so_wf _ Hs) _ _ Hi) as (st&Hst&Hw&_). exists st.
    rewrite lookup_insert_ne; [done|]. intros <-. by eapply nextLoc_fresh, Hst; apply (so_wf _ Hs).
  - intros loc'. intros [<-|[_ H]]%lookup_insert_is_Some; [lia|].
    apply (wf_alloc _ _ (so_wf _ Hs)) in H. lia.
  - intros loc' st. rewrite lookup_insert_Some. intros [[<- <-]|[_ H]]; [done|by apply (so_mem _ Hs loc')].
Qed.

Lemma lookup_section s src s' loc b :
  sound s → getOrInitializeStorage s src = (s', loc, b) → looks_up s s' src loc.
Proof.
  intros Hs. unfold getOrInitializeStorage. destruct (storageIndex s !! src) as [loc0|] eqn:E.
  { intros [= <- <- _]. destruct (wf_index _ _ (so_wf _ Hs) _ _ E) as (st&Hst&_).
    split; try done; naive_solver. }
  intros [= <- <- _]. change (upd_index _ _) with (with_new s src).
  assert (mem s !! nextLoc s = None) as Hn.
  { destruct (mem s !! nextLoc s) as [st|] eqn:En; [|done]. by destruct (nextLoc_fresh _ _ _ (so_wf _ Hs) En). }
  assert (mem (with_new s src) = <[nextLoc s := new_storage src]> (mem s)) as Hm by done.
  assert (∀ loc', view (with_new s src) loc' = view s loc') as Hv.
  { intros loc'. rewrite (view_update _ _ _ _ Hm). case_decide as El; [|done]. subst.
    unfold view. by rewrite Hn. }
  split; try done.
  - by apply new_sound.
  - by apply insert_subseteq.
  - intros src' loc'. simpl. rewrite lookup_insert_Some. intros [[<- <-]|[_ H]]; [by right|by left].
  - rewrite Hm, dom_insert. set_solver.
  - rewrite Hm, lookup_insert_eq. by eexists.
  - rewrite (all_stored_insert _ _ _ _ Hm). unfold view_len, view. rewrite Hn. simpl. lia.
  - assert (abs (with_new s src) = <[src := []]> (abs s)) as ->.
    { apply map_eq. intros src'. rewrite lookup_abs. cbn [with_new upd_index storageIndex alloc snd].
      rewrite !lookup_insert. case_decide as Es.
      - subst. simpl. rewrite Hv. unfold view. by rewrite Hn.
      - rewrite lookup_abs. destruct (storageIndex s !! src'); [|done]. simpl. by rewrite Hv. }
    rewrite total_insert. unfold entries. rewrite lookup_abs, E. simpl. lia.
Qed.

Lemma total_abs_insert s s' src loc :
  sound s → storageIndex s !! src = Some loc → storageIndex s' = storageIndex s →
  (∀ loc', loc' ≠ loc → view s' loc' = view s loc') →
  total (abs s') = total (abs s) - view_len s loc + view_len s' loc.
Proof.
  intros Hs Hl Hi Hv. assert (abs s' = <[src := view s' loc]> (abs s)) as ->.
  { apply map_eq. intros src'. rewrite lookup_insert, !lookup_abs, Hi. case_decide as E.
    - subst. by rewrite Hl.
    - destruct (storageIndex s !! src') as [loc'|] eqn:El; [|done]. simpl. rewrite Hv; [done|].
      intros ->. by eapply E, wf_index_inj, El; [apply (so_wf _ Hs)|]. }
  rewrite total_insert. unfold entries. rewrite lookup_abs, Hl. done.
Qed.

(** [insertOrSwap] counts an envelope as added to the store or, when the storage is
    full, as expired. *)
Lemma insertOrSwap_metrics s loc e now s' st :
  mem s !! loc = Some st → insertOrSwap s loc e now = Done s' →
  ingress (metrics s') = ingress (metrics s) ∧
  expired (metrics s') = expired (metrics s) + (if maxPerSource s <=? size (storage_Tree st) then 1 else 0).
Proof.
  intros Hst. unfold insertOrSwap, evict_or_count. rewrite Hst. cbn [must mbind outcome_bind].
  set (full := maxPerSource s <=? _). intros H.
  apply bind_Done in H as ([s1 st1]&E&H).
  assert (ingress (metrics s1) = ingress (metrics s) ∧
    expired (metrics s1) = expired (metrics s) + if full then 1 else 0) as [<- <-].
  { destruct full; [apply bind_Done in E as (?&_&E); apply bind_Done in E as (?&_&E)|];
      injection E as <- _; split; simpl; lia. }
  apply bind_Done in H as (t&_&H). apply bind_Done in H as (k&_&H). injection H as <-.
  by destruct (k <? oldestTimestamp s1).
Qed.

(** What the insertion of a [Put] does: it adds [d] envelopes and expires [1 - d]. *)
Record inserts (s s' : Store) (loc : nat) (d : Z) : Prop := {
  is_sound : sound s';
  is_index : storageIndex s' = storageIndex s;
  is_config : same_config s s';
  is_dom : dom (mem s') = dom (mem s);
  is_view : view s' loc ≠ [];
  is_others : ∀ loc', loc' ≠ loc → view s' loc' = view s loc';
  is_len : view_len s' loc = view_len s loc + d;
  is_d : 0 ≤ d ≤ 1;
  is_all : all_stored s' = all_stored s + d;
  is_count : count s' = if d =? 0 then count s else wrap64 (count s + 1);
  is_metrics : ingress (metrics s') = ingress (metrics s) ∧ expired (metrics s') = expired (metrics s) + (1 - d);
}.

Lemma length_insert_fresh max fudge e l :
  1 ≤ max → Z.of_nat (length l) ≤ max → fresh_put max fudge e l →
  Z.of_nat (length (insert_spec max fudge e l)) =
  Z.of_nat (length l) + (if max <=? Z.of_nat (length l) then 0 else 1).
Proof.
  unfold fresh_put. intros Hm Hl Hf. unfold insert_spec. rewrite length_linsert_fresh by done.
  unfold make_room. destruct (Z.leb_spec max (Z.of_nat (length l))); [destruct l; simpl in *|]; lia.
Qed.

Lemma insert_section s loc e now :
  sound s → is_Some (mem s !! loc) → fresh_put (maxPerSource s) (maxTimestampFudge s) e (view s loc) →
  ∃ s' d, insertOrSwap s loc e now = Done s' ∧ inserts s s' loc d.
Proof.
  intros Hs [st Hst] Hf. destruct (so_mem _ Hs _ _ Hst) as [Ht Hl].
  pose proof (wf_config _ _ (so_wf _ Hs)) as Hmax. unfold view in Hf. rewrite Hst in Hf.
  pose proof (length_insert_fresh _ _ _ _ (proj1 Hmax) Hl Hf) as Hlen.
  destruct (insertOrSwap_spec s loc e now st Hst Ht Hmax Hl) as (s'&st'&E&Hins).
  destruct (insertOrSwap_metrics _ _ _ _ _ _ Hst E) as [Hing Hexp]. rewrite (wf_size _ Ht) in Hexp.
  destruct Hins as [Hi Hm Hn Hc Hid Ht' Hct _ Hcnt _].
  exists s', (if maxPerSource s <=? Z.of_nat (length (contents (storage_Tree st))) then 0 else 1).
  pose proof (view_update _ _ _ _ Hm) as Hv. rewrite <- Hct in Hlen.
  assert (view_len s loc = Z.of_nat (length (contents (storage_Tree st)))) as Hvl
    by (unfold view_len, view; by rewrite Hst).
  assert (view_len s' loc = Z.of_nat (length (contents (storage_Tree st')))) as Hvl'
    by (unfold view_len; by rewrite Hv, decide_True).
  split; [done|]. split; try done.
  - eapply (sound_update s s' loc st st'); try done; [by rewrite Hi|].
    rewrite Hct. apply length_insert_spec; [lia|done].
  - rewrite Hm. apply dom_insert_lookup_L. by eexists.
  - rewrite Hv, decide_True, Hct by done. apply linsert_not_nil.
  - intros loc' Hne. by rewrite Hv, decide_False.
  - lia.
  - case_match; lia.
  - rewrite (all_stored_insert _ _ _ _ Hm). lia.
  - rewrite Hcnt. by case_match.
  - split; [done|]. rewrite Hexp. case_match; lia.
Qed.

(** What one removal of the truncation does to an attached storage. *)
Record removes (s s' : Store) (src : string) (loc : nat) (l : list (Z * Envelope)) : Prop := {
  rm_sound : sound s';
  rm_index : storageIndex s' = if decide (l = []) then delete src (storageIndex s) else storageIndex s;
  rm_dom : dom (mem s') = dom (mem s);
  rm_view : view s' loc = l;
  rm_others : ∀ loc', loc' ≠ loc → view s' loc' = view s loc';
  rm_all : all_stored s' = all_stored s - 1;
  rm_stranded : stranded s' = stranded s;
  rm_count : count s' = wrap64 (count s - 1);
  rm_metrics : metrics s' = add_expired 1 (metrics s);
}.

Lemma remove_section s src loc k e l :
  sound s → storageIndex s !! src = Some loc → view s loc = (k, e) :: l →
  ∃ s', removeOldestEnvelope s loc src = Done (s', next_oldest l) ∧ removes s s' src loc l.
Proof.
  intros Hs Hl Hv. destruct (wf_index _ _ (so_wf _ Hs) _ _ Hl) as (st&Hst&_).
  assert (entries (abs s) src = (k, e) :: l) as He by (unfold entries; by rewrite lookup_abs, Hl).
  destruct (removeOldest_ok _ s src loc k e l (so_wf _ Hs) Hl He)
    as (s'&E&Hwf&Hc&Habs&Hcnt&Hidx&Hv'&Hvo&Hmet&st'&Hm&Hid&Ht).
  exists s'. split; [done|].
  assert (view s' loc = contents (storage_Tree st')) as Hv2
    by (unfold view; by rewrite Hm, lookup_insert_eq).
  assert (all_stored s' = all_stored s - 1) as Hall.
  { rewrite (all_stored_insert _ _ _ _ Hm), <- Hv2, Hv'. unfold view_len. rewrite Hv. simpl. lia. }
  assert (sound s') as Hs'.
  { split; [done|]. destruct Hc as [Hc _]. intros loc' st0. rewrite Hm, Hc, lookup_insert_Some.
    intros [[<- <-]|[_ H]]; [|by apply (so_mem _ Hs loc')]. split; [done|]. rewrite <- Hv2, Hv'.
    destruct (so_mem _ Hs _ _ Hst) as [_ Hmax]. unfold view in Hv. rewrite Hst in Hv.
    rewrite Hv in Hmax. simpl in Hmax. lia. }
  split; try done.
  - rewrite Hidx. by destruct l as [|[k' e'] l].
  - rewrite Hm. apply dom_insert_lookup_L. by eexists.
  - pose proof (all_stored_split _ Hs). pose proof (all_stored_split _ Hs').
    pose proof (total_drop _ _ _ _ He) as Ht'. rewrite <- Habs in Ht'. lia.
Qed.

(** An insertion in a storage the index does not point to is stranded. *)
Lemma insert_total s s' loc d : sound s → inserts s s' loc d → is_Some (mem s !! loc) →
  total (abs s') ≤ total (abs s) + d.
Proof.
  intros Hs Hins [st Hst]. destruct (decide (attached s (loc, st))) as [Ha|Ha].
  - rewrite (total_abs_insert s s' _ loc Hs Ha (is_index _ _ _ _ Hins) (is_others _ _ _ _ Hins)).
    pose proof (is_len _ _ _ _ Hins). lia.
  - assert (abs s' = abs s) as ->; [|pose proof (is_d _ _ _ _ Hins); lia].
    apply map_eq. intros src. rewrite !lookup_abs, (is_index _ _ _ _ Hins).
    destruct (storageIndex s !! src) as [loc'|] eqn:El; [|done]. simpl.
    rewrite (is_others _ _ _ _ Hins); [done|]. intros ->. apply Ha.
    destruct (wf_index _ _ (so_wf _ Hs) _ _ El) as (st'&Hst'&[Hid _ _]&_). simplify_eq. done.
Qed.

(** ** The invariant *)

(** The envelopes of the sources of a snapshot. *)
Definition snapshot_len (s : Store) (snap : list string) : Z :=
  sum ((λ src, Z.of_nat (length (entries (abs s) src))) <$> snap).

(** The heap points to attached storages that are not empty, once each. *)
Record heap_sources (s : Store) (h : list storageExpiration) : Prop := {
  hs_nodup : NoDup (sourceId <$> h);
  hs_attached : Forall (λ x, storageIndex s !! sourceId x = Some (tree x) ∧ view s (tree x) ≠ []) h;
}.

Record wf_heap (s : Store) (h : list storageExpiration) : Prop := {
  wh_ordered : heap_ordered h;
  wh_sources : heap_sources s h;
}.

#[export] Instance heap_sources_perm s : Proper ((≡ₚ) ==> iff) (heap_sources s).
Proof. intros h1 h2 E. split; intros [Hn Ha]; split; by (rewrite E || rewrite <- E). Qed.

(** What is left to remove is in the store, or stranded. *)
Definition enough (s : Store) (p : truncation) : Prop :=
  match p with
  | Idle => True
  | Building n snap _ =>
      NoDup snap ∧ Forall (λ src, is_Some (storageIndex s !! src)) snap ∧
      n ≤ snapshot_len s snap + stranded s
  | Removing n h => Z.of_nat n ≤ heap_len s h + stranded s
  end.

(** The counters agree with the storages, [p] insertions being pending. *)
Record counted (n : nat) (s : Store) (p : nat) : Prop := {
  cn_count : count s = all_stored s;
  cn_ingress : ingress (metrics s) = all_stored s + expired (metrics s) + Z.of_nat p;
  cn_expired : 0 ≤ expired (metrics s);
  cn_bound : ingress (metrics s) ≤ Z.of_nat n;
}.

Record inv (n : nat) (c : system) : Prop := {
  iv_sound : sound (store c);
  iv_puts : Forall (λ p, is_Some (mem (store c) !! p.1)) (puts c);
  iv_empty : ∀ src loc, storageIndex (store c) !! src = Some loc → view (store c) loc = [] →
    loc ∈ (puts c).*1;
  iv_heap : wf_heap (store c) (heap_of (phase c));
  iv_enough : enough (store c) (phase c);
  iv_counted : counted n (store c) (length (puts c));
}.

Lemma counted_bound n s p : counted n s p → Z.of_nat n ≤ MaxInt64 →
  0 ≤ all_stored s ∧ all_stored s + Z.of_nat p ≤ MaxInt64.
Proof. intros [_ ? ? ?] ?. pose proof (stored_nonneg (λ _, True) s). unfold all_stored in *. lia. Qed.

(** A step of another goroutine: no storage leaves the index or loses envelopes. *)
Record grows (s s' : Store) : Prop := {
  gr_index : storageIndex s ⊆ storageIndex s';
  gr_view : ∀ loc, (length (view s loc) ≤ length (view s' loc))%nat;
  gr_stranded : stranded s ≤ stranded s';
}.

Lemma view_not_nil (l l' : list (Z * Envelope)) : (length l ≤ length l')%nat → l ≠ [] → l' ≠ [].
Proof. destruct l, l'; simpl; intros; try done; lia. Qed.

Lemma wf_heap_grows s s' h : grows s s' → wf_heap s h → wf_heap s' h.
Proof.
  intros [Hi Hv _] [Ho [Hn Ha]]. split; [done|]. split; [done|]. eapply Forall_impl; [exact Ha|]. intros x [Hx Hne].
  split; [by eapply lookup_weaken|]. by apply (view_not_nil (view s (tree x))).
Qed.

Lemma enough_grows s s' p : grows s s' → enough s p → enough s' p.
Proof.
  intros [Hi Hv Hst]. destruct p as [|n snap h|n h]; simpl; [done| |].
  - intros (Hnd&Hsnap&Hn). split_and!; [done| |].
    + eapply Forall_impl; [exact Hsnap|]. intros src [loc Hl]. exists loc. by eapply lookup_weaken.
    + enough (snapshot_len s snap ≤ snapshot_len s' snap) by lia. apply sum_mono. intros src Hsrc.
      rewrite Forall_forall in Hsnap. destruct (Hsnap _ Hsrc) as [loc Hl].
      unfold entries. rewrite !lookup_abs, Hl, (lookup_weaken _ _ _ _ Hl Hi). simpl.
      specialize (Hv loc). lia.
  - intros Hn. enough (heap_len s h ≤ heap_len s' h) by lia. apply sum_mono. intros x _.
    unfold view_len. simpl. specialize (Hv (tree x)). lia.
Qed.

(** ** Steps keep the invariant *)

(** A change of the fields that the invariant does not track. *)
Record same_storages (s s' : Store) : Prop := {
  ss_index : storageIndex s' = storageIndex s;
  ss_mem : mem s' = mem s;
  ss_next : nextLoc s' = nextLoc s;
  ss_max : maxPerSource s' = maxPerSource s;
  ss_count : count s' = count s;
  ss_ingress : ingress (metrics s') = ingress (metrics s);
  ss_expired : expired (metrics s') = expired (metrics s);
}.

Lemma same_view s s' loc : same_storages s s' → view s' loc = view s loc.
Proof. intros H. unfold view. by rewrite (ss_mem _ _ H). Qed.

Lemma same_stored s s' : same_storages s s' → all_stored s' = all_stored s ∧ stranded s' = stranded s.
Proof.
  intros H. unfold all_stored, stranded, stored. rewrite (ss_mem _ _ H). split; [done|].
  do 2 f_equal. apply list_filter_iff. intros p. unfold attached. by rewrite (ss_index _ _ H).
Qed.

Lemma same_sound s s' : same_storages s s' → sound s → sound s'.
Proof.
  intros [Hi Hm Hn Hx _ _ _] [[H1 H2 H3] H4].
  split; [split|]; rewrite ?Hi, ?Hm, ?Hn, ?Hx; done.
Qed.

Lemma same_grows s s' : same_storages s s' → grows s s'.
Proof.
  intros H. split; [by rewrite (ss_index _ _ H)| |by rewrite (proj2 (same_stored _ _ H))].
  intros loc. by rewrite (same_view _ _ _ H).
Qed.

Lemma counted_same n n' s s' p : same_storages s s' → (n ≤ n')%nat → counted n s p → counted n' s' p.
Proof.
  intros H Hn [? ? ? ?]. destruct (same_stored _ _ H) as [Ha _]. destruct H. split; rewrite ?Ha; lia.
Qed.

Lemma inv_same n n' c s' :
  inv n c → same_storages (store c) s' → (n ≤ n')%nat → inv n' (set_store s' c).
Proof.
  intros [Hs Hp He Hh Hn Hc] H Hle. pose proof (same_grows _ _ H). split; simpl.
  - by eapply same_sound.
  - by rewrite (ss_mem _ _ H).
  - intros src loc. rewrite (ss_index _ _ H), (same_view _ _ _ H). apply He.
  - by eapply wf_heap_grows.
  - by eapply enough_grows.
  - by eapply counted_same.
Qed.

Lemma inv_metas n n' c l : inv n c → (n ≤ n')%nat → inv n' (set_metas l c).
Proof.
  intros [Hs Hp He Hh Hn [? ? ? ?]] Hle. split; try done. split; try done. simpl. lia.
Qed.

(** [Put]: the storage is looked up, or made. *)
Lemma inv_lookup n c e src :
  inv n c → ∃ c', perform c (PutLookup e src) = Some (Done c') ∧ inv (S n) c'.
Proof.
  intros Hinv. set (c1 := set_store (upd_metrics (add_ingress 1) (store c)) c).
  assert (sound (store c1)) as Hs1 by (destruct (iv_sound _ _ Hinv) as [[]]; split; [split|]; done).
  destruct Hinv as [Hs Hp He Hh Hn Hc]. cbn [perform].
  destruct (getOrInitializeStorage _ src) as [[s' loc] b] eqn:E.
  destruct (lookup_section _ _ _ _ _ Hs1 E) as [Hs' Hmet Hcnt Hi Hix Hd Hm Hv Hall Htot].
  change (view (store c1)) with (view (store c)) in Hv.
  change (all_stored (store c1)) with (all_stored (store c)) in Hall.
  change (total (abs (store c1))) with (total (abs (store c))) in Htot.
  assert (grows (store c) s') as Hg.
  { split; [done|intros; by rewrite Hv|]. pose proof (all_stored_split _ Hs).
    pose proof (all_stored_split _ Hs'). lia. }
  eexists. split; [done|]. split; simpl.
  - done.
  - apply Forall_app. split; [|by constructor]. eapply Forall_impl; [exact Hp|]. intros p Hx.
    apply elem_of_dom. apply elem_of_dom in Hx. by apply Hd.
  - intros src' loc'. rewrite Hv, fmap_app. intros [Hl'| ->]%Hix Hv'; [|set_solver].
    specialize (He _ _ Hl' Hv'). set_solver.
  - by eapply wf_heap_grows.
  - by eapply enough_grows.
  - destruct Hc as [? ? ? ?]. rewrite length_app. split; rewrite ?Hmet, ?Hcnt, ?Hall; simpl; lia.
Qed.

(** [Put]: the insertion in the storage that was looked up. *)
Lemma inv_insert n c i now loc e :
  inv n c → Z.of_nat n ≤ MaxInt64 → valid_action c (PutInsert i now) → puts c !! i = Some (loc, e) →
  ∃ c', perform c (PutInsert i now) = Some (Done c') ∧ inv (S n) c'.
Proof.
  intros [Hs Hp He Hh Hn Hc] Hmax Hvalid Hi. cbn [perform]. rewrite Hi. cbn [mbind option_bind].
  assert (is_Some (mem (store c) !! loc)) as Hm.
  { apply list_elem_of_lookup_2 in Hi. by apply (proj1 (Forall_forall _ _) Hp (loc, e)). }
  destruct (insert_section _ loc e now Hs Hm (Hvalid _ _ Hi)) as (s'&d&->&Hins).
  pose proof (insert_total _ _ _ _ Hs Hins Hm) as Htot.
  destruct Hins as [Hs' Hix _ Hd Hv Ho Hlen Hd1 Hall Hcnt Hmet].
  assert (grows (store c) s') as Hg.
  { split; [by rewrite Hix| |].
    - intros loc'. destruct (decide (loc' = loc)) as [->|]; [unfold view_len in Hlen; lia|by rewrite Ho].
    - pose proof (all_stored_split _ Hs). pose proof (all_stored_split _ Hs'). lia. }
  eexists. split; [done|]. split; simpl.
  - done.
  - eapply (Forall_impl (λ p, is_Some (mem (store c) !! p.1))).
    { apply Forall_forall. intros p Hin. rewrite Forall_forall in Hp. apply Hp.
      rewrite delete_take_drop in Hin. rewrite <- (take_drop_middle _ _ _ Hi). set_solver. }
    intros p. by rewrite <- !elem_of_dom, Hd.
  - intros src' loc'. rewrite Hix. intros Hl Hv'.
    assert (loc' ≠ loc) as Hne by by intros ->. rewrite Ho in Hv' by done.
    rewrite delete_fmap. eapply elem_of_delete; [by rewrite list_lookup_fmap, Hi|by eapply He|done].
  - by eapply wf_heap_grows.
  - by eapply enough_grows.
  - destruct (counted_bound _ _ _ Hc Hmax) as [Hb1 Hb2]. destruct Hc as [Hc1 Hc2 Hc3 Hc4].
    pose proof (lookup_lt_Some _ _ _ Hi). rewrite length_delete by (by eexists).
    destruct Hmet as [Hm1 Hm2]. split; rewrite ?Hm1, ?Hm2, ?Hall; try lia.
    rewrite Hcnt, Hc1. destruct (Z.eqb_spec d 0); [lia|]. rewrite wrap64_id; [lia|].
    unfold int64_range, MinInt64. lia.
Qed.

Lemma entries_keys s : sum ((λ src, Z.of_nat (length (entries (abs s) src))) <$> keys_of s) = total (abs s).
Proof.
  rewrite total_sum. unfold abs, keys_of. rewrite map_to_list_fmap, <- !list_fmap_compose. f_equal.
  apply list_fmap_ext. intros i [src loc] Hi. simpl. apply list_elem_of_lookup_2, elem_of_map_to_list in Hi.
  unfold entries. by rewrite lookup_fmap, Hi.
Qed.

(** [truncate] takes its snapshot. *)
Lemma inv_truncate n c quantity :
  inv n c → phase c = Idle → inv (S n) (start_truncate quantity c).
Proof.
  intros Hinv Hidle. unfold start_truncate. case_match.
  { eapply inv_same; [done| |lia]. by destruct (store c). }
  destruct Hinv as [Hs Hp He Hh Hn [? ? ? ?]]. split; try done; simpl.
  - split; [apply heap_ordered_nil|by repeat constructor].
  - split_and!.
    + apply NoDup_fst_map_to_list.
    + apply Forall_forall. intros src ([? loc]&->&Hl%elem_of_map_to_list)%list_elem_of_fmap. by exists loc.
    + unfold snapshot_len. rewrite entries_keys. pose proof (all_stored_split _ Hs).
      destruct (Z.ltb_spec (count (store c)) (quantity (count (store c)))); lia.
  - split; try done. lia.
Qed.

(** The truncation visits one source: only an empty storage can make it panic. *)
Lemma inv_visit n c k snap h src loc :
  inv n c → phase c = Building k snap h → src ∉ sourceId <$> h → storageIndex (store c) !! src = Some loc →
  (visit (store c) src loc h = Panic ∧ view (store c) loc = []) ∨
  ∃ h', visit (store c) src loc h = Done h' ∧ inv (S n) (set_phase (Building k snap h') c).
Proof.
  intros [Hs Hp He [Ho [Hnd Ha]] Hn [? ? ? ?]] Hph Hsrc Hl. rewrite Hph in *. simpl in *.
  destruct (wf_index _ _ (so_wf _ Hs) _ _ Hl) as (st&Hst&_). unfold visit, view. rewrite Hst.
  cbn [must mbind outcome_bind]. destruct (contents (storage_Tree st)) as [|[k0 e] l] eqn:Ec.
  { left. split; [|done]. unfold left_key. by rewrite Left_spec, Ec. }
  right. rewrite (left_key_spec _ _ _ _ Ec). cbn [mbind outcome_bind].
  destruct (heap_Push_spec h (mkExpiration k0 src loc) Ho) as (h'&->&Hperm&Ho').
  exists h'. split; [done|]. split; try done; simpl.
  - split; [done|]. rewrite Hperm. split; [by constructor|].
    constructor; [|done]. simpl. split; [done|]. unfold view. by rewrite Hst, Ec.
  - split; try done. lia.
Qed.

Lemma heap_len_snapshot s h : wf_heap s h → heap_len s h = snapshot_len s (sourceId <$> h).
Proof.
  intros [_ [_ Ha]]. unfold heap_len, snapshot_len. rewrite <- list_fmap_compose. f_equal.
  apply list_fmap_ext. intros i x Hi%list_elem_of_lookup_2. rewrite Forall_forall in Ha.
  destruct (Ha _ Hi) as [Hx _]. unfold view_len, entries. simpl. by rewrite lookup_abs, Hx.
Qed.

Lemma snapshot_nonneg s snap : 0 ≤ snapshot_len s snap.
Proof. apply sum_nonneg, Forall_fmap, Forall_forall. intros. simpl. lia. Qed.

(** The [Range] is over: the heap holds the sources of the snapshot. *)
Lemma inv_built n c k snap h :
  inv n c → phase c = Building k snap h → owed (store c) (sourceId <$> h) snap = [] →
  inv (S n) (set_phase (Removing (Z.to_nat k) h) c).
Proof.
  intros [Hs Hp He Hh Hn [? ? ? ?]] Hph Howed. rewrite Hph in *. simpl in *.
  split; try done; [|split; try done; simpl; lia]. simpl. rewrite heap_len_snapshot by done.
  destruct Hn as (Hnd&Hsnap&Hk).
  assert (snap ⊆+ sourceId <$> h) as [r Hr]%submseteq_Permutation.
  { apply NoDup_submseteq; [done|]. intros src Hsrc. destruct (decide (src ∈ sourceId <$> h)); [done|].
    assert (src ∈ owed (store c) (sourceId <$> h) snap) as Hin; [|rewrite Howed in Hin; set_solver].
    apply list_elem_of_filter. rewrite Forall_forall in Hsnap. auto. }
  pose proof (snapshot_nonneg (store c) r). pose proof (snapshot_nonneg (store c) snap).
  assert (0 ≤ stranded (store c)) by apply stored_nonneg.
  unfold snapshot_len in *. rewrite Hr, fmap_app, sum_app. lia.
Qed.

Lemma heap_sources_remove s s' x l h :
  removes s s' (sourceId x) (tree x) l → sound s → heap_sources s (x :: h) → heap_sources s' h.
Proof.
  intros Hrm Hs [Hnd Ha]. apply Forall_cons in Ha as [[Hx _] Ha].
  simpl in Hnd. apply NoDup_cons in Hnd as [Hni Hnd].
  split; [done|]. apply Forall_forall. intros y Hy. rewrite Forall_forall in Ha.
  destruct (Ha _ Hy) as [Hl Hv].
  assert (sourceId y ≠ sourceId x) as Hne by (intros E; apply Hni; rewrite <- E; by apply list_elem_of_fmap_2).
  assert (tree y ≠ tree x) as Hnt.
  { intros E. apply Hne. rewrite E in Hl. by eapply wf_index_inj, Hx; [apply (so_wf _ Hs)|]. }
  rewrite (rm_index _ _ _ _ _ Hrm), (rm_others _ _ _ _ _ Hrm _ Hnt). split; [|done].
  case_decide; [by rewrite lookup_delete_ne|done].
Qed.

Lemma heap_len_remove s s' x l h :
  removes s s' (sourceId x) (tree x) l → sound s → heap_sources s (x :: h) → heap_len s' h = heap_len s h.
Proof.
  intros Hrm Hs [Hnd Ha]. apply Forall_cons in Ha as [[Hx _] Ha].
  simpl in Hnd. apply NoDup_cons in Hnd as [Hni Hnd].
  unfold heap_len. f_equal. apply list_fmap_ext. intros i y Hy%list_elem_of_lookup_2.
  unfold view_len. simpl. rewrite (rm_others _ _ _ _ _ Hrm); [done|]. intros E. apply Hni.
  rewrite Forall_forall in Ha. destruct (Ha _ Hy) as [Hl _]. rewrite E in Hl.
  rewrite (wf_index_inj _ _ _ _ _ (so_wf _ Hs) Hx Hl). by apply list_elem_of_fmap_2.
Qed.

#[export] Instance heap_len_perm s : Proper ((≡ₚ) ==> (=)) (heap_len s).
Proof. intros h1 h2 E. unfold heap_len. by rewrite E. Qed.

Lemma heap_len_cons s x h : heap_len s (x :: h) = view_len s (tree x) + heap_len s h.
Proof. done. Qed.

(** The pop, the removal and the push of one iteration on a heap that is not empty. *)
Lemma truncate_step_section s h :
  sound s → wf_heap s h → h ≠ [] →
  ∃ s' h' x l, truncate_step s h = Done (s', h') ∧ storageIndex s !! sourceId x = Some (tree x) ∧
    removes s s' (sourceId x) (tree x) l ∧ wf_heap s' h' ∧ heap_len s' h' = heap_len s h - 1.
Proof.
  intros Hs [Ho Hh] Hne. destruct (heap_Pop_spec h Ho Hne) as (x&h1&Epop&Hperm&Ho1&_).
  rewrite Hperm in Hh. destruct (proj1 (Forall_cons _ _ _) (hs_attached _ _ Hh)) as [[Hx Hv] _].
  destruct (view s (tree x)) as [|[k0 e] l] eqn:Ev; [done|].
  destruct (remove_section _ _ _ _ _ _ Hs Hx Ev) as (s'&Erm&Hrm).
  pose proof (heap_sources_remove _ _ _ _ _ Hrm Hs Hh) as Hh1.
  pose proof (heap_len_remove _ _ _ _ _ Hrm Hs Hh) as Hlen.
  assert (heap_len s h = Z.of_nat (S (length l)) + heap_len s h1) as Hlen0
    by (rewrite Hperm, heap_len_cons; unfold view_len; by rewrite Ev).
  unfold truncate_step. rewrite Epop. cbn [mbind outcome_bind]. rewrite Erm. cbn [mbind outcome_bind].
  destruct l as [|[k1 e1] l]; cbn [next_oldest].
  { exists s', h1, x, []. split_and!; try done. simpl in Hlen0. lia. }
  destruct (heap_Push_spec h1 (mkExpiration k1 (sourceId x) (tree x)) Ho1) as (h'&->&Hp'&Ho').
  exists s', h', x, ((k1, e1) :: l). split_and!; try done.
  - split; [done|]. rewrite Hp'. destruct Hh1 as [Hnd1 Ha1], Hh as [Hnd _].
    simpl in Hnd. apply NoDup_cons in Hnd as [Hni Hnd].
    split; [by constructor|]. constructor; [|done]. simpl.
    rewrite (rm_index _ _ _ _ _ Hrm), (rm_view _ _ _ _ _ Hrm). done.
  - rewrite Hp', heap_len_cons, Hlen, Hlen0. unfold view_len. cbn [tree].
    rewrite (rm_view _ _ _ _ _ Hrm). simpl. lia.
Qed.

(** One removal, unless the heap is empty: then a stranded envelope was counted. *)
Lemma inv_remove n c k h :
  inv n c → Z.of_nat n ≤ MaxInt64 → phase c = Removing (S k) h →
  (h = [] ∧ truncate_step (store c) h = Panic ∧ 0 < stranded (store c)) ∨
  ∃ s' h', truncate_step (store c) h = Done (s', h') ∧
    inv (S n) (set_store s' (set_phase (Removing k h') c)).
Proof.
  intros [Hs Hp He Hh Hn Hc] Hmax Hph. rewrite Hph in *. cbn [heap_of enough] in *.
  destruct (decide (h = [])) as [->|Hne].
  { left. split_and!; [done..|]. change (heap_len (store c) []) with 0 in Hn. lia. }
  right. destruct (truncate_step_section _ _ Hs Hh Hne) as (s'&h'&x&l&->&Hx&Hrm&Hh'&Hlen).
  exists s', h'. split; [done|]. destruct (counted_bound _ _ _ Hc Hmax) as [Hb1 Hb2].
  destruct Hrm as [Hs' Hix Hd Hv Ho Hall Hstr Hcnt Hmet]. split; simpl.
  - done.
  - eapply Forall_impl; [exact Hp|]. intros p. by rewrite <- !elem_of_dom, Hd.
  - intros src loc Hl Hvl. assert (storageIndex (store c) !! src = Some loc) as Hl0
      by (rewrite Hix in Hl; case_decide; [by apply lookup_delete_Some in Hl as [_ ?]|done]).
    destruct (decide (loc = tree x)) as [->|Hne']; [|rewrite Ho in Hvl by done; by eapply He].
    rewrite Hv in Hvl. rewrite Hix, decide_True in Hl by done. apply lookup_delete_Some in Hl as [Hne' _].
    by destruct Hne'; eapply wf_index_inj, Hl0; [apply (so_wf _ Hs)|].
  - done.
  - lia.
  - assert (0 ≤ all_stored s') by apply stored_nonneg. destruct Hc as [Hc1 Hc2 Hc3 Hc4].
    split; rewrite ?Hmet, ?Hcnt, ?Hc1, ?Hall; cbn [add_expired ingress expired]; try lia.
    rewrite wrap64_id; [done|]. unfold int64_range, MinInt64. lia.
Qed.

Lemma inv_finish n c h now :
  inv n c → phase c = Removing 0 h →
  ∃ s', truncate_finish (store c) h now = Done s' ∧
    inv (S n) (set_store (upd_metrics (set_storeSize (count s')) s') (set_phase Idle c)).
Proof.
  intros Hinv Hph.
  assert (inv (S n) (set_phase Idle c)) as Hidle.
  { destruct Hinv as [Hs Hp He Hh Hn [? ? ? ?]]. split; try done; simpl.
    - split; [apply heap_ordered_nil|by repeat constructor].
    - split; try done. lia. }
  assert (∃ s', truncate_finish (store c) h now = Done s' ∧ same_storages (store c) s') as (s'&E&Hsame).
  { unfold truncate_finish, Len. case_bool_decide as Eh; [by eexists|].
    destruct (exists_last (l := h)) as (h0&x&->); [by intros ->|].
    rewrite Pop_snoc. cbn [mbind outcome_bind]. case_match; by eexists. }
  exists s'. split; [done|]. eapply (inv_same (S n) (S n) (set_phase Idle c)); [done| |done].
  destruct Hsame. by split.
Qed.

(** Why a step may panic: the truncation visits a storage that a [Put] has made
    and not filled yet; a [Meta] loads a source the truncation has forgotten since
    its [Range]; or the truncation counted envelopes that are stranded. *)
Definition crash (c : system) (a : action) : Prop :=
  match a with
  | Visit src => ∃ loc, storageIndex (store c) !! src = Some loc ∧ view (store c) loc = [] ∧
      loc ∈ (puts c).*1
  | MetaFill _ src => storageIndex (store c) !! src = None
  | Remove1 => heap_of (phase c) = [] ∧ 0 < stranded (store c)
  | _ => False
  end.

Definition step_ok (n : nat) (c : system) (a : action) : Prop :=
  match perform c a with
  | None => True
  | Some Panic => crash c a
  | Some (Done c') => inv (S n) c'
  end.

Lemma meta_step_ok n c i src : inv n c → step_ok n c (MetaVisit i src) ∧ step_ok n c (MetaFill i src).
Proof.
  intros Hinv. unfold step_ok. cbn [perform]. destruct (metas c !! i) as [m|] eqn:E; [|done].
  cbn [mbind option_bind]. destruct m as [r|todo r]; (split; [|try done]); try done.
  - case_decide; [done|]. destruct (storageIndex (store c) !! src) as [loc|] eqn:El; [|done].
    cbn [mbind option_bind must outcome_bind].
    destruct (wf_index _ _ (so_wf _ (iv_sound _ _ Hinv)) _ _ El) as (st&->&_). eapply inv_metas; [done|lia].
  - case_decide; [|done]. destruct (storageIndex (store c) !! src) as [loc|] eqn:El; [|done].
    cbn [mbind option_bind must outcome_bind].
    destruct (wf_index _ _ (so_wf _ (iv_sound _ _ Hinv)) _ _ El) as (st&->&_). eapply inv_metas; [done|lia].
Qed.

Lemma truncation_step_ok n c a : inv n c → Z.of_nat n ≤ MaxInt64 →
  match a with Truncate _ | Visit _ | Built | Remove1 | Finish _ => step_ok n c a | _ => True end.
Proof.
  intros Hinv Hn. destruct a as [| |q|src| | |now| | | | |]; try done; unfold step_ok; cbn [perform];
    destruct (phase c) as [|k snap h|k h] eqn:Hph; try done.
  - by apply inv_truncate.
  - case_decide as Hsrc; [done|]. destruct (storageIndex (store c) !! src) as [loc|] eqn:El; [|done].
    cbn [mbind option_bind].
    destruct (inv_visit _ _ _ _ _ _ _ Hinv Hph Hsrc El) as [[-> Hv]|(h'&->&?)]; cbn; [|done].
    exists loc. split_and!; [done..|]. by eapply iv_empty.
  - case_decide; [|done]. by eapply inv_built.
  - destruct k as [|k]; [done|].
    destruct (inv_remove _ _ _ _ Hinv Hn Hph) as [(->&->&?)|(s'&h'&->&?)]; cbn; [|done].
    by rewrite Hph.
  - destruct k as [|k]; [|done]. by destruct (inv_finish _ _ _ now Hinv Hph) as (s'&->&?).
Qed.

Lemma perform_ok n c a : inv n c → Z.of_nat n ≤ MaxInt64 → valid_action c a → step_ok n c a.
Proof.
  intros Hinv Hn Hvalid. pose proof (truncation_step_ok n c a Hinv Hn) as Ht.
  destruct a as [e src|i now|q|src| | |now| |i src|i|i src|src start end_ types nf limit desc]; try done.
  - unfold step_ok. by destruct (inv_lookup n c e src Hinv) as (c'&->&?).
  - unfold step_ok. destruct (puts c !! i) as [[loc e]|] eqn:E; [|cbn [perform]; by rewrite E].
    by destruct (inv_insert _ _ _ now _ _ Hinv Hn Hvalid E) as (c'&->&?).
  - eapply inv_metas; [done|lia].
  - by apply meta_step_ok.
  - unfold step_ok. cbn [perform]. destruct (metas c !! i) as [[r|]|]; [|done..].
    eapply inv_metas; [done|lia].
  - by apply meta_step_ok.
  - unfold step_ok. cbn [perform].
    destruct (Get_sublist (store c) src start end_ types nf limit desc (so_wf _ (iv_sound _ _ Hinv)) Hvalid)
      as (res&->&_). eapply inv_same; [done| |lia]. by destruct (store c).
Qed.

Lemma initial_inv max prunes : 1 ≤ max ≤ MaxInt64 → inv 0 (initial max prunes).
Proof.
  intros Hm. split; try done.
  - destruct (NewStore_wf max prunes Hm) as [_ H2 H3]. split; [split; done|by intros].
  - split; [apply heap_ordered_nil|by repeat constructor].
Qed.

Lemma interleaving_inv max prunes n c :
  1 ≤ max ≤ MaxInt64 → Z.of_nat n ≤ MaxInt64 → run max prunes n c → inv n c.
Proof.
  intros Hm Hn Hrun. induction Hrun as [|n c a c' Hrun IH Hv Hp]; [by apply initial_inv|].
  assert (step_ok n c a) as Hs by (apply perform_ok; [apply IH|..]; lia || done).
  unfold step_ok in Hs. by rewrite Hp in Hs.
Qed.

(** ** Properties *)



(** ** Three races *)
Fixpoint trace (acts : list action) (c : system) : Prop :=
  match acts with
  | [] => True
  | a :: acts =>
      valid_action c a ∧ match perform c a with Some (Done c') => trace acts c' | _ => False end
  end.

Fixpoint exec (acts : list action) (c : system) : system :=
  match acts with
  | [] => c
  | a :: acts => match perform c a with Some (Done c') => exec acts c' | _ => c end
  end.

Lemma trace_run max prunes acts n c :
  run max prunes n c → trace acts c → run max prunes (length acts + n) (exec acts c).
Proof.
  revert n c. induction acts as [|a acts IH]; intros n c Hrun; [done|]. cbn [trace exec]. intros [Hv Ht].
  destruct (perform c a) as [[c'|]|] eqn:E; [|done..].
  change (length (a :: acts) + n)%nat with (S (length acts + n)). rewrite plus_n_Sm.
  apply IH; [by eapply run_step|done].
Qed.

Ltac run_trace :=
  repeat match goal with
  | |- True => exact I
  | |- _ ∧ _ => split
  | |- ∀ loc e, _ = Some (loc, e) → _ => let E := fresh in intros ? ? E; vm_compute in E; injection E as <- <-; vm_compute; reflexivity
  | |- trace (_ :: _) _ => cbn [trace]
  | |- trace [] _ => exact I
  | |- valid_action _ (PutInsert _ _) => unfold valid_action
  | |- valid_action _ _ => exact I
  | |- match ?p with _ => _ end => let r := eval vm_compute in p in replace p with r by (vm_compute; reflexivity); cbv iota beta
  end.

Definition an_envelope : Envelope := mkEnvelope 100 "a" "" ∅ ∅ None.

(** A truncation that meets a storage whose first envelope is not inserted yet. *)
Definition new_source_trace : list action :=
  [PutLookup an_envelope "b"; PutInsert 0 200; PutLookup an_envelope "a"; Truncate (λ _, 1)].

(** [Put] looked the storage up before the truncation emptied it: its envelope goes
    to a storage that is not in the index any more. *)
Definition lost_put_trace : list action :=
  [PutLookup an_envelope "a"; PutInsert 0 200; PutLookup an_envelope "a"; Truncate (λ _, 1);
   Visit "a"; Built; Remove1; PutInsert 0 300; Finish 400].

(** The source leaves the index between the two loops of [Meta]. *)
Definition meta_trace : list action :=
  [PutLookup an_envelope "a"; PutInsert 0 200; MetaCall; MetaVisit 0 "a"; MetaRanged 0;
   Truncate (λ _, 1); Visit "a"; Built; Remove1].

Ltac by_trace acts :=
  eexists _, (exec acts (initial 2 1)); split;
  [apply trace_run; [apply run_initial|]; cbv delta [new_source_trace lost_put_trace meta_trace app];
   cbv beta iota; run_trace
  |repeat split; vm_compute; reflexivity].

Theorem truncation_crashes_on_new_source :
  ∃ n c, run 2 1 n c ∧ perform c (Visit "a") = Some Panic.
Proof. by_trace new_source_trace. Qed.

Theorem Meta_crashes_on_expired_source :
  ∃ n c, run 2 1 n c ∧ perform c (MetaFill 0 "a") = Some Panic.
Proof. by_trace meta_trace. Qed.

(** The store is at rest and counts one envelope, but no source is left. *)
Theorem Put_loses_envelope :
  ∃ n c, run 2 1 n c ∧ puts c = [] ∧ phase c = Idle ∧ count (store c) = 1 ∧ storageIndex (store c) = ∅.
Proof. by_trace lost_put_trace. Qed.

(** ... so that a later truncation pops from an empty heap. *)
Theorem lost_envelope_crashes_truncation :
  ∃ n c, run 2 1 n c ∧ perform c Remove1 = Some Panic.
Proof. by_trace (lost_put_trace ++ [Truncate (λ _, 1); Built]). Qed.

(** ** Witnesses *)
Definition demo_trace : list action :=
  [PutLookup an_envelope "a"; PutInsert 0 200; PutLookup an_envelope "a"; Truncate (λ _, 1); Visit "a"].

Lemma demo_run : run 2 1 5 (exec demo_trace (initial 2 1)).
Proof. apply (trace_run 2 1 demo_trace 0); [apply run_initial|]. unfold demo_trace. run_trace. Defined.


