(* ===== verification/StoreLoop.v ===== *)
(** * The truncation loop

    Models [truncationLoop], [sendTruncationCompleted],
    [WaitForTruncationToComplete] and [registerMetrics] of
    internal/cache/store/store.go, and the goroutine that [NewStore] starts.  A run
    is a sequence of truncations, of the store's other operations and of calls that
    wait; what may happen within a truncation is in StoreConcurrent.v.

    [truncationCompleted] is unbuffered: a send that does not block reaches the
    receiver that waits the longest, if there is one.  Times are readings of the
    monotonic clock that the timer goes by, in nanoseconds; [now] is the wall
    clock's. *)

From S2P Require Import Prelude AvlTree Envelope ExpirationHeap Store StoreInv StoreTruncate StoreGet StoreRefine.

(** ** Metrics *)
Inductive metric_kind := Counter | Gauge (unit : option string).
Record metric := mkMetric { metric_name : string; kind : metric_kind }.

Definition registerMetrics : list metric :=
  [mkMetric "log_cache_expired" Counter;
   mkMetric "log_cache_cache_period" (Gauge (Some "milliseconds"));
   mkMetric "log_cache_ingress" Counter;
   mkMetric "log_cache_egress" Counter;
   mkMetric "log_cache_store_size" (Gauge (Some "entries"));
   mkMetric "log_cache_truncation_duration" (Gauge (Some "milliseconds"));
   mkMetric "log_cache_memory_utilization" (Gauge (Some "percentage"))].

(** ** The loop *)
(** The goroutines that receive from [truncationCompleted], oldest first, what
    earlier ones received, and when the timer fires. *)
Record loop := mkLoop {
  running : Store;
  waiters : list nat;
  told : list (nat * bool);
  due : Z;
  truncationDuration : Z;
}.

Definition WaitForTruncationToComplete (g : nat) (l : loop) : loop :=
  mkLoop (running l) (waiters l ++ [g]) (told l) (due l) (truncationDuration l).

Definition sendTruncationCompleted (status : bool) (l : loop) : loop :=
  match waiters l with
  | [] => l
  | g :: gs => mkLoop (running l) gs (told l ++ [(g, status)]) (due l) (truncationDuration l)
  end.

(** One turn of the loop: what the consultant says, the sources in the order of
    the [Range], and the readings of the clocks. *)
Record turn := mkTurn {
  quantity : Z → Z;
  order : list (string * nat);
  now : Z;
  startTime : Z;
  reset : Z;
  measured : Z;
}.

Definition set_running (s : Store) (l : loop) : loop :=
  mkLoop s (waiters l) (told l) (due l) (truncationDuration l).
Definition Reset (runInterval at_ : Z) (l : loop) : loop :=
  mkLoop (running l) (waiters l) (told l) (at_ + runInterval) (truncationDuration l).
Definition set_duration (d : Z) (l : loop) : loop :=
  mkLoop (running l) (waiters l) (told l) (due l) d.

Definition truncationLoop (runInterval : Z) (t : turn) (l : loop) : outcome loop :=
  '(s, status) ← truncate (quantity t) (running l) (order t) (now t);
  let l := sendTruncationCompleted status (set_running s l) in
  let l := Reset runInterval (reset t) l in
  Done (set_duration (Z.quot (measured t - startTime t) 1000000) l).

(** The loop of a new store waits for its interval once. *)
Definition started (maxPerSource truncationInterval prunesPerGC at_ : Z) : loop :=
  mkLoop (NewStore maxPerSource prunesPerGC) [] [] (at_ + truncationInterval) 0.

Inductive action :=
| Turn (t : turn)
| Operation (ev : event)
| Wait (g : nat).

Definition perform (runInterval : Z) (l : loop) (a : action) : outcome loop :=
  match a with
  | Turn t => truncationLoop runInterval t l
  | Operation ev => s ← exec (running l) ev; Done (set_running s l)
  | Wait g => Done (WaitForTruncationToComplete g l)
  end.

(** A turn runs once the timer has fired; the clock does not go back. *)
Definition on_time (t : turn) (l : loop) : Prop :=
  due l ≤ startTime t ∧ startTime t ≤ reset t ∧ reset t ≤ measured t.

Definition valid_action (l : loop) (a : action) : Prop :=
  match a with
  | Turn t => order t ≡ₚ map_to_list (storageIndex (running l)) ∧ on_time t l
  | Operation ev => valid_event (running l) ev
  | Wait _ => True
  end.

#[export] Instance known_type_dec t : Decision (∀ n, t ≠ EnvelopeType_other n).
Proof. refine (match t with EnvelopeType_other n => right (λ H, H n eq_refl) | _ => left _ end); done. Defined.
#[export] Instance valid_event_dec s ev : Decision (valid_event s ev).
Proof.
  destruct ev as [| |? ? ? [types|]|]; unfold valid_event, fresh_put, known_types; apply _.
Defined.
#[export] Instance valid_action_dec l a : Decision (valid_action l a).
Proof. destruct a; unfold valid_action, on_time; apply _. Defined.

Inductive runs (runInterval : Z) : loop → list action → loop → Prop :=
| runs_nil l : runs runInterval l [] l
| runs_cons l a l' acts l'' :
    valid_action l a → perform runInterval l a = Done l' → runs runInterval l' acts l'' →
    runs runInterval l (a :: acts) l''.

Definition turns (acts : list action) : list turn :=
  omap (λ a, match a with Turn t => Some t | _ => None end) acts.

Definition waits (acts : list action) : list nat :=
  omap (λ a, match a with Wait g => Some g | _ => None end) acts.

(** ** Lemmas *)

(** Every call that ever waited, in order: the answered ones first. *)
Definition callers (l : loop) : list nat := (told l).*1 ++ waiters l.

Lemma send_callers status l : callers (sendTruncationCompleted status l) = callers l.
Proof.
  unfold callers, sendTruncationCompleted. destruct (waiters l) as [|g gs] eqn:E; simpl; rewrite ?E; [done|].
  by rewrite fmap_app, <- (assoc_L (++)).
Qed.

(** What a turn leaves, from what the truncation did. *)
Lemma truncationLoop_Done runInterval t l l' : truncationLoop runInterval t l = Done l' →
  ∃ status, truncate (quantity t) (running l) (order t) (now t) = Done (running l', status) ∧
    callers l' = callers l ∧ waiters l' = tail (waiters l) ∧
    told l' = told l ++ ((λ g, (g, status)) <$> take 1 (waiters l)) ∧
    due l' = reset t + runInterval.
Proof.
  unfold truncationLoop. intros ([s status]&E&[= <-])%bind_Done. exists status. rewrite E.
  unfold sendTruncationCompleted, callers. simpl.
  destruct (waiters l) as [|g gs] eqn:Ew; simpl; rewrite ?Ew, ?app_nil_r; [done|].
  by rewrite fmap_app, <- (assoc_L (++)).
Qed.

Lemma truncate_exec quantity s order now s' b :
  truncate quantity s order now = Done (s', b) → exec s (ETruncate quantity order now) = Done s'.
Proof. intros E. simpl. by rewrite E. Qed.

(** The store of the loop is one that the operations reach. *)
Lemma perform_reach max prunes n runInterval l a l' :
  reach max prunes n (running l) → valid_action l a → perform runInterval l a = Done l' →
  ∃ m, (m ≤ S n)%nat ∧ reach max prunes m (running l').
Proof.
  intros Hr Hv. destruct a as [t|ev|g]; simpl in *.
  - intros (status&E%truncate_exec&_)%truncationLoop_Done. exists (S n). split; [lia|].
    eapply reach_step; [done| |exact E]. apply Hv.
  - intros (s&E&[= <-])%bind_Done. exists (S n). split; [lia|]. by eapply reach_step.
  - intros [= <-]. exists n. split; [lia|done].
Qed.

Lemma perform_callers runInterval l a l' :
  perform runInterval l a = Done l' → callers l' = callers l ++ waits [a].
Proof.
  destruct a as [t|ev|g]; simpl.
  - intros (status&_&->&_)%truncationLoop_Done. by rewrite app_nil_r.
  - intros (s&_&[= <-])%bind_Done. by rewrite app_nil_r.
  - intros [= <-]. unfold callers. simpl. by rewrite (assoc_L (++)).
Qed.

Lemma runs_callers runInterval l acts l' : runs runInterval l acts l' →
  callers l' = callers l ++ waits acts.
Proof.
  induction 1 as [l|l a l' acts l'' _ E _ IH]; [by rewrite app_nil_r|].
  rewrite IH, (perform_callers _ _ _ _ E), <- (assoc_L (++)). unfold waits. by rewrite <- omap_app.
Qed.

Lemma runs_reach max prunes runInterval l acts l' : runs runInterval l acts l' →
  ∀ n, reach max prunes n (running l) →
  ∃ m, (m ≤ n + length acts)%nat ∧ reach max prunes m (running l').
Proof.
  induction 1 as [l|l a l' acts l'' Hv E _ IH]; intros n Hn; [exists n; split; [simpl; lia|done]|].
  destruct (perform_reach _ _ _ _ _ _ _ Hn Hv E) as (m&Hm&Hr).
  destruct (IH m Hr) as (k&Hk&Hr'). exists k. split; [simpl; lia|done].
Qed.

(** Only a turn moves the timer, and by at least the interval. *)
Lemma runs_paced runInterval l acts l' : 0 ≤ runInterval → runs runInterval l acts l' →
  ∀ k t, turns acts !! k = Some t → due l + Z.of_nat k * runInterval ≤ startTime t.
Proof.
  intros Hi. induction 1 as [l|l a l' acts l'' Hv E _ IH]; intros k t Hk; [done|].
  destruct a as [u|ev|g]; simpl in E, Hv, Hk.
  - apply truncationLoop_Done in E as (_&_&_&_&_&E). destruct Hv as (_&Hs&Hr&_).
    destruct k as [|k]; simpl in Hk; [injection Hk as <-; lia|].
    specialize (IH k t Hk). rewrite E in IH. lia.
  - apply bind_Done in E as (s&_&[= <-]). by apply IH.
  - injection E as <-. by apply IH.
Qed.

(** The calls that wait are told one a turn. *)
Lemma runs_told runInterval l acts l' : runs runInterval l acts l' →
  ∀ p g, waiters l !! p = Some g → (p < length (turns acts))%nat → g ∈ (told l').*1.
Proof.
  assert (∀ l acts l', runs runInterval l acts l' → ∀ g, g ∈ (told l).*1 → g ∈ (told l').*1) as Hkeep.
  { induction 1 as [|l1 a l2 acts' l3 _ E _ IH]; [done|]. intros g Hg. apply IH.
    destruct a as [t|ev|g']; simpl in E.
    - apply truncationLoop_Done in E as (status&_&_&_&->&_). rewrite fmap_app. set_solver.
    - by apply bind_Done in E as (s&_&[= <-]).
    - by injection E as <-. }
  induction 1 as [l|l a l' acts l'' Hv E Hruns IH]; intros p g Hp Hlen; [simpl in Hlen; lia|].
  destruct a as [t|ev|g']; simpl in E, Hlen.
  - apply truncationLoop_Done in E as (status&_&_&Ew&Et&_).
    destruct (waiters l) as [|g0 gs]; [done|]. destruct p as [|p]; simpl in Hp.
    + injection Hp as ->. eapply Hkeep; [done|]. rewrite Et, fmap_app. set_solver.
    + apply (IH p); [by rewrite Ew|simpl in Hlen; lia].
  - apply bind_Done in E as (s&_&[= <-]). by apply (IH p).
  - injection E as <-. apply (IH p); [|done]. simpl. by apply lookup_app_l_Some.
Qed.

(** ** The loop *)


(** ** A run: two calls wait; of two envelopes one is removed, then nothing *)
Definition demo_started : loop := started 10 1000 3 0.
Definition demo_turn (q at_ : Z) (order : list (string * nat)) : turn :=
  mkTurn (λ _, q) order 60 at_ (at_ + 5) (at_ + 6).
Definition demo_acts : list action :=
  [Operation (EPut 50 (demo_log 7) "a"); Operation (EPut 51 (demo_log 8) "b"); Wait 1; Wait 2;
   Turn (demo_turn 1 1000 [("a"%string, 0%nat); ("b"%string, 1%nat)])].

Fixpoint run_all (runInterval : Z) (l : loop) (acts : list action) : option loop :=
  match acts with
  | [] => Some l
  | a :: acts =>
      if decide (valid_action l a) then
        match perform runInterval l a with Done l => run_all runInterval l acts | Panic => None end
      else None
  end.
Lemma run_all_runs runInterval l acts l' : run_all runInterval l acts = Some l' → runs runInterval l acts l'.
Proof.
  revert l. induction acts as [|a acts IH]; intros l; simpl; [intros [= <-]; constructor|].
  destruct (decide _); [|done]. destruct (perform _ _ _) eqn:E; [|done]. intros. econstructor; eauto.
Qed.

Definition demo_loop : loop := default demo_started (run_all 1000 demo_started demo_acts).

