(* ===== verification/Routing.v ===== *)
(** * Routing tables

    Models internal/routing/routing_table.go and internal/routing/static_lookup.go.
    The string hash ([xxhash.Sum64String]) and the jump consistent hash
    ([jmphash.Hasher]) are third-party code: they are parameters, with the range
    of the latter, which its documentation gives, as a hypothesis. *)

From S2P Require Import Prelude AvlTree.

(** ** RoutingTable *)
Record hostRange := mkHostRange { hostIndex : Z; start : Z; end_ : Z }.

Record RoutingTable := mkRoutingTable {
  addresses : gmap string Z;
  replicationFactor : Z;
  hasher_n : Z;
  table : list hostRange;
}.

(** [for i, addr := range addrs { addresses[addr] = i }], from the index [i]. *)
Fixpoint index_addresses (i : Z) (addrs : list string) (m : gmap string Z) : gmap string Z :=
  match addrs with
  | [] => m
  | addr :: addrs => index_addresses (i + 1) addrs (<[addr := i]> m)
  end.

Definition NewRoutingTable (addrs : list string) (replicationFactor : Z) :
    result string RoutingTable :=
  if replicationFactor =? 0 then Err "replication factor must be greater than 0"%string
  else if Z.of_nat (length addrs) <? replicationFactor then
    Err "replication factor cannot exceed number of available hosts"%string
  else Ok (mkRoutingTable (index_addresses 0 addrs ∅) replicationFactor
             (Z.of_nat (length addrs)) []).

(** Go's [%] on [int]: zero panics. *)
Definition go_rem (a b : Z) : outcome Z := if b =? 0 then Panic else Done (Z.rem a b).

Section RoutingTable.
Variable Sum64String : string → Z.
Variable Hash : Z → Z → Z.

Definition Lookup (t : RoutingTable) (item : string) : outcome (list Z) :=
  let hashValue := Sum64String item in
  let node := Hash (hasher_n t) hashValue in
  let rf := wrap64 (replicationFactor t) in
  result ← mapM (λ n, go_rem (wrap64 (node + wrap64 (n * rf))) (Z.of_nat (base.size (addresses t))))
             (seqZ 0 rf);
  Done (result ++ map hostIndex
    (filter (λ r, start r ≤ hashValue ∧ hashValue ≤ end_ r) (table t))).
End RoutingTable.

(** ** StaticLookup *)
Section StaticLookup.
Variable hash : string → Z.

(** The loop of [NewStaticLookup]: [n] routes are left, the next is [i]. *)
Fixpoint put_routes (x i : Z) (n : nat) (t : Tree Z) : outcome (Tree Z) :=
  match n with
  | O => Done t
  | S n => t ← Put t (wrapu64 (i * x)) i; put_routes x (i + 1) n t
  end.

Definition NewStaticLookup (numOfRoutes : Z) : outcome (Tree Z) :=
  if numOfRoutes <=? 0 then Panic
  else put_routes (MaxUint64 / numOfRoutes) 0 (Z.to_nat numOfRoutes) NewTree.

Definition StaticLookup_Lookup (t : Tree Z) (sourceID : string) : outcome Z :=
  '(_, v) ← must (entry (Floor t (hash sourceID)));
  Done (wrap64 v).
End StaticLookup.

(** ** Lemmas *)
Lemma size_index_addresses i addrs m :
  NoDup addrs → (∀ a, a ∈ addrs → m !! a = None) →
  Z.of_nat (base.size (index_addresses i addrs m)) = Z.of_nat (base.size m) + Z.of_nat (length addrs).
Proof.
  revert i m. induction addrs as [|a addrs IH]; intros i m Hnd Hm; simpl; [lia|].
  apply NoDup_cons in Hnd as [Ha Hnd]. rewrite IH; [|done|].
  - rewrite map_size_insert_None; [lia|]. apply Hm. left.
  - intros b Hb. rewrite lookup_insert_ne; [apply Hm; by right|]. by intros ->.
Qed.

(** Two replicas of an item meet when their distance times the factor is a
    multiple of the number of hosts. *)
Lemma replicas_meet N rf a i j :
  0 < N → ((a + i * rf) `mod` N = (a + j * rf) `mod` N ↔ (N | (j - i) * rf)).
Proof.
  intros HN. rewrite <- Z.mod_divide by lia.
  assert ((j - i) * rf = (a + j * rf) - (a + i * rf)) as E by lia. split; intros H.
  - rewrite E, Zminus_mod, H, Z.sub_diag. by rewrite Z.mod_0_l by lia.
  - replace (a + j * rf) with ((a + i * rf) + (j - i) * rf) by lia.
    rewrite (Zplus_mod (a + i * rf)), H, Z.add_0_r, Z.mod_mod by lia. done.
Qed.

Lemma replicas_NoDup N rf a :
  0 < rf ≤ N →
  NoDup ((λ n, (a + n * rf) `mod` N) <$> seqZ 0 rf) ↔ rf * Z.gcd N rf ≤ N.
Proof.
  intros HN. set (g := Z.gcd N rf).
  assert (0 < g) as Hg by (pose proof (Z.gcd_nonneg N rf);
    pose proof (Z.gcd_eq_0_l N rf); unfold g in *; lia).
  destruct (Z.gcd_divide_l N rf) as [p Hp], (Z.gcd_divide_r N rf) as [q Hq].
  fold g in Hp, Hq. split.
  - intros Hnd. destruct (Z.le_gt_cases (rf * g) N) as [|Hgt]; [done|exfalso].
    assert (0 < p < rf) as Hlt by nia.
    assert (0%nat = Z.to_nat p) as E; [|lia].
    eapply (NoDup_lookup _ 0%nat (Z.to_nat p) ((a + 0 * rf) `mod` N) Hnd);
      apply list_lookup_fmap_Some.
    + exists 0. split; [done|apply lookup_seqZ; lia].
    + exists p. split; [|apply lookup_seqZ; lia].
      apply replicas_meet; [lia|]. exists q. rewrite Hq at 1. rewrite Hp. lia.
  - intros Hle. apply NoDup_fmap_2_strong; [|apply NoDup_seqZ].
    assert (∀ i j, 0 ≤ i → i < j → j < rf →
      (a + i * rf) `mod` N = (a + j * rf) `mod` N → False) as Hinj.
    { intros i j Hi Hij Hj E. apply replicas_meet in E as [c Hc]; [|lia].
      assert ((p | (j - i) * q)) as Hd by (exists c; nia).
      assert (Z.gcd p q = 1) as Hco.
      { rewrite <- (Z.gcd_div_gcd N rf g) by (done || lia).
        f_equal; [rewrite Hp at 1|rewrite Hq at 1]; by rewrite Z.div_mul by lia. }
      rewrite Z.mul_comm in Hd. apply Z.gauss in Hd; [|done].
      apply Z.divide_pos_le in Hd; [|lia]. nia. }
    intros i j Hi%elem_of_seqZ Hj%elem_of_seqZ E.
    destruct (Z.lt_total i j) as [?|[?|?]]; [exfalso|done|exfalso].
    + by apply (Hinj i j); lia.
    + by apply (Hinj j i); lia.
Qed.

(** The entries of the routes [0 .. n-1]. *)
Definition route_entries (x : Z) (n : nat) : list (Z * Z) := (λ i, (i * x, i)) <$> seqZ 0 (Z.of_nat n).

Lemma put_routes_spec x i n t :
  0 < x → 0 ≤ i → (i + Z.of_nat n - 1) * x ≤ MaxUint64 → i + Z.of_nat n ≤ MaxInt64 →
  wf_tree t → contents t = route_entries x (Z.to_nat i) →
  ∃ t', put_routes x i n t = Done t' ∧ wf_tree t' ∧
    contents t' = route_entries x (Z.to_nat i + n).
Proof.
  intros Hx. revert i t. induction n as [|n IH]; intros i t Hi Hmax Hlen Ht Hc; simpl.
  { exists t. by rewrite Nat.add_0_r. }
  assert (0 ≤ i * x ≤ MaxUint64) as Hix by nia.
  replace (wrapu64 (i * x)) with (i * x)
    by (unfold wrapu64, MaxUint64 in *; symmetry; apply Z.mod_small; lia).
  destruct (Put_spec t (i * x) i Ht) as (t1&->&Ht1&Hc1).
  { rewrite Hc. unfold route_entries. rewrite length_fmap, length_seqZ. lia. }
  cbn [mbind outcome_bind].
  destruct (IH (i + 1) t1) as (t'&->&Ht'&Hc'); [lia|nia|lia|done| |].
  - rewrite Hc1, Hc. replace (Z.to_nat (i + 1)) with (S (Z.to_nat i)) by lia.
    unfold route_entries. rewrite Nat2Z.inj_succ, <- Z.add_1_r, seqZ_app, fmap_app by lia.
    rewrite <- (app_nil_r ((λ i, (i * x, i)) <$> seqZ 0 (Z.of_nat (Z.to_nat i)))) at 1.
    rewrite linsert_gt; simpl.
    + rewrite Z.add_0_l, Z2Nat.id by lia. done.
    + apply Forall_fmap, Forall_forall. intros j Hj%elem_of_seqZ. simpl. nia.
  - exists t'. split_and!; [done..|]. rewrite Hc'. f_equal. lia.
Qed.

Lemma filter_route_entries x n h :
  0 < x → 0 ≤ h →
  filter (λ p : Z * Z, p.1 ≤ h) (route_entries x n) =
  route_entries x (Z.to_nat (Z.min (h / x + 1) (Z.of_nat n))).
Proof.
  intros Hx Hh. pose proof (Z.div_pos h x Hh Hx).
  set (m := Z.min (h / x + 1) (Z.of_nat n)). unfold route_entries at 1.
  replace (Z.of_nat n) with (m + (Z.of_nat n - m)) by lia.
  rewrite seqZ_app, fmap_app, filter_app by lia.
  assert (∀ i, i * x ≤ h ↔ i ≤ h / x) as Hdiv.
  { intros i. split; intros Hi; [apply Z.div_le_lower_bound; lia|].
    pose proof (Z.mul_div_le h x Hx). nia. }
  rewrite filter_all, filter_none.
  - rewrite app_nil_r. unfold route_entries. by rewrite Z2Nat.id by lia.
  - intros p (i&->&Hi%elem_of_seqZ)%list_elem_of_fmap. simpl. rewrite Hdiv. lia.
  - intros p (i&->&Hi%elem_of_seqZ)%list_elem_of_fmap. simpl. rewrite Hdiv. lia.
Qed.

(** ** The contract of the routing tables *)
Section Contract.
Variable Sum64String : string → Z.
Variable Hash : Z → Z → Z.

(** What the documentation of [jmphash] promises of [NewHasher(n).Hash]. *)
Definition hash_in_range : Prop := ∀ n key, 0 < n → 0 ≤ Hash n key < n.

(** A routing table is built exactly when the replication factor is positive
    and at most the number of hosts; [Lookup] then returns, without a panic,
    one valid host index per replica, the hash's node first, the same ones each
    time.  The replicas are distinct hosts if and only if the factor times its
    greatest common divisor with the number of hosts is at most that number. *)
Theorem RoutingTable_lookup addrs rf item :
  hash_in_range → NoDup addrs → Z.of_nat (length addrs) < 2 ^ 31 → 0 ≤ rf →
  let N := Z.of_nat (length addrs) in
  if decide (rf = 0 ∨ N < rf) then ∃ err, NewRoutingTable addrs rf = Err err
  else ∃ t result, NewRoutingTable addrs rf = Ok t ∧
    Lookup Sum64String Hash t item = Done result ∧
    Z.of_nat (length result) = rf ∧ Forall (λ i, 0 ≤ i < N) result ∧
    head result = Some (Hash N (Sum64String item)) ∧
    (NoDup result ↔ rf * Z.gcd N rf ≤ N).
Proof.
  intros Hh Hnd HN Hrf N. unfold NewRoutingTable. fold N. case_decide as Hd.
  { destruct (Z.eqb_spec rf 0); [eauto|]. destruct (Z.ltb_spec N rf); [eauto|lia]. }
  destruct (Z.eqb_spec rf 0); [lia|]. destruct (Z.ltb_spec N rf); [lia|].
  pose proof (Hh N (Sum64String item)). set (a := Hash N (Sum64String item)) in *.
  exists (mkRoutingTable (index_addresses 0 addrs ∅) rf N []),
    ((λ n, (a + n * rf) `mod` N) <$> seqZ 0 rf). split; [done|]. split_and!.
  - unfold Lookup. cbn [replicationFactor addresses hasher_n table]. fold a.
    rewrite (wrap64_id rf) by (unfold int64_range, MinInt64, MaxInt64; lia).
    rewrite (mapM_Done _ (λ n, (a + n * rf) `mod` N)); [simpl; by rewrite app_nil_r|].
    intros n' Hn%elem_of_seqZ. unfold go_rem.
    rewrite size_index_addresses by (try done; intros; apply lookup_empty).
    rewrite map_size_empty. change (Z.of_nat 0 + _) with N.
    destruct (Z.eqb_spec N 0); [lia|]. f_equal. assert (0 ≤ n' * rf < 2 ^ 62) by nia.
    rewrite (wrap64_id (n' * rf)), wrap64_id by (unfold int64_range, MinInt64, MaxInt64; lia).
    apply Z.rem_mod_nonneg; lia.
  - rewrite length_fmap, length_seqZ. lia.
  - apply Forall_fmap, Forall_forall. intros i _. simpl. apply Z.mod_pos_bound. lia.
  - rewrite seqZ_cons by lia. simpl.
    rewrite Z.mul_0_l, Z.add_0_r, Z.mod_small by lia. done.
  - apply replicas_NoDup. lia.
Qed.

(** The static lookup divides the [uint64] hashes into [numOfRoutes] ranges
    of [MaxUint64 / numOfRoutes] hashes, the last one extended to the end. *)
Theorem StaticLookup_lookup (hash : string → Z) numOfRoutes :
  0 < numOfRoutes ≤ MaxInt64 → (∀ src, uint64_range (hash src)) →
  ∃ t, NewStaticLookup numOfRoutes = Done t ∧ wf_tree t ∧
    ∀ src, StaticLookup_Lookup hash t src =
      Done (Z.min (hash src / (MaxUint64 / numOfRoutes)) (numOfRoutes - 1)).
Proof.
  intros Hn Hh. unfold NewStaticLookup. destruct (Z.leb_spec numOfRoutes 0); [lia|].
  set (x := MaxUint64 / numOfRoutes).
  assert (0 < x) as Hx by (apply Z.div_str_pos; unfold MaxUint64, MaxInt64 in *; lia).
  assert (numOfRoutes * x ≤ MaxUint64) by (apply Z.mul_div_le; lia).
  destruct (put_routes_spec x 0 (Z.to_nat numOfRoutes) NewTree) as (t&->&Ht&Hc);
    [done|done|nia|lia|apply NewTree_wf|done|].
  exists t. split_and!; [done..|]. intros src. unfold StaticLookup_Lookup.
  specialize (Hh src). unfold uint64_range in Hh. simpl in Hc.
  rewrite Floor_spec, Hc, filter_route_entries by (done || lia).
  pose proof (Z.div_pos (hash src) x) as Hp. rewrite Z2Nat.id by lia.
  set (m := Z.min (hash src / x) (numOfRoutes - 1)).
  replace (Z.min (hash src / x + 1) numOfRoutes) with (m + 1) by lia.
  unfold route_entries. rewrite Z2Nat.id, seqZ_app, fmap_app by lia. simpl.
  rewrite last_snoc. simpl.
  f_equal. apply wrap64_id. unfold int64_range, MinInt64. lia.
Qed.
End Contract.

Lemma RoutingTable_lookup_witness :
  ∃ t result, NewRoutingTable ["a"; "b"; "c"; "d"] 3 = Ok t ∧
    Lookup (λ _, 7) (λ n key, key `mod` n) t "x" = Done result ∧
    Z.of_nat (length result) = 3 ∧ Forall (λ i, 0 ≤ i < 4) result ∧
    head result = Some 3 ∧ (NoDup result ↔ 3 * Z.gcd 4 3 ≤ 4).
Proof.
  apply (RoutingTable_lookup (λ _, 7) (λ n key, key `mod` n) ["a"; "b"; "c"; "d"] 3 "x").
  - intros n key Hn. by apply Z.mod_pos_bound.
  - apply (bool_decide_eq_true_1 _). by vm_compute.
  - simpl. lia.
  - lia.
Defined.

Lemma StaticLookup_lookup_witness :
  ∃ t, NewStaticLookup 4 = Done t ∧ wf_tree t ∧
    ∀ src, StaticLookup_Lookup (λ _, 9223372036854775806) t src =
      Done (Z.min (9223372036854775806 / (MaxUint64 / 4)) (4 - 1)).
Proof.
  apply (StaticLookup_lookup (λ _, 9223372036854775806) 4).
  - unfold MaxInt64. lia.
  - intros _. unfold uint64_range, MaxUint64. lia.
Defined.

(** Two hosts and two replicas: both replicas are the same host. *)
Fact replicas_collide :
  (t ← NewRoutingTable ["a"; "b"] 2; Ok (Lookup (λ _, 1) (λ n key, key `mod` n) t "x"))
  = Ok (Done [1; 1]).
Proof. done. Qed.
