(* ===== verification/Proxies.v ===== *)
(** * The gRPC services of a node: local reader and reverse proxies

    Models internal/routing/local_store_reader.go, ingress_reverse_proxy.go and
    egress_reverse_proxy.go.

    A client of another service (gRPC, or the in-process one) is an operation on
    a world [W] that may fail; the proxies thread the world through the calls
    they make, in the order they make them.  [LocalStoreReader] is written and
    proved against the interface [StoreReader] of the source; [StoreContract]
    is what a store promises, and the store of Store.v keeps it. *)

From stdpp Require Import pretty.
From S2P Require Import Prelude AvlTree Envelope ExpirationHeap Store StoreInv StoreTruncate StoreGet.

(** ** Errors and messages *)

(** An [error], with its [status.Code]: [Unknown] for a plain Go error. *)
Record error := mkError { err_code : Z; err_msg : string }.
Definition codes_Unknown : Z := 2.
Definition codes_Unavailable : Z := 14.
Definition Errorf (msg : string) : error := mkError codes_Unknown msg.

(** [Envelopes] is a pointer to a batch: [None] is nil. *)
Record SendRequest := mkSend { LocalOnly : bool; Envelopes : option (list Envelope) }.

Record ReadRequest := mkRead {
  Req_SourceId : string;
  Req_StartTime : Z;
  Req_EndTime : Z;
  Req_Limit : Z;
  Req_EnvelopeTypes : list EnvelopeType;
  Req_Descending : bool;
  Req_NameFilter : string;
}.

Definition set_EndTime (t : Z) (r : ReadRequest) : ReadRequest :=
  mkRead (Req_SourceId r) (Req_StartTime r) t (Req_Limit r) (Req_EnvelopeTypes r)
    (Req_Descending r) (Req_NameFilter r).
Definition set_Limit (n : Z) (r : ReadRequest) : ReadRequest :=
  mkRead (Req_SourceId r) (Req_StartTime r) (Req_EndTime r) n (Req_EnvelopeTypes r)
    (Req_Descending r) (Req_NameFilter r).

(** ** The local store reader *)
Class StoreReader (S : Type) := {
  store_Get : S → string → Z → Z → option (list EnvelopeType) → option (string → bool) →
    Z → bool → outcome (S * list Envelope);
  store_Meta : S → outcome (gmap string MetaInfo);
}.

#[export] Instance Store_StoreReader : StoreReader Store := {
  store_Get := Store.Get;
  store_Meta := Store.Meta;
}.

Section LocalStoreReader.
Context {S : Type} `{!StoreReader S}.
(** [regexp.Compile]: its error message or the matcher. *)
Variable Compile : string → result string (string → bool).

(** The three checks that open [Read]. *)
Definition validate (req : ReadRequest) : option error :=
  if negb (Req_EndTime req =? 0) && (Req_EndTime req <? Req_StartTime req) then
    Some (Errorf ("StartTime (" +:+ pretty (Req_StartTime req) +:+
      ") must be before EndTime (" +:+ pretty (Req_EndTime req) +:+ ")"))
  else if 1000 <? Req_Limit req then
    Some (Errorf ("Limit (" +:+ pretty (Req_Limit req) +:+ ") must be 1000 or less"))
  else if Req_Limit req <? 0 then
    Some (Errorf ("Limit (" +:+ pretty (Req_Limit req) +:+ ") must be greater than zero"))
  else None.

(** The defaults, written into the request. *)
Definition with_defaults (now : Z) (req : ReadRequest) : ReadRequest :=
  let req := if Req_EndTime req =? 0 then set_EndTime now req else req in
  if Req_Limit req =? 0 then set_Limit 100 req else req.

Definition compile_filter (req : ReadRequest) : result error (option (string → bool)) :=
  if decide (Req_NameFilter req = "") then Ok None
  else match Compile (Req_NameFilter req) with
       | Ok m => Ok (Some m)
       | Err e => Err (Errorf ("Name filter must be a valid regular expression: " +:+ e))
       end.

(** [append] on a nil slice: no requested type leaves nil. *)
Definition wanted_types (req : ReadRequest) : option (list EnvelopeType) :=
  match filter (λ t, t ≠ EnvelopeType_ANY) (Req_EnvelopeTypes req) with
  | [] => None
  | types => Some types
  end.

(** [Read]: the store, the request as it was left, and the response. *)
Definition LocalStoreReader_Read (s : S) (now : Z) (req : ReadRequest) :
    outcome (S * ReadRequest * result error (list Envelope)) :=
  match validate req with
  | Some e => Done (s, req, Err e)
  | None =>
      let req := with_defaults now req in
      match compile_filter req with
      | Err e => Done (s, req, Err e)
      | Ok nameFilter =>
          '(s, envs) ← store_Get s (Req_SourceId req) (Req_StartTime req) (Req_EndTime req)
                         (wanted_types req) nameFilter (Req_Limit req) (Req_Descending req);
          Done (s, req, Ok envs)
      end
  end.

Definition LocalStoreReader_Meta (s : S) : outcome (gmap string MetaInfo) :=
  sourceIds ← store_Meta s;
  Done (fmap (M := gmap string)
    (λ m, mkMetaInfo (Count m) (Expired m) (OldestTimestamp m) (NewestTimestamp m)) sourceIds).
End LocalStoreReader.

(** ** The ingress reverse proxy *)
Section Ingress.
Context {W : Type}.
Variable client_Send : Z → SendRequest → W → outcome (W * result error unit).
(** The number of clients. *)
Variable clients : Z.
Variable l : string → list Z.
Variable localIdx : Z.

(** [p.clients[idx].Send(ctx, r)]. *)
Definition call_Send (idx : Z) (r : SendRequest) (w : W) : outcome (W * result error unit) :=
  if (0 <=? idx) && (idx <? clients) then client_Send idx r w else Panic.

Definition add_envelope (e : Envelope) (m : gmap Z (list Envelope)) (idx : Z) :
    gmap Z (list Envelope) :=
  <[idx := default [] (m !! idx) ++ [e]]> m.

Definition envelopesByNode (batch : list Envelope) : gmap Z (list Envelope) :=
  foldl (λ m e, foldl (add_envelope e) m (l (Envelope.SourceId e))) ∅ batch.

(** The [range] over the map visits [order]; a failed call is only logged. *)
Fixpoint send_all (m : gmap Z (list Envelope)) (order : list Z) (w : W) : outcome W :=
  match order with
  | [] => Done w
  | idx :: order =>
      '(w, _) ← call_Send idx (mkSend true (Some (default [] (m !! idx)))) w;
      send_all m order w
  end.

Definition IngressReverseProxy_Send (r : SendRequest) (order : list Z) (w : W) :
    outcome (W * result error unit) :=
  if LocalOnly r then call_Send localIdx r w
  else
    batch ← must (Envelopes r);
    w ← send_all (envelopesByNode batch) order w;
    Done (w, Ok tt).
End Ingress.

(** ** The egress reverse proxy *)
Record metaCache := mkCache {
  duration : Z;
  timestamp : Z;
  metaResp : gmap string MetaInfo;
}.

Record EgressReverseProxy := mkEgress {
  remoteMetaCache : option metaCache;
  localMetaCache : option metaCache;
  metaCacheDuration : Z;
}.

Definition EgressReverseProxyOption := EgressReverseProxy → EgressReverseProxy.
Definition WithMetaCacheDuration (d : Z) : EgressReverseProxyOption := λ e,
  mkEgress (remoteMetaCache e) (localMetaCache e) d.

(** The duration is a second by default. *)
Definition NewEgressReverseProxy (opts : list EgressReverseProxyOption) : EgressReverseProxy :=
  foldl (λ e o, o e) (mkEgress None None 1000000000) opts.

Definition expired (now : Z) (c : option metaCache) : bool :=
  match c with None => true | Some c => timestamp c + duration c <? now end.

Section Egress.
Context {W : Type}.
Variable client_Read : Z → ReadRequest → W → outcome (W * result error (list Envelope)).
Variable client_Meta : Z → bool → W → outcome (W * result error (gmap string MetaInfo)).
Variable clients : Z.
Variable l : string → list Z.
Variable localIdx : Z.

Definition call_Read (idx : Z) (r : ReadRequest) (w : W) :
    outcome (W * result error (list Envelope)) :=
  if (0 <=? idx) && (idx <? clients) then client_Read idx r w else Panic.
Definition call_Meta (idx : Z) (local : bool) (w : W) :
    outcome (W * result error (gmap string MetaInfo)) :=
  if (0 <=? idx) && (idx <? clients) then client_Meta idx local w else Panic.

(** [rand] is what [rand.Int(rand.Reader, len(idx))] returns. *)
Definition remoteRead (rand : result error nat) (idx : list Z) (in_ : ReadRequest) (w : W) :
    outcome (W * result error (list Envelope)) :=
  match rand with
  | Err e => Done (w, Err e)
  | Ok n =>
      i ← must (idx !! n);
      '(w, response) ← call_Read i in_ w;
      match response with
      | Err e => if err_code e =? codes_Unavailable then Done (w, Ok []) else Done (w, Err e)
      | Ok r => Done (w, Ok r)
      end
  end.

Definition EgressReverseProxy_Read (rand : result error nat) (in_ : ReadRequest) (w : W) :
    outcome (W * result error (list Envelope)) :=
  let idx := l (Req_SourceId in_) in
  if decide (idx = []) then
    Done (w, Err (mkError codes_Unavailable
      "failed to find route for request. please try again"))
  else if decide (localIdx ∈ idx) then call_Read localIdx in_ w
  else remoteRead rand idx in_ w.

(** The response of a cache that has not expired. *)
Definition fresh_response (now : Z) (c : option metaCache) : option (gmap string MetaInfo) :=
  if expired now c then None else metaResp <$> c.

(** [now] and [now'] are the readings of the clock in [expired] and in the new
    cache entry. *)
Definition localMeta (now now' : Z) (local : bool) (e : EgressReverseProxy) (w : W) :
    outcome (W * EgressReverseProxy * result error (gmap string MetaInfo)) :=
  match fresh_response now (localMetaCache e) with
  | Some m => Done (w, e, Ok m)
  | None =>
      '(w, r) ← call_Meta localIdx local w;
      match r with
      | Err err => Done (w, e, Err err)
      | Ok metaInfo =>
          Done (w, mkEgress (remoteMetaCache e)
                  (Some (mkCache (metaCacheDuration e) now' metaInfo)) (metaCacheDuration e),
                Ok metaInfo)
      end
  end.

(** The loop over the clients: the merged reports and the number of errors. *)
Fixpoint gather_meta (cs : list Z) (w : W) (m : gmap string MetaInfo) (errs : Z) :
    outcome (W * gmap string MetaInfo * Z) :=
  match cs with
  | [] => Done (w, m, errs)
  | c :: cs =>
      '(w, resp) ← call_Meta c true w;
      match resp with
      | Err _ => gather_meta cs w m (errs + 1)
      | Ok r => gather_meta cs w (r ∪ m) errs
      end
  end.

Definition remoteMeta (now now' : Z) (e : EgressReverseProxy) (w : W) :
    outcome (W * EgressReverseProxy * result error (gmap string MetaInfo)) :=
  match fresh_response now (remoteMetaCache e) with
  | Some m => Done (w, e, Ok m)
  | None =>
      '(w, result, errs) ← gather_meta (seqZ 0 clients) w ∅ 0;
      if errs =? clients then
        Done (w, e, Err (Errorf "failed to read meta data from remote node"))
      else
        Done (w, mkEgress (Some (mkCache (metaCacheDuration e) now' result))
                (localMetaCache e) (metaCacheDuration e), Ok result)
  end.

Definition EgressReverseProxy_Meta (now now' : Z) (local : bool) (e : EgressReverseProxy)
    (w : W) : outcome (W * EgressReverseProxy * result error (gmap string MetaInfo)) :=
  if local then localMeta now now' local e w else remoteMeta now now' e w.
End Egress.

(** ** The contract of a store, and the local reader against it *)
Class StoreContract (S : Type) `{!StoreReader S} := {
  ready : S → Prop;
  content : S → string → list (Z * Envelope);
  contract_sorted s src : ready s → ksorted (content s src);
  contract_sublist s src start end_ types nf limit desc :
    ready s → known_types types →
    ∃ s' res, store_Get s src start end_ types nf limit desc = Done (s', res) ∧
      ready s' ∧ content s' = content s ∧
      res `sublist_of` in_order desc (answer nf types start end_ (content s src));
  contract_take s src start end_ types nf limit desc :
    ready s → known_types types → no_fudge (content s src) → 1 ≤ limit →
    ∃ s', store_Get s src start end_ types nf limit desc =
      Done (s', take (Z.to_nat limit)
        (in_order desc (answer nf types start end_ (content s src))));
}.

#[export, refine] Instance Store_contract : StoreContract Store := {
  ready := wf_store;
  content s := entries (abs s);
}.
Proof.
  - intros s src Hwf. exact (wf_store_sorted s Hwf src).
  - intros s src start end_ types nf limit desc Hwf Hk.
    destruct (Get_sublist s src start end_ types nf limit desc Hwf Hk) as (res&E&Hs).
    exists (counted_egress res s), res. split_and!; try done. split; apply Hwf.
  - intros. eexists. by eapply Get_take.
Defined.

Section LocalReader.
Context {S : Type} `{!StoreReader S} `{!StoreContract S}.
Variable Compile : string → result string (string → bool).

Lemma validate_None req :
  validate req = None ↔
  (Req_EndTime req = 0 ∨ Req_StartTime req ≤ Req_EndTime req) ∧ 0 ≤ Req_Limit req ≤ 1000.
Proof.
  unfold validate.
  destruct (Z.eqb_spec (Req_EndTime req) 0), (Z.ltb_spec (Req_EndTime req) (Req_StartTime req)),
    (Z.ltb_spec 1000 (Req_Limit req)), (Z.ltb_spec (Req_Limit req) 0); simpl;
    (split; [intros ?|intros [[?|?] ?]]); try done; lia.
Qed.

Lemma wanted_types_spec req e :
  type_matches (wanted_types req) e = true ↔
  (∀ t, t ∈ Req_EnvelopeTypes req → t = EnvelopeType_ANY) ∨
  (∃ t, t ∈ Req_EnvelopeTypes req ∧ t ≠ EnvelopeType_ANY ∧ has_type e t = true).
Proof.
  unfold wanted_types. destruct (filter _ _) as [|t0 ts] eqn:E; simpl.
  - split; [intros _; left|done]. intros t Ht.
    destruct (decide (t = EnvelopeType_ANY)); [done|]. exfalso.
    assert (t ∈ filter (λ t, t ≠ EnvelopeType_ANY) (Req_EnvelopeTypes req)) as Hin
      by by apply list_elem_of_filter.
    rewrite E in Hin. by apply not_elem_of_nil in Hin.
  - change (has_type e t0 || existsb (has_type e) ts) with (existsb (has_type e) (t0 :: ts)).
    rewrite existsb_exists, <- E. setoid_rewrite <- list_elem_of_In.
    setoid_rewrite list_elem_of_filter. split.
    + intros (t&[??]&?). right. eauto.
    + intros [Hall|(t&?&?&?)]; [|eauto]. exfalso.
      assert (t0 ∈ filter (λ t, t ≠ EnvelopeType_ANY) (Req_EnvelopeTypes req)) as Hin
        by (rewrite E; left).
      apply list_elem_of_filter in Hin as [Hne Hin]. by apply Hne, Hall.
Qed.

Lemma with_defaults_limit now req :
  0 ≤ Req_Limit req ≤ 1000 → 1 ≤ Req_Limit (with_defaults now req) ≤ 1000.
Proof.
  intros H. unfold with_defaults. destruct (Req_EndTime req =? 0); simpl;
    destruct (Z.eqb_spec (Req_Limit req) 0); simpl; lia.
Qed.

Lemma with_defaults_types now req :
  Req_EnvelopeTypes (with_defaults now req) = Req_EnvelopeTypes req.
Proof.
  unfold with_defaults. destruct (Req_EndTime req =? 0); simpl; by destruct (_ =? _).
Qed.

Lemma wanted_known req :
  known_types (Some (Req_EnvelopeTypes req)) → known_types (wanted_types req).
Proof.
  simpl. unfold wanted_types. intros Hk.
  assert (Forall (λ t, ∀ n, t ≠ EnvelopeType_other n)
    (filter (λ t, t ≠ EnvelopeType_ANY) (Req_EnvelopeTypes req))) as Hf
    by (apply Forall_forall; intros t [_ Ht]%list_elem_of_filter;
        by rewrite Forall_forall in Hk; apply Hk).
  destruct (filter _ _); done.
Qed.

(** A valid request with a filter that compiles. *)
Lemma local_read (s : S) now req nf :
  let req' := with_defaults now req in
  ready s → known_types (Some (Req_EnvelopeTypes req)) →
  (Req_EndTime req = 0 ∨ Req_StartTime req ≤ Req_EndTime req) → 0 ≤ Req_Limit req ≤ 1000 →
  compile_filter Compile req' = Ok nf →
  let full := in_order (Req_Descending req') (answer nf (wanted_types req')
    (Req_StartTime req') (Req_EndTime req') (content s (Req_SourceId req'))) in
  ∃ s' res, LocalStoreReader_Read Compile s now req = Done (s', req', Ok res) ∧
    ready s' ∧ content s' = content s ∧ 1 ≤ Req_Limit req' ≤ 1000 ∧ res `sublist_of` full ∧
    (no_fudge (content s (Req_SourceId req')) → res = take (Z.to_nat (Req_Limit req')) full).
Proof.
  intros req' Hr Hk Htime Hlimit Hnf full. unfold LocalStoreReader_Read.
  rewrite (proj2 (validate_None req) (conj Htime Hlimit)). fold req'. rewrite Hnf.
  assert (known_types (wanted_types req')) as Hk'
    by (apply wanted_known; unfold req'; by rewrite with_defaults_types).
  pose proof (with_defaults_limit now req Hlimit) as Hlim. fold req' in Hlim.
  destruct (contract_sublist s (Req_SourceId req') (Req_StartTime req') (Req_EndTime req')
    (wanted_types req') nf (Req_Limit req') (Req_Descending req') Hr Hk')
    as (s'&res&E&Hr'&Hc&Hsub).
  rewrite E. exists s', res. do 5 (split; [done|]). intros Hn.
  destruct (contract_take s (Req_SourceId req') (Req_StartTime req') (Req_EndTime req')
    (wanted_types req') nf (Req_Limit req') (Req_Descending req') Hr Hk' Hn)
    as (s''&E'); [lia|]. unfold full; congruence.
Qed.

End LocalReader.

(** ** The ingress proxy *)

(** The envelopes of a batch a node receives, in the order of the batch; once
    for each time the lookup names the node. *)
Definition envelopes_for (l : string → list Z) (idx : Z) (batch : list Envelope) : list Envelope :=
  batch ≫= λ e, replicate (length (filter (eq idx) (l (Envelope.SourceId e)))) e.

Lemma add_envelopes_lookup e ids m idx :
  default [] (foldl (add_envelope e) m ids !! idx) =
  default [] (m !! idx) ++ replicate (length (filter (eq idx) ids)) e.
Proof.
  revert m. induction ids as [|i ids IH]; intros m; simpl; [by rewrite app_nil_r|].
  rewrite IH. unfold add_envelope. rewrite lookup_insert, filter_cons.
  destruct (decide (i = idx)) as [->|Hne].
  - rewrite (decide_True (P := idx = idx)) by done. simpl. by rewrite <- app_assoc.
  - by rewrite (decide_False (P := idx = i)) by congruence.
Qed.

Lemma envelopesByNode_lookup l batch idx :
  default [] (envelopesByNode l batch !! idx) = envelopes_for l idx batch.
Proof.
  unfold envelopesByNode, envelopes_for.
  assert (∀ m : gmap Z (list Envelope), default [] (foldl (λ m e, foldl (add_envelope e) m
    (l (Envelope.SourceId e))) m batch !! idx) = default [] (m !! idx) ++
    (batch ≫= λ e, replicate (length (filter (eq idx) (l (Envelope.SourceId e)))) e)) as H.
  { induction batch as [|e batch IH]; intros m; simpl; [by rewrite app_nil_r|].
    rewrite IH, add_envelopes_lookup. by rewrite app_assoc. }
  rewrite H. by rewrite lookup_empty.
Qed.

Lemma elem_of_envelopes_for l idx batch e :
  e ∈ envelopes_for l idx batch ↔ e ∈ batch ∧ idx ∈ l (Envelope.SourceId e).
Proof.
  unfold envelopes_for. rewrite list_elem_of_bind. split.
  - intros (e'&He%elem_of_replicate&Hin). destruct He as [-> Hn]. split; [done|].
    destruct (filter (eq idx) _) as [|i ids] eqn:E; [done|].
    assert (i ∈ filter (eq idx) (l (Envelope.SourceId e'))) as Hi by (rewrite E; left).
    by apply list_elem_of_filter in Hi as [-> ?].
  - intros [Hin Hi]. exists e. split; [|done]. apply elem_of_replicate. split; [done|].
    assert (idx ∈ filter (eq idx) (l (Envelope.SourceId e))) as Hf
      by by apply list_elem_of_filter.
    by destruct (filter _ _); [apply not_elem_of_nil in Hf|].
Qed.

Lemma envelopesByNode_nonempty l batch :
  map_Forall (λ _ v, v ≠ []) (envelopesByNode l batch).
Proof.
  unfold envelopesByNode. assert (∀ e ids (m : gmap Z (list Envelope)),
    map_Forall (λ _ v, v ≠ []) m → map_Forall (λ _ v, v ≠ []) (foldl (add_envelope e) m ids)) as H.
  { intros e ids. induction ids as [|i ids IH]; intros m Hm; simpl; [done|].
    apply IH. apply map_Forall_insert_2; [by destruct (default [] _)|done]. }
  assert (∀ m : gmap Z (list Envelope), map_Forall (λ _ v, v ≠ []) m →
    map_Forall (λ _ v, v ≠ []) (foldl (λ m e, foldl (add_envelope e) m
      (l (Envelope.SourceId e))) m batch)) as H'.
  { induction batch as [|e batch IH]; intros m Hm; simpl; auto. }
  apply H', map_Forall_empty.
Qed.

(** The nodes of the map are those some envelope is routed to. *)
Lemma envelopesByNode_keys l batch idx :
  idx ∈ (map_to_list (envelopesByNode l batch)).*1 →
  ∃ e, e ∈ batch ∧ idx ∈ l (Envelope.SourceId e).
Proof.
  intros ([i v]&->&Hv%elem_of_map_to_list)%list_elem_of_fmap. simpl.
  pose proof (envelopesByNode_nonempty l batch i v Hv) as Hne.
  pose proof (envelopesByNode_lookup l batch i) as E. rewrite Hv in E. simpl in E.
  destruct v as [|e v]; [done|]. exists e. apply elem_of_envelopes_for. rewrite <- E. left.
Qed.

Section IngressSpec.
Context {W : Type} (client_Send : Z → SendRequest → W → outcome (W * result error unit)).
Context (clients localIdx : Z) (l : string → list Z).
(** The calls a world has seen; every call completes and is seen. *)
Context (log : W → list (Z * SendRequest)).
Hypothesis Send_logged : ∀ idx r w, ∃ w' res,
  client_Send idx r w = Done (w', res) ∧ log w' = log w ++ [(idx, r)].

Lemma send_all_spec m order w :
  Forall (λ idx, 0 ≤ idx < clients) order →
  ∃ w', send_all client_Send clients m order w = Done w' ∧
    log w' = log w ++ ((λ idx, (idx, mkSend true (Some (default [] (m !! idx))))) <$> order).
Proof.
  intros Ho. revert w. induction Ho as [|idx order Hi _ IH]; intros w; simpl.
  { exists w. by rewrite app_nil_r. }
  unfold call_Send. rewrite (proj2 (Z.leb_le 0 idx)), (proj2 (Z.ltb_lt idx clients)) by lia.
  simpl. destruct (Send_logged idx (mkSend true (Some (default [] (m !! idx)))) w)
    as (w1&res&->&Hl). simpl.
  destruct (IH w1) as (w'&->&Hl'). exists w'. split; [done|].
  by rewrite Hl', Hl, <- app_assoc.
Qed.

(** A batch that is not local is split by the lookup: each node some
    envelope is routed to gets one request, marked local-only, with exactly the
    envelopes routed to it, in the order of the batch; the call succeeds even
    if a node refuses its part. *)
Theorem IngressReverseProxy_routes batch order w :
  (∀ e idx, e ∈ batch → idx ∈ l (Envelope.SourceId e) → 0 ≤ idx < clients) →
  order ≡ₚ (map_to_list (envelopesByNode l batch)).*1 →
  ∃ w', IngressReverseProxy_Send client_Send clients l localIdx (mkSend false (Some batch))
          order w = Done (w', Ok tt) ∧
    log w' = log w ++ ((λ idx, (idx, mkSend true (Some (envelopes_for l idx batch)))) <$> order) ∧
    NoDup order ∧
    (∀ idx e, e ∈ envelopes_for l idx batch ↔ e ∈ batch ∧ idx ∈ l (Envelope.SourceId e)).
Proof.
  intros Hr Ho. unfold IngressReverseProxy_Send. simpl.
  destruct (send_all_spec (envelopesByNode l batch) order w) as (w'&->&Hl).
  - apply Forall_forall. intros idx Hi. rewrite Ho in Hi.
    apply envelopesByNode_keys in Hi as (e&?&?). eauto.
  - exists w'. simpl. split_and!; [done| | |intros; apply elem_of_envelopes_for].
    + rewrite Hl. f_equal. apply list_fmap_ext. intros i idx _.
      by rewrite envelopesByNode_lookup.
    + rewrite Ho. apply NoDup_fst_map_to_list.
Qed.
End IngressSpec.

Lemma IngressReverseProxy_routes_witness :
  let e s := mkEnvelope 1 s "" ∅ ∅ None in
  let l s := if decide (s = "a"%string) then [0] else [1] in
  let send := λ idx r w, Done (w ++ [(idx, r)], Err (Errorf "refused")) in
  let batch := [e "a"; e "b"; e "a"]%string in
  ∃ w', IngressReverseProxy_Send send 2 l 0 (mkSend false (Some batch)) [1; 0] [] = Done (w', Ok tt) ∧
    w' = [] ++ ((λ idx, (idx, mkSend true (Some (envelopes_for l idx batch)))) <$> [1; 0]) ∧
    NoDup [1; 0] ∧
    (∀ idx e, e ∈ envelopes_for l idx batch ↔ e ∈ batch ∧ idx ∈ l (Envelope.SourceId e)).
Proof.
  intros e l send batch.
  apply (IngressReverseProxy_routes send 2 0 l (λ w, w) (λ idx r w, ex_intro _ _ (ex_intro _ _
    (conj eq_refl eq_refl))) batch [1; 0] []).
  - intros e' idx _. unfold l. destruct (decide _); intros Hi;
      apply list_elem_of_singleton in Hi as ->; lia.
  - by vm_compute.
Defined.

(** A request without a batch: the code follows a nil pointer. *)
Fact IngressReverseProxy_nil_batch {W} (send : Z → SendRequest → W → _) clients l localIdx order w :
  IngressReverseProxy_Send send clients l localIdx (mkSend false None) order w = Panic.
Proof. done. Qed.

(** The store of the witness: one envelope of the source ["a"]. *)
Definition one_store : Store :=
  match Store.Put (NewStore 4 3) 9 (mkEnvelope 5 "a" "0" ∅ ∅ (Some (Envelope_Log (mkLog "m" Log_OUT)))) "a"
  with Done s => s | Panic => NewStore 4 3 end.

Lemma one_store_wf : wf_store one_store.
Proof.
  assert (wf_store (NewStore 4 3)) as Hwf.
  { split; simpl; [by intros ?? ?%lookup_empty_Some| |unfold MaxInt64; lia].
    intros loc [? ?%lookup_empty_Some]. done. }
  destruct (Put_ok _ 9 (mkEnvelope 5 "a" "0" ∅ ∅ (Some (Envelope_Log (mkLog "m" Log_OUT)))) "a" Hwf)
    as (s'&E&Hs&_). unfold one_store. by rewrite E.
Qed.


(** ** The egress proxy *)
Section EgressSpec.
Context {W : Type}.
Context (client_Read : Z → ReadRequest → W → outcome (W * result error (list Envelope))).
Context (clients localIdx : Z) (l : string → list Z).

(** A read whose source is routed to the local node is the local read; a
    read routed elsewhere is one read on one of the routed nodes, where an
    unavailable node makes an empty answer and any other answer or error is
    passed on; a source routed nowhere is [Unavailable]. *)
Theorem EgressReverseProxy_Read_routes n req w :
  let idx := l (Req_SourceId req) in
  (∀ i, i ∈ idx → 0 ≤ i < clients) → (n < length idx)%nat →
  let read := EgressReverseProxy_Read client_Read clients l localIdx (Ok n) req w in
  if decide (localIdx ∈ idx) then read = client_Read localIdx req w
  else ∃ i, i ∈ idx ∧ read =
    ('(w, response) ← client_Read i req w;
     Done (w, match response with
              | Ok r => Ok r
              | Err e => if err_code e =? codes_Unavailable then Ok [] else Err e
              end)).
Proof.
  intros idx Hr Hn read. unfold read, EgressReverseProxy_Read. fold idx.
  assert (∀ i, i ∈ idx → call_Read client_Read clients i req w = client_Read i req w) as Hcall.
  { intros i Hi. unfold call_Read. destruct (Hr i Hi).
    by rewrite (proj2 (Z.leb_le 0 i)), (proj2 (Z.ltb_lt i clients)). }
  rewrite (decide_False (P := idx = [])) by (intros E; rewrite E in Hn; simpl in Hn; lia).
  destruct (decide (localIdx ∈ idx)) as [Hl|Hl]; [by apply Hcall|].
  destruct (lookup_lt_is_Some_2 idx n Hn) as [i Hi]. exists i.
  pose proof (list_elem_of_lookup_2 _ _ _ Hi) as Hin. split; [done|].
  unfold remoteRead. rewrite Hi. simpl. rewrite Hcall by done.
  destruct (client_Read i req w) as [[w' [r|e]]|]; simpl; [done| |done].
  by destruct (err_code e =? codes_Unavailable).
Qed.
End EgressSpec.

Lemma EgressReverseProxy_Read_routes_witness :
  let down := λ (_ : Z) (_ : ReadRequest) (w : nat),
    Done (S w, Err (mkError codes_Unavailable "down")) in
  let req := mkRead "a" 0 0 0 [] false "" in
  ∃ i, i ∈ [2; 1] ∧
    EgressReverseProxy_Read down 3 (λ _, [2; 1]) 0 (Ok 1%nat) req 5%nat =
    ('(w, response) ← down i req 5%nat;
     Done (w, match response with
              | Ok r => Ok r
              | Err e => if err_code e =? codes_Unavailable then Ok [] else Err e
              end)).
Proof.
  intros down req.
  apply (EgressReverseProxy_Read_routes down 3 0 (λ _, [2; 1]) 1 req 5%nat).
  - intros i Hi. apply list_elem_of_In in Hi. simpl in Hi. lia.
  - simpl. lia.
Defined.

Section MetaSpec.
Context {W : Type}.
Context (client_Meta : Z → bool → W → outcome (W * result error (gmap string MetaInfo))).
Context (clients localIdx : Z).
(** The requests a world has seen, and what the clients reply. *)
Context (log : W → list (Z * bool)) (reply : Z → result error (gmap string MetaInfo)).
Hypothesis Meta_logged : ∀ i b w, ∃ w',
  client_Meta i b w = Done (w', reply i) ∧ log w' = log w ++ [(i, b)].

(** The reports of the clients that replied, the later ones over the earlier. *)
Definition merged (cs : list Z) : gmap string MetaInfo :=
  foldl (λ m i, match reply i with Ok r => r ∪ m | Err _ => m end) ∅ cs.

Definition failures (cs : list Z) : Z :=
  Z.of_nat (length (filter (λ i, failed (reply i) = true) cs)).

Lemma gather_meta_spec cs w m errs :
  Forall (λ i, 0 ≤ i < clients) cs →
  ∃ w', gather_meta client_Meta clients cs w m errs =
    Done (w', foldl (λ m i, match reply i with Ok r => r ∪ m | Err _ => m end) m cs,
          errs + failures cs) ∧
    log w' = log w ++ ((λ i, (i, true)) <$> cs).
Proof.
  intros Hc. revert w m errs. induction Hc as [|i cs Hi _ IH]; intros w m errs; simpl.
  { exists w. by rewrite Z.add_0_r, app_nil_r. }
  unfold call_Meta. rewrite (proj2 (Z.leb_le 0 i)), (proj2 (Z.ltb_lt i clients)) by lia. simpl.
  destruct (Meta_logged i true w) as (w1&->&Hl). simpl.
  unfold failures. rewrite filter_cons. destruct (reply i) as [r|e] eqn:Er.
  - destruct (IH w1 (r ∪ m) errs) as (w'&->&Hl'). exists w'.
    rewrite decide_False by done. split; [done|]. by rewrite Hl', Hl, <- app_assoc.
  - destruct (IH w1 m (errs + 1)) as (w'&->&Hl'). exists w'.
    rewrite decide_True by done. split; [|by rewrite Hl', Hl, <- app_assoc].
    do 2 f_equal. simpl. unfold failures. lia.
Qed.

(** A cluster-wide metadata request within the cache's duration makes no
    call and gives the cached report; otherwise every client is asked once, in
    order, for its local report, and the request fails only when all clients
    do, in which case the caches are left alone; otherwise it gives the merged
    reports, and gives them again without a call as long as the new cache
    lasts. *)
Theorem EgressReverseProxy_Meta_cached now now' later e w :
  0 ≤ clients → now' ≤ later ≤ now' + metaCacheDuration e →
  let meta := EgressReverseProxy_Meta client_Meta clients localIdx in
  match fresh_response now (remoteMetaCache e) with
  | Some m => meta now now' false e w = Done (w, e, Ok m)
  | None => ∃ w', log w' = log w ++ ((λ i, (i, true)) <$> seqZ 0 clients) ∧
      if decide (failures (seqZ 0 clients) = clients)
      then ∃ err, meta now now' false e w = Done (w', e, Err err)
      else ∃ e', meta now now' false e w = Done (w', e', Ok (merged (seqZ 0 clients))) ∧
        localMetaCache e' = localMetaCache e ∧
        ∀ w'', meta later later false e' w'' = Done (w'', e', Ok (merged (seqZ 0 clients)))
  end.
Proof.
  intros Hc Hlater meta. unfold meta, EgressReverseProxy_Meta, remoteMeta.
  destruct (fresh_response now (remoteMetaCache e)) as [m|] eqn:Ef; [done|].
  destruct (gather_meta_spec (seqZ 0 clients) w ∅ 0) as (w'&->&Hl).
  { apply Forall_forall. intros i Hi%elem_of_seqZ. lia. }
  exists w'. split; [done|]. cbn [mbind outcome_bind]. rewrite Z.add_0_l.
  destruct (decide _) as [E|E].
  - rewrite (proj2 (Z.eqb_eq _ _) E). eauto.
  - rewrite (proj2 (Z.eqb_neq _ _) E). eexists. split; [done|]. split; [done|].
    intros w''. unfold fresh_response, expired. simpl.
    destruct (Z.ltb_spec (now' + metaCacheDuration e) later); [lia|done].
Qed.

(** A source is in the merged report with the entry of the last client that has it. *)
Lemma merged_last cs1 i cs2 r src mi :
  reply i = Ok r → r !! src = Some mi →
  (∀ j r', j ∈ cs2 → reply j = Ok r' → r' !! src = None) →
  merged (cs1 ++ i :: cs2) !! src = Some mi.
Proof.
  intros Hi Hsrc Hlast. unfold merged. rewrite foldl_app. simpl. rewrite Hi.
  set (m := foldl _ ∅ cs1). clearbody m.
  assert ((r ∪ m) !! src = Some mi) as Hm by by apply lookup_union_Some_l.
  revert Hm. generalize (r ∪ m). clear m. revert Hlast.
  induction cs2 as [|j cs2 IH]; intros Hlast m Hm; simpl; [done|].
  apply IH; [intros; eapply Hlast; [by right|done]|].
  destruct (reply j) as [r'|] eqn:Ej; [|done].
  rewrite lookup_union_r; [done|]. eapply Hlast; [left|done].
Qed.
End MetaSpec.

Lemma EgressReverseProxy_Meta_cached_witness :
  let reply := λ i : Z, if i =? 0 then Err (Errorf "down") else Ok {[ "a"%string := mkMetaInfo 1 2 3 4 ]} in
  let client := λ (i : Z) (b : bool) w, Done (w ++ [(i, b)], reply i) in
  let meta := EgressReverseProxy_Meta client 2 0 in
  ∃ w', w' = [] ++ ((λ i, (i, true)) <$> seqZ 0 2) ∧
    ∃ e', meta 10 11 false (NewEgressReverseProxy [WithMetaCacheDuration 5]) [] = Done (w', e', Ok (merged reply (seqZ 0 2))) ∧
      localMetaCache e' = None ∧
      ∀ w'', meta 16 16 false e' w'' = Done (w'', e', Ok (merged reply (seqZ 0 2))).
Proof.
  intros reply client meta.
  apply (EgressReverseProxy_Meta_cached client 2 0 (λ w, w) reply
    (λ i b w, ex_intro _ _ (conj eq_refl eq_refl)) 10 11 16 (NewEgressReverseProxy [WithMetaCacheDuration 5]) []).
  - lia.
  - simpl. lia.
Defined.
