(* ===== verification/GoStrings.v ===== *)
(** * Strings: the functions of Go's [strings] package the program uses

    Strings are sequences of bytes.  [Split] and [Join] take a separator of one
    character, which is all the program uses. *)

From Stdlib Require Export Ascii.
From stdpp Require Export pretty.
From S2P Require Import Prelude.

#[global] Open Scope Z_scope.

(** [c] does not occur in the string. *)
Fixpoint free_of (c : ascii) (s : string) : Prop :=
  match s with
  | EmptyString => True
  | String c' s => c' ≠ c ∧ free_of c s
  end.

#[export] Instance free_of_dec c s : Decision (free_of c s).
Proof. induction s as [|c' s IH]; simpl; apply _. Defined.

Fixpoint Split (sep : ascii) (s : string) : list string :=
  match s with
  | EmptyString => [EmptyString]
  | String c s =>
      match Split sep s with
      | [] => []
      | w :: ws => if decide (c = sep) then EmptyString :: w :: ws else String c w :: ws
      end
  end.

Fixpoint Join (sep : ascii) (l : list string) : string :=
  match l with
  | [] => EmptyString
  | w :: ws =>
      match ws with
      | [] => w
      | _ :: _ => w +:+ String sep (Join sep ws)
      end
  end.

Lemma Split_not_nil sep s : Split sep s ≠ [].
Proof.
  induction s as [|c s IH]; simpl; [done|]. destruct (Split sep s); [done|].
  by destruct (decide (c = sep)).
Qed.

Lemma Split_free sep s : Forall (free_of sep) (Split sep s).
Proof.
  induction s as [|c s IH]; simpl; [repeat constructor|].
  destruct (Split sep s) as [|w ws]; [done|]. apply Forall_cons in IH as [Hw Hws].
  destruct (decide (c = sep)); repeat constructor; done.
Qed.

Lemma Join_Split sep s : Join sep (Split sep s) = s.
Proof.
  induction s as [|c s IH]; [done|]. simpl. pose proof (Split_not_nil sep s).
  destruct (Split sep s) as [|w ws]; [done|].
  destruct (decide (c = sep)) as [->|].
  - change (String sep (Join sep (w :: ws)) = String sep s). by rewrite IH.
  - by rewrite <- IH; destruct ws.
Qed.

Lemma Split_free_id sep s : free_of sep s → Split sep s = [s].
Proof.
  induction s as [|c s IH]; simpl; [done|]. intros [Hc Hs]. rewrite IH by done.
  by rewrite decide_False.
Qed.

Lemma Split_app_sep sep w s :
  free_of sep w → Split sep (w +:+ String sep s) = w :: Split sep s.
Proof.
  induction w as [|c w IH]; simpl.
  - intros _. pose proof (Split_not_nil sep s). destruct (Split sep s); [done|].
    by rewrite decide_True.
  - intros [Hc Hw]. change (Split sep (w +:+ String sep s)) with (Split sep (w +:+ String sep s)).
    rewrite IH by done. by rewrite decide_False.
Qed.

Lemma Split_Join sep l : l ≠ [] → Forall (free_of sep) l → Split sep (Join sep l) = l.
Proof.
  intros Hne Hl. induction Hl as [|w ws Hw Hws IH]; [done|].
  destruct ws as [|w' ws]; [by apply Split_free_id|].
  change (Join sep (w :: w' :: ws)) with (w +:+ String sep (Join sep (w' :: ws))).
  rewrite Split_app_sep by done. by rewrite IH.
Qed.

(** ** [strconv]: integers in base 10 *)

(** [strconv.FormatInt(z, 10)]. *)
Definition FormatInt (z : Z) : string := pretty z.

Inductive NumError := ErrSyntax | ErrRange.

Definition digit (c : ascii) : option Z :=
  let n := Z.of_nat (nat_of_ascii c) in
  if (48 <=? n) && (n <=? 57) then Some (n - 48) else None.

(** The loop of [ParseUint]: it stops at the first bad character or overflow. *)
Fixpoint parse_digits (acc : Z) (s : string) : result NumError Z :=
  match s with
  | EmptyString => Ok acc
  | String c s =>
      match digit c with
      | None => Err ErrSyntax
      | Some d => if MaxUint64 <? 10 * acc + d then Err ErrRange else parse_digits (10 * acc + d) s
      end
  end.

Definition ParseUint (s : string) : Z * option NumError :=
  match s with
  | EmptyString => (0, Some ErrSyntax)
  | _ => match parse_digits 0 s with
         | Ok n => (n, None)
         | Err ErrSyntax => (0, Some ErrSyntax)
         | Err ErrRange => (MaxUint64, Some ErrRange)
         end
  end.

(** The optional sign of a number: whether it is a minus, and the rest. *)
Definition split_sign (s : string) : bool * string :=
  match s with
  | String "-" s => (true, s)
  | String "+" s => (false, s)
  | _ => (false, s)
  end.

(** [strconv.ParseInt(s, 10, 64)]: a value out of range is clamped. *)
Definition ParseInt (s : string) : Z * option NumError :=
  let '(neg, body) := split_sign s in
  match ParseUint body with
  | (_, Some ErrSyntax) => (0, Some ErrSyntax)
  | (un, _) =>
      if negb neg && (MaxInt64 <? un) then (MaxInt64, Some ErrRange)
      else if neg && (MaxInt64 + 1 <? un) then (MinInt64, Some ErrRange)
      else (if neg then - un else un, None)
  end.

Lemma split_sign_digit c s : digit c ≠ None → split_sign (String c s) = (false, String c s).
Proof.
  destruct c as [[] [] [] [] [] [] [] []]; try done; by intros [].
Qed.

Lemma digit_pretty (n : N) : (n < 10)%N → digit (pretty_N_char n) = Some (Z.of_N n).
Proof.
  intros Hn. assert (n = 0 ∨ n = 1 ∨ n = 2 ∨ n = 3 ∨ n = 4 ∨ n = 5 ∨ n = 6 ∨ n = 7 ∨ n = 8 ∨ n = 9)%N
    as H by lia. by destruct_or! H; subst.
Qed.

Lemma parse_digits_pretty (x : N) s :
  Z.of_N x ≤ MaxUint64 → parse_digits 0 (pretty_N_go x s) = parse_digits (Z.of_N x) s.
Proof.
  revert s. induction (N.lt_wf_0 x) as [x _ IH]. intros s Hx.
  destruct (decide (x = 0%N)) as [->|Hne]; [by rewrite pretty_N_go_0|].
  rewrite pretty_N_go_step by lia.
  pose proof (N.div_lt x 10). pose proof (N.mod_lt x 10). pose proof (N.div_mod' x 10).
  rewrite IH by lia. cbn [parse_digits]. rewrite digit_pretty by lia.
  replace (10 * Z.of_N (x `div` 10) + Z.of_N (x `mod` 10)) with (Z.of_N x) by lia.
  by destruct (Z.ltb_spec MaxUint64 (Z.of_N x)); [lia|].
Qed.

Lemma parse_digits_N (x : N) : Z.of_N x ≤ MaxUint64 → ParseUint (pretty x) = (Z.of_N x, None).
Proof.
  intros Hx. unfold pretty, pretty_N. case_decide as Hz; [by subst|].
  pose proof (parse_digits_pretty x "" Hx) as E.
  unfold ParseUint. rewrite E. cbn [parse_digits].
  destruct (pretty_N_go x "") eqn:Hs; [|done].
  simpl in E. injection E as E. lia.
Qed.

(** [ParseInt] undoes [FormatInt]. *)
Lemma ParseInt_FormatInt z : int64_range z → ParseInt (FormatInt z) = (z, None).
Proof.
  unfold int64_range, MinInt64, MaxInt64, FormatInt, ParseInt. intros Hz.
  destruct z as [|p|p]; [done|..].
  - change (pretty (Z.pos p)) with (pretty (N.pos p)).
    assert (ParseUint (pretty (N.pos p)) = (Z.pos p, None)) as E
      by (apply parse_digits_N; unfold MaxUint64; lia).
    destruct (pretty (N.pos p)) as [|c s] eqn:Ep; [done|].
    assert (digit c ≠ None) as Hd by (intros Hd; unfold ParseUint in E; simpl in E; by rewrite Hd in E).
    rewrite split_sign_digit, E by done. unfold MaxInt64, MinInt64. simpl. by destruct (Z.ltb_spec 9223372036854775807 (Z.pos p)); [lia|].
  - change (pretty (Z.neg p)) with ("-" +:+ pretty (N.pos p)).
    assert (ParseUint (pretty (N.pos p)) = (Z.pos p, None)) as E
      by (apply parse_digits_N; unfold MaxUint64; lia).
    change (split_sign ("-" +:+ pretty (N.pos p))) with (true, pretty (N.pos p)).
    cbv beta iota. rewrite E.
    cbn [negb andb]. unfold MaxInt64. by destruct (Z.ltb_spec (9223372036854775807 + 1) (Z.pos p)); [lia|].
Qed.
