(* ===== verification/GoFloat.v ===== *)
(** * Go's [strconv.ParseFloat] and integer conversions of floats

    The syntax is that of [readFloat] in Go's strconv: an optional sign, decimal
    digits or hexadecimal ones after [0x], a point, an exponent, underscores
    where Go literals have them; or one of the names of infinity and NaN.  The
    value is the exact rational number rounded to the nearest [float64], ties to
    even: [SFdiv] and [binary_normalize] of the standard library round the exact
    quotient of two integers of any size.  As in Go the exponent stops growing
    at 10000, far outside the range of floats. *)

From Stdlib Require Export SpecFloat.
From S2P Require Import Prelude Envelope GoStrings.

Definition lower (c : ascii) : ascii :=
  let n := nat_of_ascii c in
  if ((65 <=? n) && (n <=? 90))%nat then ascii_of_nat (n + 32) else c.

Fixpoint lower_string (s : string) : string :=
  match s with EmptyString => EmptyString | String c s => String (lower c) (lower_string s) end.

(** The value of a digit in base 10 or 16. *)
Definition float_digit (hex : bool) (c : ascii) : option Z :=
  match digit c with
  | Some d => Some d
  | None =>
      let n := Z.of_nat (nat_of_ascii (lower c)) in
      if hex && (97 <=? n) && (n <=? 102) then Some (n - 87) else None
  end.

(** The mantissa read so far: its digits as an integer, the number of digits
    after the point if there was one, whether a digit or an underscore was seen. *)
Record mantissa := mkMant {
  m_value : Z; m_point : option Z; m_digits : bool; m_under : bool }.

Definition push_digit (hex : bool) (d : Z) (m : mantissa) : mantissa :=
  mkMant ((if hex then 16 else 10) * m_value m + d) (Z.succ <$> m_point m) true (m_under m).

(** The digits loop: the mantissa and the rest of the text. *)
Fixpoint read_mantissa (hex : bool) (m : mantissa) (s : string) : mantissa * string :=
  match s with
  | EmptyString => (m, s)
  | String c s' =>
      if decide (c = "_"%char) then
        read_mantissa hex (mkMant (m_value m) (m_point m) (m_digits m) true) s'
      else if decide (c = "."%char) then
        match m_point m with
        | Some _ => (m, s)
        | None => read_mantissa hex (mkMant (m_value m) (Some 0) (m_digits m) (m_under m)) s'
        end
      else match float_digit hex c with
           | Some d => read_mantissa hex (push_digit hex d m) s'
           | None => (m, s)
           end
  end.

(** The digits of an exponent: its value, whether an underscore was seen, and
    the rest. *)
Fixpoint read_exponent (e : Z) (under : bool) (s : string) : Z * bool * string :=
  match s with
  | EmptyString => (e, under, s)
  | String c s' =>
      if decide (c = "_"%char) then read_exponent e true s'
      else match digit c with
           | Some d => read_exponent (if e <? 10000 then 10 * e + d else e) under s'
           | None => (e, under, s)
           end
  end.

(** What came last in [underscoreOK]. *)
Inductive seen := Start | Digit | Underscore | Other.

Fixpoint underscores_separate (hex : bool) (last : seen) (s : string) : bool :=
  match s with
  | EmptyString => match last with Underscore => false | _ => true end
  | String c s =>
      match float_digit hex c with
      | Some _ => underscores_separate hex Digit s
      | None =>
          if decide (c = "_"%char) then
            match last with Digit => underscores_separate hex Underscore s | _ => false end
          else match last with Underscore => false | _ => underscores_separate hex Other s end
      end
  end.

(** [underscoreOK]: underscores stand between digits, or after a base prefix. *)
Definition underscoreOK (s : string) : bool :=
  let s := snd (split_sign s) in
  match s with
  | String "0" (String c s') =>
      let c := lower c in
      if decide (c = "x"%char) then underscores_separate true Digit s'
      else if decide (c = "b"%char ∨ c = "o"%char) then underscores_separate false Digit s'
      else underscores_separate false Start s
  | _ => underscores_separate false Start s
  end.

(** [inf], [infinity] with a sign, [nan] without. *)
Definition special (s : string) : option float64 :=
  let '(neg, body) := split_sign s in
  let b := lower_string body in
  if decide (b = "inf" ∨ b = "infinity") then Some (S754_infinity neg)
  else if decide (lower_string s = "nan") then Some S754_nan
  else None.

(** [m * 10 ^ e], or [m * 2 ^ e], rounded to nearest even. *)
Definition round_decimal (neg : bool) (m e : Z) : float64 :=
  match m with
  | Zpos p =>
      if 0 <=? e then binary_normalize 53 1024 ((if neg then -1 else 1) * (m * 10 ^ e)) 0 neg
      else match 10 ^ (- e) with
           | Zpos q => SFdiv 53 1024 (S754_finite neg p 0) (S754_finite false q 0)
           | _ => S754_nan
           end
  | _ => S754_zero neg
  end.

Definition round_binary (neg : bool) (m e : Z) : float64 :=
  match m with
  | Zpos _ => binary_normalize 53 1024 ((if neg then -1 else 1) * m) e neg
  | _ => S754_zero neg
  end.

(** The text after sign and prefix: mantissa, exponent and nothing else. *)
Definition read_float (hex neg : bool) (whole s : string) : option float64 :=
  let '(m, rest) := read_mantissa hex (mkMant 0 None false false) s in
  if negb (m_digits m) then None
  else
    let '(e, rest, under) :=
      match rest with
      | String c s' =>
          if decide (lower c = if hex then "p"%char else "e"%char) then
            let '(eneg, body) := split_sign s' in
            match body with
            | String d _ =>
                match digit d with
                | None => (None, rest, m_under m)
                | Some _ =>
                    let '(e, under, rest) := read_exponent 0 (m_under m) body in
                    (Some (if eneg then - e else e), rest, under)
                end
            | EmptyString => (None, rest, m_under m)
            end
          else (if hex then None else Some 0, rest, m_under m)
      | EmptyString => (if hex then None else Some 0, rest, m_under m)
      end in
    match e, rest with
    | Some e, EmptyString =>
        if under && negb (underscoreOK whole) then None
        else
          let frac := default 0 (m_point m) in
          Some (if hex then round_binary neg (m_value m) (e - 4 * frac)
                else round_decimal neg (m_value m) (e - frac))
    | _, _ => None
    end.

(** [strconv.ParseFloat(s, 64)]: an overflow is a range error. *)
Definition ParseFloat (s : string) : result NumError float64 :=
  match special s with
  | Some f => Ok f
  | None =>
      let '(neg, body) := split_sign s in
      let r :=
        match body with
        | String "0" (String c (String _ _ as s')) =>
            if decide (lower c = "x"%char) then read_float true neg s s'
            else read_float false neg s body
        | _ => read_float false neg s body
        end in
      match r with
      | None => Err ErrSyntax
      | Some (S754_infinity _) => Err ErrRange
      | Some f => Ok f
      end
  end.

Example ParseFloat_examples :
  ParseFloat "-1_0.5e+1" = Ok (binary_normalize 53 1024 (-105) 0 false) ∧
  ParseFloat "0x1p-2" = Ok (binary_normalize 53 1024 1 (-2) false) ∧
  ParseFloat "1e400" = Err ErrRange ∧ ParseFloat "+Inf" = Ok (S754_infinity false) ∧
  ParseFloat "1__0" = Err ErrSyntax ∧ ParseFloat "." = Err ErrSyntax ∧
  ParseFloat "0.1" = Ok (S754_finite false 7205759403792794 (-56)).
Proof. by vm_compute. Qed.
