(* ===== verification/Json.v ===== *)
(** * Go's [encoding/json]

    The part of the standard library that the marshaler and the gateway rely on:
    values as trees, the text [json.Marshal] prints (with the HTML characters
    escaped, as by default), and the text [json.Unmarshal] accepts.  A string is
    its bytes; bytes that are not UTF-8 become U+FFFD in both directions.
    [json.RawMessage] is the tree it was parsed to.

    The parser has the scanner's grammar and its limit on nesting; [fuel] bounds
    its recursion by the length of the text.  [parse_encode] is the round trip. *)

From S2P Require Import Prelude Envelope GoStrings.


Inductive json :=
| JNull
| JBool (b : bool)
| JNumber (t : string)
| JString (s : string)
| JArray (l : list json)
| JObject (l : list (string * json)).

(** ** UTF-8 *)
Definition byte (c : ascii) : Z := Z.of_nat (nat_of_ascii c).
Definition in_range (lo hi : Z) (c : ascii) : bool := (lo <=? byte c) && (byte c <=? hi).
Definition continuation (c : ascii) : bool := in_range 0x80 0xbf c.

(** The two, three and four byte sequences that [utf8.DecodeRune] accepts. *)
Definition utf8_2 (a b : ascii) : bool := in_range 0xc2 0xdf a && continuation b.
Definition utf8_3 (a b c : ascii) : bool :=
  continuation c &&
  if byte a =? 0xe0 then in_range 0xa0 0xbf b
  else if byte a =? 0xed then in_range 0x80 0x9f b
  else in_range 0xe1 0xef a && continuation b.
Definition utf8_4 (a b c d : ascii) : bool :=
  continuation c && continuation d &&
  if byte a =? 0xf0 then in_range 0x90 0xbf b
  else if byte a =? 0xf4 then in_range 0x80 0x8f b
  else in_range 0xf1 0xf3 a && continuation b.

Definition ch (n : Z) : ascii := ascii_of_nat (Z.to_nat n).
Definition RuneError : string := String (ch 0xef) (String (ch 0xbf) (String (ch 0xbd) "")).

Definition utf8_encode (r : Z) : string :=
  let cont n := ch (0x80 + Z.land n 0x3f) in
  if r <=? 0x7f then String (ch r) ""
  else if r <=? 0x7ff then String (ch (0xc0 + Z.shiftr r 6)) (String (cont r) "")
  else if (0xd800 <=? r) && (r <=? 0xdfff) then RuneError
  else if r <=? 0xffff then
    String (ch (0xe0 + Z.shiftr r 12)) (String (cont (Z.shiftr r 6)) (String (cont r) ""))
  else String (ch (0xf0 + Z.shiftr r 18))
         (String (cont (Z.shiftr r 12)) (String (cont (Z.shiftr r 6)) (String (cont r) ""))).

(** ** Printing *)
Definition hex_digit (n : Z) : ascii := ch (if n <=? 9 then 0x30 + n else 0x57 + n).

(** The escape of an ASCII character, if it is not printed as it is. *)
Definition escape_ascii (c : ascii) : option string :=
  let b := byte c in
  if (b =? 0x22) || (b =? 0x5c) then Some (String (ch 0x5c) (String c ""))
  else if b =? 0x08 then Some "\b"
  else if b =? 0x0c then Some "\f"
  else if b =? 0x0a then Some "\n"
  else if b =? 0x0d then Some "\r"
  else if b =? 0x09 then Some "\t"
  else if (b <? 0x20) || (b =? 0x3c) || (b =? 0x3e) || (b =? 0x26) then
    Some ("\u00" +:+ String (hex_digit (Z.shiftr b 4)) (String (hex_digit (Z.land b 0xf)) ""))
  else None.

(** U+2028 and U+2029, the line separators JavaScript trips over. *)
Definition line_separator (a b c : ascii) : option string :=
  if (byte a =? 0xe2) && (byte b =? 0x80) then
    if byte c =? 0xa8 then Some "\u2028" else if byte c =? 0xa9 then Some "\u2029" else None
  else None.

Fixpoint escape (s : string) : string :=
  match s with
  | EmptyString => EmptyString
  | String a s1 =>
      if byte a <? 0x80 then
        match escape_ascii a with Some e => e +:+ escape s1 | None => String a (escape s1) end
      else
        match s1 with
        | EmptyString => "\ufffd"
        | String b s2 =>
            if utf8_2 a b then String a (String b (escape s2))
            else match s2 with
                 | EmptyString => "\ufffd" +:+ escape s1
                 | String c s3 =>
                     if utf8_3 a b c then
                       match line_separator a b c with
                       | Some e => e +:+ escape s3
                       | None => String a (String b (String c (escape s3)))
                       end
                     else match s3 with
                          | EmptyString => "\ufffd" +:+ escape s1
                          | String d s4 =>
                              if utf8_4 a b c d then
                                String a (String b (String c (String d (escape s4))))
                              else "\ufffd" +:+ escape s1
                          end
                 end
        end
  end.

Definition QUOTE : ascii := ch 0x22.

Definition quote (s : string) : string := String QUOTE (escape s +:+ String QUOTE "").

(** Elements with a comma between them. *)
Fixpoint commas (l : list string) : string :=
  match l with
  | [] => ""
  | [s] => s
  | s :: l => s +:+ "," +:+ commas l
  end.

Fixpoint encode (j : json) : string :=
  match j with
  | JNull => "null"
  | JBool true => "true"
  | JBool false => "false"
  | JNumber t => t
  | JString s => quote s
  | JArray l => "[" +:+ commas (encode <$> l) +:+ "]"
  | JObject l => "{" +:+ commas ((λ kv, quote kv.1 +:+ ":" +:+ encode kv.2) <$> l) +:+ "}"
  end.

(** ** Reading *)
Definition is_space (c : ascii) : bool :=
  let b := byte c in (b =? 0x20) || (b =? 0x09) || (b =? 0x0a) || (b =? 0x0d).

Fixpoint skip_space (s : string) : string :=
  match s with
  | String c s' => if is_space c then skip_space s' else s
  | EmptyString => s
  end.

Definition hex_value (c : ascii) : option Z :=
  let b := byte c in
  if in_range 0x30 0x39 c then Some (b - 0x30)
  else if in_range 0x61 0x66 c then Some (b - 0x57)
  else if in_range 0x41 0x46 c then Some (b - 0x37)
  else None.

Definition hex4 (a b c d : ascii) : option Z :=
  a ← hex_value a; b ← hex_value b; c ← hex_value c; d ← hex_value d;
  Some (((a * 16 + b) * 16 + c) * 16 + d).

Definition simple_escape (c : ascii) : option ascii :=
  let b := byte c in
  if (b =? 0x22) || (b =? 0x5c) || (b =? 0x2f) then Some c
  else if b =? 0x62 then Some (ch 0x08)
  else if b =? 0x66 then Some (ch 0x0c)
  else if b =? 0x6e then Some (ch 0x0a)
  else if b =? 0x72 then Some (ch 0x0d)
  else if b =? 0x74 then Some (ch 0x09)
  else None.

(** [utf16.DecodeRune]. *)
Definition surrogate_pair (r r1 : Z) : option Z :=
  if (0xd800 <=? r) && (r <? 0xdc00) && (0xdc00 <=? r1) && (r1 <? 0xe000) then
    Some (Z.lor (Z.shiftl (r - 0xd800) 10) (r1 - 0xdc00) + 0x10000)
  else None.

Definition push (s : string) (r : option (string * string)) : option (string * string) :=
  '(t, rest) ← r; Some (s +:+ t, rest).

(** The text of a string after its opening quote: its bytes and what follows the
    closing quote. *)
Fixpoint unquote (s : string) : option (string * string) :=
  match s with
  | EmptyString => None
  | String a s1 =>
      if byte a =? 0x22 then Some ("", s1)
      else if byte a =? 0x5c then
        match s1 with
        | EmptyString => None
        | String e s2 =>
            if byte e =? 0x75 then
              match s2 with
              | String h1 (String h2 (String h3 (String h4 s3))) =>
                  match hex4 h1 h2 h3 h4 with
                  | None => None
                  | Some r =>
                      if (0xd800 <=? r) && (r <? 0xe000) then
                        match s3 with
                        | String b1 (String b2 (String g1 (String g2 (String g3 (String g4 s4))))) =>
                            if (byte b1 =? 0x5c) && (byte b2 =? 0x75) then
                              match r1 ← hex4 g1 g2 g3 g4; surrogate_pair r r1 with
                              | Some dec => push (utf8_encode dec) (unquote s4)
                              | None => push RuneError (unquote s3)
                              end
                            else push RuneError (unquote s3)
                        | _ => push RuneError (unquote s3)
                        end
                      else push (utf8_encode r) (unquote s3)
                  end
              | _ => None
              end
            else match simple_escape e with
                 | Some c => push (String c "") (unquote s2)
                 | None => None
                 end
        end
      else if byte a <? 0x20 then None
      else if byte a <? 0x80 then push (String a "") (unquote s1)
      else
        match s1 with
        | EmptyString => None
        | String b s2 =>
            if utf8_2 a b then push (String a (String b "")) (unquote s2)
            else match s2 with
                 | EmptyString => push RuneError (unquote s1)
                 | String c s3 =>
                     if utf8_3 a b c then push (String a (String b (String c ""))) (unquote s3)
                     else match s3 with
                          | EmptyString => push RuneError (unquote s1)
                          | String d s4 =>
                              if utf8_4 a b c d then
                                push (String a (String b (String c (String d "")))) (unquote s4)
                              else push RuneError (unquote s1)
                          end
                 end
        end
  end.

(** Numbers are kept as their text. *)
Definition is_digit (c : ascii) : bool := in_range 0x30 0x39 c.

Fixpoint span_digits (s : string) : string * string :=
  match s with
  | String c s' => if is_digit c then let '(d, r) := span_digits s' in (String c d, r) else ("", s)
  | EmptyString => ("", s)
  end.

(** One digit at least. *)
Definition digits1 (s : string) : option (string * string) :=
  let '(d, r) := span_digits s in match d with "" => None | _ => Some (d, r) end.

Definition scan_minus (s : string) : string * string :=
  match s with
  | String c s' => if byte c =? 0x2d then (String c "", s') else ("", s)
  | _ => ("", s)
  end.

Definition scan_int (s : string) : option (string * string) :=
  match s with
  | String c s' => if byte c =? 0x30 then Some (String c "", s') else digits1 s
  | _ => None
  end.

Definition scan_frac (s : string) : option (string * string) :=
  match s with
  | String c s' =>
      if byte c =? 0x2e then '(d, r) ← digits1 s'; Some (String c d, r) else Some ("", s)
  | _ => Some ("", s)
  end.

Definition scan_sign (s : string) : string * string :=
  match s with
  | String c s' => if (byte c =? 0x2b) || (byte c =? 0x2d) then (String c "", s') else ("", s)
  | _ => ("", s)
  end.

Definition scan_exp (s : string) : option (string * string) :=
  match s with
  | String c s' =>
      if (byte c =? 0x65) || (byte c =? 0x45) then
        let '(sg, s2) := scan_sign s' in '(d, r) ← digits1 s2; Some (String c (sg +:+ d), r)
      else Some ("", s)
  | _ => Some ("", s)
  end.

Definition scan_number (s : string) : option (string * string) :=
  let '(m, s) := scan_minus s in
  '(i, s) ← scan_int s;
  '(f, s) ← scan_frac s;
  '(e, s) ← scan_exp s;
  Some (m +:+ i +:+ f +:+ e, s).

Definition is_number (t : string) : bool := bool_decide (scan_number t = Some (t, "")).

Fixpoint expect (word s : string) : option string :=
  match word, s with
  | EmptyString, _ => Some s
  | String a word, String b s => if Ascii.eqb a b then expect word s else None
  | _, _ => None
  end.

Definition maxNestingDepth : Z := 10000.

(** A value after optional space, and what follows it; [depth] containers are
    open around it. *)
Fixpoint parse_value (fuel : nat) (depth : Z) (s : string) : option (json * string) :=
  match fuel with
  | O => None
  | S fuel =>
      match skip_space s with
      | EmptyString => None
      | String c s' =>
          let b := byte c in
          if b =? 0x7b then
            if maxNestingDepth <? depth + 1 then None
            else match skip_space s' with
                 | String d r =>
                     if byte d =? 0x7d then Some (JObject [], r)
                     else '(l, r) ← parse_members fuel (depth + 1) (String d r); Some (JObject l, r)
                 | EmptyString => None
                 end
          else if b =? 0x5b then
            if maxNestingDepth <? depth + 1 then None
            else match skip_space s' with
                 | String d r =>
                     if byte d =? 0x5d then Some (JArray [], r)
                     else '(l, r) ← parse_elements fuel (depth + 1) (String d r); Some (JArray l, r)
                 | EmptyString => None
                 end
          else if b =? 0x22 then '(t, r) ← unquote s'; Some (JString t, r)
          else if b =? 0x74 then r ← expect "rue" s'; Some (JBool true, r)
          else if b =? 0x66 then r ← expect "alse" s'; Some (JBool false, r)
          else if b =? 0x6e then r ← expect "ull" s'; Some (JNull, r)
          else '(t, r) ← scan_number (String c s'); Some (JNumber t, r)
      end
  end
with parse_elements (fuel : nat) (depth : Z) (s : string) : option (list json * string) :=
  match fuel with
  | O => None
  | S fuel =>
      '(j, r) ← parse_value fuel depth s;
      match skip_space r with
      | String c r =>
          if byte c =? 0x2c then '(l, r) ← parse_elements fuel depth r; Some (j :: l, r)
          else if byte c =? 0x5d then Some ([j], r)
          else None
      | EmptyString => None
      end
  end
with parse_members (fuel : nat) (depth : Z) (s : string) : option (list (string * json) * string) :=
  match fuel with
  | O => None
  | S fuel =>
      match skip_space s with
      | String c s' =>
          if byte c =? 0x22 then
            '(k, r) ← unquote s';
            match skip_space r with
            | String d r =>
                if byte d =? 0x3a then
                  '(j, r) ← parse_value fuel depth r;
                  match skip_space r with
                  | String c r =>
                      if byte c =? 0x2c then '(l, r) ← parse_members fuel depth r; Some ((k, j) :: l, r)
                      else if byte c =? 0x7d then Some ([(k, j)], r)
                      else None
                  | EmptyString => None
                  end
                else None
            | EmptyString => None
            end
          else None
      | EmptyString => None
      end
  end.

(** The first value of a text, and the rest: what a [json.Decoder] takes. *)
Definition parse_first (s : string) : option (json * string) :=
  parse_value (S (2 * String.length s)) 0 s.

(** A text that is one value. *)
Definition parse (s : string) : option json :=
  '(j, r) ← parse_first s; match skip_space r with "" => Some j | _ => None end.

Example parse_example :
  parse (String QUOTE ("a\u00e9\ud83d\ude00" +:+ String QUOTE "")) =
    Some (JString (String "a" (String (ch 0xc3) (String (ch 0xa9) (utf8_encode 0x1f600))))) ∧
  parse " [1.5e-3 , -0,{} ] " = Some (JArray [JNumber "1.5e-3"; JNumber "-0"; JObject []]) ∧
  parse "[01]" = None ∧ parse "[1,]" = None ∧ parse "nul" = None ∧
  encode (JArray [JString "<a>"; JNull]) =
    "[" +:+ String QUOTE ("\u003ca\u003e" +:+ String QUOTE ",null]").
Proof. by vm_compute. Qed.

(** ** What is printed is read back *)

(** Text in UTF-8. *)
Inductive utf8 : string → Prop :=
| utf8_nil : utf8 ""
| utf8_ascii a s : byte a < 0x80 → utf8 s → utf8 (String a s)
| utf8_two a b s : utf8_2 a b = true → utf8 s → utf8 (String a (String b s))
| utf8_three a b c s : utf8_3 a b c = true → utf8 s → utf8 (String a (String b (String c s)))
| utf8_four a b c d s :
    utf8_4 a b c d = true → utf8 s → utf8 (String a (String b (String c (String d s)))).
#[export] Hint Constructors utf8 : core.

Lemma utf8_2_high a b : utf8_2 a b = true → 0xc2 ≤ byte a ≤ 0xdf.
Proof. unfold utf8_2, in_range. lia. Qed.

Lemma utf8_3_high a b c : utf8_3 a b c = true → 0xe0 ≤ byte a ≤ 0xef.
Proof.
  unfold utf8_3, in_range. destruct (Z.eqb_spec (byte a) 0xe0), (Z.eqb_spec (byte a) 0xed); lia.
Qed.

Lemma utf8_4_high a b c d : utf8_4 a b c d = true → 0xf0 ≤ byte a ≤ 0xf4.
Proof.
  unfold utf8_4, in_range. destruct (Z.eqb_spec (byte a) 0xf0), (Z.eqb_spec (byte a) 0xf4); lia.
Qed.

Lemma utf8_2_low a b : byte a ≤ 0xc1 ∨ 0xe0 ≤ byte a → utf8_2 a b = false.
Proof. intros H. apply not_true_is_false. intros ?%utf8_2_high. lia. Qed.
Lemma utf8_3_low a b c : byte a ≤ 0xdf ∨ 0xf0 ≤ byte a → utf8_3 a b c = false.
Proof. intros H. apply not_true_is_false. intros ?%utf8_3_high. lia. Qed.

Lemma escape_two a b s : utf8_2 a b = true → escape (String a (String b s)) = String a (String b (escape s)).
Proof.
  intros H. pose proof (utf8_2_high _ _ H). cbn [escape].
  by rewrite (proj2 (Z.ltb_ge (byte a) _)), H by lia.
Qed.

Lemma escape_three a b c s :
  utf8_3 a b c = true →
  escape (String a (String b (String c s))) =
  match line_separator a b c with
  | Some e => e +:+ escape s
  | None => String a (String b (String c (escape s)))
  end.
Proof.
  intros H. pose proof (utf8_3_high _ _ _ H). cbn [escape].
  by rewrite (proj2 (Z.ltb_ge (byte a) _)), utf8_2_low, H by lia.
Qed.

Lemma escape_four a b c d s :
  utf8_4 a b c d = true →
  escape (String a (String b (String c (String d s)))) = String a (String b (String c (String d (escape s)))).
Proof.
  intros H. pose proof (utf8_4_high _ _ _ _ H). cbn [escape].
  by rewrite (proj2 (Z.ltb_ge (byte a) _)), utf8_2_low, utf8_3_low, H by lia.
Qed.

(** An escaped ASCII character, or one that needs no escape. *)
Lemma unquote_ascii a t :
  byte a < 0x80 →
  unquote (match escape_ascii a with Some e => e +:+ t | None => String a t end) =
  push (String a "") (unquote t).
Proof. destruct a as [[][][][][][][][]]; intros H; try done; vm_compute in H; by destruct H. Qed.

Lemma ch_byte a : ch (byte a) = a.
Proof. unfold ch, byte. by rewrite Nat2Z.id, ascii_nat_embedding. Qed.

Lemma byte_high a : 0x80 ≤ byte a →
  (byte a =? 0x22) = false ∧ (byte a =? 0x5c) = false ∧ (byte a <? 0x20) = false ∧ (byte a <? 0x80) = false.
Proof. lia. Qed.

Lemma unquote_two a b t :
  utf8_2 a b = true → unquote (String a (String b t)) = push (String a (String b "")) (unquote t).
Proof.
  intros H. pose proof (utf8_2_high _ _ H). destruct (byte_high a) as (E1&E2&E3&E4); [lia|].
  cbn [unquote]. by rewrite E1, E2, E3, E4, H.
Qed.

Lemma unquote_three a b c t :
  utf8_3 a b c = true →
  unquote (String a (String b (String c t))) = push (String a (String b (String c ""))) (unquote t).
Proof.
  intros H. pose proof (utf8_3_high _ _ _ H). destruct (byte_high a) as (E1&E2&E3&E4); [lia|].
  cbn [unquote]. by rewrite E1, E2, E3, E4, utf8_2_low, H by lia.
Qed.

Lemma unquote_four a b c d t :
  utf8_4 a b c d = true →
  unquote (String a (String b (String c (String d t)))) =
  push (String a (String b (String c (String d "")))) (unquote t).
Proof.
  intros H. pose proof (utf8_4_high _ _ _ _ H). destruct (byte_high a) as (E1&E2&E3&E4); [lia|].
  cbn [unquote]. by rewrite E1, E2, E3, E4, utf8_2_low, utf8_3_low, H by lia.
Qed.

Lemma unquote_separator a b c e t :
  line_separator a b c = Some e → unquote (e +:+ t) = push (String a (String b (String c ""))) (unquote t).
Proof.
  unfold line_separator. intros H.
  destruct (Z.eqb_spec (byte a) 0xe2) as [Ea|]; [|done].
  destruct (Z.eqb_spec (byte b) 0x80) as [Eb|]; [|done].
  rewrite <- (ch_byte a), <- (ch_byte b), <- (ch_byte c), Ea, Eb.
  destruct (Z.eqb_spec (byte c) 0xa8) as [->|]; [by injection H as <-|].
  destruct (Z.eqb_spec (byte c) 0xa9) as [->|]; [by injection H as <-|done].
Qed.

Lemma push_Some s t rest : push s (Some (t, rest)) = Some (s +:+ t, rest).
Proof. done. Qed.

Lemma unquote_escape s rest : utf8 s → unquote (escape s +:+ String QUOTE rest) = Some (s, rest).
Proof.
  induction 1 as [|a s Ha H IH|a b s Hu H IH|a b c s Hu H IH|a b c d s Hu H IH].
  - done.
  - cbn [escape]. rewrite (proj2 (Z.ltb_lt _ _) Ha).
    pose proof (unquote_ascii a (escape s +:+ String QUOTE rest) Ha) as E.
    rewrite IH in E. change (Some (String a s, rest)) with (push (String a "") (Some (s, rest))).
    rewrite <- E.
    destruct (escape_ascii a); [by rewrite sapp_assoc|done].
  - rewrite escape_two by done. rewrite !sapp_cons, unquote_two, IH by done. done.
  - rewrite escape_three by done. destruct (line_separator a b c) as [e|] eqn:E.
    + by rewrite sapp_assoc, (unquote_separator a b c e _ E), IH.
    + rewrite !sapp_cons, unquote_three, IH by done. done.
  - rewrite escape_four by done. rewrite !sapp_cons, unquote_four, IH by done. done.
Qed.

(** What can follow a number: nothing that would continue it. *)
Definition number_stop (rest : string) : Prop :=
  match rest with
  | EmptyString => True
  | String c _ => is_digit c = false ∧ ∀ n, n ∈ [0x2b; 0x2d; 0x2e; 0x45; 0x65] → byte c ≠ n
  end.

Lemma span_digits_stop s d r rest :
  number_stop rest → span_digits s = (d, r) → span_digits (s +:+ rest) = (d, r +:+ rest).
Proof.
  intros Hstop. revert d r. induction s as [|c s IH]; intros d r.
  - intros [= <- <-]. rewrite sapp_nil. destruct rest as [|c rest]; [done|].
    destruct Hstop as [Hc _]. cbn [span_digits]. by rewrite Hc.
  - rewrite sapp_cons. cbn [span_digits]. destruct (is_digit c); [|by intros [= <- <-]].
    destruct (span_digits s) as [d' r']. rewrite (IH d' r') by done. by intros [= <- <-].
Qed.

Lemma digits1_stop s d r rest :
  number_stop rest → digits1 s = Some (d, r) → digits1 (s +:+ rest) = Some (d, r +:+ rest).
Proof.
  unfold digits1. intros Hstop. destruct (span_digits s) as [d' r'] eqn:E.
  rewrite (span_digits_stop _ _ _ _ Hstop E). destruct d'; [done|by intros [= <- <-]].
Qed.

Ltac stop_head Hstop n := match goal with
  | c : ascii |- context [byte ?x =? n] => rewrite (proj2 (Z.eqb_neq (byte x) n)) by (apply Hstop; set_solver)
  end.

Lemma scan_frac_stop s d r rest :
  number_stop rest → scan_frac s = Some (d, r) → scan_frac (s +:+ rest) = Some (d, r +:+ rest).
Proof.
  intros Hstop. destruct s as [|c s].
  - intros [= <- <-]. rewrite sapp_nil. destruct rest as [|c rest]; [done|].
    destruct Hstop as [_ Hc]. unfold scan_frac. stop_head Hc 0x2e. done.
  - rewrite sapp_cons. unfold scan_frac. destruct (byte c =? 0x2e); [|by intros [= <- <-]].
    destruct (digits1 s) as [[d' r']|] eqn:E; [|done]. rewrite (digits1_stop _ _ _ _ Hstop E).
    by intros [= <- <-].
Qed.

Lemma scan_sign_stop s sg r rest :
  number_stop rest → scan_sign s = (sg, r) → scan_sign (s +:+ rest) = (sg, r +:+ rest).
Proof.
  intros Hstop. destruct s as [|c s].
  - intros [= <- <-]. rewrite sapp_nil. destruct rest as [|c rest]; [done|].
    destruct Hstop as [_ Hc]. unfold scan_sign. stop_head Hc 0x2b. stop_head Hc 0x2d. done.
  - rewrite sapp_cons. unfold scan_sign. destruct (_ || _); by intros [= <- <-].
Qed.

Lemma scan_exp_stop s d r rest :
  number_stop rest → scan_exp s = Some (d, r) → scan_exp (s +:+ rest) = Some (d, r +:+ rest).
Proof.
  intros Hstop. destruct s as [|c s].
  - intros [= <- <-]. rewrite sapp_nil. destruct rest as [|c rest]; [done|].
    destruct Hstop as [_ Hc]. unfold scan_exp. stop_head Hc 0x65. stop_head Hc 0x45. done.
  - rewrite sapp_cons. unfold scan_exp. destruct (_ || _); [|by intros [= <- <-]].
    destruct (scan_sign s) as [sg s2] eqn:Es. rewrite (scan_sign_stop _ _ _ _ Hstop Es).
    destruct (digits1 s2) as [[d' r']|] eqn:E; [|done]. rewrite (digits1_stop _ _ _ _ Hstop E).
    by intros [= <- <-].
Qed.

Lemma scan_number_stop t rest :
  is_number t = true → number_stop rest → scan_number (t +:+ rest) = Some (t, rest).
Proof.
  unfold is_number. rewrite bool_decide_eq_true. intros H Hstop.
  assert (scan_number (t +:+ rest) = Some (t, "" +:+ rest)) as ->; [|done]. revert H.
  destruct t as [|c t]; [done|]. rewrite sapp_cons. unfold scan_number, scan_minus.
  assert (∀ s i r, scan_int s = Some (i, r) → scan_int (s +:+ rest) = Some (i, r +:+ rest)) as Hint.
  { intros [|x s] i r; [done|]. rewrite sapp_cons. unfold scan_int.
    destruct (byte x =? 0x30); [by intros [= <- <-]|]. intros Hd. by apply (digits1_stop (String x s)). }
  set (p := if byte c =? 0x2d then (String c "", t) else ("", String c t)).
  assert ((if byte c =? 0x2d then (String c "", t +:+ rest) else ("", String c (t +:+ rest))) =
    (p.1, p.2 +:+ rest)) as -> by (unfold p; by destruct (byte c =? 0x2d)).
  destruct p as [m s]. cbn [fst snd].
  destruct (scan_int s) as [[i s2]|] eqn:E2; [|done]. rewrite (Hint _ _ _ E2). cbn [mbind option_bind].
  destruct (scan_frac s2) as [[f s3]|] eqn:E3; [|done]. rewrite (scan_frac_stop _ _ _ _ Hstop E3).
  cbn [mbind option_bind].
  destruct (scan_exp s3) as [[e s4]|] eqn:E4; [|done]. rewrite (scan_exp_stop _ _ _ _ Hstop E4).
  cbn [mbind option_bind]. by intros [= -> ->].
Qed.

(** The first character of a number. *)
Lemma is_number_head t : is_number t = true →
  ∃ c u, t = String c u ∧ (byte c = 0x2d ∨ is_digit c = true).
Proof.
  unfold is_number. rewrite bool_decide_eq_true. destruct t as [|c u]; [done|]. intros H.
  exists c, u. split; [done|]. unfold scan_number, scan_minus in H.
  destruct (Z.eqb_spec (byte c) 0x2d); [by left|right].
  unfold scan_int in H. destruct (Z.eqb_spec (byte c) 0x30) as [E|].
  { unfold is_digit, in_range. by rewrite E. }
  unfold digits1 in H. cbn [span_digits] in H. by destruct (is_digit c).
Qed.

(** Values that have a text: UTF-8 strings, numbers, bounded nesting. *)
Inductive wf_json : Z → json → Prop :=
| wf_null d : wf_json d JNull
| wf_bool d b : wf_json d (JBool b)
| wf_number d t : is_number t = true → wf_json d (JNumber t)
| wf_string d s : utf8 s → wf_json d (JString s)
| wf_array d l : d + 1 ≤ maxNestingDepth → Forall (wf_json (d + 1)) l → wf_json d (JArray l)
| wf_object d l :
    d + 1 ≤ maxNestingDepth → Forall (λ kv, utf8 kv.1 ∧ wf_json (d + 1) kv.2) l → wf_json d (JObject l).
#[export] Hint Constructors wf_json : core.

Lemma encode_head d j : wf_json d j →
  ∃ c u, encode j = String c u ∧ is_space c = false ∧ byte c ≠ 0x5d ∧ byte c ≠ 0x7d.
Proof.
  destruct 1 as [d|d []|d t Ht|d s Hs|d l Hd Hl|d l Hd Hl]; try by eexists _, _.
  destruct (is_number_head t Ht) as (c&u&->&Hc). exists c, u. split; [done|].
  assert (byte c = 0x2d ∨ 0x30 ≤ byte c ≤ 0x39) by (destruct Hc; unfold is_digit, in_range in *; lia).
  unfold is_space. lia.
Qed.

Lemma encode_length d j : wf_json d j → (1 ≤ String.length (encode j))%nat.
Proof. intros (c&u&->&_)%encode_head. rewrite slength_cons. lia. Qed.

Lemma skip_space_head c u : is_space c = false → skip_space (String c u) = String c u.
Proof. intros H. cbn [skip_space]. by rewrite H. Qed.

Definition member (kv : string * json) : string := quote kv.1 +:+ ":" +:+ encode kv.2.

Lemma commas_cons s l : commas (s :: l) = s +:+ match l with [] => "" | _ => "," +:+ commas l end.
Proof. destruct l; [by rewrite sapp_nil_r|done]. Qed.

Lemma number_stop_delim c s : (byte c =? 0x2c) || (byte c =? 0x5d) || (byte c =? 0x7d) = true →
  number_stop (String c s).
Proof.
  intros H. assert (byte c = 0x2c ∨ byte c = 0x5d ∨ byte c = 0x7d) as Hc by lia.
  split; [unfold is_digit, in_range; lia|]. intros n Hn.
  repeat (apply elem_of_cons in Hn as [->|Hn]; [lia|]). by apply elem_of_nil in Hn.
Qed.

(** What the parser is asked to read with some fuel. *)
Definition reads_values (fuel : nat) : Prop := ∀ d j rest,
  wf_json d j → (2 * String.length (encode j) ≤ fuel)%nat → number_stop rest →
  parse_value fuel d (encode j +:+ rest) = Some (j, rest).

Lemma parse_elements_encode fuel d l rest :
  (∀ fuel', (fuel' < fuel)%nat → reads_values fuel') → l ≠ [] → Forall (wf_json d) l →
  (2 * String.length (commas (encode <$> l)) + 2 ≤ fuel)%nat →
  parse_elements fuel d (commas (encode <$> l) +:+ "]" +:+ rest) = Some (l, rest).
Proof.
  revert fuel. induction l as [|j l IH]; intros fuel Hv Hne Hl Hfuel; [done|].
  apply Forall_cons in Hl as [Hj Hl]. rewrite fmap_cons, commas_cons in *. rewrite slength_app in Hfuel.
  pose proof (encode_length _ _ Hj) as H1. destruct fuel as [|fuel]; [lia|]. cbn [parse_elements].
  rewrite sapp_assoc. rewrite (Hv fuel) by (done || lia || by destruct l; apply number_stop_delim). cbn [mbind option_bind].
  destruct l as [|j' l]; [done|]. rewrite fmap_cons in *. cbn beta iota zeta in Hfuel |- *.
  rewrite !sapp_cons, sapp_nil. change (skip_space (String "," ?s)) with (String "," s). cbn beta iota zeta.
  change (byte "," =? 0x2c) with true. cbv iota.
  rewrite slength_app, slength_cons in Hfuel. change (encode j' :: (encode <$> l)) with (encode <$> j' :: l) in *.
  rewrite IH; [done|..].
  - intros fuel' Hf. apply Hv. lia.
  - done.
  - done.
  - lia.
Qed.

Lemma parse_members_encode fuel d l rest :
  (∀ fuel', (fuel' < fuel)%nat → reads_values fuel') → l ≠ [] →
  Forall (λ kv, utf8 kv.1 ∧ wf_json d kv.2) l →
  (2 * String.length (commas (member <$> l)) + 2 ≤ fuel)%nat →
  parse_members fuel d (commas (member <$> l) +:+ "}" +:+ rest) = Some (l, rest).
Proof.
  revert fuel. induction l as [|[k j] l IH]; intros fuel Hv Hne Hl Hfuel; [done|].
  apply Forall_cons in Hl as [[Hk Hj] Hl]. rewrite fmap_cons, commas_cons in *. rewrite slength_app in Hfuel.
  destruct fuel as [|fuel]; [lia|]. cbn [parse_members].
  assert (2 * String.length (encode j) + 4 ≤ 2 * String.length (member (k, j)))%nat as Hm.
  { unfold member, quote. autorewrite with slength. simpl. lia. }
  unfold member at 1, quote. rewrite !sapp_assoc, !sapp_cons, !sapp_assoc.
  rewrite skip_space_head by done. change (byte QUOTE =? 0x22) with true. cbv iota.
  rewrite !sapp_cons, sapp_nil, unquote_escape by done. cbn [mbind option_bind fst snd].
  change (skip_space (String ":" ?s)) with (String ":" s). cbn beta iota zeta.
  change (byte ":" =? 0x3a) with true. cbv iota. rewrite sapp_nil.
  rewrite (Hv fuel) by (done || lia || by destruct l; apply number_stop_delim). cbn [mbind option_bind].
  destruct l as [|kv l]; [done|]. rewrite fmap_cons in *. cbn beta iota zeta in Hfuel |- *.
  rewrite !sapp_cons, sapp_nil. change (skip_space (String "," ?s)) with (String "," s). cbn beta iota zeta.
  change (byte "," =? 0x2c) with true. cbv iota.
  rewrite slength_app, slength_cons in Hfuel. change (member kv :: (member <$> l)) with (member <$> kv :: l) in *.
  rewrite IH; [done|..].
  - intros fuel' Hf. apply Hv. lia.
  - done.
  - done.
  - lia.
Qed.

Lemma scan_head_cases c : byte c = 0x2d ∨ is_digit c = true →
  is_space c = false ∧ byte c ≠ 0x7b ∧ byte c ≠ 0x5b ∧ byte c ≠ 0x22 ∧ byte c ≠ 0x74 ∧
  byte c ≠ 0x66 ∧ byte c ≠ 0x6e.
Proof.
  intros H. assert (byte c = 0x2d ∨ 0x30 ≤ byte c ≤ 0x39) by (destruct H; unfold is_digit, in_range in *; lia).
  unfold is_space. lia.
Qed.

Lemma parse_value_encode fuel : reads_values fuel.
Proof.
  induction (lt_wf fuel) as [fuel _ IH]. intros d j rest Hj Hfuel Hstop.
  pose proof (encode_length _ _ Hj) as Hlen. destruct fuel as [|fuel]; [lia|].
  destruct Hj as [d|d []|d t Ht|d s Hs|d l Hd Hl|d l Hd Hl]; try by destruct rest.
  - destruct (is_number_head t Ht) as (c&u&->&Hc). destruct (scan_head_cases c Hc) as (H0&H1&H2&H3&H4&H5&H6).
    cbn [encode parse_value]. rewrite sapp_cons, skip_space_head by done.
    rewrite !(proj2 (Z.eqb_neq (byte c) _)) by done. cbv zeta.
    rewrite <- sapp_cons, scan_number_stop by done. done.
  - cbn [encode parse_value]. unfold quote. rewrite sapp_cons, skip_space_head by done.
    change (byte QUOTE) with 0x22. rewrite sapp_assoc, sapp_cons, sapp_nil, unquote_escape by done. done.
  - change (encode (JArray l)) with ("[" +:+ commas (encode <$> l) +:+ "]") in *.
    autorewrite with slength in Hfuel. rewrite !sapp_assoc, sapp_cons, sapp_nil. cbn [parse_value].
    rewrite skip_space_head by done. change (byte "[") with 0x5b. cbn beta iota zeta.
    change (0x5b =? 0x7b) with false. change (0x5b =? 0x5b) with true. cbv iota.
    rewrite (proj2 (Z.ltb_ge _ _)) by lia. destruct l as [|j l]; [done|].
    pose proof (parse_elements_encode fuel (d + 1) (j :: l) rest) as H.
    apply Forall_cons in Hl as Hl'. destruct (encode_head _ _ (proj1 Hl')) as (c&u&E&Hsp&H5d&_).
    destruct (commas (encode <$> j :: l)) as [|c' u'] eqn:Ec.
    { rewrite fmap_cons, commas_cons, E in Ec. done. }
    assert (c' = c) as -> by (rewrite fmap_cons, commas_cons, E in Ec; by injection Ec).
    rewrite sapp_cons in H |- *. rewrite skip_space_head by done.
    rewrite (proj2 (Z.eqb_neq (byte c) _)) by done. rewrite H; [done| |done|done|].
    + intros fuel' Hf. apply IH. lia.
    + simpl in Hfuel |- *. lia.
  - change (encode (JObject l)) with ("{" +:+ commas (member <$> l) +:+ "}") in *.
    autorewrite with slength in Hfuel. rewrite !sapp_assoc, sapp_cons, sapp_nil. cbn [parse_value].
    rewrite skip_space_head by done. change (byte "{") with 0x7b. cbn beta iota zeta.
    change (0x7b =? 0x7b) with true. cbv iota.
    rewrite (proj2 (Z.ltb_ge _ _)) by lia. destruct l as [|kv l]; [done|].
    pose proof (parse_members_encode fuel (d + 1) (kv :: l) rest) as H.
    destruct (commas (member <$> kv :: l)) as [|c' u'] eqn:Ec; [by rewrite fmap_cons, commas_cons in Ec|].
    assert (c' = QUOTE) as -> by (rewrite fmap_cons, commas_cons in Ec; by injection Ec).
    rewrite sapp_cons in H |- *. rewrite skip_space_head by done.
    change (byte QUOTE =? 0x7d) with false. cbv iota. rewrite H; [done| |done|done|].
    + intros fuel' Hf. apply IH. lia.
    + simpl in Hfuel |- *. lia.
Qed.

(** The first value of a text is the one printed there. *)
Lemma parse_first_encode j rest :
  wf_json 0 j → number_stop rest → parse_first (encode j +:+ rest) = Some (j, rest).
Proof. intros Hj Hs. unfold parse_first. apply parse_value_encode; [done| |done]. rewrite slength_app. lia. Qed.

Lemma number_stop_space rest : skip_space rest = "" → number_stop rest.
Proof.
  destruct rest as [|c rest]; [done|]. cbn [skip_space]. destruct (is_space c) eqn:E; [|done]. intros _.
  unfold is_space in E. assert (byte c = 0x20 ∨ byte c = 0x09 ∨ byte c = 0x0a ∨ byte c = 0x0d) as Hc by lia.
  split; [unfold is_digit, in_range; lia|]. intros n Hn.
  repeat (apply elem_of_cons in Hn as [->|Hn]; [lia|]). by apply elem_of_nil in Hn.
Qed.

Lemma parse_encode j rest : wf_json 0 j → skip_space rest = "" → parse (encode j +:+ rest) = Some j.
Proof.
  intros Hj Hr. unfold parse. rewrite parse_first_encode by auto using number_stop_space.
  cbn [mbind option_bind]. by rewrite Hr.
Qed.

(** Text of ASCII characters is UTF-8. *)
Fixpoint ascii_text (s : string) : bool :=
  match s with EmptyString => true | String c s => (byte c <? 0x80) && ascii_text s end.

Lemma ascii_text_utf8 s : ascii_text s = true → utf8 s.
Proof. induction s as [|c s IH]; simpl; [done|]. intros [H1 H2]%andb_true_iff. constructor; [lia|auto]. Qed.

Lemma ascii_text_app a b : ascii_text (a +:+ b) = ascii_text a && ascii_text b.
Proof. induction a as [|c a IH]; [done|]. rewrite sapp_cons. simpl. by rewrite IH, andb_assoc. Qed.

(** The members of an object, with literal names. *)
Ltac members := repeat (apply Forall_cons_2; [split; [by apply ascii_text_utf8|cbn [fst snd]]|]); try apply Forall_nil_2.
