(* ===== verification/JsonDecode.v ===== *)
(** * Decoding JSON into Go values

    The part of [encoding/json] that stores a parsed value in a variable: names of
    members against names of fields, strings, numbers, slices and structs, where
    [null] keeps what was there.  A value of the wrong type makes the whole call
    fail, with an error [bad] that the caller fixes.  [Decode] is
    [json.NewDecoder(r).Decode(&v)], which reads the first value of a text and
    ignores what follows. *)

From S2P Require Import Prelude Envelope GoStrings GoFloat Json.

(** Go matches the names of fields without regard to case; two letters outside
    ASCII count as [s] and [k]. *)
Fixpoint fold_name (s : string) : string :=
  match s with
  | EmptyString => EmptyString
  | String a s1 =>
      match s1 with
      | String b s2 =>
          if (byte a =? 0xc5) && (byte b =? 0xbf) then String "s" (fold_name s2)
          else match s2 with
               | String c s3 =>
                   if (byte a =? 0xe2) && (byte b =? 0x84) && (byte c =? 0xaa)
                   then String "k" (fold_name s3) else String (lower a) (fold_name s1)
               | EmptyString => String (lower a) (fold_name s1)
               end
      | EmptyString => String (lower a) (fold_name s1)
      end
  end.

Definition named (key name : string) : bool := bool_decide (fold_name key = fold_name name).

(** A slice that is being filled: an array whose first [sl_len] elements are the
    slice's.  A member that occurs again is decoded over the old array. *)
Record slice (A : Type) := mkSlice { sl_len : nat; sl_array : list A }.
Arguments mkSlice {A}. Arguments sl_len {A}. Arguments sl_array {A}.
Definition nil_slice {A} : slice A := mkSlice 0 [].
Definition slice_elements {A} (s : slice A) : list A := take (sl_len s) (sl_array s).

Section Decode.
Context {Er : Type} (bad : Er).
Notation result := (result Er).

Fixpoint fold_result {A B} (f : A → B → result A) (a : A) (l : list B) : result A :=
  match l with
  | [] => Ok a
  | b :: l => a ← f a b; fold_result f a l
  end.

Fixpoint mapM_result {A B} (f : A → result B) (l : list A) : result (list B) :=
  match l with
  | [] => Ok []
  | a :: l => b ← f a; bs ← mapM_result f l; Ok (b :: bs)
  end.

(** Into a string, whose old value [null] keeps. *)
Definition into_string (old : string) (j : json) : result string :=
  match j with JNull => Ok old | JString s => Ok s | _ => Err bad end.

Definition into_float (old : float64) (j : json) : result float64 :=
  match j with
  | JNull => Ok old
  | JNumber t => match ParseFloat t with Ok f => Ok f | Err _ => Err bad end
  | _ => Err bad
  end.

(** Into a fresh slice whose elements keep nothing: [null] makes it nil. *)
Definition into_slice {A} (f : json → result A) (j : json) : result (list A) :=
  match j with JNull => Ok [] | JArray l => mapM_result f l | _ => Err bad end.

(** Into the elements of an array, [zero] being those it did not have. *)
Fixpoint into_elements {A} (zero : A) (f : A → json → result A) (old : list A) (l : list json) :
    result (list A) :=
  match l with
  | [] => Ok []
  | j :: l => x ← f (hd zero old) j; xs ← into_elements zero f (tail old) l; Ok (x :: xs)
  end.

Definition into_array {A} (zero : A) (f : A → json → result A) (old : slice A) (j : json) : result (slice A) :=
  match j with
  | JNull | JArray [] => Ok nil_slice
  | JArray l =>
      xs ← into_elements zero f (sl_array old) l;
      Ok (mkSlice (length l) (xs ++ drop (length l) (sl_array old)))
  | _ => Err bad
  end.

(** Into a struct, member by member. *)
Definition into_struct {A} (f : A → string * json → result A) (old : A) (j : json) : result A :=
  match j with JNull => Ok old | JObject l => fold_result f old l | _ => Err bad end.

Definition Decode {A} (f : json → result A) (syntax : Er) (text : string) : result A :=
  match parse_first text with Some (j, _) => f j | None => Err syntax end.

(** ** Lemmas *)
Lemma Decode_encode {A} (f : json → result A) syntax j rest :
  wf_json 0 j → number_stop rest → Decode f syntax (encode j +:+ rest) = f j.
Proof. intros Hj Hr. unfold Decode. by rewrite parse_first_encode. Qed.

Lemma into_elements_fresh {A} (zero : A) f l xs :
  mapM_result (f zero) l = Ok xs → into_elements zero f [] l = Ok xs.
Proof.
  revert xs. induction l as [|j l IH]; intros xs; [done|]. cbn [mapM_result into_elements hd tail].
  destruct (f zero j) as [x|]; [|done]. cbn [mbind result_bind].
  destruct (mapM_result (f zero) l) as [ys|]; [|done]. intros [= <-]. by rewrite (IH ys).
Qed.

(** Into a slice that was nil, the elements are decoded one by one. *)
Lemma into_array_fresh {A} (zero : A) f l xs :
  mapM_result (f zero) l = Ok xs →
  ∃ s, into_array zero f nil_slice (JArray l) = Ok s ∧ slice_elements s = xs.
Proof.
  intros H. assert (length xs = length l) as Hlen.
  { clear -H. revert xs H. induction l as [|j l IH]; intros xs; simpl; [by intros [= <-]|].
    destruct (f zero j) as [x|]; [|done]. simpl. destruct (mapM_result (f zero) l) as [ys|] eqn:E; [|done].
    intros [= <-]. simpl. by rewrite (IH ys). }
  destruct l as [|j l].
  { injection H as <-. by exists nil_slice. }
  unfold into_array. cbn [sl_array nil_slice]. rewrite (into_elements_fresh _ _ _ xs H). eexists. split; [done|].
  unfold slice_elements. cbn [sl_len sl_array]. rewrite drop_nil, app_nil_r. apply take_ge. lia.
Qed.

(** Reading back what was written element by element. *)
Lemma mapM_result_back {A B} (f : B → result A) (g : A → B) l :
  (∀ x, f (g x) = Ok x) → mapM_result f (g <$> l) = Ok l.
Proof.
  intros H. induction l as [|x l IH]; [done|]. rewrite fmap_cons. cbn [mapM_result].
  rewrite H. cbn [mbind result_bind]. by rewrite IH.
Qed.

Lemma into_array_back {A} (zero : A) f (g : A → json) l :
  (∀ x, f zero (g x) = Ok x) →
  ∃ s, into_array zero f nil_slice (JArray (g <$> l)) = Ok s ∧ slice_elements s = l.
Proof. intros H. by apply into_array_fresh, mapM_result_back. Qed.
End Decode.
