(* ===== verification/NetURL.v ===== *)
(** * Go's [net/url] and [net]: query strings and addresses

    The functions of the standard library the HTTP side of the program uses:
    [url.QueryEscape], [url.Values.Encode] and [url.ParseQuery] (behind
    [URL.Query]), [net.SplitHostPort], [http.Header.Get], [strings.HasPrefix],
    [Index] and [Contains].  A query string is read pair by pair; a pair with a
    semicolon or a bad escape is skipped, as [URL.Query] drops the error.

    [ParseQuery_Encode] is the round trip: what a handler encodes into the query
    string is what the next server reads from it. *)

From S2P Require Import Prelude GoStrings Json.

Abbreviation url_values := (gmap string (list string)).

(** ** Strings *)
Fixpoint HasPrefix (s prefix : string) : bool :=
  match prefix, s with
  | EmptyString, _ => true
  | String c prefix, String d s => bool_decide (c = d) && HasPrefix s prefix
  | String _ _, EmptyString => false
  end.

(** [strings.Cut] at the first separator: [None] when there is none. *)
Fixpoint Cut (sep : ascii) (s : string) : option (string * string) :=
  match s with
  | EmptyString => None
  | String c s =>
      if decide (c = sep) then Some ("", s)
      else '(a, b) ← Cut sep s; Some (String c a, b)
  end.

(** The cut at the last separator. *)
Fixpoint CutLast (sep : ascii) (s : string) : option (string * string) :=
  match s with
  | EmptyString => None
  | String c s =>
      match CutLast sep s with
      | Some (a, b) => Some (String c a, b)
      | None => if decide (c = sep) then Some ("", s) else None
      end
  end.

Definition Contains (s : string) (c : ascii) : bool := bool_decide (is_Some (Cut c s)).

Lemma Cut_free sep s : free_of sep s → Cut sep s = None.
Proof. induction s as [|c s IH]; simpl; [done|]. intros [? ->%IH]. by rewrite decide_False. Qed.

Lemma Cut_app sep a b : free_of sep a → Cut sep (a +:+ String sep b) = Some (a, b).
Proof.
  induction a as [|c a IH]; simpl; [by rewrite decide_True|].
  intros [? E%IH]. by rewrite decide_False, E.
Qed.

Lemma CutLast_free sep s : free_of sep s → CutLast sep s = None.
Proof.
  induction s as [|c s IH]; simpl; [done|]. intros [? ->%IH]. by rewrite decide_False.
Qed.

Lemma CutLast_app sep a b : free_of sep b → CutLast sep (a +:+ String sep b) = Some (a, b).
Proof.
  intros Hb. induction a as [|c a IH]; simpl; [by rewrite CutLast_free, decide_True|].
  by rewrite IH.
Qed.

Lemma Contains_free c s : Contains s c = false ↔ free_of c s.
Proof.
  unfold Contains. rewrite bool_decide_eq_false. induction s as [|d s IH]; simpl.
  - split; [done|by intros _ [? ?]].
  - destruct (decide (d = c)) as [->|Hd]; [naive_solver|].
    destruct (Cut c s) as [[a b]|]; simpl in *; naive_solver.
Qed.

(** ** Escaping a component of a query string *)
Definition upper_hex (n : Z) : ascii := ch (if n <=? 9 then 0x30 + n else 0x37 + n).

(** The characters printed as they are. *)
Definition unreserved (c : ascii) : bool :=
  in_range 0x61 0x7a c || in_range 0x41 0x5a c || in_range 0x30 0x39 c ||
  (byte c =? 0x2d) || (byte c =? 0x5f) || (byte c =? 0x2e) || (byte c =? 0x7e).

Fixpoint QueryEscape (s : string) : string :=
  match s with
  | EmptyString => ""
  | String c s =>
      if unreserved c then String c (QueryEscape s)
      else if byte c =? 0x20 then String (ch 0x2b) (QueryEscape s)
      else String (ch 0x25) (String (upper_hex (byte c / 16))
             (String (upper_hex (byte c mod 16)) (QueryEscape s)))
  end.

Fixpoint QueryUnescape (s : string) : option string :=
  match s with
  | EmptyString => Some ""
  | String c s =>
      if byte c =? 0x25 then
        match s with
        | String a (String b s) =>
            x ← hex_value a; y ← hex_value b; t ← QueryUnescape s;
            Some (String (ch (x * 16 + y)) t)
        | _ => None
        end
      else t ← QueryUnescape s; Some (String (if byte c =? 0x2b then ch 0x20 else c) t)
  end.

Definition escaped_char (c : ascii) : string := QueryEscape (String c "").

Lemma QueryEscape_cons c s : QueryEscape (String c s) = escaped_char c +:+ QueryEscape s.
Proof.
  unfold escaped_char. simpl. destruct (unreserved c); [done|].
  by destruct (byte c =? 0x20).
Qed.

(** All facts on one character are checked on the 256 of them. *)
Lemma all_chars (P : ascii → bool) :
  forallb (λ n, P (ascii_of_nat n)) (seq 0 256) = true → ∀ c, P c = true.
Proof.
  intros H c. rewrite <- (ascii_nat_embedding c). rewrite forallb_forall in H. apply H.
  apply in_seq. pose proof (nat_ascii_bounded c). lia.
Qed.

Definition unescapes_to (c : ascii) : bool :=
  bool_decide (QueryUnescape (escaped_char c) = Some (String c "")).
Lemma escaped_char_back c : QueryUnescape (escaped_char c) = Some (String c "").
Proof.
  apply (bool_decide_unpack (QueryUnescape (escaped_char c) = Some (String c ""))), Is_true_true.
  revert c. apply (all_chars unescapes_to). by vm_compute.
Qed.

Lemma QueryUnescape_app c s :
  QueryUnescape (escaped_char c +:+ s) = t ← QueryUnescape s; Some (String c t).
Proof.
  pose proof (escaped_char_back c) as H. unfold escaped_char in *. cbn [QueryEscape] in *.
  destruct (unreserved c); [|destruct (byte c =? 0x20)];
    rewrite ?sapp_cons, sapp_nil; cbn [QueryUnescape] in *.
  3: change (byte (ch 37) =? 37) with true in *; cbn iota in *;
    destruct (hex_value (upper_hex (byte c / 16))) as [x|]; [|done]; cbn [mbind option_bind] in *;
    destruct (hex_value _) as [y|]; [|done].
  all: repeat match type of H with context [if ?b then _ else _] => destruct b; [done|] end.
  all: cbn [mbind option_bind] in *; injection H as H; by rewrite H.
Qed.

(** Unescaping gives back what was escaped. *)
Lemma QueryUnescape_QueryEscape s : QueryUnescape (QueryEscape s) = Some s.
Proof.
  induction s as [|c s IH]; [done|]. by rewrite QueryEscape_cons, QueryUnescape_app, IH.
Qed.

Definition separators : list ascii := ["&"%char; "="%char; ";"%char].
Lemma escaped_char_free c : Forall (λ sep, free_of sep (escaped_char c)) separators.
Proof.
  apply (bool_decide_unpack (Forall (λ sep, free_of sep (escaped_char c)) separators)), Is_true_true.
  revert c. apply (all_chars (λ c, bool_decide (Forall (λ sep, free_of sep (escaped_char c)) separators))).
  by vm_compute.
Qed.

Lemma free_of_app c a b : free_of c (a +:+ b) ↔ free_of c a ∧ free_of c b.
Proof.
  induction a as [|d a IH]; [rewrite sapp_nil; simpl; tauto|]. rewrite sapp_cons. simpl. tauto.
Qed.

Lemma QueryEscape_free s sep : sep ∈ separators → free_of sep (QueryEscape s).
Proof.
  intros Hsep. induction s as [|c s IH]; [done|]. rewrite QueryEscape_cons, free_of_app.
  split; [|done]. pose proof (escaped_char_free c) as H. rewrite Forall_forall in H. by apply H.
Qed.

(** ** [url.Values] *)
Definition Values_Get (v : url_values) (k : string) : string := default "" (v !! k ≫= head).
Definition Values_Set (k x : string) (v : url_values) : url_values := <[k := [x]]> v.
Definition Values_Add (k x : string) (v : url_values) : url_values :=
  <[k := default [] (v !! k) ++ [x]]> v.

(** One turn of the loop of [parseQuery]; [None] is a pair it skips. *)
Definition parse_pair (pair : string) : option (string * string) :=
  if Contains pair ";"%char then None
  else if decide (pair = "") then None
  else
    let '(key, value) := default (pair, "") (Cut "="%char pair) in
    key ← QueryUnescape key; value ← QueryUnescape value; Some (key, value).

Definition add_pair (v : url_values) (pair : string) : url_values :=
  match parse_pair pair with Some (key, value) => Values_Add key value v | None => v end.

Definition ParseQuery (query : string) : url_values := foldl add_pair ∅ (Split "&"%char query).

Definition pairs_of (v : url_values) (ks : list string) : list (string * string) :=
  ks ≫= λ k, pair k <$> default [] (v !! k).
Definition pair_text (p : string * string) : string :=
  QueryEscape p.1 +:+ String "="%char (QueryEscape p.2).
Definition Encode (v : url_values) : string :=
  Join "&"%char (pair_text <$> pairs_of v (merge_sort string_le (map_to_list v).*1)).

Lemma parse_pair_text p : parse_pair (pair_text p) = Some p.
Proof.
  destruct p as [k x]. unfold parse_pair, pair_text. cbn [fst snd].
  assert (∀ s c, c ∈ separators → free_of c (QueryEscape s)) as H by (intros; by apply QueryEscape_free).
  replace (Contains _ _) with false.
  2: { symmetry. apply Contains_free, free_of_app. simpl. split_and!; [|done|]; apply H;
       unfold separators; set_solver. }
  rewrite decide_False by (by destruct (QueryEscape k)).
  rewrite Cut_app by (apply H; unfold separators; set_solver). cbn [default id].
  by rewrite !QueryUnescape_QueryEscape.
Qed.

Lemma pair_text_free p : free_of "&"%char (pair_text p).
Proof.
  apply free_of_app. simpl. split_and!; [|done|]; apply QueryEscape_free; unfold separators; set_solver.
Qed.

Definition no_empty (v : url_values) : Prop := map_Forall (λ _ l, l ≠ []) v.

Lemma Values_Add_no_empty k x v : no_empty v → no_empty (Values_Add k x v).
Proof. intros Hv. apply map_Forall_insert_2; [|done]. by destruct (default [] (v !! k)). Qed.

(** What is parsed has no key without a value. *)
Lemma ParseQuery_no_empty q : no_empty (ParseQuery q).
Proof.
  unfold ParseQuery. assert (no_empty ∅) as H by apply map_Forall_empty. revert H.
  generalize (∅ : url_values). induction (Split _ q) as [|p l IH]; intros v Hv; simpl; [done|].
  apply IH. unfold add_pair. destruct (parse_pair p) as [[k x]|]; [|done].
  by apply Values_Add_no_empty.
Qed.

(** Maps without empty lists are told apart by their values. *)
Lemma no_empty_eq v1 v2 : no_empty v1 → no_empty v2 →
  (∀ k, default [] (v1 !! k) = default [] (v2 !! k)) → v1 = v2.
Proof.
  intros H1 H2 H. apply map_eq. intros k. specialize (H k).
  destruct (v1 !! k) eqn:E1, (v2 !! k) eqn:E2; simpl in H; subst; try done;
    [by destruct (H1 _ _ E1)|by destruct (H2 _ _ E2)].
Qed.

Definition values_at (k : string) (ps : list (string * string)) : list string :=
  omap (λ p, if decide (p.1 = k) then Some p.2 else None) ps.

Lemma add_pairs_lookup k ps v :
  default [] (foldl add_pair v (pair_text <$> ps) !! k) = default [] (v !! k) ++ values_at k ps.
Proof.
  revert v. induction ps as [|p ps IH]; intros v; simpl; [by rewrite app_nil_r|].
  rewrite IH. unfold add_pair. rewrite parse_pair_text. destruct p as [k' x]. simpl.
  unfold Values_Add. destruct (decide (k' = k)) as [->|Hk].
  - rewrite lookup_insert_eq. simpl. by rewrite <- app_assoc.
  - by rewrite lookup_insert_ne.
Qed.

Lemma values_at_pairs k v ks : NoDup ks →
  values_at k (pairs_of v ks) = if decide (k ∈ ks) then default [] (v !! k) else [].
Proof.
  assert (∀ k' l, values_at k (pair k' <$> l) = if decide (k' = k) then l else []) as Hl.
  { intros k' l. unfold values_at. induction l as [|x l IH]; [by destruct (decide _)|].
    rewrite fmap_cons, omap_cons, IH. simpl. by destruct (decide (k' = k)). }
  unfold values_at, pairs_of in *. induction 1 as [|k' ks Hk' Hks IH]; cbn [mbind list_bind].
  { by rewrite decide_False by apply not_elem_of_nil. }
  rewrite omap_app, IH, Hl. destruct (decide (k' = k)) as [->|Hne].
  - rewrite (decide_False (P := k ∈ ks)), app_nil_r by done.
    by rewrite decide_True by left.
  - cbn [app]. apply decide_ext. set_solver.
Qed.

(** What is encoded into a query string is read back from it. *)
Lemma ParseQuery_Encode v : no_empty v → ParseQuery (Encode v) = v.
Proof.
  intros Hv. apply no_empty_eq; [apply ParseQuery_no_empty|done|]. intros k.
  unfold ParseQuery, Encode. set (ks := merge_sort string_le (map_to_list v).*1).
  assert (ks ≡ₚ (map_to_list v).*1) as Hp by apply merge_sort_Permutation.
  assert (foldl add_pair ∅ (Split "&"%char (Join "&"%char (pair_text <$> pairs_of v ks))) =
          foldl add_pair ∅ (pair_text <$> pairs_of v ks)) as ->.
  { destruct (pairs_of v ks) as [|p ps] eqn:E; [done|]. rewrite <- E, Split_Join; [done|by rewrite E|].
    apply Forall_fmap, Forall_forall. intros p' _. apply pair_text_free. }
  rewrite add_pairs_lookup, values_at_pairs by (rewrite Hp; apply NoDup_fst_map_to_list).
  rewrite lookup_empty. simpl. case_decide as Hk; [done|].
  destruct (v !! k) as [l|] eqn:El; [|done]. exfalso. apply Hk. rewrite Hp.
  apply list_elem_of_fmap. exists (k, l). split; [done|]. by apply elem_of_map_to_list.
Qed.

(** ** Headers and addresses *)

(** [http.Header.Get]: keys are stored in their canonical form. *)
Fixpoint canonical_from (upper : bool) (s : string) : string :=
  match s with
  | EmptyString => ""
  | String c s =>
      let c' := if upper && in_range 0x61 0x7a c then ch (byte c - 0x20)
                else if negb upper && in_range 0x41 0x5a c then ch (byte c + 0x20)
                else c in
      String c' (canonical_from (byte c =? 0x2d) s)
  end.
Definition CanonicalHeaderKey (s : string) : string := canonical_from true s.
Definition Header_Get (h : url_values) (key : string) : string := Values_Get h (CanonicalHeaderKey key).

Inductive AddrError := missingPort | tooManyColons | missingBracket | unexpectedBracket.

(** [net.SplitHostPort].  A host in brackets ends at the first closing bracket,
    which the last colon follows. *)
Definition SplitHostPort (hostport : string) : result AddrError (string * string) :=
  match CutLast ":"%char hostport with
  | None => Err missingPort
  | Some (before, port) =>
      let brackets_ok host rest_k := 
        if Contains host "["%char then Err unexpectedBracket
        else if Contains rest_k "]"%char then Err unexpectedBracket
        else Ok tt in
      match hostport with
      | String c rest =>
          if decide (c = "["%char) then
            match Cut "]"%char rest with
            | None => Err missingBracket
            | Some (host, after) =>
                match after with
                | EmptyString => Err missingPort
                | String d after' =>
                    if decide (d = ":"%char) then
                      if Contains after' ":"%char then Err tooManyColons
                      else
                        _ ← brackets_ok rest after;
                        Ok (host, port)
                    else Err missingPort
                end
            end
          else if Contains before ":"%char then Err tooManyColons
          else _ ← brackets_ok hostport hostport; Ok (before, port)
      | EmptyString => Err missingPort
      end
  end.

(** The forms of an address: [host:port] and [[host]:port]. *)
Lemma SplitHostPort_plain host port :
  Forall (λ c, free_of c host ∧ free_of c port) [":"%char; "["%char; "]"%char] →
  SplitHostPort (host +:+ String ":"%char port) = Ok (host, port).
Proof.
  rewrite !Forall_cons. intros ([Hh Hp]&[Hh1 Hp1]&[Hh2 Hp2]&_).
  unfold SplitHostPort. rewrite CutLast_app by done.
  assert (∀ c, c ≠ ":"%char → free_of c host → free_of c port →
    Contains (host +:+ String ":"%char port) c = false) as Hc.
  { intros c Hne ??. apply Contains_free, free_of_app. simpl. by split_and!. }
  rewrite (Hc "["%char), (Hc "]"%char) by done. cbn [mbind result_bind].
  rewrite (proj2 (Contains_free ":"%char host)) by done.
  destruct host as [|c host]; simpl in *; [done|]. by rewrite decide_False by apply Hh1.
Qed.

Lemma SplitHostPort_brackets host port :
  Forall (λ c, free_of c host ∧ free_of c port) ["["%char; "]"%char] → free_of ":"%char port →
  SplitHostPort (String "["%char (host +:+ String "]"%char (String ":"%char port))) = Ok (host, port).
Proof.
  rewrite !Forall_cons. intros ([Hh1 Hp1]&[Hh2 Hp2]&_) Hp.
  unfold SplitHostPort.
  replace (String "["%char (host +:+ String "]"%char (String ":"%char port)))
    with ((String "["%char (host +:+ "]")) +:+ String ":"%char port)
    by (by rewrite sapp_cons, sapp_assoc).
  rewrite CutLast_app by done. rewrite sapp_cons, sapp_assoc. cbn iota.
  rewrite decide_True by done. change ("]" +:+ String ":"%char port) with (String "]"%char (String ":"%char port)).
  rewrite Cut_app by done. simpl. rewrite (proj2 (Contains_free ":"%char port)) by done.
  rewrite (proj2 (Contains_free "["%char _)) by (apply free_of_app; simpl; by split_and!).
  by rewrite (proj2 (Contains_free "]"%char _)) by (simpl; by split).
Qed.

(** A host with a colon needs the brackets. *)
Lemma SplitHostPort_colons host port :
  free_of ":"%char port → Contains host ":"%char = true → HasPrefix host "[" = false →
  SplitHostPort (host +:+ String ":"%char port) = Err tooManyColons.
Proof.
  intros Hp Hc Hb. unfold SplitHostPort. rewrite CutLast_app by done.
  destruct host as [|c host]; [done|]. cbn [HasPrefix] in Hb.
  change (String c host +:+ String ":"%char port) with (String c (host +:+ String ":"%char port)).
  cbn iota. rewrite decide_False, Hc; [done|]. intros ->.
  rewrite bool_decide_eq_true_2 in Hb by done. by destruct host.
Qed.
