(* ===== verification/AccessLog.v ===== *)
(** * The access log

    Models internal/auth/access_log.go, access_logger.go and access_middleware.go.
    A line of the log is a CEF record; the template that prints it comes from
    [html/template], which escapes each field as HTML text.  A logger is an
    operation on a world [W]; [DefaultAccessLogger] writes the line to an
    [io.Writer] and [NullAccessLogger] does nothing. *)

From S2P Require Import Prelude GoStrings Json NetURL.

(** The fields of [http.Request] that the program reads. *)
Record Request := mkHTTP {
  Method : string;
  Path : string;
  RawQuery : string;
  Header : url_values;
  RemoteAddr : string;
}.

(** ** [html/template]: a field in HTML text *)
Definition html_escape_char (c : ascii) : option string :=
  let b := byte c in
  if b =? 0x00 then Some RuneError
  else if b =? 0x22 then Some "&#34;"
  else if b =? 0x26 then Some "&amp;"
  else if b =? 0x27 then Some "&#39;"
  else if b =? 0x2b then Some "&#43;"
  else if b =? 0x3c then Some "&lt;"
  else if b =? 0x3e then Some "&gt;"
  else None.

Fixpoint html_escape (s : string) : string :=
  match s with
  | EmptyString => ""
  | String c s => default (String c "") (html_escape_char c) +:+ html_escape s
  end.

(** ** The line *)
Record templateContext := mkTemplateContext {
  Timestamp : Z;
  RequestID : string;
  ctx_Path : string;
  ctx_Method : string;
  SourceHost : string;
  SourcePort : string;
  DestinationHost : string;
  DestinationPort : string;
}.

Definition requestIDHeader : string := "X-Vcap-Request-ID".

(** The record with its fields in place, as the template's source has them. *)
Definition cef_record (Timestamp RequestID Path Method SourceHost SourcePort DestinationHost
    DestinationPort : string) : string :=
  let extensions := [
    "rt=" +:+ Timestamp;
    "cs1Label=userAuthenticationMechanism";
    "cs1=oauth-access-token";
    "cs2Label=vcapRequestId";
    "cs2=" +:+ RequestID;
    "request=" +:+ Path;
    "requestMethod=" +:+ Method;
    "src=" +:+ SourceHost;
    "spt=" +:+ SourcePort;
    "dst=" +:+ DestinationHost;
    "dpt=" +:+ DestinationPort ] in
  let fields := [
    "0"; "cloud_foundry"; "log_cache"; "1.0";
    Method +:+ " " +:+ Path;
    Method +:+ " " +:+ Path;
    "0";
    Join " "%char extensions ] in
  "CEF:" +:+ Join "|"%char fields.

Definition logTemplate_Execute (c : templateContext) : string :=
  cef_record (FormatInt (Timestamp c)) (html_escape (RequestID c)) (html_escape (ctx_Path c))
    (html_escape (ctx_Method c)) (html_escape (SourceHost c)) (html_escape (SourcePort c))
    (html_escape (DestinationHost c)) (html_escape (DestinationPort c)).

(** [timestamp] is its [UnixNano]. *)
Record AccessLog := NewAccessLog { request : Request; timestamp : Z; host : string; port : string }.

Definition toMillis (timestamp : Z) : Z := timestamp ÷ 1000000.

Definition extractRemoteInfo (al : AccessLog) : string * string :=
  let remoteAddr := Header_Get (Header (request al)) "X-Forwarded-For" in
  let remoteAddr := match Cut ","%char remoteAddr with Some (a, _) => a | None => remoteAddr end in
  let remoteAddr := if decide (remoteAddr = "") then RemoteAddr (request al) else remoteAddr in
  let remoteAddr := if Contains remoteAddr ":"%char then remoteAddr else remoteAddr +:+ ":" in
  match SplitHostPort remoteAddr with
  | Err _ => ("", "")
  | Ok hp => hp
  end.

(** The path and query of the request line. *)
Definition request_path (r : Request) : string :=
  if decide (RawQuery r = "") then Path r else Path r +:+ "?" +:+ RawQuery r.

Definition AccessLog_String (al : AccessLog) : string :=
  let vcapRequestId := Header_Get (Header (request al)) requestIDHeader in
  let '(remoteHost, remotePort) := extractRemoteInfo al in
  logTemplate_Execute (mkTemplateContext (toMillis (timestamp al)) vcapRequestId
    (request_path (request al)) (Method (request al)) remoteHost remotePort (host al) (port al)).

(** ** Loggers *)
Section Loggers.
Context {W : Type}.
(** The interface [AccessLogger]: log a request under the proxy's host and port. *)
Abbreviation AccessLogger := (Request → string → string → W → W * option string).

(** [time.Now] and [io.Writer]. *)
Variable Now : W → Z.
Variable Write : string → W → W * option string.

Definition newline : string := String (ch 0x0a) "".

Definition DefaultAccessLogger : AccessLogger := λ req host port w,
  let al := NewAccessLog req (Now w) host port in
  Write (AccessLog_String al +:+ newline) w.

Definition NullAccessLogger : AccessLogger := λ _ _ _ w, (w, None).
End Loggers.

(** ** The line without escapes *)

(** A text the template prints as it is. *)
Fixpoint plain (s : string) : bool :=
  match s with
  | EmptyString => true
  | String c s => bool_decide (html_escape_char c = None) && plain s
  end.

Lemma html_escape_plain s : plain s = true → html_escape s = s.
Proof.
  induction s as [|c s IH]; simpl; [done|]. intros [Hc%bool_decide_eq_true ->%IH]%andb_true_iff.
  by rewrite Hc.
Qed.

(** The characters an escape prints stand for no field separator and no line end. *)
Definition is_separator (c : ascii) : bool :=
  (byte c =? 0x7c) || (byte c =? 0x20) || (byte c =? 0x3d) || (byte c =? 0x0a).

Lemma html_escape_char_separator c :
  is_separator c = true → html_escape_char c = None.
Proof.
  unfold is_separator, html_escape_char. rewrite !orb_true_iff, !Z.eqb_eq.
  intros [[[->| ->]| ->]| ->]; done.
Qed.

Lemma html_escape_char_free c d e : is_separator d = true → html_escape_char c = Some e → free_of d e.
Proof.
  unfold html_escape_char. intros Hd.
  assert (d = "|" ∨ d = " " ∨ d = "=" ∨ d = ch 0x0a)%char as H.
  { unfold is_separator in Hd. rewrite !orb_true_iff, !Z.eqb_eq in Hd.
    rewrite <- (ch_byte d). destruct Hd as [[[->| ->]| ->]| ->]; tauto. }
  clear Hd. intros He.
  repeat match type of He with (if ?b then _ else _) = _ => destruct b; [injection He as <-|] end;
    try done; destruct H as [->|[->|[->| ->]]]; by vm_compute.
Qed.

(** Escaping neither adds a separator nor removes one. *)
Lemma html_escape_free d s : is_separator d = true → free_of d (html_escape s) ↔ free_of d s.
Proof.
  intros Hd. induction s as [|c s IH]; [done|]. cbn [html_escape free_of].
  rewrite free_of_app, IH. apply and_iff_compat_r.
  destruct (html_escape_char c) as [e|] eqn:E; cbn [default free_of].
  - split; [|by intros _; eapply html_escape_char_free].
    intros _ ->. by rewrite html_escape_char_separator in E.
  - tauto.
Qed.

(** ** Reading a line back *)

(** No field of the record holds one of the separators of the format. *)
Definition separable (al : AccessLog) : Prop :=
  Forall (λ s, Forall (λ c, free_of c s) ["|"%char; " "%char; ch 0x0a])
    [ Header_Get (Header (request al)) requestIDHeader; request_path (request al);
      Method (request al); (extractRemoteInfo al).1; (extractRemoteInfo al).2; host al; port al ].

Lemma FormatInt_free d z : is_separator d = true → free_of d (FormatInt z).
Proof.
  intros Hd. assert (∀ n s, free_of d s → free_of d (pretty_N_go n s)) as Hgo.
  { intros n. induction (N.lt_wf_0 n) as [n _ IH]. intros s Hs.
    destruct (decide (n = 0)%N) as [->|Hn]; [done|]. rewrite pretty_N_go_step by lia.
    apply IH; [apply N.div_lt; lia|]. split; [|done]. intros <-. unfold pretty_N_char in Hd.
    repeat match type of Hd with context [match ?x with _ => _ end] => destruct x; try done end. }
  assert (∀ n : N, free_of d (pretty n)) as Hn.
  { intros n. unfold pretty, pretty_N. by case_decide; [destruct d as [[] [] [] [] [] [] [] []]|apply Hgo]. }
  unfold FormatInt, pretty, pretty_Z. destruct z; [by destruct d as [[] [] [] [] [] [] [] []]|apply Hn|].
  split; [|apply Hn]. by intros <-.
Qed.

Lemma Join_free c sep l : c ≠ sep → Forall (free_of c) l → free_of c (Join sep l).
Proof.
  intros Hc. induction 1 as [|s l Hs Hl IH]; [done|]. destruct l as [|s' l]; [done|].
  change (Join sep (s :: s' :: l)) with (s +:+ String sep (Join sep (s' :: l))).
  apply free_of_app. simpl free_of. split; [done|]. split; [by apply not_eq_sym|done].
Qed.

(** A text [pre +:+ s] with a fixed beginning. *)
Ltac solve_free :=
  repeat first
    [ apply Forall_nil_2 | apply Forall_cons_2 | apply free_of_app; split | by vm_compute | done ].

Definition is_free (c : ascii) (s : string) : bool := bool_decide (free_of c s).

(** The fields and words of a record whose parts hold no separator. *)
Lemma cef_record_split ts id path m sh sp dh dp :
  let bar := "|"%char in let blank := " "%char in
  Forall (free_of bar) [ts; id; path; m; sh; sp; dh; dp] →
  Forall (free_of blank) [ts; id; path; m; sh; sp; dh; dp] →
  ∃ extensions,
    Split bar (cef_record ts id path m sh sp dh dp) =
      ["CEF:0"; "cloud_foundry"; "log_cache"; "1.0"; m +:+ " " +:+ path; m +:+ " " +:+ path; "0";
       extensions] ∧
    Split blank extensions =
      ["rt=" +:+ ts; "cs1Label=userAuthenticationMechanism"; "cs1=oauth-access-token";
       "cs2Label=vcapRequestId"; "cs2=" +:+ id; "request=" +:+ path; "requestMethod=" +:+ m;
       "src=" +:+ sh; "spt=" +:+ sp; "dst=" +:+ dh; "dpt=" +:+ dp].
Proof.
  intros bar blank Hbar Hblank. rewrite !Forall_cons in Hbar, Hblank. destruct_and!.
  eexists. split; [|apply Split_Join; [done|solve_free]].
  change (cef_record ts id path m sh sp dh dp) with
    (Join bar ["CEF:0"; "cloud_foundry"; "log_cache"; "1.0"; m +:+ " " +:+ path;
       m +:+ " " +:+ path; "0";
       Join blank ["rt=" +:+ ts; "cs1Label=userAuthenticationMechanism"; "cs1=oauth-access-token";
       "cs2Label=vcapRequestId"; "cs2=" +:+ id; "request=" +:+ path; "requestMethod=" +:+ m;
       "src=" +:+ sh; "spt=" +:+ sp; "dst=" +:+ dh; "dpt=" +:+ dp]]).
  apply Split_Join; [done|]. do 7 (apply Forall_cons_2; [solve_free|]).
  apply Forall_cons_2; [|done]. apply Join_free; [done|]. solve_free.
Qed.

Lemma cef_record_free c ts id path m sh sp dh dp :
  c = ch 0x0a → Forall (free_of c) [ts; id; path; m; sh; sp; dh; dp] →
  free_of c (cef_record ts id path m sh sp dh dp).
Proof.
  intros -> H. rewrite !Forall_cons in H. destruct_and!. apply free_of_app. split; [by vm_compute|].
  apply Join_free; [done|]. do 7 (apply Forall_cons_2; [solve_free|]).
  apply Forall_cons_2; [|done]. apply Join_free; [done|]. solve_free.
Qed.


(** The client is the first hop of X-Forwarded-For, without a port, and the
    connection's peer when the header is missing. *)
Lemma extractRemoteInfo_forwarded al hop rest :
  Header_Get (Header (request al)) "X-Forwarded-For" ∈ [hop; hop +:+ String ","%char rest] →
  hop ≠ "" → Forall (λ c, free_of c hop) [","%char; ":"%char; "["%char; "]"%char] →
  extractRemoteInfo al = (hop, "").
Proof.
  rewrite !Forall_cons. intros Hx Hne (Hc&Hd&Hb&Hb'&_). unfold extractRemoteInfo.
  replace (match Cut ","%char _ with Some (a, _) => a | None => _ end) with hop.
  2: { rewrite elem_of_cons, list_elem_of_singleton in Hx.
       destruct Hx as [->| ->]; [by rewrite Cut_free|by rewrite Cut_app]. }
  rewrite decide_False by done. rewrite (proj2 (Contains_free ":"%char hop)) by done.
  change (hop +:+ ":") with (hop +:+ String ":"%char "").
  by rewrite SplitHostPort_plain by (rewrite !Forall_cons; by split_and!).
Qed.

Lemma extractRemoteInfo_peer al h p :
  Header_Get (Header (request al)) "X-Forwarded-For" = "" →
  RemoteAddr (request al) = h +:+ String ":"%char p →
  Forall (λ c, free_of c h ∧ free_of c p) [":"%char; "["%char; "]"%char] →
  extractRemoteInfo al = (h, p).
Proof.
  intros Hx Hr Hf. unfold extractRemoteInfo. rewrite Hx. cbn [Cut].
  rewrite decide_True, Hr by done.
  replace (Contains _ _) with true.
  2: { symmetry. apply not_false_iff_true. rewrite Contains_free, free_of_app. simpl. naive_solver. }
  by rewrite SplitHostPort_plain.
Qed.

(** ** Concrete lines *)
Definition demo_http (path query : string) (forwarded : string) : Request :=
  mkHTTP "GET" path query
    {[ "X-Vcap-Request-Id" := ["id"]; "X-Forwarded-For" := [forwarded] ]} "10.0.0.9:4000".
Definition demo_log (path query forwarded : string) : AccessLog :=
  NewAccessLog (demo_http path query forwarded) 1500000000123456789 "10.1.2.3" "8083".


(** The template is one for HTML, so an ampersand of a query is not logged as it is. *)
Fact query_is_garbled :
  AccessLog_String (demo_log "/api/v1/query" "a=1&b=2" "1.2.3.4") =
  cef_record "1500000000123" "id" "/api/v1/query?a=1&amp;b=2" "GET" "1.2.3.4" "" "10.1.2.3" "8083".
Proof. by vm_compute. Qed.

(** [URL.Path] is decoded: a request for [/x%0ACEF:0|forged] writes a line of its
    own. *)
Fact forged_line :
  match Cut (ch 0x0a) (AccessLog_String (demo_log ("/x" +:+ newline +:+ "CEF:0|forged") "" "1.2.3.4")) with
  | Some (_, second) => HasPrefix second "CEF:0|forged" = true
  | None => False
  end.
Proof. by vm_compute. Qed.

(** A client with an IPv6 address leaves no address in the log. *)
Fact ipv6_client_is_lost : extractRemoteInfo (demo_log "/" "" "2001:db8::1") = ("", "").
Proof. by vm_compute. Qed.
