(* ===== verification/PromQLSources.v ===== *)
(** * PromQL: the source ids of a query

    Models the part of internal/promql/promql.go that finds and replaces the
    source ids of a query ([ExtractSourceIds], [ReplaceSourceIdSets] and their
    visitors, [addSourceIDsFromLabelMatcher]), over the syntax trees and the
    [Walk] of prometheus' promql/ast.go.  A matcher belongs to one selector, so
    the visitor's updates in place are a map over the tree.  A Go map used as a
    set is a [gset]. *)

From S2P Require Import Prelude GoStrings.

Inductive MatchType := MatchEqual | MatchNotEqual | MatchRegexp | MatchNotRegexp.

#[export] Instance MatchType_eq_dec : EqDecision MatchType.
Proof. solve_decision. Defined.

Record Matcher := mkMatcher { Type_ : MatchType; Name : string; Value : string }.

#[export] Instance Matcher_eq_dec : EqDecision Matcher.
Proof. solve_decision. Defined.

(** Durations, operators and literals are opaque to the program: they are kept
    as integers and strings. *)
Inductive Expr :=
| AggregateExpr (Op : Z) (Param : option Expr) (e : Expr) (Grouping : list string) (Without : bool)
| BinaryExpr (Op : Z) (LHS RHS : Expr)
| Call (Func : string) (Args : list Expr)
| MatrixSelector (Name_ : string) (Range Offset : Z) (LabelMatchers : list Matcher)
| SubqueryExpr (e : Expr) (Range Offset Step : Z)
| NumberLiteral (Val : string)
| ParenExpr (e : Expr)
| StringLiteral (Val : string)
| UnaryExpr (Op : Z) (e : Expr)
| VectorSelector (Name_ : string) (Offset : Z) (LabelMatchers : list Matcher).

(** [Walk] with a visitor that never stops: [visit] on every node, a node
    before its children, the parameter of an aggregation before its operand. *)
Section Walk.
Context {A : Type} (visit : Expr → A → A).

Fixpoint Walk (e : Expr) (a : A) : A :=
  let a := visit e a in
  match e with
  | AggregateExpr _ param e _ _ =>
      let a := match param with Some p => Walk p a | None => a end in
      Walk e a
  | BinaryExpr _ l r => Walk r (Walk l a)
  | Call _ args => foldl (λ a e, Walk e a) a args
  | SubqueryExpr e _ _ _ | ParenExpr e | UnaryExpr _ e => Walk e a
  | MatrixSelector _ _ _ _ | NumberLiteral _ | StringLiteral _ | VectorSelector _ _ _ => a
  end.
End Walk.

(** [Walk] with a visitor that rewrites the matchers of the selectors. *)
Section Rewrite.
Variable f : list Matcher → list Matcher.

Fixpoint rewrite_selectors (e : Expr) : Expr :=
  match e with
  | AggregateExpr op param e g w =>
      AggregateExpr op (match param with Some p => Some (rewrite_selectors p) | None => None end)
        (rewrite_selectors e) g w
  | BinaryExpr op l r => BinaryExpr op (rewrite_selectors l) (rewrite_selectors r)
  | Call func args => Call func (map rewrite_selectors args)
  | MatrixSelector n r o ms => MatrixSelector n r o (f ms)
  | SubqueryExpr e r o s => SubqueryExpr (rewrite_selectors e) r o s
  | ParenExpr e => ParenExpr (rewrite_selectors e)
  | UnaryExpr op e => UnaryExpr op (rewrite_selectors e)
  | VectorSelector n o ms => VectorSelector n o (f ms)
  | NumberLiteral _ | StringLiteral _ => e
  end.
End Rewrite.

Definition bar : ascii := "|"%char.

(** ** Extraction *)
Definition addSourceIDsFromLabelMatcher (sourceIDs : gset string) (m : Matcher) : gset string :=
  match Type_ m with
  | MatchRegexp => foldl (λ s id, s ∪ {[id]}) sourceIDs (Split bar (Value m))
  | MatchEqual => sourceIDs ∪ {[Value m]}
  | MatchNotEqual | MatchNotRegexp => sourceIDs
  end.

Definition addSourceIDsFromMatchers (ms : list Matcher) (sourceIDs : gset string) : gset string :=
  foldl (λ s m, if decide (Name m = "source_id") then addSourceIDsFromLabelMatcher s m else s)
    sourceIDs ms.

Definition sourceIDVisitor_Visit (node : Expr) (sourceIDs : gset string) : gset string :=
  match node with
  | VectorSelector _ _ ms | MatrixSelector _ _ _ ms => addSourceIDsFromMatchers ms sourceIDs
  | _ => sourceIDs
  end.

(** ** Replacement *)
Definition set_matcher (expansions : list string) (m : Matcher) : Matcher :=
  mkMatcher (if decide (1 < length expansions)%nat then MatchRegexp else MatchEqual)
    (Name m) (Join bar expansions).

Definition replaceSourceIdsInEqualMatcher (sets : gmap string (list string)) (m : Matcher) : Matcher :=
  match sets !! Value m with
  | Some expansions => set_matcher expansions m
  | None => m
  end.

Definition replaceSourceIdsInRegexpMatcher (sets : gmap string (list string)) (m : Matcher) : Matcher :=
  set_matcher (Split bar (Value m) ≫= λ sourceId, default [] (sets !! sourceId)) m.

Definition replaceInMatchers (sets : gmap string (list string)) (ms : list Matcher) : list Matcher :=
  map (λ m, if decide (Name m = "source_id") then
              match Type_ m with
              | MatchEqual => replaceSourceIdsInEqualMatcher sets m
              | MatchRegexp => replaceSourceIdsInRegexpMatcher sets m
              | _ => m
              end
            else m) ms.

Section Query.
(** prometheus' parser and printer. *)
Variable ParseExpr : string → result string Expr.
Variable print_expr : Expr → string.

Definition ExtractSourceIds (query : string) : result string (gset string) :=
  expr ← ParseExpr query;
  Ok (Walk sourceIDVisitor_Visit expr ∅).

Definition ReplaceSourceIdSets (query : string) (sets : gmap string (list string)) :
    result string string :=
  expr ← ParseExpr query;
  Ok (print_expr (rewrite_selectors (replaceInMatchers sets) expr)).
End Query.

(** ** Specification *)

(** The matchers of the selectors of a tree, in the order of [Walk]. *)
Definition selectors (e : Expr) : list (list Matcher) :=
  Walk (λ node acc, match node with
                    | VectorSelector _ _ ms | MatrixSelector _ _ _ ms => acc ++ [ms]
                    | _ => acc
                    end) e [].

(** The source ids a selector reads: what [LogCacheQuerier.Select] computes. *)
Definition selected_ids (ms : list Matcher) : gset string := addSourceIDsFromMatchers ms ∅.

(** The source ids of a matcher. *)
Definition matcher_ids (m : Matcher) : list string :=
  if decide (Name m = "source_id") then
    match Type_ m with
    | MatchRegexp => Split bar (Value m)
    | MatchEqual => [Value m]
    | _ => []
    end
  else [].

(** ** Induction on expressions *)
Section ExprInd.
Variable P : Expr → Prop.
Hypothesis HAgg : ∀ op param e g w, (∀ p, param = Some p → P p) → P e →
  P (AggregateExpr op param e g w).
Hypothesis HBin : ∀ op l r, P l → P r → P (BinaryExpr op l r).
Hypothesis HCall : ∀ f args, Forall P args → P (Call f args).
Hypothesis HMat : ∀ n r o ms, P (MatrixSelector n r o ms).
Hypothesis HSub : ∀ e r o s, P e → P (SubqueryExpr e r o s).
Hypothesis HNum : ∀ v, P (NumberLiteral v).
Hypothesis HPar : ∀ e, P e → P (ParenExpr e).
Hypothesis HStr : ∀ v, P (StringLiteral v).
Hypothesis HUn : ∀ op e, P e → P (UnaryExpr op e).
Hypothesis HVec : ∀ n o ms, P (VectorSelector n o ms).

Fixpoint Expr_induction (e : Expr) : P e :=
  match e return P e with
  | AggregateExpr op param e' g w =>
      HAgg op param e' g w
        (match param return (∀ p, param = Some p → P p) with
         | Some q => λ p E, match E in _ = o return (match o with Some p => P p | None => True end)
                            with eq_refl => Expr_induction q end
         | None => λ p E, match E in _ = o return (match o with Some p => P p | None => True end)
                          with eq_refl => I end
         end)
        (Expr_induction e')
  | BinaryExpr op l r => HBin op l r (Expr_induction l) (Expr_induction r)
  | Call f args =>
      HCall f args ((fix all (l : list Expr) : Forall P l :=
        match l return Forall P l with
        | [] => Forall_nil_2 P
        | x :: l => Forall_cons_2 P x l (Expr_induction x) (all l)
        end) args)
  | MatrixSelector n r o ms => HMat n r o ms
  | SubqueryExpr e' r o s => HSub e' r o s (Expr_induction e')
  | NumberLiteral v => HNum v
  | ParenExpr e' => HPar e' (Expr_induction e')
  | StringLiteral v => HStr v
  | UnaryExpr op e' => HUn op e' (Expr_induction e')
  | VectorSelector n o ms => HVec n o ms
  end.
End ExprInd.

(** ** Lemmas *)
Lemma elem_of_add_label s m x :
  Name m = "source_id" → x ∈ addSourceIDsFromLabelMatcher s m ↔ x ∈ s ∨ x ∈ matcher_ids m.
Proof.
  intros Hn. unfold addSourceIDsFromLabelMatcher, matcher_ids. rewrite decide_True by done.
  destruct (Type_ m); [set_solver|..].
  - split; [by left|]. by intros [|?%not_elem_of_nil].
  - generalize (Split bar (Value m)). intros l. revert s.
    induction l as [|id l IH]; intros s; simpl; [set_solver|]. rewrite IH. set_solver.
  - split; [by left|]. by intros [|?%not_elem_of_nil].
Qed.

Lemma elem_of_add_matchers ms s x :
  x ∈ addSourceIDsFromMatchers ms s ↔ x ∈ s ∨ ∃ m, m ∈ ms ∧ x ∈ matcher_ids m.
Proof.
  revert s. induction ms as [|m ms IH]; intros s; simpl.
  { split; [by left|]. by intros [|(?&?%not_elem_of_nil&_)]. }
  rewrite IH. setoid_rewrite elem_of_cons. case_decide as Hn.
  - rewrite elem_of_add_label by done. naive_solver.
  - unfold matcher_ids at 2. split; [naive_solver|].
    intros [?|(m'&[->|?]&Hx)]; [by left| |by right; eauto].
    unfold matcher_ids in Hx. rewrite decide_False in Hx by done. by apply not_elem_of_nil in Hx.
Qed.

Lemma elem_of_selected_ids ms x : x ∈ selected_ids ms ↔ ∃ m, m ∈ ms ∧ x ∈ matcher_ids m.
Proof. unfold selected_ids. rewrite elem_of_add_matchers. set_solver. Qed.

Notation visit_selectors := (λ node acc, match node with
  | VectorSelector _ _ ms | MatrixSelector _ _ _ ms => acc ++ [ms] | _ => acc end).

Lemma Walk_selectors_app e acc : Walk visit_selectors e acc = acc ++ selectors e.
Proof.
  unfold selectors. revert acc.
  induction e as [op param e g w Hp He|op l r Hl Hr|f args Hargs|n r o ms|e r o s He|v|e He|v|op e He|n o ms]
    using Expr_induction; intros acc; simpl; try done; try (by rewrite app_nil_r); try apply He.
  - destruct param as [p|]; [|apply He].
    rewrite He, (Hp p eq_refl acc), (He (Walk _ p [])), <- app_assoc. done.
  - rewrite Hr, (Hl acc), (Hr (Walk _ l [])), <- app_assoc. done.
  - revert acc. induction Hargs as [|e args He _ IH]; intros acc; simpl; [by rewrite app_nil_r|].
    rewrite IH, (IH (Walk _ e [])), He, <- app_assoc. done.
Qed.

(** The selectors of a compound expression are those of its parts. *)
Lemma selectors_Agg op param e g w :
  selectors (AggregateExpr op param e g w) =
  match param with Some p => selectors p | None => [] end ++ selectors e.
Proof.
  unfold selectors at 1. simpl. rewrite Walk_selectors_app. by destruct param.
Qed.

Lemma selectors_Bin op l r : selectors (BinaryExpr op l r) = selectors l ++ selectors r.
Proof. unfold selectors at 1. simpl. by rewrite Walk_selectors_app. Qed.

Lemma selectors_Call f args : selectors (Call f args) = args ≫= selectors.
Proof.
  assert (∀ acc, foldl (λ a e, Walk visit_selectors e a) acc args = acc ++ (args ≫= selectors))
    as H.
  { induction args as [|e args IH]; intros acc; simpl; [by rewrite app_nil_r|].
    by rewrite IH, Walk_selectors_app, <- app_assoc. }
  apply H.
Qed.

Lemma selectors_rewrite f e : selectors (rewrite_selectors f e) = map f (selectors e).
Proof.
  induction e as [op param e g w Hp He|op l r Hl Hr|fn args Hargs|n r o ms|e r o s He|v|e He|v|op e He|n o ms]
    using Expr_induction; simpl; try done; try apply He.
  - rewrite !selectors_Agg, map_app, He. f_equal. destruct param as [p|]; [|done]. by apply Hp.
  - by rewrite !selectors_Bin, map_app, Hl, Hr.
  - rewrite !selectors_Call. induction Hargs as [|e args He _ IH]; [done|].
    cbn [map]. by rewrite !bind_cons, map_app, He, IH.
Qed.

Lemma elem_of_Walk_ids e s x :
  x ∈ Walk sourceIDVisitor_Visit e s ↔ x ∈ s ∨ ∃ ms, ms ∈ selectors e ∧ x ∈ selected_ids ms.
Proof.
  revert s.
  induction e as [op param e g w Hp He|op l r Hl Hr|f args Hargs|n r o ms|e r o s' He|v|e He|v|op e He|n o ms]
    using Expr_induction; intros s; simpl; try apply He.
  5, 6: unfold selectors; simpl; set_solver.
  - rewrite He, selectors_Agg. destruct param as [p|]; [rewrite (Hp p eq_refl)|]; set_solver.
  - rewrite Hr, Hl, selectors_Bin. set_solver.
  - rewrite selectors_Call. revert s. induction Hargs as [|e args He _ IH]; intros s; simpl; [set_solver|].
    rewrite IH, He. set_solver.
  - unfold selectors. simpl. setoid_rewrite list_elem_of_singleton.
    rewrite elem_of_add_matchers. setoid_rewrite elem_of_selected_ids. naive_solver.
  - unfold selectors. simpl. setoid_rewrite list_elem_of_singleton.
    rewrite elem_of_add_matchers. setoid_rewrite elem_of_selected_ids. naive_solver.
Qed.

(** ** Replacement *)

(** The expansions of the ids a query may ask for: present, not empty and
    without the separator of the regular expressions. *)
Definition proper_sets (ids : gset string) (sets : gmap string (list string)) : Prop :=
  ∀ id, id ∈ ids → ∃ l, sets !! id = Some l ∧ l ≠ [] ∧ Forall (free_of bar) l.

(** The ids the expansions give. *)
Definition expanded (ids : gset string) (sets : gmap string (list string)) (x : string) : Prop :=
  ∃ id l, id ∈ ids ∧ sets !! id = Some l ∧ x ∈ l.

Lemma matcher_ids_set l m :
  Name m = "source_id" → l ≠ [] → Forall (free_of bar) l → matcher_ids (set_matcher l m) = l.
Proof.
  intros Hn Hne Hf. unfold matcher_ids, set_matcher. cbn [Name Type_ Value].
  rewrite decide_True by done. case_decide as Hl; [by apply Split_Join|].
  destruct l as [|x [|y l]]; [done|done|simpl in Hl; lia].
Qed.

Lemma replaceInMatchers_ids sets ms x :
  proper_sets (selected_ids ms) sets →
  x ∈ selected_ids (replaceInMatchers sets ms) ↔ expanded (selected_ids ms) sets x.
Proof.
  intros Hp. unfold expanded. rewrite elem_of_selected_ids. setoid_rewrite elem_of_selected_ids.
  assert (∀ m, m ∈ ms → x ∈ matcher_ids (if decide (Name m = "source_id") then
      match Type_ m with
      | MatchEqual => replaceSourceIdsInEqualMatcher sets m
      | MatchRegexp => replaceSourceIdsInRegexpMatcher sets m
      | _ => m
      end else m) ↔ ∃ id l, id ∈ matcher_ids m ∧ sets !! id = Some l ∧ x ∈ l) as Hm.
  { intros m Hm. assert (∀ id, id ∈ matcher_ids m →
      ∃ l, sets !! id = Some l ∧ l ≠ [] ∧ Forall (free_of bar) l) as Hids.
    { intros id Hid. apply Hp, elem_of_selected_ids. eauto. }
    unfold matcher_ids in Hids |- * at 2.
    destruct (decide (Name m = "source_id")) as [Hn|Hn].
    2: { unfold matcher_ids. rewrite decide_False by done. set_solver. }
    destruct (Type_ m) eqn:Et.
    - destruct (Hids (Value m)) as (l&El&Hne&Hf); [by left|].
      unfold replaceSourceIdsInEqualMatcher. rewrite El, matcher_ids_set by done. set_solver.
    - unfold matcher_ids. rewrite decide_True, Et by done. set_solver.
    - unfold replaceSourceIdsInRegexpMatcher. rewrite matcher_ids_set; [|done| |].
      + rewrite list_elem_of_bind.
        split; [|intros (id&l&Hid&El&Hx); exists id; by rewrite El].
        intros (id&Hx&Hid). destruct (Hids id Hid) as (l&El&_). rewrite El in Hx. eauto.
      + destruct (Split bar (Value m)) as [|id ids] eqn:Es; [by apply Split_not_nil in Es|].
        destruct (Hids id) as (l&El&Hne&_); [by left|]. simpl. rewrite El. simpl.
        by destruct l.
      + apply Forall_forall. intros y (id&Hy&Hid)%list_elem_of_bind.
        destruct (Hids id Hid) as (l&El&_&Hf). rewrite El in Hy. simpl in Hy.
        rewrite Forall_forall in Hf. by apply Hf.
    - unfold matcher_ids. rewrite decide_True, Et by done. set_solver. }
  unfold replaceInMatchers. split.
  - intros (m'&(m&->&Hin)%list_elem_of_fmap&Hx). apply Hm in Hx as (id&l&?&?&?); [|done].
    exists id, l. eauto.
  - intros (id&l&(m&Hin&Hid)&El&Hx). eexists. split; [apply list_elem_of_fmap; eauto|].
    apply Hm; eauto.
Qed.

(** All the source ids a tree reads. *)
Definition tree_ids (e : Expr) : gset string := Walk sourceIDVisitor_Visit e ∅.

Lemma elem_of_tree_ids e x :
  x ∈ tree_ids e ↔ ∃ ms, ms ∈ selectors e ∧ x ∈ selected_ids ms.
Proof. unfold tree_ids. rewrite elem_of_Walk_ids. set_solver. Qed.

Lemma rewrite_tree_ids sets e x :
  proper_sets (tree_ids e) sets →
  x ∈ tree_ids (rewrite_selectors (replaceInMatchers sets) e) ↔ expanded (tree_ids e) sets x.
Proof.
  intros Hp. rewrite elem_of_tree_ids, selectors_rewrite.
  assert (∀ ms, ms ∈ selectors e → proper_sets (selected_ids ms) sets) as Hsel.
  { intros ms Hms id Hid. apply Hp, elem_of_tree_ids. eauto. }
  unfold expanded. setoid_rewrite elem_of_tree_ids. split.
  - intros (ms'&(ms&->&Hms)%list_elem_of_fmap&Hx).
    apply replaceInMatchers_ids in Hx as (id&l&?&?&?); [|auto]. exists id, l. eauto.
  - intros (id&l&(ms&Hms&Hid)&El&Hx). eexists. split; [apply list_elem_of_fmap; eauto|].
    apply replaceInMatchers_ids; [auto|]. exists id, l. eauto.
Qed.

(** Reordering the matchers of the selectors does not change the ids. *)
Lemma tree_ids_permutation e e' :
  Forall2 (≡ₚ) (selectors e) (selectors e') → tree_ids e = tree_ids e'.
Proof.
  intros Hf. apply set_eq. intros x. rewrite !elem_of_tree_ids.
  setoid_rewrite elem_of_selected_ids. split.
  - intros (ms&Hms&m&Hm&Hx). apply list_elem_of_lookup_1 in Hms as [i Hi].
    destruct (Forall2_lookup_l _ _ _ _ _ Hf Hi) as (ms'&Hi'&Hp).
    exists ms'. split; [by eapply list_elem_of_lookup_2|]. exists m. by rewrite <- Hp.
  - intros (ms&Hms&m&Hm&Hx). apply list_elem_of_lookup_1 in Hms as [i Hi].
    destruct (Forall2_lookup_r _ _ _ _ _ Hf Hi) as (ms'&Hi'&Hp).
    exists ms'. split; [by eapply list_elem_of_lookup_2|]. exists m. by rewrite Hp.
Qed.


Definition source_matcher (t : MatchType) (v : string) : Matcher := mkMatcher t "source_id" v.


(** An id without an expansion is kept by an equality matcher and dropped from a
    regular expression. *)
Fact unexpanded_ids :
  matcher_ids (replaceSourceIdsInEqualMatcher ∅ (source_matcher MatchEqual "a")) = ["a"%string] ∧
  matcher_ids (replaceSourceIdsInRegexpMatcher ∅ (source_matcher MatchRegexp "a")) = [""%string].
Proof. by vm_compute. Qed.

(** An expansion that holds the separator reads ids nobody expanded to. *)
Fact separator_in_expansion :
  let sets := {[ "x?|victim"%string := ["mine"; "x?|victim"]%string ]} in
  matcher_ids (replaceSourceIdsInEqualMatcher sets (source_matcher MatchEqual "x?|victim")) =
  ["mine"; "x?"; "victim"]%string.
Proof. by vm_compute. Qed.
