(* ===== verification/CAPI.v ===== *)
(** * The Cloud Controller client

    Models internal/auth/capi_client.go.  The HTTP client is an operation on a
    world [W]; [url.Parse] is a parameter.  Latency gauges and log lines are left
    out.  The loop over the pages of a list is bounded by the server only: it
    carries fuel, and [None] is a run that needs more. *)

From S2P Require Import Prelude Envelope GoStrings GoFloat Json JsonDecode NetURL.

Record URL := mkURL { Scheme : string; Host : string; Path : string; RawQuery : string }.

Record Response := mkResponse { StatusCode : Z; Body : string }.
Definition StatusOK : Z := 200.

Record resource := mkResource { Guid : string; resource_Name : string }.

Record CAPIClient := mkCAPI {
  addr : string;
  (** [clientToken + sourceId] to the time it was authorized. *)
  tokenCache : gmap string Z;
  cacheExpirationInterval : Z;
}.

Definition set_tokenCache (m : gmap string Z) (c : CAPIClient) : CAPIClient :=
  mkCAPI (addr c) m (cacheExpirationInterval c).

(** ** Construction: [log.Fatalf] ends the process. *)
Inductive CAPIOption := WithCacheExpirationInterval (interval : Z).

Definition apply_option (c : CAPIClient) (o : CAPIOption) : CAPIClient :=
  match o with WithCacheExpirationInterval interval => mkCAPI (addr c) (tokenCache c) interval end.

Definition Minute : Z := 60 * 1000000000.

Definition NewCAPIClient (url_Parse : string → result string URL) (address : string)
    (opts : list CAPIOption) : result string CAPIClient :=
  match url_Parse address with
  | Err e => Err ("failed to parse CAPI addr: " +:+ e)
  | Ok _ => Ok (foldl apply_option (mkCAPI address ∅ Minute) opts)
  end.

(** ** The pages of a list *)
Definition bad_type : string := "json: cannot unmarshal value of this type".

Definition into_resource : resource → json → result string resource :=
  into_struct bad_type (λ r kv,
    if named kv.1 "guid" then g ← into_string bad_type (Guid r) kv.2; Ok (mkResource g (resource_Name r))
    else if named kv.1 "name" then n ← into_string bad_type (resource_Name r) kv.2; Ok (mkResource (Guid r) n)
    else Ok r).

(** The anonymous structs of [Pagination] and [Next] hold only the link. *)
Definition into_next : string → json → result string string :=
  into_struct bad_type (λ href kv, if named kv.1 "href" then into_string bad_type href kv.2 else Ok href).
Definition into_pagination : string → json → result string string :=
  into_struct bad_type (λ href kv, if named kv.1 "next" then into_next href kv.2 else Ok href).

Record apps := mkApps { Next_Href : string; Resources : slice resource }.

Definition into_apps : apps → json → result string apps :=
  into_struct bad_type (λ a kv,
    if named kv.1 "pagination" then
      href ← into_pagination (Next_Href a) kv.2; Ok (mkApps href (Resources a))
    else if named kv.1 "resources" then
      rs ← into_array bad_type (mkResource "" "") into_resource (Resources a) kv.2;
      Ok (mkApps (Next_Href a) rs)
    else Ok a).

(** The [next] link (empty when there is none) and the resources of a page. *)
Definition decode_page (body : string) : result string (string * list resource) :=
  a ← Decode (into_apps (mkApps "" nil_slice)) "unexpected EOF"%string body;
  Ok (Next_Href a, slice_elements (Resources a)).

(** A request's query with these parameters set. *)
Definition with_query (params : list (string * string)) (u : URL) : URL :=
  mkURL (Scheme u) (Host u) (Path u)
    (Encode (foldl (λ q kv, Values_Set kv.1 kv.2 q) (ParseQuery (RawQuery u)) params)).

Section CAPI.
Context {W : Type}.
(** [client.Do] of a GET request with an [Authorization] header. *)
Variable Do : URL → string → W → W * result string Response.
Variable url_Parse : string → result string URL.

Definition doRequest (req : URL) (authToken : string) (w : W) : W * result string Response :=
  let '(w, resp) := Do req authToken w in
  (w, match resp with Err err => Err err | Ok resp => Ok resp end).

(** [HasApp] and [HasService] ask for one resource. *)
Definition has_resource (c : CAPIClient) (path sourceID authToken : string) (w : W) : W * bool :=
  match url_Parse (addr c +:+ path +:+ sourceID) with
  | Err _ => (w, false)
  | Ok req =>
      let '(w, resp) := doRequest req authToken w in
      match resp with
      | Err _ => (w, false)
      | Ok resp => (w, StatusCode resp =? StatusOK)
      end
  end.

Definition HasApp (c : CAPIClient) (sourceID authToken : string) (w : W) : W * bool :=
  has_resource c "/v3/apps/" sourceID authToken w.
Definition HasService (c : CAPIClient) (sourceID authToken : string) (w : W) : W * bool :=
  has_resource c "/v2/service_instances/" sourceID authToken w.

Definition IsAuthorized (now : Z) (c : CAPIClient) (sourceId clientToken : string) (w : W) :
    CAPIClient * W * bool :=
  match tokenCache c !! (clientToken +:+ sourceId) with
  | Some _ => (c, w, true)
  | None =>
      let '(w, ok) := HasApp c sourceId clientToken w in
      let '(w, ok) := if (ok : bool) then (w, true) else HasService c sourceId clientToken w in
      if (ok : bool)
      then (set_tokenCache (<[clientToken +:+ sourceId := now]> (tokenCache c)) c, w, true)
      else (c, w, false)
  end.

Definition doResourceRequest (req : URL) (authToken : string) (w : W) :
    W * result string (list resource * option URL) :=
  let '(w, resp) := doRequest req authToken w in
  match resp with
  | Err err => (w, Err ("failed CAPI request with error: " +:+ err))
  | Ok resp =>
      if negb (StatusCode resp =? StatusOK) then (w, Err "failed CAPI request with status"%string)
      else
        match decode_page (Body resp) with
        | Err err => (w, Err ("failed to decode resource list request: " +:+ err))
        | Ok (href, resources) =>
            if decide (href = "") then (w, Ok (resources, None))
            else
              match url_Parse href with
              | Err err => (w, Err ("failed to parse URL: " +:+ err))
              | Ok next =>
                  (w, Ok (resources,
                          Some (mkURL (Scheme req) (Host req) (Path next) (RawQuery next))))
              end
        end
  end.

Fixpoint doPaginatedResourceRequest (fuel : nat) (req : URL) (authToken : string)
    (resources : list resource) (w : W) : option (W * result string (list resource)) :=
  match fuel with
  | O => None
  | S fuel =>
      match doResourceRequest req authToken w with
      | (w, Err err) => Some (w, Err err)
      | (w, Ok (page, nextPageURL)) =>
          let resources := resources ++ page in
          match nextPageURL with
          | None => Some (w, Ok resources)
          | Some next => doPaginatedResourceRequest fuel next authToken resources w
          end
      end
  end.

Definition add_guid (m : gmap string (list string)) (r : resource) : gmap string (list string) :=
  <[resource_Name r := default [] (m !! resource_Name r) ++ [Guid r]]> m.

Definition comma : ascii := ","%char.

Definition GetRelatedSourceIds (fuel : nat) (c : CAPIClient) (appNames : list string)
    (authToken : string) (w : W) : option (W * gmap string (list string)) :=
  if decide (appNames = []) then Some (w, ∅)
  else match url_Parse (addr c +:+ "/v3/apps") with
  | Err _ => Some (w, ∅)
  | Ok req =>
      let req := with_query [("names", Join comma appNames); ("per_page", "5000")]%string req in
      match doPaginatedResourceRequest fuel req authToken [] w with
      | None => None
      | Some (w, Err _) => Some (w, ∅)
      | Some (w, Ok resources) => Some (w, foldl add_guid ∅ resources)
      end
  end.

Definition sourceIDsForResourceType (fuel : nat) (c : CAPIClient)
    (resourceType authToken : string) (w : W) : option (W * result string (list string)) :=
  match url_Parse (addr c +:+ "/v3/" +:+ resourceType) with
  | Err err => Some (w, Err err)
  | Ok req =>
      match doPaginatedResourceRequest fuel (with_query [("per_page", "5000")%string] req)
              authToken [] w with
      | None => None
      | Some (w, Err err) => Some (w, Err err)
      | Some (w, Ok resources) => Some (w, Ok (map Guid resources))
      end
  end.

Definition AvailableSourceIDs (fuel : nat) (c : CAPIClient) (authToken : string) (w : W) :
    option (W * list string) :=
  match sourceIDsForResourceType fuel c "apps" authToken w with
  | None => None
  | Some (w, Err _) => Some (w, [])
  | Some (w, Ok appIDs) =>
      match sourceIDsForResourceType fuel c "service_instances" authToken w with
      | None => None
      | Some (w, Err _) => Some (w, [])
      | Some (w, Ok serviceIDs) => Some (w, appIDs ++ serviceIDs)
      end
  end.
End CAPI.

Definition TokenCacheSize (c : CAPIClient) : nat := base.size (tokenCache c).

(** One tick of [pruneTokens]. *)
Definition pruneTokens (now : Z) (c : CAPIClient) : CAPIClient :=
  set_tokenCache (filter (λ kv, now - kv.2 < cacheExpirationInterval c) (tokenCache c)) c.

(** ** Specification and contract *)

(** The entries of the cache, since a tick at [T]: none is older than an interval
    before the tick, none is from the future. *)
Definition cache_since (T now : Z) (c : CAPIClient) : Prop :=
  map_Forall (λ _ t, T - cacheExpirationInterval c < t ≤ now) (tokenCache c).

Lemma cache_since_later T now now' c : now ≤ now' → cache_since T now c → cache_since T now' c.
Proof. intros Hn Hc k t Hk. specialize (Hc k t Hk). simpl in *. lia. Qed.

Section Contract.
Context {W : Type} (Do : URL → string → W → W * result string Response).
Context (url_Parse : string → result string URL).

(** C24: after a tick of [pruneTokens] at [T] and until the next one, a positive
    answer of [IsAuthorized] is either an answer of the Cloud Controller to this
    very request (an app or a service instance found with the token), which is
    cached, or a cached one that is younger than twice the interval; a negative
    answer is never cached. *)
Theorem IsAuthorized_fresh T now c sourceId token w :
  cache_since T now c → T ≤ now ≤ T + cacheExpirationInterval c → 0 < cacheExpirationInterval c →
  let '(c', w', ok) := IsAuthorized Do url_Parse now c sourceId token w in
  cache_since T now c' ∧
  (if (ok : bool) then
     (∃ t, tokenCache c !! (token +:+ sourceId) = Some t ∧
           now - t < 2 * cacheExpirationInterval c ∧ c' = c ∧ w' = w) ∨
     (tokenCache c !! (token +:+ sourceId) = None ∧
      tokenCache c' = <[token +:+ sourceId := now]> (tokenCache c) ∧
      ((HasApp Do url_Parse c sourceId token w).2 = true ∨
       (HasService Do url_Parse c sourceId token (HasApp Do url_Parse c sourceId token w).1).2 = true))
   else c' = c ∧ tokenCache c !! (token +:+ sourceId) = None) ∧
  cache_since (T + cacheExpirationInterval c) (T + cacheExpirationInterval c)
    (pruneTokens (T + cacheExpirationInterval c) c').
Proof.
  intros Hc Hn Hi. unfold IsAuthorized.
  assert (∀ c', cache_since T now c' → cacheExpirationInterval c' = cacheExpirationInterval c →
    cache_since (T + cacheExpirationInterval c) (T + cacheExpirationInterval c)
      (pruneTokens (T + cacheExpirationInterval c) c')) as Hprune.
  { intros c' Hc' E k t [Hk Ht]%map_lookup_filter_Some. specialize (Hc' k t Hk).
    simpl in *. lia. }
  destruct (tokenCache c !! (token +:+ sourceId)) as [t|] eqn:Et.
  { split_and!; [done| |by apply Hprune]. left. exists t. split_and!; try done.
    specialize (Hc _ _ Et). simpl in Hc. lia. }
  destruct (HasApp Do url_Parse c sourceId token w) as [w1 ok1] eqn:E1. simpl.
  assert (cache_since T now (set_tokenCache (<[token +:+ sourceId := now]> (tokenCache c)) c)) as Hc'.
  { apply map_Forall_insert_2; [simpl; lia|exact Hc]. }
  destruct ok1.
  { split_and!; [done| |by apply Hprune]. right. by split_and!; [| |left]. }
  destruct (HasService Do url_Parse c sourceId token w1) as [w2 ok2] eqn:E2.
  destruct ok2; simpl.
  - split_and!; [done| |by apply Hprune]. right. by split_and!; [| |right].
  - split_and!; [done..|by apply Hprune].
Qed.

(** The requests a world has seen, and a server whose answer depends on the URL. *)
Context (log : W → list (URL * string)) (reply : URL → result string Response).
Hypothesis Do_replies : ∀ u token w, ∃ w',
  Do u token w = (w', reply u) ∧ log w' = log w ++ [(u, token)].

(** The pages of a list from a URL: each is at the scheme and host of the first. *)
Inductive pages : URL → list (URL * list resource) → Prop :=
| last_page u body rs :
    reply u = Ok (mkResponse StatusOK body) → decode_page body = Ok (""%string, rs) →
    pages u [(u, rs)]
| next_page u body href rs next l :
    reply u = Ok (mkResponse StatusOK body) → decode_page body = Ok (href, rs) → href ≠ "" →
    url_Parse href = Ok next → pages (mkURL (Scheme u) (Host u) (Path next) (RawQuery next)) l →
    pages u ((u, rs) :: l).

Lemma pages_host u l : pages u l → Forall (λ p, Scheme p.1 = Scheme u ∧ Host p.1 = Host u) l.
Proof. induction 1; repeat constructor; done. Qed.

(** C38: the loop over the pages of a list returns the resources of all its
    pages in order, with one request per page; every request goes to the scheme
    and host of the first one, whatever the [next] links say, with the caller's
    token. *)
Theorem doPaginatedResourceRequest_complete u l fuel token acc w :
  pages u l → (length l ≤ fuel)%nat →
  ∃ w', doPaginatedResourceRequest Do url_Parse fuel u token acc w =
          Some (w', Ok (acc ++ concat l.*2)) ∧
    log w' = log w ++ ((λ p, (p.1, token)) <$> l) ∧
    Forall (λ p, Scheme p.1 = Scheme u ∧ Host p.1 = Host u) l.
Proof.
  intros Hp Hf. assert (∃ w', doPaginatedResourceRequest Do url_Parse fuel u token
    acc w = Some (w', Ok (acc ++ concat l.*2)) ∧ log w' = log w ++ ((λ p, (p.1, token)) <$> l))
    as (w'&?&?); [|exists w'; split_and!; [done..|by apply pages_host]].
  revert fuel acc w Hf. induction Hp as [u body rs Hr Hd|u body href rs next l Hr Hd Hh Hn _ IH];
    intros [|fuel] acc w Hf; simpl in Hf; try lia;
    destruct (Do_replies u token w) as (w1&E&Hl);
    simpl; unfold doResourceRequest, doRequest; rewrite E, Hr; simpl; rewrite Hd.
  - rewrite decide_True by done. exists w1. by rewrite app_nil_r.
  - rewrite decide_False, Hn by done. destruct (IH fuel (acc ++ rs) w1) as (w'&->&Hl'); [lia|].
    exists w'. by rewrite Hl', Hl, <- !app_assoc.
Qed.
End Contract.

(** A controller with one app, ["g"], of the token ["t"]. *)
Definition demo_parse (s : string) : result string URL := Ok (mkURL "https" "capi" s "").
Definition demo_Do (u : URL) (token : string) (w : list (URL * string)) :
    list (URL * string) * result string Response :=
  (w ++ [(u, token)],
   Ok (mkResponse (if decide (Path u = "/v3/apps/g"%string ∧ token = "t"%string) then 200 else 404) "")).
Definition demo_capi : CAPIClient := mkCAPI "" {[ "told"%string := 50 ]} 60.

Lemma IsAuthorized_fresh_witness :
  let '(c', w', ok) := IsAuthorized demo_Do demo_parse 110 demo_capi "g" "t" [] in
  cache_since 100 110 c' ∧
  (if (ok : bool) then
     (∃ t, tokenCache demo_capi !! ("t" +:+ "g") = Some t ∧
           110 - t < 2 * cacheExpirationInterval demo_capi ∧ c' = demo_capi ∧ w' = []) ∨
     (tokenCache demo_capi !! ("t" +:+ "g") = None ∧
      tokenCache c' = <["t" +:+ "g" := 110]> (tokenCache demo_capi) ∧
      ((HasApp demo_Do demo_parse demo_capi "g" "t" []).2 = true ∨
       (HasService demo_Do demo_parse demo_capi "g" "t"
          (HasApp demo_Do demo_parse demo_capi "g" "t" []).1).2 = true))
   else c' = demo_capi ∧ tokenCache demo_capi !! ("t" +:+ "g") = None) ∧
  cache_since (100 + cacheExpirationInterval demo_capi) (100 + cacheExpirationInterval demo_capi)
    (pruneTokens (100 + cacheExpirationInterval demo_capi) c').
Proof.
  apply (IsAuthorized_fresh demo_Do demo_parse 100 110 demo_capi "g" "t" []).
  - apply map_Forall_singleton. simpl. lia.
  - simpl. lia.
  - simpl. lia.
Defined.

(** ** Pages as the Cloud Controller writes them *)
Definition resource_json (r : resource) : json :=
  JObject [("guid", JString (Guid r)); ("name", JString (resource_Name r))].

Definition page_json (href : string) (rs : list resource) : json :=
  JObject [("pagination", JObject [("next", if decide (href = "") then JNull
                                            else JObject [("href", JString href)])]);
           ("resources", JArray (resource_json <$> rs))].

Lemma into_resource_json r : into_resource (mkResource "" "") (resource_json r) = Ok r.
Proof. by destruct r. Qed.

Lemma page_json_wf href rs :
  utf8 href → Forall (λ r, utf8 (Guid r) ∧ utf8 (resource_Name r)) rs → wf_json 0 (page_json href rs).
Proof.
  intros Hh Hrs. constructor; [done|]. members.
  - constructor; [done|]. members. case_decide; [done|]. constructor; [done|]. by members; constructor.
  - constructor; [done|]. rewrite Forall_fmap. eapply Forall_impl; [exact Hrs|]. intros r [Hg Hn].
    constructor; [done|]. members; by constructor.
Qed.

Lemma into_pagination_next href :
  into_pagination "" (JObject [("next", if decide (href = "") then JNull else JObject [("href", JString href)])]) =
  Ok href.
Proof. unfold into_pagination. cbn [into_struct fold_result fst snd]. case_decide; by subst. Qed.

Lemma decode_page_json href rs :
  utf8 href → Forall (λ r, utf8 (Guid r) ∧ utf8 (resource_Name r)) rs →
  decode_page (encode (page_json href rs)) = Ok (href, rs).
Proof.
  intros Hh Hrs. unfold decode_page. rewrite <- (sapp_nil_r (encode _)), Decode_encode; [|by apply page_json_wf|done].
  destruct (into_array_back bad_type (mkResource "" "") into_resource resource_json rs into_resource_json)
    as (s&Es&<-).
  unfold page_json, into_apps. cbn [into_struct fold_result fst snd].
  change (named "pagination" "pagination") with true. change (named "resources" "pagination") with false.
  change (named "resources" "resources") with true. cbv iota.
  cbn [Next_Href Resources]. rewrite into_pagination_next. cbn [mbind result_bind Next_Href Resources].
  by rewrite Es.
Qed.

Definition demo_reply (u : URL) : result string Response :=
  Ok (mkResponse 200 (encode (if decide (Path u = "/1") then page_json "/2" [mkResource "g1" "a"]
                              else page_json "" [mkResource "g2" "b"]))).

Lemma doPaginatedResourceRequest_complete_witness :
  let u1 := mkURL "https" "capi" "/1" "" in
  let l := [(u1, [mkResource "g1" "a"]); (mkURL "https" "capi" "/2" "", [mkResource "g2" "b"])] in
  ∃ w', doPaginatedResourceRequest (λ u t w, (w ++ [(u, t)], demo_reply u))
          (λ s, Ok (mkURL "http" "evil" s "")) 2 u1 "t" [] [] =
          Some (w', Ok ([] ++ concat l.*2)) ∧
    w' = [] ++ ((λ p, (p.1, "t"%string)) <$> l) ∧
    Forall (λ p, Scheme p.1 = Scheme u1 ∧ Host p.1 = Host u1) l.
Proof.
  intros u1 l.
  apply (doPaginatedResourceRequest_complete (λ u t w, (w ++ [(u, t)], demo_reply u))
    (λ s, Ok (mkURL "http" "evil" s "")) (λ w, w) demo_reply
    (λ u t w, ex_intro _ _ (conj eq_refl eq_refl)) u1 l 2 "t" [] []).
  - eapply (next_page _ _ u1 _ "/2"); [done|by vm_compute|done|done|].
    eapply last_page; [done|by vm_compute].
  - simpl. lia.
Defined.

(** The key of the cache does not separate the token from the source id. *)
Fact cache_key_collides : ("to" +:+ "ken" = "tok" +:+ "en")%string.
Proof. done. Qed.

(** The source id is not escaped in the URL: an id with a query part is answered
    for the app before it. *)
Fact query_in_source_id :
  (HasApp (λ u t w, (w, Ok (mkResponse (if decide (Path u = "/v3/apps/g") then 200 else 404) "")))
     (λ s, match Split "?"%char s with
           | p :: q => Ok (mkURL "https" "capi" p (Join "?"%char q)) | [] => Err s end)
     demo_capi "g?|victim" "t" tt).2 = true.
Proof. by vm_compute. Qed.
