(* ===== verification/Config.v ===== *)
(** * The configuration of the commands

    Models internal/config/metrics_server.go, internal/tls/tls.go and the
    config.go of the four commands under cmd/: a record of the environment and
    its defaults.  [envstruct.Load] overwrites the fields the environment sets;
    it is a parameter.  Durations are in nanoseconds, as Go has them. *)

From S2P Require Import Prelude.

Definition Second : Z := 1000000000.
Definition Minute : Z := 60 * Second.

Record MetricsServer := mkMetricsServer {
  Port : Z; CAFile : string; CertFile : string; KeyFile : string; DebugMetrics : bool; PprofPort : Z;
}.
Definition metrics_on (port : Z) : MetricsServer := mkMetricsServer port "" "" "" false 0.

Module TLS.
Record TLS := mkTLS { CAPath : string; CertPath : string; KeyPath : string }.
Definition HasAnyCredential (t : TLS) : bool :=
  bool_decide (CAPath t ≠ "" ∨ CertPath t ≠ "" ∨ KeyPath t ≠ "").
Definition none : TLS := mkTLS "" "" "".
End TLS.

Module CFAuthProxyConfig.
Record CAPI := mkCAPI { Addr : string; CAPath : string; CommonName : string }.
Record UAA := mkUAA { ClientID : string; ClientSecret : string; uaa_Addr : string; uaa_CAPath : string }.

Record Config := mkConfig {
  LogCacheGatewayAddr : string;
  cfg_Addr : string;
  InternalIP : string;
  CertPath : string;
  KeyPath : string;
  SkipCertVerify : bool;
  PromQLUnimplemented : bool;
  ProxyCAPath : string;
  SecurityEventLog : string;
  TokenPruningInterval : Z;
  CacheExpirationInterval : Z;
  cfg_CAPI : CAPI;
  cfg_UAA : UAA;
  cfg_MetricsServer : MetricsServer;
  UseRFC339 : bool;
}.

Definition LoadConfig (Load : Config → result string Config) : result string Config :=
  Load (mkConfig "localhost:8081" ":8083" "0.0.0.0" "" "" false false "" "" 0 Minute
    (mkCAPI "" "" "") (mkUAA "" "" "" "") (metrics_on 6065) false).
End CFAuthProxyConfig.

Module GatewayConfig.
Record Config := mkConfig {
  Addr : string;
  LogCacheAddr : string;
  ProxyCertPath : string;
  ProxyKeyPath : string;
  Version : string;
  cfg_TLS : TLS.TLS;
  cfg_MetricsServer : MetricsServer;
  UseRFC339 : bool;
}.

(** The version is the build's, whatever the environment says. *)
Definition LoadConfig (buildVersion : string) (Load : Config → result string Config)
    (WriteReport : Config → option string) : result string Config :=
  c ← Load (mkConfig ":8081" "localhost:8080" "" "" "" TLS.none (metrics_on 6063) false);
  let c := mkConfig (Addr c) (LogCacheAddr c) (ProxyCertPath c) (ProxyKeyPath c) buildVersion
             (cfg_TLS c) (cfg_MetricsServer c) (UseRFC339 c) in
  match WriteReport c with Some err => Err err | None => Ok c end.
End GatewayConfig.

Module LogCacheConfig.
Record Config := mkConfig {
  Addr : string;
  QueryTimeout : Z;
  MemoryLimitPercent : Z;
  MemoryLimit : Z;
  MaxPerSource : Z;
  TruncationInterval : Z;
  PrunesPerGC : Z;
  NodeIndex : Z;
  NodeAddrs : list string;
  cfg_TLS : TLS.TLS;
  cfg_MetricsServer : MetricsServer;
  UseRFC339 : bool;
}.

Definition default_config : Config :=
  mkConfig ":8080" (10 * Second) 50 0 100000 (1 * Second) 3 0 [] TLS.none (metrics_on 6060) false.
Definition LoadConfig (Load : Config → result string Config) : result string Config :=
  Load default_config.
End LogCacheConfig.

Module SyslogConfig.
Record Config := mkConfig {
  LogCacheAddr : string;
  SyslogPort : Z;
  LogCacheTLS : TLS.TLS;
  SyslogTLSCertPath : string;
  SyslogTLSKeyPath : string;
  SyslogIdleTimeout : Z;
  SyslogMaxMessageLength : Z;
  SyslogTrimMessageWhitespace : bool;
  SyslogClientTrustedCAFile : string;
  cfg_MetricsServer : MetricsServer;
  UseRFC339 : bool;
}.

Definition default_config : Config :=
  mkConfig ":8080" 8888 TLS.none "" "" (2 * Minute) (65 * 1024) true "" (metrics_on 6061) false.
Definition LoadConfig (Load : Config → result string Config) : result string Config :=
  Load default_config.
End SyslogConfig.
