(* ===== verification/CFAuth.v ===== *)
(** * The authorization middleware

    Models internal/auth/cf_auth_middleware.go: the handlers of the routes read,
    query and query_range, meta and info.  The token reader, the authorizer, the
    name translator and the fetcher of the metadata are the interfaces of the
    source: operations on a world [W].  A response is a status with a body, the
    request handed to the wrapped handler, or the report of the meta route.  The
    values of the query string are a map to lists ([url.Values]). *)

From S2P Require Import Prelude GoStrings NetURL Envelope PromQLSources CAPI.

Record Oauth2ClientContext := mkContext { IsAdmin : bool; Token : string; ExpiresAt : Z }.

Record request := mkRequest { Authorization : string; Values : gmap string (list string) }.

Inductive response :=
| Status (code : Z) (body : string)
| Forward (r : request)
| MetaReport (m : gmap string MetaInfo).

Definition StatusNotFound : Z := 404.
Definition StatusBadRequest : Z := 400.
Definition StatusBadGateway : Z := 502.
Definition NotFound : response := Status StatusNotFound "".

(** The request with its query replaced. *)
Definition with_query_value (q : string) (r : request) : request :=
  mkRequest (Authorization r) (Values_Set "query" q (Values r)).

Section Middleware.
Context {W : Type}.
Variable oauth2_Read : string → W → outcome (W * result string Oauth2ClientContext).
Variable IsAuthorized : string → string → W → W * bool.
Variable AvailableSourceIDs : string → W → W * list string.
Variable Meta : W → W * result string (gmap string MetaInfo).
Variable GetRelatedSourceIds : list string → string → W → W * option (gmap string (list string)).
Variable ParseExpr : string → result string Expr.
Variable print_expr : Expr → string.

Definition read_handler (sourceID : string) (r : request) (w : W) : outcome (W * response) :=
  if decide (sourceID = "") then Done (w, NotFound)
  else if decide (Authorization r = "") then Done (w, NotFound)
  else
    '(w, userContext) ← oauth2_Read (Authorization r) w;
    match userContext with
    | Err _ => Done (w, NotFound)
    | Ok userContext =>
        if IsAdmin userContext then Done (w, Forward r)
        else
          let '(w, ok) := IsAuthorized sourceID (Token userContext) w in
          Done (w, if (ok : bool) then Forward r else NotFound)
    end.

Fixpoint authorizeSourceIds (sourceIds : list string) (c : Oauth2ClientContext) (w : W) :
    W * list string :=
  match sourceIds with
  | [] => (w, [])
  | sourceId :: sourceIds =>
      let '(w, ok) := IsAuthorized sourceId (Token c) w in
      let '(w, l) := authorizeSourceIds sourceIds c w in
      (w, if (ok : bool) then sourceId :: l else l)
  end.

(** The loop over the source ids; [None] is the early 404. *)
Fixpoint expand_all (sourceIds : list string) (c : Oauth2ClientContext)
    (related : gmap string (list string)) (w : W) : W * option (gmap string (list string)) :=
  match sourceIds with
  | [] => (w, Some related)
  | sourceId :: sourceIds =>
      let sourceIdSet := default [] (related !! sourceId) ++ [sourceId] in
      if IsAdmin c then expand_all sourceIds c (<[sourceId := sourceIdSet]> related) w
      else
        let '(w, sourceIdSet) := authorizeSourceIds sourceIdSet c w in
        if decide (sourceIdSet = []) then (w, None)
        else expand_all sourceIds c (<[sourceId := sourceIdSet]> related) w
  end.

(** [order] is the list [ExtractSourceIds] makes of its set. *)
Definition query_handler (order : gset string → list string) (r : request) (w : W) :
    outcome (W * response) :=
  let authToken := Authorization r in
  if decide (authToken = "") then Done (w, NotFound)
  else
    let query := Values_Get (Values r) "query" in
    match ExtractSourceIds ParseExpr query with
    | Err err => Done (w, Status StatusBadRequest err)
    | Ok ids =>
        let sourceIds := order ids in
        if decide (sourceIds = []) then
          Done (w, Status StatusBadRequest "query does not request any source_ids")
        else
          '(w, c) ← oauth2_Read authToken w;
          match c with
          | Err _ => Done (w, NotFound)
          | Ok c =>
              let '(w, related) := GetRelatedSourceIds sourceIds authToken w in
              match related with
              | None => Done (w, NotFound)
              | Some related =>
                  let '(w, sets) := expand_all sourceIds c related w in
                  match sets with
                  | None => Done (w, NotFound)
                  | Some sets =>
                      match ReplaceSourceIdSets ParseExpr print_expr query sets with
                      | Err _ => Done (w, NotFound)
                      | Ok modifiedQuery => Done (w, Forward (with_query_value modifiedQuery r))
                      end
                  end
              end
          end
    end.

Definition onlyAuthorized (authToken : string) (meta : gmap string MetaInfo)
    (c : Oauth2ClientContext) (w : W) : W * gmap string MetaInfo :=
  if IsAdmin c then (w, meta)
  else
    let '(w, authorized) := AvailableSourceIDs authToken w in
    (w, foldl (λ m id, match meta !! id with Some v => <[id := v]> m | None => m end) ∅ authorized).

Definition meta_handler (r : request) (w : W) : outcome (W * response) :=
  if decide (Authorization r = "") then Done (w, NotFound)
  else
    '(w, c) ← oauth2_Read (Authorization r) w;
    match c with
    | Err _ => Done (w, NotFound)
    | Ok c =>
        let '(w, meta) := Meta w in
        match meta with
        | Err _ => Done (w, Status StatusBadGateway "")
        | Ok meta =>
            let '(w, m) := onlyAuthorized (Authorization r) meta c w in
            Done (w, MetaReport m)
        end
    end.

Definition info_handler (r : request) (w : W) : outcome (W * response) := Done (w, Forward r).

(** ** Lemmas *)

Lemma onlyAuthorized_spec token meta c w src i :
  (onlyAuthorized token meta c w).2 !! src = Some i ↔
  meta !! src = Some i ∧ (IsAdmin c = true ∨ src ∈ (AvailableSourceIDs token w).2).
Proof.
  clear oauth2_Read IsAuthorized Meta GetRelatedSourceIds ParseExpr print_expr.
  unfold onlyAuthorized. destruct (IsAdmin c); simpl; [naive_solver|].
  destruct (AvailableSourceIDs token w) as [w1 ids]. simpl.
  assert (∀ m : gmap string MetaInfo,
    foldl (λ m id, match meta !! id with Some v => <[id := v]> m | None => m end) m ids !! src
    = Some i ↔ (src ∈ ids ∧ meta !! src = Some i) ∨
               ((src ∉ ids ∨ meta !! src = None) ∧ m !! src = Some i)) as H.
  { induction ids as [|id ids IH]; intros m; simpl; [set_solver|].
    rewrite IH, !elem_of_cons. destruct (decide (src ∈ ids)), (decide (id = src)) as [->|Hne].
    1,3: destruct (meta !! src) as [v|] eqn:E; [rewrite lookup_insert_eq|]; naive_solver.
    all: destruct (meta !! id) as [v|]; [rewrite lookup_insert_ne by done|]; naive_solver. }
  rewrite H, lookup_empty. naive_solver.
Qed.

(** The read route hands a request on with an accepted token for a granted source. *)
Lemma read_handler_cases src r w w' resp :
  read_handler src r w = Done (w', resp) → resp = NotFound ∨
  (resp = Forward r ∧ src ≠ "" ∧ ∃ c w1, oauth2_Read (Authorization r) w = Done (w1, Ok c) ∧
     (IsAdmin c = true ∧ w' = w1 ∨ IsAuthorized src (Token c) w1 = (w', true))).
Proof.
  clear AvailableSourceIDs Meta GetRelatedSourceIds ParseExpr print_expr.
  unfold read_handler. case_decide; [intros [= _ <-]; by left|].
  case_decide; [intros [= _ <-]; by left|]. intros H1. apply bind_Done in H1 as ([w1 c]&Er&H2).
  destruct c as [c|]; [|injection H2 as _ <-; by left].
  destruct (IsAdmin c) eqn:Ea; [injection H2 as -> <-; eauto 10|].
  destruct (IsAuthorized src (Token c) w1) as [w2 ok] eqn:Eo.
  injection H2 as -> <-. destruct ok; [|by left]. right. split_and!; try done.
  exists c, w1. split; [done|]. by right.
Qed.

(** The meta route hands nothing on. *)
Lemma meta_handler_cases r w w' resp :
  meta_handler r w = Done (w', resp) → (∃ code, resp = Status code "") ∨ ∃ m, resp = MetaReport m.
Proof.
  clear IsAuthorized GetRelatedSourceIds ParseExpr print_expr.
  unfold meta_handler. case_decide; [intros [= _ <-]; left; by eexists|].
  intros H1. apply bind_Done in H1 as ([w1 c]&Er&H2).
  destruct c as [c|]; [|injection H2 as _ <-; left; by eexists].
  destruct (Meta w1) as [w2 [full|]]; [|injection H2 as _ <-; left; by eexists].
  destruct (onlyAuthorized (Authorization r) full c w2) as [w3 m]. injection H2 as _ <-. eauto.
Qed.

(** C19: the read route hands a request on only with a token the reader accepts
    and, unless the user is an administrator, only for a source id the
    authorizer grants; the meta route reports exactly the fetched sources the
    user may read; without a token both answer 404 and ask nobody. *)
Theorem protected_routes r w :
  (Authorization r = "" →
   (∀ src, read_handler src r w = Done (w, NotFound)) ∧ meta_handler r w = Done (w, NotFound)) ∧
  (∀ src w' resp, read_handler src r w = Done (w', resp) → resp = NotFound ∨
     (resp = Forward r ∧ src ≠ "" ∧ ∃ c w1, oauth2_Read (Authorization r) w = Done (w1, Ok c) ∧
        (IsAdmin c = true ∧ w' = w1 ∨ IsAuthorized src (Token c) w1 = (w', true)))) ∧
  (∀ w' resp, meta_handler r w = Done (w', resp) → (∃ code, resp = Status code "") ∨
     ∃ m c w1 full, resp = MetaReport m ∧ oauth2_Read (Authorization r) w = Done (w1, Ok c) ∧
       (Meta w1).2 = Ok full ∧
       ∀ src i, m !! src = Some i ↔ full !! src = Some i ∧
         (IsAdmin c = true ∨ src ∈ (AvailableSourceIDs (Authorization r) (Meta w1).1).2)).
Proof.
  clear GetRelatedSourceIds ParseExpr print_expr.
  split_and!.
  - intros E. unfold read_handler, meta_handler. rewrite E. split; [|done].
    intros src. by destruct (decide (src = "")).
  - intros src w' resp. apply read_handler_cases.
  - intros w' resp. unfold meta_handler. case_decide; [intros [= _ <-]; left; by eexists|].
    intros H1. apply bind_Done in H1 as ([w1 c]&Er&H2).
    destruct c as [c|]; [|injection H2 as _ <-; left; by eexists].
    destruct (Meta w1) as [w2 meta] eqn:Em. destruct meta as [full|];
      [|injection H2 as _ <-; left; by eexists].
    destruct (onlyAuthorized (Authorization r) full c w2) as [w3 m] eqn:Eo.
    injection H2 as _ <-. right. exists m, c, w1, full. rewrite Em. split_and!; try done.
    intros src i. simpl. rewrite <- onlyAuthorized_spec, Eo. done.
Qed.

(** [later] relates a state of the clients to those the calls lead to. *)
Section Granting.
Variable later : relation W.
Context `{!PreOrder later}.
Hypothesis later_read : ∀ token w w' c, oauth2_Read token w = Done (w', c) → later w w'.
Hypothesis later_authorized : ∀ id token w, later w (IsAuthorized id token w).1.
Hypothesis later_related : ∀ names token w, later w (GetRelatedSourceIds names token w).1.

(** Between two states the authorizer said yes to the token for the source id. *)
Definition granted (w w' : W) (token sourceId : string) : Prop :=
  ∃ w1, later w w1 ∧ later (IsAuthorized sourceId token w1).1 w' ∧ (IsAuthorized sourceId token w1).2 = true.

Lemma granted_later w0 w w' w1 token id : later w0 w → later w' w1 → granted w w' token id → granted w0 w1 token id.
Proof. intros H0 H1 (w2&?&?&?). exists w2. split_and!; [by etrans|by etrans|done]. Qed.

Lemma authorizeSourceIds_granted ids c w :
  later w (authorizeSourceIds ids c w).1 ∧
  (authorizeSourceIds ids c w).2 ⊆ ids ∧
  Forall (granted w (authorizeSourceIds ids c w).1 (Token c)) (authorizeSourceIds ids c w).2.
Proof.
  revert w. induction ids as [|id ids IH]; intros w; simpl; [by split_and!; [|done|constructor]|].
  pose proof (later_authorized id (Token c) w) as Hl.
  destruct (IsAuthorized id (Token c) w) as [w1 ok] eqn:E. specialize (IH w1).
  destruct (authorizeSourceIds ids c w1) as [w2 l]. simpl in *. destruct IH as (Hl2&Hs&Hf).
  assert (Forall (granted w w2 (Token c)) l) as Hf'
    by (eapply Forall_impl; [exact Hf|]; intros x; by apply granted_later).
  split; [by etrans|]. destruct ok; simpl; split; [| |intros x Hx; right; by apply Hs|done].
  - intros x [->|Hx]%elem_of_cons; [left|right; by apply Hs].
  - constructor; [|done]. exists w. by rewrite E.
Qed.

(** The sets the loop leaves: for a user who is not an administrator, each id
    has a non-empty set of granted ids among those related to it and itself. *)
Lemma expand_all_granted ids c related w w' sets :
  expand_all ids c related w = (w', Some sets) → IsAdmin c = false →
  later w w' ∧
  (∀ id, id ∉ ids → sets !! id = related !! id) ∧
  (∀ id, id ∈ ids → ∃ l, sets !! id = Some l ∧ l ≠ [] ∧ Forall (granted w w' (Token c)) l ∧
     (Forall (free_of bar) (default [] (related !! id)) → NoDup ids → free_of bar id →
      Forall (free_of bar) l)).
Proof.
  intros E Hadm. revert related w E. induction ids as [|id ids IH]; intros related w; simpl.
  { intros [= -> ->]. split_and!; [done|done|set_solver]. }
  rewrite Hadm. set (l0 := default [] (related !! id) ++ [id]).
  pose proof (authorizeSourceIds_granted l0 c w) as Hg.
  destruct (authorizeSourceIds l0 c w) as [w1 l] eqn:Ea. simpl in Hg. destruct Hg as (Hl1&Hsub&Hg).
  case_decide as Hl; [done|]. intros E. destruct (IH _ _ E) as (Hl2&Hout&Hin).
  split; [by etrans|]. split.
  - intros id' Hid'. apply not_elem_of_cons in Hid' as [Hne Hid'].
    by rewrite Hout, lookup_insert_ne by done.
  - intros id' Hid'. destruct (decide (id' ∈ ids)) as [Hi|Hi].
    + destruct (Hin id' Hi) as (l'&?&?&Hgl&Hfree). exists l'. split_and!; try done.
      { eapply Forall_impl; [exact Hgl|]. intros x. by apply granted_later. }
      intros Hr [Hid Hnd]%NoDup_cons Hb. apply Hfree; try done.
      rewrite lookup_insert_ne; [done|]. by intros ->.
    + apply elem_of_cons in Hid' as [->|]; [|done]. exists l.
      rewrite Hout, lookup_insert_eq by done. split_and!; try done.
      { eapply Forall_impl; [exact Hg|]. intros x. by apply granted_later. }
      intros Hr _ Hb. apply Forall_forall. intros x Hx%Hsub.
      assert (Forall (free_of bar) l0) as Hl0 by (apply Forall_app; split; [done|by constructor]).
      rewrite Forall_forall in Hl0. by apply Hl0.
Qed.

Lemma expand_all_later ids c related w w' sets : expand_all ids c related w = (w', sets) → later w w'.
Proof.
  revert related w. induction ids as [|id ids IH]; intros related w; simpl; [by intros [= -> _]|].
  destruct (IsAdmin c); [apply IH|].
  pose proof (authorizeSourceIds_granted (default [] (related !! id) ++ [id]) c w) as (Hl&_).
  destruct (authorizeSourceIds _ c w) as [w1 l]. case_decide; [by intros [= -> _]|]. intros Hl2%IH. by etrans.
Qed.

(** The read route, with the states the clients go through. *)
Lemma read_handler_granted src r w w' r' :
  read_handler src r w = Done (w', Forward r') →
  r' = r ∧ src ≠ "" ∧ ∃ c w1, oauth2_Read (Authorization r) w = Done (w1, Ok c) ∧ later w1 w' ∧
    (IsAdmin c = true ∨ granted w1 w' (Token c) src).
Proof.
  intros [Hf|(Hf&Hsrc&c&w1&Er&Ha)]%read_handler_cases; [done|]. injection Hf as ->.
  split_and!; [done..|]. exists c, w1. split; [done|]. destruct Ha as [[Ha ->]|Ha].
  - split; [done|by left].
  - pose proof (later_authorized src (Token c) w1) as Hl. rewrite Ha in Hl. split; [done|right].
    exists w1. by rewrite Ha.
Qed.

(** The clients only move on, whatever a handler answers. *)
Lemma read_handler_later src r w w' resp : read_handler src r w = Done (w', resp) → later w w'.
Proof.
  unfold read_handler. do 2 (case_decide; [by intros [= -> _]|]).
  intros H1. apply bind_Done in H1 as ([w1 c]&Er%later_read&H2). destruct c as [c|]; [|by injection H2 as -> _].
  destruct (IsAdmin c); [by injection H2 as -> _|].
  pose proof (later_authorized src (Token c) w1) as Hl.
  destruct (IsAuthorized src (Token c) w1) as [w2 ok]. injection H2 as -> _. by etrans.
Qed.

Lemma query_handler_later order r w w' resp : query_handler order r w = Done (w', resp) → later w w'.
Proof.
  unfold query_handler. case_decide; [by intros [= -> _]|].
  destruct (ExtractSourceIds _ _) as [ids|]; [|by intros [= -> _]].
  case_decide; [by intros [= -> _]|]. intros H1. apply bind_Done in H1 as ([w1 c]&Er%later_read&H2).
  destruct c as [c|]; [|by injection H2 as -> _].
  pose proof (later_related (order ids) (Authorization r) w1) as Hl.
  destruct (GetRelatedSourceIds (order ids) (Authorization r) w1) as [w2 [related|]]; [|injection H2 as -> _; by etrans].
  pose proof (expand_all_later (order ids) c related w2) as He.
  destruct (expand_all (order ids) c related w2) as [w3 sets]. specialize (He _ _ eq_refl).
  destruct sets as [sets|]; [|injection H2 as -> _; by etrans; [|etrans]].
  destruct (ReplaceSourceIdSets _ _ _ _); injection H2 as -> _; by etrans; [|etrans].
Qed.

Lemma meta_handler_later r w w' resp :
  (∀ token w, later w (AvailableSourceIDs token w).1) → (∀ w, later w (Meta w).1) →
  meta_handler r w = Done (w', resp) → later w w'.
Proof.
  intros Ha Hm. unfold meta_handler. case_decide; [by intros [= -> _]|].
  intros H1. apply bind_Done in H1 as ([w1 c]&Er%later_read&H2). destruct c as [c|]; [|by injection H2 as -> _].
  specialize (Hm w1). destruct (Meta w1) as [w2 meta]. destruct meta as [meta|]; [|injection H2 as -> _; by etrans].
  unfold onlyAuthorized in H2. specialize (Ha (Authorization r) w2).
  destruct (IsAdmin c); [injection H2 as -> _; by etrans|].
  destruct (AvailableSourceIDs (Authorization r) w2) as [w3 ids]. injection H2 as -> _. by etrans; [|etrans].
Qed.

(** With ids free of the separator the sets are free of it. *)
Lemma expand_all_sets ids c related w w' sets :
  expand_all ids c related w = (w', Some sets) → IsAdmin c = false → NoDup ids →
  Forall (free_of bar) ids → map_Forall (λ _ l, Forall (free_of bar) l) related →
  ∀ id, id ∈ ids → ∃ l, sets !! id = Some l ∧ l ≠ [] ∧ Forall (granted w w' (Token c)) l ∧ Forall (free_of bar) l.
Proof.
  intros E Ha Hnd Hfree Hrel id Hid. destruct (expand_all_granted _ _ _ _ _ _ E Ha) as (_&_&Hin).
  destruct (Hin id Hid) as (l&?&?&?&Hfr). exists l. split_and!; try done. apply Hfr; [|done|].
  - destruct (related !! id) as [lr|] eqn:El; [by apply (Hrel id)|by constructor].
  - rewrite Forall_forall in Hfree. by apply Hfree.
Qed.

Section Query.
Variable order : gset string → list string.
Hypothesis order_elements : ∀ s, order s ≡ₚ elements s.
Variables (r : request) (e : Expr).
Hypothesis query_parses : ParseExpr (Values_Get (Values r) "query") = Ok e.
Hypothesis rewritten_parses : ∀ sets,
  let rewritten := rewrite_selectors (replaceInMatchers sets) e in
  ∃ e', ParseExpr (print_expr rewritten) = Ok e' ∧ Forall2 (≡ₚ) (selectors rewritten) (selectors e').

(** A query handed on reads only source ids the authorizer granted to the
    user's token, unless the user is an administrator.  The ids the query
    names and those the names translate to are taken to be free of the
    separator ["|"] of regular expressions. *)
Lemma query_reads_only_granted w w' r' :
  (∀ id, id ∈ tree_ids e → free_of bar id) →
  (∀ names w m, (GetRelatedSourceIds names (Authorization r) w).2 = Some m →
     map_Forall (λ _ l, Forall (free_of bar) l) m) →
  query_handler order r w = Done (w', Forward r') →
  ∃ q' ids' c w1, r' = with_query_value q' r ∧
    ExtractSourceIds ParseExpr q' = Ok ids' ∧
    oauth2_Read (Authorization r) w = Done (w1, Ok c) ∧ later w1 w' ∧
    (IsAdmin c = true ∨ ∀ x, x ∈ ids' → granted w1 w' (Token c) x).
Proof.
  intros Hfree Hrel. unfold query_handler. case_decide; [done|].
  unfold ExtractSourceIds at 1. rewrite query_parses. cbn [mbind result_bind].
  case_decide; [done|]. intros H1. apply bind_Done in H1 as ([w1 c]&Er&H2).
  destruct c as [c|]; [|done].
  destruct (GetRelatedSourceIds (order (Walk sourceIDVisitor_Visit e ∅)) (Authorization r) w1)
    as [w2 related] eqn:Eg. destruct related as [related|]; [|done].
  destruct (expand_all _ c related w2) as [w3 sets] eqn:Ee. destruct sets as [sets|]; [|done].
  unfold ReplaceSourceIdSets in H2. rewrite query_parses in H2. cbn [mbind result_bind] in H2.
  injection H2 as -> <-. destruct (rewritten_parses sets) as (e'&Hp&Hs).
  assert (later w1 w2) as Hl2 by (specialize (later_related (order (Walk sourceIDVisitor_Visit e ∅))
    (Authorization r) w1); by rewrite Eg in later_related).
  eexists _, (tree_ids e'), c, w1. split; [done|]. unfold ExtractSourceIds.
  rewrite Hp. simpl. split; [done|]. split; [done|].
  split; [etrans; [exact Hl2|by eapply expand_all_later]|].
  destruct (IsAdmin c) eqn:Ha; [by left|right].
  assert (∀ id, id ∈ tree_ids e → ∃ l, sets !! id = Some l ∧ l ≠ [] ∧
    Forall (granted w1 w' (Token c)) l ∧ Forall (free_of bar) l) as Hsets.
  { intros id Hid. assert (∀ x, x ∈ order (tree_ids e) ↔ x ∈ tree_ids e) as Ho
      by (intros x; by rewrite order_elements, elem_of_elements).
    destruct (expand_all_sets _ _ _ _ _ _ Ee Ha) with id as (l&?&?&Hgl&?).
    - rewrite order_elements. apply NoDup_elements.
    - apply Forall_forall. intros x Hx%Ho. by apply Hfree.
    - apply (Hrel (order (Walk sourceIDVisitor_Visit e ∅)) w1). by rewrite Eg.
    - by apply Ho.
    - exists l. split_and!; try done. eapply Forall_impl; [exact Hgl|]. intros x. by apply granted_later. }
  intros x Hx. rewrite <- (tree_ids_permutation _ _ Hs) in Hx.
  apply rewrite_tree_ids in Hx as (id&l&Hid&El&Hxl).
  - destruct (Hsets id Hid) as (l'&El'&_&Hg&_). simplify_eq.
    rewrite Forall_forall in Hg. by apply Hg.
  - intros id Hid. destruct (Hsets id Hid) as (l&?&?&_&?). eauto.
Qed.
End Query.
End Granting.
End Middleware.

(** ** Concrete instances *)
Definition demo_read (token : string) (w : unit) : outcome (unit * result string Oauth2ClientContext) :=
  Done (w, if decide (token = "t"%string) then Ok (mkContext false token 100) else Err "bad token"%string).
Definition demo_query (t : MatchType) (id : string) : Expr :=
  VectorSelector "m" 0 [source_matcher t id].
Definition demo_request : request := mkRequest "t" {[ "query"%string := ["=app"%string] ]}.
(** A language with one selector: its operator and its value. *)
Definition demo_print (e : Expr) : string :=
  match e with
  | VectorSelector _ _ [m] =>
      String (if decide (Type_ m = MatchRegexp) then "~"%char else "="%char) (Value m)
  | _ => EmptyString
  end.
Definition demo_parse_expr (s : string) : result string Expr :=
  match s with
  | String c v => Ok (demo_query (if decide (c = "~"%char) then MatchRegexp else MatchEqual) v)
  | EmptyString => Err "empty query"%string
  end.

Lemma demo_round_trip s e sets : demo_parse_expr s = Ok e →
  let rewritten := rewrite_selectors (replaceInMatchers sets) e in
  ∃ e', demo_parse_expr (demo_print rewritten) = Ok e' ∧
    Forall2 (≡ₚ) (selectors rewritten) (selectors e').
Proof.
  destruct s as [|c v]; [done|]. intros [= <-]. unfold replaceInMatchers. simpl.
  destruct (decide (c = "~"%char)); simpl;
    unfold replaceSourceIdsInEqualMatcher, replaceSourceIdsInRegexpMatcher; simpl.
  2: destruct (sets !! v) as [l|].
  all: unfold set_matcher; simpl; repeat case_decide; simpl; eexists; (split; [done|]);
    by repeat constructor.
Qed.

Definition demo_authorized (id token : string) (w : unit) : unit * bool :=
  (w, bool_decide (id = "g1"%string ∧ token = "t"%string)).
Definition demo_related (names : list string) (token : string) (w : unit) :
    unit * option (gmap string (list string)) :=
  (w, Some {[ "app"%string := ["g1"; "g2"]%string ]}).

Lemma protected_routes_witness :
  let read := read_handler demo_read demo_authorized in
  read "g1"%string demo_request tt = Done (tt, Forward demo_request) ∧
  read "g2"%string demo_request tt = Done (tt, NotFound) ∧
  (Authorization demo_request = "" →
   (∀ src, read src demo_request tt = Done (tt, NotFound))).
Proof.
  intros read. split; [by vm_compute|]. split; [by vm_compute|]. intros E.
  by apply (protected_routes demo_read demo_authorized (λ _ w, (w, [])) (λ w, (w, Ok ∅))
    demo_request tt).
Defined.

(** The hypothesis on the separator matters.  The Cloud Controller client does
    not escape the source id: with [mine?x=|victim] it asks about the app
    [mine], which is the user's.  If the user also names an app of theirs
    [mine?x=|victim], the id has two expansions, the matcher becomes a regular
    expression, and the query handed on reads [victim], which was never
    granted. *)
Definition escalation_capi (u : URL) (token : string) (w : unit) : unit * result string Response :=
  (w, Ok (mkResponse (if bool_decide (Path u ∈ ["/v3/apps/mine"; "/v3/apps/mine2"]%string)
                      then 200 else 404) "")).
Definition escalation_url (s : string) : result string URL :=
  match Split "?"%char s with
  | p :: q => Ok (mkURL "https" "capi" p (Join "?"%char q))
  | [] => Err s
  end.
Definition escalation_authorized (id token : string) (w : unit) : unit * bool :=
  let '(_, w, ok) := IsAuthorized escalation_capi escalation_url 0 (mkCAPI "" ∅ 60) id token w in
  (w, ok).
Definition escalation_id : string := "mine?x=|victim".

Fact separator_escalates :
  let related := λ (_ : list string) (_ : string) (w : unit),
    (w, Some {[ escalation_id := ["mine2"%string] ]}) in
  let r := mkRequest "t" {[ "query"%string := [String "="%char escalation_id] ]} in
  (∃ q', query_handler demo_read escalation_authorized related demo_parse_expr demo_print elements
           r tt = Done (tt, Forward (with_query_value q' r)) ∧
         ExtractSourceIds demo_parse_expr q' =
           Ok (list_to_set ["mine2"; "mine?x="; "victim"]%string)) ∧
  (escalation_authorized "victim" "t" tt).2 = false.
Proof. split; [|by vm_compute]. eexists. split; [by vm_compute|vm_eq]. Qed.
