(* ===== verification/AuthProxy.v ===== *)
(** * The CF auth proxy

    Models internal/cfauthproxy/cf_auth_proxy.go, the routes of
    internal/auth/cf_auth_middleware.go, internal/promql/unimplemented_middleware.go
    and the part of cmd/cf-auth-proxy/main.go that puts them together.  A handler
    is a function of the request and the world: the state of the clients the
    middleware asks, the clock, the lines handed to the access log and the
    requests the gateway received.

    [chi] matches the path with the patterns of the routes; it is a parameter, as
    are the answers of the gateway. *)

From S2P Require Import Prelude GoStrings Json NetURL AccessLog Envelope PromQLSources CFAuth Config.

Inductive reply :=
| Written (code : Z) (body : string)
| WrittenMeta (m : gmap string MetaInfo).

(** What [chi] makes of a request: one of the middleware's patterns, or its own
    answer. *)
Inductive route :=
| ReadRoute (sourceID : string)
| QueryRoute
| MetaRoute
| InfoRoute
| NoRoute (r : reply).

Record World (A : Type) := mkWorld {
  Auth : A;
  Clock : Z;
  Lines : list string;
  Received : list Request;
}.
Arguments mkWorld {A}. Arguments Auth {A}. Arguments Clock {A}. Arguments Lines {A}.
Arguments Received {A}.

Definition StatusNotImplemented : Z := 501.

(** Text with quotes, written with apostrophes. *)
Fixpoint quoted (s : string) : string :=
  match s with
  | EmptyString => ""
  | String c s => String (if byte c =? 0x27 then QUOTE else c) (quoted s)
  end.

(** The JSON of an error of the query route. *)
Definition promqlErrorBody (err : string) : string :=
  encode (JObject [("status", JString "error"); ("errorType", JString "bad_data");
                   ("error", JString err)]) +:+ newline.

(** What the middleware reads of a request. *)
Definition auth_view (r : Request) : CFAuth.request :=
  CFAuth.mkRequest (Header_Get (Header r) "Authorization") (ParseQuery (RawQuery r)).

(** [r.URL.RawQuery = q.Encode()]. *)
Definition set_query (r : Request) (q : url_values) : Request :=
  mkHTTP (Method r) (Path r) (Encode q) (Header r) (RemoteAddr r).

Section Proxy.
Context {A : Type}.
Abbreviation W := (World A).
Abbreviation Handler := (Request → W → outcome (W * reply)).

Definition set_Auth (a : A) (w : W) : W := mkWorld a (Clock w) (Lines w) (Received w).

(** ** The middlewares *)
Section Middlewares.
Variable chi : Request → route.
Variable oauth2_Read : string → A → outcome (A * result string Oauth2ClientContext).
Variable IsAuthorized : string → string → A → A * bool.
Variable AvailableSourceIDs : string → A → A * list string.
Variable Meta : A → A * result string (gmap string MetaInfo).
Variable GetRelatedSourceIds : list string → string → A → A * option (gmap string (list string)).
Variable ParseExpr : string → result string Expr.
Variable print_expr : Expr → string.
Variable order : gset string → list string.

(** What a route's handler does with its response: an answer, or the wrapped
    handler on the request it leaves. *)
Definition finish (h : Handler) (forwarded : CFAuth.request → Request)
    (p : A * CFAuth.response) (w : W) : outcome (W * reply) :=
  let w := set_Auth p.1 w in
  match p.2 with
  | Status code body =>
      Done (w, Written code (if code =? StatusBadRequest then promqlErrorBody body else ""))
  | Forward q => h (forwarded q) w
  | MetaReport m => Done (w, WrittenMeta m)
  end.

Definition Middleware (h : Handler) : Handler := λ r w,
  match chi r with
  | ReadRoute sourceID =>
      p ← read_handler oauth2_Read IsAuthorized sourceID (auth_view r) (Auth w);
      finish h (λ _, r) p w
  | QueryRoute =>
      p ← query_handler oauth2_Read IsAuthorized GetRelatedSourceIds ParseExpr print_expr order
            (auth_view r) (Auth w);
      finish h (λ q, set_query r (Values q)) p w
  | MetaRoute =>
      p ← meta_handler oauth2_Read AvailableSourceIDs Meta (auth_view r) (Auth w);
      finish h (λ _, r) p w
  | InfoRoute => h r w
  | NoRoute answer => Done (w, answer)
  end.
End Middlewares.

Definition unimplemented_body : string := quoted
"{
				'status': 'error',
				'errorType': 'bad_data',
				'error': 'Metrics not available'
			}".

Definition UnimplementedMiddleware (h : Handler) : Handler := λ r w,
  if HasPrefix (Path r) "/api/v1/query" then Done (w, Written StatusNotImplemented unimplemented_body)
  else h r w.

Abbreviation Logger := (Request → string → string → W → W * option string).

Record AccessHandler := NewAccessHandler {
  handler : Handler;
  accessLogger : Logger;
  access_host : string;
  access_port : string;
}.

(** The error of the logger is only printed. *)
Definition ServeHTTP (h : AccessHandler) : Handler := λ r w,
  let '(w, err) := accessLogger h r (access_host h) (access_port h) w in
  handler h r w.

Definition NewAccessMiddleware (l : Logger) (host port : string) (h : Handler) : AccessHandler :=
  NewAccessHandler h l host port.
Definition NewNullAccessMiddleware (h : Handler) : AccessHandler :=
  NewAccessHandler h NullAccessLogger "" "".

(** ** The proxy *)
Context {URL CertPool : Type}.
Variable url_Parse : string → result string URL.

Record CFAuthProxy := mkProxy {
  tlsDisabled : bool;
  gatewayURL : URL;
  addr : string;
  certPath : string;
  keyPath : string;
  proxyCACertPool : option CertPool;
  readinessInterval : Z;
  authMiddleware : Handler → Handler;
  accessMiddleware : Handler → AccessHandler;
  promMiddleware : Handler → Handler;
}.

Definition CFAuthProxyOption := CFAuthProxy → CFAuthProxy.

Definition NewCFAuthProxy (gatewayAddr addr : string) (opts : list CFAuthProxyOption) :
    outcome CFAuthProxy :=
  match url_Parse gatewayAddr with
  | Err _ => Panic
  | Ok gatewayURL =>
      Done (foldl (λ p o, o p)
        (mkProxy false gatewayURL addr "" "" None (10 * 1000000000) id NewNullAccessMiddleware id) opts)
  end.

Definition WithCFAuthProxyTLSServer (certPath keyPath : string) : CFAuthProxyOption := λ p,
  mkProxy (tlsDisabled p) (gatewayURL p) (addr p) certPath keyPath (proxyCACertPool p)
    (readinessInterval p) (authMiddleware p) (accessMiddleware p) (promMiddleware p).
Definition WithAuthMiddleware (m : Handler → Handler) : CFAuthProxyOption := λ p,
  mkProxy (tlsDisabled p) (gatewayURL p) (addr p) (certPath p) (keyPath p) (proxyCACertPool p)
    (readinessInterval p) m (accessMiddleware p) (promMiddleware p).
Definition WithAccessMiddleware (m : Handler → AccessHandler) : CFAuthProxyOption := λ p,
  mkProxy (tlsDisabled p) (gatewayURL p) (addr p) (certPath p) (keyPath p) (proxyCACertPool p)
    (readinessInterval p) (authMiddleware p) m (promMiddleware p).
Definition WithPromMiddleware (m : Handler → Handler) : CFAuthProxyOption := λ p,
  mkProxy (tlsDisabled p) (gatewayURL p) (addr p) (certPath p) (keyPath p) (proxyCACertPool p)
    (readinessInterval p) (authMiddleware p) (accessMiddleware p) m.
Definition WithCFAuthProxyTLSDisabled : CFAuthProxyOption := λ p,
  mkProxy true (gatewayURL p) (addr p) (certPath p) (keyPath p) (proxyCACertPool p)
    (readinessInterval p) (authMiddleware p) (accessMiddleware p) (promMiddleware p).
Definition WithCFAuthProxyCACertPool (pool : CertPool) : CFAuthProxyOption := λ p,
  mkProxy (tlsDisabled p) (gatewayURL p) (addr p) (certPath p) (keyPath p) (Some pool)
    (readinessInterval p) (authMiddleware p) (accessMiddleware p) (promMiddleware p).
Definition WithCFAuthProxyReadyCheckInterval (interval : Z) : CFAuthProxyOption := λ p,
  mkProxy (tlsDisabled p) (gatewayURL p) (addr p) (certPath p) (keyPath p) (proxyCACertPool p)
    interval (authMiddleware p) (accessMiddleware p) (promMiddleware p).

(** What the gateway at the URL answers, over a transport with these roots. *)
Variable answer : URL → option CertPool → Request → reply.

Definition reverseProxy (p : CFAuthProxy) : Handler := λ r w,
  Done (mkWorld (Auth w) (Clock w) (Lines w) (Received w ++ [r]),
        answer (gatewayURL p) (proxyCACertPool p) r).

(** The handler of the proxy's server. *)
Definition serve (p : CFAuthProxy) : Handler :=
  ServeHTTP (accessMiddleware p (promMiddleware p (authMiddleware p (reverseProxy p)))).

(** ** Start *)
Section Start.
Variable readyChecker : A → A * option string.
Variable Listen : string → option string.
Variable tls_Server : string → string → option string.

(** The loop before listening: the pauses it took. *)
Fixpoint wait_ready (fuel : nat) (p : CFAuthProxy) (a : A) : A * option (list Z) :=
  match fuel with
  | O => (a, None)
  | S fuel =>
      let '(a, err) := readyChecker a in
      match err with
      | None => (a, Some [])
      | Some _ => let '(a, slept) := wait_ready fuel p a in (a, cons (readinessInterval p) <$> slept)
      end
  end.

Inductive started :=
| Waiting
| Fatal (err : string)
| Serving (slept : list Z) (tls : bool) (h : Handler).

Definition Start (fuel : nat) (p : CFAuthProxy) (a : A) : A * started :=
  let '(a, slept) := wait_ready fuel p a in
  (a, match slept with
      | None => Waiting
      | Some slept =>
          match Listen (addr p) with
          | Some err => Fatal err
          | None =>
              if tlsDisabled p then Serving slept false (serve p)
              else
                match tls_Server (certPath p) (keyPath p) with
                | Some err => Fatal err
                | None => Serving slept true (serve p)
                end
          end
      end).

(** The states in which the checker is asked: it fails in all but the last. *)
Inductive becomes_ready : nat → A → A → Prop :=
| ready_now a a' : readyChecker a = (a', None) → becomes_ready 0 a a'
| ready_later n a a1 a2 err :
    readyChecker a = (a1, Some err) → becomes_ready n a1 a2 → becomes_ready (S n) a a2.

Lemma wait_ready_ready n p a a' fuel : becomes_ready n a a' → (n < fuel)%nat →
  wait_ready fuel p a = (a', Some (replicate n (readinessInterval p))).
Proof.
  intros H. revert fuel. induction H as [a a' E|n a a1 a2 err E _ IH]; intros [|fuel] Hf; try lia;
    simpl; rewrite E; [done|]. by rewrite IH by lia.
Qed.

Lemma wait_ready_inv fuel p a a' slept : wait_ready fuel p a = (a', Some slept) →
  becomes_ready (length slept) a a' ∧ slept = replicate (length slept) (readinessInterval p).
Proof.
  revert a slept. induction fuel as [|fuel IH]; intros a slept; simpl; [done|].
  destruct (readyChecker a) as [a1 [err|]] eqn:E; [|by intros [= -> <-]; split; [constructor|]].
  destruct (wait_ready fuel p a1) as [a2 [s|]] eqn:Ew; [|done]. intros [= -> <-].
  destruct (IH _ _ Ew) as [H1 H2]. simpl. split; [by econstructor|]. by f_equal.
Qed.
End Start.

(** ** cmd/cf-auth-proxy: the proxy the configuration describes *)
Section Main.
Import Config.CFAuthProxyConfig.
Variable url_String : URL → string.
(** The environment's files; a failure to read one ends the program. *)
Variable loadCA : string → outcome CertPool.
Variable OpenFile : string → option string.
(** Writing a line to the log file may fail. *)
Variable write_error : string → option string.
(** The middleware of the provider. *)
Variable middleware : Handler → Handler.

Definition Write (s : string) (w : W) : W * option string :=
  (mkWorld (Auth w) (Clock w) (Lines w ++ [s]) (Received w), write_error s).
Definition accessLog : Logger := DefaultAccessLogger Clock Write.

Definition main_proxy (cfg : Config) : outcome CFAuthProxy :=
  match url_Parse (LogCacheGatewayAddr cfg) with
  | Err _ => Panic
  | Ok u =>
      ca ← (if decide (ProxyCAPath cfg = "") then Done []
            else pool ← loadCA (ProxyCAPath cfg); Done [WithCFAuthProxyCACertPool pool]);
      p ← NewCFAuthProxy (url_String u) (cfg_Addr cfg)
            ([WithAuthMiddleware middleware] ++ ca ++
             (if PromQLUnimplemented cfg then [WithPromMiddleware UnimplementedMiddleware] else []) ++
             [if decide (CertPath cfg = "" ∧ KeyPath cfg = "") then WithCFAuthProxyTLSDisabled
              else WithCFAuthProxyTLSServer (CertPath cfg) (KeyPath cfg)]);
      if decide (SecurityEventLog cfg = "") then Done p
      else
        match OpenFile (SecurityEventLog cfg), SplitHostPort (cfg_Addr cfg) with
        | None, Ok (_, localPort) =>
            Done (WithAccessMiddleware (NewAccessMiddleware accessLog (InternalIP cfg) localPort) p)
        | _, _ => Panic
        end
  end.
End Main.
End Proxy.

(** ** What reaches the gateway *)
Section Guard.
Context {A URL CertPool : Type}.
Variable url_Parse : string → result string URL.
Variable answer : URL → option CertPool → Request → reply.
Variable url_String : URL → string.
Variable loadCA : string → outcome CertPool.
Variable OpenFile : string → option string.
Variable write_error : string → option string.
Variable chi : Request → route.
Variable oauth2_Read : string → A → outcome (A * result string Oauth2ClientContext).
Variable IsAuthorized : string → string → A → A * bool.
Variable AvailableSourceIDs : string → A → A * list string.
Variable Meta : A → A * result string (gmap string MetaInfo).
Variable GetRelatedSourceIds : list string → string → A → A * option (gmap string (list string)).
Variable ParseExpr : string → result string Expr.
Variable print_expr : Expr → string.
Variable order : gset string → list string.
Implicit Types (w : World A) (r : Request).

Abbreviation middleware := (Middleware chi oauth2_Read IsAuthorized AvailableSourceIDs Meta
  GetRelatedSourceIds ParseExpr print_expr order).
Abbreviation main := (main_proxy url_Parse url_String loadCA OpenFile write_error middleware).

(** The line a configuration logs for a request, if it logs at all. *)
Definition logged (cfg : Config.CFAuthProxyConfig.Config) r w : list string :=
  if decide (Config.CFAuthProxyConfig.SecurityEventLog cfg = "") then []
  else
    match SplitHostPort (Config.CFAuthProxyConfig.cfg_Addr cfg) with
    | Ok (_, localPort) =>
        [AccessLog_String (NewAccessLog r (Clock w) (Config.CFAuthProxyConfig.InternalIP cfg) localPort)
           +:+ newline]
    | Err _ => []
    end.

Definition with_lines (l : list string) w : World A :=
  mkWorld (Auth w) (Clock w) (Lines w ++ l) (Received w).

(** The server of the command: log, then the disabled PromQL API, then the
    middleware around the gateway. *)
Lemma serve_main cfg p r w : main cfg = Done p →
  serve answer p r w =
    let w := with_lines (logged cfg r w) w in
    if Config.CFAuthProxyConfig.PromQLUnimplemented cfg && HasPrefix (Path r) "/api/v1/query"
    then Done (w, Written StatusNotImplemented unimplemented_body)
    else middleware (reverseProxy answer p) r w.
Proof.
  unfold main_proxy, logged, serve. intros Hm. destruct (url_Parse _) as [u|]; [|done].
  apply bind_Done in Hm as (ca&Hca&Hm). apply bind_Done in Hm as (p0&Hp0&Hm).
  assert (authMiddleware p0 = middleware ∧ accessMiddleware p0 = NewNullAccessMiddleware ∧
    promMiddleware p0 = if Config.CFAuthProxyConfig.PromQLUnimplemented cfg
      then UnimplementedMiddleware else id) as (Ha&Hn&Hpm).
  { unfold NewCFAuthProxy in Hp0. destruct (url_Parse (url_String u)) as [u'|]; [|done].
    injection Hp0 as <-.
    assert (ca = [] ∨ ∃ pool, ca = [WithCFAuthProxyCACertPool pool]) as [->|[pool ->]].
    { destruct (decide (Config.CFAuthProxyConfig.ProxyCAPath cfg = "")); [injection Hca as <-; by left|]. apply bind_Done in Hca as (pool&_&[= <-]). eauto. }
    all: destruct (Config.CFAuthProxyConfig.PromQLUnimplemented cfg); simpl; by destruct (decide (_ ∧ _)). }
  case_decide as Hl.
  - injection Hm as <-. rewrite Ha, Hn, Hpm. unfold ServeHTTP, with_lines. simpl. rewrite app_nil_r.
    destruct w. by destruct (Config.CFAuthProxyConfig.PromQLUnimplemented cfg).
  - destruct (OpenFile _); [done|]. destruct (SplitHostPort _) as [[h port]|]; [|done].
    injection Hm as <-. unfold ServeHTTP, with_lines. simpl. rewrite Ha, Hpm.
    by destruct (Config.CFAuthProxyConfig.PromQLUnimplemented cfg).
Qed.

(** [later] relates a state of the clients to those their calls lead to. *)
Variable later : relation A.
Context `{!PreOrder later}.
Hypothesis later_read : ∀ token a a' c, oauth2_Read token a = Done (a', c) → later a a'.
Hypothesis later_authorized : ∀ id token a, later a (IsAuthorized id token a).1.
Hypothesis later_related : ∀ names token a, later a (GetRelatedSourceIds names token a).1.
Abbreviation granted := (granted IsAuthorized later).

(** The ways a request may be handed on as [r'] while the clients go from a state
    [a] to [a']. *)
Definition handed_on r (a a' : A) (r' : Request) : Prop :=
  let token := Header_Get (Header r) "Authorization" in
  match chi r with
  | ReadRoute src =>
      r' = r ∧ src ≠ "" ∧ ∃ c a1, oauth2_Read token a = Done (a1, Ok c) ∧ later a1 a' ∧
        (IsAdmin c = true ∨ granted a1 a' (Token c) src)
  | QueryRoute =>
      ∃ q ids c a1, r' = set_query r (Values_Set "query" q (ParseQuery (RawQuery r))) ∧
        ParseQuery (RawQuery r') = Values_Set "query" q (ParseQuery (RawQuery r)) ∧
        ExtractSourceIds ParseExpr q = Ok ids ∧
        oauth2_Read token a = Done (a1, Ok c) ∧ later a1 a' ∧
        (IsAdmin c = true ∨ ∀ x, x ∈ ids → granted a1 a' (Token c) x)
  | InfoRoute => r' = r
  | MetaRoute | NoRoute _ => False
  end.

Hypothesis order_elements : ∀ s, order s ≡ₚ elements s.
(** Printing a rewritten query and parsing it gives the same selectors. *)
Hypothesis rewritten_parses : ∀ s e sets, ParseExpr s = Ok e →
  let rewritten := rewrite_selectors (replaceInMatchers sets) e in
  ∃ e', ParseExpr (print_expr rewritten) = Ok e' ∧ Forall2 (≡ₚ) (selectors rewritten) (selectors e').
(** The ids that names translate to are free of the separator of regular expressions. *)
Hypothesis related_free : ∀ names token a m, (GetRelatedSourceIds names token a).2 = Some m →
  map_Forall (λ _ l, Forall (free_of bar) l) m.

Definition query_ids_free r : Prop := ∀ e id,
  ParseExpr (Values_Get (ParseQuery (RawQuery r)) "query") = Ok e → id ∈ tree_ids e →
  free_of bar id.

Lemma finish_cases p forwarded pr w w' rep :
  finish (reverseProxy (A := A) answer p) forwarded pr w = Done (w', rep) →
  Lines w' = Lines w ∧ Auth w' = pr.1 ∧
  (Received w' = Received w ∨
   ∃ q, pr.2 = Forward q ∧ Received w' = Received w ++ [forwarded q] ∧
     rep = answer (gatewayURL p) (proxyCACertPool p) (forwarded q)).
Proof.
  destruct pr as [a []]; intros [= <- <-]; simpl; eauto 10.
Qed.

(** A request moves the clients on. *)
Lemma serve_later cfg p r w w' rep :
  (∀ token a, later a (AvailableSourceIDs token a).1) → (∀ a, later a (Meta a).1) →
  main cfg = Done p → serve answer p r w = Done (w', rep) → later (Auth w) (Auth w').
Proof.
  intros Hav Hme Hm. rewrite (serve_main _ _ _ _ Hm). cbn zeta.
  destruct (_ && _); [by intros [= <- <-]|]. unfold Middleware. intros Hs.
  destruct (chi r) as [src| | | |ans] eqn:Er; [..|by injection Hs as <- <-|by injection Hs as <- <-];
    apply bind_Done in Hs as ([a1 resp]&Eh&Hs); apply finish_cases in Hs as (_&->&_).
  - by eapply read_handler_later.
  - by eapply query_handler_later.
  - by eapply meta_handler_later.
Qed.

Lemma query_handed_on r a a1 q :
  query_ids_free r →
  query_handler oauth2_Read IsAuthorized GetRelatedSourceIds ParseExpr print_expr order
    (auth_view r) a = Done (a1, Forward q) →
  chi r = QueryRoute → handed_on r a a1 (set_query r (Values q)).
Proof.
  intros Hf Hq Hr. unfold handed_on. rewrite Hr.
  destruct (ParseExpr (Values_Get (Values (auth_view r)) "query")) as [e|err] eqn:Ee.
  2: { unfold query_handler in Hq. case_decide; [done|].
       unfold ExtractSourceIds in Hq. by rewrite Ee in Hq. }
  destruct (query_reads_only_granted oauth2_Read IsAuthorized GetRelatedSourceIds ParseExpr print_expr
    later later_read later_authorized later_related order order_elements (auth_view r) e Ee (λ sets, rewritten_parses _ _ sets Ee) a a1 q)
    as (q'&ids&c&a2&->&Hids&Hc&Hl&Hg); [by intros id Hid; apply (Hf e)|idtac|done|idtac].
  { by intros; eapply related_free. }
  exists q', ids, c, a2. split_and!; try done. apply ParseQuery_Encode.
  apply map_Forall_insert_2; [done|]. apply ParseQuery_no_empty.
Qed.

(** A served request is logged and hands on at most one request. *)
Lemma serve_received cfg p r w w' rep :
  main cfg = Done p → query_ids_free r → serve answer p r w = Done (w', rep) →
  Lines w' = Lines w ++ logged cfg r w ∧
  (Received w' = Received w ∨
   ∃ r', Received w' = Received w ++ [r'] ∧ handed_on r (Auth w) (Auth w') r' ∧
     rep = answer (gatewayURL p) (proxyCACertPool p) r').
Proof.
  intros Hm Hf. rewrite (serve_main _ _ _ _ Hm). cbn zeta.
  destruct (_ && _); [intros [= <- <-]; split; [done|by left]|]. unfold Middleware. intros Hs.
  destruct (chi r) as [src| | | |ans] eqn:Er; [..|injection Hs as <- <-; split; [done|by left]].
  1-3: apply bind_Done in Hs as ([a1 resp]&Eh&Hs); apply finish_cases in Hs as (Hl&Ha&Hs);
    (split; [exact Hl|]); rewrite ?Ha.
  - destruct Hs as [Hs|(q&Eq&Hs&->)]; [by left|right]. simpl in Eq. subst resp.
    exists r. split_and!; [done| |done]. unfold handed_on. rewrite Er.
    apply (read_handler_granted _ _ later later_authorized) in Eh as [_ Eh]. by split.
  - destruct Hs as [Hs|(q&Eq&Hs&->)]; [by left|right]. simpl in Eq. subst resp.
    eexists. split_and!; [exact Hs| |done]. by eapply query_handed_on.
  - destruct Hs as [Hs|(q&Eq&_)]; [by left|]. simpl in Eq. subst resp.
    apply meta_handler_cases in Eh as [[? ?]|[? ?]]; done.
  - injection Hs as <- <-. split; [done|right]. exists r. unfold handed_on. by rewrite Er.
Qed.

End Guard.

(** ** Starting *)
Section Ready.
Context {A URL CertPool : Type}.
Variable answer : URL → option CertPool → Request → reply.
Variable readyChecker : A → A * option string.
Variable Listen : string → option string.
Variable tls_Server : string → string → option string.
Abbreviation Start := (Start answer readyChecker Listen tls_Server).

(** The proxy serves only after its readiness check succeeded, having paused
    for the interval after each failure before; and once the check succeeds at
    some attempt the loop ends there, and the proxy serves, with TLS unless it is
    disabled, when it can listen and its certificate can be read. *)
Theorem proxy_serves_when_ready p a :
  (∀ fuel a' slept tls h, Start fuel p a = (a', Serving slept tls h) →
     ∃ n, becomes_ready readyChecker n a a' ∧ slept = replicate n (readinessInterval p) ∧
       tls = negb (tlsDisabled p) ∧ h = serve answer p) ∧
  (∀ n a' fuel, becomes_ready readyChecker n a a' → (n < fuel)%nat →
     (Start fuel p a).1 = a' ∧ (Start fuel p a).2 ≠ Waiting ∧
     (Listen (addr p) = None → tls_Server (certPath p) (keyPath p) = None →
      (Start fuel p a).2 =
        Serving (replicate n (readinessInterval p)) (negb (tlsDisabled p)) (serve answer p))).
Proof.
  unfold AuthProxy.Start. split.
  - intros fuel a' slept tls h. destruct (wait_ready _ fuel p a) as [a1 [s|]] eqn:E; [|done].
    destruct (Listen (addr p)); [done|]. apply wait_ready_inv in E as [Hr Hs].
    destruct (tlsDisabled p) eqn:Et; [|destruct (tls_Server _ _); [done|]];
      intros [= <- <- <- <-]; eauto 10.
  - intros n a' fuel Hr Hf. rewrite (wait_ready_ready _ _ _ _ _ _ Hr Hf).
    destruct (Listen (addr p)), (tlsDisabled p), (tls_Server _ _); naive_solver.
Qed.
End Ready.

(** ** Concrete proxies *)
Definition demo_config (unimplemented : bool) : Config.CFAuthProxyConfig.Config :=
  Config.CFAuthProxyConfig.mkConfig "http://gw:8081" ":8083" "10.1.2.3" "" "" false unimplemented ""
    "/log" 0 60 (Config.CFAuthProxyConfig.mkCAPI "" "" "") (Config.CFAuthProxyConfig.mkUAA "" "" "" "")
    (Config.metrics_on 6065) false.
Definition demo_chi (r : Request) : route :=
  if decide (Path r = "/api/v1/query") then QueryRoute else NoRoute (Written 404 "").
Definition demo_call : Request :=
  mkHTTP "GET" "/api/v1/query" "query=%3Dapp&time=1" {[ "Authorization" := ["t"] ]} "1.2.3.4:5".
Definition demo_answer (u : string) (pool : option unit) (r : Request) : reply := Written 200 (RawQuery r).
Definition demo_middleware : (Request → World unit → outcome (World unit * reply)) →
    Request → World unit → outcome (World unit * reply) :=
  Middleware demo_chi demo_read demo_authorized (λ _ w, (w, [])) (λ w, (w, Ok ∅)) demo_related
    demo_parse_expr demo_print elements.
Definition demo_main (unimplemented : bool) : outcome (CFAuthProxy (CertPool := unit)) :=
  main_proxy Ok id (λ _, Panic) (λ _, None) (λ _, None) demo_middleware (demo_config unimplemented).
Definition demo_world : World unit := mkWorld tt 1500000000123000000 [] [].

(** The query [=app] reaches the gateway as the granted [=g1], with one line logged. *)
Definition demo_served (unimplemented : bool) : outcome (World unit * reply) :=
  p ← demo_main unimplemented; serve demo_answer p demo_call demo_world.

Definition demo_run_ok : bool :=
  match demo_served false with
  | Done (w, rep) =>
      bool_decide (length (Lines w) = 1%nat ∧ RawQuery <$> Received w = ["query=%3Dg1&time=1"])
  | Panic => false
  end.

Lemma demo_related_free names token (a : unit) m : (demo_related names token a).2 = Some m →
  map_Forall (λ _ l, Forall (free_of bar) l) m.
Proof. intros [= <-]. apply map_Forall_singleton. by repeat constructor. Qed.

Lemma demo_ids_free : query_ids_free demo_parse_expr demo_call.
Proof.
  intros e id He. assert (e = demo_query MatchEqual "app") as ->.
  { vm_compute in He. vm_compute. by injection He as <-. }
  intros (ms&Hms&Hid)%elem_of_tree_ids. apply list_elem_of_singleton in Hms as ->.
  apply elem_of_selected_ids in Hid as (m&Hm&Hid).
  apply list_elem_of_singleton in Hm as ->. apply list_elem_of_singleton in Hid as ->.
  by vm_compute.
Qed.

Definition demo_later : relation unit := λ _ _, True.
#[export] Instance demo_later_preorder : PreOrder demo_later.
Proof. by split. Defined.


(** The checker fails twice, then succeeds. *)
Definition demo_checker (a : nat) : nat * option string :=
  match a with O => (O, None) | S a => (a, Some "not ready"%string) end.
Definition demo_proxy : CFAuthProxy (A := nat) (URL := string) (CertPool := unit) :=
  mkProxy true "http://gw" ":0" "" "" None 10 id NewNullAccessMiddleware id.

Lemma proxy_serves_when_ready_witness :
  becomes_ready demo_checker 2 2%nat 0%nat ∧
  (Start demo_answer demo_checker (λ _, None) (λ _ _, None) 3 demo_proxy 2%nat).2 =
    Serving [10; 10] false (serve demo_answer demo_proxy).
Proof.
  assert (becomes_ready demo_checker 2 2%nat 0%nat) as H by
    (econstructor; [done|]; econstructor; [done|]; by constructor).
  split; [done|].
  destruct (proxy_serves_when_ready demo_answer demo_checker (λ _, None) (λ _ _, None) demo_proxy 2%nat)
    as [_ Hr].
  destruct (Hr 2%nat 0%nat 3%nat H) as (_&_&Hs); [lia|]. by apply Hs.
Defined.
