(* ===== verification/PromQL.v ===== *)
(** * PromQL: from envelopes to series

    Models the storage side of internal/promql/promql.go: [LogCacheQuerier.Select],
    the metric name sanitizer, the series builder and the iterators.

    The data reader is an operation on a world [W].  A [range] over a map takes
    the order of the visit as an argument.  A counter's total and a timer's
    duration become floats by correct rounding ([SpecFloat.binary_normalize]).
    The regular expression of [SanitizeMetricName] works on runes: [rune_length]
    is Go's decoding of UTF-8, where an invalid byte is a rune of its own. *)

From S2P Require Import Prelude AvlTree Envelope ExpirationHeap Store StoreInv StoreTruncate StoreGet Proxies GoStrings PromQLSources.

(** ** Sanitized names *)
Definition byte_in (lo hi : nat) (c : ascii) : bool :=
  bool_decide (lo ≤ nat_of_ascii c ∧ nat_of_ascii c ≤ hi)%nat.

(** [A-z], which holds the six characters between the cases. *)
Definition is_A_to_z (c : ascii) : bool := byte_in 65 122 c.
Definition is_underscore (c : ascii) : bool := byte_in 95 95 c.
(** [\w] without the underscore. *)
Definition is_alnum (c : ascii) : bool := byte_in 48 57 c || byte_in 65 90 c || byte_in 97 122 c.

Definition continuation (lo hi : nat) (s : string) : bool :=
  match s with String c _ => byte_in lo hi c | EmptyString => false end.
Definition skip_char (s : string) : string :=
  match s with String _ s => s | EmptyString => s end.

(** The number of bytes of the rune that starts with [c], when [s] follows. *)
Definition rune_length (c : ascii) (s : string) : nat :=
  let s1 := skip_char s in
  let s2 := skip_char s1 in
  if byte_in 194 223 c then if continuation 128 191 s then 2 else 1
  else if byte_in 224 239 c then
    let lo := if byte_in 224 224 c then 160%nat else 128%nat in
    let hi := if byte_in 237 237 c then 159%nat else 191%nat in
    if continuation lo hi s && continuation 128 191 s1 then 3 else 1
  else if byte_in 240 244 c then
    let lo := if byte_in 240 240 c then 144%nat else 128%nat in
    let hi := if byte_in 244 244 c then 143%nat else 191%nat in
    if continuation lo hi s && continuation 128 191 s1 && continuation 128 191 s2 then 4 else 1
  else 1.

Definition underscore : ascii := "_"%char.

(** The replacement from a position on; [pending] bytes belong to a rune that was
    replaced already, [first] holds at the start of the text. *)
Fixpoint sanitize (first : bool) (pending : nat) (s : string) : string :=
  match s with
  | EmptyString => EmptyString
  | String c s =>
      match pending with
      | S pending => sanitize false pending s
      | O =>
          if (first && negb (is_A_to_z c)) || negb (is_alnum c)
          then String underscore (sanitize false (rune_length c s - 1) s)
          else String c (sanitize false 0 s)
      end
  end.

Definition SanitizeMetricName (name : string) : string := sanitize true 0 name.

(** ** The series builder *)
Record point := mkPoint { t : Z; v : float64 }.

Record seriesData := mkSeries { tags : gmap string string; points : list point }.

(** The keys in the order of [sort.Strings]. *)
Definition sorted_keys (m : gmap string string) : list string :=
  merge_sort string_le (map_to_list m).*1.

Definition getSeriesID (m : gmap string string) : string :=
  foldl (λ seriesID k, seriesID +:+ "-" +:+ k +:+ "-" +:+ default "" (m !! k)) ""
    (sorted_keys m).

Definition add (b : gmap string seriesData) (m : gmap string string) (s : point) :
    gmap string seriesData :=
  let seriesID := getSeriesID m in
  let d := default (mkSeries m []) (b !! seriesID) in
  <[seriesID := mkSeries (tags d) (points d ++ [s])]> b.

(** ** The series set

    What the engine of Prometheus is given: [storage.SeriesSet] and
    [storage.Series]. *)
Record concreteSeries := mkConcrete { labels : list (string * string); series_points : list point }.

Record concreteSeriesSet := mkSet { set_cur : Z; series : list concreteSeries }.

(** The labels of some tags in the order [range] visits them. *)
Definition convertToLabels (range : gmap string string → list (string * string)) (m : gmap string string) :
    list (string * string) := range m.

Definition concrete (range : gmap string string → list (string * string)) (d : seriesData) : concreteSeries :=
  mkConcrete (convertToLabels range (tags d)) (points d).

(** [visit] is the order in which the builder's map is visited. *)
Definition buildSeriesSet (visit : gmap string seriesData → list (string * seriesData))
    (range : gmap string string → list (string * string)) (b : gmap string seriesData) : concreteSeriesSet :=
  mkSet 0 (concrete range <$> (visit b).*2).

(** [labels.New] sorts a copy of the labels by name. *)
Definition Labels (c : concreteSeries) : list (string * string) := merge_sort key_le (labels c).

(** ** Select *)
Definition float_of_Z (z : Z) : float64 := binary_normalize 53 1024 z 0 false.

Definition hasLabels (m : gmap string string) (ls : list (string * string)) : bool :=
  forallb (λ l, bool_decide (m !! l.1 = Some l.2)) ls.

Definition interval : Z := 1000000000.
Definition Millisecond : Z := 1000000.

(** [time.Unix(0, ts).Truncate(interval).UnixNano()]. *)
Definition truncate_time (ts : Z) : Z := wrap64 (ts / interval * interval).

Definition set_tags (m : gmap string string) (ts : Z) (e : Envelope) : Envelope :=
  mkEnvelope ts (SourceId e) (InstanceId e) (DeprecatedTags e) m (Message e).

Section Select.
Variable order : gmap string GaugeValue → list (string * GaugeValue).
Variable range : gmap string string → list (string * string).

Definition checkMapForSanitizedMetricName (gauge : Gauge) (metric : string) : option GaugeValue :=
  snd <$> head (filter (λ kv, SanitizeMetricName kv.1 = metric) (order (Gauge_Metrics gauge))).

(** The value of an envelope for the metric; [None] is a [continue]. *)
Definition envelope_value (e : Envelope) (metric : string) : option float64 :=
  match Message e with
  | Some (Envelope_Counter c) =>
      if decide (SanitizeMetricName (Counter_Name c) = metric)
      then Some (float_of_Z (Counter_Total c)) else None
  | Some (Envelope_Gauge g) => GaugeValue_Value <$> checkMapForSanitizedMetricName g metric
  | Some (Envelope_Timer tm) =>
      if decide (SanitizeMetricName (Timer_Name tm) = metric)
      then Some (float_of_Z (wrap64 (Timer_Stop tm - Timer_Start tm))) else None
  | _ => None
  end.

(** The tags and the point an envelope adds. *)
Definition envelope_point (metric : string) (ls : list (string * string)) (e : Envelope) :
    option (gmap string string * point) :=
  if hasLabels (Tags e) ls then
    f ← envelope_value e metric;
    let ts := truncate_time (Timestamp e) in
    let m := <["source_id"%string := SourceId e]> (Tags e) in
    let m := if decide (InstanceId e = "") then m else <["instance_id"%string := InstanceId e]> m in
    Some (m, mkPoint (Z.quot ts Millisecond) f)
  else None.

Definition add_envelopes (metric : string) (ls : list (string * string)) (batch : list Envelope)
    (b : gmap string seriesData) : gmap string seriesData :=
  foldl (λ b e, match envelope_point metric ls e with Some (m, p) => add b m p | None => b end)
    b batch.

(** One step of the loop over the matchers. *)
Definition select_step (a : string * list (string * string) * gset string) (l : Matcher) :
    string * list (string * string) * gset string :=
  let '(metric, ls, ids) := a in
  if decide (Name l = "__name__") then (Value l, ls, ids)
  else if decide (Name l = "source_id") then (metric, ls, addSourceIDsFromLabelMatcher ids l)
  else (metric, ls ++ [(Name l, Value l)], ids).

(** The metric, the label filters and the source ids of the matchers. *)
Definition select_params (ll : list Matcher) : string * list (string * string) * gset string :=
  foldl select_step (""%string, [], ∅) ll.

Context {W : Type}.
Variable Read : ReadRequest → W → W * result string (list Envelope).

(** The request for one source. *)
Definition select_request (start end_ : Z) (sourceID : string) : ReadRequest :=
  mkRead sourceID (wrap64 (start - interval)) end_ 0
    [EnvelopeType_GAUGE; EnvelopeType_COUNTER; EnvelopeType_TIMER] false "".

Fixpoint read_sources (start end_ : Z) (metric : string) (ls : list (string * string))
    (sourceIDs : list string) (b : gmap string seriesData) (w : W) :
    W * result string (gmap string seriesData) :=
  match sourceIDs with
  | [] => (w, Ok b)
  | sourceID :: sourceIDs =>
      let '(w, r) := Read (select_request start end_ sourceID) w in
      match r with
      | Err err => (w, Err err)
      | Ok batch =>
          read_sources start end_ metric ls sourceIDs (add_envelopes metric ls batch b) w
      end
  end.

(** [Select]: the error is also handed to [errf]. *)
Definition Select (start end_ : Z) (ids_order : gset string → list string)
    (visit : gmap string seriesData → list (string * seriesData)) (ll : list Matcher) (w : W) :
    W * result string concreteSeriesSet :=
  let '(metric, ls, sourceIDs) := select_params ll in
  if decide (sourceIDs = ∅) then
    (w, Err ("Metric '" +:+ metric +:+ "' does not have a 'source_id' label."))
  else
    let '(w, b) := read_sources start end_ metric ls (ids_order sourceIDs) ∅ w in
    match b with
    | Err err => (w, Err err)
    | Ok b => (w, Ok (buildSeriesSet visit range b))
    end.
End Select.

(** ** Iterators *)
Definition Set_Next (c : concreteSeriesSet) : concreteSeriesSet * bool :=
  let c := mkSet (set_cur c + 1) (series c) in
  (c, set_cur c - 1 <? Z.of_nat (length (series c))).

(** A slice index. *)
Definition slice_at {A} (l : list A) (i : Z) : outcome A :=
  if i <? 0 then Panic else must (l !! Z.to_nat i).

Definition Set_At (c : concreteSeriesSet) : outcome concreteSeries :=
  slice_at (series c) (set_cur c - 1).

Record concreteSeriesIterator := mkIter { cur : Z; iter_points : list point }.

Definition newConcreteSeriersIterator (s : concreteSeries) : concreteSeriesIterator :=
  mkIter (-1) (series_points s).

Definition Iterator (c : concreteSeries) : concreteSeriesIterator := newConcreteSeriersIterator c.

(** The loop of Go's [sort.Search]: the least index from which [f] holds. *)
Fixpoint search (fuel : nat) (f : Z → bool) (i j : Z) : Z :=
  match fuel with
  | O => i
  | S fuel =>
      if i <? j then
        let h := Z.shiftr (i + j) 1 in
        if negb (f h) then search fuel f (h + 1) j else search fuel f i h
      else i
  end.

Definition sort_Search (n : Z) (f : Z → bool) : Z := search (Z.to_nat n) f 0 n.

Definition Seek (c : concreteSeriesIterator) (tm : Z) : concreteSeriesIterator * bool :=
  let n := Z.of_nat (length (iter_points c)) in
  let i := sort_Search n (λ k, match iter_points c !! Z.to_nat k with
                               | Some p => tm <=? t p | None => false end) in
  (mkIter i (iter_points c), i <? n).

Definition Iter_At (c : concreteSeriesIterator) : outcome (Z * float64) :=
  p ← slice_at (iter_points c) (cur c);
  Done (t p, v p).

Definition Iter_Next (c : concreteSeriesIterator) : concreteSeriesIterator * bool :=
  let c := mkIter (cur c + 1) (iter_points c) in
  (c, cur c <? Z.of_nat (length (iter_points c))).

(** The rest of the querier: the label queries are not implemented. *)
Definition LabelValues (name : string) : outcome (list string) := Panic.
Definition LabelNames : outcome (list string) := Panic.
Definition Querier_Close : option string := None.

(** ** Sanitized names are metric names *)

(** Letters, digits and underscores; at the start of a name, no digit. *)
Fixpoint valid_name (first : bool) (s : string) : Prop :=
  match s with
  | EmptyString => True
  | String c s => (is_alnum c || is_underscore c = true) ∧
      (first = true → byte_in 48 57 c = false) ∧ valid_name false s
  end.

Ltac byte_cases :=
  unfold is_alnum, is_A_to_z, is_underscore, byte_in in *;
  repeat match goal with
  | H : context [bool_decide ?P] |- _ => destruct (bool_decide_reflect P); simpl in *
  | |- context [bool_decide ?P] => destruct (bool_decide_reflect P); simpl in *
  end; try done; try lia.

Lemma sanitize_valid first pending s :
  (pending = 0%nat ∨ first = false) → valid_name first (sanitize first pending s).
Proof.
  revert first pending. induction s as [|c s IH]; intros first pending Hp; simpl; [done|].
  destruct pending as [|pending].
  2: { destruct Hp as [Hp|Hp]; [done|]. rewrite Hp in *. apply IH. by right. }
  destruct (first && negb (is_A_to_z c) || negb (is_alnum c)) eqn:E; simpl.
  - split_and!; [done|by intros|]. apply IH. by right.
  - apply orb_false_iff in E as [E1 E2%negb_false_iff]. rewrite E2. split_and!; [done| |].
    + intros ->. simpl in E1. apply negb_false_iff in E1. byte_cases.
    + apply IH. by right.
Qed.

Lemma rune_length_ascii c s : is_alnum c || is_underscore c = true → rune_length c s = 1%nat.
Proof.
  unfold rune_length. intros H.
  assert (byte_in 194 223 c = false ∧ byte_in 224 239 c = false ∧ byte_in 240 244 c = false)
    as (->&->&->) by (split_and!; byte_cases). done.
Qed.

Lemma sanitize_id first s : valid_name first s → sanitize first 0 s = s.
Proof.
  revert first. induction s as [|c s IH]; intros first; simpl; [done|]. intros (Hc&Hf&Hs).
  destruct (first && negb (is_A_to_z c) || negb (is_alnum c)) eqn:E; [|by rewrite IH].
  rewrite rune_length_ascii by done. simpl. rewrite IH by done. f_equal.
  assert (nat_of_ascii c = 95)%nat as Hn.
  { destruct first; simpl in E; [specialize (Hf eq_refl)|]; byte_cases. }
  rewrite <- (ascii_nat_embedding c), Hn. done.
Qed.

(** ** The series of the builder *)

(** Tags that occur together are told apart by their series id. *)
Definition ids_distinct (pts : list (gmap string string * point)) : Prop :=
  ∀ p q, p ∈ pts → q ∈ pts → getSeriesID p.1 = getSeriesID q.1 → p.1 = q.1.

(** The points added with some tags, in order. *)
Definition points_with (m : gmap string string) (pts : list (gmap string string * point)) :
    list point := (filter (λ p, p.1 = m) pts).*2.

Definition build (pts : list (gmap string string * point)) : gmap string seriesData :=
  foldl (λ b p, add b p.1 p.2) ∅ pts.

(** The map [b] holds the series of [pts]. *)
Definition series_of (b : gmap string seriesData) (pts : list (gmap string string * point)) : Prop :=
  ∀ id d, b !! id = Some d ↔
    ∃ m, m ∈ pts.*1 ∧ getSeriesID m = id ∧ d = mkSeries m (points_with m pts).

Lemma points_with_snoc m m' p pts :
  points_with m (pts ++ [(m', p)]) =
  points_with m pts ++ if decide (m' = m) then [p] else [].
Proof.
  unfold points_with. rewrite filter_app, fmap_app. f_equal. rewrite filter_cons. simpl.
  by case_decide.
Qed.

Lemma series_of_default b pts m :
  series_of b pts → (∀ m', m' ∈ pts.*1 → getSeriesID m' = getSeriesID m → m' = m) →
  default (mkSeries m []) (b !! getSeriesID m) = mkSeries m (points_with m pts).
Proof.
  intros Hb Hsame. destruct (b !! getSeriesID m) as [d|] eqn:E; simpl.
  - apply Hb in E as (m'&Hm'&Eid&->). by rewrite (Hsame m' Hm' Eid).
  - f_equal. unfold points_with. rewrite filter_none; [done|]. intros q Hq Eq.
    assert (b !! getSeriesID m = Some (mkSeries m (points_with m pts))) as E'; [|congruence].
    apply Hb. exists m. split_and!; [|done..]. apply list_elem_of_fmap. by exists q.
Qed.

Lemma series_of_add b pts m p :
  series_of b pts → (∀ m', m' ∈ pts.*1 → getSeriesID m' = getSeriesID m → m' = m) →
  series_of (add b m p) (pts ++ [(m, p)]).
Proof.
  intros Hb Hsame id d. unfold add. rewrite series_of_default with (pts := pts) by done.
  cbn [tags points]. rewrite lookup_insert_Some, fmap_app.
  setoid_rewrite elem_of_app. setoid_rewrite list_elem_of_singleton.
  setoid_rewrite points_with_snoc. split.
  - intros [[<- <-]|[Hne Hl]].
    + exists m. rewrite decide_True by done. auto.
    + apply Hb in Hl as (m'&Hm'&<-&->). exists m'. rewrite decide_False by (by intros ->).
      rewrite app_nil_r. auto.
  - intros (m'&Hm'&<-&->). destruct (decide (m = m')) as [<-|Hne]; [by left|right].
    destruct Hm' as [Hm'| ->]; [|done].
    split; [intros E; by apply Hne; symmetry; apply Hsame|]. apply Hb. exists m'.
    by rewrite app_nil_r.
Qed.

Lemma build_series pts : ids_distinct pts → series_of (build pts) pts.
Proof.
  unfold build. induction pts as [|[m p] pts IH] using rev_ind; intros Hd.
  { intros id d. simpl. rewrite lookup_empty. split; [done|].
    by intros (m&?%not_elem_of_nil&_). }
  rewrite foldl_app. apply series_of_add.
  - apply IH. intros a b Ha Hb. apply Hd; rewrite elem_of_app; by left.
  - intros m' (q&->&Hq)%list_elem_of_fmap E. apply (Hd q (m, p)); [| |done];
      rewrite elem_of_app; [by left|right; by left].
Qed.

(** ** Reading the sources *)
Section SelectSpec.
Context (order : gmap string GaugeValue → list (string * GaugeValue)).
Context (range : gmap string string → list (string * string)).
Context (reply : string → list Envelope).

(** The points of the envelopes read from some sources, in order. *)
Definition read_points (metric : string) (ls : list (string * string)) (ids : list string) :
    list (gmap string string * point) :=
  omap (envelope_point order metric ls) (ids ≫= reply).

Lemma add_envelopes_fold metric ls batch b :
  add_envelopes order metric ls batch b =
  foldl (λ b p, add b p.1 p.2) b (omap (envelope_point order metric ls) batch).
Proof.
  unfold add_envelopes. revert b. induction batch as [|e batch IH]; intros b; [done|].
  rewrite omap_cons, foldl_app. simpl. rewrite IH.
  by destruct (envelope_point order metric ls e) as [[m p]|].
Qed.

(** Reads that reply for the sources that are wanted; [inv] follows the world. *)
Section Reads.
Context {W : Type} (Read : ReadRequest → W → W * result string (list Envelope)).
Context (start end_ : Z) (wanted : string → Prop) (inv : list ReadRequest → W → Prop).
Hypothesis Read_replies : ∀ id rs w, wanted id → inv rs w →
  ∃ w', Read (select_request start end_ id) w = (w', Ok (reply id)) ∧ inv (rs ++ [select_request start end_ id]) w'.

Lemma read_sources_spec metric ls ids b rs w :
  Forall wanted ids → inv rs w →
  ∃ w', read_sources order Read start end_ metric ls ids b w =
    (w', Ok (foldl (λ b p, add b p.1 p.2) b (read_points metric ls ids))) ∧
    inv (rs ++ (select_request start end_ <$> ids)) w'.
Proof.
  intros Hids. revert b rs w. induction Hids as [|id ids Hid _ IH]; intros b rs w Hw; cbn [read_sources].
  { exists w. simpl. by rewrite app_nil_r. }
  destruct (Read_replies id rs w Hid Hw) as (w1&->&Hw1).
  destruct (IH (add_envelopes order metric ls (reply id) b) _ w1 Hw1) as (w'&->&Hw').
  exists w'. split; [|by rewrite fmap_cons, cons_middle, app_assoc].
  unfold read_points. rewrite bind_cons, omap_app, foldl_app, add_envelopes_fold. done.
Qed.
End Reads.

Lemma select_params_ids ll : (select_params ll).2 = selected_ids ll.
Proof.
  assert (∀ a, (foldl select_step a ll).2 = addSourceIDsFromMatchers ll a.2) as H
    by (unfold addSourceIDsFromMatchers; induction ll as [|l ll IH]; intros [[metric ls] ids];
        cbn [foldl]; [done|]; rewrite IH; unfold select_step;
        destruct (decide (Name l = "__name__")) as [E|E], (decide (Name l = "source_id")) as [E'|E'];
        try done; by rewrite E in E').
  apply H.
Qed.

(** The series of the points read: one for each set of tags. *)
Definition series_read (metric : string) (ls : list (string * string)) (ids : list string)
    (ds : list seriesData) : Prop :=
  NoDup (tags <$> ds) ∧
  ∀ d, d ∈ ds ↔ ∃ m, m ∈ (read_points metric ls ids).*1 ∧
    d = mkSeries m (points_with m (read_points metric ls ids)).

Lemma Select_reads {W} (Read : ReadRequest → W → W * result string (list Envelope))
    (wanted : string → Prop) (inv : list ReadRequest → W → Prop) start end_ ids_order visit ll rs w :
  (∀ id rs w, wanted id → inv rs w → ∃ w', Read (select_request start end_ id) w = (w', Ok (reply id)) ∧
     inv (rs ++ [select_request start end_ id]) w') →
  (∀ id, id ∈ selected_ids ll → wanted id) → inv rs w →
  (∀ s, ids_order s ≡ₚ elements s) → (∀ b, visit b ≡ₚ map_to_list b) →
  let '(metric, ls, _) := select_params ll in
  let ids := ids_order (selected_ids ll) in
  ids_distinct (read_points metric ls ids) →
  if decide (selected_ids ll = ∅)
  then ∃ err, Select order range Read start end_ ids_order visit ll w = (w, Err err)
  else ∃ w' ds, Select order range Read start end_ ids_order visit ll w = (w', Ok (mkSet 0 (concrete range <$> ds))) ∧
    inv (rs ++ (select_request start end_ <$> ids)) w' ∧ series_read metric ls ids ds.
Proof.
  intros HRead Hwanted Hw Hids Hvisit. destruct (select_params ll) as [[metric ls] sourceIDs] eqn:Ep.
  assert (sourceIDs = selected_ids ll) as -> by by rewrite <- select_params_ids, Ep.
  intros ids Hd. unfold Select. rewrite Ep. case_decide as He; [eauto|]. fold ids.
  destruct (read_sources_spec Read start end_ wanted inv HRead metric ls ids ∅ rs w) as (w'&->&Hl);
    [|done|].
  { apply Forall_forall. intros id Hi. apply Hwanted. unfold ids in Hi. by rewrite Hids, elem_of_elements in Hi. }
  fold (build (read_points metric ls ids)).
  pose proof (build_series _ Hd) as Hb. set (b := build (read_points metric ls ids)) in *.
  exists w', (visit b).*2. split_and!; [done..|split].
  - apply (NoDup_fmap_1 getSeriesID).
    replace (getSeriesID <$> (tags <$> (visit b).*2)) with (visit b).*1.
    + rewrite Hvisit. apply NoDup_fst_map_to_list.
    + rewrite <- !list_fmap_compose.
      apply list_fmap_ext. intros i [id d] Hi. apply list_elem_of_lookup_2 in Hi.
      rewrite Hvisit, elem_of_map_to_list in Hi. by apply Hb in Hi as (m&_&<-&->).
  - intros d. rewrite Hvisit, list_elem_of_fmap. split.
    + intros ([id d']&->&Hi%elem_of_map_to_list%Hb). destruct Hi as (m&?&_&?). eauto.
    + intros (m&Hm&->). exists (getSeriesID m, mkSeries m (points_with m (read_points metric ls ids))).
      split; [done|]. apply elem_of_map_to_list, Hb. eauto.
Qed.

Section Logged.
Context {W : Type} (Read : ReadRequest → W → W * result string (list Envelope)).
Context (log : W → list ReadRequest).
Hypothesis Read_replies : ∀ r w, ∃ w', Read r w = (w', Ok (reply (Req_SourceId r))) ∧
  log w' = log w ++ [r].

Lemma Read_logs start end_ id rs w : log w = rs →
  ∃ w', Read (select_request start end_ id) w = (w', Ok (reply id)) ∧
    log w' = rs ++ [select_request start end_ id].
Proof. intros <-. apply Read_replies. Qed.

(** [Select] fails, without a read, when no matcher names a source; otherwise
    it makes one read per source id of the matchers (those the authorization
    proxy checks), for the gauges, counters and timers from one second before
    the start, and its series are those of the points read: one per set of
    tags, each with all the points of its tags in the order read. *)
Theorem Select_series start end_ ids_order visit ll w :
  (∀ s, ids_order s ≡ₚ elements s) → (∀ b, visit b ≡ₚ map_to_list b) →
  let '(metric, ls, _) := select_params ll in
  let ids := ids_order (selected_ids ll) in
  ids_distinct (read_points metric ls ids) →
  if decide (selected_ids ll = ∅)
  then ∃ err, Select order range Read start end_ ids_order visit ll w = (w, Err err)
  else ∃ w' ds, Select order range Read start end_ ids_order visit ll w = (w', Ok (mkSet 0 (concrete range <$> ds))) ∧
    log w' = log w ++ (select_request start end_ <$> ids) ∧ series_read metric ls ids ds.
Proof.
  intros Hids Hvisit.
  apply (Select_reads Read (λ _, True) (λ rs w, log w = rs)); try done. intros id rs w' _. apply Read_logs.
Qed.
End Logged.
End SelectSpec.

(** A sanitized name is a metric name of Prometheus (letters, digits and
    underscores, no digit first) of at most as many bytes, and sanitizing it
    again, or any name that is one already, changes nothing. *)
Theorem SanitizeMetricName_valid name :
  valid_name true (SanitizeMetricName name) ∧
  (String.length (SanitizeMetricName name) ≤ String.length name)%nat ∧
  SanitizeMetricName (SanitizeMetricName name) = SanitizeMetricName name ∧
  (valid_name true name → SanitizeMetricName name = name).
Proof.
  assert (valid_name true (SanitizeMetricName name)) as Hv by (apply sanitize_valid; by left).
  split_and!; [done| |by apply sanitize_id|by apply sanitize_id].
  assert (∀ first pending s, (String.length (sanitize first pending s) ≤ String.length s)%nat) as H.
  { intros first pending s. revert first pending.
    induction s as [|c s IH]; intros first pending; simpl; [done|].
    destruct pending as [|pending]; [|specialize (IH false pending); lia].
    destruct (_ || _); simpl; [specialize (IH false (rune_length c s - 1)%nat)|specialize (IH false 0%nat)]; lia. }
  apply H.
Qed.

Lemma SanitizeMetricName_valid_witness :
  valid_name true "cpu_entitlement" ∧ SanitizeMetricName "cpu_entitlement" = "cpu_entitlement"%string ∧
  SanitizeMetricName "1.cpu-%" = "__cpu__"%string.
Proof.
  assert (valid_name true "cpu_entitlement") as H by (by vm_compute).
  split; [done|]. split; [|by vm_compute].
  by apply (SanitizeMetricName_valid "cpu_entitlement").
Defined.

(** ** The binary search *)
Lemma search_spec f fuel i j :
  (∀ a b, i ≤ a → a ≤ b → b < j → f a = true → f b = true) →
  0 ≤ i ≤ j → j - i ≤ Z.of_nat fuel →
  let r := search fuel f i j in
  i ≤ r ≤ j ∧ (∀ k, i ≤ k < r → f k = false) ∧ (∀ k, r ≤ k < j → f k = true).
Proof.
  revert i j. induction fuel as [|fuel IH]; intros i j Hm Hij Hf; cbn [search].
  { split_and!; intros; lia. }
  destruct (Z.ltb_spec i j); [|split_and!; intros; lia].
  rewrite Z.shiftr_div_pow2 by lia. change (2 ^ 1) with 2. set (h := (i + j) / 2).
  assert (i ≤ h < j) as Hh by (unfold h; split; [apply Z.div_le_lower_bound|apply Z.div_lt_upper_bound]; lia).
  destruct (f h) eqn:E; simpl.
  - destruct (IH i h) as (?&?&Ht); [intros; eapply (Hm a b); eauto; lia|lia..|].
    split_and!; [lia..|done|]. intros k Hk. destruct (Z.lt_ge_cases k h); [apply Ht; lia|].
    apply (Hm h k); lia || done.
  - destruct (IH (h + 1) j) as (?&Hl&?); [intros; eapply (Hm a b); eauto; lia|lia..|].
    split_and!; [lia..| |done]. intros k Hk. destruct (Z.le_gt_cases k h); [|apply Hl; lia].
    destruct (f k) eqn:Ek; [|done]. by rewrite (Hm k h) in E by (lia || done).
Qed.

Lemma sorted_lookup_le l i j p q :
  StronglySorted (λ p q, t p ≤ t q) l → (i ≤ j)%nat → l !! i = Some p → l !! j = Some q → t p ≤ t q.
Proof.
  intros Hs Hij Hi Hj. destruct (decide (i = j)) as [->|Hne]; [simplify_eq; lia|].
  rewrite <- (take_drop_middle l i p Hi) in Hs.
  apply StronglySorted_mid in Hs as (_&_&_&H). apply H.
  apply list_elem_of_lookup. exists (j - S i)%nat. rewrite lookup_drop. rewrite <- Hj. f_equal. lia.
Qed.

(** What the search of [Seek] finds in sorted points. *)
Lemma Seek_search l tm :
  StronglySorted (λ p q, t p ≤ t q) l →
  ∃ i, sort_Search (Z.of_nat (length l)) (λ k, match l !! Z.to_nat k with
         | Some p => tm <=? t p | None => false end) = Z.of_nat i ∧ (i ≤ length l)%nat ∧
    Forall (λ q, t q < tm) (take i l) ∧ (∀ p, l !! i = Some p → tm ≤ t p).
Proof.
  intros Hs. unfold sort_Search.
  set (f := λ k, match l !! Z.to_nat k with Some p => tm <=? t p | None => false end).
  destruct (search_spec f (Z.to_nat (Z.of_nat (length l))) 0 (Z.of_nat (length l)))
    as (Hr&Hlo&Hhi); [|lia..|].
  - intros a b Ha Hab Hb. unfold f.
    destruct (lookup_lt_is_Some_2 l (Z.to_nat b)) as [q Hq]; [lia|]. rewrite Hq.
    destruct (l !! Z.to_nat a) as [p|] eqn:Hp; [|done]. rewrite !Z.leb_le. intros.
    pose proof (sorted_lookup_le l (Z.to_nat a) (Z.to_nat b) p q Hs). lia || (etrans; [done|]; auto with lia).
  - set (r := search _ f 0 _) in *. exists (Z.to_nat r). split_and!; [lia|lia| |].
    + apply Forall_forall. intros q Hq. apply list_elem_of_lookup in Hq as [k Hk].
      apply lookup_take_Some in Hk as [Hk Hlt]. specialize (Hlo (Z.of_nat k)).
      unfold f in Hlo. rewrite Nat2Z.id, Hk in Hlo. apply Z.leb_gt, Hlo. lia.
    + intros p Hp. pose proof (lookup_lt_Some _ _ _ Hp). specialize (Hhi r).
      unfold f in Hhi. rewrite Hp in Hhi. apply Z.leb_le, Hhi. lia.
Qed.

Lemma slice_at_nat {A} (l : list A) i : slice_at l (Z.of_nat i) = must (l !! i).
Proof.
  unfold slice_at. destruct (Z.ltb_spec (Z.of_nat i) 0); [lia|]. by rewrite Nat2Z.id.
Qed.

(** On points sorted by time, [Seek] moves the iterator to the first point at
    or after the given time and says whether there is one; [At] then gives that
    point and [Next] moves to the one after it. *)
Theorem Seek_first c tm :
  StronglySorted (λ p q, t p ≤ t q) (iter_points c) →
  let '(c', found) := Seek c tm in
  iter_points c' = iter_points c ∧
  (found = true → ∃ l1 p l2, iter_points c = l1 ++ p :: l2 ∧ cur c' = Z.of_nat (length l1) ∧
     Iter_At c' = Done (t p, v p) ∧ tm ≤ t p ∧ Forall (λ q, t q < tm) l1 ∧
     (Iter_Next c').2 = bool_decide (l2 ≠ []) ∧
     ∀ q l3, l2 = q :: l3 → Iter_At (Iter_Next c').1 = Done (t q, v q)) ∧
  (found = false → Forall (λ q, t q < tm) (iter_points c)).
Proof.
  intros Hs. unfold Seek. destruct (Seek_search _ tm Hs) as (i&->&Hi&Hlt&Hge).
  cbn [iter_points cur]. split; [done|]. split; intros Hfound.
  - apply Z.ltb_lt in Hfound. destruct (lookup_lt_is_Some_2 (iter_points c) i) as [p Hp]; [lia|].
    exists (take i (iter_points c)), p, (drop (S i) (iter_points c)).
    assert (Z.of_nat i + 1 = Z.of_nat (S i)) as Hsucc by lia.
    unfold Iter_At, Iter_Next. cbn [iter_points cur fst snd]. rewrite Hsucc, !slice_at_nat, Hp.
    split_and!; [by rewrite take_drop_middle|rewrite length_take_le by lia; done|done|by apply Hge|done| |].
    + apply eq_true_iff_eq. rewrite Z.ltb_lt, bool_decide_eq_true, <- length_zero_iff_nil, length_drop. lia.
    + intros q l3 E. assert (iter_points c !! S i = Some q) as ->; [|done].
      rewrite <- (Nat.add_0_r (S i)), <- lookup_drop, E. done.
  - apply Z.ltb_ge in Hfound. rewrite take_ge in Hlt by lia. done.
Qed.

Lemma Seek_first_witness :
  let c := newConcreteSeriersIterator (mkConcrete [] [mkPoint 1 S754_nan; mkPoint 3 S754_nan; mkPoint 3 S754_nan; mkPoint 7 S754_nan]) in
  cur (Seek c 2).1 = 1 ∧
  let '(c', found) := Seek c 2 in
  iter_points c' = iter_points c ∧
  (found = true → ∃ l1 p l2, iter_points c = l1 ++ p :: l2 ∧ cur c' = Z.of_nat (length l1) ∧
     Iter_At c' = Done (t p, v p) ∧ 2 ≤ t p ∧ Forall (λ q, t q < 2) l1 ∧
     (Iter_Next c').2 = bool_decide (l2 ≠ []) ∧
     ∀ q l3, l2 = q :: l3 → Iter_At (Iter_Next c').1 = Done (t q, v q)) ∧
  (found = false → Forall (λ q, t q < 2) (iter_points c)).
Proof.
  intros c. split; [by vm_compute|]. apply (Seek_first c 2).
  repeat constructor; simpl; lia.
Defined.

(** ** Series ids *)

(** Two sets of tags with one series id: the separator may occur in the tags. *)
Fact series_ids_collide :
  getSeriesID {[ "a"%string := "b-c-d"%string ]} =
  getSeriesID {[ "a"%string := "b"%string; "c"%string := "d"%string ]} ∧
  ({[ "a"%string := "b-c-d"%string ]} : gmap string string) ≠
  {[ "a"%string := "b"%string; "c"%string := "d"%string ]}.
Proof.
  split; [by vm_compute|]. intros E.
  assert (({[ "a"%string := "b-c-d"%string ]} : gmap string string) !! "c"%string =
    ({[ "a"%string := "b"%string; "c"%string := "d"%string ]} : gmap string string) !! "c"%string)
    as E' by by rewrite E. by vm_compute in E'.
Qed.

(** ** Label matchers *)

(** Only the name and the value of a label matcher matter to [Select], not its
    kind: [deployment!="x"] filters like [deployment="x"]. *)
Fact matcher_kind_ignored a ty ty' n val :
  n ≠ "source_id"%string → select_step a (mkMatcher ty n val) = select_step a (mkMatcher ty' n val).
Proof. intros Hn. destruct a as [[metric ls] ids]. cbv [select_step PromQLSources.Name PromQLSources.Value]. by repeat case_decide. Qed.

Definition demo_timer (id name : string) (ts : Z) : Envelope :=
  mkEnvelope ts id "0" ∅ ∅ (Some (Envelope_Timer (mkTimer name 1 3))).
Definition demo_reply (id : string) : list Envelope :=
  [demo_timer id "http" 5000000000; demo_timer id "other" 6000000000; demo_timer id "http" 7000000000].

Lemma Select_series_witness :
  let ll := [mkMatcher MatchEqual "__name__" "http"; source_matcher MatchEqual "a"] in
  let order := λ m : gmap string GaugeValue, map_to_list m in
  let read := λ r (w : list ReadRequest), (w ++ [r], Ok (demo_reply (Req_SourceId r)) : result string _) in
  ∃ w' ds, Select order map_to_list read 8000000000 9000000000 elements map_to_list ll [] =
      (w', Ok (mkSet 0 (concrete map_to_list <$> ds))) ∧
    w' = [] ++ (select_request 8000000000 9000000000 <$> elements (selected_ids ll)) ∧
    series_read order demo_reply "http" [] (elements (selected_ids ll)) ds.
Proof.
  intros ll order read.
  pose proof (Select_series order map_to_list demo_reply read (λ w, w)
    (λ r w, ex_intro _ _ (conj eq_refl eq_refl)) 8000000000 9000000000 elements map_to_list ll []
    (λ _, Permutation_refl _) (λ _, Permutation_refl _)) as H.
  assert (select_params ll = ("http"%string, [], selected_ids ll)) as Ep by by vm_compute.
  rewrite Ep in H. cbv zeta in H. cbn beta iota delta [fst snd] in H. rewrite decide_False in H.
  - apply H. assert (read_points order demo_reply "http" [] (elements (selected_ids ll)) =
      let m := {[ "source_id"%string := "a"%string; "instance_id"%string := "0"%string ]} in
      [(m, mkPoint 5000 (float_of_Z 2)); (m, mkPoint 7000 (float_of_Z 2))]) as -> by vm_eq.
    intros p q Hp Hq _. apply list_elem_of_In in Hp, Hq. simpl in Hp, Hq. naive_solver.
  - intros E. assert (("a"%string ∈ selected_ids ll)) as Hin
      by (apply (bool_decide_eq_true_1 _); by vm_compute). by rewrite E in Hin.
Defined.
