(* ===== verification/PromQLSeries.v ===== *)
(** * PromQL: the series the engine is given are well formed

    The contract of [storage.SeriesSet] the engine of Prometheus relies on, for
    the sets of PromQL.v: labels sorted by name and distinct, the source and the
    filters of the query among them, points in time order on whole seconds, and
    what walking a set and its iterators visits. *)

From S2P Require Import Prelude AvlTree Envelope ExpirationHeap Store StoreInv StoreTruncate StoreGet Proxies GoStrings PromQLSources PromQL.

(** ** The contract *)
Record well_formed (ids : list string) (filters : list (string * string)) (c : concreteSeries) : Prop := {
  wf_sorted : StronglySorted key_le (Labels c);
  wf_names : NoDup (Labels c).*1;
  wf_source : ∃ id, id ∈ ids ∧ ("source_id"%string, id) ∈ Labels c;
  wf_filters : ∀ l, l ∈ filters → l.1 ≠ "instance_id"%string → l ∈ Labels c;
  wf_some : series_points c ≠ [];
  wf_times : StronglySorted (λ p q, t p ≤ t q) (series_points c);
  wf_seconds : Forall (λ p, (1000 | t p)) (series_points c);
}.

(** What a data reader answers for a source: its envelopes, oldest first. *)
Definition in_order (id : string) (es : list Envelope) : Prop :=
  StronglySorted (λ a b, Timestamp a ≤ Timestamp b) es ∧
  Forall (λ e, SourceId e = id ∧ 0 ≤ Timestamp e ≤ MaxInt64) es.

Lemma Labels_sorted c : StronglySorted key_le (Labels c).
Proof. unfold Labels. apply (StronglySorted_merge_sort key_le). Qed.

Lemma Labels_concrete range d l :
  (∀ m, range m ≡ₚ map_to_list m) → l ∈ Labels (concrete range d) ↔ tags d !! l.1 = Some l.2.
Proof.
  intros Hr. unfold Labels. rewrite merge_sort_Permutation. simpl. unfold convertToLabels.
  rewrite Hr. destruct l. apply elem_of_map_to_list.
Qed.

Lemma Labels_names range d :
  (∀ m, range m ≡ₚ map_to_list m) → NoDup (Labels (concrete range d)).*1.
Proof.
  intros Hr. unfold Labels. rewrite merge_sort_Permutation. simpl. unfold convertToLabels.
  rewrite Hr. apply NoDup_fst_map_to_list.
Qed.

(** ** Where a point comes from *)

(** The filters of a query never name the source. *)
Lemma select_params_filters ll l : l ∈ (select_params ll).1.2 → l.1 ≠ "source_id"%string.
Proof.
  unfold select_params.
  assert (∀ a, (∀ l, l ∈ a.1.2 → l.1 ≠ "source_id"%string) →
    ∀ l, l ∈ (foldl select_step a ll).1.2 → l.1 ≠ "source_id"%string) as H.
  { induction ll as [|l' ll IH]; intros a Ha; [done|]. cbn [foldl]. apply IH.
    destruct a as [[metric ls] ids]. unfold select_step. repeat case_decide; try done.
    intros k [Hk|Hk%list_elem_of_singleton]%elem_of_app; [by apply Ha|by subst]. }
  apply H. by intros ? ?%elem_of_nil.
Qed.

Section Points.
Context (order : gmap string GaugeValue → list (string * GaugeValue)).
Context (metric : string) (ls : list (string * string)).
Notation ep := (envelope_point order metric ls).

Lemma envelope_point_spec e m p : ep e = Some (m, p) →
  m !! "source_id"%string = Some (SourceId e) ∧
  (∀ l, l ∈ ls → l.1 ≠ "source_id"%string → l.1 ≠ "instance_id"%string → m !! l.1 = Some l.2) ∧
  t p = Z.quot (truncate_time (Timestamp e)) Millisecond.
Proof.
  unfold envelope_point. destruct (hasLabels (Tags e) ls) eqn:Eh; [|done].
  destruct (envelope_value order e metric) as [f|]; [|done]. simpl. intros [= <- <-].
  split; [by case_decide; simplify_map_eq|]. split; [|done].
  intros l Hl Hs Hi. assert (Tags e !! l.1 = Some l.2) as Ht.
  { unfold hasLabels in Eh. rewrite forallb_forall in Eh. apply list_elem_of_In in Hl. by apply Eh, bool_decide_eq_true in Hl. }
  case_decide; by simplify_map_eq.
Qed.

Lemma truncated_seconds ts : 0 ≤ ts ≤ MaxInt64 →
  Z.quot (truncate_time ts) Millisecond = ts / interval * 1000.
Proof.
  intros H. unfold truncate_time, interval, Millisecond.
  pose proof (Z.mul_div_le ts 1000000000 eq_refl). pose proof (Z.div_pos ts 1000000000).
  rewrite wrap64_id by (unfold int64_range, MinInt64, MaxInt64 in *; lia).
  rewrite Z.quot_div_nonneg by lia. symmetry. apply Z.div_unique_exact; lia.
Qed.

(** The points of one set of tags, straight from the envelopes. *)
Definition tagged (m : gmap string string) (e : Envelope) : option point :=
  '(m', p) ← ep e; if decide (m' = m) then Some p else None.

Lemma points_with_tagged m es : points_with m (omap ep es) = omap (tagged m) es.
Proof.
  unfold points_with. induction es as [|e es IH]; [done|].
  rewrite !omap_cons, filter_app, fmap_app, IH. f_equal. unfold tagged.
  destruct (ep e) as [[m' p]|]; [|done]. change (option_list (Some (m', p))) with [(m', p)]. cbn [mbind option_bind].
  rewrite filter_cons. simpl. by case_decide.
Qed.

Lemma tagged_source m e p id :
  m !! "source_id"%string = Some id → tagged m e = Some p → SourceId e = id.
Proof.
  unfold tagged. intros Hm. destruct (ep e) as [[m' p']|] eqn:E; [|done]. simpl.
  case_decide; [|done]. subst. apply envelope_point_spec in E as (Hs&_). congruence.
Qed.

(** They are points of one source. *)
Lemma tagged_one_source (reply : string → list Envelope) m id ids :
  NoDup ids → (∀ id, id ∈ ids → Forall (λ e, SourceId e = id) (reply id)) →
  m !! "source_id"%string = Some id →
  omap (tagged m) (ids ≫= reply) = if decide (id ∈ ids) then omap (tagged m) (reply id) else [].
Proof.
  intros Hnd Hr Hm.
  assert (∀ k, k ∈ ids → k ≠ id → omap (tagged m) (reply k) = []) as Hother.
  { intros k Hk Hne. apply elem_of_nil_inv. intros p (e&He&Ep)%list_elem_of_omap.
    specialize (Hr k Hk). rewrite Forall_forall in Hr. apply Hne. rewrite <- (Hr e He).
    by eapply tagged_source. }
  induction Hnd as [|k ids Hk Hnd IH]; [done|]. rewrite bind_cons, omap_app.
  rewrite IH by (intros; (apply Hr || apply Hother); [by right|..]; done).
  destruct (decide (k = id)) as [->|Hne].
  - rewrite (decide_True (P := id ∈ id :: ids)), decide_False by (done || by left). by rewrite app_nil_r.
  - rewrite Hother by (done || by left). simpl. apply decide_ext. rewrite elem_of_cons. naive_solver.
Qed.

Lemma tagged_times m es :
  StronglySorted (λ a b, Timestamp a ≤ Timestamp b) es → Forall (λ e, 0 ≤ Timestamp e ≤ MaxInt64) es →
  StronglySorted (λ p q, t p ≤ t q) (omap (tagged m) es) ∧
  Forall (λ p, (1000 | t p)) (omap (tagged m) es).
Proof.
  intros Hs Hr. rewrite Forall_forall in Hr.
  assert (∀ e p, e ∈ es → tagged m e = Some p → t p = Timestamp e / interval * 1000) as Ht.
  { intros e p He. unfold tagged. destruct (ep e) as [[m' p']|] eqn:E; [|done]. simpl.
    case_decide; [|done]. intros [= <-]. apply envelope_point_spec in E as (_&_&->).
    by apply truncated_seconds, Hr. }
  split.
  - eapply StronglySorted_omap; [|exact Hs]. intros a b x y Ha Hb Hab Ex Ey.
    rewrite (Ht a x Ha Ex), (Ht b y Hb Ey). apply Z.mul_le_mono_nonneg_r; [lia|].
    by apply Z.div_le_mono.
  - apply Forall_forall. intros p (e&He&E)%list_elem_of_omap. rewrite (Ht e p He E).
    by apply Z.divide_factor_r.
Qed.
End Points.

(** ** What the engine sees of a set *)

(** Calling [Next] [n] times. *)
Fixpoint Set_after (n : nat) (c : concreteSeriesSet) : concreteSeriesSet :=
  match n with O => c | S n => (Set_Next (Set_after n c)).1 end.
Fixpoint Iter_after (n : nat) (c : concreteSeriesIterator) : concreteSeriesIterator :=
  match n with O => c | S n => (Iter_Next (Iter_after n c)).1 end.

Lemma Set_after_spec n l : Set_after n (mkSet 0 l) = mkSet (Z.of_nat n) l.
Proof.
  induction n as [|n IH]; [done|]. cbn [Set_after]. rewrite IH.
  unfold Set_Next. cbn [fst set_cur series]. f_equal. lia.
Qed.

Lemma Iter_after_spec n c : Iter_after n (Iterator c) = mkIter (Z.of_nat n - 1) (series_points c).
Proof.
  induction n as [|n IH]; [done|]. cbn [Iter_after]. rewrite IH.
  unfold Iter_Next. cbn [fst cur iter_points]. f_equal. lia.
Qed.

(** The loops [for set.Next() { set.At() }] and [for it.Next() { it.At() }] visit
    every series and every point, in order, and end. *)
Lemma walk_spec l c n :
  (Set_Next (Set_after n (mkSet 0 l))).2 = bool_decide (n < length l)%nat ∧
  (∀ s, l !! n = Some s → Set_At (Set_after (S n) (mkSet 0 l)) = Done s) ∧
  (Iter_Next (Iter_after n (Iterator c))).2 = bool_decide (n < length (series_points c))%nat ∧
  (∀ p, series_points c !! n = Some p → Iter_At (Iter_after (S n) (Iterator c)) = Done (t p, v p)).
Proof.
  rewrite !Set_after_spec, !Iter_after_spec. unfold Set_Next, Iter_Next, Set_At, Iter_At.
  cbn [fst snd set_cur series cur iter_points].
  replace (Z.of_nat (S n) - 1) with (Z.of_nat n) by lia.
  replace (Z.of_nat n + 1 - 1) with (Z.of_nat n) by lia.
  replace (Z.of_nat n - 1 + 1) with (Z.of_nat n) by lia. rewrite !slice_at_nat.
  split_and!; [|by intros s ->| |by intros p ->]; apply eq_true_iff_eq;
    rewrite Z.ltb_lt, bool_decide_eq_true; lia.
Qed.

Section WellFormed.
Context (order : gmap string GaugeValue → list (string * GaugeValue)).
Context (range : gmap string string → list (string * string)).
Context {W : Type} (Read : ReadRequest → W → W * result string (list Envelope)).
Context (log : W → list ReadRequest) (reply : string → list Envelope).
Hypothesis Read_replies : ∀ r w, ∃ w', Read r w = (w', Ok (reply (Req_SourceId r))) ∧
  log w' = log w ++ [r].
Hypothesis range_perm : ∀ m, range m ≡ₚ map_to_list m.

(** A series of the points read. *)
Lemma series_well_formed metric ls ids m :
  NoDup ids → (∀ id, id ∈ ids → in_order id (reply id)) →
  (∀ l, l ∈ ls → l.1 ≠ "source_id"%string) →
  m ∈ (read_points order reply metric ls ids).*1 →
  well_formed ids ls
    (concrete range (mkSeries m (points_with m (read_points order reply metric ls ids)))).
Proof.
  intros Hnd Hr Hls ([m' p]&->&Hp)%list_elem_of_fmap. unfold read_points in *. cbn [fst] in *.
  pose proof Hp as (e&He&Ee)%list_elem_of_omap.
  apply list_elem_of_bind in He as (id&He&Hid).
  destruct (Hr id Hid) as [Hsort Hrange]. pose proof Hrange as Hsrc.
  rewrite Forall_forall in Hsrc. destruct (Hsrc e He) as [Hse _].
  destruct (envelope_point_spec _ _ _ _ _ _ Ee) as (Hm&Hfil&_). rewrite Hse in Hm.
  assert (points_with m' (omap (envelope_point order metric ls) (ids ≫= reply)) =
    omap (tagged order metric ls m') (reply id)) as Epts.
  { rewrite points_with_tagged, (tagged_one_source order metric ls reply m' id) by
      (done || (intros k Hk; eapply Forall_impl; [exact (proj2 (Hr k Hk))|by intros ? [? _]])).
    by rewrite decide_True. }
  destruct (tagged_times order metric ls m' (reply id) Hsort) as [Htimes Hsec];
    [eapply Forall_impl; [exact Hrange|by intros ? [_ ?]]|].
  split.
  - apply Labels_sorted.
  - by apply Labels_names.
  - exists id. split; [done|]. by apply Labels_concrete.
  - intros l Hl Hi. apply Labels_concrete; [done|]. simpl. apply Hfil; auto.
  - simpl. intros E. assert (p ∈ points_with m' (omap (envelope_point order metric ls) (ids ≫= reply))) as Hin.
    { unfold points_with. apply list_elem_of_fmap. exists (m', p). split; [done|]. by apply list_elem_of_filter. }
    rewrite E in Hin. by apply elem_of_nil in Hin.
  - simpl. by rewrite Epts.
  - simpl. by rewrite Epts.
Qed.

End WellFormed.

(** Results are labelled with the instance, but a query cannot filter by it: the
    filter is compared with the tags of the envelope, before that label is added. *)
Fact instance_filter_finds_nothing order metric e :
  InstanceId e = "0"%string → Tags e = ∅ →
  envelope_point order metric [("instance_id", "0")%string] e = None.
Proof. intros Hi Ht. unfold envelope_point, hasLabels. by rewrite Ht. Qed.

Fact instance_is_a_label order :
  (λ mp, mp.1 !! "instance_id"%string) <$> envelope_point order "http" [] (demo_timer "a" "http" 5000000000) =
  Some (Some "0"%string).
Proof. reflexivity. Qed.

