(* ===== verification/Walk.v ===== *)
(** * Walking the cache: the paging client and the data reader of PromQL

    Models walk.go and the gRPC reads of client.go of the go-log-cache client
    (vendored), and internal/promql/data_reader/walking_data_reader.go.

    [Walk] pages through the envelopes of a source until its window is
    exhausted; the PromQL engine reads every source this way, through the
    node's own gRPC port.  The reader is an operation on a world [W], the clock
    and the context are observations of it; sleeping between retries is left
    out.  The loop has fuel; [Walk_complete] shows how much is enough. *)

From S2P Require Import Prelude AvlTree Envelope ExpirationHeap Store StoreInv StoreTruncate StoreGet StoreRefine Proxies GoStrings.

(** ** Read options *)
Abbreviation Values := (gmap string (list string)).
Definition Values_Set (k v : string) (q : Values) : Values := <[k := [v]]> q.
Definition Values_Add (k v : string) (q : Values) : Values := <[k := default [] (q !! k) ++ [v]]> q.

(** The names of the enum; an unknown number prints as the number, and an
    unknown name is the zero value. *)
Definition EnvelopeType_String (t : EnvelopeType) : string :=
  match t with
  | EnvelopeType_ANY => "ANY"
  | EnvelopeType_LOG => "LOG"
  | EnvelopeType_COUNTER => "COUNTER"
  | EnvelopeType_GAUGE => "GAUGE"
  | EnvelopeType_TIMER => "TIMER"
  | EnvelopeType_EVENT => "EVENT"
  | EnvelopeType_other n => FormatInt n
  end.

Definition EnvelopeType_value (s : string) : EnvelopeType :=
  if decide (s = "LOG") then EnvelopeType_LOG
  else if decide (s = "COUNTER") then EnvelopeType_COUNTER
  else if decide (s = "GAUGE") then EnvelopeType_GAUGE
  else if decide (s = "TIMER") then EnvelopeType_TIMER
  else if decide (s = "EVENT") then EnvelopeType_EVENT
  else EnvelopeType_ANY.

Definition ReadOption := Values → Values.

Definition WithEndTime (t : Z) : ReadOption := Values_Set "end_time" (FormatInt t).
Definition WithLimit (limit : Z) : ReadOption := Values_Set "limit" (FormatInt limit).
Definition WithEnvelopeTypes (t : list EnvelopeType) : ReadOption := λ q,
  foldl (λ q v, Values_Add "envelope_types" (EnvelopeType_String v) q) q t.
Definition WithDescending : ReadOption := Values_Set "descending" "true".
Definition WithNameFilter (nameFilter : string) : ReadOption := Values_Set "name_filter" nameFilter.

(** The first value of a key, parsed; the error of [ParseInt] is dropped. *)
Definition int_value (k : string) (q : Values) : outcome Z :=
  match q !! k with
  | None => Done 0%Z
  | Some v => s ← must (head v); Done (ParseInt s).1
  end.

Definition grpc_request (sourceID : string) (start : Z) (opts : list ReadOption) :
    outcome ReadRequest :=
  let q := foldl (λ q (o : ReadOption), o q) ∅ opts in
  limit ← int_value "limit" q;
  end_ ← int_value "end_time" q;
  nf ← match q !! "name_filter"%string with None => Done ""%string | Some v => must (head v) end;
  Done (mkRead sourceID start end_ limit
    (EnvelopeType_value <$> default [] (q !! "envelope_types"%string))
    (bool_decide (is_Some (q !! "descending"%string))) nf).

Section GrpcRead.
Context {W : Type}.
Variable grpcClient_Read : ReadRequest → W → outcome (W * result error (list Envelope)).

Definition grpcRead (sourceID : string) (start : Z) (opts : list ReadOption) (w : W) :
    outcome (W * result error (list Envelope)) :=
  req ← grpc_request sourceID start opts;
  grpcClient_Read req w.
End GrpcRead.

(** ** Backoff *)
Class Backoff (B : Type) := {
  OnErr : B → B * bool;
  OnEmpty : B → B * bool;
  Reset_ : B → B;
}.

Inductive AlwaysDoneBackoff := mkAlwaysDone.

#[export] Instance AlwaysDone_Backoff : Backoff AlwaysDoneBackoff := {
  OnErr b := (b, false);
  OnEmpty b := (b, false);
  Reset_ b := b;
}.

Record RetryBackoff := mkRetry { maxCount : Z; count : Z; onlyErr : bool }.

Definition NewRetryBackoff (maxCount : Z) : RetryBackoff := mkRetry maxCount 0 false.
Definition NewRetryBackoffOnErr (maxCount : Z) : RetryBackoff := mkRetry maxCount 0 true.

(** One more attempt: [count++] and the comparison with the bound. *)
Definition retry (b : RetryBackoff) : RetryBackoff * bool :=
  let b := mkRetry (maxCount b) (wrap64 (count b + 1)) (onlyErr b) in
  (b, count b <? maxCount b).

#[export] Instance Retry_Backoff : Backoff RetryBackoff := {
  OnErr := retry;
  OnEmpty b := if onlyErr b then (b, false) else retry b;
  Reset_ b := mkRetry (maxCount b) 0 (onlyErr b);
}.

Inductive AlwaysRetryBackoff := mkAlwaysRetry.

#[export] Instance AlwaysRetry_Backoff : Backoff AlwaysRetryBackoff := {
  OnErr b := (b, true);
  OnEmpty b := (b, true);
  Reset_ b := b;
}.

(** A value of the interface. *)
Inductive AnyBackoff :=
| IsAlwaysDone (b : AlwaysDoneBackoff)
| IsAlwaysRetry (b : AlwaysRetryBackoff)
| IsRetry (b : RetryBackoff).

#[export] Instance Any_Backoff : Backoff AnyBackoff := {
  OnErr b :=
    match b with
    | IsAlwaysDone b => prod_map IsAlwaysDone id (OnErr b)
    | IsAlwaysRetry b => prod_map IsAlwaysRetry id (OnErr b)
    | IsRetry b => prod_map IsRetry id (OnErr b)
    end;
  OnEmpty b :=
    match b with
    | IsAlwaysDone b => prod_map IsAlwaysDone id (OnEmpty b)
    | IsAlwaysRetry b => prod_map IsAlwaysRetry id (OnEmpty b)
    | IsRetry b => prod_map IsRetry id (OnEmpty b)
    end;
  Reset_ b :=
    match b with
    | IsAlwaysDone b => IsAlwaysDone (Reset_ b)
    | IsAlwaysRetry b => IsAlwaysRetry (Reset_ b)
    | IsRetry b => IsRetry (Reset_ b)
    end;
}.

(** ** The walk *)

(** The loops that cut the tail of a batch: they stop at the first envelope from
    the end that may stay. *)
Fixpoint prune_tail (keep : Envelope → bool) (i : nat) (es : list Envelope) : list Envelope :=
  match i with
  | O => es
  | S i =>
      match es !! i with
      | Some e => if keep e then es else prune_tail keep i (take i es)
      | None => es
      end
  end.

Section Walk.
Context {W V : Type}.

(** [End] is [None] for the zero time, [Limit] and [EnvelopeTypes] when nil. *)
Record WalkConfig := mkWalk {
  Backoff_ : AnyBackoff;
  Start : Z;
  End_ : option Z;
  Limit : option Z;
  EnvelopeTypes : option (list EnvelopeType);
  DelayFunc : W → list Envelope → list Envelope;
  NameFilter : string;
}.

Definition WalkOption := WalkConfig → WalkConfig.

Variable Now : W → Z.

Definition WithWalkStartTime (t : Z) : WalkOption := λ c,
  mkWalk (Backoff_ c) t (End_ c) (Limit c) (EnvelopeTypes c) (DelayFunc c) (NameFilter c).
Definition WithWalkEndTime (t : Z) : WalkOption := λ c,
  mkWalk (Backoff_ c) (Start c) (Some t) (Limit c) (EnvelopeTypes c) (DelayFunc c) (NameFilter c).
Definition WithWalkLimit (limit : Z) : WalkOption := λ c,
  mkWalk (Backoff_ c) (Start c) (End_ c) (Some limit) (EnvelopeTypes c) (DelayFunc c) (NameFilter c).
Definition WithWalkEnvelopeTypes (t : option (list EnvelopeType)) : WalkOption := λ c,
  mkWalk (Backoff_ c) (Start c) (End_ c) (Limit c) t (DelayFunc c) (NameFilter c).
Definition WithWalkNameFilter (nameFilter : string) : WalkOption := λ c,
  mkWalk (Backoff_ c) (Start c) (End_ c) (Limit c) (EnvelopeTypes c) (DelayFunc c) nameFilter.
Definition WithWalkBackoff (b : AnyBackoff) : WalkOption := λ c,
  mkWalk b (Start c) (End_ c) (Limit c) (EnvelopeTypes c) (DelayFunc c) (NameFilter c).
Definition WithWalkDelayFunc (f : W → list Envelope → list Envelope) : WalkOption := λ c,
  mkWalk (Backoff_ c) (Start c) (End_ c) (Limit c) (EnvelopeTypes c) f (NameFilter c).
Definition WithWalkDelay (delay : Z) : WalkOption :=
  WithWalkDelayFunc (λ w es,
    let withDelay := wrap64 (Now w - delay) in
    prune_tail (λ e, Timestamp e <=? withDelay) (length es) es).

Variable ctx_done : W → bool.
Variable r : string → Z → list ReadOption → W → outcome (W * result error (list Envelope)).
Variable v : list Envelope → V → V * bool.

Definition read_opts (c : WalkConfig) : list ReadOption :=
  option_list (WithEndTime <$> End_ c) ++
  option_list (WithLimit <$> Limit c) ++
  option_list (WithEnvelopeTypes <$> EnvelopeTypes c) ++
  (if decide (NameFilter c = "") then [] else [WithNameFilter (NameFilter c)]).

(** The cut of a batch at the delay and at the end of the window. *)
Definition trim (c : WalkConfig) (receivedEmpty : bool) (w : W) (es : list Envelope) : list Envelope :=
  let es := match End_ c with
            | None => DelayFunc c w es
            | Some _ => if negb receivedEmpty then DelayFunc c w es else es
            end in
  match End_ c with
  | None => es
  | Some e => prune_tail (λ x, Timestamp x <? e) (length es) es
  end.

(** The loop of [Walk]; [None] when the fuel runs out. *)
Fixpoint walk_loop (fuel : nat) (sourceID : string) (opts : list ReadOption) (c : WalkConfig)
    (receivedEmpty : bool) (st : V) (w : W) : outcome (option (W * V)) :=
  match fuel with
  | O => Done None
  | S fuel =>
      '(w, res) ← r sourceID (Start c) opts w;
      match res with
      | Err _ =>
          if ctx_done w then Done (Some (w, st))
          else
            let '(b, again) := OnErr (Backoff_ c) in
            if again then walk_loop fuel sourceID opts (WithWalkBackoff b c) receivedEmpty st w
            else Done (Some (w, st))
      | Ok es =>
          let es := trim c receivedEmpty w es in
          match last es with
          | None =>
              let '(b, again) := OnEmpty (Backoff_ c) in
              if again then walk_loop fuel sourceID opts (WithWalkBackoff b c) true st w
              else Done (Some (w, st))
          | Some e =>
              let c := WithWalkBackoff (Reset_ (Backoff_ c)) c in
              let '(st, more) := v es st in
              if negb more || match End_ c with
                              | Some end_ => end_ <=? wrap64 (Timestamp e + 1)
                              | None => false
                              end
              then Done (Some (w, st))
              else walk_loop fuel sourceID opts (WithWalkStartTime (wrap64 (Timestamp e + 1)) c)
                     false st w
          end
      end
  end.

Definition Walk (fuel : nat) (sourceID : string) (opts : list WalkOption) (st : V) (w : W) :
    outcome (option (W * V)) :=
  let c := WithWalkDelay 2
    (mkWalk (IsAlwaysDone mkAlwaysDone) 0 None None None (λ _ es, es) "") in
  let c := foldl (λ c (o : WalkOption), o c) c opts in
  walk_loop fuel sourceID (read_opts c) c false st w.
End Walk.
Arguments WalkConfig : clear implicits.

(** ** The data reader *)
Section DataReader.
Context {W : Type}.
Variable Now : W → Z.
(** [ctx.Err()]. *)
Variable ctx_Err : W → option error.
Variable r : string → Z → list ReadOption → W → outcome (W * result error (list Envelope)).

Definition collect_all (es result_ : list Envelope) : list Envelope * bool := (result_ ++ es, true).

(** The variadic [WithWalkEnvelopeTypes(types...)] passes the slice on: it is nil
    when the request has no types. *)
Definition walk_options (in_ : ReadRequest) : list (WalkOption (W := W)) :=
  [WithWalkStartTime (Req_StartTime in_);
   WithWalkEndTime (Req_EndTime in_);
   WithWalkLimit (Req_Limit in_);
   WithWalkEnvelopeTypes (match Req_EnvelopeTypes in_ with [] => None | t => Some t end);
   WithWalkBackoff (IsRetry (NewRetryBackoffOnErr 5))].

Definition WalkingDataReader_Read (fuel : nat) (in_ : ReadRequest) (w : W) :
    outcome (option (W * result error (list Envelope))) :=
  res ← Walk Now (λ w, bool_decide (is_Some (ctx_Err w))) r collect_all fuel
    (Req_SourceId in_) (walk_options in_) [] w;
  Done (match res with
        | None => None
        | Some (w, result_) =>
            Some (w, match ctx_Err w with Some err => Err err | None => Ok result_ end)
        end).
End DataReader.

(** ** The requests of the paging client *)

Lemma foldl_Values_Add_ne k k' vs q :
  k' ≠ k → foldl (λ q v, Values_Add k (EnvelopeType_String v) q) q vs !! k' = q !! k'.
Proof.
  intros Hk. revert q. induction vs as [|v vs IH]; intros q; simpl; [done|].
  rewrite IH. unfold Values_Add. by rewrite lookup_insert_ne.
Qed.

Lemma foldl_Values_Add_eq k vs q :
  default [] (foldl (λ q v, Values_Add k (EnvelopeType_String v) q) q vs !! k) =
  default [] (q !! k) ++ (EnvelopeType_String <$> vs).
Proof.
  revert q. induction vs as [|v vs IH]; intros q; simpl; [by rewrite app_nil_r|].
  rewrite IH. unfold Values_Add. rewrite lookup_insert_eq. simpl. by rewrite <- app_assoc.
Qed.

Lemma EnvelopeType_value_String t :
  (∀ n, t ≠ EnvelopeType_other n) → EnvelopeType_value (EnvelopeType_String t) = t.
Proof. destruct t; try done. naive_solver. Qed.

Lemma int_value_FormatInt k q o :
  q !! k = (λ e, [FormatInt e]) <$> o → (∀ z, o = Some z → int64_range z) →
  int_value k q = Done (default 0 o).
Proof.
  intros E Ho. unfold int_value. rewrite E. destruct o as [z|]; simpl; [|done].
  by rewrite ParseInt_FormatInt by auto.
Qed.

Lemma fmap_EnvelopeType_value types :
  known_types (Some types) → EnvelopeType_value <$> (EnvelopeType_String <$> types) = types.
Proof.
  induction 1 as [|t ts Ht _ IH]; [done|]. by rewrite !fmap_cons, EnvelopeType_value_String, IH.
Qed.

(** The options of a walk as the request carries them. *)
Definition walk_request (sourceID : string) (start : Z) (end_ limit : option Z)
    (types : option (list EnvelopeType)) (nameFilter : string) : ReadRequest :=
  mkRead sourceID start (default 0 end_) (default 0 limit) (default [] types) false nameFilter.

Lemma grpc_request_walk {W} (c : WalkConfig W) sourceID start :
  (∀ z, End_ c = Some z → int64_range z) → (∀ z, Limit c = Some z → int64_range z) →
  known_types (EnvelopeTypes c) →
  grpc_request sourceID start (read_opts c) =
  Done (walk_request sourceID start (End_ c) (Limit c) (EnvelopeTypes c) (NameFilter c)).
Proof.
  intros He Hl Ht. unfold grpc_request, read_opts. rewrite !foldl_app.
  set (q1 := foldl _ ∅ (option_list (WithEndTime <$> End_ c))).
  assert (q1 = from_option (λ e, {["end_time"%string := [FormatInt e]]}) ∅ (End_ c)) as -> by by destruct (End_ c).
  set (q2 := foldl _ _ (option_list (WithLimit <$> Limit c))).
  assert (q2 !! "end_time"%string = (λ e, [FormatInt e]) <$> End_ c ∧
    q2 !! "limit"%string = (λ e, [FormatInt e]) <$> Limit c ∧
    q2 !! "envelope_types"%string = None ∧ q2 !! "descending"%string = None ∧
    q2 !! "name_filter"%string = None) as (E1&E2&E3&E4&E5).
  { subst q2. clear. destruct (End_ c), (Limit c); split_and!; reflexivity. }
  clearbody q2.
  set (q3 := foldl _ q2 _).
  assert ((∀ k, k ≠ "envelope_types"%string → q3 !! k = q2 !! k) ∧
    default [] (q3 !! "envelope_types"%string) = EnvelopeType_String <$> default [] (EnvelopeTypes c))
    as [F1 F2].
  { subst q3. destruct (EnvelopeTypes c) as [ts|]; simpl; [|by rewrite E3].
    unfold WithEnvelopeTypes. split; [intros; by apply foldl_Values_Add_ne|].
    by rewrite foldl_Values_Add_eq, E3. }
  set (q4 := foldl _ q3 _).
  assert (q4 !! "end_time"%string = q3 !! "end_time"%string ∧
    q4 !! "limit"%string = q3 !! "limit"%string ∧
    q4 !! "envelope_types"%string = q3 !! "envelope_types"%string ∧
    q4 !! "descending"%string = q3 !! "descending"%string ∧
    match q4 !! "name_filter"%string with None => Done ""%string | Some v => must (head v) end =
      Done (NameFilter c)) as (G1&G2&G3&G4&G5).
  { subst q4. assert (q3 !! "name_filter"%string = None) as F5 by by rewrite F1, E5.
    case_decide as Hn; cbn [foldl].
    - split_and!; [done..|]. by rewrite F5, Hn.
    - unfold WithNameFilter, Values_Set.
      split_and!; [by rewrite lookup_insert_ne..|by rewrite lookup_insert_eq]. }
  rewrite (int_value_FormatInt "limit" q4 (Limit c)), (int_value_FormatInt "end_time" q4 (End_ c)), G5;
    [|first [done|by rewrite G1, F1|by rewrite G2, F1]..].
  cbn [mbind outcome_bind]. rewrite G3, F2, G4, F1, E4 by done. unfold walk_request.
  rewrite fmap_EnvelopeType_value; [done|]. destruct (EnvelopeTypes c); [done|constructor].
Qed.

(** ** What a walk collects *)

Lemma prune_tail_all keep es :
  (∀ e, e ∈ es → keep e = true) → prune_tail keep (length es) es = es.
Proof.
  destruct es as [|x l _] using rev_ind; intros H; [done|].
  rewrite length_app, Nat.add_comm. simpl. rewrite list_lookup_middle by done.
  by rewrite H by (apply elem_of_app; right; left).
Qed.

(** A backoff that gives up on an empty batch. *)
Definition stops_on_empty (b : AnyBackoff) : Prop :=
  match b with IsAlwaysDone _ => True | IsAlwaysRetry _ => False | IsRetry b => onlyErr b = true end.

Definition earlier (a b : Envelope) : Prop := Timestamp a ≤ Timestamp b.

(** The envelopes of a list in a window of time. *)
Definition window (start end_ : Z) (l : list Envelope) : list Envelope :=
  filter (λ e, start ≤ Timestamp e < end_) l.

Lemma stops_Reset b : stops_on_empty b → stops_on_empty (Reset_ b).
Proof. by destruct b. Qed.

Lemma stops_OnEmpty b : stops_on_empty b → (OnEmpty b).2 = false.
Proof. destruct b as [[]| |b]; simpl; [done..|]. by intros ->. Qed.

Lemma window_later start end_ t l page rest :
  StronglySorted earlier l → window start end_ l = page ++ rest → start ≤ t →
  (∀ e, e ∈ page → Timestamp e ≤ t) → (∀ e, e ∈ rest → t < Timestamp e) →
  window (t + 1) end_ l = rest.
Proof.
  intros Hs E Ht Hp Hr.
  assert (window (t + 1) end_ l = filter (λ e, t < Timestamp e) (window start end_ l)) as ->.
  { unfold window. rewrite list_filter_filter. apply list_filter_iff. intros e. lia. }
  rewrite E, filter_app, filter_none, filter_all; [done|done|].
  intros e He%Hp. lia.
Qed.

Section WalkSpec.
Context {W : Type}.
Variable Now : W → Z.
Variable ctx_done : W → bool.
Variable r : string → Z → list ReadOption → W → outcome (W * result error (list Envelope)).
Variable sourceID : string.
Variable end_ : Z.
Variable opts : list ReadOption.
(** The state of the reader, and the envelopes it pages through. *)
Variable ready : W → Prop.
Variable L : list Envelope.

(** A page is a prefix of the window: all of it, or a part that leaves no
    timestamp half read. *)
Definition whole_page (start : Z) (page : list Envelope) : Prop :=
  ∃ rest, window start end_ L = page ++ rest ∧
    (rest = [] ∨ page ≠ [] ∧ ∀ a b, a ∈ page → b ∈ rest → Timestamp a < Timestamp b).

Definition pages : Prop :=
  ∀ start w, ready w → int64_range start → start ≤ end_ →
  ∃ w' page, r sourceID start opts w = Done (w', Ok page) ∧ ready w' ∧ whole_page start page.

Definition settled : Prop :=
  ∀ w e, ready w → e ∈ L → Timestamp e ≤ wrap64 (Now w - 2).

(** A page lies in its window and is older than what is left of it. *)
Lemma page_in start page rest e : window start end_ L = page ++ rest → e ∈ page →
  e ∈ L ∧ start ≤ Timestamp e < end_.
Proof.
  intros Ew Hp. assert (e ∈ window start end_ L) as Hx by (rewrite Ew; apply elem_of_app; by left).
  by apply list_elem_of_filter in Hx as [? ?].
Qed.

Lemma page_trimmed (c : WalkConfig W) b w start page rest :
  settled → ready w → End_ c = Some end_ →
  DelayFunc c = (λ w es, prune_tail (λ e, Timestamp e <=? wrap64 (Now w - 2)) (length es) es) →
  window start end_ L = page ++ rest → trim c b w page = page.
Proof.
  intros Hset Hw He Hd Ew. unfold trim. rewrite He, Hd.
  assert (prune_tail (λ e, Timestamp e <=? wrap64 (Now w - 2)) (length page) page = page) as Ep.
  { apply prune_tail_all. intros e Hp. apply Z.leb_le, Hset; [done|by apply (page_in _ _ _ _ Ew Hp)]. }
  destruct b; simpl; rewrite ?Ep; apply prune_tail_all; intros e Hp;
    apply Z.ltb_lt, (page_in _ _ _ _ Ew Hp).
Qed.

Lemma page_last start page e rest x :
  StronglySorted earlier L → window start end_ L = (page ++ [e]) ++ rest → x ∈ page ++ [e] →
  Timestamp x ≤ Timestamp e.
Proof.
  intros Hs Ew. assert (StronglySorted earlier (page ++ [e])) as Hsp.
  { assert (StronglySorted earlier (window start end_ L)) as Hx
      by (by apply (StronglySorted_filter earlier)). rewrite Ew in Hx.
    by apply StronglySorted_app in Hx as (_&?&_). }
  intros [Hx|Hx]%elem_of_app.
  - apply StronglySorted_mid in Hsp as (_&_&Hx'&_). by apply Hx'.
  - apply list_elem_of_singleton in Hx as ->. lia.
Qed.

Lemma rest_after start page e rest x :
  window start end_ L = (page ++ [e]) ++ rest →
  rest = [] ∨ page ++ [e] ≠ [] ∧ (∀ a b, a ∈ page ++ [e] → b ∈ rest → Timestamp a < Timestamp b) →
  x ∈ rest → Timestamp e < Timestamp x < end_.
Proof.
  intros Ew [->|[_ Hlt]] Hx; [by apply elem_of_nil in Hx|].
  split; [apply Hlt; [apply elem_of_app; right; left|done]|].
  assert (x ∈ window start end_ L) as Hx' by (rewrite Ew; apply elem_of_app; by right).
  apply list_elem_of_filter in Hx' as [? _]. lia.
Qed.

Lemma walk_loop_complete fuel (c : WalkConfig W) b st w :
  StronglySorted earlier L → Forall (λ e, int64_range (Timestamp e)) L → int64_range end_ →
  pages → settled → ready w →
  End_ c = Some end_ → stops_on_empty (Backoff_ c) → int64_range (Start c) → Start c ≤ end_ →
  DelayFunc c = (λ w es, prune_tail (λ e, Timestamp e <=? wrap64 (Now w - 2)) (length es) es) →
  (length (window (Start c) end_ L) < fuel)%nat →
  ∃ w', walk_loop ctx_done r collect_all fuel sourceID opts c b st w =
    Done (Some (w', st ++ window (Start c) end_ L)) ∧ ready w'.
Proof.
  intros Hs Hi Hend Hpages Hset Hw He Hb Hst Hle Hd. revert c b st w Hw He Hb Hst Hle Hd.
  induction fuel as [|fuel IH]; intros c b st w Hw He Hb Hst Hle Hd Hf; [lia|]. cbn [walk_loop].
  destruct (Hpages (Start c) w Hw Hst Hle) as (w'&page&E&Hw'&rest&Ew&Hrest).
  rewrite E. cbn [mbind outcome_bind].
  rewrite (page_trimmed _ _ _ _ _ _ Hset Hw' He Hd Ew).
  destruct page as [|e page _] using rev_ind.
  { destruct Hrest as [->|[]]; [|done]. rewrite Ew. pose proof (stops_OnEmpty _ Hb) as Hb'.
    destruct (OnEmpty (Backoff_ c)) as [b' again]. simpl in Hb'. rewrite Hb', app_nil_r.
    cbn [last]. eauto. }
  rewrite last_snoc. cbn [collect_all negb orb End_ WithWalkBackoff]. rewrite He.
  destruct (page_in _ _ _ e Ew) as [HeL Het]; [apply elem_of_app; right; left|].
  unfold int64_range in Hend, Hst. rewrite wrap64_id by (unfold int64_range; lia).
  pose proof (λ x, page_last _ _ _ _ x Hs Ew) as Hpe.
  pose proof (λ x, rest_after _ _ _ _ x Ew Hrest) as Hre.
  destruct (Z.leb_spec end_ (Timestamp e + 1)) as [Hlast|Hmore].
  - assert (rest = []) as ->.
    { destruct rest as [|x rest]; [done|]. destruct (Hre x); [left|lia]. }
    rewrite Ew, app_nil_r. eauto.
  - pose proof (window_later (Start c) end_ (Timestamp e) L (page ++ [e]) rest Hs Ew
      ltac:(lia) Hpe ltac:(intros; by apply Hre)) as Hwin.
    destruct (IH (WithWalkStartTime (Timestamp e + 1) (WithWalkBackoff (Reset_ (Backoff_ c)) c))
      false (st ++ page ++ [e]) w') as (w''&E'&Hw''); try done.
    + by apply stops_Reset.
    + unfold int64_range. simpl. lia.
    + simpl. lia.
    + cbn [Start WithWalkStartTime]. rewrite Hwin. rewrite Ew, !length_app in Hf. simpl in Hf. lia.
    + exists w''. split; [|done]. etransitivity; [exact E'|]. do 3 f_equal.
      cbn [Start WithWalkStartTime]. rewrite Hwin, Ew. by rewrite <- !app_assoc.
Qed.
End WalkSpec.

(** ** The data reader over a node's store *)

(** The envelopes of a source of the wanted types, in the order of the store. *)
Definition matching (types : option (list EnvelopeType)) (l : list (Z * Envelope)) : list Envelope :=
  filter (λ e, type_matches types e = true) l.*2.

Lemma answer_window types start end_ l :
  answer None types start end_ l = window start end_ (matching types l).
Proof.
  unfold answer, window, matching.
  assert (filter (λ e, start ≤ Timestamp e < end_) (filter (λ e, type_matches types e = true) l.*2) =
    filter (λ e, type_matches types e = true) (filter (λ e, start ≤ Timestamp e < end_) l.*2)) as ->
    by (rewrite !list_filter_filter; apply list_filter_iff; intros; tauto).
  generalize (filter (λ e, start ≤ Timestamp e < end_) l.*2).
  intros es. induction es as [|e es IH]; [done|]. rewrite omap_cons, IH, filter_cons.
  unfold accepts at 1. cbn [filterByName mbind option_bind]. by destruct (type_matches types e).
Qed.

Lemma matching_sorted types l :
  ksorted l → no_fudge l →
  StronglySorted (λ a b, Timestamp a < Timestamp b) (matching types l).
Proof.
  intros Hs Hn. apply StronglySorted_filter. unfold ksorted, keys in Hs.
  induction l as [|[k e] l IH]; [constructor|]. rewrite fmap_cons in Hs. rewrite fmap_cons.
  apply StronglySorted_inv in Hs as [Hs' Hk]. apply Forall_cons in Hn as [He Hn'].
  cbn [fst snd] in *. constructor; [by apply IH|].
  rewrite Forall_fmap in Hk. rewrite Forall_fmap, Forall_forall. intros [k' e'] Hin.
  rewrite Forall_forall in Hk. rewrite Forall_forall in Hn'.
  specialize (Hk _ Hin). specialize (Hn' _ Hin). simpl in *. lia.
Qed.

Lemma whole_page_take start end_ L n :
  (1 ≤ n)%nat → StronglySorted (λ a b, Timestamp a < Timestamp b) L →
  whole_page end_ L start (take n (window start end_ L)).
Proof.
  intros Hn Hs. exists (drop n (window start end_ L)).
  split; [by rewrite take_drop|]. destruct (window start end_ L) as [|e l] eqn:E.
  - left. by rewrite drop_nil.
  - right. split; [by destruct n; [lia|]|].
    assert (StronglySorted (λ a b, Timestamp a < Timestamp b) (e :: l)) as Hx
      by (rewrite <- E; by apply (StronglySorted_filter (λ a b, Timestamp a < Timestamp b))).
    rewrite <- (take_drop n (e :: l)) in Hx. by apply StronglySorted_app in Hx as (?&_&_).
Qed.

(** A reader that answers the requests of a walk over a source exactly: the first
    envelopes of the answer, as many as the limit allows. *)
Section OverReader.
Context {W : Type} (send : ReadRequest → W → outcome (W * result error (list Envelope))).
Context (ready : W → Prop) (now : Z) (in_ : ReadRequest) (src : list (Z * Envelope)).

(** The request for the page that starts at [start]. *)
Definition page_request (start : Z) : ReadRequest :=
  mkRead (Req_SourceId in_) start (Req_EndTime in_) (Req_Limit in_) (Req_EnvelopeTypes in_) false "".

Definition answers_pages : Prop :=
  ∀ start w, ready w → int64_range start → start ≤ Req_EndTime in_ →
  ∃ w', send (page_request start) w =
      Done (w', Ok (take (Z.to_nat (Req_Limit (with_defaults now (page_request start))))
        (answer None (wanted_types in_) start (Req_EndTime in_) src))) ∧ ready w'.

Hypothesis Hpages : answers_pages.
Hypothesis Hsorted : ksorted src.

Lemma default_limit req : 0 ≤ Req_Limit req → (1 ≤ Z.to_nat (Req_Limit (with_defaults now req)))%nat.
Proof.
  intros Hl. unfold with_defaults.
  destruct (Req_EndTime req =? 0); simpl; destruct (Z.eqb_spec (Req_Limit req) 0); simpl; lia.
Qed.

(** The reads of a walk page through the source. *)
Lemma reader_pages (c : WalkConfig W) :
  0 ≤ Req_Limit in_ ≤ 1000 → int64_range (Req_EndTime in_) → no_fudge src →
  End_ c = Some (Req_EndTime in_) → Limit c = Some (Req_Limit in_) → NameFilter c = ""%string →
  EnvelopeTypes c = (match Req_EnvelopeTypes in_ with [] => None | t => Some t end) →
  known_types (Some (Req_EnvelopeTypes in_)) →
  pages (grpcRead send) (Req_SourceId in_) (Req_EndTime in_) (read_opts c) ready
    (matching (wanted_types in_) src).
Proof.
  intros Hlim Hei Hnf Ec Lc Nc Tc Hk start w Hr Hstart Hle.
  assert (default [] (EnvelopeTypes c) = Req_EnvelopeTypes in_) as Etypes
    by (rewrite Tc; by destruct (Req_EnvelopeTypes in_)).
  unfold grpcRead. rewrite grpc_request_walk.
  2: { rewrite Ec. by intros z [= <-]. }
  2: { rewrite Lc. intros z [= <-]. unfold int64_range, MinInt64, MaxInt64. lia. }
  2: { rewrite Tc. destruct (Req_EnvelopeTypes in_); done. }
  unfold walk_request. rewrite Ec, Lc, Nc, Etypes. cbn [mbind outcome_bind default].
  destruct (Hpages start w Hr Hstart Hle) as (w'&E&Hr'). unfold page_request in E.
  eexists w', _. split; [exact E|]. split; [done|].
  rewrite answer_window. apply whole_page_take; [apply default_limit; simpl; lia|by apply matching_sorted].
Qed.

(** A walk that reads all of the source's window. *)
Lemma WalkingDataReader_exact fuel w :
  ready w → known_types (Some (Req_EnvelopeTypes in_)) → 0 ≤ Req_Limit in_ ≤ 1000 →
  int64_range (Req_StartTime in_) → int64_range (Req_EndTime in_) →
  Req_StartTime in_ ≤ Req_EndTime in_ →
  no_fudge src → Forall (λ p, MinInt64 ≤ Timestamp p.2 ≤ wrap64 (now - 2)) src →
  (length src < fuel)%nat →
  ∃ w', WalkingDataReader_Read (λ _, now) (λ _, None) (grpcRead send) fuel in_ w =
    Done (Some (w', Ok (answer None (wanted_types in_) (Req_StartTime in_) (Req_EndTime in_) src))) ∧
    ready w'.
Proof.
  intros Hr Hk Hlim Hs He Hle Hnf Hsettled Hfuel.
  set (L := matching (wanted_types in_) src).
  assert (StronglySorted (λ a b, Timestamp a < Timestamp b) L) as HL by (by apply matching_sorted).
  assert (∀ e, e ∈ L → MinInt64 ≤ Timestamp e ≤ wrap64 (now - 2)) as Hset.
  { intros e [_ (p&->&Hp)%list_elem_of_fmap]%list_elem_of_filter.
    rewrite Forall_forall in Hsettled. by apply Hsettled. }
  pose proof (wrap64_range (now - 2)) as Hw.
  unfold WalkingDataReader_Read, Walk. cbn [walk_options foldl].
  set (c := WithWalkBackoff _ _).
  destruct (walk_loop_complete (λ _, now) (λ w, bool_decide (is_Some (None : option error)))
    (grpcRead send) (Req_SourceId in_) (Req_EndTime in_) (read_opts c)
    ready L fuel c false [] w) as (w'&E&Hr'); try done.
  - eapply StronglySorted_weaken; [|exact HL]. unfold earlier. lia.
  - apply Forall_forall. intros e He'%Hset. unfold int64_range in *. lia.
  - by apply reader_pages.
  - intros w1 e _ He'. by apply Hset.
  - eapply Nat.le_lt_trans; [|exact Hfuel]. unfold window, L, matching.
    etransitivity; [apply length_filter|]. etransitivity; [apply length_filter|].
    by rewrite length_fmap.
  - rewrite E. exists w'. cbn [mbind outcome_bind app]. by rewrite answer_window.
Qed.
End OverReader.

Section OverStore.
Context {S : Type} `{!StoreReader S} `{!StoreContract S}.
Variable Compile : string → result string (string → bool).

(** The reads of a client connected to the local reader. *)
Definition local_client (now : Z) (req : ReadRequest) (s : S) :
    outcome (S * result error (list Envelope)) :=
  '(s, _, res) ← LocalStoreReader_Read Compile s now req;
  Done (s, res).

Lemma local_client_pages s0 now in_ :
  known_types (Some (Req_EnvelopeTypes in_)) → 0 ≤ Req_Limit in_ ≤ 1000 → Req_EndTime in_ ≠ 0 →
  no_fudge (content s0 (Req_SourceId in_)) →
  answers_pages (local_client now) (λ s, ready s ∧ content s = content s0) now in_
    (content s0 (Req_SourceId in_)).
Proof.
  intros Hk Hlim He Hnf start s [Hr Hc] Hstart Hle.
  set (req := page_request in_ start). unfold local_client.
  assert (with_defaults now req = set_Limit (Req_Limit (with_defaults now req)) req) as Ed.
  { unfold with_defaults. rewrite (proj2 (Z.eqb_neq (Req_EndTime req) 0)) by done.
    by destruct (Req_Limit req =? 0). }
  destruct (local_read Compile s now req None) as (s'&res&->&Hr'&Hc'&Hl&_&Ht); try done.
  { by right. }
  { by rewrite Ed. }
  rewrite Ed in Ht. cbn -[with_defaults take answer] in Ht. rewrite Hc in Ht. specialize (Ht Hnf).
  exists s'. cbn [mbind outcome_bind]. rewrite Ht. split; [done|]. by rewrite Hc'.
Qed.

(** The reads of the PromQL engine are complete.  For a source whose
    envelopes all lie under their own timestamps and are settled (older than
    the walk's delay of two nanoseconds), the walking data reader over a node's
    local reader returns exactly the envelopes of the wanted types in the
    window, in order, however many pages that takes; one round of the loop per
    envelope and one more are enough, and the store keeps its content. *)
Theorem WalkingDataReader_reads_store s now in_ fuel :
  ready s → known_types (Some (Req_EnvelopeTypes in_)) → 0 ≤ Req_Limit in_ ≤ 1000 →
  int64_range (Req_StartTime in_) → int64_range (Req_EndTime in_) → Req_EndTime in_ ≠ 0 →
  Req_StartTime in_ ≤ Req_EndTime in_ →
  let src := content s (Req_SourceId in_) in
  no_fudge src → Forall (λ p, MinInt64 ≤ Timestamp p.2 ≤ wrap64 (now - 2)) src →
  (length src < fuel)%nat →
  ∃ s', WalkingDataReader_Read (λ _, now) (λ _, None) (grpcRead (local_client now)) fuel in_ s =
    Done (Some (s', Ok (answer None (wanted_types in_) (Req_StartTime in_) (Req_EndTime in_) src))) ∧
    ready s' ∧ content s' = content s.
Proof.
  intros Hr Hk Hlim Hs He Hne Hle src Hnf Hsettled Hfuel.
  apply (WalkingDataReader_exact (local_client now) (λ s', ready s' ∧ content s' = content s)); try done.
  - by apply local_client_pages.
  - by apply contract_sorted.
Qed.
End OverStore.

(** ** Where the reads fall short *)

(** A reader that keeps failing makes the data reader return an empty answer
    without an error. *)
Fact WalkingDataReader_swallows_errors {W} (Now : W → Z) err in_ w :
  WalkingDataReader_Read Now (λ _, None) (λ _ _ _ w, Done (w, Err err)) 5 in_ w =
  Done (Some (w, Ok [])).
Proof. reflexivity. Qed.

Lemma puts_wf s l : wf_store s → wf_store (puts s l).
Proof.
  revert s. induction l as [|t l IH]; intros s Hwf; [done|]. cbn [puts foldl]. apply IH.
  destruct (Put_ok s 0 (demo_log t) "a" Hwf) as (s'&->&Hwf'&_). done.
Qed.

(** A page ends in the middle of three envelopes with one timestamp: the walk
    goes on after that timestamp and loses the last two of them. *)
Fact Walk_loses_ties :
  let s := puts (NewStore 8 3) [5; 5; 5; 9] in
  let req := mkRead "a" 0 100 1 [] false "" in
  map Timestamp (answer None None 0 100 (entries (abs s) "a")) = [5; 5; 5; 9] ∧
  (match WalkingDataReader_Read (λ _, 50) (λ _, None)
     (grpcRead (local_client (λ _, Err ""%string) 50)) 9 req s with
   | Done (Some (_, Ok es)) => map Timestamp es
   | _ => []
   end) = [5; 9].
Proof. by vm_compute. Qed.

Definition walk_store : Store := puts (NewStore 8 3) [5; 9; 7; 30].

Lemma WalkingDataReader_reads_store_witness :
  let in_ := mkRead "a" 5 20 2 [EnvelopeType_LOG] false "" in
  let src := content walk_store "a" in
  ∃ s', WalkingDataReader_Read (λ _, 50) (λ _, None)
      (grpcRead (local_client (λ _, Err ""%string) 50)) 5 in_ walk_store =
    Done (Some (s', Ok (answer None (wanted_types in_) 5 20 src))) ∧
    ready s' ∧ content s' = content walk_store.
Proof.
  intros in_ src.
  assert (ready (S := Store) walk_store) as Hr.
  { apply puts_wf, NewStore_wf. unfold MaxInt64. lia. }
  assert (no_fudge src) as Hn by (vm_compute; repeat constructor).
  assert (Forall (λ p, MinInt64 ≤ Timestamp p.2 ≤ wrap64 (50 - 2)) src) as Hset
    by (vm_compute; repeat constructor; intros [=]).
  assert (length src < 5)%nat as Hl by (apply Nat.ltb_lt; by vm_compute).
  apply (WalkingDataReader_reads_store (S := Store) (λ _, Err ""%string) walk_store 50 in_ 5 Hr);
    try done; [by repeat constructor|..]; unfold in_, int64_range, MinInt64, MaxInt64; simpl; lia.
Defined.
