(* ===== verification/FloatRound.v ===== *)
(** * Rounding of [spec_float]

    The standard library defines the operations of [float64] by shifting a
    mantissa with a round and a sticky bit ([shr_record]).  This file shows what
    that computes: the value that is represented exactly if there is one, and
    otherwise one within half a unit in the last place.  A non-negative rational
    [N / D] stands for the exact value of what is rounded, in units of the
    exponent at hand. *)

From S2P Require Import Prelude Envelope.

Abbreviation prec := 53 (only parsing).
Abbreviation emax := 1024 (only parsing).
Abbreviation fexp64 := (fexp 53 1024).

Lemma fexp64_eq e : fexp64 e = Z.max (e - 53) (-1074).
Proof. reflexivity. Qed.

(** ** Digits *)
Lemma digits2_pos_bounds p : 2 ^ (Z.pos (digits2_pos p) - 1) ≤ Z.pos p < 2 ^ Z.pos (digits2_pos p).
Proof.
  induction p as [p IH|p IH|]; simpl; [| |lia];
    rewrite Pos2Z.inj_succ; replace (Z.succ (Z.pos (digits2_pos p)) - 1) with
      (Z.succ (Z.pos (digits2_pos p) - 1)) by lia; rewrite !Z.pow_succ_r by lia; lia.
Qed.

Lemma Zdigits2_nonneg z : 0 ≤ Zdigits2 z.
Proof. by destruct z. Qed.

Lemma Zdigits2_bounds z : 0 < z → 2 ^ (Zdigits2 z - 1) ≤ z < 2 ^ Zdigits2 z.
Proof. destruct z; try lia. intros _. apply digits2_pos_bounds. Qed.

Lemma Zdigits2_upper z : 0 ≤ z → z < 2 ^ Zdigits2 z.
Proof. intros H. destruct (decide (z = 0)) as [->|]; [simpl; lia|]. apply Zdigits2_bounds. lia. Qed.

(** The number of digits is determined by the bounds. *)
Lemma Zdigits2_unique z d : 0 < z → 0 < d → 2 ^ (d - 1) ≤ z < 2 ^ d → Zdigits2 z = d.
Proof.
  intros Hz Hd [H1 H2]. destruct (Zdigits2_bounds z Hz) as [H3 H4].
  pose proof (Zdigits2_nonneg z).
  assert (d - 1 < Zdigits2 z) by (apply (Z.pow_lt_mono_r_iff 2); lia).
  assert (Zdigits2 z - 1 < d) by (apply (Z.pow_lt_mono_r_iff 2); lia). lia.
Qed.

Lemma Zdigits2_le z d : 0 ≤ d → z < 2 ^ d → 0 < z → Zdigits2 z ≤ d.
Proof.
  intros Hd H Hz. destruct (Zdigits2_bounds z Hz).
  assert (Zdigits2 z - 1 < d) by (apply (Z.pow_lt_mono_r_iff 2); lia). lia.
Qed.

Lemma Zdigits2_shift z n : 0 < z → 0 ≤ n → Zdigits2 (z * 2 ^ n) = Zdigits2 z + n.
Proof.
  intros Hz Hn. pose proof (Zdigits2_bounds z Hz) as [H1 H2].
  assert (0 < Zdigits2 z) by (pose proof (Zdigits2_nonneg z); destruct z; simpl in *; lia).
  apply Zdigits2_unique; [nia|lia|].
  replace (Zdigits2 z + n - 1) with (Zdigits2 z - 1 + n) by lia. rewrite !Z.pow_add_r by lia. nia.
Qed.

(** ** The shift record *)

(** [r] holds [N / D]: its mantissa is the integer part, its bits say where in
    the unit interval the rest lies. *)
Definition holds (r : shr_record) (N D : Z) : Prop :=
  0 ≤ shr_m r ∧ 0 < D ∧
  match shr_r r, shr_s r with
  | false, false => N = shr_m r * D
  | false, true => shr_m r * D < N ∧ 2 * N < (2 * shr_m r + 1) * D
  | true, false => 2 * N = (2 * shr_m r + 1) * D
  | true, true => (2 * shr_m r + 1) * D < 2 * N ∧ N < (shr_m r + 1) * D
  end.

Lemma holds_bounds r N D : holds r N D → shr_m r * D ≤ N < (shr_m r + 1) * D.
Proof. intros (?&?&H). destruct (shr_r r), (shr_s r); lia. Qed.

Lemma shr_1_holds r N D : holds r N D → holds (shr_1 r) N (2 * D).
Proof.
  intros (Hm&HD&H). destruct r as [m r s]; simpl in *.
  destruct m as [|[p|p|]|]; [| | | |lia]; destruct r, s; unfold holds; simpl; lia.
Qed.

Lemma iter_shr_holds p r N D : holds r N D → holds (iter_pos shr_1 p r) N (2 ^ Z.pos p * D).
Proof.
  assert (∀ q : positive, 2 ^ Z.pos q~0 = 2 ^ Z.pos q * 2 ^ Z.pos q) as Htwice.
  { intros q. rewrite <- Z.pow_add_r by lia. f_equal. lia. }
  revert r N D. induction p as [p IH|p IH|]; intros r N D H; cbn [iter_pos].
  - apply shr_1_holds, IH, IH in H. eapply eq_ind; [exact H|].
    change (Z.pos p~1) with (Z.pos p~0 + 1). rewrite Z.pow_add_r, Htwice by lia. ring.
  - apply IH, IH in H. rewrite Htwice. by rewrite <- Z.mul_assoc.
  - apply shr_1_holds in H. exact H.
Qed.

(** The nearest integer, ties to even. *)
Definition nearest (z N D : Z) : Prop :=
  2 * Z.abs (z * D - N) ≤ D ∧ (2 * Z.abs (z * D - N) = D → Z.even z = true).

Lemma round_nearest r N D :
  holds r N D → nearest (round_nearest_even (shr_m r) (loc_of_shr_record r)) N D.
Proof.
  intros (Hm&HD&H). destruct r as [m r s]; simpl in *. unfold nearest.
  destruct r, s; simpl.
  - split; lia.
  - destruct (Z.even m) eqn:E; (split; [lia|intros _; try done]).
    by rewrite Z.add_1_r, Z.even_succ, <- Z.negb_even, E.
  - split; lia.
  - split; lia.
Qed.

(** ** What the rounding functions return *)

(** The float [± z * 2 ^ e] for a mantissa of at most 53 bits, or one more after
    a carry. *)
Definition float_of (sx : bool) (z e : Z) : float64 :=
  match z with
  | Zpos p =>
      if z =? 2 ^ 53 then
        if e + 1 <=? 971 then S754_finite sx (2 ^ 52)%positive (e + 1) else S754_infinity sx
      else if e <=? 971 then S754_finite sx p e else S754_infinity sx
  | _ => S754_zero sx
  end.

Lemma shr_nonpos r e n : n ≤ 0 → shr r e n = (r, e).
Proof. by destruct n. Qed.

Lemma shr_fexp_holds m e l N D :
  holds (shr_record_of_loc m l) N D → e ≤ fexp64 (Zdigits2 m + e) →
  ∃ r, shr_fexp 53 1024 m e l = (r, fexp64 (Zdigits2 m + e)) ∧
    holds r N (2 ^ (fexp64 (Zdigits2 m + e) - e) * D).
Proof.
  intros H He. unfold shr_fexp. set (e' := fexp64 (Zdigits2 m + e)) in *.
  destruct (e' - e) as [|p|p] eqn:En; [| |lia]; simpl shr; eexists.
  - assert (e' = e) as -> by lia. split; [done|]. by rewrite Z.mul_1_l.
  - split; [f_equal; lia|]. by apply iter_shr_holds.
Qed.

Lemma second_shift z e :
  0 ≤ z ≤ 2 ^ 53 → -1074 ≤ e →
  let '(r, e'') := shr_fexp 53 1024 z e loc_Exact in
  (z < 2 ^ 53 ∧ shr_m r = z ∧ e'' = e) ∨ (z = 2 ^ 53 ∧ shr_m r = 2 ^ 52 ∧ e'' = e + 1).
Proof.
  intros Hz He. unfold shr_fexp. rewrite fexp64_eq.
  destruct (decide (z = 2 ^ 53)) as [->|].
  - change (Zdigits2 (2 ^ 53)) with 54. rewrite Z.max_l by lia.
    replace (54 + e - 53 - e) with 1 by lia. right. done.
  - rewrite shr_nonpos; [left; simpl; lia|]. destruct (decide (z = 0)) as [->|]; [simpl; lia|].
    assert (Zdigits2 z ≤ 53) by (apply Zdigits2_le; lia). lia.
Qed.

Lemma nearest_le z N D b : 0 < D → nearest z N D → N < b * D → z ≤ b.
Proof. intros HD [H _] Hb. assert (2 * z * D < (2 * b + 1) * D) by lia. nia. Qed.
Lemma nearest_ge z N D b : 0 < D → nearest z N D → b * D ≤ N → b ≤ z.
Proof. intros HD [H _] Hb. assert ((2 * b - 1) * D ≤ 2 * z * D) by lia. nia. Qed.

(** [e] is the exponent 53 bits allow for [N / D]. *)
Definition unit_of (N D e : Z) : Prop := N < 2 ^ 53 * D ∧ (2 ^ 52 * D ≤ N ∨ e = -1074).

(** [binary_round_aux]: the nearest integer in units of the exponent that 53
    bits allow. *)
Lemma binary_round_aux_spec sx m e l N D :
  holds (shr_record_of_loc m l) N D → e ≤ fexp64 (Zdigits2 m + e) →
  let e' := fexp64 (Zdigits2 m + e) in let D' := 2 ^ (e' - e) * D in
  unit_of N D' e' ∧
  ∃ z, 0 ≤ z ≤ 2 ^ 53 ∧ nearest z N D' ∧ binary_round_aux 53 1024 sx m e l = float_of sx z e'.
Proof.
  intros H He e' D'. destruct (shr_fexp_holds m e l N D H He) as (r&E&Hr). fold e' in E, Hr, He.
  pose proof H as (Hm&HD&_). assert (shr_m (shr_record_of_loc m l) = m) as Em by by destruct l as [|[]].
  rewrite Em in Hm. pose proof (holds_bounds _ _ _ H) as [HN1 HN2]. rewrite Em in HN1, HN2.
  fold D' in Hr. pose proof (round_nearest r N D' Hr) as Hz.
  set (z := round_nearest_even (shr_m r) (loc_of_shr_record r)) in *.
  assert (0 < D') as HD' by (apply Hr). pose proof (fexp64_eq (Zdigits2 m + e)) as Hf. fold e' in Hf.
  pose proof (Zdigits2_nonneg m) as Hd. pose proof (Zdigits2_upper m Hm) as Hup.
  assert (unit_of N D' e') as Hu.
  { split.
    - eapply Z.lt_le_trans; [exact HN2|]. unfold D'. rewrite Z.mul_assoc.
      apply Z.mul_le_mono_nonneg_r; [lia|]. rewrite <- Z.pow_add_r by lia.
      assert (2 ^ Zdigits2 m ≤ 2 ^ (53 + (e' - e))) by (apply Z.pow_le_mono_r; lia). lia.
    - destruct (decide (e' = -1074)) as [|Hne]; [by right|]. left.
      eapply Z.le_trans; [|exact HN1]. unfold D'.
      rewrite Z.mul_assoc. apply Z.mul_le_mono_nonneg_r; [lia|]. rewrite <- Z.pow_add_r by lia.
      destruct (decide (m = 0)) as [->|]; [simpl in Hf; lia|].
      destruct (Zdigits2_bounds m) as [Hlo _]; [lia|].
      replace (52 + (e' - e)) with (Zdigits2 m - 1) by lia. done. }
  split; [done|]. assert (0 ≤ z ≤ 2 ^ 53) as Hz53.
  { split; [apply (nearest_ge z N D'); [done..|]; nia|]. apply (nearest_le z N D'); [done..|]. apply Hu. }
  exists z. split; [done|]. split; [done|].
  unfold binary_round_aux. rewrite E. fold z.
  pose proof (second_shift z e' Hz53) as Hs. destruct (shr_fexp 53 1024 z e' loc_Exact) as [r2 e2].
  destruct Hs as [(Hlt&->&->)|(->&->&->)]; [lia| |reflexivity].
  unfold float_of. rewrite (proj2 (Z.eqb_neq z (2 ^ 53))) by lia. by destruct z; try lia.
Qed.

(** ** Correct rounding *)

(** [f] is [± N / D], in units of [2 ^ -1074], rounded to nearest, ties to even. *)
Definition rounded (sx : bool) (N D : Z) (f : float64) : Prop :=
  ∃ z e, -1074 ≤ e ∧ 0 ≤ z ≤ 2 ^ 53 ∧ unit_of N (2 ^ (e + 1074) * D) e ∧
    nearest z N (2 ^ (e + 1074) * D) ∧ f = float_of sx z e.

Lemma nearest_scale c z N D : 0 < c → nearest z (c * N) (c * D) ↔ nearest z N D.
Proof.
  intros Hc. unfold nearest.
  replace (z * (c * D) - c * N) with (c * (z * D - N)) by ring. rewrite Z.abs_mul, (Z.abs_eq c) by lia.
  split; intros [H1 H2]; (split; [nia|]); intros H; apply H2; nia.
Qed.

Lemma unit_of_scale c N D e : 0 < c → unit_of (c * N) (c * D) e ↔ unit_of N D e.
Proof.
  intros Hc. unfold unit_of. assert (∀ k a b, k * (c * b) ≤ c * a ↔ k * b ≤ a) as H1.
  { intros k a b. replace (k * (c * b)) with (c * (k * b)) by ring. symmetry. by apply Z.mul_le_mono_pos_l. }
  rewrite H1. replace (2 ^ 53 * (c * D)) with (c * (2 ^ 53 * D)) by ring.
  by rewrite <- (Z.mul_lt_mono_pos_l c N).
Qed.

Lemma rounded_scale c sx N D f : 0 < c → rounded sx (c * N) (c * D) f ↔ rounded sx N D f.
Proof.
  intros Hc. unfold rounded. do 2 (apply exist_proper; intros ?).
  rewrite (Z.mul_shuffle3 (2 ^ _) c D), unit_of_scale, nearest_scale by done. done.
Qed.

Lemma fexp64_mono a b : a ≤ b → fexp64 a ≤ fexp64 b.
Proof. rewrite !fexp64_eq. lia. Qed.

(** A value [N / D * 2 ^ e], as [binary_round_aux] is given it. *)
Lemma round_aux_rounded sx m e l N D :
  holds (shr_record_of_loc m l) N D → e ≤ fexp64 (Zdigits2 m + e) →
  rounded sx (2 ^ Z.max (e + 1074) 0 * N) (2 ^ Z.max (-1074 - e) 0 * D)
    (binary_round_aux 53 1024 sx m e l).
Proof.
  intros H He. destruct (binary_round_aux_spec sx m e l N D H He) as (Hu&z&Hz&Hn&->).
  set (e' := fexp64 (Zdigits2 m + e)) in *. assert (-1074 ≤ e') as He' by (unfold e'; rewrite fexp64_eq; lia).
  set (c := 2 ^ Z.max (e + 1074) 0). assert (0 < c) as Hc by (apply Z.pow_pos_nonneg; lia).
  assert (2 ^ (e' + 1074) * (2 ^ Z.max (-1074 - e) 0 * D) = c * (2 ^ (e' - e) * D)) as HD.
  { unfold c. rewrite !Z.mul_assoc, <- !Z.pow_add_r by lia. do 2 f_equal. lia. }
  exists z, e'. rewrite HD. by rewrite unit_of_scale, nearest_scale.
Qed.

Lemma iter_xO p d : Z.pos (Pos.iter xO p d) = Z.pos p * 2 ^ Z.pos d.
Proof.
  revert p. induction d as [|d IH] using Pos.peano_ind; intros p; [simpl; lia|].
  rewrite Pos.iter_succ, Pos2Z.inj_succ, Z.pow_succ_r, Pos2Z.inj_xO, IH by lia. ring.
Qed.

(** The aligned mantissa and exponent stand for the same value. *)
Lemma shl_align_eq p e e' :
  let '(p', e'') := shl_align p e e' in e'' = Z.min e e' ∧ Z.pos p' = Z.pos p * 2 ^ (e - e'').
Proof.
  unfold shl_align. destruct (e' - e) as [|d|d] eqn:E; [rewrite Z.sub_diag; simpl; lia..|].
  split; [lia|]. rewrite iter_xO. do 2 f_equal. lia.
Qed.

(** [± p * 2 ^ e]. *)
Lemma binary_round_rounded sx p e :
  -1074 ≤ e → rounded sx (2 ^ (e + 1074) * Z.pos p) 1 (binary_round 53 1024 sx p e).
Proof.
  intros He0. unfold binary_round. set (E := fexp64 (Z.pos (digits2_pos p) + e)).
  assert (-1074 ≤ E) as HE by (unfold E; rewrite fexp64_eq; lia).
  pose proof (shl_align_eq p e E) as H. destruct (shl_align p e E) as [p' e']. destruct H as [He Hp].
  assert (Zdigits2 (Z.pos p') + e' = Z.pos (digits2_pos p) + e) as Hd.
  { rewrite Hp, Zdigits2_shift by lia. simpl. lia. }
  assert (2 ^ (e + 1074) * Z.pos p = 2 ^ Z.max (e' + 1074) 0 * Z.pos p') as ->.
  { rewrite Hp, Z.max_l, (Z.mul_comm (Z.pos p)), Z.mul_assoc, <- Z.pow_add_r by lia. do 2 f_equal. lia. }
  assert (1 = 2 ^ Z.max (-1074 - e') 0 * 1) as Hone by (rewrite Z.max_r by lia; done).
  rewrite Hone at 1. apply round_aux_rounded; [unfold holds; simpl; lia|]. rewrite Hd. fold E. lia.
Qed.

(** ** Division *)
Lemma new_location_holds q r D :
  0 ≤ q → 0 ≤ r < D → holds (shr_record_of_loc q (new_location D r)) (D * q + r) D.
Proof.
  intros Hq Hr. unfold new_location, new_location_even, new_location_odd.
  assert (D = 2 * (D / 2) + D mod 2) as HD by (apply Z.div_mod; lia).
  pose proof (Zmod_even D) as Hm. destruct (Z.even D); rewrite Hm in HD;
    destruct (Z.eqb_spec r 0) as [->|Hne]; unfold holds; simpl; try lia;
    [destruct (Z.compare_spec (2 * r) D)|destruct (Z.compare_spec (2 * r + 1) D)]; simpl; lia.
Qed.

Lemma SFdiv_rounded sx sy p e1 q e2 :
  let e := e1 - e2 in
  rounded (xorb sx sy) (2 ^ Z.max (e + 1074) 0 * Z.pos p) (2 ^ Z.max (-1074 - e) 0 * Z.pos q)
    (SFdiv 53 1024 (S754_finite sx p e1) (S754_finite sy q e2)).
Proof.
  intros e. unfold SFdiv, SFdiv_core_binary. fold e.
  set (d1 := Zdigits2 (Z.pos p)). set (d2 := Zdigits2 (Z.pos q)).
  set (e' := Z.min (fexp64 (d1 + e1 - (d2 + e2))) e).
  set (m := match e - e' with Z0 => Z.pos p | Zpos _ => Z.shiftl (Z.pos p) (e - e') | Zneg _ => 0 end).
  assert (m = 2 ^ (e - e') * Z.pos p) as Hm.
  { unfold m. destruct (e - e') as [|s|s] eqn:Es; [simpl; lia| |lia].
    rewrite Z.shiftl_mul_pow2 by lia. lia. }
  pose proof (Z_div_mod m (Z.pos q) eq_refl) as Hdm.
  destruct (Z.div_eucl m (Z.pos q)) as [a r]. destruct Hdm as [Ha Hr]. change (Z.pos q > r) in Hr || idtac.
  assert (0 ≤ a) as Ha0 by nia.
  assert (holds (shr_record_of_loc a (new_location (Z.pos q) r)) m (Z.pos q)) as H
    by (rewrite Ha; apply new_location_holds; lia).
  assert (d1 + e - d2 ≤ Zdigits2 a + e') as Hd.
  { destruct (Zdigits2_bounds (Z.pos p) eq_refl) as [Hp _]. fold d1 in Hp.
    destruct (Zdigits2_bounds (Z.pos q) eq_refl) as [_ Hq]. fold d2 in Hq.
    pose proof (Zdigits2_upper a Ha0) as Hua. pose proof (Zdigits2_nonneg a).
    assert (0 < d1 ∧ 0 < d2) as [Hd1 Hd2] by by split.
    assert (2 ^ (e - e') * 2 ^ (d1 - 1) < 2 ^ d2 * 2 ^ Zdigits2 a) as Hlt.
    { apply Z.le_lt_trans with m; [rewrite Hm; apply Z.mul_le_mono_nonneg_l; lia|].
      apply Z.lt_le_trans with (Z.pos q * (a + 1)); [lia|]. apply Z.mul_le_mono_nonneg; lia. }
    rewrite <- !Z.pow_add_r in Hlt by lia. apply Z.pow_lt_mono_r_iff in Hlt; lia. }
  pose proof (fexp64_mono _ _ Hd) as Hf.
  pose proof (round_aux_rounded (xorb sx sy) a e' _ _ _ H) as HR.
  assert (-1074 ≤ fexp64 (d1 + e - d2)) as Hmin by (rewrite fexp64_eq; lia).
  assert (e' = Z.min (fexp64 (d1 + e - d2)) e) as He' by (unfold e'; do 2 f_equal; lia).
  clearbody e'. subst e'. specialize (HR ltac:(lia)).
  set (f := binary_round_aux _ _ _ _ _ _) in *. clearbody f. rewrite Hm in HR.
  set (e' := Z.min _ e) in *.
  assert (2 ^ Z.max (e + 1074) 0 * Z.pos p = 2 ^ Z.max (e' + 1074) 0 * (2 ^ (e - e') * Z.pos p)) as ->
    by (rewrite Z.mul_assoc, <- Z.pow_add_r by lia; do 2 f_equal; lia).
  assert (Z.max (-1074 - e) 0 = Z.max (-1074 - e') 0) as -> by lia. done.
Qed.

(** ** Consequences *)
Definition bounded64 := bounded 53 1024.

Lemma bounded64_spec m e :
  bounded64 m e = true ↔
  -1074 ≤ e ≤ 971 ∧ Z.pos m < 2 ^ 53 ∧ (2 ^ 52 ≤ Z.pos m ∨ e = -1074).
Proof.
  unfold bounded64, bounded, canonical_mantissa.
  rewrite andb_true_iff, Z.eqb_eq, Z.leb_le. change (emin 53 1024) with (-1074).
  rewrite fexp64_eq. change (1024 - 53) with 971. pose proof (digits2_pos_bounds m) as [Hlo Hup].
  set (d := Z.pos (digits2_pos m)) in *. assert (0 < d) by done. split.
  - intros [Hf He]. split; [lia|]. split.
    + eapply Z.lt_le_trans; [exact Hup|]. apply Z.pow_le_mono_r; lia.
    + destruct (decide (e = -1074)) as [|Hne]; [by right|]. left.
      by replace 52 with (d - 1) by lia.
  - intros (He&Hm&Hor). split; [|lia]. assert (d ≤ 53) as Hd.
    { assert (d - 1 < 53) by (apply (Z.pow_lt_mono_r_iff 2); lia). lia. }
    destruct Hor as [Hge| ->]; [|lia]. assert (52 < d) by (apply (Z.pow_lt_mono_r_iff 2); lia). lia.
Qed.

Lemma float_of_exact sx m e : bounded64 m e = true → float_of sx (Z.pos m) e = S754_finite sx m e.
Proof.
  intros (He&Hm&_)%bounded64_spec. unfold float_of.
  by rewrite (proj2 (Z.eqb_neq _ _)), (proj2 (Z.leb_le e 971)) by lia.
Qed.

(** The exponent of a value is unique. *)
Lemma unit_of_unique N D e e' :
  0 < D → 0 ≤ N → -1074 ≤ e → -1074 ≤ e' →
  unit_of N (2 ^ (e + 1074) * D) e → unit_of N (2 ^ (e' + 1074) * D) e' → e = e'.
Proof.
  intros HD HN. assert (∀ e e', -1074 ≤ e → -1074 ≤ e' → unit_of N (2 ^ (e + 1074) * D) e →
    unit_of N (2 ^ (e' + 1074) * D) e' → e' ≤ e) as H; [|intros; apply Z.le_antisymm; by apply H].
  clear e e'. intros e e' He He' [H1 _] [_ [H2| ->]]; [|lia].
  rewrite Z.mul_assoc, <- Z.pow_add_r in H1, H2 by lia.
  assert (2 ^ (52 + (e' + 1074)) * D < 2 ^ (53 + (e + 1074)) * D) as H by lia.
  apply Z.mul_lt_mono_pos_r, Z.pow_lt_mono_r_iff in H; lia.
Qed.

Lemma nearest_exact z m D : 0 < D → nearest z (m * D) D → z = m.
Proof. intros HD [H _]. rewrite <- Z.mul_sub_distr_r, Z.abs_mul, (Z.abs_eq D) in H by lia. nia. Qed.

(** A value that a float represents is rounded to it. *)
Lemma rounded_exact sx N D f m e :
  0 < D → rounded sx N D f → bounded64 m e = true → N = 2 ^ (e + 1074) * Z.pos m * D →
  f = S754_finite sx m e.
Proof.
  intros HD (z&e'&He'&Hz&Hu&Hn&->) Hb ->. rewrite <- (float_of_exact _ _ _ Hb).
  apply bounded64_spec in Hb as (He&Hm&Hor). set (c := 2 ^ (e + 1074)) in *.
  assert (0 < c) as Hc by (apply Z.pow_pos_nonneg; lia).
  assert (e' = e) as ->.
  { apply (unit_of_unique (c * Z.pos m * D) D); [done|nia|lia|lia|done|]. fold c. unfold unit_of.
    split; [nia|]. destruct Hor as [|]; [left; nia|by right]. }
  f_equal. apply (nearest_exact _ _ (c * D)); [nia|].
  by replace (Z.pos m * (c * D)) with (c * Z.pos m * D) by ring.
Qed.

(** The rounding error is at most half a unit in the last place. *)
Lemma rounded_error sx N D f b :
  0 < D → rounded sx N D f → 0 ≤ N < 2 ^ (b + 1074) * D → -1021 ≤ b ≤ 1023 →
  ∃ z e, -1074 ≤ e ≤ b - 53 ∧ 0 ≤ z ≤ 2 ^ 53 ∧ f = float_of sx z e ∧
    2 * Z.abs (z * (2 ^ (e + 1074) * D) - N) ≤ 2 ^ (e + 1074) * D.
Proof.
  intros HD (z&e&He&Hz&Hu&[Hn _]&->) [HN0 HN] Hb. exists z, e. split_and!; try done; try lia.
  destruct Hu as [_ [Hu| ->]]; [|lia]. rewrite Z.mul_assoc, <- Z.pow_add_r in Hu by lia.
  assert (2 ^ (52 + (e + 1074)) * D < 2 ^ (b + 1074) * D) as H by lia.
  apply Z.mul_lt_mono_pos_r, Z.pow_lt_mono_r_iff in H; lia.
Qed.

(** Rounding has one result. *)
Lemma nearest_unique z z' N D : 0 < D → nearest z N D → nearest z' N D → z = z'.
Proof.
  assert (∀ z z', 0 < D → nearest z N D → nearest z' N D → z ≤ z') as H.
  { clear z z'. intros z z' HD [H1 E1] [H2 E2]. apply Z.le_ngt. intros Hlt.
    assert (z = z' + 1) as -> by (assert (z * D ≤ z' * D + D) by lia; nia).
    assert (Z.even (z' + 1) = true) as Ev1 by (apply E1; lia).
    assert (Z.even z' = true) as Ev2 by (apply E2; lia).
    rewrite Z.add_1_r, Z.even_succ, <- Z.negb_even, Ev2 in Ev1. done. }
  intros HD H1 H2. apply Z.le_antisymm; by apply H.
Qed.

Lemma rounded_unique sx N D f f' : 0 < D → 0 ≤ N → rounded sx N D f → rounded sx N D f' → f = f'.
Proof.
  intros HD HN (z&e&He&_&Hu&Hn&->) (z'&e'&He'&_&Hu'&Hn'&->).
  assert (e = e') as <- by by eapply unit_of_unique. f_equal. eapply nearest_unique; [|done..].
  apply Z.mul_pos_pos; [apply Z.pow_pos_nonneg; lia|done].
Qed.

Lemma SFmul_rounded sx sy p e1 q e2 :
  bounded64 p e1 = true → bounded64 q e2 = true →
  rounded (xorb sx sy) (2 ^ Z.max (e1 + e2 + 1074) 0 * (Z.pos p * Z.pos q)) (2 ^ Z.max (-1074 - (e1 + e2)) 0)
    (SFmul 53 1024 (S754_finite sx p e1) (S754_finite sy q e2)).
Proof.
  intros Hp%bounded64_spec Hq%bounded64_spec. cbn [SFmul].
  rewrite <- (Z.mul_1_r (2 ^ Z.max (-1074 - _) 0)). apply round_aux_rounded; [unfold holds; simpl; lia|].
  rewrite fexp64_eq. change (Z.pos (p * q)) with (Z.pos p * Z.pos q).
  assert (53 ≤ Zdigits2 (Z.pos p * Z.pos q) ∨ e1 + e2 ≤ -1074) as [H|H]; [|lia..].
  destruct (decide (2 ^ 52 ≤ Z.pos p * Z.pos q)) as [H|H]; [left|right].
  - destruct (Zdigits2_bounds (Z.pos p * Z.pos q)) as [_ H2]; [lia|].
    assert (52 < Zdigits2 (Z.pos p * Z.pos q)); [|lia].
    apply (Z.pow_lt_mono_r_iff 2); [lia|apply Zdigits2_nonneg|lia].
  - destruct Hp as (_&_&[Hp| ->]); [nia|]. destruct Hq as (_&_&[Hq| ->]); [nia|lia].
Qed.

(** An integer of at most 53 bits, shifted, is a float. *)
Lemma canonical_int n : 0 < n < 2 ^ 53 →
  ∃ m e, Z.pos m = n * 2 ^ (- e) ∧ -52 ≤ e ≤ 0 ∧ ∀ k, 0 ≤ k ≤ 900 → bounded64 m (e + k) = true.
Proof.
  intros [H0 H1]. pose proof (Zdigits2_bounds n H0) as [Hlo Hup].
  assert (Zdigits2 n ≤ 53) as Hd by (apply Zdigits2_le; lia).
  assert (0 < Zdigits2 n) by (pose proof (Zdigits2_nonneg n); destruct n; simpl in *; lia).
  set (s := 53 - Zdigits2 n). assert (0 < n * 2 ^ s) as Hpos by (apply Z.mul_pos_pos; [lia|apply Z.pow_pos_nonneg; lia]).
  exists (Z.to_pos (n * 2 ^ s)), (- s). rewrite Z2Pos.id, Z.opp_involutive by done. split_and!; [done|lia..|].
  intros k Hk. apply bounded64_spec. rewrite Z2Pos.id by done. split; [lia|].
  assert (2 ^ 53 = 2 ^ Zdigits2 n * 2 ^ s) as E1 by (rewrite <- Z.pow_add_r by lia; f_equal; lia).
  assert (2 ^ 52 = 2 ^ (Zdigits2 n - 1) * 2 ^ s) as E2 by (rewrite <- Z.pow_add_r by lia; f_equal; lia).
  assert (0 < 2 ^ s) by (apply Z.pow_pos_nonneg; lia). split; [|left]; nia.
Qed.
