(* ===== verification/GoFormat.v ===== *)
(** * Go's [strconv.FormatFloat] with format ['f']

    [FormatFixed] is the precision given ([fmt]'s [%.3f] too), [FormatFloat] the
    precision -1: the fewest digits that [ParseFloat] reads back as the same
    float.  Go finds those digits by walking along the decimal digits of the
    float and of the two halfway points around it; the model asks instead whether
    the digits so far, or those rounded up, are read back.  [ParseFloat_FormatFloat]
    shows that nothing is lost, [FormatFixed_fixpoint] that three digits survive
    being read and printed again. *)

From S2P Require Import Prelude Envelope GoStrings GoFloat FloatRound.

(** ** Digits *)
Definition digit_char (d : Z) : ascii := pretty_N_char (Z.to_N d).

(** The last [k] decimal digits of [r]. *)
Fixpoint fixed_digits (k : nat) (r : Z) : string :=
  match k with
  | O => ""
  | S k => String (digit_char ((r / 10 ^ Z.of_nat k) mod 10)) (fixed_digits k r)
  end.

(** [± M / 10 ^ k] with [k] digits after the point. *)
Definition fmt_fixed (neg : bool) (M : Z) (k : nat) : string :=
  (if neg then "-" else "") +:+ FormatInt (M / 10 ^ Z.of_nat k) +:+
  match k with O => "" | S _ => "." +:+ fixed_digits k M end.

(** The integer nearest to [N / D], ties to even. *)
Definition round_half_even (N D : Z) : Z :=
  let q := N / D in
  match Z.compare (2 * (N mod D)) D with
  | Lt => q
  | Gt => q + 1
  | Eq => if Z.even q then q else q + 1
  end.

(** ** A given precision *)

(** [m * 2 ^ e] in units of [10 ^ - prec]. *)
Definition scaled_round (m e : Z) (prec : nat) : Z :=
  if 0 <=? e then m * 2 ^ e * 10 ^ Z.of_nat prec
  else round_half_even (m * 10 ^ Z.of_nat prec) (2 ^ (- e)).

Definition FormatFixed (prec : nat) (f : float64) : string :=
  match f with
  | S754_nan => "NaN"
  | S754_infinity neg => if neg then "-Inf" else "+Inf"
  | S754_zero neg => fmt_fixed neg 0 prec
  | S754_finite neg m e => fmt_fixed neg (scaled_round (Z.pos m) e prec) prec
  end.

(** ** As few digits as possible *)

(** Zeros at the end of a fraction are dropped. *)
Fixpoint strip (M : Z) (k : nat) : Z * nat :=
  match k with
  | O => (M, O)
  | S k' => if M mod 10 =? 0 then strip (M / 10) k' else (M, k)
  end.

(** All the decimal digits of [m * 2 ^ e]. *)
Definition exact_decimal (m e : Z) : Z * nat :=
  if 0 <=? e then (m * 2 ^ e, O) else (m * 5 ^ (- e), Z.to_nat (- e)).

(** [l * 10 ^ - j] without trailing zeros. *)
Definition decimal (l j : Z) : Z * nat :=
  if 0 <=? j then strip l (Z.to_nat j) else (l * 10 ^ (- j), O).

Definition reads_as (m : positive) (e : Z) (d : Z * nat) : bool :=
  match round_decimal false d.1 (- Z.of_nat d.2) with
  | S754_finite false m' e' => (Pos.eqb m m') && (e =? e')
  | _ => false
  end.

(** From [n] digits on, [dp] of them before the point. *)
Fixpoint shortest (fuel : nat) (m : positive) (e : Z) (M : Z) (k dp n : Z) : Z * nat :=
  match fuel with
  | O => strip M (Z.to_nat k)
  | S fuel =>
      let j := n - dp in
      let l := if k <=? j then M * 10 ^ (j - k) else M / 10 ^ (k - j) in
      let down := decimal l j in
      let up := decimal (l + 1) j in
      match reads_as m e down, reads_as m e up with
      | true, true =>
          if (if k <=? j then l else round_half_even M (10 ^ (k - j))) =? l then down else up
      | true, false => down
      | false, true => up
      | false, false => shortest fuel m e M k dp (n + 1)
      end
  end.

(** 800 is the number of digits Go's decimals have room for. *)
Definition FormatFloat (f : float64) : string :=
  match f with
  | S754_nan => "NaN"
  | S754_infinity neg => if neg then "-Inf" else "+Inf"
  | S754_zero neg => fmt_fixed neg 0 0
  | S754_finite neg m e =>
      let '(M, k) := exact_decimal (Z.pos m) e in
      let dp := Z.of_nat (String.length (FormatInt M)) - Z.of_nat k in
      let '(M, k) := shortest 800 m e M (Z.of_nat k) dp 0 in
      fmt_fixed neg M k
  end.

Example FormatFloat_examples :
  let f s := match ParseFloat s with Ok f => f | Err _ => S754_nan end in
  FormatFloat (f "2.5") = "2.5" ∧ FormatFloat (f "0.1") = "0.1" ∧ FormatFloat (f "-1e21") = "-1000000000000000000000" ∧
  FormatFloat (f "5e-7") = "0.0000005" ∧ FormatFloat (f "9007199254740993") = "9007199254740992" ∧
  FormatFloat (f "0.30000000000000004") = "0.30000000000000004" ∧ FormatFloat (f "123456.789") = "123456.789" ∧
  FormatFixed 3 (f "1.0005") = "1.000" ∧ FormatFixed 3 (f "0.0625") = "0.062" ∧
  FormatFixed 3 (f "1696530000.123") = "1696530000.123" ∧ FormatFixed 3 (f "-0.0001") = "-0.000".
Proof. by vm_compute. Qed.

(** ** Reading digits back *)
Lemma read_mantissa_digit d m s :
  0 ≤ d < 10 →
  read_mantissa false m (String (digit_char d) s) = read_mantissa false (push_digit false d m) s.
Proof.
  intros Hd. assert (d = 0 ∨ d = 1 ∨ d = 2 ∨ d = 3 ∨ d = 4 ∨ d = 5 ∨ d = 6 ∨ d = 7 ∨ d = 8 ∨ d = 9)
    as H by lia. by destruct_or! H; subst.
Qed.

Lemma read_mantissa_go (x : N) s u :
  read_mantissa false (mkMant 0 None false u) (pretty_N_go x s) =
  read_mantissa false (mkMant (Z.of_N x) None (negb (N.eqb x 0)) u) s.
Proof.
  revert s. induction (N.lt_wf_0 x) as [x _ IH]. intros s.
  destruct (decide (x = 0%N)) as [->|Hne]; [by rewrite pretty_N_go_0|].
  rewrite pretty_N_go_step by lia.
  pose proof (N.div_lt x 10). pose proof (N.mod_lt x 10). pose proof (N.div_mod' x 10).
  assert (pretty_N_char (x `mod` 10) = digit_char (Z.of_N (x `mod` 10))) as ->
    by (unfold digit_char; by rewrite N2Z.id).
  rewrite IH by lia. assert (0 ≤ Z.of_N (x `mod` 10) < 10) as Hd
    by (split; [apply N2Z.is_nonneg|]; apply (N2Z.inj_lt _ 10), N.mod_lt; done).
  rewrite read_mantissa_digit by done.
  unfold push_digit. simpl. rewrite (proj2 (N.eqb_neq x 0)) by done. do 2 f_equal. lia.
Qed.

Lemma read_mantissa_int z s u :
  0 ≤ z → read_mantissa false (mkMant 0 None false u) (FormatInt z +:+ s) =
  read_mantissa false (mkMant z None true u) s.
Proof.
  intros Hz. unfold FormatInt. destruct z as [|p|p]; [| |lia].
  - change (pretty 0 +:+ s) with (String (digit_char 0) s). by rewrite read_mantissa_digit by lia.
  - change (pretty (Z.pos p)) with (pretty (N.pos p)). unfold pretty, pretty_N. rewrite decide_False by done.
    assert (∀ x t, pretty_N_go x t +:+ s = pretty_N_go x (t +:+ s)) as ->.
    { intros x. induction (N.lt_wf_0 x) as [x _ IH]. intros t.
      destruct (decide (x = 0%N)) as [->|Hne]; [by rewrite !pretty_N_go_0|].
      rewrite !(pretty_N_go_step x) by lia. rewrite IH by (apply N.div_lt; lia). done. }
    by rewrite read_mantissa_go.
Qed.

Lemma read_mantissa_fixed k v r j u :
  read_mantissa false (mkMant v (Some j) true u) (fixed_digits k r) =
  (mkMant (v * 10 ^ Z.of_nat k + r mod 10 ^ Z.of_nat k) (Some (j + Z.of_nat k)) true u, "").
Proof.
  revert v j. induction k as [|k IH]; intros v j.
  - simpl fixed_digits. rewrite Z.mod_1_r, !Z.add_0_r, Z.mul_1_r. done.
  - simpl fixed_digits. rewrite read_mantissa_digit by (apply Z.mod_pos_bound; lia).
    unfold push_digit. simpl. rewrite IH. do 2 f_equal; [|f_equal; lia].
    rewrite Nat2Z.inj_succ, Z.pow_succ_r by lia. set (p := 10 ^ Z.of_nat k).
    assert (0 < p) by (apply Z.pow_pos_nonneg; lia).
    rewrite (Z.mul_comm 10 p), Z.rem_mul_r by lia. lia.
Qed.

Lemma digit_is_lower c : digit c ≠ None → lower c = c ∧ c ≠ "i"%char ∧ c ≠ "n"%char.
Proof. by destruct c as [[][][][][][][][]]. Qed.

Lemma lower_x c : lower c = "x"%char → digit c = None ∧ c ≠ "_"%char ∧ c ≠ "."%char ∧ float_digit false c = None.
Proof. by destruct c as [[][][][][][][][]]. Qed.

Definition float_or_range (f : float64) : result NumError float64 :=
  match f with S754_infinity _ => Err ErrRange | f => Ok f end.

(** A text that is all mantissa and starts with a digit. *)
Lemma ParseFloat_mantissa (neg : bool) c body m :
  digit c ≠ None → read_mantissa false (mkMant 0 None false false) (String c body) = (m, "") →
  m_digits m = true → m_under m = false →
  ParseFloat ((if neg then "-" else "")%string +:+ String c body) =
  float_or_range (round_decimal neg (m_value m) (- default 0 (m_point m))).
Proof.
  intros Hc Hm Hd Hu. set (s := (if neg then "-" else "")%string +:+ String c body).
  assert (split_sign s = (neg, String c body)) as Hs.
  { unfold s. destruct neg; [done|]. by apply split_sign_digit. }
  destruct (digit_is_lower c Hc) as (Hl&Hi&Hn).
  assert (special s = None) as Hsp.
  { unfold special. rewrite Hs. simpl lower_string. rewrite Hl.
    rewrite decide_False by (intros [[=]|[=]]; done). rewrite decide_False; [done|].
    unfold s. destruct neg; [done|]. simpl. rewrite Hl. by intros [=]. }
  unfold ParseFloat. rewrite Hsp, Hs.
  assert (read_float false neg s (String c body) =
    Some (round_decimal neg (m_value m) (- default 0 (m_point m)))) as Hr.
  { unfold read_float. rewrite Hm, Hd, Hu. cbn [negb andb]. by rewrite Z.sub_0_l. }
  assert (∀ c', c = "0"%char → (∃ b, body = String c' b) → lower c' ≠ "x"%char) as Hx.
  { intros c' -> [b ->] Hlx. destruct (lower_x c' Hlx) as (_&H1&H2&H3).
    change (String "0" ?t) with (String (digit_char 0) t) in Hm. rewrite read_mantissa_digit in Hm by lia.
    cbn [read_mantissa] in Hm. rewrite decide_False, decide_False, H3 in Hm by done. done. }
  assert (match read_float false neg s (String c body) with
          | None => Err ErrSyntax | Some (S754_infinity _) => Err ErrRange | Some f => Ok f end =
    float_or_range (round_decimal neg (m_value m) (- default 0 (m_point m)))) as Hend
    by (rewrite Hr; by destruct (round_decimal _ _ _)).
  destruct (decide (c = "0"%char)) as [->|Hne].
  - destruct body as [|c' [|c'' body]]; [exact Hend..|].
    by rewrite decide_False by (apply Hx; eauto).
  - destruct c as [[][][][][][][][]]; try exact Hend; done.
Qed.

Lemma FormatInt_digit z : 0 ≤ z → ∃ c s, FormatInt z = String c s ∧ digit c ≠ None.
Proof.
  intros Hz. destruct z as [|p|p]; [by eexists _, _| |lia].
  unfold FormatInt. change (pretty (Z.pos p)) with (pretty (N.pos p)). unfold pretty, pretty_N.
  rewrite decide_False by done. assert (∀ x s, (0 < x)%N → ∃ c t, pretty_N_go x s = String c t ∧ digit c ≠ None) as H.
  { intros x. induction (N.lt_wf_0 x) as [x _ IH]. intros s Hx. rewrite pretty_N_go_step by lia.
    destruct (decide (x `div` 10 = 0)%N) as [->|Hne]; [|apply IH; [by apply N.div_lt|by apply N.neq_0_lt_0]].
    rewrite pretty_N_go_0. eexists _, _. split; [done|]. by rewrite digit_pretty by by apply N.mod_lt. }
  apply H. lia.
Qed.

(** What is printed is read as the same decimal. *)
Lemma ParseFloat_fmt_fixed neg M k :
  0 ≤ M → ParseFloat (fmt_fixed neg M k) = float_or_range (round_decimal neg M (- Z.of_nat k)).
Proof.
  intros HM. unfold fmt_fixed. assert (0 < 10 ^ Z.of_nat k) as Hp by (apply Z.pow_pos_nonneg; lia).
  assert (0 ≤ M / 10 ^ Z.of_nat k) as Hq by (apply Z.div_pos; lia).
  destruct (FormatInt_digit _ Hq) as (c&u&E&Hc).
  set (tail := match k with O => "" | S _ => "." +:+ fixed_digits k M end).
  assert (read_mantissa false (mkMant 0 None false false) (FormatInt (M / 10 ^ Z.of_nat k) +:+ tail) =
    (mkMant M (if k is O then None else Some (Z.of_nat k)) true false, "")) as Hm.
  { rewrite read_mantissa_int by done. unfold tail. destruct k as [|k].
    - change (10 ^ Z.of_nat 0) with 1. by rewrite Z.div_1_r.
    - change ("." +:+ ?t) with (String "." t). cbn [read_mantissa]. rewrite decide_False, decide_True by done.
      cbn [m_point m_value m_digits m_under]. rewrite read_mantissa_fixed, Z.add_0_l.
      do 2 f_equal. rewrite Z.mul_comm. symmetry. by apply Z.div_mod, Z.neq_sym, Z.lt_neq. }
  rewrite E in Hm |- *. change (String c u +:+ tail) with (String c (u +:+ tail)) in *.
  rewrite (ParseFloat_mantissa neg c _ _ Hc Hm) by done. simpl. by destruct k.
Qed.

(** ** Nothing is lost *)

(** The sign plays no part in rounding. *)
Definition with_sign (neg : bool) (f : float64) : float64 :=
  match f with
  | S754_zero _ => S754_zero neg
  | S754_infinity _ => S754_infinity neg
  | S754_nan => S754_nan
  | S754_finite _ m e => S754_finite neg m e
  end.

Lemma round_aux_sign neg m e l :
  binary_round_aux 53 1024 neg m e l = with_sign neg (binary_round_aux 53 1024 false m e l).
Proof.
  unfold binary_round_aux. destruct (shr_fexp 53 1024 m e l) as [r e'].
  destruct (shr_fexp 53 1024 _ e' loc_Exact) as [r' e'']. by destruct (shr_m r'); [|destruct (e'' <=? _)|].
Qed.

Lemma round_decimal_sign neg M e : round_decimal neg M e = with_sign neg (round_decimal false M e).
Proof.
  unfold round_decimal. destruct M as [|p|p]; [done| |done]. destruct (Z.leb_spec 0 e) as [He|He].
  - assert (0 < Z.pos p * 10 ^ e) as H by (apply Z.mul_pos_pos; [lia|by apply Z.pow_pos_nonneg]).
    destruct (Z.pos p * 10 ^ e) as [|q|q]; [done| |done]. destruct neg; simpl;
      unfold binary_round; destruct (shl_align _ _ _); apply round_aux_sign.
  - destruct (10 ^ (- e)) as [|q|q]; [done| |done]. unfold SFdiv.
    destruct (SFdiv_core_binary _ _ _ _ _ _) as [[a b] l]. rewrite xorb_false_r. apply round_aux_sign.
Qed.

(** A decimal is rounded correctly. *)
Lemma round_decimal_rounded neg M k :
  0 < M → rounded neg (M * 2 ^ 1074) (10 ^ Z.of_nat k) (round_decimal neg M (- Z.of_nat k)).
Proof.
  intros HM. unfold round_decimal. destruct M as [|p|p]; [lia| |lia]. destruct k as [|k].
  - change (0 <=? - Z.of_nat 0) with true. change (- Z.of_nat 0) with 0. cbv iota.
    change (10 ^ 0) with 1. rewrite Z.mul_1_r. change (10 ^ Z.of_nat 0) with 1. rewrite (Z.mul_comm (Z.pos p)).
    destruct neg; apply (binary_round_rounded _ p 0); lia.
  - rewrite (proj2 (Z.leb_gt _ _)) by lia. rewrite Z.opp_involutive.
    assert (0 < 10 ^ Z.of_nat (S k)) as Hq by (apply Z.pow_pos_nonneg; lia).
    destruct (10 ^ Z.of_nat (S k)) as [|q|q]; [done| |done].
    pose proof (SFdiv_rounded neg false p 0 q 0) as H. cbv zeta in H.
    rewrite xorb_false_r, Z.max_l, Z.max_r, (Z.mul_comm _ (Z.pos p)), Z.mul_1_l in H by lia. exact H.
Qed.

Lemma strip_eq M k :
  (strip M k).1 * 10 ^ Z.of_nat k = M * 10 ^ Z.of_nat (strip M k).2.
Proof.
  revert M. induction k as [|k IH]; intros M; cbn [strip]; [done|].
  destruct (Z.eqb_spec (M mod 10) 0) as [H|]; [|done]. pose proof (Z.div_mod M 10 ltac:(lia)) as HM.
  rewrite Nat2Z.inj_succ, Z.pow_succ_r by lia.
  transitivity ((strip (M / 10) k).1 * 10 ^ Z.of_nat k * 10); [ring|]. rewrite IH.
  transitivity (10 * (M / 10) * 10 ^ Z.of_nat (strip (M / 10) k).2); [ring|]. f_equal. lia.
Qed.

Lemma strip_nonneg M k : 0 ≤ M → 0 ≤ (strip M k).1.
Proof.
  revert M. induction k as [|k IH]; intros M HM; cbn [strip]; [done|].
  destruct (M mod 10 =? 0); [apply IH, Z.div_pos; lia|done].
Qed.

Lemma pow10 k : 0 ≤ k → 10 ^ k = 2 ^ k * 5 ^ k.
Proof. intros Hk. by rewrite <- Z.pow_mul_l. Qed.

(** All its digits are read back as the float. *)
Lemma exact_decimal_reads m e M k :
  bounded64 m e = true → exact_decimal (Z.pos m) e = (M, k) →
  0 < (strip M k).1 ∧ round_decimal false (strip M k).1 (- Z.of_nat (strip M k).2) = S754_finite false m e.
Proof.
  intros Hb He. set (M' := (strip M k).1). set (k' := (strip M k).2).
  pose proof (strip_eq M k : M' * 10 ^ Z.of_nat k = M * 10 ^ Z.of_nat k') as Hs.
  pose proof (proj1 (bounded64_spec m e) Hb) as (Hr&_&_).
  assert (0 < 10 ^ Z.of_nat k) as Hk by (apply Z.pow_pos_nonneg; lia).
  assert (0 < 10 ^ Z.of_nat k') as Hk' by (apply Z.pow_pos_nonneg; lia).
  assert (M * 2 ^ 1074 = 2 ^ (e + 1074) * Z.pos m * 10 ^ Z.of_nat k ∧ 0 < M) as [HM HM0].
  { unfold exact_decimal in He. destruct (Z.leb_spec 0 e); injection He as <- <-.
    - split; [|apply Z.mul_pos_pos; [lia|by apply Z.pow_pos_nonneg]].
      rewrite Z.pow_add_r by lia. change (10 ^ Z.of_nat 0) with 1. ring.
    - split; [|apply Z.mul_pos_pos; [lia|apply Z.pow_pos_nonneg; lia]].
      rewrite Z2Nat.id, pow10 by lia.
      replace (2 ^ 1074) with (2 ^ (e + 1074) * 2 ^ (- e)) by (rewrite <- Z.pow_add_r by lia; f_equal; lia). ring. }
  assert (0 < M') as HM'.
  { assert (0 < M' * 10 ^ Z.of_nat k) by (rewrite Hs; by apply Z.mul_pos_pos). nia. }
  split; [done|]. apply (rounded_exact false (M' * 2 ^ 1074) (10 ^ Z.of_nat k')); try done.
  - by apply round_decimal_rounded.
  - apply (Z.mul_cancel_r _ _ (10 ^ Z.of_nat k)); [lia|].
    transitivity (M' * 10 ^ Z.of_nat k * 2 ^ 1074); [ring|]. rewrite Hs.
    transitivity (M * 2 ^ 1074 * 10 ^ Z.of_nat k'); [ring|]. rewrite HM. ring.
Qed.

Definition reads_back (m : positive) (e : Z) (d : Z * nat) : Prop :=
  0 < d.1 ∧ round_decimal false d.1 (- Z.of_nat d.2) = S754_finite false m e.

Lemma reads_as_spec m e d : reads_as m e d = true → reads_back m e d.
Proof.
  unfold reads_as, reads_back. destruct d as [M k]. simpl. intros H.
  destruct M as [|p|p]; try done. split; [done|].
  destruct (round_decimal _ _ _) as [| | |[] m' e']; try done.
  apply andb_true_iff in H as [->%Pos.eqb_eq ->%Z.eqb_eq]. done.
Qed.

Lemma shortest_reads fuel m e M k dp n :
  reads_back m e (strip M k) → reads_back m e (shortest fuel m e M (Z.of_nat k) dp n).
Proof.
  intros H. revert n. induction fuel as [|fuel IH]; intros n; cbn [shortest].
  - by rewrite Nat2Z.id.
  - set (l := if Z.of_nat k <=? n - dp then M * _ else _). set (l' := if Z.of_nat k <=? n - dp then l else _).
    destruct (reads_as m e (decimal l (n - dp))) eqn:E1, (reads_as m e (decimal (l + 1) (n - dp))) eqn:E2.
    + destruct (l' =? l); by apply reads_as_spec.
    + by apply reads_as_spec.
    + by apply reads_as_spec.
    + apply IH.
Qed.

(** [ParseFloat] undoes [FormatFloat] on every float. *)
Lemma ParseFloat_FormatFloat f : valid_binary 53 1024 f = true → ParseFloat (FormatFloat f) = Ok f.
Proof.
  intros Hf. destruct f as [neg|neg| |neg m e].
  - unfold FormatFloat. rewrite ParseFloat_fmt_fixed by lia. done.
  - by destruct neg.
  - done.
  - unfold FormatFloat. destruct (exact_decimal (Z.pos m) e) as [M k] eqn:E.
    assert (reads_back m e (strip M k)) as H by by apply exact_decimal_reads.
    set (dp := Z.of_nat (String.length (FormatInt M)) - Z.of_nat k).
    destruct (shortest_reads 800 m e M k dp 0 H) as [HM Hd].
    destruct (shortest 800 m e M (Z.of_nat k) dp 0) as [M' k']. simpl in HM, Hd.
    rewrite ParseFloat_fmt_fixed by lia. by rewrite round_decimal_sign, Hd.
Qed.

(** ** Three digits *)
Lemma round_half_even_unique z N D : 0 < D → 2 * Z.abs (z * D - N) < D → round_half_even N D = z.
Proof.
  intros HD H. unfold round_half_even. pose proof (Z.div_mod N D ltac:(lia)) as HN.
  pose proof (Z.mod_pos_bound N D HD). set (q := N / D) in *. set (r := N mod D) in *.
  destruct (Z.compare_spec (2 * r) D) as [Hr|Hr|Hr].
  - exfalso. assert (z - q = 0 ∨ z - q ≤ -1 ∨ 1 ≤ z - q) as [?|[?|?]] by lia; nia.
  - assert (z - q = 0 ∨ z - q ≤ -1 ∨ 1 ≤ z - q) as [?|[?|?]] by lia; nia.
  - assert (z - q = 1 ∨ z - q ≤ 0 ∨ 2 ≤ z - q) as [?|[?|?]] by lia; nia.
Qed.

Lemma round_half_even_scale c N D : 0 < c → 0 < D → round_half_even (c * N) (c * D) = round_half_even N D.
Proof.
  intros Hc HD. unfold round_half_even. rewrite Z.div_mul_cancel_l, Z.mul_mod_distr_l by lia.
  replace (2 * (c * (N mod D))) with (c * (2 * (N mod D))) by ring.
  by rewrite <- Zmult_compare_compat_l by lia.
Qed.

Lemma round_half_even_exact z D : 0 < D → round_half_even (z * D) D = z.
Proof. intros HD. apply round_half_even_unique; [done|]. rewrite Z.sub_diag. simpl. lia. Qed.

Lemma scaled_round_double z e prec : scaled_round (2 * z) e prec = scaled_round z (e + 1) prec.
Proof.
  unfold scaled_round. destruct (Z.leb_spec 0 e).
  - rewrite (proj2 (Z.leb_le 0 (e + 1))), Z.pow_add_r by lia. ring.
  - destruct (Z.leb_spec 0 (e + 1)).
    + assert (e = -1) as -> by lia. change (2 ^ (- -1)) with 2. change (2 ^ (-1 + 1)) with 1.
      replace (2 * z * 10 ^ Z.of_nat prec) with (z * 10 ^ Z.of_nat prec * 2) by ring.
      rewrite round_half_even_exact by lia. ring.
    + replace (2 ^ (- e)) with (2 * 2 ^ (- (e + 1))) by (rewrite <- Z.pow_succ_r by lia; f_equal; lia).
      rewrite <- Z.mul_assoc. apply round_half_even_scale; [lia|]. apply Z.pow_pos_nonneg; lia.
Qed.

(** A finite float in units of [10 ^ - prec]. *)
Definition scaled (prec : nat) (f : float64) : option Z :=
  match f with
  | S754_zero _ => Some 0
  | S754_finite _ m e => Some (scaled_round (Z.pos m) e prec)
  | _ => None
  end.

Definition sign_bit (f : float64) : bool :=
  match f with S754_zero s | S754_infinity s | S754_finite s _ _ => s | S754_nan => false end.

Lemma FormatFixed_scaled prec f M : scaled prec f = Some M → FormatFixed prec f = fmt_fixed (sign_bit f) M prec.
Proof. destruct f; simpl; by intros [= <-]. Qed.

Lemma scaled_float_of prec neg z e :
  0 ≤ z ≤ 2 ^ 53 → -1074 ≤ e ≤ 970 →
  scaled prec (float_of neg z e) = Some (scaled_round z e prec) ∧ sign_bit (float_of neg z e) = neg.
Proof.
  intros Hz He. destruct z as [|p|p]; [| |lia].
  - split; [|done]. cbn [float_of scaled]. f_equal. unfold scaled_round. destruct (Z.leb_spec 0 e); [done|].
    rewrite Z.mul_0_l. symmetry. apply round_half_even_unique; simpl; apply Z.pow_pos_nonneg; lia.
  - unfold float_of. destruct (Z.eqb_spec (Z.pos p) (2 ^ 53)) as [E|]; [|by rewrite (proj2 (Z.leb_le e 971)) by lia].
    rewrite (proj2 (Z.leb_le (e + 1) 971)) by lia. split; [|done]. unfold scaled. f_equal. rewrite E.
    change (2 ^ 53) with (2 * 2 ^ 52). by rewrite scaled_round_double.
Qed.

(** A decimal of [k] digits after the point, not too large, is still that
    decimal after rounding. *)
Lemma scaled_round_decimal neg M k :
  0 ≤ M < 2 ^ 52 → (k ≤ 15)%nat →
  scaled k (round_decimal neg M (- Z.of_nat k)) = Some M ∧
  sign_bit (round_decimal neg M (- Z.of_nat k)) = neg.
Proof.
  intros HM Hk. destruct (decide (M = 0)) as [->|Hne]; [done|].
  set (D := 10 ^ Z.of_nat k). assert (0 < D) as HD by (apply Z.pow_pos_nonneg; lia).
  assert (Z.log2 D ≤ 52) as Hlog.
  { apply Z.lt_succ_r, Z.log2_lt_pow2; [done|]. apply Z.le_lt_trans with (10 ^ 15); [|done].
    apply Z.pow_le_mono_r; lia. }
  pose proof (Z.log2_nonneg D). pose proof (Z.log2_spec D HD) as [Hl1 Hl2]. rewrite Z.pow_succ_r in Hl2 by lia.
  set (b := 52 - Z.log2 D).
  destruct (rounded_error neg (M * 2 ^ 1074) D _ b HD (round_decimal_rounded neg M k ltac:(lia)))
    as (z&e&He&Hz&->&Herr); [|lia|].
  { split; [lia|]. rewrite Z.pow_add_r by lia.
    assert (2 ^ 52 = 2 ^ b * 2 ^ Z.log2 D) as E by (rewrite <- Z.pow_add_r by lia; f_equal; lia).
    assert (M < 2 ^ b * D); [|nia]. apply Z.lt_le_trans with (2 ^ 52); [lia|]. rewrite E.
    apply Z.mul_le_mono_nonneg_l; [apply Z.pow_nonneg|]; lia. }
  destruct (scaled_float_of k neg z e) as [-> ->]; [lia..|]. split; [|done]. f_equal.
  unfold scaled_round. fold D.
  rewrite (proj2 (Z.leb_gt 0 e)) by lia. apply round_half_even_unique; [apply Z.pow_pos_nonneg; lia|].
  assert (D < 2 ^ (- e)) as HDe.
  { apply Z.lt_le_trans with (2 * 2 ^ Z.log2 D); [done|]. rewrite <- Z.pow_succ_r by lia.
    apply Z.pow_le_mono_r; lia. }
  assert (2 ^ 1074 = 2 ^ (e + 1074) * 2 ^ (- e)) as E by (rewrite <- Z.pow_add_r by lia; f_equal; lia).
  set (u := 2 ^ (e + 1074)) in *. assert (0 < u) by (apply Z.pow_pos_nonneg; lia).
  rewrite E in Herr. replace (z * (u * D) - M * (u * 2 ^ (- e))) with (u * (z * D - M * 2 ^ (- e))) in Herr by ring.
  rewrite Z.abs_mul, (Z.abs_eq u) in Herr by lia. nia.
Qed.

(** So it is printed as it was read. *)
Lemma FormatFixed_round_decimal neg M k :
  0 ≤ M < 2 ^ 52 → (k ≤ 15)%nat →
  FormatFixed k (round_decimal neg M (- Z.of_nat k)) = fmt_fixed neg M k.
Proof.
  intros HM Hk. destruct (scaled_round_decimal neg M k HM Hk) as [H1 H2].
  by rewrite (FormatFixed_scaled _ _ _ H1), H2.
Qed.

(** Such a text is a number again. *)
Lemma ParseFloat_decimal neg M k :
  0 ≤ M < 2 ^ 52 → (k ≤ 15)%nat → ParseFloat (fmt_fixed neg M k) = Ok (round_decimal neg M (- Z.of_nat k)).
Proof.
  intros HM Hk. rewrite ParseFloat_fmt_fixed by lia. destruct (scaled_round_decimal neg M k HM Hk) as [H _].
  by destruct (round_decimal neg M (- Z.of_nat k)).
Qed.

(** Three digits are stable: what [%.3f] prints is read and printed as it is. *)
Lemma FormatFixed_fixpoint f M :
  scaled 3 f = Some M → 0 ≤ M < 2 ^ 52 →
  FormatFixed 3 f = fmt_fixed (sign_bit f) M 3 ∧
  ∃ t, ParseFloat (FormatFixed 3 f) = Ok t ∧ FormatFixed 3 t = FormatFixed 3 f.
Proof.
  intros Hf HM. pose proof (FormatFixed_scaled _ _ _ Hf) as E. split; [done|]. rewrite E.
  rewrite ParseFloat_decimal by lia. eexists. split; [done|]. by apply FormatFixed_round_decimal; [|lia].
Qed.
