(* ===== verification/NumberText.v ===== *)
(** * The text of numbers

    What GoFormat.v prints, seen by the scanners of Json.v: digits without a
    leading zero, valid JSON numbers, ASCII and therefore UTF-8. *)

From S2P Require Import Prelude Envelope GoStrings GoFloat FloatRound GoFormat Json.

Fixpoint all_digits (s : string) : Prop :=
  match s with EmptyString => True | String c s => is_digit c = true ∧ all_digits s end.

Lemma all_digits_app a b : all_digits a → all_digits b → all_digits (a +:+ b).
Proof. induction a as [|c a IH]; [done|]. rewrite sapp_cons. simpl. naive_solver. Qed.

Lemma pretty_char_digit (x : N) : (x < 10)%N → is_digit (pretty_N_char x) = true.
Proof.
  intros Hx. assert (x = 0 ∨ x = 1 ∨ x = 2 ∨ x = 3 ∨ x = 4 ∨ x = 5 ∨ x = 6 ∨ x = 7 ∨ x = 8 ∨ x = 9)%N
    as H by lia. by destruct_or! H; subst.
Qed.

Lemma pretty_go_digits (x : N) s : all_digits s → all_digits (pretty_N_go x s).
Proof.
  revert s. induction (N.lt_wf_0 x) as [x _ IH]. intros s Hs.
  destruct (decide (x = 0%N)) as [->|Hne]; [by rewrite pretty_N_go_0|].
  rewrite pretty_N_go_step by lia. apply IH; [apply N.div_lt; lia|].
  split; [|done]. by apply pretty_char_digit, N.mod_lt.
Qed.

(** No leading zero. *)
Lemma pretty_go_head (x : N) s : (0 < x)%N →
  ∃ c t, pretty_N_go x s = String c t ∧ byte c ≠ 0x30.
Proof.
  revert s. induction (N.lt_wf_0 x) as [x _ IH]. intros s Hx. rewrite pretty_N_go_step by lia.
  destruct (decide (x `div` 10 = 0)%N) as [E|Hne]; [|apply IH; [by apply N.div_lt|by apply N.neq_0_lt_0]].
  rewrite E, pretty_N_go_0. eexists _, _. split; [done|].
  assert (x < 10)%N as Hlt by by apply N.div_small_iff in E. rewrite N.mod_small by done.
  assert (x = 1 ∨ x = 2 ∨ x = 3 ∨ x = 4 ∨ x = 5 ∨ x = 6 ∨ x = 7 ∨ x = 8 ∨ x = 9)%N
    as H by lia. by destruct_or! H; subst.
Qed.

Lemma FormatInt_digits z : 0 ≤ z →
  all_digits (FormatInt z) ∧ ∃ c t, FormatInt z = String c t ∧ (byte c = 0x30 → t = ""%string).
Proof.
  intros Hz. destruct z as [|p|p]; [| |lia].
  - split; [done|]. by eexists _, _.
  - unfold FormatInt. change (pretty (Z.pos p)) with (pretty (N.pos p)). unfold pretty, pretty_N.
    rewrite decide_False by done. split; [by apply pretty_go_digits|].
    destruct (pretty_go_head (N.pos p) "") as (c&t&->&Hc); [done|]. by exists c, t.
Qed.

Lemma fixed_digits_digits k r : all_digits (fixed_digits k r).
Proof.
  induction k as [|k IH]; [done|]. split; [|done]. unfold digit_char.
  pose proof (Z.mod_pos_bound (r / 10 ^ Z.of_nat k) 10). apply pretty_char_digit. lia.
Qed.

Lemma span_digits_all d rest :
  all_digits d → match rest with EmptyString => True | String c _ => is_digit c = false end →
  span_digits (d +:+ rest) = (d, rest).
Proof.
  intros Hd Hr. induction d as [|c d IH].
  - rewrite sapp_nil. destruct rest as [|c rest]; [done|]. cbn [span_digits]. by rewrite Hr.
  - destruct Hd as [Hc Hd]. rewrite sapp_cons. cbn [span_digits]. by rewrite Hc, IH.
Qed.

Lemma is_number_fmt_fixed neg M k : 0 ≤ M → is_number (fmt_fixed neg M k) = true.
Proof.
  intros HM. unfold is_number. apply bool_decide_eq_true. unfold fmt_fixed.
  set (i := FormatInt (M / 10 ^ Z.of_nat k)).
  set (f := match k with O => "" | S _ => "." +:+ fixed_digits k M end).
  destruct (FormatInt_digits (M / 10 ^ Z.of_nat k)) as (Hi&c&t&E&Hc); [apply Z.div_pos; lia|]. fold i in Hi, E.
  assert (scan_frac f = Some (f, "")) as Hf.
  { unfold f. destruct k as [|k]; [done|]. change ("." +:+ ?s) with (String "." s). unfold scan_frac.
    change (byte "." =? 0x2e) with true. cbv iota. unfold digits1.
    rewrite <- (sapp_nil_r (fixed_digits (S k) M)) at 1.
    by rewrite span_digits_all by (done || apply fixed_digits_digits). }
  assert (scan_int (i +:+ f) = Some (i, f)) as Hint.
  { rewrite E in *. destruct Hi as [Hd Ht]. rewrite sapp_cons. unfold scan_int.
    destruct (Z.eqb_spec (byte c) 0x30) as [E0|]; [by rewrite (Hc E0)|]. unfold digits1. rewrite <- sapp_cons.
    rewrite span_digits_all; [done|done|]. unfold f. by destruct k. }
  unfold scan_number. assert (scan_minus ((if neg then "-" else "") +:+ i +:+ f) = (if neg then "-" else "", i +:+ f)) as ->.
  { destruct neg; [done|]. rewrite sapp_nil, E, sapp_cons. unfold scan_minus.
    rewrite E in Hi. destruct Hi as [Hd _]. unfold is_digit, in_range in Hd.
    by rewrite (proj2 (Z.eqb_neq (byte c) 0x2d)) by lia. }
  cbv iota. rewrite Hint. cbn [mbind option_bind]. rewrite Hf. cbn [mbind option_bind scan_exp].
  by rewrite sapp_nil_r.
Qed.

Lemma all_digits_ascii s : all_digits s → ascii_text s = true.
Proof.
  induction s as [|c s IH]; [done|]. intros [Hc Hs]. simpl. rewrite IH by done.
  unfold is_digit, in_range in Hc. lia.
Qed.

Lemma fmt_fixed_ascii neg M k : 0 ≤ M → ascii_text (fmt_fixed neg M k) = true.
Proof.
  intros HM. unfold fmt_fixed. rewrite !ascii_text_app.
  rewrite (all_digits_ascii (FormatInt _)) by (apply FormatInt_digits, Z.div_pos; lia).
  pose proof (all_digits_ascii _ (fixed_digits_digits k M)) as Hk.
  assert (ascii_text (match k with O => "" | S _ => "." +:+ fixed_digits k M end) = true) as ->
    by (destruct k; [done|by rewrite ascii_text_app, Hk]).
  by destruct neg.
Qed.

Lemma FormatFloat_utf8 f : valid_binary 53 1024 f = true → utf8 (FormatFloat f).
Proof.
  intros Hf. apply ascii_text_utf8. destruct f as [neg|[]| |neg m e]; try done.
  - by apply fmt_fixed_ascii.
  - unfold FormatFloat. destruct (exact_decimal (Z.pos m) e) as [M k] eqn:E.
    assert (reads_back m e (strip M k)) as H by by apply exact_decimal_reads.
    set (dp := Z.of_nat (String.length (FormatInt M)) - Z.of_nat k).
    destruct (shortest_reads 800 m e M k dp 0 H) as [HM _].
    destruct (shortest 800 m e M (Z.of_nat k) dp 0) as [M' k']. simpl in HM.
    apply fmt_fixed_ascii. lia.
Qed.

