(* ===== verification/Metrics.v ===== *)
(** * The metrics registry

    Models what the program asks of its metrics registry: [NewCounter] and
    [NewGauge] of the vendored code.cloudfoundry.org/go-metric-registry
    (prometheus.go) over [Register] of the vendored Prometheus client, and the
    metrics each command registers, in the order it does.  The registry refuses a
    metric whose name is taken with another help text or other labels, and the
    command then panics; a metric whose name and labels are taken is handed out
    again, so that two parts of a program write to one counter.

    The theorem shows that no command panics here, and that a metric has one
    writer, except the failures of the batched clients of a node's peers.

    Prometheus compares hashes of names, help texts and labels; the model compares
    the values.  The collectors of [RegisterDebugMetrics] are a flag: their names
    start with [go_] and [process_]. *)

From S2P Require Import Prelude Envelope GoStrings Json NumberText.

(** ** The registry *)
Inductive Kind := KCounter | KGauge.

#[export] Instance Kind_eq_dec : EqDecision Kind.
Proof. solve_decision. Defined.

Record Collector := mkCollector {
  kind : Kind; fqName : string; help : string; constLabels : gmap string string }.

#[export] Instance Collector_eq_dec : EqDecision Collector.
Proof. solve_decision. Defined.

(** What makes a collector the same as another: [desc.id]. *)
Definition desc_id (c : Collector) : string * gmap string string := (fqName c, constLabels c).
(** What must agree between collectors of a name: [desc.dimHash]. *)
Definition dimensions (c : Collector) : string * gset string := (help c, dom (constLabels c)).

(** [utf8.ValidString]. *)
Fixpoint ValidString (s : string) : bool :=
  match s with
  | EmptyString => true
  | String a s1 =>
      if byte a <? 0x80 then ValidString s1
      else match s1 with
           | String b s2 =>
               if utf8_2 a b then ValidString s2
               else match s2 with
                    | String c s3 =>
                        if utf8_3 a b c then ValidString s3
                        else match s3 with
                             | String d s4 => utf8_4 a b c d && ValidString s4
                             | EmptyString => false
                             end
                    | EmptyString => false
                    end
           | EmptyString => false
           end
  end.

Definition valid_name (s : string) : bool := bool_decide (s ≠ ""%string) && ValidString s.
Definition checkLabelName (l : string) : bool := valid_name l && negb (String.prefix "__" l).

(** [NewDesc] found no error. *)
Definition valid (c : Collector) : bool :=
  valid_name (fqName c) &&
  bool_decide (map_Forall (λ l v, Is_true (checkLabelName l && ValidString v)) (constLabels c)).

(** A handle is the place of a collector.  Counters and gauges have one descriptor each. *)
Abbreviation Registry := (list Collector).
Inductive registration := Registered (r : Registry) | AlreadyRegistered (existing : nat) | Refused (err : string).

Definition Register (r : Registry) (c : Collector) : registration :=
  if negb (valid c) then Refused "descriptor is invalid"
  else
    match list_find (λ x, fqName x = fqName c) r with
    | Some (_, x) =>
        if decide (dimensions x = dimensions c) then
          match list_find (λ x, desc_id x = desc_id c) r with
          | Some (i, _) => AlreadyRegistered i
          | None => Registered (r ++ [c])
          end
        else Refused "different label names or a different help string"
    | None => Registered (r ++ [c])
    end.

Definition registerCollector (r : Registry) (c : Collector) : outcome (Registry * nat) :=
  match Register r c with
  | Registered r' => Done (r', length r)
  | AlreadyRegistered i => Done (r, i)
  | Refused _ => Panic
  end.

(** [NewCounter] and [NewGauge]: a counter is no [Gauge], which has [Set] too. *)
Definition New (r : Registry) (c : Collector) : outcome (Registry * nat) :=
  '(r, i) ← registerCollector r c;
  match kind c, kind <$> (r !! i) with
  | KGauge, Some KCounter => Panic
  | _, _ => Done (r, i)
  end.

Fixpoint register_all (r : Registry) (l : list Collector) : outcome (Registry * list nat) :=
  match l with
  | [] => Done (r, [])
  | c :: l => '(r, i) ← New r c; '(r, hs) ← register_all r l; Done (r, i :: hs)
  end.

(** [WithMetricLabels]. *)
Definition Counter (name help : string) (labels : gmap string string) : Collector :=
  mkCollector KCounter name help labels.
Definition Gauge (name help : string) (labels : gmap string string) : Collector :=
  mkCollector KGauge name help labels.
Definition unit_label (u : string) : gmap string string := {[ "unit"%string := u ]}.

(** ** The metrics of the commands *)
Definition uptime_metrics : list Collector :=
  [Gauge "log_cache_uptime" "Time since log cache started." (unit_label "seconds")].

(** internal/cache/memory_analyzer.go *)
Definition memory_metrics (memoryLimit : Z) : list Collector :=
  (if memoryLimit =? 0
   then [Gauge "log_cache_available_system_memory" "Current system memory available." (unit_label "bytes")] else []) ++
  [Gauge "log_cache_heap_in_use_memory" "Current heap memory usage." (unit_label "bytes");
   Gauge "log_cache_total_system_memory" "Total system memory." (unit_label "bytes")].

(** internal/cache/store/store.go, [registerMetrics] *)
Definition store_metrics : list Collector :=
  [Counter "log_cache_expired" "total_expired_envelopes" ∅;
   Gauge "log_cache_cache_period" "Cache period in milliseconds. Calculated as the difference between the oldest envelope timestamp and now." (unit_label "milliseconds");
   Counter "log_cache_ingress" "Total envelopes ingressed." ∅;
   Counter "log_cache_egress" "Total envelopes retrieved from the store." ∅;
   Gauge "log_cache_store_size" "Current number of envelopes in the store." (unit_label "entries");
   Gauge "log_cache_truncation_duration" "Duration of last truncation in milliseconds." (unit_label "milliseconds");
   Gauge "log_cache_memory_utilization" "Percentage of system memory in use by log cache. Calculated as heap memory in use divided by system memory." (unit_label "percentage")].

(** internal/cache/log_cache.go: two for each peer that was dialed. *)
Definition send_failures : Collector :=
  Counter "log_cache_send_failures" "Total number of envelope batches that failed to send to other log-cache nodes."
    {[ "sender"%string := "batched_ingress_client"%string ]}.
Definition ingress_dropped (i : nat) : Collector :=
  Counter "ingress_dropped" "Total number of envelopes dropped." {[ "nodeIndex"%string := FormatInt (Z.of_nat i) ]}.
Definition peer_metrics (i : nat) : list Collector := [ingress_dropped i; send_failures].

(** internal/promql/promql.go, [New] *)
Definition promql_metrics : list Collector :=
  [Counter "log_cache_promql_timeout" "Total number of errors while executing queries." ∅;
   Gauge "log_cache_promql_instant_query_time" "Duration of last instant query in milliseconds." (unit_label "milliseconds");
   Gauge "log_cache_promql_range_query_time" "Duration of last range query in milliseconds." (unit_label "milliseconds")].

(** The peers of a node: those at other places that could be dialed. *)
Definition dialed_peers (dial_fails : string → bool) (nodeAddrs : list string) (nodeIndex : Z) : list nat :=
  (filter (λ p, Z.of_nat p.1 ≠ nodeIndex ∧ dial_fails p.2 = false) (imap pair nodeAddrs)).*1.

Definition log_cache_metrics (memoryLimit : Z) (peers : list nat) : list Collector :=
  uptime_metrics ++ memory_metrics memoryLimit ++ store_metrics ++ (peers ≫= peer_metrics) ++ promql_metrics.

(** internal/syslog/server.go and internal/nozzle/nozzle.go *)
Definition syslog_metrics : list Collector :=
  [Counter "ingress" "Total syslog messages ingressed successfully." ∅;
   Counter "invalid_ingress" "Total number of syslog messages unable to be converted to valid envelopes." ∅].
Definition nozzle_metrics : list Collector :=
  [Counter "nozzle_ingress" "Total envelopes ingressed." ∅;
   Counter "nozzle_egress" "Total envelopes written to log cache." ∅;
   Counter "nozzle_err" "Total errors while egressing to log cache." ∅].
Definition syslog_server_metrics : list Collector := syslog_metrics ++ nozzle_metrics.

(** internal/auth/capi_client.go *)
Definition cf_auth_proxy_metrics : list Collector :=
  [Gauge "cf_auth_proxy_last_capiv3_apps_latency" "Duration of last v3 apps CAPI request in nanoseconds." (unit_label "nanoseconds");
   Gauge "cf_auth_proxy_last_capiv3_list_service_instances_latency" "Duration of last v3 list service instances CAPI request in nanoseconds." (unit_label "nanoseconds");
   Gauge "cf_auth_proxy_last_capiv3_apps_by_name_latency" "Duration of last v3 apps by name CAPI request in nanoseconds." (unit_label "nanoseconds")].

(** ** Registration succeeds *)
Definition schema := gmap string (Kind * (string * gset string)).
Definition fits (sch : schema) (c : Collector) : Prop :=
  valid c = true ∧ sch !! fqName c = Some (kind c, dimensions c).
#[export] Instance fits_dec sch c : Decision (fits sch c).
Proof. unfold fits. apply _. Defined.

(** Handles are places of collectors with the identity asked for. *)
Definition handed (r : Registry) (h : nat) (c : Collector) : Prop := ∃ x, r !! h = Some x ∧ desc_id x = desc_id c.

Lemma New_fits sch r c : Forall (fits sch) r → NoDup (desc_id <$> r) → fits sch c →
  ∃ r' h, New r c = Done (r', h) ∧ r `prefix_of` r' ∧ Forall (fits sch) r' ∧ NoDup (desc_id <$> r') ∧ handed r' h c.
Proof.
  intros Hr Hnd [Hv Hc]. unfold New, registerCollector, Register. rewrite Hv. cbn [negb].
  assert (list_find (λ x, desc_id x = desc_id c) r = None →
    ∃ r' h, ('(r', i) ← Done (r ++ [c], length r); match kind c, kind <$> (r' !! i) with
       | KGauge, Some KCounter => Panic | _, _ => Done (r', i) end) = Done (r', h) ∧
      r `prefix_of` r' ∧ Forall (fits sch) r' ∧ NoDup (desc_id <$> r') ∧ handed r' h c) as Hnew.
  { intros Hn. assert ((r ++ [c]) !! length r = Some c) as El by by apply list_lookup_middle.
    exists (r ++ [c]), (length r). cbn [mbind outcome_bind]. rewrite El. cbn [fmap option_fmap option_map].
    split_and!; [by destruct (kind c)|by eexists|apply Forall_app; by repeat constructor| |by exists c].
    rewrite fmap_app. apply NoDup_app. split_and!; [done| |apply NoDup_singleton].
    intros k (x&->&Hx)%list_elem_of_fmap Hk%list_elem_of_singleton.
    eapply list_find_None in Hn. rewrite Forall_forall in Hn. by eapply Hn. }
  destruct (list_find (λ x, fqName x = fqName c) r) as [[j x]|] eqn:Ej.
  - apply list_find_Some in Ej as (Hx&En&_). pose proof (Forall_lookup_1 _ _ _ _ Hr Hx) as [_ Hs].
    rewrite En, Hc in Hs.
    rewrite decide_True by congruence.
    destruct (list_find (λ x, desc_id x = desc_id c) r) as [[i y]|] eqn:Ei; [|by apply Hnew].
    apply list_find_Some in Ei as (Hy&Eid&_). pose proof (Forall_lookup_1 _ _ _ _ Hr Hy) as [_ Hy'].
    assert (fqName y = fqName c) as En' by by injection Eid. rewrite En', Hc in Hy'.
    assert (kind y = kind c) as Hk by congruence.
    exists r, i. cbn [mbind outcome_bind]. rewrite Hy. cbn [fmap option_fmap option_map]. rewrite Hk.
    split_and!; [by destruct (kind c)|done..|by exists y].
  - apply Hnew. apply list_find_None. apply list_find_None in Ej. eapply Forall_impl; [exact Ej|].
    intros x Hx Hid. apply Hx. by injection Hid.
Qed.

Lemma register_all_fits sch r l : Forall (fits sch) r → NoDup (desc_id <$> r) → Forall (fits sch) l →
  ∃ r' hs, register_all r l = Done (r', hs) ∧ r `prefix_of` r' ∧ NoDup (desc_id <$> r') ∧ Forall2 (handed r') hs l.
Proof.
  intros Hr Hnd Hl. revert r Hr Hnd. induction Hl as [|c l Hc _ IH]; intros r Hr Hnd; cbn [register_all].
  { exists r, []. by split_and!. }
  destruct (New_fits sch r c Hr Hnd Hc) as (r1&h&->&Hp1&Hr1&Hnd1&x&Hx&Hid).
  destruct (IH r1 Hr1 Hnd1) as (r2&hs&E&Hp2&Hnd2&Hhs). cbn [mbind outcome_bind]. rewrite E.
  exists r2, (h :: hs). split_and!; [done|by etrans|done|]. constructor; [|done]. exists x.
  split; [|done]. by eapply prefix_lookup_Some.
Qed.

(** A collector has one handle. *)
Lemma handed_place r h h' c : NoDup (desc_id <$> r) → handed r h c → handed r h' c → h = h'.
Proof.
  intros Hnd (x&Hx&Hi) (y&Hy&Hj). apply (NoDup_lookup (desc_id <$> r) h h' (desc_id c) Hnd);
    rewrite list_lookup_fmap, ?Hx, ?Hy; cbn [fmap option_fmap option_map]; congruence.
Qed.

(** The handles of the collectors that satisfy [P]. *)
Definition handles_of (P : Collector → Prop) `{∀ c, Decision (P c)} (hs : list nat) (l : list Collector) : list nat :=
  (filter (λ p, P p.2) (zip hs l)).*1.

Lemma handles_of_cons (P : Collector → Prop) `{∀ c, Decision (P c)} h c hs l :
  handles_of P (h :: hs) (c :: l) = if decide (P c) then h :: handles_of P hs l else handles_of P hs l.
Proof. unfold handles_of. cbn [zip zip_with]. rewrite filter_cons. cbn [snd]. by case_decide. Qed.

Lemma elem_of_handles (P : Collector → Prop) `{∀ c, Decision (P c)} r hs l h :
  Forall2 (handed r) hs l → h ∈ handles_of P hs l → ∃ c, c ∈ l ∧ P c ∧ handed r h c.
Proof.
  intros Hf (p&->&Hp)%list_elem_of_fmap. apply list_elem_of_filter in Hp as [HP Hp]. destruct p as [h' c].
  apply list_elem_of_lookup_1 in Hp as (i&Hi). apply lookup_zip_Some in Hi as [Hh Hc].
  exists c. split_and!; [by eapply list_elem_of_lookup_2|done|]. by eapply Forall2_lookup_lr.
Qed.

Lemma handed_inj r h c c' : handed r h c → handed r h c' → desc_id c = desc_id c'.
Proof. intros (x&Hx&<-) (y&Hy&<-). congruence. Qed.

(** The identity of a collector of a schema is all of it. *)
Lemma fits_id sch c c' : fits sch c → sch !! fqName c' = Some (kind c', dimensions c') → desc_id c = desc_id c' → c = c'.
Proof.
  intros [_ Hc] Hc' [= En El]. rewrite En, Hc' in Hc. destruct c, c'. unfold dimensions in Hc. cbn in *. congruence.
Qed.

(** Collectors of different identities have handles of their own. *)
Lemma NoDup_handles (P : Collector → Prop) `{∀ c, Decision (P c)} r hs l :
  Forall2 (handed r) hs l → NoDup (desc_id <$> filter P l) → NoDup (handles_of P hs l).
Proof.
  intros Hf. induction Hf as [|h c hs l Hh Hf IH]; [intros _; apply NoDup_nil_2|].
  rewrite handles_of_cons, filter_cons. case_decide as HP; [|done]. rewrite fmap_cons.
  intros [Hn Hnd]%NoDup_cons. apply NoDup_cons. split; [|by apply IH]. intros Hin. apply Hn.
  destruct (elem_of_handles P r hs l h Hf Hin) as (c'&Hc&HP'&Hh').
  rewrite (handed_inj _ _ _ _ Hh Hh'). apply list_elem_of_fmap. exists c'. split; [done|].
  by apply list_elem_of_filter.
Qed.

(** ** The node's metrics *)
Definition node_schema : schema :=
  list_to_map ((λ c, (fqName c, (kind c, dimensions c))) <$> log_cache_metrics 0 [0%nat]).

Lemma FormatInt_valid i : ValidString (FormatInt (Z.of_nat i)) = true.
Proof.
  assert (∀ s, ascii_text s = true → ValidString s = true) as H.
  { induction s as [|c s IH]; [done|]. cbn [ascii_text ValidString]. by intros [-> Hs%IH]%andb_true_iff. }
  apply H, all_digits_ascii, FormatInt_digits. lia.
Qed.

Lemma ingress_dropped_fits i : fits node_schema (ingress_dropped i).
Proof.
  split.
  - unfold valid. apply andb_true_iff. split; [done|]. apply bool_decide_eq_true, map_Forall_singleton.
    rewrite FormatInt_valid. done.
  - change (dimensions (ingress_dropped i)) with
      (help (ingress_dropped 0), dom ({[ "nodeIndex"%string := FormatInt (Z.of_nat i) ]} : gmap string string) : gset string).
    rewrite dom_singleton_L. vm_eq.
Qed.

Lemma node_metrics_fit limit peers : Forall (fits node_schema) (log_cache_metrics limit peers).
Proof.
  assert (∀ l, forallb (λ c, bool_decide (fits node_schema c)) l = true → Forall (fits node_schema) l) as Hdec.
  { intros l H. apply Forall_forall. intros c Hc. rewrite forallb_forall in H.
    eapply bool_decide_eq_true_1, H. by apply list_elem_of_In. }
  unfold log_cache_metrics. rewrite !Forall_app. split_and!.
  - apply Hdec. vm_eq.
  - apply Hdec. unfold memory_metrics. destruct (limit =? 0); vm_eq.
  - apply Hdec. vm_eq.
  - induction peers as [|i peers IH]; [constructor|]. rewrite bind_cons. apply Forall_app_2; [|done].
    constructor; [apply ingress_dropped_fits|]. apply Hdec. vm_eq.
  - apply Hdec. vm_eq.
Qed.

Definition own (c : Collector) : Prop := c ≠ send_failures.
#[export] Instance own_dec c : Decision (own c).
Proof. unfold own. apply _. Defined.

Lemma filter_peers peers : filter own (peers ≫= peer_metrics) = ingress_dropped <$> peers.
Proof.
  induction peers as [|i peers IH]; [done|]. rewrite bind_cons, filter_app, IH, fmap_cons.
  unfold peer_metrics. rewrite filter_cons_True by done. by rewrite filter_cons_False by (intros H; by apply H).
Qed.

Lemma node_metrics_distinct limit peers : NoDup peers →
  NoDup (desc_id <$> filter own (log_cache_metrics limit peers)).
Proof.
  intros Hp. unfold log_cache_metrics. rewrite !filter_app, filter_peers.
  assert (NoDup (desc_id <$> (ingress_dropped <$> peers))) as Hd.
  { rewrite <- list_fmap_compose. apply NoDup_fmap_2; [|done]. intros i j H%(f_equal snd).
    change (({[ "nodeIndex"%string := FormatInt (Z.of_nat i) ]} : gmap string string) =
      {[ "nodeIndex"%string := FormatInt (Z.of_nat j) ]}) in H.
    apply (f_equal (λ m : gmap string string, m !! "nodeIndex"%string)) in H. rewrite !lookup_singleton_eq in H.
    injection H as H%(inj pretty). lia. }
  assert (∀ c, c ∈ ingress_dropped <$> peers → fqName c = "ingress_dropped"%string) as Hn
    by (by intros c (i&->&_)%list_elem_of_fmap).
  revert Hd Hn. generalize (ingress_dropped <$> peers). intros ps Hd Hn.
  assert (filter own uptime_metrics ++ filter own (memory_metrics limit) ++ filter own store_metrics ++ ps ++
    filter own promql_metrics ≡ₚ ps ++ (uptime_metrics ++ memory_metrics limit ++ store_metrics ++ promql_metrics)) as ->.
  { assert (filter own uptime_metrics = uptime_metrics ∧ filter own (memory_metrics limit) = memory_metrics limit ∧
      filter own store_metrics = store_metrics ∧ filter own promql_metrics = promql_metrics) as (->&->&->&->).
    { unfold memory_metrics. destruct (limit =? 0); split_and!; vm_eq. }
    solve_Permutation. }
  rewrite fmap_app. apply NoDup_app. split; [done|].
  set (rest := uptime_metrics ++ memory_metrics limit ++ store_metrics ++ promql_metrics).
  assert (NoDup (desc_id <$> rest) ∧ Forall (λ c, fqName c ≠ "ingress_dropped"%string) rest) as [Hr Hf].
  { apply (bool_decide_eq_true_1 _). unfold rest, memory_metrics. destruct (limit =? 0); vm_eq. }
  split; [|done]. intros k (c&->&Hc)%list_elem_of_fmap (x&Hid&Hx)%list_elem_of_fmap.
  rewrite Forall_forall in Hf. apply (Hf x Hx). rewrite <- (Hn c Hc). by injection Hid.
Qed.

(** The metrics of a command are registered without a panic, each for itself.  A
    node registers those of its memory analyzer, store, querier and peers, whatever
    its limit and its peers; no two of them are one collector, except that all
    peers count failed batches on a single one, which no other part uses.  The
    syslog server's five and the auth proxy's three are all different. *)
Theorem metrics_register limit dial_fails nodeAddrs nodeIndex :
  let l := log_cache_metrics limit (dialed_peers dial_fails nodeAddrs nodeIndex) in
  (∃ r hs, register_all [] l = Done (r, hs) ∧ length hs = length l ∧ NoDup (handles_of own hs l) ∧
     (∀ h, h ∈ handles_of (λ c, ¬ own c) hs l → (h ∉ handles_of own hs l) ∧
       (∀ h', h' ∈ handles_of (λ c, ¬ own c) hs l → h' = h))) ∧
  register_all [] syslog_server_metrics = Done (syslog_server_metrics, seq 0 5) ∧
  register_all [] cf_auth_proxy_metrics = Done (cf_auth_proxy_metrics, seq 0 3).
Proof.
  intros l. split; [|split; vm_eq].
  assert (NoDup (dialed_peers dial_fails nodeAddrs nodeIndex)) as Hp.
  { unfold dialed_peers. eapply sublist_NoDup; [|apply fmap_sublist, sublist_filter].
    rewrite fmap_imap. apply NoDup_alt. intros i j x. rewrite !list_lookup_imap. intros (?&_&[= <-])%fmap_Some (?&_&[= ->])%fmap_Some. done. }
  destruct (register_all_fits node_schema [] l) as (r&hs&E&_&Hnd&Hh);
    [constructor|apply NoDup_nil_2|apply node_metrics_fit|].
  exists r, hs. split_and!; [done|by eapply Forall2_length|by eapply NoDup_handles, node_metrics_distinct|].
  intros h (c&_&Hc&Hx)%(elem_of_handles _ r); [|done]. apply dec_stable in Hc as ->. split.
  - intros (c'&Hin&Hown&Hx')%(elem_of_handles _ r); [|done]. apply Hown, (fits_id node_schema);
      [by eapply Forall_forall; [apply node_metrics_fit|]|vm_eq|by eapply handed_inj].
  - intros h' (c'&_&Hc'&Hx')%(elem_of_handles _ r); [|done]. apply dec_stable in Hc' as ->.
    apply (handed_place r h' h send_failures); done.
Qed.
