(* ===== verification/Matchers.v ===== *)
(** * The matcher of the tests for metrics

    Models internal/matchers/contain_metric.go: a gomega matcher that looks for a
    metric of a name, a value and perhaps a unit in what a registry gathers.  The
    generated messages of Prometheus are records whose fields may be unset, with
    the getters the matcher uses; gathering and the printing of a family are
    parameters. *)

From S2P Require Import Prelude Envelope GoStrings GoFloat GoFormat.

Record LabelPair := mkLabel { Label_Name : option string; Label_Value : option string }.
Record Metric := mkMetric {
  Label : list LabelPair;
  Metric_Gauge : option (option float64);
  Metric_Counter : option (option float64);
}.
Record MetricFamily := mkFamily { Family_Name : option string; Family_Metric : list Metric }.

Definition GetName (f : MetricFamily) : string := default ""%string (Family_Name f).
Definition GetLabelName (l : LabelPair) : string := default ""%string (Label_Name l).
Definition GetLabelValue (l : LabelPair) : string := default ""%string (Label_Value l).
Definition GetValue (v : option (option float64)) : float64 := default (S754_zero false) (default None v).

Record containMetricMatcher := mkMatcher {
  expectedName : string;
  expectedValue : float64;
  expectedUnit : string;
  valueExtractor : Metric → float64;
}.

Definition ContainCounterMetric (expectedName : string) (expectedValue : float64) : containMetricMatcher :=
  mkMatcher expectedName expectedValue "" (λ m, GetValue (Metric_Counter m)).
Definition ContainGaugeMetric (expectedName expectedUnit : string) (expectedValue : float64) : containMetricMatcher :=
  mkMatcher expectedName expectedValue expectedUnit (λ m, GetValue (Metric_Gauge m)).

(** What a test hands to the matcher. *)
Inductive Actual :=
| ARegistry (gathered : result string (list MetricFamily))
| AFamilies (families : gmap string MetricFamily)
| AOther (printed : string).

Section Matching.
(** The order in which Go visits a map, and [%+v] of a family. *)
Variable visit : gmap string MetricFamily → list (string * MetricFamily).
Variable print_family : MetricFamily → string.

Definition normalizeMetrics (actual : Actual) : result string (list MetricFamily) :=
  match actual with
  | ARegistry gathered => gathered
  | AFamilies m => Ok (visit m).*2
  | AOther printed => Err ("unexpected actual: " +:+ printed)
  end.

Fixpoint unit_loop (unit : string) (ls : list LabelPair) : bool :=
  match ls with
  | [] => false
  | l :: ls =>
      if bool_decide (GetLabelName l = "unit"%string ∧ GetLabelValue l = unit) then true else unit_loop unit ls
  end.

Fixpoint metric_loop (matcher : containMetricMatcher) (ms : list Metric) : bool :=
  match ms with
  | [] => false
  | metric :: ms =>
      if negb (SFeqb (valueExtractor matcher metric) (expectedValue matcher)) then metric_loop matcher ms
      else if bool_decide (expectedUnit matcher ≠ ""%string) then
        if unit_loop (expectedUnit matcher) (Label metric) then true else metric_loop matcher ms
      else true
  end.

Fixpoint family_loop (matcher : containMetricMatcher) (fs : list MetricFamily) : bool :=
  match fs with
  | [] => false
  | family :: fs =>
      if negb (bool_decide (GetName family = expectedName matcher)) then family_loop matcher fs
      else if metric_loop matcher (Family_Metric family) then true else family_loop matcher fs
  end.

Definition Match (matcher : containMetricMatcher) (actual : Actual) : result string bool :=
  metrics ← normalizeMetrics actual; Ok (family_loop matcher metrics).

(** The two messages differ in the negation. *)
Definition failure_message (not : string) (matcher : containMetricMatcher) (actual : Actual) : string :=
  let nl := String (ascii_of_nat 10) "" in
  let tab := String (ascii_of_nat 9) "" in
  match normalizeMetrics actual with
  | Err _ =>
      "Expected registry " +:+ not +:+ "to contain the metric" +:+ nl +:+ tab +:+ expectedName matcher +:+ ": " +:+
      FormatFixed 6 (expectedValue matcher)
  | Ok metrics =>
      let actualOutput := foldl (λ out a, out +:+ tab +:+ print_family a +:+ nl) ""%string metrics in
      let expectedOutput := tab +:+ "name: " +:+ expectedName matcher +:+ ", value: " +:+
        FormatFixed 6 (expectedValue matcher) in
      let expectedOutput :=
        if decide (expectedUnit matcher ≠ ""%string) then expectedOutput +:+ ", unit: " +:+ expectedUnit matcher
        else expectedOutput in
      "Expected" +:+ nl +:+ actualOutput +:+ nl +:+ not +:+ "to contain the metric " +:+ nl +:+ expectedOutput +:+ nl
  end.

Definition FailureMessage : containMetricMatcher → Actual → string := failure_message "".
Definition NegatedFailureMessage : containMetricMatcher → Actual → string := failure_message "not ".

(** ** What matches *)
Definition has_unit (unit : string) (m : Metric) : Prop :=
  ∃ l, l ∈ Label m ∧ GetLabelName l = "unit"%string ∧ GetLabelValue l = unit.

Definition expected_metric (matcher : containMetricMatcher) (m : Metric) : Prop :=
  SFeqb (valueExtractor matcher m) (expectedValue matcher) = true ∧
  (expectedUnit matcher = ""%string ∨ has_unit (expectedUnit matcher) m).

Lemma unit_loop_spec unit ls :
  unit_loop unit ls = true ↔ ∃ l, l ∈ ls ∧ GetLabelName l = "unit"%string ∧ GetLabelValue l = unit.
Proof.
  induction ls as [|l ls IH]; cbn [unit_loop]; [split; [done|]; by intros (?&?%elem_of_nil&_)|].
  setoid_rewrite elem_of_cons. case_bool_decide as H; [split; eauto|]. rewrite IH.
  split; [intros (x&?&?); eauto|]. intros (x&[->|?]&Hx); [done|eauto].
Qed.

(** The loops look for one that fits. *)
Definition fits (matcher : containMetricMatcher) (m : Metric) : bool :=
  SFeqb (valueExtractor matcher m) (expectedValue matcher) &&
  (bool_decide (expectedUnit matcher = ""%string) || unit_loop (expectedUnit matcher) (Label m)).

Lemma fits_spec matcher m : fits matcher m = true ↔ expected_metric matcher m.
Proof.
  unfold fits, expected_metric, has_unit. by rewrite andb_true_iff, orb_true_iff, bool_decide_eq_true, unit_loop_spec.
Qed.

Lemma metric_loop_fits matcher ms : metric_loop matcher ms = existsb (fits matcher) ms.
Proof.
  induction ms as [|m ms IH]; [done|]. cbn [metric_loop existsb]. rewrite IH. unfold fits.
  destruct (SFeqb _ _); [|done]. cbn [negb andb].
  destruct (decide (expectedUnit matcher = ""%string)) as [E|E].
  - by rewrite bool_decide_eq_false_2, bool_decide_eq_true_2 by (try done; intros H; by apply H).
  - rewrite bool_decide_eq_true_2, bool_decide_eq_false_2 by done. by destruct (unit_loop _ _).
Qed.

Lemma family_loop_fits matcher fs : family_loop matcher fs =
  existsb (λ f, bool_decide (GetName f = expectedName matcher) && existsb (fits matcher) (Family_Metric f)) fs.
Proof.
  induction fs as [|f fs IH]; [done|]. cbn [family_loop existsb]. rewrite IH, metric_loop_fits.
  destruct (bool_decide _); [|done]. cbn [negb andb]. by destruct (existsb _ (Family_Metric f)).
Qed.

(** A match is a metric of a family of the name, with the value and the unit if one
    is expected, wherever it stands; what cannot be gathered is an error. *)
Lemma Match_spec matcher actual :
  match normalizeMetrics actual with
  | Err err => Match matcher actual = Err err
  | Ok metrics => ∃ b, Match matcher actual = Ok b ∧
      (b = true ↔ ∃ f m, f ∈ metrics ∧ GetName f = expectedName matcher ∧
        m ∈ Family_Metric f ∧ expected_metric matcher m)
  end.
Proof.
  unfold Match. destruct (normalizeMetrics actual) as [fs|err]; [|done]. eexists. split; [done|].
  rewrite family_loop_fits, existsb_exists. setoid_rewrite andb_true_iff. setoid_rewrite bool_decide_eq_true.
  setoid_rewrite existsb_exists. setoid_rewrite fits_spec. setoid_rewrite list_elem_of_In.
  split; [intros (f&?&?&m&?&?)|intros (f&m&?&?&?&?)]; eauto 10.
Qed.
End Matching.

(** NaN is never found, not even where it stands. *)
Example NaN_never_matches visit :
  Match visit (ContainGaugeMetric "g" "" S754_nan)
    (ARegistry (Ok [mkFamily (Some "g") [mkMetric [] (Some (Some S754_nan)) None]])) = Ok false.
Proof. done. Qed.
