(* ===== verification/PromQLMessages.v ===== *)
(** * Messages of the PromQL service

    The generated protocol buffer types [PromQL_InstantQueryResult] and
    [PromQL_RangeQueryResult], shared by the querier that fills them and the
    marshaler that prints them.  As in Envelope.v a oneof is an [option], a nil
    map is the empty map and a repeated field is a list. *)

From S2P Require Import Prelude Envelope.

Record PromQL_Point := mkPromPoint { Point_Time : string; Point_Value : float64 }.
Record PromQL_Scalar := mkScalar { Scalar_Time : string; Scalar_Value : float64 }.
Record PromQL_Sample := mkPromSample {
  Sample_Metric : gmap string string; Sample_Point : option PromQL_Point }.
Record PromQL_Series := mkPromSeries {
  Series_Metric : gmap string string; Series_Points : list PromQL_Point }.
Record PromQL_Vector := mkVector { Samples : list PromQL_Sample }.
Record PromQL_Matrix := mkMatrix { Series : list PromQL_Series }.

Inductive InstantQueryResult_Result :=
| InstantQueryResult_Scalar (s : PromQL_Scalar)
| InstantQueryResult_Vector (v : PromQL_Vector)
| InstantQueryResult_Matrix (m : PromQL_Matrix).

Record PromQL_InstantQueryResult := mkInstant {
  Instant_Result : option InstantQueryResult_Result }.

(** The oneof of a range result has one case. *)
Record PromQL_RangeQueryResult := mkRange { Range_Result : option PromQL_Matrix }.

Record PromQL_InstantQueryRequest := mkInstantRequest {
  IReq_Query : string; IReq_Time : string }.
Record PromQL_RangeQueryRequest := mkRangeRequest {
  RReq_Query : string; RReq_Start : string; RReq_End : string; RReq_Step : string }.
