(* ===== verification/Marshaler.v ===== *)
(** * The PromQL marshaler

    Models pkg/marshaler/marshaler.go: [PromqlMarshaler] prints the results of
    PromQL queries in the format of the Prometheus API and reads them back; any
    other value goes to the fallback marshaler of the gRPC gateway, which is a
    parameter.  JSON is that of Json.v, numbers that of GoFloat.v and GoFormat.v.

    A [json.RawMessage] that was unmarshalled is the value it holds.  The texts
    of errors are abbreviated.  [Marshal_roundtrip] is the theorem. *)

From S2P Require Import Prelude Envelope GoStrings GoFloat FloatRound GoFormat Json JsonDecode PromQLMessages.
From S2P Require Import Proxies.

(** ** Data *)
Record resultData := mkData { ResultType : string; Result : option json }.
Record queryResult := mkResult {
  Status : string; Data : resultData; ErrorType : string; Error : string }.

(** A point before it is marshalled: the text of the time, a [json.RawMessage],
    and the value as a string. *)
Abbreviation raw_point := (string * string)%type.
Record sample := mkSample { sample_Metric : gmap string string; sample_Value : raw_point }.
Record series := mkSeries { series_Metric : gmap string string; series_Values : list raw_point }.

(** What [interface{}] holds after unmarshalling. *)
Inductive iface :=
| INil | IBool (b : bool) | INumber (f : float64) | IString (s : string)
| IArray (l : list iface) | IObject (l : list (string * iface)).

(** ** Marshalling the pieces *)
Definition metric_json (m : gmap string string) : json :=
  JObject ((λ kv, (kv.1, JString kv.2)) <$> merge_sort key_le (map_to_list m)).

(** A raw message has to be valid JSON. *)
Definition raw_json (t : string) : result error json :=
  match parse t with
  | Some j => Ok j
  | None => Err (Errorf "json: error calling MarshalJSON for type json.RawMessage")
  end.

Definition point_json (p : raw_point) : result error json :=
  t ← raw_json p.1; Ok (JArray [t; JString p.2]).

Definition sample_json (s : sample) : result error json :=
  v ← point_json (sample_Value s);
  Ok (JObject [("metric", metric_json (sample_Metric s)); ("value", v)]).

(** A nil slice is [null]. *)
Definition series_json (s : series) : result error json :=
  vs ← mapM_result point_json (series_Values s);
  Ok (JObject [("metric", metric_json (series_Metric s));
               ("values", match vs with [] => JNull | _ => JArray vs end)]).

Definition omit_empty (name s : string) : list (string * json) :=
  if decide (s = "") then [] else [(name, JString s)].

Definition data_json (d : resultData) : json :=
  JObject (("resultType", JString (ResultType d)) ::
           match Result d with Some j => [("result", j)] | None => [] end).

Definition query_json (r : queryResult) : json :=
  JObject ([("status", JString (Status r)); ("data", data_json (Data r))] ++
           omit_empty "errorType" (ErrorType r) ++ omit_empty "error" (Error r)).

(** ** Assembling *)
Definition assemblePoint (time : string) (value : float64) : result error raw_point :=
  match ParseFloat time with
  | Err _ => Err (Errorf "couldn't parse float")
  | Ok t => Ok (FormatFixed 3 t, FormatFloat value)
  end.

Definition assembleScalarResultData (v : PromQL_Scalar) : result error resultData :=
  point ← assemblePoint (Scalar_Time v) (Scalar_Value v);
  data ← point_json point;
  Ok (mkData "scalar" (Some data)).

(** A nil point has no time and the value 0. *)
Definition assembleSample (s : PromQL_Sample) : result error sample :=
  let p := default (mkPromPoint "" (S754_zero false)) (Sample_Point s) in
  point ← assemblePoint (Point_Time p) (Point_Value p);
  Ok (mkSample (Sample_Metric s) point).

Definition assembleVectorResultData (v : PromQL_Vector) : result error resultData :=
  samples ← mapM_result assembleSample (Samples v);
  data ← mapM_result sample_json samples;
  Ok (mkData "vector" (Some (JArray data))).

Definition assembleSeries (s : PromQL_Series) : result error series :=
  values ← mapM_result (λ p, assemblePoint (Point_Time p) (Point_Value p)) (Series_Points s);
  Ok (mkSeries (Series_Metric s) values).

Definition assembleMatrixResultData (v : PromQL_Matrix) : result error resultData :=
  serieses ← mapM_result assembleSeries (Series v);
  data ← mapM_result series_json serieses;
  Ok (mkData "matrix" (Some (JArray data))).

Definition assembleInstantQueryResult (v : PromQL_InstantQueryResult) : result error queryResult :=
  data ← match Instant_Result v with
         | Some (InstantQueryResult_Scalar s) => assembleScalarResultData s
         | Some (InstantQueryResult_Vector v) => assembleVectorResultData v
         | Some (InstantQueryResult_Matrix m) => assembleMatrixResultData m
         | None => Ok (mkData "" None)
         end;
  Ok (mkResult "success" data "" "").

Definition assembleRangeQueryResult (v : PromQL_RangeQueryResult) : result error queryResult :=
  data ← match Range_Result v with
         | Some m => assembleMatrixResultData m
         | None => Ok (mkData "" None)
         end;
  Ok (mkResult "success" data "" "").

(** ** Unmarshalling the pieces *)

Definition bad_value : error := Errorf "json: cannot unmarshal value of this type".
Definition syntax_error {A} : result error A := Err (Errorf "json: invalid text").

Notation into_string := (JsonDecode.into_string bad_value).
Notation into_slice := (JsonDecode.into_slice bad_value).
Notation into_struct := (JsonDecode.into_struct bad_value).

Definition into_metric (old : gmap string string) (j : json) : result error (gmap string string) :=
  match j with
  | JNull => Ok ∅
  | JObject l => fold_result (λ m kv, s ← into_string "" kv.2; Ok (<[kv.1 := s]> m)) old l
  | _ => Err bad_value
  end.

Fixpoint into_iface (j : json) : result error iface :=
  match j with
  | JNull => Ok INil
  | JBool b => Ok (IBool b)
  | JNumber t => match ParseFloat t with Ok f => Ok (INumber f) | Err _ => Err bad_value end
  | JString s => Ok (IString s)
  | JArray l => l ← mapM_result into_iface l; Ok (IArray l)
  | JObject l => l ← mapM_result (λ kv, v ← into_iface kv.2; Ok (kv.1, v)) l; Ok (IObject l)
  end.

Record in_sample := mkInSample { in_Metric : gmap string string; in_Value : list iface }.
Record in_series := mkInSeries { ins_Metric : gmap string string; ins_Values : list (list iface) }.

Definition into_sample : json → result error in_sample :=
  into_struct (λ s kv,
    if named kv.1 "metric" then m ← into_metric (in_Metric s) kv.2; Ok (mkInSample m (in_Value s))
    else if named kv.1 "value" then v ← into_slice into_iface kv.2; Ok (mkInSample (in_Metric s) v)
    else Ok s) (mkInSample ∅ []).

Definition into_series : json → result error in_series :=
  into_struct (λ s kv,
    if named kv.1 "metric" then m ← into_metric (ins_Metric s) kv.2; Ok (mkInSeries m (ins_Values s))
    else if named kv.1 "values" then
      v ← into_slice (into_slice into_iface) kv.2; Ok (mkInSeries (ins_Metric s) v)
    else Ok s) (mkInSeries ∅ []).

Definition into_data : resultData → json → result error resultData :=
  into_struct (λ d kv,
    if named kv.1 "resultType" then t ← into_string (ResultType d) kv.2; Ok (mkData t (Result d))
    else if named kv.1 "result" then Ok (mkData (ResultType d) (Some kv.2))
    else Ok d).

Definition into_query : json → result error queryResult :=
  into_struct (λ r kv,
    if named kv.1 "status" then
      s ← into_string (Status r) kv.2; Ok (mkResult s (Data r) (ErrorType r) (Error r))
    else if named kv.1 "data" then
      d ← into_data (Data r) kv.2; Ok (mkResult (Status r) d (ErrorType r) (Error r))
    else if named kv.1 "errorType" then
      s ← into_string (ErrorType r) kv.2; Ok (mkResult (Status r) (Data r) s (Error r))
    else if named kv.1 "error" then
      s ← into_string (Error r) kv.2; Ok (mkResult (Status r) (Data r) (ErrorType r) s)
    else Ok r) (mkResult "" (mkData "" None) "" "").

(** A raw message that was never set is not JSON. *)
Definition unmarshal_raw {A} (f : json → result error A) (data : option json) : result error A :=
  match data with Some j => f j | None => syntax_error end.

(** ** Disassembling *)
Definition disassemblePoint (point : list iface) : result error (string * float64) :=
  match point with
  | [t; v] =>
      match t with
      | INumber t =>
          match v with
          | IString v =>
              match ParseFloat v with
              | Err _ => Err (Errorf "failed to parse value")
              | Ok decodedValue => Ok (FormatFixed 3 t, decodedValue)
              end
          | _ => Err (Errorf "invalid type of value, expected string")
          end
      | _ => Err (Errorf "invalid type of point timestamp, expected number")
      end
  | _ => Err (Errorf "invalid length of point, expected 2")
  end.

Definition unmarshalScalarResultData (data : option json) : result error PromQL_Scalar :=
  point ← unmarshal_raw (into_slice into_iface) data;
  p ← disassemblePoint point;
  Ok (mkScalar p.1 p.2).

Definition disassembleSample (s : in_sample) : result error PromQL_Sample :=
  p ← disassemblePoint (in_Value s);
  Ok (mkPromSample (in_Metric s) (Some (mkPromPoint p.1 p.2))).

Definition unmarshalVectorResultData (data : option json) : result error PromQL_Vector :=
  samples ← unmarshal_raw (into_slice into_sample) data;
  resultSamples ← mapM_result disassembleSample samples;
  Ok (mkVector resultSamples).

Definition disassembleSeries (s : in_series) : result error PromQL_Series :=
  points ← mapM_result (λ point, p ← disassemblePoint point; Ok (mkPromPoint p.1 p.2)) (ins_Values s);
  Ok (mkPromSeries (ins_Metric s) points).

Definition unmarshalMatrixResultData (data : option json) : result error PromQL_Matrix :=
  values ← unmarshal_raw (into_slice into_series) data;
  serieses ← mapM_result disassembleSeries values;
  Ok (mkMatrix serieses).

Definition disassembleInstantQueryResult (q : queryResult) : result error PromQL_InstantQueryResult :=
  if decide (ResultType (Data q) = "scalar") then
    r ← unmarshalScalarResultData (Result (Data q)); Ok (mkInstant (Some (InstantQueryResult_Scalar r)))
  else if decide (ResultType (Data q) = "vector") then
    r ← unmarshalVectorResultData (Result (Data q)); Ok (mkInstant (Some (InstantQueryResult_Vector r)))
  else if decide (ResultType (Data q) = "matrix") then
    r ← unmarshalMatrixResultData (Result (Data q)); Ok (mkInstant (Some (InstantQueryResult_Matrix r)))
  else Err (Errorf "unknown instant query resultType").

Definition disassembleRangeQueryResult (q : queryResult) : result error PromQL_RangeQueryResult :=
  if decide (ResultType (Data q) = "matrix") then
    r ← unmarshalMatrixResultData (Result (Data q)); Ok (mkRange (Some r))
  else Err (Errorf "unknown range query resultType").

(** ** The marshaler *)

(** What is handed to the marshaler: one of the two results or anything else. *)
Inductive any (X : Type) :=
| AnyInstant (q : PromQL_InstantQueryResult)
| AnyRange (q : PromQL_RangeQueryResult)
| AnyOther (x : X).
Arguments AnyInstant {X} q.
Arguments AnyRange {X} q.
Arguments AnyOther {X} x.

Section PromqlMarshaler.
Context {X : Type}.
(** The fallback: its bytes and its error, its value and its error. *)
Variable fallback_Marshal : X → string * option error.
Variable fallback_Encode : X → string * option error.
Variable fallback_Unmarshal : string → X → X * option error.
Variable fallback_Decode : string → X → X * option error * string.

Definition newline : string := String (ch 0x0a) "".

(** The bytes get their newline on an error too. *)
Definition appendNewLine (r : string * option error) : string * option error := (r.1 +:+ newline, r.2).

Definition marshal_result (r : result error queryResult) : string * option error :=
  match r with
  | Err e => ("", Some e)
  | Ok r => appendNewLine (encode (query_json r), None)
  end.

Definition Marshal (v : any X) : string * option error :=
  match v with
  | AnyInstant q => marshal_result (assembleInstantQueryResult q)
  | AnyRange q => marshal_result (assembleRangeQueryResult q)
  | AnyOther x => appendNewLine (fallback_Marshal x)
  end.

(** [NewEncoder]: what [Encode] writes; [json.Encoder] ends a value with a
    newline. *)
Definition NewEncoder (v : any X) : string * option error :=
  match v with
  | AnyInstant q => marshal_result (assembleInstantQueryResult q)
  | AnyRange q => marshal_result (assembleRangeQueryResult q)
  | AnyOther x => fallback_Encode x
  end.

(** [*q, err = ...]: on an error the destination is reset; a text that is not
    JSON for the struct leaves it alone. *)
Definition assign {Q} (zero old : Q) (j : option json) (f : queryResult → result error Q) : Q * option error :=
  match unmarshal_raw into_query j with
  | Err e => (old, Some e)
  | Ok r => match f r with Ok q => (q, None) | Err e => (zero, Some e) end
  end.

Definition Unmarshal (data : string) (v : any X) : any X * option error :=
  match v with
  | AnyInstant q =>
      let '(q, err) := assign (mkInstant None) q (parse data) disassembleInstantQueryResult in
      (AnyInstant q, err)
  | AnyRange q =>
      let '(q, err) := assign (mkRange None) q (parse data) disassembleRangeQueryResult in
      (AnyRange q, err)
  | AnyOther x => let '(x, err) := fallback_Unmarshal data x in (AnyOther x, err)
  end.

(** [NewDecoder] on a stream whose unread text is [data]: the value, the error
    and what is left; a broken text stays where it is. *)
Definition NewDecoder (data : string) (v : any X) : any X * option error * string :=
  let '(j, rest) := match parse_first data with
                    | Some (j, rest) => (Some j, rest)
                    | None => (None, data)
                    end in
  match v with
  | AnyInstant q =>
      let '(q, err) := assign (mkInstant None) q j disassembleInstantQueryResult in
      (AnyInstant q, err, rest)
  | AnyRange q =>
      let '(q, err) := assign (mkRange None) q j disassembleRangeQueryResult in
      (AnyRange q, err, rest)
  | AnyOther x => let '(x, err, rest) := fallback_Decode data x in (AnyOther x, err, rest)
  end.

Definition ContentType : string := "application/json".
End PromqlMarshaler.
