(* ===== verification/MarshalerSpec.v ===== *)
(** * The round trip of the PromQL marshaler

    What Marshaler.v prints it reads back: the values of all points exactly, the
    metrics, and the times as they are printed, with three digits. *)

From S2P Require Import Prelude Envelope GoStrings GoFloat FloatRound GoFormat Json JsonDecode NumberText PromQLMessages.
From S2P Require Import Proxies Marshaler.

(** ** Lists of results *)
Lemma mapM_result_fmap {A B C} (P : A → Prop) (f : B → result error C) (h : A → B) (g : A → C) l :
  (∀ x, P x → f (h x) = Ok (g x)) → Forall P l → mapM_result f (h <$> l) = Ok (g <$> l).
Proof.
  intros Hf. induction 1 as [|x l Hx _ IH]; [done|]. rewrite !fmap_cons. cbn [mapM_result].
  rewrite Hf by done. cbn [mbind result_bind]. by rewrite IH.
Qed.

Lemma mapM_result_map {A C} (P : A → Prop) (f : A → result error C) (g : A → C) l :
  (∀ x, P x → f x = Ok (g x)) → Forall P l → mapM_result f l = Ok (g <$> l).
Proof. intros Hf Hl. rewrite <- (list_fmap_id l) at 1. by apply (mapM_result_fmap P). Qed.

(** ** Times *)

(** A time that is a number below 2 ^ 52 thousandths. *)
Definition time_ok (time : string) : Prop :=
  ∃ t M, ParseFloat time = Ok t ∧ scaled 3 t = Some M ∧ 0 ≤ M < 2 ^ 52.

Definition time_check (time : string) : bool :=
  match ParseFloat time with
  | Ok t => match scaled 3 t with Some M => (0 <=? M) && (M <? 2 ^ 52) | None => false end
  | Err _ => false
  end.

Lemma time_check_ok time : time_check time = true → time_ok time.
Proof.
  unfold time_check, time_ok. destruct (ParseFloat time) as [t|]; [|done].
  destruct (scaled 3 t) as [M|] eqn:E; [|done]. intros H. exists t, M. split_and!; [done..|lia|lia].
Qed.

(** The time as the API shows it. *)
Definition canonical_time (time : string) : string :=
  match ParseFloat time with Ok t => FormatFixed 3 t | Err _ => time end.

Lemma time_ok_text time : time_ok time →
  is_number (canonical_time time) = true ∧
  ∃ t', ParseFloat (canonical_time time) = Ok t' ∧ FormatFixed 3 t' = canonical_time time.
Proof.
  intros (t&M&Hp&Ht&HM). unfold canonical_time. rewrite Hp.
  destruct (FormatFixed_fixpoint t M Ht HM) as [E H]. split; [|done].
  rewrite E. apply is_number_fmt_fixed. lia.
Qed.

(** ** Points *)
Definition value_ok (v : float64) : Prop := valid_binary 53 1024 v = true.

Definition point_tree (time : string) (v : float64) : json :=
  JArray [JNumber (canonical_time time); JString (FormatFloat v)].

Lemma raw_json_number t : is_number t = true → raw_json t = Ok (JNumber t).
Proof.
  intros Ht. unfold raw_json. rewrite <- (sapp_nil_r t) at 1. change t with (encode (JNumber t)) at 1.
  by rewrite parse_encode by auto.
Qed.

Lemma assemblePoint_ok time v : time_ok time →
  ∃ rp, assemblePoint time v = Ok rp ∧ point_json rp = Ok (point_tree time v).
Proof.
  intros Ht. destruct (time_ok_text time Ht) as [Hn _]. destruct Ht as (t&M&Hp&_).
  exists (canonical_time time, FormatFloat v). unfold assemblePoint, canonical_time in *. rewrite Hp in *.
  split; [done|]. unfold point_json. simpl fst. rewrite raw_json_number by done.
  unfold point_tree, canonical_time. by rewrite Hp.
Qed.

Lemma point_tree_wf d time v : d + 1 ≤ maxNestingDepth → time_ok time → value_ok v → wf_json d (point_tree time v).
Proof.
  intros Hd Ht Hv. constructor; [done|]. apply time_ok_text in Ht as [Hn _].
  repeat constructor; [done|by apply FormatFloat_utf8].
Qed.

Lemma point_tree_back time v : time_ok time → value_ok v →
  ∃ l, into_slice into_iface (point_tree time v) = Ok l ∧ disassemblePoint l = Ok (canonical_time time, v).
Proof.
  intros Ht Hv. destruct (time_ok_text time Ht) as (_&t'&Hp&Hf).
  exists [INumber t'; IString (FormatFloat v)]. cbn [into_slice point_tree mapM_result into_iface].
  rewrite Hp. split; [done|]. cbn [disassemblePoint]. rewrite ParseFloat_FormatFloat by done. by rewrite Hf.
Qed.

(** ** Metrics *)
Definition metric_ok (m : gmap string string) : Prop := map_Forall (λ k v, utf8 k ∧ utf8 v) m.

Lemma into_metric_fold (m : gmap string string) l :
  fold_result (λ (m : gmap string string) (kv : string * json), s ← into_string "" kv.2; Ok (<[kv.1 := s]> m)) m
    ((λ kv : string * string, (kv.1, JString kv.2)) <$> l) =
  Ok (foldl (λ (m : gmap string string) kv, <[kv.1 := kv.2]> m) m l).
Proof. revert m. induction l as [|kv l IH]; intros m; [done|]. rewrite fmap_cons. cbn. by rewrite IH. Qed.

Lemma foldl_insert_list_to_map (m : gmap string string) l :
  NoDup l.*1 → foldl (λ (m : gmap string string) kv, <[kv.1 := kv.2]> m) m l = list_to_map l ∪ m.
Proof.
  revert m. induction l as [|[k v] l IH]; intros m Hnd; [symmetry; apply (map_empty_union m)|].
  rewrite fmap_cons in Hnd. apply NoDup_cons in Hnd as [Hk Hnd]. cbn [foldl fst snd].
  rewrite IH by done. cbn [list_to_map foldr]. rewrite <- insert_union_l, insert_union_r; [done|].
  by apply not_elem_of_list_to_map_1.
Qed.

Lemma into_metric_json m : into_metric ∅ (metric_json m) = Ok m.
Proof.
  unfold metric_json, into_metric. rewrite into_metric_fold.
  assert (merge_sort key_le (map_to_list m) ≡ₚ map_to_list m) as Hp by apply merge_sort_Permutation.
  rewrite foldl_insert_list_to_map by (rewrite Hp; apply NoDup_fst_map_to_list).
  rewrite map_union_empty. f_equal. rewrite (list_to_map_proper _ (map_to_list m)); [apply list_to_map_to_list| |done].
  rewrite Hp. apply NoDup_fst_map_to_list.
Qed.

Lemma metric_json_wf d m : d + 1 ≤ maxNestingDepth → metric_ok m → wf_json d (metric_json m).
Proof.
  intros Hd Hm. constructor; [done|]. rewrite Forall_fmap, merge_sort_Permutation.
  apply Forall_forall. intros [k v] Hkv%elem_of_map_to_list. destruct (Hm k v Hkv). by repeat constructor.
Qed.

(** ** Samples and series *)
Definition point_ok (p : PromQL_Point) : Prop := time_ok (Point_Time p) ∧ value_ok (Point_Value p).
Definition canonical_point (p : PromQL_Point) : PromQL_Point :=
  mkPromPoint (canonical_time (Point_Time p)) (Point_Value p).

Definition sample_ok (s : PromQL_Sample) : Prop :=
  metric_ok (Sample_Metric s) ∧ ∃ p, Sample_Point s = Some p ∧ point_ok p.
Definition canonical_sample (s : PromQL_Sample) : PromQL_Sample :=
  mkPromSample (Sample_Metric s) (canonical_point <$> Sample_Point s).

Definition series_ok (s : PromQL_Series) : Prop :=
  metric_ok (Series_Metric s) ∧ Forall point_ok (Series_Points s).
Definition canonical_series (s : PromQL_Series) : PromQL_Series :=
  mkPromSeries (Series_Metric s) (canonical_point <$> Series_Points s).

Definition point_json_of (p : PromQL_Point) : json := point_tree (Point_Time p) (Point_Value p).

Definition sample_tree (s : PromQL_Sample) : json :=
  JObject [("metric", metric_json (Sample_Metric s));
           ("value", match Sample_Point s with Some p => point_json_of p | None => JNull end)].
Definition points_tree (ps : list PromQL_Point) : json :=
  match ps with [] => JNull | _ => JArray (point_json_of <$> ps) end.
Definition series_tree (s : PromQL_Series) : json :=
  JObject [("metric", metric_json (Series_Metric s));
           ("values", points_tree (Series_Points s))].

Lemma mapM_result_compose {A B C} (f : A → result error B) (g : B → result error C) (h : A → C) l :
  Forall (λ a, ∃ b, f a = Ok b ∧ g b = Ok (h a)) l →
  ∃ bs, mapM_result f l = Ok bs ∧ mapM_result g bs = Ok (h <$> l).
Proof.
  induction 1 as [|a l (b&Hf&Hg) _ (bs&Hfs&Hgs)]; [by exists []|]. exists (b :: bs).
  cbn [mapM_result]. rewrite Hf, Hg. cbn [mbind result_bind]. by rewrite Hfs, Hgs.
Qed.

Lemma sample_assembled s : sample_ok s →
  ∃ x, assembleSample s = Ok x ∧ sample_json x = Ok (sample_tree s).
Proof.
  intros (_&p&Hp&Ht&_). destruct (assemblePoint_ok _ (Point_Value p) Ht) as (rp&E1&E2).
  unfold assembleSample, sample_tree. rewrite Hp. simpl default. rewrite E1. cbn [mbind result_bind].
  eexists. split; [done|]. unfold sample_json. simpl sample_Value. by rewrite E2.
Qed.

Lemma sample_back s : sample_ok s →
  ∃ x, into_sample (sample_tree s) = Ok x ∧ disassembleSample x = Ok (canonical_sample s).
Proof.
  intros (_&p&Hp&Ht&Hv). unfold sample_tree, into_sample, canonical_sample. rewrite Hp.
  destruct (point_tree_back _ _ Ht Hv) as (l&E1&E2). cbn [into_struct fold_result fst snd].
  change (named "metric" "metric") with true. cbv iota. cbn [in_Metric in_Value].
  rewrite into_metric_json. cbn [mbind result_bind].
  change (named "value" "metric") with false. change (named "value" "value") with true. cbv iota.
  unfold point_json_of. rewrite E1. cbn [mbind result_bind]. eexists. split; [done|].
  unfold disassembleSample. cbn [in_Value in_Metric]. by rewrite E2.
Qed.

Lemma series_assembled s : series_ok s →
  ∃ x, assembleSeries s = Ok x ∧ series_json x = Ok (series_tree s).
Proof.
  intros (_&Hps). destruct (mapM_result_compose
    (λ p, assemblePoint (Point_Time p) (Point_Value p)) point_json point_json_of (Series_Points s))
    as (rps&E1&E2).
  { eapply Forall_impl; [exact Hps|]. intros p [Ht _]. by apply assemblePoint_ok. }
  unfold assembleSeries. rewrite E1. cbn [mbind result_bind]. eexists. split; [done|].
  unfold series_json, series_tree. cbn [series_Values series_Metric]. rewrite E2.
  by destruct (Series_Points s).
Qed.

Lemma points_back ps : Forall point_ok ps →
  ∃ ls, into_slice (into_slice into_iface) (points_tree ps) = Ok ls ∧
    mapM_result (λ point, p ← disassemblePoint point; Ok (mkPromPoint p.1 p.2)) ls = Ok (canonical_point <$> ps).
Proof.
  intros Hps. destruct (mapM_result_compose (λ p, into_slice into_iface (point_json_of p))
    (λ point, p ← disassemblePoint point; Ok (mkPromPoint p.1 p.2)) canonical_point ps) as (ls&E1&E2).
  { eapply Forall_impl; [exact Hps|]. intros p [Ht Hv].
    destruct (point_tree_back _ _ Ht Hv) as (l&H1&H2). exists l. split; [done|]. by rewrite H2. }
  exists ls. split; [|done]. destruct ps as [|p ps]; [by injection E1 as <-|]. unfold into_slice at 1, points_tree.
  rewrite <- E1. clear. generalize (p :: ps). intros l. induction l as [|q l IH]; [done|].
  rewrite fmap_cons. cbn [mapM_result]. by rewrite IH.
Qed.

Lemma series_back s : series_ok s →
  ∃ x, into_series (series_tree s) = Ok x ∧ disassembleSeries x = Ok (canonical_series s).
Proof.
  intros (_&Hps). destruct (points_back _ Hps) as (ls&E1&E2). unfold series_tree, into_series.
  cbn [into_struct fold_result fst snd].
  change (named "metric" "metric") with true. cbv iota. cbn [ins_Metric ins_Values].
  rewrite into_metric_json. cbn [mbind result_bind].
  change (named "values" "metric") with false. change (named "values" "values") with true. cbv iota.
  rewrite E1. cbn [mbind result_bind]. eexists. split; [done|].
  unfold disassembleSeries. cbn [ins_Values ins_Metric]. by rewrite E2.
Qed.

(** ** Results *)
Definition instant_ok (r : InstantQueryResult_Result) : Prop :=
  match r with
  | InstantQueryResult_Scalar s => time_ok (Scalar_Time s) ∧ value_ok (Scalar_Value s)
  | InstantQueryResult_Vector v => Forall sample_ok (Samples v)
  | InstantQueryResult_Matrix m => Forall series_ok (Series m)
  end.

Definition canonical_matrix (m : PromQL_Matrix) : PromQL_Matrix := mkMatrix (canonical_series <$> Series m).

Definition canonical_instant (r : InstantQueryResult_Result) : InstantQueryResult_Result :=
  match r with
  | InstantQueryResult_Scalar s =>
      InstantQueryResult_Scalar (mkScalar (canonical_time (Scalar_Time s)) (Scalar_Value s))
  | InstantQueryResult_Vector v =>
      InstantQueryResult_Vector (mkVector (canonical_sample <$> Samples v))
  | InstantQueryResult_Matrix m => InstantQueryResult_Matrix (canonical_matrix m)
  end.

(** What a result is marshalled to: its type and its tree. *)
Definition matrix_tree (m : PromQL_Matrix) : json := JArray (series_tree <$> Series m).
Definition instant_tree (r : InstantQueryResult_Result) : string * json :=
  match r with
  | InstantQueryResult_Scalar s => ("scalar", point_tree (Scalar_Time s) (Scalar_Value s))
  | InstantQueryResult_Vector v => ("vector", JArray (sample_tree <$> Samples v))
  | InstantQueryResult_Matrix m => ("matrix", matrix_tree m)
  end.

Definition success (t : string * json) : queryResult :=
  mkResult "success" (mkData t.1 (Some t.2)) "" "".

Lemma into_query_success t : into_query (query_json (success t)) = Ok (success t).
Proof. destruct t. reflexivity. Qed.

Lemma assembled_matrix m : Forall series_ok (Series m) →
  assembleMatrixResultData m = Ok (mkData "matrix" (Some (matrix_tree m))).
Proof.
  intros H. destruct (mapM_result_compose assembleSeries series_json series_tree (Series m)) as (xs&E1&E2).
  { eapply Forall_impl; [exact H|]. apply series_assembled. }
  unfold assembleMatrixResultData. rewrite E1. cbn [mbind result_bind]. by rewrite E2.
Qed.

Lemma assembled_instant r : instant_ok r →
  assembleInstantQueryResult (mkInstant (Some r)) = Ok (success (instant_tree r)).
Proof.
  intros H. unfold assembleInstantQueryResult. cbn [Instant_Result]. destruct r as [s|v|m].
  - destruct H as [Ht Hv]. destruct (assemblePoint_ok _ (Scalar_Value s) Ht) as (rp&E1&E2).
    unfold assembleScalarResultData. rewrite E1. cbn [mbind result_bind]. by rewrite E2.
  - destruct (mapM_result_compose assembleSample sample_json sample_tree (Samples v)) as (xs&E1&E2).
    { eapply Forall_impl; [exact H|]. apply sample_assembled. }
    unfold assembleVectorResultData. rewrite E1. cbn [mbind result_bind]. by rewrite E2.
  - by rewrite assembled_matrix.
Qed.

Lemma elements_back {A B C} (P : A → Prop) (tree : A → json) (into : json → result error B)
    (f : B → result error C) (h : A → C) l :
  (∀ a, P a → ∃ x, into (tree a) = Ok x ∧ f x = Ok (h a)) → Forall P l →
  ∃ xs, into_slice into (JArray (tree <$> l)) = Ok xs ∧ mapM_result f xs = Ok (h <$> l).
Proof.
  intros Ha Hl. destruct (mapM_result_compose (λ a, into (tree a)) f h l) as (xs&E1&E2).
  { eapply Forall_impl; [exact Hl|]. exact Ha. }
  exists xs. split; [|done]. cbn [into_slice]. rewrite <- E1. clear.
  induction l as [|a l IH]; [done|]. rewrite fmap_cons. cbn [mapM_result]. by rewrite IH.
Qed.

Lemma matrix_back m : Forall series_ok (Series m) →
  unmarshalMatrixResultData (Some (matrix_tree m)) = Ok (canonical_matrix m).
Proof.
  intros H. destruct (elements_back series_ok series_tree into_series disassembleSeries canonical_series
    (Series m) series_back H) as (xs&E1&E2).
  unfold unmarshalMatrixResultData, unmarshal_raw, matrix_tree. rewrite E1. cbn [mbind result_bind].
  by rewrite E2.
Qed.

Lemma instant_back r : instant_ok r →
  disassembleInstantQueryResult (success (instant_tree r)) = Ok (mkInstant (Some (canonical_instant r))).
Proof.
  intros H. destruct r as [s|v|m]; unfold disassembleInstantQueryResult; cbn [success Data ResultType Result instant_tree fst snd].
  - rewrite decide_True by done. destruct H as [Ht Hv]. destruct (point_tree_back _ _ Ht Hv) as (l&E1&E2).
    unfold unmarshalScalarResultData, unmarshal_raw. rewrite E1. cbn [mbind result_bind]. by rewrite E2.
  - rewrite decide_False, decide_True by done.
    destruct (elements_back sample_ok sample_tree into_sample disassembleSample canonical_sample
      (Samples v) sample_back H) as (xs&E1&E2).
    unfold unmarshalVectorResultData, unmarshal_raw. rewrite E1. cbn [mbind result_bind]. by rewrite E2.
  - rewrite decide_False, decide_False, decide_True by done. by rewrite matrix_back.
Qed.

(** ** The trees have a text *)

Lemma sample_tree_wf d s : d + 2 ≤ maxNestingDepth → sample_ok s → wf_json d (sample_tree s).
Proof.
  intros Hd (Hm&p&Hp&Ht&Hv). unfold sample_tree. rewrite Hp. constructor; [lia|].
  members; [apply metric_json_wf; [lia|done]|apply point_tree_wf; [lia|done..]].
Qed.

Lemma series_tree_wf d s : d + 3 ≤ maxNestingDepth → series_ok s → wf_json d (series_tree s).
Proof.
  intros Hd (Hm&Hps). unfold series_tree. constructor; [lia|]. members.
  - apply metric_json_wf; [lia|done].
  - unfold points_tree. destruct (Series_Points s) as [|p ps]; [done|]. constructor; [lia|]. rewrite Forall_fmap.
    eapply Forall_impl; [exact Hps|]. intros q [Ht Hv]. apply point_tree_wf; [lia|done..].
Qed.

Lemma tree_wf r : instant_ok r → wf_json 2 (instant_tree r).2 ∧ utf8 (instant_tree r).1.
Proof.
  unfold maxNestingDepth. intros H. split; [|by destruct r; apply ascii_text_utf8].
  destruct r as [s|v|m]; cbn [instant_tree snd].
  - destruct H. by apply point_tree_wf.
  - constructor; [done|]. rewrite Forall_fmap. eapply Forall_impl; [exact H|]. intros s. by apply sample_tree_wf.
  - constructor; [done|]. rewrite Forall_fmap. eapply Forall_impl; [exact H|]. intros s. by apply series_tree_wf.
Qed.

Lemma query_json_wf t : wf_json 2 t.2 → utf8 t.1 → wf_json 0 (query_json (success t)).
Proof.
  intros Hj Ht. unfold query_json, data_json, success. constructor; [done|]. cbn [app].
  members; [by apply wf_string, ascii_text_utf8|]. constructor; [done|]. members; [by constructor|done].
Qed.

(** ** The marshaler *)
Section Roundtrip.
Context {X : Type} (fallback_Marshal fallback_Encode : X → string * option error).
Context (fallback_Unmarshal : string → X → X * option error).
Context (fallback_Decode : string → X → X * option error * string).

Definition result_ok (v : any X) : Prop :=
  match v with
  | AnyInstant q => from_option instant_ok False (Instant_Result q)
  | AnyRange q => from_option (λ m, Forall series_ok (Series m)) False (Range_Result q)
  | AnyOther _ => False
  end.

(** The Go types are the same. *)
Definition same_type (v w : any X) : Prop :=
  match v, w with
  | AnyInstant _, AnyInstant _ | AnyRange _, AnyRange _ | AnyOther _, AnyOther _ => True
  | _, _ => False
  end.

Definition canonical (v : any X) : any X :=
  match v with
  | AnyInstant q => AnyInstant (mkInstant (canonical_instant <$> Instant_Result q))
  | AnyRange q => AnyRange (mkRange (canonical_matrix <$> Range_Result q))
  | AnyOther x => AnyOther x
  end.

Lemma number_stop_newline rest : number_stop (newline +:+ rest).
Proof.
  split; [done|]. intros n Hn.
  repeat (apply elem_of_cons in Hn as [->|Hn]; [done|]). by apply elem_of_nil in Hn.
Qed.

Lemma assign_back {Q} (zero old q : Q) t rest f :
  wf_json 2 t.2 → utf8 t.1 → f (success t) = Ok q → number_stop rest →
  assign zero old (parse (encode (query_json (success t)) +:+ newline)) f = (q, None) ∧
  parse_first (encode (query_json (success t)) +:+ rest) = Some (query_json (success t), rest) ∧
  assign zero old (Some (query_json (success t))) f = (q, None).
Proof.
  intros H1 H2 Hf Hr. pose proof (query_json_wf t H1 H2) as Hw.
  assert (assign zero old (Some (query_json (success t))) f = (q, None)) as Ha.
  { unfold assign, unmarshal_raw. by rewrite into_query_success, Hf. }
  rewrite parse_encode, parse_first_encode by done. done.
Qed.

Lemma Marshal_back v old rest :
  result_ok v → same_type v old →
  ∃ text,
    Marshal fallback_Marshal v = (text, None) ∧ NewEncoder fallback_Encode v = (text, None) ∧
    Unmarshal fallback_Unmarshal text old = (canonical v, None) ∧
    NewDecoder fallback_Decode (text +:+ rest) old = (canonical v, None, newline +:+ rest).
Proof.
  intros Hv Ht.
  assert (∀ t, (marshal_result (Ok (success t))) = (encode (query_json (success t)) +:+ newline, None)) as Hm by done.
  destruct v as [[[r|]]|[[m|]]|x]; try done; destruct old as [q|q|x]; try done; simpl in Hv.
  - destruct (tree_wf r Hv) as [H1 H2].
    destruct (assign_back (mkInstant None) q _ (instant_tree r) (newline +:+ rest) _ H1 H2 (instant_back r Hv))
      as (E1&E2&E3); [apply number_stop_newline|].
    eexists. cbn [Marshal NewEncoder Unmarshal]. rewrite assembled_instant, Hm by done.
    split_and!; [done..|by rewrite E1|]. unfold NewDecoder. rewrite sapp_assoc, E2. by rewrite E3.
  - pose proof (Hv : instant_ok (InstantQueryResult_Matrix m)) as Hi. destruct (tree_wf _ Hi) as [H1 H2].
    assert (disassembleRangeQueryResult (success ("matrix", matrix_tree m)) = Ok (mkRange (Some (canonical_matrix m)))) as Hb.
    { unfold disassembleRangeQueryResult. cbn [success Data ResultType Result fst snd].
      rewrite decide_True by done. by rewrite matrix_back. }
    destruct (assign_back (mkRange None) q _ ("matrix", matrix_tree m) (newline +:+ rest) _ H1 H2 Hb)
      as (E1&E2&E3); [apply number_stop_newline|].
    eexists. cbn [Marshal NewEncoder Unmarshal]. unfold assembleRangeQueryResult. cbn [Range_Result].
    rewrite assembled_matrix by done. cbn [mbind result_bind].
    change (mkResult "success" (mkData "matrix" (Some (matrix_tree m))) "" "") with (success ("matrix", matrix_tree m)).
    rewrite Hm. split_and!; [done..|by rewrite E1|]. unfold NewDecoder. rewrite sapp_assoc, E2. by rewrite E3.
Qed.

(** C29: unmarshalling what was marshalled gives the result back, whether as a
    whole text or as the next value of a stream: every metric and every value
    bit for bit, infinities and NaN included, and each time as the text with
    three digits that [canonical_time] gives.  Strings have to be UTF-8 and times
    numbers below 2 ^ 52 thousandths; a result that is not set cannot be read
    back. *)
Theorem Marshal_roundtrip v old rest :
  result_ok v → same_type v old →
  ∃ text,
    Marshal fallback_Marshal v = (text, None) ∧ NewEncoder fallback_Encode v = (text, None) ∧
    Unmarshal fallback_Unmarshal text old = (canonical v, None) ∧
    NewDecoder fallback_Decode (text +:+ rest) old = (canonical v, None, newline +:+ rest).
Proof. apply Marshal_back. Qed.
End Roundtrip.

(** A vector with a label outside ASCII and an infinite value. *)
Lemma Marshal_roundtrip_witness :
  let m : gmap string string := {["deployment"%string := utf8_encode 0xe9; "a<b"%string := "x"%string]} in
  let s time v := mkPromSample m (Some (mkPromPoint time v)) in
  let f v := match ParseFloat v with Ok f => f | Err _ => S754_nan end in
  let v := AnyInstant (mkInstant (Some (InstantQueryResult_Vector (mkVector
    [s "1.5" (f "0.1"); s "1e3" (S754_infinity true)]))))%string in
  ∃ text,
    Marshal (λ x : nat, (""%string, None)) v = (text, None) ∧ NewEncoder (λ _, (""%string, None)) v = (text, None) ∧
    Unmarshal (λ _ x, (x, None)) text (AnyInstant (mkInstant None)) = (canonical v, None) ∧
    NewDecoder (λ s x, (x, None, s)) (text +:+ text) (AnyInstant (mkInstant None)) =
      (canonical v, None, newline +:+ text).
Proof.
  intros m s f v.
  destruct (Marshal_roundtrip (λ x : nat, (""%string, None)) (λ _, (""%string, None)) (λ _ x, (x, None))
    (λ s x, (x, None, s)) v (AnyInstant (mkInstant None)) (Marshal (λ x : nat, (""%string, None)) v).1)
    as (text&H1&H2&H3&H4).
  - assert (metric_ok m) as Hm.
    { apply map_Forall_insert_2; [split; [by apply ascii_text_utf8|by apply utf8_two; [|constructor]]|].
      apply map_Forall_singleton. split; by apply ascii_text_utf8. }
    assert (time_ok "1.5" ∧ time_ok "1e3") as [T1 T2] by (split; by apply time_check_ok; vm_compute).
    apply Forall_cons_2; [split; [done|]; eexists; split; [done|]; split; [done|by vm_compute]|].
    apply Forall_cons_2; [split; [done|]; eexists; split; [done|]; split; [done|by vm_compute]|].
    apply Forall_nil_2.
  - done.
  - exists text. rewrite H1 in H4. by split_and!.
Defined.

(** What the marshaler does with results it cannot print or read. *)
Example unset_result_is_not_read_back :
  let f := λ (_ : string) (x : nat), (x, @None error) in
  let '(text, err) := Marshal (λ x : nat, (""%string, None)) (AnyInstant (mkInstant None)) in
  err = None ∧ Unmarshal f text (AnyInstant (mkInstant None)) =
    (AnyInstant (mkInstant None), Some (Errorf "unknown instant query resultType")).
Proof. by vm_compute. Qed.

(** A time that is not finite is parsed, then refused as JSON. *)
Example infinite_time_is_refused :
  ∃ e, Marshal (λ x : nat, (""%string, None))
    (AnyInstant (mkInstant (Some (InstantQueryResult_Scalar (mkScalar "Inf" S754_nan))))) = (""%string, Some e).
Proof. eexists. by vm_compute. Qed.

(** A destination is reset when the type of the result is not known, and left
    alone when the text is not JSON. *)
Example failed_unmarshal :
  let q := mkRange (Some (mkMatrix [])) in
  (Unmarshal (λ (_ : string) (x : nat), (x, None)) "{}" (AnyRange q)).1 = AnyRange (mkRange None) ∧
  (Unmarshal (λ (_ : string) (x : nat), (x, None)) "{" (AnyRange q)).1 = AnyRange q.
Proof. by vm_compute. Qed.

(** The fallback's bytes get a newline even when it failed. *)
Example newline_after_an_error e :
  Marshal (λ _ : nat, ("x"%string, Some e)) (AnyOther 0%nat) = ("x" +:+ newline, Some e).
Proof. done. Qed.
