(* ===== verification/Gateway.v ===== *)
(** * The gateway

    Models internal/gateway/gateway.go: the gateway and its options, the info
    endpoint, the errors of the PromQL API, how it starts and what it serves, and
    the options cmd/gateway/main.go gives it.  The generated handlers behind
    grpc-gateway's mux, its default error handler and the fallback of the
    marshaler are parameters; [HTTPStatusFromCode] is the vendored table.

    The top level mux of net/http is modelled for clean paths; it redirects a path
    with dot segments or doubled slashes. *)

From S2P Require Import Prelude GoStrings Json NumberText NetURL Proxies AccessLog AuthProxy Config.
From S2P Require Marshaler.

Section Gateway.
(** The logger, the dial options of grpc and the configuration of TLS. *)
Context {Logger DialOption : Type}.
Variable discard : Logger.
(** [host.Info]: the uptime, unless there is none. *)
Variable host_Info : option Z.

Definition uptimeInSeconds : outcome Z := uptime ← must host_Info; Done (wrap64 uptime).

Record Gateway := mkGateway {
  log : Logger;
  logCacheAddr : string;
  logCacheVersion : string;
  uptimeFn : outcome Z;
  gatewayAddr : string;
  blockOnStart : bool;
  logCacheDialOpts : list DialOption;
  certPath : string;
  keyPath : string;
}.

Definition GatewayOption := Gateway → Gateway.

Definition NewGateway (logCacheAddr gatewayAddr : string) (opts : list GatewayOption) : Gateway :=
  foldl (λ g o, o g) (mkGateway discard logCacheAddr "" uptimeInSeconds gatewayAddr false [] "" "") opts.

Definition WithGatewayLogger (l : Logger) : GatewayOption := λ g,
  mkGateway l (logCacheAddr g) (logCacheVersion g) (uptimeFn g) (gatewayAddr g) (blockOnStart g)
    (logCacheDialOpts g) (certPath g) (keyPath g).
Definition WithGatewayBlock : GatewayOption := λ g,
  mkGateway (log g) (logCacheAddr g) (logCacheVersion g) (uptimeFn g) (gatewayAddr g) true
    (logCacheDialOpts g) (certPath g) (keyPath g).
Definition WithGatewayLogCacheDialOpts (opts : list DialOption) : GatewayOption := λ g,
  mkGateway (log g) (logCacheAddr g) (logCacheVersion g) (uptimeFn g) (gatewayAddr g) (blockOnStart g)
    opts (certPath g) (keyPath g).
Definition WithGatewayVersion (version : string) : GatewayOption := λ g,
  mkGateway (log g) (logCacheAddr g) version (uptimeFn g) (gatewayAddr g) (blockOnStart g)
    (logCacheDialOpts g) (certPath g) (keyPath g).
Definition WithGatewayVMUptimeFn (uptimeFn : outcome Z) : GatewayOption := λ g,
  mkGateway (log g) (logCacheAddr g) (logCacheVersion g) uptimeFn (gatewayAddr g) (blockOnStart g)
    (logCacheDialOpts g) (certPath g) (keyPath g).
Definition WithGatewayTLSServer (certPath keyPath : string) : GatewayOption := λ g,
  mkGateway (log g) (logCacheAddr g) (logCacheVersion g) (uptimeFn g) (gatewayAddr g) (blockOnStart g)
    (logCacheDialOpts g) certPath keyPath.

(** ** The info endpoint *)
Definition info_text (version : string) (uptime : Z) : string :=
  quoted "{'version':'" +:+ version +:+ quoted "','vm_uptime':'" +:+ FormatInt uptime +:+ quoted "'}" +:+
  newline.

Definition handleInfoEndpoint (g : Gateway) : outcome string :=
  uptime ← uptimeFn g; Done (info_text (logCacheVersion g) uptime).

(** ** Errors *)
(** The vendored table, on the numbers of the gRPC codes; 2 is [Unknown]. *)
Definition HTTPStatusFromCode (code : Z) : Z :=
  match code with
  | 0 => 200
  | 1 => 499
  | 2 => 500
  | 3 => 400
  | 4 => 504
  | 5 => 404
  | 6 => 409
  | 7 => 403
  | 16 => 401
  | 8 => 429
  | 9 => 400
  | 10 => 409
  | 11 => 400
  | 12 => 501
  | 13 => 500
  | 14 => 503
  | 15 => 500
  | _ => 500
  end.

Record errorBody := mkErrorBody { Status : string; ErrorType : string; Error : string }.

Inductive http_answer :=
| Answer (content_type : string) (status : Z) (body : string)
| DefaultErrorAnswer (e : Proxies.error).

(** What the marshaler's fallback makes of the error's body. *)
Variable fallback_Marshal : errorBody → string * option Proxies.error.

Definition fallback : string := quoted "{'error': 'failed to marshal error message'}".

Definition httpErrorHandler (path : string) (err : Proxies.error) : http_answer :=
  if decide (path ≠ "/api/v1/query" ∧ path ≠ "/api/v1/query_range") then DefaultErrorAnswer err
  else
    let body := mkErrorBody "error" "internal" (err_msg err) in
    let '(buf, merr) := Marshaler.Marshal fallback_Marshal (Marshaler.AnyOther body) in
    match merr with
    | Some _ => Answer Marshaler.ContentType 500 fallback
    | None => Answer Marshaler.ContentType (HTTPStatusFromCode (err_code err)) buf
    end.

(** ** The server *)
Inductive endpoint := InfoEndpoint | GrpcGateway.
Definition topLevelMux (path : string) : endpoint :=
  if decide (path = "/api/v1/info") then InfoEndpoint else GrpcGateway.

(** [listenAndServe]: TLS as soon as one of the paths is given. *)
Definition serves_tls (g : Gateway) : bool := bool_decide (certPath g ≠ "" ∨ keyPath g ≠ "").

(** ** Starting *)
Section Start.
Context {Conn : Type}.
(** [net.Listen] gives the listener's address; [grpc.NewClient]; the generated
    functions that register the routes of the two services on grpc-gateway's mux. *)
Variable Listen : string → result string string.
Variable NewClient : string → list DialOption → result string Conn.
Variable RegisterEgressHandlerClient RegisterPromQLQuerierHandlerClient : Conn → option string.

(** What the HTTP server serves until it fails. *)
Record serving := mkServing { listener : string; tls : option (string * string); backend : Conn }.

(** An error is the line of a [Fatalf]. *)
Definition listenAndServe (lis : string) (g : Gateway) : result string serving :=
  match NewClient (logCacheAddr g) (logCacheDialOpts g) with
  | Err e => Err ("failed to dial Log Cache: " +:+ e)
  | Ok conn =>
      match RegisterEgressHandlerClient conn with
      | Some e => Err ("failed to register LogCache handler: " +:+ e)
      | None =>
          match RegisterPromQLQuerierHandlerClient conn with
          | Some e => Err ("failed to register PromQLQuerier handler: " +:+ e)
          | None => Ok (mkServing lis (if serves_tls g then Some (certPath g, keyPath g) else None) conn)
          end
      end
  end.

(** The line when the server, that only returns with an error, does. *)
Definition serve_failed (s : serving) (e : string) : string :=
  match tls s with
  | Some _ => "failed to serve HTTPS endpoint: " +:+ e
  | None => "failed to serve HTTP endpoint: " +:+ e
  end.

(** [Addr] and the run of [listenAndServe], in the caller or in a goroutine. *)
Record started := mkStarted { Addr : string; blocks : bool; run : result string serving }.

Definition Start (g : Gateway) : result string started :=
  match Listen (gatewayAddr g) with
  | Err e => Err ("failed to listen on addr " +:+ gatewayAddr g +:+ ": " +:+ e)
  | Ok lis => Ok (mkStarted lis (blockOnStart g) (listenAndServe lis g))
  end.
End Start.

(** ** cmd/gateway *)
Section Main.
Import Config.GatewayConfig.
Variable gatewayLoggr : Logger.
(** The dial options with TLS, unless its files cannot be read, and without. *)
Variable tls_DialOpts : TLS.TLS → outcome (list DialOption).
Variable insecure_DialOpts : list DialOption.

Definition main_gateway (cfg : Config) : outcome Gateway :=
  dial ← (if TLS.HasAnyCredential (cfg_TLS cfg) then tls_DialOpts (cfg_TLS cfg)
          else Done insecure_DialOpts);
  Done (NewGateway (LogCacheAddr cfg) (Addr cfg)
    ([WithGatewayLogger gatewayLoggr; WithGatewayVersion (Version cfg); WithGatewayBlock] ++
     (if decide (ProxyCertPath cfg ≠ "" ∨ ProxyKeyPath cfg ≠ "")
      then [WithGatewayTLSServer (ProxyCertPath cfg) (ProxyKeyPath cfg)] else []) ++
     [WithGatewayLogCacheDialOpts dial])).
End Main.
End Gateway.

(** ** JSON of plain text *)

(** Text that JSON prints as it is. *)
Fixpoint json_text (s : string) : bool :=
  match s with
  | EmptyString => true
  | String c s => (byte c <? 0x80) && bool_decide (escape_ascii c = None) && json_text s
  end.

Lemma json_text_spec s : json_text s = true → escape s = s ∧ utf8 s.
Proof.
  induction s as [|c s IH]; [done|]. cbn [json_text].
  intros [[Hc He%bool_decide_eq_true]%andb_true_iff [IH1 IH2]%IH]%andb_true_iff.
  cbn [escape]. rewrite Hc, He, IH1. split; [done|]. constructor; [lia|done].
Qed.

Lemma digits_json_text s : all_digits s → json_text s = true.
Proof.
  induction s as [|c s IH]; [done|]. intros [Hc Hs]. cbn [json_text]. rewrite IH by done.
  unfold is_digit, in_range in Hc. rewrite andb_true_r, andb_true_iff, bool_decide_eq_true.
  split; [lia|]. unfold escape_ascii.
  repeat match goal with |- context [if ?b then _ else _] => replace b with false by lia end. done.
Qed.

Lemma FormatInt_json_text z : json_text (FormatInt z) = true.
Proof.
  destruct (Z.leb_spec 0 z) as [Hz|Hz]; [by apply digits_json_text, FormatInt_digits|].
  destruct z as [|p|p]; [lia|lia|]. change (FormatInt (Z.neg p)) with ("-" +:+ FormatInt (Z.pos p)).
  rewrite sapp_cons. cbn [json_text]. rewrite sapp_nil.
  rewrite (digits_json_text (FormatInt (Z.pos p))) by (apply FormatInt_digits; lia). by vm_compute.
Qed.

Definition info_json (version : string) (uptime : Z) : json :=
  JObject [("version", JString version); ("vm_uptime", JString (FormatInt uptime))].

Lemma info_text_encode version uptime : json_text version = true →
  info_text version uptime = encode (info_json version uptime) +:+ newline.
Proof.
  intros [Hv _]%json_text_spec. pose proof (FormatInt_json_text uptime) as [Hu _]%json_text_spec.
  unfold info_text, info_json. cbn [encode fmap list_fmap commas fst snd]. unfold quote.
  rewrite Hv, Hu.
  repeat match goal with
    | |- context [quoted ?s] => let t := eval vm_compute in (quoted s) in change (quoted s) with t
    | |- context [escape ?s] => let t := eval vm_compute in (escape s) in change (escape s) with t
    end.
  autorewrite with sapp. done.
Qed.

Section Theorems.
Context {Logger DialOption : Type}.
Variable discard : Logger.
Variable gatewayLoggr : Logger.
Variable tls_DialOpts : TLS.TLS → outcome (list DialOption).
Variable insecure_DialOpts : list DialOption.
Abbreviation main host_Info := (main_gateway discard host_Info gatewayLoggr tls_DialOpts insecure_DialOpts).

Lemma main_gateway_spec host_Info cfg g : main host_Info cfg = Done g →
  logCacheVersion g = GatewayConfig.Version cfg ∧ uptimeFn g = uptimeInSeconds host_Info ∧
  blockOnStart g = true ∧ logCacheAddr g = GatewayConfig.LogCacheAddr cfg ∧
  gatewayAddr g = GatewayConfig.Addr cfg ∧
  certPath g = GatewayConfig.ProxyCertPath cfg ∧ keyPath g = GatewayConfig.ProxyKeyPath cfg.
Proof.
  unfold main_gateway. intros (dial&_&[= <-])%bind_Done.
  destruct (decide (GatewayConfig.ProxyCertPath cfg ≠ "" ∨ GatewayConfig.ProxyKeyPath cfg ≠ "")) as [H|H];
    unfold NewGateway; simpl; split_and!; try done.
  all: symmetry; apply dec_stable; naive_solver.
Qed.

(** The gateway the command starts blocks it, listens where it is told, dials the
    configured node and serves TLS as soon as one of the proxy's files is given. *)
Lemma main_gateway_serves {Conn} Listen (NewClient : string → list DialOption → result string Conn)
    RegisterEgress RegisterPromQL host_Info cfg g st sv :
  main host_Info cfg = Done g →
  Start Listen NewClient RegisterEgress RegisterPromQL g = Ok st → run st = Ok sv →
  blocks st = true ∧ Listen (GatewayConfig.Addr cfg) = Ok (Addr st) ∧ listener sv = Addr st ∧
  NewClient (GatewayConfig.LogCacheAddr cfg) (logCacheDialOpts g) = Ok (backend sv) ∧
  RegisterEgress (backend sv) = None ∧ RegisterPromQL (backend sv) = None ∧
  tls sv = (if decide (GatewayConfig.ProxyCertPath cfg ≠ "" ∨ GatewayConfig.ProxyKeyPath cfg ≠ "")
            then Some (GatewayConfig.ProxyCertPath cfg, GatewayConfig.ProxyKeyPath cfg) else None).
Proof.
  intros (_&_&Hb&Hn&Ha&Hc&Hk)%main_gateway_spec. unfold Start, listenAndServe. rewrite Ha, Hn.
  destruct (Listen _) as [lis|]; [|done]. intros [= <-]. simpl.
  destruct (NewClient _ _) as [conn|]; [|done].
  destruct (RegisterEgress conn) eqn:E1; [done|]. destruct (RegisterPromQL conn) eqn:E2; [done|].
  intros [= <-]. simpl. split_and!; try done. unfold serves_tls. rewrite Hc, Hk. by case_bool_decide; case_decide.
Qed.

(** The info endpoint of the gateway the command starts tells the version of
    the build and the machine's uptime: its body is JSON that a client decodes,
    alone or from a stream, to both texts, and the uptime's text parses to the
    seconds as an int64.  The version's text must be free of quotes and control
    characters, since the body is put together without escaping. *)
Theorem info_endpoint_reads_back uptime Load WriteReport buildVersion cfg g :
  json_text buildVersion = true →
  GatewayConfig.LoadConfig buildVersion Load WriteReport = Ok cfg →
  main (Some uptime) cfg = Done g →
  ∃ body, topLevelMux "/api/v1/info" = InfoEndpoint ∧ handleInfoEndpoint g = Done body ∧
    parse body = Some (info_json buildVersion (wrap64 uptime)) ∧
    parse_first body = Some (info_json buildVersion (wrap64 uptime), newline) ∧
    ParseInt (FormatInt (wrap64 uptime)) = (wrap64 uptime, None).
Proof.
  intros Hv Hcfg (Hver&Hup&_)%main_gateway_spec.
  assert (GatewayConfig.Version cfg = buildVersion) as Hb.
  { unfold GatewayConfig.LoadConfig in Hcfg. destruct (Load _) as [c|]; [|done].
    cbn [mbind result_bind] in Hcfg. destruct (WriteReport _); [done|]. by injection Hcfg as <-. }
  exists (info_text buildVersion (wrap64 uptime)).
  assert (wf_json 0 (info_json buildVersion (wrap64 uptime))) as Hwf.
  { constructor; [done|]. members;
      constructor; [by apply json_text_spec|apply json_text_spec, FormatInt_json_text]. }
  rewrite info_text_encode by done. split_and!.
  - done.
  - unfold handleInfoEndpoint. rewrite Hup, Hver, Hb. simpl. by rewrite info_text_encode.
  - by apply parse_encode.
  - apply parse_first_encode; [done|by apply number_stop_space].
  - apply ParseInt_FormatInt, wrap64_range.
Qed.

Definition error_json (b : errorBody) : json :=
  JObject [("status", JString (Status b)); ("errorType", JString (ErrorType b)); ("error", JString (Error b))].

(** When the fallback of the marshaler prints the error body as [json.Marshal]
    does, every error of the two PromQL routes is answered with the HTTP status of
    its gRPC code, an error status between 400 and 599 unless the code is OK, and
    a JSON body that says status error, type internal and the error's message;
    errors of the other routes go to the default handler. *)
Theorem promql_errors_are_json path err :
  utf8 (err_msg err) →
  let answer := httpErrorHandler (λ b, (encode (error_json b), None)) path err in
  (path ∉ ["/api/v1/query"; "/api/v1/query_range"] → answer = DefaultErrorAnswer err) ∧
  (path ∈ ["/api/v1/query"; "/api/v1/query_range"] → ∃ body,
     answer = Answer "application/json" (HTTPStatusFromCode (err_code err)) body ∧
     (err_code err ≠ 0 → 400 ≤ HTTPStatusFromCode (err_code err) ≤ 599) ∧
     parse body = Some (JObject [("status", JString "error"); ("errorType", JString "internal");
                                 ("error", JString (err_msg err))])).
Proof.
  intros Hu answer. subst answer. unfold httpErrorHandler. split.
  - intros Hp. apply decide_True. set_solver.
  - intros Hp. rewrite decide_False by set_solver. eexists. split_and!; [done| |].
    + intros Hc. unfold HTTPStatusFromCode.
      repeat match goal with |- context [match ?x with _ => _ end] => destruct x end; lia.
    + apply parse_encode; [|done]. constructor; [done|].
      members;
        (apply wf_string; first [done | by apply ascii_text_utf8]).
Qed.
End Theorems.

(** ** Concrete gateways *)
Definition demo_env (c : GatewayConfig.Config) : result string GatewayConfig.Config := Ok c.
Definition demo_gateway (version : string) : outcome (Gateway (Logger := unit) (DialOption := unit)) :=
  match GatewayConfig.LoadConfig version demo_env (λ _, None) with
  | Ok cfg => main_gateway tt (Some 789) tt (λ _, Panic) [] cfg
  | Err _ => Panic
  end.

Lemma info_endpoint_reads_back_witness :
  ∃ g body, demo_gateway "1.2.3" = Done g ∧ handleInfoEndpoint g = Done body ∧
    parse body = Some (JObject [("version", JString "1.2.3"); ("vm_uptime", JString "789")]).
Proof.
  unfold demo_gateway. destruct (GatewayConfig.LoadConfig "1.2.3" demo_env (λ _, None)) as [cfg|] eqn:Ec; [|done].
  destruct (main_gateway tt (Some 789) tt (λ _, Panic) [] cfg) as [g|] eqn:Eg.
  - destruct (info_endpoint_reads_back tt tt (λ _, Panic) [] 789 demo_env (λ _, None) "1.2.3" cfg g
      eq_refl Ec Eg) as (body&_&Hb&Hp&_). exists g, body. by split_and!.
  - injection Ec as <-. discriminate.
Defined.

Lemma promql_errors_are_json_witness :
  utf8 "query timed out" ∧
  ∃ body, httpErrorHandler (λ b, (encode (error_json b), None)) "/api/v1/query" (Errorf "query timed out") =
      Answer "application/json" 500 body ∧
    parse body = Some (JObject [("status", JString "error"); ("errorType", JString "internal");
                                ("error", JString "query timed out")]).
Proof.
  assert (utf8 "query timed out") as H by (by apply ascii_text_utf8). split; [done|].
  destruct (promql_errors_are_json "/api/v1/query" (Errorf "query timed out") H) as [_ He].
  destruct He as (body&H1&_&H2); [by left|]. exists body. by split.
Defined.

(** The version is not escaped. *)
Fact quote_breaks_info : parse (info_text (String QUOTE "") 1) = None.
Proof. by vm_compute. Qed.

(** A malformed query is reported as an internal error of the server. *)
Fact bad_query_is_internal :
  httpErrorHandler (λ b, (encode (error_json b), None)) "/api/v1/query_range"
    (Errorf "couldn't parse step: not a step") =
  Answer "application/json" 500
    (quoted "{'status':'error','errorType':'internal','error':'couldn" +:+ "'t parse step: not a step" +:+
     quoted "'}" +:+ newline).
Proof. by vm_compute. Qed.
