(* ===== verification/Parsing.v ===== *)
(** * Times, steps and durations of PromQL requests

    Models internal/promql/parsing.go with what it calls: [model.ParseDuration]
    of the vendored prometheus/common and, of the standard library, [ParseFloat]
    (GoFloat.v) and [time.Parse] with the layout RFC3339Nano.  It also models
    [formatPromqlTime] of promql.go, the other direction.

    A [time.Time] is its nanoseconds since 1970, a [time.Duration] an int64.  The
    conversion of a float that does not fit an int64 is left to the processor by
    the Go specification: [arch] is its result.  Error texts are abbreviated. *)

From S2P Require Import Prelude Envelope GoStrings GoFloat FloatRound GoFormat Json NumberText.

Definition Second : Z := 1000000000.

(** ** Floats and integers *)

(** The integer part of a float, towards zero. *)
Definition float_trunc (f : float64) : option Z :=
  match f with
  | S754_zero _ => Some 0
  | S754_finite s m e =>
      let z := if 0 <=? e then Z.pos m * 2 ^ e else Z.pos m / 2 ^ (- e) in
      Some (if s then - z else z)
  | _ => None
  end.

Definition float_of_int (z : Z) : float64 := binary_normalize 53 1024 z 0 false.

(** [int64(f)]. *)
Definition int64_of_float (arch : float64 → Z) (f : float64) : Z :=
  match float_trunc f with
  | Some z => if (MinInt64 <=? z) && (z <=? MaxInt64) then z else arch f
  | None => arch f
  end.

(** ** [model.ParseDuration] *)
Definition unitMap (u : string) : option (Z * Z) :=
  if decide (u = "ms") then Some (7, 1000000)
  else if decide (u = "s") then Some (6, Second)
  else if decide (u = "m") then Some (5, 60 * Second)
  else if decide (u = "h") then Some (4, 3600 * Second)
  else if decide (u = "d") then Some (3, 24 * 3600 * Second)
  else if decide (u = "w") then Some (2, 7 * 24 * 3600 * Second)
  else if decide (u = "y") then Some (1, 365 * 24 * 3600 * Second)
  else None.

Fixpoint span_unit (s : string) : string * string :=
  match s with
  | String c s' => if is_digit c then ("", s) else let '(u, r) := span_unit s' in (String c u, r)
  | EmptyString => ("", s)
  end.

Definition out_of_range : result string Z := Err "duration out of range".
Definition not_a_duration : result string Z := Err "not a valid duration string".

(** The loop; [dur] is a uint64. *)
Fixpoint duration_loop (fuel : nat) (s : string) (lastUnitPos dur : Z) : result string Z :=
  match fuel, s with
  | _, EmptyString => Ok dur
  | O, _ => not_a_duration
  | S fuel, String _ _ =>
      let '(d, s) := span_digits s in
      match d with
      | EmptyString => not_a_duration
      | _ =>
          match ParseUint d with
          | (_, Some _) => not_a_duration
          | (v, None) =>
              let '(u, s) := span_unit s in
              match u with
              | EmptyString => not_a_duration
              | _ =>
                  match unitMap u with
                  | None => Err "unknown unit"
                  | Some (pos, mult) =>
                      if pos <=? lastUnitPos then not_a_duration
                      else if 2 ^ 63 / mult <? v then out_of_range
                      else
                        let dur := wrapu64 (dur + wrapu64 (v * mult)) in
                        if 2 ^ 63 - 1 <? dur then out_of_range
                        else duration_loop fuel s pos dur
                  end
              end
          end
      end
  end.

Definition model_ParseDuration (s : string) : result string Z :=
  if decide (s = "0") then Ok 0
  else if decide (s = "") then Err "empty duration string"
  else duration_loop (String.length s) s 0 0.

Definition ParseDuration (param : string) : result string Z :=
  match model_ParseDuration param with
  | Ok duration => Ok (wrap64 duration)
  | Err _ => Err "cannot parse to a valid duration"
  end.

(** ** [time.Parse] with RFC3339Nano *)
Definition digit_value (c : ascii) : option Z := if is_digit c then Some (byte c - 0x30) else None.

(** Two digits, or one where the layout allows it. *)
Definition getnum (fixed : bool) (s : string) : option (Z * string) :=
  match s with
  | String a s1 =>
      x ← digit_value a;
      match s1 with
      | String b s2 =>
          match digit_value b with
          | Some y => Some (10 * x + y, s2)
          | None => if fixed then None else Some (x, s1)
          end
      | EmptyString => if fixed then None else Some (x, s1)
      end
  | EmptyString => None
  end.

Definition get_range (fixed : bool) (lo hi : Z) (s : string) : option (Z * string) :=
  '(n, s) ← getnum fixed s; if (lo <=? n) && (n <=? hi) then Some (n, s) else None.

Definition get_year (s : string) : option (Z * string) :=
  '(a, s) ← getnum true s; '(b, s) ← getnum true s; Some (100 * a + b, s).

(** Up to nine digits of a fraction; more are dropped. *)
Fixpoint nanoseconds (d : string) (scale : Z) : Z :=
  match d with
  | String c d => default 0 (digit_value c) * scale + nanoseconds d (scale / 10)
  | EmptyString => 0
  end.

Definition get_fraction (s : string) : Z * string :=
  match s with
  | String c s' =>
      if (byte c =? 0x2e) || (byte c =? 0x2c) then
        let '(d, r) := span_digits s' in
        match d with EmptyString => (0, s) | _ => (nanoseconds d 100000000, r) end
      else (0, s)
  | EmptyString => (0, s)
  end.

(** The offset in seconds. *)
Definition get_zone (s : string) : option (Z * string) :=
  match s with
  | String c s =>
      if byte c =? 0x5a then Some (0, s)
      else if (byte c =? 0x2b) || (byte c =? 0x2d) then
        '(hr, s) ← get_range true 0 24 s; s ← expect ":" s; '(mm, s) ← get_range true 0 60 s;
        let off := (hr * 60 + mm) * 60 in
        Some (if byte c =? 0x2b then off else - off, s)
      else None
  | EmptyString => None
  end.

Definition leap (y : Z) : bool := (y mod 4 =? 0) && (negb (y mod 100 =? 0) || (y mod 400 =? 0)).

Definition daysIn (m y : Z) : Z :=
  if m =? 2 then if leap y then 29 else 28
  else if (m =? 4) || (m =? 6) || (m =? 9) || (m =? 11) then 30 else 31.

(** Days before a year, from the year 0, and before a month of it. *)
Definition days_before_year (y : Z) : Z := 365 * y + (y + 3) / 4 - (y + 99) / 100 + (y + 399) / 400.
Fixpoint days_before_month (n : nat) (y : Z) : Z :=
  match n with O => 0 | S n => days_before_month n y + daysIn (Z.of_nat (S n)) y end.
Definition days (y m d : Z) : Z :=
  days_before_year y - days_before_year 1970 + days_before_month (Z.to_nat (m - 1)) y + d - 1.

Definition time_Parse (s : string) : option Z :=
  '(year, s) ← get_year s; s ← expect "-" s;
  '(month, s) ← get_range true 1 12 s; s ← expect "-" s;
  '(day, s) ← getnum true s; s ← expect "T" s;
  '(hour, s) ← get_range false 0 23 s; s ← expect ":" s;
  '(min, s) ← get_range true 0 59 s; s ← expect ":" s;
  '(sec, s) ← get_range true 0 59 s;
  let '(nsec, s) := get_fraction s in
  '(zone, s) ← get_zone s;
  match s with
  | EmptyString =>
      if (1 <=? day) && (day <=? daysIn month year) then
        Some ((((days year month day * 24 + hour) * 60 + min) * 60 + sec - zone) * Second + nsec)
      else None
  | _ => None
  end.

(** ** The program *)
Section Parsing.
Variable arch : float64 → Z.

Definition ParseStep (param : string) : result string Z :=
  match ParseFloat param with
  | Ok step =>
      let stepInNanoSeconds := SFmul 53 1024 step (float_of_int Second) in
      if SFltb (float_of_int MaxInt64) stepInNanoSeconds || SFltb stepInNanoSeconds (float_of_int MinInt64)
      then Err "cannot parse to a valid step. It overflows int64"
      else Ok (int64_of_float arch stepInNanoSeconds)
  | Err _ =>
      match ParseDuration param with
      | Ok step => Ok step
      | Err _ => Err "cannot parse to a valid step"
      end
  end.

Definition ParseTime (param : string) : result string Z :=
  match ParseFloat param with
  | Ok decimalTime => Ok (int64_of_float arch (SFmul 53 1024 decimalTime (float_of_int Second)))
  | Err _ =>
      match time_Parse param with
      | Some t => Ok t
      | None => Err "cannot parse to a valid Unix or RFC3339 timestamp"
      end
  end.
End Parsing.

Definition formatPromqlTime (timeInMillis : Z) : string :=
  FormatFixed 3 (SFdiv 53 1024 (float_of_int timeInMillis) (float_of_int 1000)).

(** The examples of the repository's own tests. *)
Example parsing_tests :
  let arch _ := MinInt64 in
  ParseStep arch "1.5" = Ok 1500000000 ∧ ParseStep arch "1y" = Ok (365 * 24 * 3600 * Second) ∧
  ParseStep arch "" = Err "cannot parse to a valid step"%string ∧
  ParseStep arch "92233720368547758070" = Err "cannot parse to a valid step. It overflows int64"%string ∧
  ParseDuration "1h30m" = Ok (5400 * Second) ∧ ParseDuration "1" = Err "cannot parse to a valid duration"%string ∧
  ParseTime arch "123456.789" = Ok 123456789000000 ∧
  ParseTime arch "2015-07-01T20:10:30.781Z" = Ok (1435781430 * Second + 781000000) ∧
  ParseTime arch "2015-07-01T20:10:30.781-06:00" = Ok (1435803030 * Second + 781000000) ∧
  ParseTime arch "2015-07-01T20:10:30.781" = Err "cannot parse to a valid Unix or RFC3339 timestamp"%string ∧
  ParseTime arch "2023-02-29T00:00:00Z" = Err "cannot parse to a valid Unix or RFC3339 timestamp"%string ∧
  formatPromqlTime 1696530000123 = "1696530000.123" ∧ formatPromqlTime (-5) = "-0.005".
Proof. by vm_compute. Qed.

(** ** Whole seconds are exact *)

(** The float of an integer. *)
Definition is_int (f : float64) (s : bool) (n k : Z) : Prop :=
  ∃ m e, f = S754_finite s m e ∧ bounded64 m e = true ∧ -52 ≤ e - k ≤ 0 ∧ Z.pos m = n * 2 ^ (k - e).

Lemma rounded_int sx n k f :
  0 < n < 2 ^ 53 → 0 ≤ k ≤ 900 → rounded sx (2 ^ (k + 1074) * n) 1 f → is_int f sx n k.
Proof.
  intros Hn Hk Hf. destruct (canonical_int n Hn) as (m&e&Hm&He&Hb). exists m, (e + k).
  split_and!; [|by apply Hb|lia|lia|rewrite Hm; do 2 f_equal; lia].
  apply (rounded_exact sx (2 ^ (k + 1074) * n) 1); [lia|done|by apply Hb|].
  rewrite Z.mul_1_r, Hm, (Z.mul_comm n), Z.mul_assoc, <- Z.pow_add_r by lia. do 2 f_equal. lia.
Qed.

Lemma float_of_int_pos n : 0 < n < 2 ^ 53 → is_int (float_of_int n) false n 0.
Proof.
  intros Hn. apply rounded_int; [done|lia|]. unfold float_of_int. destruct n as [|p|p]; [lia| |lia].
  by apply binary_round_rounded.
Qed.

Lemma float_trunc_int f n k : 0 ≤ n → 0 ≤ k → is_int f false n k → float_trunc f = Some (n * 2 ^ k).
Proof.
  intros Hn Hk (m&e&->&_&He&Hm). simpl. f_equal. destruct (Z.leb_spec 0 e).
  - rewrite Hm, <- Z.mul_assoc, <- Z.pow_add_r by lia. do 2 f_equal. lia.
  - rewrite Hm. replace (k - e) with (k + - e) by lia. rewrite Z.pow_add_r, Z.mul_assoc by lia.
    apply Z.div_mul, Z.pow_nonzero; lia.
Qed.

(** Seconds times [1e9] is exact up to 2 ^ 32 seconds: 10 ^ 9 has 21 bits and
    nine zeros. *)
Lemma seconds_float n : 0 < n ≤ 2 ^ 32 →
  is_int (SFmul 53 1024 (float_of_int n) (float_of_int Second)) false (n * 1953125) 9.
Proof.
  intros Hn. destruct (float_of_int_pos n) as (m&e&->&Hb&He&Hm); [lia|].
  destruct (float_of_int_pos Second) as (q&e2&->&Hb2&He2&Hq); [done|].
  pose proof (SFmul_rounded false false m e q e2 Hb Hb2) as HR.
  rewrite Z.max_l, Z.max_r in HR by lia. apply rounded_int; [lia|lia|].
  replace (2 ^ (9 + 1074) * (n * 1953125)) with (2 ^ (e + e2 + 1074) * (Z.pos m * Z.pos q)); [done|].
  assert (2 ^ (9 + 1074) = 2 ^ (e + e2 + 1074) * 2 ^ (0 - e) * 2 ^ (0 - e2) * 2 ^ 9) as ->
    by (rewrite <- !Z.pow_add_r by lia; f_equal; lia).
  rewrite Hm, Hq. change Second with (2 ^ 9 * 1953125). ring.
Qed.

Lemma ParseFloat_int n : 0 ≤ n < 2 ^ 53 → ParseFloat (FormatInt n) = Ok (float_of_int n).
Proof.
  intros Hn. assert (FormatInt n = fmt_fixed false n 0) as ->.
  { unfold fmt_fixed. change (10 ^ Z.of_nat 0) with 1. by rewrite Z.div_1_r, sapp_nil, sapp_nil_r. }
  rewrite ParseFloat_fmt_fixed by lia.
  assert (round_decimal false n (- Z.of_nat 0) = float_of_int n) as ->.
  { destruct n as [|p|p]; [done| |lia]. unfold round_decimal, float_of_int. simpl. by rewrite Pos.mul_1_r. }
  destruct (decide (n = 0)) as [->|]; [done|]. destruct (float_of_int_pos n) as (m&e&->&_); [lia|done].
Qed.

(** A request's step and time given in whole seconds are that many seconds
    on every processor, up to the year 2106; the multiplication in floating point
    loses nothing. *)
Theorem whole_seconds_exact arch n :
  0 ≤ n ≤ 2 ^ 32 →
  ParseStep arch (FormatInt n) = Ok (n * Second) ∧ ParseTime arch (FormatInt n) = Ok (n * Second).
Proof.
  intros Hn. unfold ParseStep, ParseTime. rewrite ParseFloat_int by lia.
  destruct (decide (n = 0)) as [->|]; [by vm_compute|].
  assert (0 < n ≤ 2 ^ 32) as Hn' by lia. pose proof (seconds_float n Hn') as Hf.
  assert (float_trunc (SFmul 53 1024 (float_of_int n) (float_of_int Second)) = Some (n * 1953125 * 2 ^ 9)) as Ht
    by (apply float_trunc_int; [lia|lia|done]).
  replace (n * 1953125 * 2 ^ 9) with (n * Second) in Ht by (change (2 ^ 9) with 512; unfold Second; lia).
  assert (int64_of_float arch (SFmul 53 1024 (float_of_int n) (float_of_int Second)) = n * Second) as Hi.
  { unfold int64_of_float. rewrite Ht. unfold MinInt64, MaxInt64, Second.
    by rewrite (proj2 (Z.leb_le _ _)), (proj2 (Z.leb_le _ _)) by lia. }
  rewrite Hi. split; [|done]. destruct Hf as (m&e&->&Hb&He&Hm). apply bounded64_spec in Hb as (_&Hm53&_).
  assert (float_of_int MaxInt64 = S754_finite false (2 ^ 52)%positive 11) as -> by by vm_compute.
  assert (float_of_int MinInt64 = S754_finite true (2 ^ 52)%positive 11) as -> by by vm_compute.
  assert (SFltb (S754_finite false (2 ^ 52) 11) (S754_finite false m e) = false) as ->.
  { unfold SFltb, SFcompare. destruct (Z.compare_spec 11 e); [lia|lia|done]. }
  done.
Qed.

Lemma whole_seconds_exact_witness :
  0 ≤ 1696530000 ≤ 2 ^ 32 ∧
  ParseStep (λ _, 0) (FormatInt 1696530000) = Ok (1696530000 * Second) ∧
  ParseTime (λ _, 0) (FormatInt 1696530000) = Ok (1696530000 * Second).
Proof. split; [lia|]. apply (whole_seconds_exact (λ _, 0) 1696530000). lia. Defined.

(** ** Times of results *)
Lemma formatPromqlTime_fixed ms :
  Z.abs ms < 2 ^ 52 → formatPromqlTime ms = fmt_fixed (ms <? 0) (Z.abs ms) 3.
Proof.
  intros Hms. unfold formatPromqlTime. destruct (decide (ms = 0)) as [->|Hne]; [by vm_compute|].
  destruct (float_of_int_pos (Z.abs ms)) as (m&e&Hf&Hb&He&Hm); [lia|].
  assert (float_of_int ms = S754_finite (ms <? 0) m e) as ->.
  { unfold float_of_int in *. destruct ms as [|p|p]; [done|done|]. simpl in *.
    unfold binary_round in *. destruct (shl_align _ _ _). rewrite round_aux_sign, Hf. done. }
  destruct (float_of_int_pos 1000) as (q&e2&->&Hb2&He2&Hq); [done|].
  rewrite <- (FormatFixed_round_decimal (ms <? 0) (Z.abs ms) 3) by lia. f_equal.
  apply (rounded_unique (ms <? 0) (Z.abs ms * 2 ^ 1074) (10 ^ Z.of_nat 3)); [done|lia| |].
  2: { apply round_decimal_rounded. lia. }
  pose proof (SFdiv_rounded (ms <? 0) false m e q e2) as HR. cbv zeta in HR.
  rewrite xorb_false_r, Z.max_l, Z.max_r, Z.pow_0_r, Z.mul_1_l in HR by lia.
  rewrite Hm, Hq in HR. rewrite <- (rounded_scale (2 ^ (0 - e2))) by (apply Z.pow_pos_nonneg; lia).
  replace (2 ^ (0 - e2) * (Z.abs ms * 2 ^ 1074)) with (2 ^ (e - e2 + 1074) * (Z.abs ms * 2 ^ (0 - e))); [|].
  - by rewrite (Z.mul_comm _ (10 ^ _)).
  - assert (2 ^ (0 - e2) * 2 ^ 1074 = 2 ^ (e - e2 + 1074) * 2 ^ (0 - e)) as E
      by (rewrite <- !Z.pow_add_r by lia; f_equal; lia).
    transitivity (Z.abs ms * (2 ^ (e - e2 + 1074) * 2 ^ (0 - e))); [ring|]. rewrite <- E. ring.
Qed.

(** ** Durations *)
Definition duration_text (l : list (Z * string)) : string :=
  foldr (λ vu s, FormatInt vu.1 +:+ vu.2 +:+ s) "" l.

(** Amounts of units, from the largest to the smallest. *)
Fixpoint units_ok (last : Z) (l : list (Z * string)) : Prop :=
  match l with
  | [] => True
  | (v, u) :: l => 0 ≤ v ∧ match unitMap u with Some (pos, _) => last < pos ∧ units_ok pos l | None => False end
  end.

Definition unit_length (u : string) : Z := match unitMap u with Some (_, mult) => mult | None => 0 end.
Definition duration (l : list (Z * string)) : Z := sum ((λ vu, vu.1 * unit_length vu.2) <$> l).

Lemma unitMap_spec u pos mult : unitMap u = Some (pos, mult) →
  1000000 ≤ mult < 2 ^ 63 ∧ 1 ≤ pos ∧ u ≠ "" ∧ ∀ s, match s with EmptyString => True | String c _ => is_digit c = true end → span_unit (u +:+ s) = (u, s).
Proof.
  unfold unitMap, Second. intros H. repeat case_decide; simplify_eq; (split; [lia|]); (split; [lia|]);
    (split; [done|]); intros [|c s] Hc; try done; rewrite !sapp_cons, sapp_nil; cbn [span_unit]; by rewrite Hc.
Qed.


Lemma span_digits_FormatInt v s : 0 ≤ v →
  match s with EmptyString => True | String c _ => is_digit c = false end →
  ∃ c d, FormatInt v = String c d ∧ span_digits (FormatInt v +:+ s) = (FormatInt v, s).
Proof.
  intros Hv Hs. destruct (FormatInt_digits v Hv) as (Hd&c&d&E&_). exists c, d. split; [done|].
  by apply span_digits_all.
Qed.

Lemma unit_head u s pos mult : unitMap u = Some (pos, mult) →
  match u +:+ s with EmptyString => True | String c _ => is_digit c = false end.
Proof. unfold unitMap. intros H. by repeat case_decide; simplify_eq. Qed.

Lemma duration_text_head l last : units_ok last l →
  match duration_text l with EmptyString => True | String c _ => is_digit c = true end.
Proof.
  destruct l as [|[v u] l]; [done|]. intros [Hv _]. simpl.
  destruct (FormatInt_digits v Hv) as (Hd&c&d&E&_). rewrite E in *. rewrite sapp_cons. apply Hd.
Qed.

Lemma duration_nonneg l last : units_ok last l → 0 ≤ duration l.
Proof.
  revert last. induction l as [|[v u] l IH]; intros last; [done|]. intros [Hv Hu]. unfold duration in *.
  rewrite fmap_cons. cbn [sum foldr fst snd]. unfold unit_length. destruct (unitMap u) as [[pos mult]|] eqn:E; [|done].
  destruct Hu as [_ Hu]. apply IH in Hu. destruct (unitMap_spec _ _ _ E) as [Hm _].
  apply Z.add_nonneg_nonneg; [apply Z.mul_nonneg_nonneg; lia|exact Hu].
Qed.

Lemma duration_loop_text fuel l last dur :
  units_ok last l → 0 ≤ dur → dur + duration l ≤ 2 ^ 63 - 1 → (String.length (duration_text l) ≤ fuel)%nat →
  duration_loop fuel (duration_text l) last dur = Ok (dur + duration l).
Proof.
  revert fuel last dur. induction l as [|[v u] l IH]; intros fuel last dur Hl Hd Hmax Hfuel.
  { destruct fuel; simpl; f_equal; unfold duration; simpl; lia. }
  pose proof Hl as [Hv Hu]. destruct (unitMap u) as [[pos mult]|] eqn:E; [|done]. destruct Hu as [Hpos Hl'].
  destruct (unitMap_spec _ _ _ E) as (Hmult&_&Hne&Hspan). pose proof (duration_nonneg _ _ Hl') as Hnn.
  assert (duration ((v, u) :: l) = v * mult + duration l) as Hdur.
  { unfold duration. rewrite fmap_cons. cbn [sum foldr fst snd]. unfold unit_length. by rewrite E. }
  rewrite Hdur in *. cbn [duration_text foldr fst snd] in *. change (foldr _ "" l) with (duration_text l) in *.
  destruct (span_digits_FormatInt v (u +:+ duration_text l) Hv) as (c&d&Ec&Hsp); [by eapply unit_head|].
  rewrite !slength_app in Hfuel. destruct fuel as [|fuel]; [rewrite Ec, slength_cons in Hfuel; lia|].
  assert (FormatInt v +:+ u +:+ duration_text l = String c (d +:+ u +:+ duration_text l)) as Es by by rewrite Ec.
  rewrite Es. cbn [duration_loop]. rewrite <- Es, Hsp. cbv beta iota. assert (0 ≤ v * mult) as Hvm by (apply Z.mul_nonneg_nonneg; lia).
  assert (v ≤ 2 ^ 63 - 1) as Hvmax by nia.
  assert (ParseUint (FormatInt v) = (v, None)) as Hp.
  { destruct v as [|p|p]; [done| |lia]. unfold FormatInt. change (pretty (Z.pos p)) with (pretty (N.pos p)).
    rewrite parse_digits_N; [done|]. unfold MaxUint64. lia. }
  rewrite Hp, Hspan by (by eapply duration_text_head). rewrite Ec. destruct u as [|cu u']; [done|].
  rewrite E, (proj2 (Z.leb_gt pos last)) by lia. rewrite (proj2 (Z.ltb_ge (2 ^ 63 / mult) v)).
  2: { apply Z.div_le_lower_bound; lia. }
  assert (∀ z, 0 ≤ z ≤ 2 ^ 63 - 1 → wrapu64 z = z) as Hw by (intros z Hz; unfold wrapu64; apply Z.mod_small; lia).
  rewrite (Hw (v * mult)), (Hw (dur + v * mult)) by lia. rewrite (proj2 (Z.ltb_ge (2 ^ 63 - 1) _)) by lia.
  rewrite IH; [f_equal; lia|done|lia|lia|]. rewrite Ec, !slength_cons in Hfuel. lia.
Qed.

Lemma duration_loop_bounds fuel s last dur d :
  0 ≤ dur ≤ MaxInt64 → duration_loop fuel s last dur = Ok d → 0 ≤ d ≤ MaxInt64.
Proof.
  unfold MaxInt64. revert s last dur. induction fuel as [|fuel IH]; intros s last dur Hd.
  { destruct s; [|done]. by intros [= <-]. }
  destruct s as [|c s]; [by intros [= <-]|]. cbn [duration_loop]. destruct (span_digits _) as [[|c' d'] s']; [done|].
  destruct (ParseUint _) as [v [|]]; [done|]. destruct (span_unit s') as [[|cu u] s'']; [done|].
  destruct (unitMap _) as [[pos mult]|]; [|done]. destruct (pos <=? last); [done|].
  destruct (_ <? v); [done|]. destruct (Z.ltb_spec (2 ^ 63 - 1) (wrapu64 (dur + wrapu64 (v * mult)))); [done|].
  apply IH. split; [apply Z.mod_pos_bound|]; lia.
Qed.

(** Amounts of units from years down to milliseconds, largest first, are
    parsed to their sum whenever that is an int64; and every duration that is
    accepted is a non-negative int64: the checks of the loop keep the unsigned
    arithmetic from wrapping. *)
Theorem ParseDuration_sums l :
  l ≠ [] → units_ok 0 l → duration l ≤ MaxInt64 →
  ParseDuration (duration_text l) = Ok (duration l) ∧
  ∀ s d, ParseDuration s = Ok d → 0 ≤ d ≤ MaxInt64.
Proof.
  intros Hne Hl Hmax. assert (∀ d, 0 ≤ d ≤ MaxInt64 → wrap64 d = d) as Hw.
  { intros d Hd. apply wrap64_id. unfold int64_range, MinInt64, MaxInt64 in *. lia. }
  pose proof (duration_nonneg _ _ Hl) as H0. split.
  - unfold ParseDuration, model_ParseDuration. destruct l as [|[v u] l]; [done|].
    assert (2 ≤ String.length (duration_text ((v, u) :: l)))%nat as Hlen.
    { destruct Hl as [Hv Hu]. destruct (unitMap u) as [[pos mult]|] eqn:E; [|done].
      destruct (unitMap_spec _ _ _ E) as (_&_&Hne'&_). destruct (FormatInt_digits v Hv) as (_&c&t&Ec&_).
      destruct u; [done|]. cbn [duration_text foldr fst snd]. rewrite Ec. autorewrite with slength. lia. }
    rewrite decide_False by (intros E; rewrite E in Hlen; simpl in Hlen; lia).
    rewrite decide_False by (intros E; rewrite E in Hlen; simpl in Hlen; lia).
    rewrite duration_loop_text; [|done|lia|unfold MaxInt64 in Hmax; lia|lia].
    rewrite Z.add_0_l, Hw; [done|lia].
  - intros s d. unfold ParseDuration. destruct (model_ParseDuration s) as [z|] eqn:E; [|done]. intros [= <-].
    assert (0 ≤ z ≤ MaxInt64) as Hz; [|by rewrite Hw]. revert E. unfold model_ParseDuration.
    case_decide; [by intros [= <-]|]. case_decide; [done|]. by apply duration_loop_bounds.
Qed.

Lemma ParseDuration_sums_witness :
  let l := [(1, "w"%string); (36, "h"%string); (90, "ms"%string)] in
  (ParseDuration (duration_text l) = Ok (duration l) ∧
   ∀ s d, ParseDuration s = Ok d → 0 ≤ d ≤ MaxInt64) ∧
  duration_text l = "1w36h90ms" ∧ duration l = 734400090000000.
Proof. intros l. split; [apply (ParseDuration_sums l); [done|by vm_compute|by vm_compute]|by vm_compute]. Defined.

(** ** What slips through *)

(** A step of 2 ^ 63 nanoseconds passes the check, since the float of the largest
    int64 is 2 ^ 63, and so does NaN; the conversion is then up to the processor. *)
Fact overflowing_step_accepted arch :
  ParseStep arch "9223372036.854775808" = Ok (arch (binary_normalize 53 1024 (2 ^ 63) 0 false)) ∧
  ParseStep arch "NaN" = Ok (arch S754_nan).
Proof. by vm_compute. Qed.

(** A time has no check at all. *)
Fact overflowing_time_accepted arch : ∃ f, ParseTime arch "1e300" = Ok (arch f).
Proof. eexists. by vm_compute. Qed.

(** A time in milliseconds is rounded down to the one before: 10 ^ 9 seconds and
    more leave less than a microsecond of precision, on either side. *)
Fact time_loses_a_millisecond arch :
  (λ r, match r with Ok ns => Some (ns / 1000000) | Err _ => None end) (ParseTime arch "1696530000.123") =
    Some 1696530000122.
Proof. by vm_compute. Qed.
