(* ===== verification/LogWriter.v ===== *)
(** * The log writer

    Models internal/plumbing/logwriter.go: the lines of a command that was asked for
    RFC 3339 timestamps.  [time.Time.Format] is modelled for the layout the source
    gives it, in UTC: a day since the year 1 is cut into cycles of 400, 100, 4 and
    1 years, as Go does, then into months.

    The theorem closes a loop through the program: what the writer puts before a
    line is a time that the PromQL endpoint reads back (Parsing.v), to the
    nanosecond, for every time an [int64] holds. *)

From S2P Require Import Prelude Envelope GoStrings GoFloat GoFormat NumberText Json Parsing.

(** ** Dates *)

(** The year of a day, counted from the first of January of the year 1, and the day
    in that year. *)
Definition year_day (d : Z) : Z * Z :=
  let n400 := d / 146097 in
  let d := d mod 146097 in
  let n100 := Z.min 3 (d / 36524) in
  let d := d - 36524 * n100 in
  let n4 := d / 1461 in
  let d := d mod 1461 in
  let n1 := Z.min 3 (d / 365) in
  (400 * n400 + 100 * n100 + 4 * n4 + n1 + 1, d - 365 * n1).

(** The month, of [n] left from [m] on, and the day in it. *)
Fixpoint month_day (n : nat) (m y d : Z) : Z * Z :=
  match n with
  | O => (m, d + 1)
  | S n => if d <? daysIn m y then (m, d + 1) else month_day n (m + 1) y (d - daysIn m y)
  end.

(** The days from the first of January of the year 1 to that of 1970. *)
Definition unixDays : Z := 719162.

Definition date (d : Z) : Z * Z * Z :=
  let '(y, yday) := year_day (d + unixDays) in
  let '(m, day) := month_day 11 1 y yday in
  (y, m, day).

(** ** The writer *)

(** [t.UTC().Format("2006-01-02T15:04:05.000000000Z")], [t] in nanoseconds. *)
Definition timestamp (t : Z) : string :=
  let sec := t / Second in
  let '(y, m, d) := date (sec / 86400) in
  let s := sec mod 86400 in
  fixed_digits 4 y +:+ "-" +:+ fixed_digits 2 m +:+ "-" +:+ fixed_digits 2 d +:+ "T" +:+
  fixed_digits 2 (s / 3600) +:+ ":" +:+ fixed_digits 2 (s / 60 mod 60) +:+ ":" +:+ fixed_digits 2 (s mod 60) +:+
  "." +:+ fixed_digits 9 (t mod Second) +:+ "Z".

(** [Write]: [io.WriteString] writes to the standard error, and its results are
    the writer's own. *)
Section Write.
Context {W : Type}.
Variable WriteString : string → W → W * (Z * option string).

Definition Write (now : Z) (bytes : string) (w : W) : W * (Z * option string) :=
  WriteString (timestamp now +:+ " " +:+ bytes) w.
End Write.

Example timestamp_epoch : timestamp 0 = "1970-01-01T00:00:00.000000000Z"%string.
Proof. by vm_compute. Qed.
Example timestamp_leap : timestamp 1709210096000000007 = "2024-02-29T12:34:56.000000007Z"%string.
Proof. by vm_compute. Qed.
Example timestamp_first : timestamp MinInt64 = "1677-09-21T00:12:43.145224192Z"%string.
Proof. by vm_compute. Qed.

(** ** Dates are read back *)

(** Linear arithmetic with quotients and remainders by constants. *)
Ltac div_lia := Z.to_euclidean_division_equations; lia.

Lemma year_day_spec d : let '(y, yday) := year_day d in
  days_before_year y + yday = d + 366 ∧ 0 ≤ yday < 365 + (if leap y then 1 else 0).
Proof.
  unfold year_day. set (a := d / 146097). set (d1 := d mod 146097).
  assert (d = 146097 * a + d1 ∧ 0 ≤ d1 < 146097) as [Ed H1] by (unfold a, d1; div_lia). clearbody a d1.
  assert (0 ≤ d1 / 36524 ≤ 4) as Hq by div_lia.
  set (b := Z.min 3 (d1 / 36524)). set (d2 := d1 - 36524 * b).
  assert (d1 = 36524 * b + d2 ∧ 0 ≤ b ≤ 3 ∧ 0 ≤ d2 ≤ 36524 ∧ (b < 3 → d2 < 36524)) as (Ed1&Hb&H2&H2')
    by (unfold d2, b; div_lia). clearbody b d2.
  set (c := d2 / 1461). set (d3 := d2 mod 1461).
  assert (d2 = 1461 * c + d3 ∧ 0 ≤ c ≤ 24 ∧ 0 ≤ d3 < 1461) as (Ed2&Hc&H3) by (unfold c, d3; div_lia).
  clearbody c d3. assert (0 ≤ d3 / 365 ≤ 4) as Hq' by div_lia.
  set (e := Z.min 3 (d3 / 365)). set (d4 := d3 - 365 * e).
  assert (d3 = 365 * e + d4 ∧ 0 ≤ e ≤ 3 ∧ 0 ≤ d4 ≤ 365 ∧ (e < 3 → d4 < 365)) as (Ed3&He&H4&H4')
    by (unfold d4, e; div_lia). clearbody e d4.
  set (y := 400 * a + 100 * b + 4 * c + e + 1).
  assert ((y + 3) / 4 = 100 * a + 25 * b + c + 1) as E4 by (unfold y; div_lia).
  assert ((y + 99) / 100 = 4 * a + b + 1) as E100 by (unfold y; div_lia).
  assert ((y + 399) / 400 = a + 1) as E400 by (unfold y; div_lia).
  split; [unfold days_before_year; rewrite E4, E100, E400; unfold y; div_lia|].
  split; [div_lia|]. destruct (leap y) eqn:El; [div_lia|]. unfold leap in El.
  apply andb_false_iff in El as [El|[El%negb_false_iff El']%orb_false_iff]; unfold y in *; div_lia.
Qed.

Lemma month_day_spec n m y d : 1 ≤ m → m + Z.of_nat n = 12 →
  0 ≤ d < days_before_month 12 y - days_before_month (Z.to_nat (m - 1)) y →
  let '(m', day) := month_day n m y d in
  m ≤ m' ≤ 12 ∧ 1 ≤ day ≤ daysIn m' y ∧
  days_before_month (Z.to_nat (m - 1)) y + d = days_before_month (Z.to_nat (m' - 1)) y + (day - 1).
Proof.
  assert (∀ m, 1 ≤ m → days_before_month (Z.to_nat m) y = days_before_month (Z.to_nat (m - 1)) y + daysIn m y)
    as Hnext.
  { intros k Hk. replace (Z.to_nat k) with (S (Z.to_nat (k - 1))) by div_lia. cbn [days_before_month]. do 2 f_equal. div_lia. }
  revert m d. induction n as [|n IH]; intros m d Hm Hn Hd; cbn [month_day].
  - assert (m = 12) as -> by div_lia. specialize (Hnext 12 ltac:(done)).
    change (Z.to_nat 12) with 12%nat in Hnext. div_lia.
  - specialize (Hnext m Hm). destruct (Z.ltb_spec d (daysIn m y)); [div_lia|].
    specialize (IH (m + 1) (d - daysIn m y)). replace (m + 1 - 1) with m in IH by div_lia.
    destruct (month_day n (m + 1) y (d - daysIn m y)) as [m' day]. destruct IH as (?&?&?); div_lia.
Qed.

Lemma year_length y : days_before_month 12 y = 365 + (if leap y then 1 else 0).
Proof.
  cbn [days_before_month]. unfold daysIn.
  repeat match goal with |- context [Z.of_nat ?n =? ?k] =>
    let b := eval vm_compute in (Z.of_nat n =? k) in change (Z.of_nat n =? k) with b end.
  cbn [orb]. by destruct (leap y).
Qed.

Lemma date_spec d : let '(y, m, day) := date d in
  days y m day = d ∧ 1 ≤ m ≤ 12 ∧ 1 ≤ day ≤ daysIn m y.
Proof.
  unfold date. pose proof (year_day_spec (d + unixDays)) as H.
  destruct (year_day (d + unixDays)) as [y yday]. destruct H as [Ey Hy].
  pose proof (month_day_spec 11 1 y yday ltac:(done) ltac:(done)) as H.
  rewrite year_length in H. destruct (month_day 11 1 y yday) as [m day].
  destruct H as (?&?&Em); [simpl; div_lia|]. split_and!; try div_lia. unfold days, unixDays in *.
  change (days_before_year 1970) with 719528. change (days_before_month (Z.to_nat (1 - 1)) y) with 0 in Em. div_lia.
Qed.

(** The years of the times an [int64] holds have four digits. *)
Lemma date_year d : -106752 ≤ d ≤ 106751 → 1600 ≤ (date d).1.1 < 2300.
Proof.
  intros Hd. unfold date. pose proof (year_day_spec (d + unixDays)) as H.
  destruct (year_day (d + unixDays)) as [y yday]. destruct H as [Ey Hy].
  destruct (month_day 11 1 y yday) as [m day]. cbn [fst].
  unfold days_before_year, unixDays in *. destruct (leap y); div_lia.
Qed.

(** ** Digits are read back *)
Lemma digit_value_char x : 0 ≤ x < 10 → digit_value (digit_char x) = Some x.
Proof.
  intros Hx. assert (x ∈ [0;1;2;3;4;5;6;7;8;9]) as H by (rewrite !elem_of_cons; div_lia).
  apply list_elem_of_In in H. simpl in H.
  repeat (destruct H as [<-|H]; [by vm_compute|]). done.
Qed.

Lemma getnum_digits fixed x rest : 0 ≤ x < 100 → getnum fixed (fixed_digits 2 x +:+ rest) = Some (x, rest).
Proof.
  intros Hx. cbn [fixed_digits]. autorewrite with sapp. cbn [getnum].
  change (10 ^ Z.of_nat 1) with 10. change (10 ^ Z.of_nat 0) with 1.
  rewrite !digit_value_char by div_lia. cbn [mbind option_bind]. do 2 f_equal. div_lia.
Qed.

Lemma get_range_digits fixed lo hi x rest : 0 ≤ x < 100 → lo ≤ x ≤ hi →
  get_range fixed lo hi (fixed_digits 2 x +:+ rest) = Some (x, rest).
Proof.
  intros Hx Hr. unfold get_range. rewrite getnum_digits by done. cbn [mbind option_bind].
  rewrite (proj2 (Z.leb_le lo x)), (proj2 (Z.leb_le x hi)) by div_lia. done.
Qed.

Lemma get_year_digits y rest : 0 ≤ y < 10000 → get_year (fixed_digits 4 y +:+ rest) = Some (y, rest).
Proof.
  intros Hy. assert (fixed_digits 4 y = fixed_digits 2 (y / 100) +:+ fixed_digits 2 (y mod 100)) as ->.
  { cbn [fixed_digits]. autorewrite with sapp.
    change (10 ^ Z.of_nat 3) with 1000. change (10 ^ Z.of_nat 2) with 100.
    change (10 ^ Z.of_nat 1) with 10. change (10 ^ Z.of_nat 0) with 1.
    assert (∀ a b u v, a = b → u = v → String (digit_char a) u = String (digit_char b) v) as Hc by congruence.
    repeat apply Hc; [div_lia..|done]. }
  unfold get_year. rewrite sapp_assoc, getnum_digits by div_lia. cbn [mbind option_bind].
  rewrite getnum_digits by div_lia. cbn [mbind option_bind]. do 2 f_equal. div_lia.
Qed.

Lemma nanoseconds_digits n x : 0 ≤ x →
  nanoseconds (fixed_digits (S n) x) (10 ^ Z.of_nat n) = x mod 10 ^ Z.of_nat (S n).
Proof.
  intros Hx. induction n as [|n IH]; [cbn; rewrite digit_value_char by div_lia; simpl; div_lia|].
  change (fixed_digits (S (S n)) x) with
    (String (digit_char ((x / 10 ^ Z.of_nat (S n)) mod 10)) (fixed_digits (S n) x)).
  cbn [nanoseconds]. rewrite digit_value_char by div_lia. cbn [default].
  replace (10 ^ Z.of_nat (S n) / 10) with (10 ^ Z.of_nat n).
  2: { rewrite Nat2Z.inj_succ, Z.pow_succ_r, Z.mul_comm, Z.div_mul by div_lia. done. }
  rewrite IH. rewrite (Nat2Z.inj_succ (S n)), Z.pow_succ_r by div_lia. rewrite Z.mul_comm, Z.add_comm.
  rewrite (Z.mul_comm 10). symmetry. apply Z.rem_mul_r; div_lia.
Qed.

Lemma get_fraction_digits x rest : 0 ≤ x < Second →
  get_fraction ("." +:+ fixed_digits 9 x +:+ "Z" +:+ rest) = (x, "Z" +:+ rest).
Proof.
  intros Hx. autorewrite with sapp. cbn [get_fraction].
  change ((byte "." =? 0x2e) || (byte "." =? 0x2c)) with true. cbv iota beta.
  rewrite span_digits_all; [|apply fixed_digits_digits|done].
  destruct (fixed_digits 9 x) eqn:E; [done|]. rewrite <- E.
  change 100000000 with (10 ^ Z.of_nat 8). rewrite (nanoseconds_digits 8) by lia.
  rewrite Z.mod_small by done. done.
Qed.

Lemma expect_word w rest : expect w (w +:+ rest) = Some rest.
Proof.
  induction w as [|c w IH]; [done|]. rewrite sapp_cons. cbn [expect]. by rewrite Ascii.eqb_refl.
Qed.

Lemma time_Parse_timestamp t : int64_range t → time_Parse (timestamp t) = Some t.
Proof.
  unfold int64_range, MinInt64, MaxInt64. intros Ht. unfold timestamp.
  set (sec := t / Second). pose proof (date_spec (sec / 86400)) as H. pose proof (date_year (sec / 86400)) as Hy.
  assert (t = sec * Second + t mod Second ∧ 0 ≤ t mod Second < Second) as [Et Hns]
    by (unfold sec, Second; div_lia).
  assert (-9223372037 ≤ sec ≤ 9223372036) as Hsec by (unfold sec, Second; div_lia). clearbody sec.
  assert (sec = sec / 86400 * 86400 + sec mod 86400 ∧ 0 ≤ sec mod 86400 < 86400) as [Es Hs] by div_lia.
  destruct (date (sec / 86400)) as [[y m] d]. cbn [fst] in Hy. destruct H as (Ed&Hm&Hd).
  assert (1600 ≤ y < 2300) as Hy' by (apply Hy; div_lia). clear Hy.
  assert (daysIn m y ≤ 31) as Hd31 by (unfold daysIn; repeat case_match; lia).
  set (s := sec mod 86400) in *.
  assert (0 ≤ s / 3600 ≤ 23 ∧ 0 ≤ s / 60 mod 60 ≤ 59 ∧ 0 ≤ s mod 60 ≤ 59 ∧
    s = s / 3600 * 3600 + s / 60 mod 60 * 60 + s mod 60) as (Hh&Hmi&Hse&Es') by div_lia.
  unfold time_Parse. rewrite get_year_digits by lia. cbn [mbind option_bind]. rewrite expect_word. cbn [mbind option_bind].
  rewrite get_range_digits by lia. cbn [mbind option_bind]. rewrite expect_word. cbn [mbind option_bind].
  rewrite getnum_digits by lia. cbn [mbind option_bind]. rewrite expect_word. cbn [mbind option_bind].
  rewrite get_range_digits by lia. cbn [mbind option_bind]. rewrite expect_word. cbn [mbind option_bind].
  rewrite get_range_digits by lia. cbn [mbind option_bind]. rewrite expect_word. cbn [mbind option_bind].
  rewrite get_range_digits by lia. cbn [mbind option_bind].
  pose proof (get_fraction_digits (t mod Second) "" Hns) as Hf. rewrite sapp_nil_r in Hf. rewrite Hf. clear Hf.
  change (get_zone "Z") with (Some (0, ""%string)). cbn [mbind option_bind].
  rewrite (proj2 (Z.leb_le 1 d)), (proj2 (Z.leb_le d _)) by lia. cbn [andb]. f_equal. rewrite Ed. lia.
Qed.

(** A year and a dash are no float. *)
Lemma ParseFloat_date y rest : 1000 ≤ y < 3000 → ParseFloat (fixed_digits 4 y +:+ "-" +:+ rest) = Err ErrSyntax.
Proof.
  intros Hy. assert (∃ a b c d, (a = 1 ∨ a = 2) ∧ 0 ≤ b < 10 ∧ 0 ≤ c < 10 ∧ 0 ≤ d < 10 ∧
    fixed_digits 4 y = String (digit_char a) (String (digit_char b) (String (digit_char c) (String (digit_char d) ""))))
    as (a&b&c&d&Ha&Hb&Hc&Hd&->).
  { exists (y / 10 ^ Z.of_nat 3 mod 10), (y / 10 ^ Z.of_nat 2 mod 10), (y / 10 ^ Z.of_nat 1 mod 10),
      (y / 10 ^ Z.of_nat 0 mod 10). change (10 ^ Z.of_nat 3) with 1000. split_and!; try div_lia. done. }
  autorewrite with sapp. set (tail := String (digit_char b) _).
  assert (∀ m w, read_float false m w (String (digit_char a) tail) = None) as Hnone.
  { intros neg w. unfold read_float, tail. rewrite !read_mantissa_digit by lia.
    change (read_mantissa false ?m (String "-" rest)) with (m, String "-" rest). done. }
  unfold ParseFloat, special. destruct Ha as [-> | ->].
  - change (digit_char 1) with "1"%char in *. cbn [split_sign lower_string].
    rewrite !decide_False by (intuition discriminate). by rewrite Hnone.
  - change (digit_char 2) with "2"%char in *. cbn [split_sign lower_string].
    rewrite !decide_False by (intuition discriminate). by rewrite Hnone.
Qed.

Lemma ParseTime_timestamp arch t : int64_range t → ParseTime arch (timestamp t) = Ok t.
Proof.
  intros Ht. unfold ParseTime. rewrite (time_Parse_timestamp t Ht).
  unfold timestamp, int64_range, MinInt64, MaxInt64 in *.
  pose proof (date_year (t / Second / 86400)) as Hy. destruct (date _) as [[y m] d]. cbn [fst] in Hy.
  rewrite ParseFloat_date; [done|]. unfold Second in Hy. div_lia.
Qed.

Lemma timestamp_length t : String.length (timestamp t) = 30%nat.
Proof. unfold timestamp. by destruct (date _) as [[y m] d]. Qed.

(** C40: the timestamps of the log are times of queries.  For every time an [int64]
    of nanoseconds holds, what [Write] writes is a timestamp of thirty bytes and
    the line after a space, and the PromQL endpoint parses that timestamp, as it
    stands in a query's [time], [start] or [end], to the same nanosecond. *)
Theorem timestamp_roundtrip {W} (WriteString : string → W → W * (Z * option string)) arch t bytes w :
  int64_range t →
  ∃ ts, Write WriteString t bytes w = WriteString (ts +:+ " " +:+ bytes) w ∧
    String.length ts = 30%nat ∧ time_Parse ts = Some t ∧ ParseTime arch ts = Ok t.
Proof.
  intros Ht. exists (timestamp t).
  split_and!; [done|apply timestamp_length|by apply time_Parse_timestamp|by apply ParseTime_timestamp].
Qed.

Lemma timestamp_roundtrip_witness :
  ∃ ts, Write (λ s w, (w ++ [s], (Z.of_nat (String.length s), None))) 1709210096000000007 "Starting Log Cache..." [] =
      ([ts +:+ " " +:+ "Starting Log Cache..."], (52, None)) ∧
    String.length ts = 30%nat ∧ time_Parse ts = Some 1709210096000000007 ∧
    ParseTime (λ _, 0) ts = Ok 1709210096000000007.
Proof.
  destruct (timestamp_roundtrip (λ s w, (w ++ [s], (Z.of_nat (String.length s), @None string))) (λ _, 0)
    1709210096000000007 "Starting Log Cache..." []) as (ts&E&Hl&H1&H2).
  - unfold int64_range, MinInt64, MaxInt64. lia.
  - exists ts. split_and!; [|exact Hl|exact H1|exact H2]. rewrite E. cbn [app]. do 2 f_equal.
    rewrite !slength_app, Hl. done.
Defined.

(** The count handed back is that of the whole line: more than the bytes the caller
    gave, which [io.Writer] does not allow. *)
Lemma Write_overcounts t bytes (w : unit) :
  (Write (λ s w, (w, (Z.of_nat (String.length s), @None string))) t bytes w).2.1 =
    Z.of_nat (String.length bytes) + 31.
Proof.
  unfold Write. cbn [snd fst]. rewrite !slength_app.
  rewrite timestamp_length. simpl. lia.
Qed.
