(* ===== verification/UAA.v ===== *)
(** * The UAA client: reading and verifying tokens

    Models internal/auth/uaa_client.go.  The HTTP exchange with the UAA, the parsing
    and printing of URLs, the JOSE library (the headers of a token, the verification
    of its signature with a key) and the parsing of PEM blocks and keys are
    parameters.  Times are nanoseconds since 1970.  [Read] also reports whether it
    started a refresh of the keys in a goroutine of its own.  [log.Fatalf] in
    [NewUAAClient] is an error. *)

From S2P Require Import Prelude GoStrings Envelope PromQLSources GoFloat FloatRound GoFormat Json JsonDecode.
From S2P Require Import NumberText CAPI CFAuth Parsing.

(** A key is the bytes of a shared secret or an RSA public key. *)
Inductive PublicKey := Secret (bytes : string) | RSA (key : string).

Record tokenKey := mkTokenKey { KeyId : string; KeyValue : string; Algorithm : string }.

(** A JSON header value: the code only uses strings. *)
Inductive header := HString (s : string) | HOther.

#[export] Instance header_eq_dec : EqDecision header.
Proof. solve_decision. Defined.

Record UAAClient := mkUAA {
  uaa : URL;
  publicKeys : gmap string PublicKey;
  lastQueryTime : Z;
  minimumRefreshInterval : Z;
  username : string;
  password : string;
}.

Definition set_publicKeys (m : gmap string PublicKey) (c : UAAClient) : UAAClient :=
  mkUAA (uaa c) m (lastQueryTime c) (minimumRefreshInterval c) (username c) (password c).
Definition set_lastQueryTime (t : Z) (c : UAAClient) : UAAClient :=
  mkUAA (uaa c) (publicKeys c) t (minimumRefreshInterval c) (username c) (password c).

(** ** Construction *)
Inductive UAAOption :=
| WithMinimumRefreshInterval (interval : Z)
| WithBasicAuth (username password : string).

Definition apply_option (c : UAAClient) (o : UAAOption) : UAAClient :=
  match o with
  | WithMinimumRefreshInterval interval =>
      mkUAA (uaa c) (publicKeys c) (lastQueryTime c) interval (username c) (password c)
  | WithBasicAuth u p =>
      mkUAA (uaa c) (publicKeys c) (lastQueryTime c) (minimumRefreshInterval c) u p
  end.

Definition NewUAAClient (url_Parse : string → result string URL) (uaaAddr : string)
    (opts : list UAAOption) : result string UAAClient :=
  match url_Parse uaaAddr with
  | Err e => Err ("failed to parse UAA addr: " +:+ e)
  | Ok u =>
      let u := mkURL (Scheme u) (Host u) "token_keys" (RawQuery u) in
      Ok (foldl apply_option (mkUAA u ∅ 0 (5 * Second) "" "") opts)
  end.

(** ** JSON *)
Definition into_tokenKey : tokenKey → json → result string tokenKey :=
  into_struct bad_type (λ k kv,
    if named kv.1 "kid" then
      s ← into_string bad_type (KeyId k) kv.2; Ok (mkTokenKey s (KeyValue k) (Algorithm k))
    else if named kv.1 "value" then
      s ← into_string bad_type (KeyValue k) kv.2; Ok (mkTokenKey (KeyId k) s (Algorithm k))
    else if named kv.1 "alg" then
      s ← into_string bad_type (Algorithm k) kv.2; Ok (mkTokenKey (KeyId k) (KeyValue k) s)
    else Ok k).

(** The struct [tokenKeys] has one field. *)
Definition into_tokenKeys : slice tokenKey → json → result string (slice tokenKey) :=
  into_struct bad_type (λ ks kv,
    if named kv.1 "keys" then into_array bad_type (mkTokenKey "" "" "") into_tokenKey ks kv.2 else Ok ks).

Definition unmarshalTokenKeys (body : string) : result string (list tokenKey) :=
  match Decode (into_tokenKeys nil_slice) "unexpected EOF"%string body with
  | Err e => Err ("unable to decode json token keys from UAA: " +:+ e)
  | Ok dtks => Ok (slice_elements dtks)
  end.

Record decodedToken := mkDecoded { Value : string; Scope : slice string; Exp : float64; ExpTime : Z }.

Definition into_token : decodedToken → json → result string decodedToken :=
  into_struct bad_type (λ t kv,
    if named kv.1 "value" then
      v ← into_string bad_type (Value t) kv.2; Ok (mkDecoded v (Scope t) (Exp t) (ExpTime t))
    else if named kv.1 "scope" then
      s ← into_array bad_type ""%string (into_string bad_type) (Scope t) kv.2;
      Ok (mkDecoded (Value t) s (Exp t) (ExpTime t))
    else if named kv.1 "exp" then
      e ← into_float bad_type (Exp t) kv.2; Ok (mkDecoded (Value t) (Scope t) e (ExpTime t))
    else Ok t).

(** The instant of [time.Unix(sec, 0)], whose seconds are counted from the year 1
    in an int64; [zero_time] is [time.Time{}]. *)
Definition unixToInternal : Z := 62135596800.
Definition Unix (sec : Z) : Z := (wrap64 (sec + unixToInternal) - unixToInternal) * Second.
Definition zero_time : Z := - unixToInternal * Second.

(** [arch] is the conversion of a float that does not fit an int64. *)
Definition decodeToken (arch : float64 → Z) (payload : string) : result string decodedToken :=
  match Decode (into_token (mkDecoded "" nil_slice (S754_zero false) zero_time)) "unexpected EOF"%string payload with
  | Err e => Err ("unable to decode json token from UAA: " +:+ e)
  | Ok dt => Ok (mkDecoded (Value dt) (Scope dt) (Exp dt) (Unix (int64_of_float arch (Exp dt))))
  end.

(** The errors [Read] tells apart. *)
Inductive read_error :=
| AlgorithmError (alg : string)
| UnknownTokenKeyError (kid : string)
| OtherError (msg : string).

Definition Error (e : read_error) : string :=
  match e with
  | AlgorithmError alg => "unsupported algorithm: " +:+ alg
  | UnknownTokenKeyError kid => "using unknown token key: " +:+ kid
  | OtherError msg => msg
  end.

(** ** [trimBearer]: the regular expression [(?i)^bearer\s+] *)
Definition is_space (c : ascii) : bool :=
  bool_decide (nat_of_ascii c ∈ [9; 10; 12; 13; 32]%nat).

Fixpoint strip_prefix_fold (p s : string) : option string :=
  match p, s with
  | EmptyString, _ => Some s
  | String c p, String c' s => if decide (lower c' = c) then strip_prefix_fold p s else None
  | String _ _, EmptyString => None
  end.

Fixpoint strip_spaces (s : string) : string :=
  match s with
  | String c s' => if is_space c then strip_spaces s' else s
  | EmptyString => s
  end.

Definition trimBearer (authToken : string) : string :=
  match strip_prefix_fold "bearer" authToken with
  | Some (String c s) => if is_space c then strip_spaces s else authToken
  | _ => authToken
  end.

(** The request for the token keys. *)
Record KeysRequest := mkKeysRequest {
  keys_URL : URL; Content_Type : string; Basic_Auth : option (string * string) }.

Section UAA.
Context {W : Type}.
(** The GET of the token keys: a transport error, or the status and the body. *)
Variable Do : KeysRequest → W → W * result string Response.
(** [http.NewRequest] of a printed URL: it parses it again. *)
Variable NewRequest : URL → result string URL.
(** [pem.Decode]: the bytes of the first block. *)
Variable pem_Decode : string → option string.
(** [x509.ParsePKIXPublicKey]: a key, of RSA or another kind. *)
Variable ParsePKIXPublicKey : string → result string (option string).
(** The library's view of a token: its headers, and its payload under a key. *)
Variable jose_headers : string → result string (gmap string header).
Variable jose_verify : string → PublicKey → result string string.
Variable arch : float64 → Z.

(** The key of one entry of the response. *)
Definition parse_key (k : tokenKey) : result string PublicKey :=
  if decide (KeyValue k = "") then Err "received an empty token key from UAA"%string
  else if decide (Algorithm k = "HS256") then Ok (Secret (KeyValue k))
  else
    match pem_Decode (KeyValue k) with
    | None => Err "failed to parse PEM block containing the public key"%string
    | Some block =>
        match ParsePKIXPublicKey block with
        | Err e => Err ("error parsing public key: " +:+ e)
        | Ok None => Err "did not get a valid RSA key from UAA: %!s(<nil>)"%string
        | Ok (Some publicKey) => Ok (RSA publicKey)
        end
    end.

(** The loop over the keys: the keys stored so far, the ids still to prune. *)
Fixpoint store_keys (keys : list tokenKey) (m : gmap string PublicKey) (current : gset string) :
    gmap string PublicKey * result string (gset string) :=
  match keys with
  | [] => (m, Ok current)
  | k :: keys =>
      match parse_key k with
      | Err e => (m, Err e)
      | Ok p => store_keys keys (<[KeyId k := p]> m) (current ∖ {[KeyId k]})
      end
  end.

Definition keys_request (c : UAAClient) (url : URL) : KeysRequest :=
  mkKeysRequest url "application/json"
    (if decide (username c = "") then None else Some (username c, password c)).

Definition RefreshTokenKeys (now now' : Z) (c : UAAClient) (w : W) :
    outcome (UAAClient * W * result string unit) :=
  if now <? lastQueryTime c + minimumRefreshInterval c
  then Done (c, w, Err "UAA TokenKey refresh throttled"%string)
  else
    let c := set_lastQueryTime now' c in
    match NewRequest (uaa c) with
    | Err _ => Panic
    | Ok url =>
        let '(w, resp) := Do (keys_request c url) w in
        Done match resp with
        | Err e => (c, w, Err ("failed to get token keys from UAA: " +:+ e))
        | Ok resp =>
            if negb (StatusCode resp =? StatusOK)
            then (c, w, Err "got an invalid status code talking to UAA"%string)
            else
              match unmarshalTokenKeys (Body resp) with
              | Err e => (c, w, Err e)
              | Ok tokenKeys =>
                  let '(m, r) := store_keys tokenKeys (publicKeys c) (dom (publicKeys c)) in
                  match r with
                  | Err e => (set_publicKeys m c, w, Err e)
                  | Ok currentKeyIds =>
                      (set_publicKeys (filter (λ kv, kv.1 ∉ currentKeyIds) m) c, w, Ok tt)
                  end
              end
        end
    end.

Definition loadOrFetchPublicKey (now now' : Z) (keyId : string) (c : UAAClient) (w : W) :
    outcome (UAAClient * W * result read_error PublicKey) :=
  match publicKeys c !! keyId with
  | Some k => Done (c, w, Ok k)
  | None =>
      '(c, w, _) ← RefreshTokenKeys now now' c w;
      Done (c, w, match publicKeys c !! keyId with
                  | Some k => Ok k
                  | None => Err (UnknownTokenKeyError keyId)
                  end)
  end.

(** The callback of [jose.Decode]. *)
Definition key_callback (now now' : Z) (headers : gmap string header) (c : UAAClient) (w : W) :
    outcome (UAAClient * W * result read_error PublicKey) :=
  let is_alg s := bool_decide (headers !! "alg"%string = Some (HString s)) in
  if negb (is_alg "RS256"%string) && negb (is_alg "HS256"%string) then
    match headers !! "alg"%string with
    | Some (HString a) => Done (c, w, Err (AlgorithmError a))
    | _ => Panic
    end
  else
    match headers !! "kid"%string with
    | Some (HString keyId) => loadOrFetchPublicKey now now' keyId c w
    | _ => Panic
    end.

(** [jose.Decode] with the callback. *)
Definition decode (now now' : Z) (token : string) (c : UAAClient) (w : W) :
    outcome (UAAClient * W * result read_error string) :=
  match jose_headers token with
  | Err e => Done (c, w, Err (OtherError e))
  | Ok headers =>
      '(c, w, key) ← key_callback now now' headers c w;
      Done (c, w, match key with
                  | Err e => Err e
                  | Ok k => match jose_verify token k with
                            | Ok payload => Ok payload
                            | Err e => Err (OtherError e)
                            end
                  end)
  end.

Definition is_admin_scope (scope : string) : bool :=
  bool_decide (scope = "doppler.firehose" ∨ scope = "logs.admin")%string.

(** [now''] is the clock when the expiry is checked. *)
Definition Read (now now' now'' : Z) (token : string) (c : UAAClient) (w : W) :
    outcome (UAAClient * W * result string Oauth2ClientContext * bool) :=
  if decide (token = "") then Done (c, w, Err "missing token"%string, false)
  else
    '(c, w, payload) ← decode now now' (trimBearer token) c w;
    match payload with
    | Err e =>
        let refresh := match e with OtherError _ => true | _ => false end in
        Done (c, w, Err ("failed to decode token: " +:+ Error e), refresh)
    | Ok payload =>
        match decodeToken arch payload with
        | Err e => Done (c, w, Err ("failed to unmarshal token: " +:+ e), false)
        | Ok dt =>
            if ExpTime dt <? now'' then Done (c, w, Err "token is expired"%string, false)
            else Done (c, w, Ok (mkContext (existsb is_admin_scope (slice_elements (Scope dt))) token (ExpTime dt)), false)
        end
    end.

(** ** Contract *)

(** [Read] changes the client and the world by a refresh of the keys at most. *)
Lemma Read_moves now now' now'' token c w c' w' r b :
  Read now now' now'' token c w = Done (c', w', r, b) →
  (c' = c ∧ w' = w) ∨ ∃ res, RefreshTokenKeys now now' c w = Done (c', w', res).
Proof.
  unfold Read. case_decide as Hne; [intros [= <- <- _ _]; by left|].
  intros ([[c1 w1] payload]&Hd&H)%bind_Done.
  assert (c' = c1 ∧ w' = w1) as [-> ->] by
    (destruct payload as [payload|]; [|by injection H as -> -> _ _];
     destruct (decodeToken arch payload) as [dt|]; [destruct (_ <? _)|]; by injection H as -> -> _ _).
  unfold decode in Hd. destruct (jose_headers _) as [headers|]; [|injection Hd as <- <- _; by left].
  apply bind_Done in Hd as ([[c2 w2] key]&Hk&Hd). injection Hd as -> -> _. unfold key_callback in Hk.
  destruct (negb _ && negb _).
  { destruct (headers !! "alg"%string) as [[]|]; [|done..]. injection Hk as <- <- _. by left. }
  destruct (headers !! "kid"%string) as [[kid|]|]; [|done..]. unfold loadOrFetchPublicKey in Hk.
  destruct (publicKeys c !! kid); [injection Hk as <- <- _; by left|].
  apply bind_Done in Hk as ([[c3 w3] res]&Hr&Hk). injection Hk as <- <- _. right. by exists res.
Qed.

Lemma loadOrFetch_loaded now now' kid c w c' w' key :
  loadOrFetchPublicKey now now' kid c w = Done (c', w', Ok key) → publicKeys c' !! kid = Some key.
Proof.
  unfold loadOrFetchPublicKey. destruct (publicKeys c !! kid) as [k|] eqn:Ep; [by intros [= <- <- <-]|].
  intros ([[c3 w3] r]&_&H)%bind_Done. injection H as -> -> Hk.
  destruct (publicKeys c' !! kid); by simplify_eq.
Qed.

(** C21: a token is accepted only if it is not empty, its algorithm is RS256 or
    HS256, the client holds a key with its key id, its signature verifies with
    that key and it has not expired; the user is an administrator exactly if a
    scope is [doppler.firehose] or [logs.admin]. *)
Theorem Read_sound now now' now'' token c w c' w' ctx refresh :
  Read now now' now'' token c w = Done (c', w', Ok ctx, refresh) →
  token ≠ "" ∧ Token ctx = token ∧ refresh = false ∧
  ∃ headers alg kid key payload dt,
    jose_headers (trimBearer token) = Ok headers ∧
    headers !! "alg"%string = Some (HString alg) ∧ (alg = "RS256" ∨ alg = "HS256")%string ∧
    headers !! "kid"%string = Some (HString kid) ∧ publicKeys c' !! kid = Some key ∧
    jose_verify (trimBearer token) key = Ok payload ∧
    decodeToken arch payload = Ok dt ∧ now'' ≤ ExpTime dt ∧ ExpiresAt ctx = ExpTime dt ∧
    (IsAdmin ctx = true ↔
     ("doppler.firehose" ∈ slice_elements (Scope dt) ∨ "logs.admin" ∈ slice_elements (Scope dt))%string).
Proof.
  unfold Read. case_decide as Hne; [done|]. intros H.
  apply bind_Done in H as ([[c1 w1] pl]&Hd&H). destruct pl as [payload|]; [|done].
  destruct (decodeToken arch payload) as [dt|] eqn:Et; [|done].
  destruct (Z.ltb_spec (ExpTime dt) now''); [done|]. injection H as -> -> <- <-.
  split_and!; [done..|]. unfold decode in Hd.
  destruct (jose_headers (trimBearer token)) as [headers|] eqn:Eh; [|done].
  apply bind_Done in Hd as ([[c2 w2] key]&Hk&Hd). destruct key as [key|]; [|done].
  destruct (jose_verify (trimBearer token) key) as [payload'|] eqn:Ev; [|done].
  injection Hd as -> -> ->. unfold key_callback in Hk.
  destruct (negb _ && negb _) eqn:Eb.
  { by destruct (headers !! "alg"%string) as [[alg|]|]. }
  assert (∃ alg, headers !! "alg"%string = Some (HString alg) ∧ (alg = "RS256" ∨ alg = "HS256")%string) as (alg&Ha&Halg).
  { apply andb_false_iff in Eb as [Eb|Eb]; apply negb_false_iff, bool_decide_eq_true in Eb; eauto. }
  destruct (headers !! "kid"%string) as [[kid|]|] eqn:Ek; try done.
  exists headers, alg, kid, key, payload, dt. split_and!; try done.
  - by eapply loadOrFetch_loaded.
  - simpl. rewrite existsb_exists. setoid_rewrite <- list_elem_of_In. unfold is_admin_scope.
    setoid_rewrite bool_decide_eq_true. naive_solver.
Qed.

End UAA.

Section Refresh.
Context {W : Type}.
Variable Do : KeysRequest → W → W * result string Response.
Variable NewRequest : URL → result string URL.
Variable pem_Decode : string → option string.
Variable ParsePKIXPublicKey : string → result string (option string).
Notation parse_key := (parse_key pem_Decode ParsePKIXPublicKey).
Notation store_keys := (store_keys pem_Decode ParsePKIXPublicKey).
Notation RefreshTokenKeys := (RefreshTokenKeys Do NewRequest pem_Decode ParsePKIXPublicKey).

(** The keys of a response, a later entry over an earlier one with its id. *)
Definition keys_of (keys : list tokenKey) : gmap string PublicKey :=
  foldl (λ m k, match parse_key k with Ok p => <[KeyId k := p]> m | Err _ => m end) ∅ keys.

Lemma store_keys_ok keys m current :
  Forall (λ k, failed (parse_key k) = false) keys →
  store_keys keys m current =
  (foldl (λ m k, match parse_key k with Ok p => <[KeyId k := p]> m | Err _ => m end) m keys,
   Ok (current ∖ list_to_set (map KeyId keys))).
Proof.
  intros Hk. revert m current. induction Hk as [|k keys Hk _ IH]; intros m current; simpl.
  { do 2 f_equal. set_solver. }
  destruct (parse_key k) as [p|]; [|done]. rewrite IH. do 2 f_equal. set_solver.
Qed.

Lemma foldl_keys_lookup keys (m : gmap string PublicKey) kid :
  foldl (λ m k, match parse_key k with Ok p => <[KeyId k := p]> m | Err _ => m end) m keys !! kid =
  match keys_of keys !! kid with Some p => Some p | None => m !! kid end.
Proof.
  unfold keys_of. induction keys as [|k keys IH] using rev_ind; simpl; [by rewrite lookup_empty|].
  rewrite !foldl_app. simpl. destruct (parse_key k) as [p|]; [|done].
  rewrite !lookup_insert. by case_decide.
Qed.

Lemma store_keys_err keys m current kid :
  kid ∉ map KeyId keys → (store_keys keys m current).1 !! kid = m !! kid.
Proof.
  revert m current. induction keys as [|k keys IH]; intros m current; simpl; [done|].
  rewrite not_elem_of_cons. intros [Hne Hk]. destruct (parse_key k) as [p|]; [|done].
  rewrite IH by done. by rewrite lookup_insert_ne.
Qed.

Lemma keys_of_dom keys kid :
  Forall (λ k, failed (parse_key k) = false) keys →
  is_Some (keys_of keys !! kid) ↔ kid ∈ map KeyId keys.
Proof.
  unfold keys_of. induction keys as [|k keys IH] using rev_ind; intros Hk; simpl.
  { rewrite lookup_empty. split; [by intros []|by intros ?%not_elem_of_nil]. }
  apply Forall_app in Hk as [Hk Hl]. rewrite Forall_singleton in Hl. rewrite foldl_app, map_app, elem_of_app.
  simpl. rewrite list_elem_of_singleton. simpl in Hl.
  destruct (parse_key k) as [p|]; [|done].
  rewrite lookup_insert_is_Some, IH by done. destruct (decide (KeyId k = kid)); naive_solver.
Qed.

Lemma store_keys_fails keys m current :
  ¬ Forall (λ k, failed (parse_key k) = false) keys →
  ∃ m' e, store_keys keys m current = (m', Err e).
Proof.
  revert m current. induction keys as [|k keys IH]; intros m current Hk; simpl; [by destruct Hk|].
  destruct (parse_key k) as [p|e] eqn:E; [|eauto]. apply IH. intros Hf. apply Hk.
  constructor; [by rewrite E|done].
Qed.

(** Pruning the ids that the response does not have leaves the keys it has. *)
Lemma keys_pruned keys (m : gmap string PublicKey) :
  Forall (λ k, failed (parse_key k) = false) keys →
  filter (λ kv, kv.1 ∉ dom m ∖ list_to_set (map KeyId keys))
    (foldl (λ m k, match parse_key k with Ok p => <[KeyId k := p]> m | Err _ => m end) m keys) = keys_of keys.
Proof.
  intros Hk. apply map_eq. intros kid. apply option_eq. intros p.
  rewrite map_lookup_filter_Some, foldl_keys_lookup. simpl.
  rewrite elem_of_difference, elem_of_list_to_set, elem_of_dom.
  pose proof (keys_of_dom keys kid Hk) as Hd.
  destruct (keys_of keys !! kid) as [p'|].
  - split; [by intros [? _]|]. intros ->. split; [done|]. intros [_ Hn]. apply Hn, Hd. eauto.
  - split; [|done]. intros [Hp Hn]. exfalso. apply Hn. split; [by eexists|].
    intros Hin%Hd. by destruct Hin.
Qed.

(** C23: a refresh within the minimum interval of the last one changes nothing and
    asks nobody.  A refresh that succeeds leaves exactly the keys of the
    response, so a key the UAA dropped is forgotten; one that fails keeps every
    key the response does not mention. *)
Theorem RefreshTokenKeys_keys now now' c w url :
  NewRequest (uaa c) = Ok url →
  ∃ c' w' r, RefreshTokenKeys now now' c w = Done (c', w', r) ∧
  if decide (now < lastQueryTime c + minimumRefreshInterval c)
  then c' = c ∧ w' = w ∧ failed r = true
  else lastQueryTime c' = now' ∧
    match (Do (keys_request c url) w).2 with
    | Ok (mkResponse 200 body) =>
        match unmarshalTokenKeys body with
        | Ok keys =>
            if decide (Forall (λ k, failed (parse_key k) = false) keys)
            then r = Ok tt ∧ publicKeys c' = keys_of keys
            else failed r = true ∧ ∀ kid, kid ∉ map KeyId keys → publicKeys c' !! kid = publicKeys c !! kid
        | Err _ => failed r = true ∧ publicKeys c' = publicKeys c
        end
    | _ => failed r = true ∧ publicKeys c' = publicKeys c
    end.
Proof.
  intros Hurl. unfold RefreshTokenKeys. destruct (decide _) as [Hlt|Hge].
  { rewrite (proj2 (Z.ltb_lt _ _)) by lia. by do 3 eexists. }
  rewrite (proj2 (Z.ltb_ge _ _)) by lia. cbn [uaa set_lastQueryTime]. rewrite Hurl.
  change (keys_request (set_lastQueryTime now' c) url) with (keys_request c url).
  destruct (Do (keys_request c url) w) as [w1 resp]. cbn [snd].
  destruct resp as [[code body]|e]; [|by do 3 eexists]. cbn [StatusCode Body].
  unfold StatusOK. destruct (Z.eqb_spec code 200) as [->|Hne].
  2: { do 3 eexists. split; [done|]. split; [done|].
       repeat match goal with |- match ?x with _ => _ end => destruct x; try done end. }
  cbn [negb]. destruct (unmarshalTokenKeys body) as [keys|e]; [|by do 3 eexists].
  change (publicKeys (set_lastQueryTime now' c)) with (publicKeys c).
  destruct (decide (Forall (λ k, failed (parse_key k) = false) keys)) as [Hk|Hk].
  - rewrite store_keys_ok by done. do 3 eexists. split; [done|]. split_and!; [done..|].
    by apply keys_pruned.
  - destruct (store_keys_fails keys (publicKeys c) (dom (publicKeys c)) Hk) as (m&e&Es).
    pose proof (store_keys_err keys (publicKeys c) (dom (publicKeys c))) as Hm.
    rewrite Es in *. do 3 eexists. split; [done|]. split_and!; [done..|]. simpl. auto.
Qed.
End Refresh.

(** ** Tokens and keys as the UAA writes them *)
Definition token_json (scope : list string) (exp : Z) : json :=
  JObject [("scope", JArray (JString <$> scope)); ("exp", JNumber (FormatInt exp))].

Definition key_json (k : tokenKey) : json :=
  JObject [("kid", JString (KeyId k)); ("alg", JString (Algorithm k)); ("value", JString (KeyValue k))].
Definition keys_json (ks : list tokenKey) : json := JObject [("keys", JArray (key_json <$> ks))].

Lemma is_number_FormatInt n : 0 ≤ n → is_number (FormatInt n) = true.
Proof.
  intros Hn. assert (FormatInt n = fmt_fixed false n 0) as ->; [|by apply is_number_fmt_fixed].
  unfold fmt_fixed. change (10 ^ Z.of_nat 0) with 1. by rewrite Z.div_1_r, sapp_nil, sapp_nil_r.
Qed.

Lemma int64_of_float_int arch n : 0 ≤ n < 2 ^ 53 → int64_of_float arch (float_of_int n) = n.
Proof.
  intros Hn. destruct (decide (n = 0)) as [->|]; [by vm_compute|].
  unfold int64_of_float. rewrite (float_trunc_int _ n 0); [|lia|lia|apply float_of_int_pos; lia].
  unfold MinInt64, MaxInt64. rewrite Z.pow_0_r, Z.mul_1_r.
  by rewrite (proj2 (Z.leb_le _ _)), (proj2 (Z.leb_le _ _)) by lia.
Qed.

Lemma decodeToken_json arch scope exp :
  Forall utf8 scope → 0 ≤ exp < 2 ^ 53 →
  ∃ dt, decodeToken arch (encode (token_json scope exp)) = Ok dt ∧ slice_elements (Scope dt) = scope ∧
    ExpTime dt = exp * Second.
Proof.
  intros Hs He. unfold decodeToken. rewrite <- (sapp_nil_r (encode _)), Decode_encode; [|..|done].
  - destruct (into_array_back bad_type "" (into_string bad_type) JString scope) as (s&Es&<-); [done|].
    unfold token_json, into_token. cbn [into_struct fold_result fst snd].
    change (named "scope" "value") with false. change (named "scope" "scope") with true.
    change (named "exp" "value") with false. change (named "exp" "scope") with false.
    change (named "exp" "exp") with true. cbv iota. cbn [Scope]. rewrite Es.
    cbn [mbind result_bind Scope Value Exp ExpTime into_float]. rewrite ParseFloat_int by done.
    cbn [mbind result_bind Scope Value Exp ExpTime]. eexists. split; [done|]. split; [done|]. cbn [ExpTime].
    rewrite int64_of_float_int by done. unfold Unix. rewrite wrap64_id; [lia|].
    unfold int64_range, MinInt64, MaxInt64, unixToInternal. lia.
  - constructor; [done|]. members.
    + constructor; [done|]. rewrite Forall_fmap. eapply Forall_impl; [exact Hs|]. intros. by constructor.
    + constructor. apply is_number_FormatInt. lia.
Qed.

Lemma unmarshalTokenKeys_json ks :
  Forall (λ k, utf8 (KeyId k) ∧ utf8 (Algorithm k) ∧ utf8 (KeyValue k)) ks →
  unmarshalTokenKeys (encode (keys_json ks)) = Ok ks.
Proof.
  intros Hks. unfold unmarshalTokenKeys. rewrite <- (sapp_nil_r (encode _)), Decode_encode; [|..|done].
  - destruct (into_array_back bad_type (mkTokenKey "" "" "") into_tokenKey key_json ks) as (s&Es&Hs);
      [by intros []|].
    unfold keys_json, into_tokenKeys. cbn [into_struct fold_result fst snd].
    change (named "keys" "keys") with true. cbv iota. rewrite Es. cbn. by rewrite Hs.
  - constructor; [done|]. members. constructor; [done|]. rewrite Forall_fmap.
    eapply Forall_impl; [exact Hks|]. intros k (?&?&?). constructor; [done|]. by members; constructor.
Qed.


(** ** Witnesses *)
Definition demo_url : URL := mkURL "https" "uaa" "token_keys" "".
Definition demo_headers : gmap string header :=
  {[ "alg"%string := HString "HS256"; "kid"%string := HString "k1" ]}.
Definition demo_uaa : UAAClient := mkUAA demo_url {[ "k1"%string := Secret "s1" ]} 0 5 "admin" "secret".
Definition demo_keys : list tokenKey := [mkTokenKey "k2" "s2" "HS256"; mkTokenKey "k3" "pem" "RS256"].
Definition demo_Do (r : KeysRequest) (w : nat) : nat * result string Response :=
  (S w, if decide (Basic_Auth r = Some ("admin", "secret")%string)
        then Ok (mkResponse 200 (encode (keys_json demo_keys))) else Ok (mkResponse 401 "")).
Definition demo_parse_headers (t : string) : result string (gmap string header) :=
  if decide (t = "tok"%string) then Ok demo_headers else Err "bad"%string.
Definition demo_verify (t : string) (k : PublicKey) : result string string :=
  match k with Secret s => Ok (encode (token_json ["logs.admin"%string] 100)) | RSA _ => Err "bad"%string end.

Lemma RefreshTokenKeys_keys_witness :
  ∃ c' w', RefreshTokenKeys demo_Do Ok Some (λ b, Ok (Some b)) 10 11 demo_uaa 0%nat = Done (c', w', Ok tt) ∧
    publicKeys c' = keys_of Some (λ b, Ok (Some b)) demo_keys.
Proof.
  destruct (RefreshTokenKeys_keys demo_Do Ok Some (λ b, Ok (Some b)) 10 11 demo_uaa 0%nat demo_url)
    as (c'&w'&r&->&H); [done|].
  rewrite decide_False in H by (simpl; lia). destruct H as [_ H].
  change ((demo_Do _ _).2) with (Ok (E := string) (mkResponse 200 (encode (keys_json demo_keys)))) in H.
  cbv iota in H. rewrite unmarshalTokenKeys_json in H by (repeat constructor).
  rewrite decide_True in H by (by repeat constructor). destruct H as [-> H]. eauto.
Defined.

Lemma Read_sound_witness :
  ∃ headers alg kid key payload dt,
    demo_parse_headers (trimBearer "Bearer  tok") = Ok headers ∧
    headers !! "alg"%string = Some (HString alg) ∧ (alg = "RS256" ∨ alg = "HS256")%string ∧
    headers !! "kid"%string = Some (HString kid) ∧ publicKeys demo_uaa !! kid = Some key ∧
    demo_verify (trimBearer "Bearer  tok") key = Ok payload ∧
    decodeToken (λ _, 0) payload = Ok dt ∧ 20 ≤ ExpTime dt ∧ 100 * Second = ExpTime dt ∧
    (true = true ↔
     ("doppler.firehose" ∈ slice_elements (Scope dt) ∨ "logs.admin" ∈ slice_elements (Scope dt))%string).
Proof.
  refine (proj2 (proj2 (proj2 (Read_sound demo_Do Ok Some (λ b, Ok (Some b)) demo_parse_headers
    demo_verify (λ _, 0) 10 10 20 "Bearer  tok" demo_uaa 0%nat demo_uaa 0%nat
    (mkContext true "Bearer  tok" (100 * Second)) false _)))).
  by vm_compute.
Defined.


(** A token without the header [kid], or whose algorithm is not a string, makes
    [Read] panic on a type assertion. *)
Fact Read_panics_without_kid :
  Read demo_Do Ok Some (λ b, Ok (Some b)) (λ _, Ok {[ "alg"%string := HString "RS256" ]})
    (λ _ _, Err "bad"%string) (λ _, 0) 0 0 0 "t" demo_uaa 0%nat = Panic.
Proof. by vm_compute. Qed.

(** The seconds of a huge expiry wrap around: the token counts as expired long ago. *)
Fact huge_exp_is_expired :
  match decodeToken (λ _, MaxInt64) (encode (JObject [("exp", JNumber "9223372036854774784")])) with
  | Ok dt => ExpTime dt < 0
  | Err _ => False
  end.
Proof. by vm_compute. Qed.
