(* ===== verification/CFAuthCommand.v ===== *)
(** * The command cf-auth-proxy

    Models cmd/cf-auth-proxy/main.go: the clients of the UAA and of the Cloud
    Controller, with the HTTP clients they are given, plugged into the middleware
    and the proxy of AuthProxy.v.  The world of the clients is the history of what
    they asked and were answered; the answers are any function of the history.

    The theorem follows a request through all of it: what the gateway of a running
    command ever receives was vouched for by the UAA and the Cloud Controller.

    A translation of names or a list of sources that needs more than [fuel] pages
    is given up, as if it had failed; the real loop goes on, with the request in it
    unanswered.  [log.Fatalf] and [panic] both end the process: [Panic]. *)

From S2P Require Import Prelude GoStrings GoFloat Json JsonDecode NetURL AccessLog Envelope PromQLSources CAPI Config CFAuth.
From S2P Require Import AuthProxy Parsing UAA.

(** ** The HTTP clients *)
Record TLSClient := mkTLSClient {
  authority : string; serverName : option string; InsecureSkipVerify : bool }.
(** A client without a transport of its own uses the default one. *)
Record HTTPClient := mkHTTPClient { Timeout : Z; Transport : option TLSClient }.

Inductive exchange :=
| AskedUAA (r : KeysRequest) (answer : result string Response)
| AskedCAPI (u : CAPI.URL) (token : string) (answer : result string Response)
| AskedMeta (answer : result string (gmap string MetaInfo)).

Record Clients := mkClients {
  uaa_client : UAAClient;
  capi_client : CAPIClient;
  history : list exchange;
}.

Section Command.
Import Config.CFAuthProxyConfig.
Context {CertPool : Type}.
Variable url_Parse : string → result string CAPI.URL.
Variable url_String : CAPI.URL → string.
(** The files of the environment. *)
Variable ReadFile : string → result string string.
Variable AppendCertsFromPEM : string → option CertPool.
Variable tls_Client : string → option string → option string.
Variable OpenFile : string → option string.
Variable write_error : string → option string.
(** The libraries. *)
Variable pem_Decode : string → option string.
Variable ParsePKIXPublicKey : string → result string (option string).
Variable jose_headers : string → result string (gmap string header).
Variable jose_verify : string → PublicKey → result string string.
Variable arch : float64 → Z.
Variable chi : Request → route.
Variable ParseExpr : string → result string Expr.
Variable print_expr : Expr → string.
Variable order : gset string → list string.
(** The servers and the clock. *)
Variable uaa_answer : HTTPClient → list exchange → KeysRequest → result string Response.
Variable capi_answer : HTTPClient → list exchange → CAPI.URL → string → result string Response.
Variable meta_answer : option CertPool → list exchange → result string (gmap string MetaInfo).
Variable times : list exchange → Z * Z * Z.
Variable fuel : nat.

(** [buildUAAClient] and [buildCAPIClient]. *)
Definition build_client (CAPath : string) (name : option string) (skip : bool) : outcome HTTPClient :=
  if decide (CAPath = "") then Done (mkHTTPClient (20 * Second) None)
  else
    match tls_Client CAPath name with
    | Some _ => Panic
    | None => Done (mkHTTPClient (20 * Second) (Some (mkTLSClient CAPath name skip)))
    end.

Definition buildUAAClient (cfg : Config) : outcome HTTPClient :=
  build_client (uaa_CAPath (cfg_UAA cfg)) None (SkipCertVerify cfg).
Definition buildCAPIClient (cfg : Config) : outcome HTTPClient :=
  build_client (CAPath (cfg_CAPI cfg)) (Some (CommonName (cfg_CAPI cfg))) (SkipCertVerify cfg).

Definition loadCA (caCertPath : string) : outcome CertPool :=
  match ReadFile caCertPath with
  | Err _ => Panic
  | Ok caCert => must (AppendCertsFromPEM caCert)
  end.

Definition uaa_options (cfg : Config) : list UAAOption :=
  if decide (ClientID (cfg_UAA cfg) ≠ "" ∧ ClientSecret (cfg_UAA cfg) ≠ "")
  then [WithBasicAuth (ClientID (cfg_UAA cfg)) (ClientSecret (cfg_UAA cfg))] else [].

(** [log.Fatalf]. *)
Definition or_exit {E A} (r : result E A) : outcome A :=
  match r with Ok a => Done a | Err _ => Panic end.

(** ** The clients as the middleware uses them *)
Section Operations.
Variables uaa_http capi_http : HTTPClient.
(** The client of the metadata and the proxy share their root certificates. *)
Variable meta_roots : option CertPool.

Definition NewRequest (u : CAPI.URL) : result string CAPI.URL := url_Parse (url_String u).

Definition uaa_Do (r : KeysRequest) (h : list exchange) : list exchange * result string Response :=
  let answer := uaa_answer uaa_http h r in (h ++ [AskedUAA r answer], answer).
Definition capi_Do (u : CAPI.URL) (token : string) (h : list exchange) :
    list exchange * result string Response :=
  let answer := capi_answer capi_http h u token in (h ++ [AskedCAPI u token answer], answer).

Definition oauth2_Read (token : string) (a : Clients) :
    outcome (Clients * result string Oauth2ClientContext) :=
  let '(t1, t2, t3) := times (history a) in
  '(u, h, c, _) ← UAA.Read uaa_Do NewRequest pem_Decode ParsePKIXPublicKey jose_headers jose_verify arch
                    t1 t2 t3 token (uaa_client a) (history a);
  Done (mkClients u (capi_client a) h, c).

Definition RefreshKeys (a : Clients) : outcome (Clients * result string unit) :=
  let '(t1, t2, _) := times (history a) in
  '(u, h, r) ← UAA.RefreshTokenKeys uaa_Do NewRequest pem_Decode ParsePKIXPublicKey t1 t2
                 (uaa_client a) (history a);
  Done (mkClients u (capi_client a) h, r).

Definition IsAuthorized (sourceId token : string) (a : Clients) : Clients * bool :=
  let '(c, h, ok) := CAPI.IsAuthorized capi_Do url_Parse (times (history a)).1.1 (capi_client a)
                       sourceId token (history a) in
  (mkClients (uaa_client a) c h, ok).

Definition set_history (h : list exchange) (a : Clients) : Clients :=
  mkClients (uaa_client a) (capi_client a) h.

Definition GetRelatedSourceIds (appNames : list string) (token : string) (a : Clients) :
    Clients * option (gmap string (list string)) :=
  match CAPI.GetRelatedSourceIds capi_Do url_Parse fuel (capi_client a) appNames token (history a) with
  | Some (h, m) => (set_history h a, Some m)
  | None => (a, None)
  end.

Definition AvailableSourceIDs (token : string) (a : Clients) : Clients * list string :=
  match CAPI.AvailableSourceIDs capi_Do url_Parse fuel (capi_client a) token (history a) with
  | Some (h, ids) => (set_history h a, ids)
  | None => (a, [])
  end.

Definition Meta (a : Clients) : Clients * result string (gmap string MetaInfo) :=
  let answer := meta_answer meta_roots (history a) in (set_history (history a ++ [AskedMeta answer]) a, answer).

Definition pruneTokens (now : Z) (a : Clients) : Clients :=
  mkClients (uaa_client a) (CAPI.pruneTokens now (capi_client a)) (history a).

Definition middleware := Middleware chi oauth2_Read IsAuthorized AvailableSourceIDs Meta
  GetRelatedSourceIds ParseExpr print_expr order.
End Operations.

(** ** [main]: the clients, the state they start in and the proxy *)
Record command := mkCommand {
  cmd_uaa_http : HTTPClient;
  cmd_capi_http : HTTPClient;
  cmd_clients : Clients;
  cmd_meta_roots : option CertPool;
  cmd_proxy : CFAuthProxy (A := Clients) (URL := CAPI.URL) (CertPool := CertPool);
}.

Definition main (cfg : Config) : outcome command :=
  uaa_http ← buildUAAClient cfg;
  uaaClient ← or_exit (NewUAAClient url_Parse (uaa_Addr (cfg_UAA cfg)) (uaa_options cfg));
  _ ← or_exit (url_Parse (LogCacheGatewayAddr cfg));
  capi_http ← buildCAPIClient cfg;
  capiClient ← or_exit (NewCAPIClient url_Parse (Addr (cfg_CAPI cfg))
                          [WithCacheExpirationInterval (CacheExpirationInterval cfg)]);
  roots ← (if decide (ProxyCAPath cfg = "") then Done None else Some <$> loadCA (ProxyCAPath cfg));
  proxy ← main_proxy url_Parse url_String loadCA OpenFile write_error
            (middleware uaa_http capi_http roots) cfg;
  Done (mkCommand uaa_http capi_http (mkClients uaaClient capiClient []) roots proxy).

(** ** The running command *)

(** What the history shows of keys and of answers of the Cloud Controller. *)
Definition known_key (h : list exchange) (kid : string) (key : PublicKey) : Prop :=
  ∃ r body keys k, AskedUAA r (Ok (mkResponse 200 body)) ∈ h ∧ unmarshalTokenKeys body = Ok keys ∧
    k ∈ keys ∧ KeyId k = kid ∧ parse_key pem_Decode ParsePKIXPublicKey k = Ok key.

Definition cc_found (address : string) (h : list exchange) (token src : string) : Prop :=
  ∃ path u body, path ∈ ["/v3/apps/"; "/v2/service_instances/"]%string ∧
    url_Parse (address +:+ path +:+ src) = Ok u ∧ AskedCAPI u token (Ok (mkResponse 200 body)) ∈ h.

(** The cache knows a token and a source by their concatenation. *)
Definition approved (address : string) (h : list exchange) (token src : string) : Prop :=
  ∃ token' src', token' +:+ src' = token +:+ src ∧ cc_found address h token' src'.

(** A token that verifies with a key the UAA published, and its payload. *)
Definition vouched (h : list exchange) (token : string) (dt : decodedToken) : Prop :=
  ∃ headers kid key payload, jose_headers (trimBearer token) = Ok headers ∧
    headers !! "kid"%string = Some (HString kid) ∧ known_key h kid key ∧
    jose_verify (trimBearer token) key = Ok payload ∧ decodeToken arch payload = Ok dt.

Definition admin (dt : decodedToken) : Prop :=
  ("doppler.firehose" ∈ slice_elements (Scope dt) ∨ "logs.admin" ∈ slice_elements (Scope dt))%string.

(** A request the gateway may receive. *)
Definition justified (address : string) (h : list exchange) (r : Request) : Prop :=
  let token := Header_Get (Header r) "Authorization" in
  match chi r with
  | ReadRoute src => ∃ dt, vouched h token dt ∧ (admin dt ∨ approved address h token src)
  | QueryRoute => ∃ ids dt,
      ExtractSourceIds ParseExpr (Values_Get (ParseQuery (AccessLog.RawQuery r)) "query") = Ok ids ∧
      vouched h token dt ∧ (admin dt ∨ ∀ x, x ∈ ids → approved address h token x)
  | InfoRoute => True
  | MetaRoute | NoRoute _ => False
  end.

Variable answer : CAPI.URL → option CertPool → Request → reply.

(** A step of the command: a request is served; the keys are refreshed, by the
    check before the start or by a goroutine of [Read]; tokens are pruned; time
    passes. *)
Inductive step (c : command) (w : World Clients) : World Clients → Prop :=
| step_request r w' rep :
    query_ids_free ParseExpr r → serve answer (cmd_proxy c) r w = Done (w', rep) → step c w w'
| step_refresh a r : RefreshKeys (cmd_uaa_http c) (Auth w) = Done (a, r) → step c w (set_Auth a w)
| step_prune now : step c w (set_Auth (pruneTokens now (Auth w)) w)
| step_clock t : step c w (mkWorld (Auth w) t (Lines w) (Received w)).

Inductive runs (c : command) : World Clients → Prop :=
| runs_start t : runs c (mkWorld (cmd_clients c) t [] [])
| runs_step w w' : runs c w → step c w w' → runs c w'.

(** ** The invariant: what the clients hold is in the history *)
Record recorded (address : string) (a : Clients) : Prop := {
  rec_addr : CAPI.addr (capi_client a) = address;
  rec_keys : ∀ kid key, publicKeys (uaa_client a) !! kid = Some key → known_key (history a) kid key;
  rec_cache : map_Forall (λ k _, ∃ token src, k = token +:+ src ∧ cc_found address (history a) token src)
    (tokenCache (capi_client a));
}.

Definition later (address : string) (a a' : Clients) : Prop :=
  (recorded address a → recorded address a') ∧ history a `prefix_of` history a'.

#[local] Instance later_preorder address : PreOrder (later address).
Proof. split; [by split|]. intros a b c [H1 H2] [H3 H4]. split; [auto|by etrans]. Qed.

Lemma known_key_prefix h h' kid key : h `prefix_of` h' → known_key h kid key → known_key h' kid key.
Proof.
  intros [k ->] (r&body&keys&x&H&?). exists r, body, keys, x. split; [|done]. apply elem_of_app. by left.
Qed.
Lemma cc_found_prefix address h h' token src :
  h `prefix_of` h' → cc_found address h token src → cc_found address h' token src.
Proof.
  intros [k ->] (path&u&body&?&?&H). exists path, u, body. split_and!; [done..|]. apply elem_of_app. by left.
Qed.
Lemma approved_prefix address h h' token src :
  h `prefix_of` h' → approved address h token src → approved address h' token src.
Proof. intros Hp (t&s&?&?). exists t, s. split; [done|by eapply cc_found_prefix]. Qed.
Lemma vouched_prefix h h' token dt : h `prefix_of` h' → vouched h token dt → vouched h' token dt.
Proof.
  intros Hp (hs&kid&key&pl&?&?&?&?&?). exists hs, kid, key, pl. split_and!; try done. by eapply known_key_prefix.
Qed.
Lemma justified_prefix address h h' r : h `prefix_of` h' → justified address h r → justified address h' r.
Proof.
  unfold justified. intros Hp. destruct (chi r); try done.
  - intros (dt&?&Ha). exists dt. split; [by eapply vouched_prefix|].
    destruct Ha; [by left|right]. by eapply approved_prefix.
  - intros (ids&dt&?&?&Ha). exists ids, dt. split_and!; [done|by eapply vouched_prefix|].
    destruct Ha as [|Ha]; [by left|right]. intros x Hx. eapply approved_prefix; [done|by apply Ha].
Qed.

(** Only the history grew. *)
Lemma later_history address a h : history a `prefix_of` h → later address a (set_history h a).
Proof.
  intros Hp. split; [|done]. intros [Ha Hk Hc]. split; simpl; [done| |].
  - intros kid key H. eapply known_key_prefix; [done|by apply Hk].
  - intros k t Ht. destruct (Hc k t Ht) as (token&src&?&?). exists token, src.
    split; [done|by eapply cc_found_prefix].
Qed.

Section Moves.
Variables (uaa_http capi_http : HTTPClient) (meta_roots : option CertPool) (address : string).
Abbreviation Do := (capi_Do capi_http).

(** *** The UAA client *)
Lemma store_keys_from keys m current m' r kid key :
  store_keys pem_Decode ParsePKIXPublicKey keys m current = (m', r) → m' !! kid = Some key →
  m !! kid = Some key ∨ ∃ k, k ∈ keys ∧ KeyId k = kid ∧ parse_key pem_Decode ParsePKIXPublicKey k = Ok key.
Proof.
  revert m current. induction keys as [|k keys IH]; intros m current; simpl; [intros [= <- _]; by left|].
  destruct (parse_key _ _ k) as [p|] eqn:Ep; [|intros [= <- _]; by left].
  intros H Hk. destruct (IH _ _ H Hk) as [Hm|(k'&?&?&?)]; [|right; exists k'; split_and!; [by right|done..]].
  apply lookup_insert_Some in Hm as [[<- <-]|[_ Hm]]; [|by left]. right. exists k. split_and!; [by left|done..].
Qed.

Lemma refresh_moves t1 t2 (a : Clients) u h r :
  UAA.RefreshTokenKeys (uaa_Do uaa_http) NewRequest pem_Decode ParsePKIXPublicKey t1 t2 (uaa_client a) (history a)
    = Done (u, h, r) → later address a (mkClients u (capi_client a) h).
Proof.
  unfold RefreshTokenKeys. destruct (_ <? _).
  { intros [= <- <- _]. destruct a. by apply later_history. }
  destruct (NewRequest _) as [url|]; [|done]. unfold uaa_Do.
  set (req := keys_request _ _). set (resp := uaa_answer uaa_http (history a) req).
  assert (∀ c, publicKeys c = publicKeys (uaa_client a) →
    later address a (mkClients c (capi_client a) (history a ++ [AskedUAA req resp]))) as Hsame.
  { intros c Hc. assert (history a `prefix_of` history a ++ [AskedUAA req resp]) as Hp by by eexists.
    destruct (later_history address a _ Hp) as [H1 H2]. split; [|done]. intros H. apply H1 in H as [? Hk ?].
    split; [done| |done]. simpl in *. by rewrite Hc. }
  destruct resp as [[code body]|e] eqn:Er; [|intros [= <- <- _]; by apply Hsame]. cbn [StatusCode Body].
  unfold StatusOK. destruct (Z.eqb_spec code 200) as [->|]; [|intros [= <- <- _]; by apply Hsame]. cbn [negb].
  destruct (unmarshalTokenKeys body) as [keys|e] eqn:Eu; [|intros [= <- <- _]; by apply Hsame].
  destruct (store_keys _ _ keys _ _) as [m res] eqn:Es.
  assert (∀ m', m' ⊆ m → later address a (mkClients (set_publicKeys m' (set_lastQueryTime t2 (uaa_client a)))
    (capi_client a) (history a ++ [AskedUAA req (Ok (mkResponse 200 body))]))) as Hnew.
  { intros m' Hm'. destruct (Hsame (uaa_client a) eq_refl) as [H1 H2]. split; [|done]. intros H.
    apply H1 in H as [? Hk ?]. split; [done| |done]. simpl in *. intros kid key Hkey.
    apply (lookup_weaken _ _ _ _ Hkey) in Hm'.
    destruct (store_keys_from _ _ _ _ _ _ _ Es Hm') as [|(k&?&?&?)]; [by apply Hk|].
    exists req, body, keys, k. split; [|done]. apply elem_of_app. right. by left. }
  destruct res as [current|e]; intros [= <- <- _]; apply Hnew; [apply map_filter_subseteq|done].
Qed.

Lemma read_moves token a a' r : oauth2_Read uaa_http token a = Done (a', r) → later address a a'.
Proof.
  unfold oauth2_Read. destruct (times (history a)) as [[t1 t2] t3].
  intros ([[[u h] c] b]&Hr&H)%bind_Done. injection H as <- _.
  apply Read_moves in Hr as [[-> ->]|[res Hr]]; [by destruct a|by eapply refresh_moves].
Qed.

(** A token that is accepted is vouched for. *)
Lemma read_vouched token a a' c :
  oauth2_Read uaa_http token a = Done (a', Ok c) → recorded address a →
  Token c = token ∧ ∃ dt, vouched (history a') token dt ∧ (IsAdmin c = true ↔ admin dt).
Proof.
  intros Hr Ha. destruct (read_moves _ _ _ _ Hr) as [Hrec _]. apply Hrec in Ha as [_ Hk _].
  unfold oauth2_Read in Hr. destruct (times (history a)) as [[t1 t2] t3].
  apply bind_Done in Hr as ([[[u h] c'] b]&Hr&H). injection H as <- ->. simpl in *.
  apply Read_sound in Hr as (_&<-&_&headers&alg&kid&key&payload&dt&?&_&_&?&Hkey&?&?&_&_&Had).
  split; [done|]. exists dt. split; [|done]. exists headers, kid, key, payload. split_and!; auto.
Qed.

Lemma RefreshKeys_moves a a' r : RefreshKeys uaa_http a = Done (a', r) → later address a a'.
Proof.
  unfold RefreshKeys. destruct (times (history a)) as [[t1 t2] t3].
  intros ([[u h] res]&Hr&H)%bind_Done. injection H as <- _. by eapply refresh_moves.
Qed.

(** *** The Cloud Controller client *)
Lemma has_resource_grows c path src token h :
  h `prefix_of` (has_resource Do url_Parse c path src token h).1.
Proof.
  unfold has_resource. destruct (url_Parse _) as [u|]; [|done]. unfold doRequest, capi_Do.
  destruct (capi_answer capi_http h u token) as [resp|]; by eexists.
Qed.

Lemma has_resource_found c path src token h :
  CAPI.addr c = address → path ∈ ["/v3/apps/"; "/v2/service_instances/"]%string →
  (has_resource Do url_Parse c path src token h).2 = true →
  cc_found address (has_resource Do url_Parse c path src token h).1 token src.
Proof.
  intros Ha Hpath. unfold has_resource. destruct (url_Parse _) as [u|] eqn:Eu; [|done].
  unfold doRequest, capi_Do. destruct (capi_answer capi_http h u token) as [[code body]|]; [|done].
  simpl. intros ->%Z.eqb_eq. exists path, u, body. rewrite <- Ha. split_and!; [done..|].
  apply elem_of_app. right. by left.
Qed.

(** A yes of the authorizer is in the history, for the token and source or for a pair
    that is concatenated to the same text. *)
Lemma authorized_moves src token a :
  later address a (IsAuthorized capi_http src token a).1 ∧
  (recorded address a → (IsAuthorized capi_http src token a).2 = true →
   approved address (history (IsAuthorized capi_http src token a).1) token src).
Proof.
  unfold IsAuthorized, CAPI.IsAuthorized. destruct (tokenCache _ !! _) as [t|] eqn:Et.
  { simpl. split; [by destruct a|]. intros [_ _ Hc] _. destruct (Hc _ _ Et) as (t'&s'&E&Hf). by exists t', s'. }
  pose proof (has_resource_grows (capi_client a) "/v3/apps/" src token (history a)) as Hg1.
  pose proof (λ Ha, has_resource_found (capi_client a) "/v3/apps/" src token (history a) Ha ltac:(left)) as Hf1.
  unfold HasApp. destruct (has_resource Do url_Parse (capi_client a) "/v3/apps/" src token (history a)) as [h1 ok1].
  pose proof (has_resource_grows (capi_client a) "/v2/service_instances/" src token h1) as Hg2.
  pose proof (λ Ha, has_resource_found (capi_client a) "/v2/service_instances/" src token h1 Ha ltac:(right; left)) as Hf2.
  unfold HasService. simpl in *.
  destruct (has_resource Do url_Parse (capi_client a) "/v2/service_instances/" src token h1) as [h2 ok2]. simpl in *.
  assert (∀ h', history a `prefix_of` h' → (recorded address a → cc_found address h' token src) →
    later address a (mkClients (uaa_client a) (set_tokenCache
      (<[token +:+ src := (times (history a)).1.1]> (tokenCache (capi_client a))) (capi_client a)) h')) as Hput.
  { intros h' Hp Hf. destruct (later_history address a h' Hp) as [H1 H2]. split; [|done].
    intros H. pose proof (Hf H) as Hcc. apply H1 in H as [? Hk Hc]. split; [done|done|]. simpl in *.
    apply map_Forall_insert_2; [by exists token, src|done]. }
  destruct ok1; [|destruct ok2]; simpl.
  - split; [apply Hput; [done|]|]; intros [Ha _ _]; [by apply Hf1|]. intros _. exists token, src. auto.
  - assert (history a `prefix_of` h2) by by etrans.
    split; [apply Hput; [done|]|]; intros [Ha _ _]; [by apply Hf2|]. intros _. exists token, src. auto.
  - split; [|done]. apply (later_history address a h2). by etrans.
Qed.

Lemma resource_request_grows u token h : h `prefix_of` (doResourceRequest Do url_Parse u token h).1.
Proof.
  unfold doResourceRequest, doRequest, capi_Do. destruct (capi_answer capi_http h u token) as [resp|]; [|by eexists].
  destruct (negb _); [by eexists|]. destruct (decode_page _) as [[href rs]|]; [|by eexists].
  case_decide; [by eexists|]. destruct (url_Parse href); by eexists.
Qed.

Lemma paginated_grows n u token acc h h' r :
  doPaginatedResourceRequest Do url_Parse n u token acc h = Some (h', r) → h `prefix_of` h'.
Proof.
  revert u acc h. induction n as [|n IH]; intros u acc h; simpl; [done|].
  pose proof (resource_request_grows u token h) as Hg.
  destruct (doResourceRequest Do url_Parse u token h) as [h1 [[page [next|]]|]]; simpl in Hg.
  - intros H%IH. by etrans.
  - by intros [= -> _].
  - by intros [= -> _].
Qed.

Lemma related_moves names token a : later address a (GetRelatedSourceIds capi_http names token a).1.
Proof.
  unfold GetRelatedSourceIds, CAPI.GetRelatedSourceIds. case_decide; [by apply later_history|].
  destruct (url_Parse _) as [u|]; [|by apply later_history].
  destruct (doPaginatedResourceRequest _ _ _ _ _ _ _) as [[h [rs|]]|] eqn:E; [..|done];
    apply later_history; by eapply paginated_grows.
Qed.

Lemma type_grows c ty token h h' r :
  sourceIDsForResourceType Do url_Parse fuel c ty token h = Some (h', r) → h `prefix_of` h'.
Proof.
  unfold sourceIDsForResourceType. destruct (url_Parse _) as [u|]; [|by intros [= -> _]].
  destruct (doPaginatedResourceRequest _ _ _ _ _ _ _) as [[h1 [rs|]]|] eqn:E; [..|done];
    intros [= <- _]; by eapply paginated_grows.
Qed.

Lemma available_moves token a : later address a (AvailableSourceIDs capi_http token a).1.
Proof.
  unfold AvailableSourceIDs, CAPI.AvailableSourceIDs.
  destruct (sourceIDsForResourceType _ _ _ _ "apps" _ _) as [[h1 [ids|]]|] eqn:E1; [..|done];
    [|by apply later_history; eapply type_grows].
  destruct (sourceIDsForResourceType _ _ _ _ "service_instances" _ _) as [[h2 [ids2|]]|] eqn:E2; [..|done];
    apply later_history; etrans; by eapply type_grows.
Qed.

Lemma meta_moves a : later address a (Meta meta_roots a).1.
Proof. apply later_history. by eexists. Qed.

Lemma prune_moves now a : later address a (pruneTokens now a).
Proof.
  split; [|done]. intros [Ha Hk Hc]. split; [done..|]. simpl.
  intros k t [Ht _]%map_lookup_filter_Some. by apply (Hc k t).
Qed.
End Moves.

(** *** The command *)
Lemma main_spec cfg c : main cfg = Done c →
  recorded (Addr (cfg_CAPI cfg)) (cmd_clients c) ∧
  main_proxy url_Parse url_String loadCA OpenFile write_error
    (middleware (cmd_uaa_http c) (cmd_capi_http c) (cmd_meta_roots c)) cfg = Done (cmd_proxy c).
Proof.
  unfold main. intros (uh&_&H1)%bind_Done. apply bind_Done in H1 as (uc&Hu&H1).
  apply bind_Done in H1 as (u&_&H1). apply bind_Done in H1 as (ch&_&H1).
  apply bind_Done in H1 as (cc&Hc&H1). apply bind_Done in H1 as (roots&_&H1).
  apply bind_Done in H1 as (p&Hp&H1). injection H1 as <-. split; [|done].
  unfold NewUAAClient, NewCAPIClient in *. destruct (url_Parse (uaa_Addr _)) as [u1|]; [|done].
  destruct (url_Parse (Addr _)) as [u2|]; [|done]. injection Hu as <-. injection Hc as <-.
  split; simpl; [done| |apply map_Forall_empty].
  intros kid key. unfold uaa_options. by case_decide.
Qed.

Hypothesis order_elements : ∀ s, order s ≡ₚ base.elements s.
(** Printing a rewritten query and parsing it gives the same selectors. *)
Hypothesis rewritten_parses : ∀ s e sets, ParseExpr s = Ok e →
  let rewritten := rewrite_selectors (replaceInMatchers sets) e in
  ∃ e', ParseExpr (print_expr rewritten) = Ok e' ∧ Forall2 (≡ₚ) (selectors rewritten) (selectors e').
(** Routes are chosen by the path. *)
Hypothesis chi_path : ∀ r q, chi (set_query r q) = chi r.
(** The guids of apps are free of the separator of regular expressions. *)
Hypothesis guids_free : ∀ http h u token body href rs,
  capi_answer http h u token = Ok (mkResponse 200 body) → decode_page body = Ok (href, rs) →
  Forall (λ r, free_of bar (Guid r)) rs.

Lemma paginated_free http n u token acc h h' rs :
  doPaginatedResourceRequest (capi_Do http) url_Parse n u token acc h = Some (h', Ok rs) →
  Forall (λ r, free_of bar (Guid r)) acc → Forall (λ r, free_of bar (Guid r)) rs.
Proof.
  revert u acc h. induction n as [|n IH]; intros u acc h; [done|]. cbn [doPaginatedResourceRequest].
  unfold doResourceRequest, doRequest, capi_Do.
  destruct (capi_answer http h u token) as [[code body]|] eqn:Ea; [|done]. cbn [StatusCode Body].
  unfold StatusOK. destruct (Z.eqb_spec code 200) as [->|]; [|done]. cbn [negb].
  destruct (decode_page body) as [[href page]|] eqn:Ed; [|done].
  pose proof (guids_free _ _ _ _ _ _ _ Ea Ed) as Hfree.
  case_decide; [intros [= _ <-] Hacc; by apply Forall_app|].
  destruct (url_Parse href) as [next|]; [|done]. intros Hn Hacc. eapply IH; [exact Hn|]. apply Forall_app. by split.
Qed.

Lemma related_free http names token a m : (GetRelatedSourceIds http names token a).2 = Some m →
  map_Forall (λ _ l, Forall (free_of bar) l) m.
Proof.
  unfold GetRelatedSourceIds, CAPI.GetRelatedSourceIds. case_decide; [by intros [= <-]|].
  destruct (url_Parse _) as [u|]; [|by intros [= <-]].
  destruct (doPaginatedResourceRequest _ _ _ _ _ _ _) as [[h [rs|]]|] eqn:E; [|by intros [= <-]|done].
  intros [= <-]. apply paginated_free in E; [|done].
  assert (∀ m0, map_Forall (λ _ l, Forall (free_of bar) l) m0 →
    map_Forall (λ _ l, Forall (free_of bar) l) (foldl add_guid m0 rs)) as Hadd; [|apply (Hadd ∅), map_Forall_empty].
  clear -E. induction E as [|r rs Hr _ IH]; intros m0 Hm; [done|]. apply IH.
  apply map_Forall_insert_2; [|done]. apply Forall_app. split; [|by constructor].
  destruct (m0 !! resource_Name r) as [l|] eqn:El; [by apply (Hm _ _ El)|done].
Qed.

(** Handed on means justified, once the answers are in the history. *)
Lemma handed_on_justified address uaa_http capi_http r a a' r' :
  recorded address a → history a `prefix_of` history a' →
  handed_on chi (oauth2_Read uaa_http) (IsAuthorized capi_http) ParseExpr (later address) r a a' r' →
  justified address (history a') r'.
Proof.
  intros Ha Hp. unfold handed_on, justified.
  assert (∀ a1 token src, recorded address a1 → granted (IsAuthorized capi_http) (later address) a1 a' token src →
    approved address (history a') token src) as Hgr.
  { intros a1 token src H1 (a2&[H2 _]&[_ H3]&Hok). eapply approved_prefix; [exact H3|].
    apply authorized_moves; [by apply H2|done]. }
  destruct (chi r) as [src| | | |ans] eqn:Er; try done.
  - intros (->&_&c&a1&Hr&[_ Hl]&Hc). rewrite Er.
    destruct (read_vouched _ _ _ _ _ _ Hr Ha) as (<-&dt&Hv&Had). exists dt.
    split; [by eapply vouched_prefix|]. rewrite <- Had. destruct Hc as [|Hc]; [by left|right].
    eapply Hgr; [|done]. by apply (read_moves _ _ _ _ _ _ Hr).
  - intros (q&ids&c&a1&->&Hq&Hids&Hr&[_ Hl]&Hc). rewrite chi_path, Er.
    destruct (read_vouched _ _ _ _ _ _ Hr Ha) as (Ht&dt&Hv&Had). exists ids, dt. rewrite Hq.
    assert (Values_Get (Values_Set "query" q (ParseQuery (AccessLog.RawQuery r))) "query" = q) as ->
      by (unfold Values_Get, Values_Set; by rewrite lookup_insert_eq).
    rewrite Ht in *. split_and!; [done|by eapply vouched_prefix|]. rewrite <- Had.
    destruct Hc as [|Hc]; [by left|right]. intros x Hx. eapply Hgr; [|by apply Hc].
    by apply (read_moves _ _ _ _ _ _ Hr).
  - by intros ->; rewrite Er.
Qed.

Lemma received_justified cfg c w :
  main cfg = Done c → runs c w →
  Forall (justified (Addr (cfg_CAPI cfg)) (history (Auth w))) (Received w).
Proof.
  intros [Hstart Hp]%main_spec Hruns. set (address := Addr (cfg_CAPI cfg)) in *.
  assert (recorded address (Auth w) ∧ Forall (justified address (history (Auth w))) (Received w)) as [_ H]; [|done].
  induction Hruns as [t|w w' Hruns [IHr IHj] Hs]; [done|].
  assert (∀ a, later address (Auth w) a →
    recorded address a ∧ Forall (justified address (history a)) (Received w)) as Hmove.
  { intros a [Hrec Hpre]. split; [auto|]. eapply Forall_impl; [exact IHj|]. intros r. by apply justified_prefix. }
  destruct Hs as [r w' rep Hf Hs|a r Hr|now|t].
  - set (read := oauth2_Read (cmd_uaa_http c)). set (auth := IsAuthorized (cmd_capi_http c)).
    assert (∀ token a a' x, read token a = Done (a', x) → later address a a') as Hread by apply read_moves.
    assert (∀ id token a, later address a (auth id token a).1) as Hauth by (intros; apply authorized_moves).
    assert (∀ names token a, later address a (GetRelatedSourceIds (cmd_capi_http c) names token a).1) as Hrel
      by (intros; apply related_moves).
    pose proof (serve_later url_Parse answer url_String loadCA OpenFile write_error chi read auth
      (AvailableSourceIDs (cmd_capi_http c)) (Meta (cmd_meta_roots c)) (GetRelatedSourceIds (cmd_capi_http c))
      ParseExpr print_expr order (later address) Hread Hauth Hrel cfg (cmd_proxy c) r w w' rep
      (λ token a, available_moves _ _ token a) (λ a, meta_moves _ _ a) Hp Hs) as Hl.
    destruct (Hmove _ Hl) as [Hrec Hj]. split; [done|].
    destruct (serve_received url_Parse answer url_String loadCA OpenFile write_error chi read auth
      (AvailableSourceIDs (cmd_capi_http c)) (Meta (cmd_meta_roots c)) (GetRelatedSourceIds (cmd_capi_http c))
      ParseExpr print_expr order (later address) Hread Hauth Hrel order_elements rewritten_parses
      (related_free _) cfg (cmd_proxy c) r w w' rep Hp Hf Hs) as (_&[->|(r'&->&Hh&_)]); [done|].
    apply Forall_app. split; [done|]. constructor; [|done]. by eapply handed_on_justified, Hh; [|apply Hl].
  - by apply Hmove, (RefreshKeys_moves _ _ _ _ _ Hr).
  - by apply Hmove, prune_moves.
  - by split.
Qed.

End Command.

(** ** A run: the keys are fetched, then a read of the user's app reaches the gateway *)
Definition run_config : Config.CFAuthProxyConfig.Config :=
  Config.CFAuthProxyConfig.mkConfig "http://gw" ":8083" "10.1.2.3" "" "" false false "" "" 0 60
    (Config.CFAuthProxyConfig.mkCAPI "https://cc" "" "")
    (Config.CFAuthProxyConfig.mkUAA "id" "secret" "https://uaa" "/ca") (metrics_on 6065) false.
Definition run_chi (r : Request) : route :=
  if decide (AccessLog.Path r = "/api/v1/read/g1") then ReadRoute "g1" else NoRoute (Written 404 "").
Definition run_parse (s : string) : result string CAPI.URL := Ok (mkURL "" "" s "").
Definition run_uaa (c : HTTPClient) (h : list exchange) (r : KeysRequest) : result string Response :=
  if decide (Basic_Auth r = Some ("id", "secret")%string ∧ bool_decide (is_Some (Transport c)) = true)
  then Ok (mkResponse 200 (encode (keys_json [mkTokenKey "k1" "s1" "HS256"]))) else Err "down"%string.
Definition run_capi (c : HTTPClient) (h : list exchange) (u : CAPI.URL) (token : string) : result string Response :=
  Ok (mkResponse (if decide (CAPI.Path u = "https://cc/v3/apps/g1" ∧ token = "tok") then 200 else 404) "").
Definition run_verify (t : string) (k : PublicKey) : result string string :=
  match k with
  | Secret s => if decide (s = "s1") then Ok (encode (token_json [] 1000)) else Err "bad signature"%string
  | RSA _ => Err "bad signature"%string
  end.
Definition run_times (h : list exchange) : Z * Z * Z :=
  let t := (10 + Z.of_nat (length h)) * Second in (t, t, t).
Definition run_read : Request :=
  mkHTTP "GET" "/api/v1/read/g1" "" {[ "Authorization" := ["tok"] ]} "1.2.3.4:5".

Abbreviation run_main := (main (CertPool := unit) run_parse CAPI.Path (λ _, Err "none"%string) (λ _, None)
  (λ _ _, None) (λ _, None) (λ _, None) Some (λ b, Ok (Some b)) demo_parse_headers run_verify (λ _, 0) run_chi
  demo_parse_expr demo_print base.elements run_uaa run_capi (λ _ _, Ok ∅) run_times 5 run_config).
Abbreviation run_runs := (runs (CertPool := unit) run_parse CAPI.Path Some (λ b, Ok (Some b)) demo_parse_expr run_uaa run_times
  (λ _ _ r, Written 200 "logs")).

(** The worlds before the start, after the refresh and after the read. *)
Definition world_at (c : command (CertPool := unit)) : World Clients := mkWorld (cmd_clients c) 0 [] [].
Definition after_refresh (c : command (CertPool := unit)) : outcome (World Clients) :=
  '(a, _) ← RefreshKeys run_parse CAPI.Path Some (λ b, Ok (Some b)) run_uaa run_times (cmd_uaa_http c) (cmd_clients c);
  Done (set_Auth a (world_at c)).
Definition after_read (c : command (CertPool := unit)) (w : World Clients) : outcome (World Clients) :=
  '(w, _) ← serve (λ _ _ _, Written 200 "logs") (cmd_proxy c) run_read w; Done w.

Definition run_to_read : outcome (command (CertPool := unit) * World Clients * World Clients) :=
  c ← run_main; w1 ← after_refresh c; w2 ← after_read c w1; Done (c, w1, w2).
Definition run_received : bool :=
  match run_to_read with
  | Done (_, _, w) => bool_decide (AccessLog.Path <$> Received w = [AccessLog.Path run_read])
  | Panic => false
  end.

