(* ===== verification/FloatReal.v ===== *)
(** * Floats as real numbers

    The error of a rounding, stated on the real numbers the floats stand for: a
    rounded value is within [2 ^ -53] of itself, relatively, unless it is
    subnormal, where the error is at most [2 ^ -1075].  Only floats that are not
    negative are given a value, which is all the users of this file need. *)

From Stdlib Require Import Reals Lra.
From S2P Require Import Prelude Envelope FloatRound Parsing.

Open Scope R_scope.

Definition p2 (e : Z) : R := powerRZ 2 e.

Definition R_of (f : float64) : R :=
  match f with S754_finite false m e => IZR (Z.pos m) * p2 e | _ => 0 end.

(** A finite float that is not negative. *)
Definition nonneg (f : float64) : Prop :=
  match f with
  | S754_zero s => s = false
  | S754_finite s m e => s = false ∧ bounded64 m e = true
  | _ => False
  end.

Lemma p2_pos e : 0 < p2 e.
Proof. apply powerRZ_lt. lra. Qed.

Lemma p2_add a b : p2 (a + b) = p2 a * p2 b.
Proof. apply powerRZ_add. lra. Qed.

Lemma p2_Z k : (0 ≤ k)%Z → IZR (2 ^ k) = p2 k.
Proof.
  intros Hk. unfold p2. rewrite <- (Z2Nat.id k) by done. rewrite <- pow_IZR. apply pow_powerRZ.
Qed.

Lemma p2_le a b : (a ≤ b)%Z → p2 a <= p2 b.
Proof.
  intros H. replace b with (a + (b - a))%Z by lia. rewrite p2_add, <- (p2_Z (b - a)) by lia.
  assert (1 <= IZR (2 ^ (b - a))) by (apply IZR_le; pose proof (Z.pow_pos_nonneg 2 (b - a)); lia).
  pose proof (p2_pos a). nra.
Qed.

Lemma p2_neg k : (0 ≤ k)%Z → p2 (- k) * IZR (2 ^ k) = 1.
Proof.
  intros Hk. rewrite p2_Z, <- p2_add by done. by replace (- k + k)%Z with 0%Z by lia.
Qed.

Lemma IZR_pos z : (0 < z)%Z → 0 < IZR z.
Proof. intros. by apply IZR_lt. Qed.

(** The value of [float_of]. *)
Lemma float_of_R z e :
  (-1074 ≤ e ≤ 969)%Z → (0 ≤ z ≤ 2 ^ 53)%Z → (2 ^ 52 ≤ z ∨ e = -1074 ∨ z = 0)%Z →
  nonneg (float_of false z e) ∧ R_of (float_of false z e) = IZR z * p2 e.
Proof.
  intros He Hz Hor. destruct z as [|p|p]; [simpl; split; [done|lra]| |lia].
  unfold float_of. destruct (Z.eqb_spec (Z.pos p) (2 ^ 53)) as [->|Hp].
  - rewrite (proj2 (Z.leb_le _ _)) by lia. split; [split; [done|]; apply bounded64_spec; lia|].
    cbn [R_of]. change (2 ^ 53)%Z with (2 ^ 52 * 2)%Z. rewrite mult_IZR, p2_add.
    change (Z.pos (2 ^ 52)) with (2 ^ 52)%Z. replace (p2 1) with 2 by (unfold p2; simpl; lra). lra.
  - rewrite (proj2 (Z.leb_le _ _)) by lia. split; [|done]. split; [done|]. apply bounded64_spec. lia.
Qed.

Definition ulp : R := p2 (-53).
Definition tiny : R := p2 (-1075).

(** What is rounded to nearest is within half a unit of the result. *)
Lemma rounded_R N D f :
  (0 < D)%Z → (0 ≤ N < 2 ^ 2000 * D)%Z → rounded false N D f →
  let x := IZR N / IZR D * p2 (-1074) in
  nonneg f ∧ Rabs (R_of f - x) <= x * ulp + tiny.
Proof.
  intros HD HN (z&e&He&Hz&[Hu1 Hu2]&[Hn _]&->) x.
  set (c := (2 ^ (e + 1074))%Z) in *. assert (0 < c)%Z as Hc by (apply Z.pow_pos_nonneg; lia).
  assert (e ≤ 950)%Z as He2.
  { destruct Hu2 as [Hu2| ->]; [|lia]. unfold c in Hu2.
    rewrite Z.mul_assoc, <- Z.pow_add_r in Hu2 by lia.
    assert (2 ^ (52 + (e + 1074)) * D < 2 ^ 2000 * D)%Z as H by lia.
    apply Z.mul_lt_mono_pos_r, Z.pow_lt_mono_r_iff in H; lia. }
  destruct (float_of_R z e) as [Hf ->]; [lia|done| |split; [exact Hf|]].
  { destruct Hu2 as [Hu2| ->]; [left|by right; left]. assert (0 < c * D)%Z by nia.
    assert (2 ^ 52 * (c * D) ≤ N)%Z by lia. nia. }
  assert (p2 e = IZR c * p2 (-1074)) as Ec.
  { unfold c. rewrite p2_Z, <- p2_add by lia. f_equal. lia. }
  pose proof (IZR_pos D HD) as HDr. pose proof (p2_pos (-1074)) as Hp. pose proof (p2_pos e) as Hpe.
  assert (IZR z * p2 e - x = IZR (z * (c * D) - N) / IZR D * p2 (-1074)) as ->.
  { unfold x. rewrite Ec, minus_IZR, !mult_IZR. field. lra. }
  assert (Rabs (IZR (z * (c * D) - N) / IZR D * p2 (-1074)) <= p2 e / 2) as Hle.
  { rewrite Rabs_mult, (Rabs_pos_eq (p2 _)) by lra. unfold Rdiv at 1.
    rewrite Rabs_mult, Rabs_inv, (Rabs_pos_eq (IZR D)), <- abs_IZR by lra.
    assert (2 * IZR (Z.abs (z * (c * D) - N)) <= IZR c * IZR D) as H.
    { rewrite <- !mult_IZR. by apply IZR_le. }
    rewrite Ec. apply (Rmult_le_reg_r (IZR D)); [done|].
    replace (IZR (Z.abs (z * (c * D) - N)) * / IZR D * p2 (-1074) * IZR D)
      with (IZR (Z.abs (z * (c * D) - N)) * p2 (-1074)) by (field; lra).
    nra. }
  etrans; [exact Hle|]. assert (0 <= x) as Hx.
  { unfold x. apply Rmult_le_pos; [|lra]. apply Rmult_le_pos; [apply IZR_le; lia|].
    left. by apply Rinv_0_lt_compat. }
  assert (p2 e / 2 = p2 (e - 1)) as ->.
  { replace e with (e - 1 + 1)%Z at 1 by lia. rewrite p2_add. replace (p2 1) with 2 by (unfold p2; simpl; lra).
    lra. }
  pose proof (p2_pos (-1075)) as Ht. pose proof (p2_pos (-53)) as Hu. unfold ulp, tiny.
  destruct Hu2 as [Hu2| ->]; [|change (-1074 - 1)%Z with (-1075)%Z; nra].
  assert (p2 (52 + e) <= x) as Hbig.
  { unfold x. apply (Rmult_le_reg_r (IZR D)); [done|].
    replace (IZR N / IZR D * p2 (-1074) * IZR D) with (IZR N * p2 (-1074)) by (field; lra).
    rewrite p2_add, Ec, <- p2_Z by lia. assert (IZR (2 ^ 52) * (IZR c * IZR D) <= IZR N) as H.
    { rewrite <- !mult_IZR. apply IZR_le. exact Hu2. }
    nra. }
  replace (e - 1)%Z with (52 + e + -53)%Z by lia. rewrite p2_add. nra.
Qed.

(** The same for a rational given by its value. *)
Lemma rounded_value N D f x :
  (0 < D)%Z → (0 ≤ N)%Z → rounded false N D f → x = IZR N / IZR D * p2 (-1074) → x < p2 900 →
  nonneg f ∧ Rabs (R_of f - x) <= x * ulp + tiny.
Proof.
  intros HD HN Hf -> Hx. apply rounded_R; [done| |done]. split; [done|].
  apply lt_IZR. rewrite mult_IZR, p2_Z by done. pose proof (IZR_pos D HD) as HDr.
  apply (Rmult_lt_compat_r (IZR D * p2 1074)) in Hx.
  2: { apply Rmult_lt_0_compat; [done|apply p2_pos]. }
  replace (IZR N / IZR D * p2 (-1074) * (IZR D * p2 1074)) with (IZR N * (p2 (-1074) * p2 1074)) in Hx
    by (field; lra).
  rewrite <- p2_add in Hx. change (p2 (-1074 + 1074)) with 1 in Hx.
  replace (p2 900 * (IZR D * p2 1074)) with (p2 (900 + 1074) * IZR D) in Hx by (rewrite p2_add; ring).
  assert (p2 (900 + 1074) <= p2 2000) by (apply p2_le; lia). nra.
Qed.

(** A quotient of mantissas in units of [2 ^ -1074]. *)
Lemma scaled_value k a b : (0 < b)%Z →
  IZR (2 ^ Z.max (k + 1074) 0 * a) / IZR (2 ^ Z.max (-1074 - k) 0 * b) * p2 (-1074) =
  IZR a / IZR b * p2 k.
Proof.
  intros Hb%IZR_pos. rewrite !mult_IZR, !p2_Z by lia.
  pose proof (p2_pos (Z.max (-1074 - k) 0)).
  replace (p2 k) with (p2 (Z.max (k + 1074) 0 + -1074 + - Z.max (-1074 - k) 0)) by (f_equal; lia).
  rewrite !p2_add. assert (p2 (- Z.max (-1074 - k) 0) * p2 (Z.max (-1074 - k) 0) = 1) as E.
  { rewrite <- p2_add. by replace (- _ + _)%Z with 0%Z by lia. }
  apply (Rmult_eq_reg_r (p2 (Z.max (-1074 - k) 0))); [|lra].
  transitivity (IZR a / IZR b * p2 (Z.max (k + 1074) 0) * p2 (-1074)); [field; lra|].
  transitivity (IZR a / IZR b * p2 (Z.max (k + 1074) 0) * p2 (-1074) *
    (p2 (- Z.max (-1074 - k) 0) * p2 (Z.max (-1074 - k) 0))); [rewrite E; ring|ring].
Qed.

(** ** The operations *)
Ltac scaled_pos :=
  repeat first [ apply Z.mul_pos_pos | apply Z.mul_nonneg_nonneg | apply Z.pow_pos_nonneg
               | apply Z.pow_nonneg ]; lia.

Lemma R_of_nonneg f : nonneg f → 0 <= R_of f.
Proof.
  destruct f as [s| | |[] m e]; simpl; try lra. intros _. pose proof (p2_pos e).
  pose proof (IZR_pos (Z.pos m) eq_refl). nra.
Qed.

Definition close (f : float64) (x : R) : Prop := nonneg f ∧ Rabs (R_of f - x) <= x * ulp + tiny.

Lemma close_zero : close (S754_zero false) 0.
Proof.
  split; [done|]. cbn [R_of]. rewrite Rminus_0_r, Rabs_R0. pose proof (p2_pos (-1075)). unfold tiny. lra.
Qed.

Lemma float_of_int_close n : (0 ≤ n < 2 ^ 64)%Z → close (float_of_int n) (IZR n).
Proof.
  intros Hn. unfold float_of_int. destruct n as [|p|p]; [apply close_zero| |lia].
  apply (rounded_value (2 ^ 1074 * Z.pos p) 1); [done|by apply Z.mul_nonneg_nonneg|by apply (binary_round_rounded false p 0)| |].
  - pose proof (scaled_value 0 (Z.pos p) 1 eq_refl) as E. change (p2 0) with 1 in E.
    transitivity (IZR (Z.pos p) / IZR 1 * 1); [field|]. rewrite <- E. done.
  - eapply Rlt_le_trans; [apply IZR_lt, Hn|]. rewrite p2_Z by done. apply p2_le. lia.
Qed.

Lemma float_of_int_exact n : (0 ≤ n < 2 ^ 53)%Z → nonneg (float_of_int n) ∧ R_of (float_of_int n) = IZR n.
Proof.
  intros Hn. destruct (decide (n = 0)%Z) as [->|Hne]; [by split|].
  destruct (float_of_int_pos n) as (m&e&->&Hb&He&Hm); [lia|]. split; [by split|].
  cbn [R_of]. rewrite Hm, mult_IZR, p2_Z, Rmult_assoc, <- p2_add by lia.
  replace (0 - e + e)%Z with 0%Z by lia. change (p2 0) with 1. ring.
Qed.

Lemma SFdiv_close f g :
  nonneg f → nonneg g → 0 < R_of g → R_of f / R_of g < p2 900 →
  close (SFdiv 53 1024 f g) (R_of f / R_of g).
Proof.
  intros Hf Hg Hpos Hx. destruct g as [| | |[] q e2]; simpl in Hpos; try lra.
  destruct f as [s| | |s p e1]; try done.
  - simpl in Hf. subst s. replace (R_of (S754_zero false) / _) with 0 by (unfold Rdiv; cbn [R_of]; by rewrite Rmult_0_l).
    apply close_zero.
  - destruct Hf as [-> Hp].
    eapply rounded_value; [| |apply (SFdiv_rounded false false p e1 q e2)| |done]; [scaled_pos..|].
    rewrite scaled_value by lia. cbn [R_of]. unfold Z.sub. rewrite p2_add.
    pose proof (p2_pos e2). pose proof (IZR_pos (Z.pos q) eq_refl).
    assert (p2 (- e2) = / p2 e2) as ->; [|field; lra].
    apply (Rmult_eq_reg_r (p2 e2)); [|lra]. rewrite <- p2_add, Rinv_l by lra.
    by replace (- e2 + e2)%Z with 0%Z by lia.
Qed.

Lemma SFmul_close f g :
  nonneg f → nonneg g → R_of f * R_of g < p2 900 → close (SFmul 53 1024 f g) (R_of f * R_of g).
Proof.
  intros Hf Hg Hx. destruct f as [s| | |s p e1], g as [s'| | |s' q e2]; try done; simpl in Hf, Hg.
  1-3: destruct_and?; subst; cbn [SFmul xorb R_of]; rewrite ?Rmult_0_l, ?Rmult_0_r; apply close_zero.
  destruct Hf as [-> Hp], Hg as [-> Hq].
  pose proof (SFmul_rounded false false p e1 q e2 Hp Hq) as Hr.
  eapply rounded_value; [| |exact Hr| |done]; [scaled_pos..|].
  rewrite <- (Z.mul_1_r (2 ^ Z.max (-1074 - _) 0)), scaled_value by lia.
  cbn [R_of]. rewrite p2_add, <- Pos2Z.inj_mul, Pos2Z.inj_mul, mult_IZR. field.
Qed.

(** A float is itself. *)
Lemma close_self f : nonneg f → close f (R_of f).
Proof.
  intros Hf. split; [done|]. rewrite Rminus_diag, Rabs_R0. pose proof (R_of_nonneg f Hf).
  pose proof (p2_pos (-53)). pose proof (p2_pos (-1075)). unfold ulp, tiny. nra.
Qed.

(** A mantissa aligned to a smaller exponent. *)
Lemma aligned_value p e ez : (ez ≤ e)%Z →
  IZR (Z.pos (fst (shl_align p e ez))) * p2 ez = IZR (Z.pos p) * p2 e.
Proof.
  intros He. pose proof (shl_align_eq p e ez) as H. destruct (shl_align p e ez) as [p' e'].
  destruct H as [-> Hp]. cbn [fst]. rewrite Z.min_r in Hp by done.
  rewrite Hp, mult_IZR, p2_Z, Rmult_assoc, <- p2_add by lia. do 2 f_equal. lia.
Qed.

Lemma SFsub_close f g :
  nonneg f → nonneg g → R_of g <= R_of f → R_of f < p2 900 → close (SFsub 53 1024 f g) (R_of f - R_of g).
Proof.
  intros Hf Hg Hle Hx. pose proof (R_of_nonneg g Hg) as Hg0.
  destruct g as [s'| | |s' q e2]; try done; simpl in Hg.
  { subst s'. cbn [R_of]. rewrite Rminus_0_r.
    destruct f as [[]| | |s p e1]; try done; [apply close_zero|by apply close_self]. }
  destruct Hg as [-> Hq]. destruct f as [s| | |s p e1]; try done; simpl in Hf.
  { pose proof (p2_pos e2). pose proof (IZR_pos (Z.pos q) eq_refl). simpl in Hle. nra. }
  destruct Hf as [-> Hp]. cbn [SFsub]. set (ez := Z.min e1 e2).
  apply bounded64_spec in Hp as [Hp _], Hq as [Hq _]. assert (-1074 ≤ ez)%Z as Hez by lia.
  pose proof (aligned_value p e1 ez ltac:(lia)) as E1. pose proof (aligned_value q e2 ez ltac:(lia)) as E2.
  cbn [R_of] in *. rewrite <- E1, <- E2 in *. cbn [cond_Zopp].
  set (z := (Z.pos (fst (shl_align p e1 ez)) - Z.pos (fst (shl_align q e2 ez)))%Z).
  assert (IZR (Z.pos (fst (shl_align p e1 ez))) * p2 ez - IZR (Z.pos (fst (shl_align q e2 ez))) * p2 ez =
    IZR z * p2 ez) as -> by (unfold z; rewrite minus_IZR; ring).
  pose proof (p2_pos ez) as Hpz.
  assert (0 ≤ z)%Z as Hz by (unfold z; apply Zle_minus_le_0, le_IZR; nra).
  unfold binary_normalize. destruct z as [|r|r] eqn:Ez; [rewrite Rmult_0_l; apply close_zero| |lia].
  eapply (rounded_value _ 1); [done| |by apply (binary_round_rounded false r ez)| |]; [scaled_pos| |].
  - pose proof (scaled_value ez (Z.pos r) 1 eq_refl) as E. rewrite Z.max_l in E by lia.
    rewrite (Z.max_r (-1074 - ez)) in E by lia. change (2 ^ 0 * 1)%Z with 1%Z in E. rewrite E. field.
  - eapply Rle_lt_trans; [|exact Hx]. rewrite <- Ez. unfold z. rewrite minus_IZR.
    pose proof (IZR_pos (Z.pos (fst (shl_align q e2 ez))) eq_refl). nra.
Qed.

Lemma exponents_compare p e q e' : bounded64 p e = true → bounded64 q e' = true → (e < e')%Z →
  IZR (Z.pos p) * p2 e < IZR (Z.pos q) * p2 e'.
Proof.
  intros [He0 [Hp _]]%bounded64_spec [_ [_ Hq]]%bounded64_spec He.
  destruct Hq as [Hq%IZR_le| ->]; [|lia]. apply IZR_lt in Hp.
  replace e' with (e + 1 + (e' - e - 1))%Z by lia. rewrite !p2_add.
  replace (p2 1) with 2 by (unfold p2; simpl; lra). pose proof (p2_pos e) as He1.
  assert (1 <= p2 (e' - e - 1)) as H1 by (change 1 with (p2 0); apply p2_le; lia).
  change (2 ^ 53)%Z with (2 ^ 52 * 2)%Z in Hp. rewrite mult_IZR in Hp.
  pose proof (IZR_pos (2 ^ 52) eq_refl). set (P := IZR (2 ^ 52)) in *. set (x := p2 (e' - e - 1)) in *.
  apply (Rlt_le_trans _ (P * 2 * p2 e)); [by apply Rmult_lt_compat_r|].
  replace (IZR (Z.pos q) * (p2 e * 2 * x)) with (IZR (Z.pos q) * x * (2 * p2 e)) by ring.
  replace (P * 2 * p2 e) with (P * 1 * (2 * p2 e)) by ring.
  apply Rmult_le_compat_r; [lra|]. apply Rmult_le_compat; lra.
Qed.

(** Comparing floats compares their values. *)
Lemma SFltb_R f g : nonneg f → nonneg g → SFltb f g = true ↔ R_of f < R_of g.
Proof.
  intros Hf Hg. unfold SFltb.
  destruct f as [s| | |s p e], g as [s'| | |s' q e']; try done; simpl in Hf, Hg; destruct_and?; subst;
    cbn [SFcompare R_of].
  - split; [done|lra].
  - pose proof (p2_pos e'). pose proof (IZR_pos (Z.pos q) eq_refl). split; [nra|done].
  - pose proof (p2_pos e). pose proof (IZR_pos (Z.pos p) eq_refl). split; [done|nra].
  - destruct (Z.compare_spec e e') as [->|He|He].
    + change (Pos.compare_cont Eq p q) with (Pos.compare p q). pose proof (p2_pos e').
      destruct (Pos.compare_spec p q) as [->|Hc|Hc]; (split; [try done|]); try lra; intros.
      * assert (IZR (Z.pos p) < IZR (Z.pos q)) by (by apply IZR_lt). nra.
      * assert (IZR (Z.pos q) < IZR (Z.pos p)) by (by apply IZR_lt). nra.
    + split; [intros _; by apply exponents_compare|done].
    + split; [done|]. assert (IZR (Z.pos q) * p2 e' < IZR (Z.pos p) * p2 e) by (by apply exponents_compare).
      lra.
Qed.

(** The conversion to an integer rounds down. *)
Lemma int64_of_float_R arch f : nonneg f → R_of f < IZR (2 ^ 63) →
  (0 ≤ int64_of_float arch f)%Z ∧
  IZR (int64_of_float arch f) <= R_of f < IZR (int64_of_float arch f) + 1.
Proof.
  intros Hf Hlt. assert (∃ z, float_trunc f = Some z ∧ (0 ≤ z)%Z ∧ IZR z <= R_of f < IZR z + 1) as H.
  { destruct f as [s| | |s p e]; try done; [exists 0%Z; simpl; split_and!; [done|done|lra..]|].
    destruct Hf as [-> Hb]. cbn [float_trunc R_of]. destruct (Z.leb_spec 0 e) as [He|He].
    - exists (Z.pos p * 2 ^ e)%Z. rewrite mult_IZR, p2_Z by done.
      split_and!; [done|by apply Z.mul_nonneg_nonneg; [|apply Z.pow_nonneg]|lra|lra].
    - exists (Z.pos p / 2 ^ (- e))%Z. set (d := (2 ^ (- e))%Z).
      assert (0 < d)%Z as Hd by (apply Z.pow_pos_nonneg; lia).
      assert (p2 e * IZR d = 1) as Ed.
      { unfold d. replace e with (- - e)%Z at 1 by lia. apply p2_neg. lia. }
      pose proof (Z.div_mod (Z.pos p) d ltac:(lia)) as Hdm. pose proof (Z.mod_pos_bound (Z.pos p) d Hd) as Hm.
      set (z := (Z.pos p / d)%Z) in *. assert (d * z ≤ Z.pos p < d * (z + 1))%Z as [H1%IZR_le H2%IZR_lt] by lia.
      rewrite mult_IZR in H1, H2. rewrite plus_IZR in H2. pose proof (p2_pos e) as Hp.
      split_and!; [done|by apply Z.div_pos| |].
      + apply (Rmult_le_compat_r (p2 e)) in H1; [|lra].
        replace (IZR d * IZR z * p2 e) with (IZR z * (p2 e * IZR d)) in H1 by ring. rewrite Ed in H1. lra.
      + apply (Rmult_lt_compat_r (p2 e)) in H2; [|lra].
        replace (IZR d * (IZR z + 1) * p2 e) with ((IZR z + 1) * (p2 e * IZR d)) in H2 by ring.
        rewrite Ed in H2. lra. }
  destruct H as (z&Ez&Hz&H1&H2). unfold int64_of_float. rewrite Ez.
  assert (z < 2 ^ 63)%Z by (apply lt_IZR; lra).
  rewrite (proj2 (andb_true_iff _ _)); [done|]. unfold MinInt64, MaxInt64. lia.
Qed.
