(* ===== verification/Memory.v ===== *)
(** * How much to prune

    Models internal/cache/memory_analyzer.go and
    internal/cache/store/prune_consultant.go.  What the machine and the runtime
    report is a [reading]; an analyzer turns it into the heap in use and the total
    and sets its gauges, whose last value is kept.  The consultant compares the
    percentage with its limit in floating point; [heap * 100] wraps at 64 bits, and
    [arch] is what the conversion of an unrepresentable float gives. *)

From Stdlib Require Import Reals Lra.
From S2P Require Import Prelude Envelope FloatRound Parsing FloatReal.

#[local] Open Scope Z_scope.

(** [sigar.Mem], whose errors are dropped, and [runtime.MemStats]. *)
Record reading := mkReading { ActualFree : Z; Total : Z; HeapInuse : Z }.

(** The interface [store.Memory]: the heap in use and the total. *)
Class Memory (M : Type) := memory : reading → M → M * (Z * Z).

(** ** The analyzers *)
Record MemoryAnalyzer := mkAnalyzer {
  setAvail : float64;
  setTotal : float64;
  setHeap : float64;
  avail : Z;
  total : Z;
  heap : Z;
}.
Definition NewMemoryAnalyzer : MemoryAnalyzer :=
  mkAnalyzer (S754_zero false) (S754_zero false) (S754_zero false) 0 0 0.

Definition MemoryAnalyzer_Memory : Memory MemoryAnalyzer := λ m a,
  let a := mkAnalyzer (float_of_int (ActualFree m)) (float_of_int (Total m)) (float_of_int (HeapInuse m))
             (ActualFree m) (Total m) (HeapInuse m) in
  (a, (heap a, total a)).
#[export] Existing Instance MemoryAnalyzer_Memory.

Record StaticMemoryAnalyzer := mkStatic { static_setTotal : float64; static_setHeap : float64; limit : Z }.
Definition NewStaticMemoryAnalyzer (limit : Z) : StaticMemoryAnalyzer :=
  mkStatic (S754_zero false) (S754_zero false) limit.

Definition StaticMemoryAnalyzer_Memory : Memory StaticMemoryAnalyzer := λ m a,
  (mkStatic (float_of_int (limit a)) (float_of_int (HeapInuse m)) (limit a), (HeapInuse m, limit a)).
#[export] Existing Instance StaticMemoryAnalyzer_Memory.

(** ** The consultant *)
Record PruneConsultant (M : Type) := mkConsultant {
  m : M;
  percentToFill : float64;
  stepBy : Z;
  reportMemory : option float64;
}.
Arguments mkConsultant {M}. Arguments m {M}. Arguments percentToFill {M}. Arguments stepBy {M}.
Arguments reportMemory {M}.

Definition NewPruneConsultant {M} (stepBy : Z) (percentToFill : float64) (m : M) : PruneConsultant M :=
  mkConsultant m percentToFill stepBy None.

Definition SetMemoryReporter {M} (mr : float64) (pc : PruneConsultant M) : PruneConsultant M :=
  mkConsultant (m pc) (percentToFill pc) (stepBy pc) (Some mr).

(** The share of the entries that are over the limit. *)
Definition percentageToPrune (heapPercentage percentToFill : float64) : float64 :=
  SFdiv 53 1024 (SFsub 53 1024 heapPercentage percentToFill) heapPercentage.

Section Consultant.
Variable arch : float64 → Z.
Context {M : Type} `{Memory M}.

Definition GetQuantityToPrune (r : reading) (storeCount : Z) (pc : PruneConsultant M) :
    PruneConsultant M * Z :=
  let '(m, (heap, total)) := memory r (m pc) in
  let heapPercentage := SFdiv 53 1024 (float_of_int (wrapu64 (heap * 100))) (float_of_int total) in
  let pc := mkConsultant m (percentToFill pc) (stepBy pc) ((λ _, heapPercentage) <$> reportMemory pc) in
  (pc,
   if SFltb (percentToFill pc) heapPercentage then
     int64_of_float arch
       (SFmul 53 1024 (float_of_int storeCount) (percentageToPrune heapPercentage (percentToFill pc)))
   else 0).
End Consultant.

(** ** The error of the computation *)
Section Error.
Local Open Scope R_scope.

Definition eps : R := p2 (-50).

Lemma Rabs_le_inv x y : Rabs x <= y → - y <= x <= y.
Proof. intros. unfold Rabs in *. destruct (Rcase_abs x); lra. Qed.

(** The units of the errors: [2 ^ -53] and something far smaller. *)
Lemma units : 0 < ulp ∧ eps = 8 * ulp ∧ ulp <= / 9007199254740992 ∧ 0 < tiny ∧ tiny <= ulp * p2 (-200).
Proof.
  unfold ulp, eps, tiny. split_and!; try apply p2_pos.
  - replace (-50)%Z with (3 + -53)%Z by lia. rewrite p2_add. unfold p2 at 1. simpl. lra.
  - unfold p2. simpl. lra.
  - rewrite <- p2_add. apply p2_le. lia.
Qed.

(** A machine integer as a float. *)
Lemma word_error n : (0 < n < 2 ^ 64)%Z →
  nonneg (float_of_int n) ∧
  IZR n * (1 - 2 * ulp) <= R_of (float_of_int n) <= IZR n * (1 + 2 * ulp).
Proof.
  intros Hn. destruct (float_of_int_close n) as [Hf Hc%Rabs_le_inv]; [lia|]. split; [done|].
  destruct units as (Hu&_&_&Ht&Htu).
  assert (1 <= IZR n) by (apply IZR_le; lia).
  assert (p2 (-200) <= 1) by (change 1 with (p2 0); apply p2_le; lia). pose proof (p2_pos (-200)).
  assert (tiny <= ulp * IZR n) by (etrans; [exact Htu|]; apply Rmult_le_compat_l; lra). lra.
Qed.

(** The quotient of two such. *)
Lemma quotient_error H T a b u :
  0 < H → 0 < T → 0 < u <= / 100 →
  H * (1 - 2 * u) <= a <= H * (1 + 2 * u) → T * (1 - 2 * u) <= b <= T * (1 + 2 * u) →
  0 < b ∧ H / T * (1 - 5 * u) <= a / b <= H / T * (1 + 5 * u).
Proof.
  intros HH HT Hu Ha Hb. assert (0 < b) as Hb0 by nra. split; [done|].
  assert (H / T * T = H) as E by (field; lra). assert (a / b * b = a) as Ea by (field; lra).
  assert (0 < H / T) as Hq by (apply Rdiv_lt_0_compat; lra). set (q := H / T) in *. clearbody q. subst H.
  split; apply (Rmult_le_reg_r b); try done; rewrite Ea.
  - apply (Rle_trans _ (q * (1 - 5 * u) * (T * (1 + 2 * u)))); [|nra].
    apply Rmult_le_compat_l; [|lra]. nra.
  - apply (Rle_trans _ (q * (1 + 5 * u) * (T * (1 - 2 * u)))); [nra|].
    apply Rmult_le_compat_l; [|lra]. nra.
Qed.

Lemma heap_percentage_error H T : (0 < H < 2 ^ 64)%Z → (0 < T < 2 ^ 64)%Z →
  let hp := SFdiv 53 1024 (float_of_int H) (float_of_int T) in
  let h := IZR H / IZR T in
  nonneg hp ∧ 0 < h ∧ h < p2 64 ∧ p2 (-64) <= h ∧ h * (1 - eps) <= R_of hp <= h * (1 + eps).
Proof.
  intros HH HT hp h. destruct units as (Hu&He&Hu2&Ht&Htu).
  destruct (word_error H HH) as [Hf Ha], (word_error T HT) as [Hg Hb].
  assert (0 < IZR H) as HH0 by (apply IZR_lt; lia). assert (0 < IZR T) as HT0 by (apply IZR_lt; lia).
  destruct (quotient_error _ _ _ _ ulp HH0 HT0 ltac:(split; lra) Ha Hb) as [Hpos Hq]. fold h in Hq.
  assert (0 < h) as Hh by (by apply Rdiv_lt_0_compat).
  assert (h * IZR T = IZR H) as E by (unfold h; field; lra).
  assert (h < p2 64) as Hup.
  { apply (Rmult_lt_reg_r (IZR T)); [done|]. rewrite E.
    assert (IZR H < p2 64) by (rewrite <- p2_Z by done; apply IZR_lt; lia).
    assert (1 <= IZR T) by (apply IZR_le; lia). nra. }
  assert (p2 (-64) <= h) as Hlo.
  { apply (Rmult_le_reg_r (IZR T)); [done|]. rewrite E.
    assert (IZR T <= p2 64) by (rewrite <- p2_Z by done; apply IZR_le; lia).
    assert (1 <= IZR H) by (apply IZR_le; lia). pose proof (p2_pos (-64)).
    assert (p2 (-64) * p2 64 = 1) by (rewrite <- p2_add; done). nra. }
  assert (p2 (-200) <= h) as Hlo' by (etrans; [|exact Hlo]; apply p2_le; lia).
  assert (p2 64 * 2 <= p2 900) as Hbig.
  { replace 2 with (p2 1) by (unfold p2; simpl; lra). rewrite <- p2_add. apply p2_le. lia. }
  destruct (SFdiv_close _ _ Hf Hg Hpos) as [Hn Hc%Rabs_le_inv]; [nra|]. fold hp in Hn, Hc.
  split_and!; try done; rewrite He; nra.
Qed.
(** A count of envelopes, and the errors it magnifies. *)
Lemma count_error c : (0 ≤ c < 2 ^ 46)%Z →
  0 <= IZR c <= 70368744177664 ∧ IZR c * ulp <= / 128 ∧ IZR c * eps <= / 16.
Proof.
  intros Hc. destruct units as (Hu&He&Hu2&_).
  assert (0 <= IZR c <= 70368744177664) as H by (split; apply IZR_le; lia).
  assert (IZR c * ulp <= / 128) as Hcu.
  { apply (Rle_trans _ (70368744177664 * / 9007199254740992)); [|lra]. apply Rmult_le_compat; lra. }
  split_and!; try lra. rewrite He. lra.
Qed.

(** The share over the limit, times the count. *)
Lemma quantity_error hp pf c :
  nonneg hp → nonneg pf → R_of pf < R_of hp → p2 (-65) <= R_of hp < p2 65 → (0 ≤ c < 2 ^ 46)%Z →
  let r := SFmul 53 1024 (float_of_int c) (percentageToPrune hp pf) in
  nonneg r ∧ Rabs (R_of r - IZR c * (1 - R_of pf / R_of hp)) <= / 8.
Proof.
  intros Hhp Hpf Hlt Hb Hc r. destruct units as (Hu&_&Hu2&Ht&Htu). pose proof (R_of_nonneg pf Hpf) as HP.
  assert (p2 65 <= p2 800) by (apply p2_le; lia). assert (p2 800 * 4 <= p2 900) as Hbig.
  { replace 4 with (p2 2) by (unfold p2; simpl; lra). rewrite <- p2_add. apply p2_le. lia. }
  assert (1 <= p2 800) by (change 1 with (p2 0); apply p2_le; lia).
  unfold percentageToPrune in r. set (d := SFsub 53 1024 hp pf) in *.
  destruct (SFsub_close hp pf Hhp Hpf) as [Hd Hde%Rabs_le_inv]; [lra|lra|]. fold d in Hd, Hde.
  set (h := R_of hp) in *. set (P := R_of pf) in *. pose proof (p2_pos (-65)).
  assert (tiny <= ulp) as Ht1.
  { etrans; [exact Htu|]. assert (p2 (-200) <= 1) by (change 1 with (p2 0); apply p2_le; lia). nra. }
  assert (tiny <= ulp * h) as Hth.
  { etrans; [exact Htu|]. apply Rmult_le_compat_l; [lra|]. etrans; [|apply Hb]. apply p2_le. lia. }
  assert (P / h * h = P) as EP by (field; lra). assert (R_of d / h * h = R_of d) as Ed by (field; lra).
  set (s := 1 - P / h). assert (s * h = h - P) as Es by (unfold s; lra).
  assert (0 <= s <= 1) as Hs.
  { split; apply (Rmult_le_reg_r h); lra. }
  assert (Rabs (R_of d / h - s) <= 2 * ulp) as Hq1%Rabs_le_inv.
  { apply Rabs_le. split; apply (Rmult_le_reg_r h); try lra; rewrite Rmult_minus_distr_r, Ed, Es; nra. }
  pose proof (R_of_nonneg d Hd) as Hd0.
  assert (0 <= R_of d / h) by (apply (Rmult_le_reg_r h); lra).
  destruct (SFdiv_close d hp Hd Hhp) as [Hp Hpe%Rabs_le_inv]; [fold h; lra|fold h; lra|].
  fold h in Hpe. set (p := SFdiv 53 1024 d hp) in *.
  assert (Rabs (R_of p - s) <= 5 * ulp) as Hq2%Rabs_le_inv.
  { assert (R_of d / h * ulp <= 2 * ulp) by (apply Rmult_le_compat_r; lra).
    apply Rabs_le. lra. }
  destruct (float_of_int_exact c) as [Hcf Hce]; [lia|].
  destruct (count_error c Hc) as (Hcr&Hcu&_).
  pose proof (R_of_nonneg p Hp) as Hp0. assert (R_of p <= 2) by lra.
  destruct (SFmul_close (float_of_int c) p Hcf Hp) as [Hr Hre%Rabs_le_inv].
  { rewrite Hce. apply (Rle_lt_trans _ (IZR c * 2)); [apply Rmult_le_compat_l; lra|].
    assert (70368744177664 < p2 800); [|lra]. apply (Rle_lt_trans _ (p2 46)); [rewrite <- p2_Z by done; apply IZR_le; lia|].
    replace 800%Z with (46 + 754)%Z by lia. rewrite p2_add. pose proof (p2_pos 46).
    assert (2 <= p2 754) by (replace 2 with (p2 1) by (unfold p2; simpl; lra); apply p2_le; lia). nra. }
  split; [exact Hr|]. fold r in Hre. rewrite Hce in Hre. clearbody r p d s.
  assert (Rabs (IZR c * R_of p - IZR c * s) <= 5 * (IZR c * ulp)) as Hcp%Rabs_le_inv.
  { rewrite <- Rmult_minus_distr_l, Rabs_mult, Rabs_pos_eq by lra.
    replace (5 * (IZR c * ulp)) with (IZR c * (5 * ulp)) by ring. apply Rmult_le_compat_l; [lra|].
    apply Rabs_le. lra. }
  assert (IZR c * R_of p * ulp <= 2 * (IZR c * ulp)) by nra.
  apply Rabs_le. lra.
Qed.
(** The same against the exact percentage [H / T]. *)
Lemma exact_quantity_error H T P c q :
  (0 < H < 2 ^ 64)%Z → (0 < T < 2 ^ 64)%Z → (0 ≤ P < 2 ^ 53)%Z → (0 ≤ c < 2 ^ 46)%Z →
  let hp := SFdiv 53 1024 (float_of_int H) (float_of_int T) in
  let pf := float_of_int P in
  (if SFltb pf hp then
     ∃ arch, q = int64_of_float arch (SFmul 53 1024 (float_of_int c) (percentageToPrune hp pf))
   else q = 0%Z) →
  (0 ≤ q)%Z ∧ ∃ x, x * IZR H = IZR (c * (H - P * T)) ∧ x <= IZR c ∧ x - 2 < IZR q ∧
    (q = 0%Z ∨ IZR q < x + 1) ∧ (x <= 0 → q = 0%Z).
Proof.
  intros HH HT HP Hc hp pf Hq. destruct units as (Hu&He&Hu2&Ht&Htu).
  destruct (heap_percentage_error H T HH HT) as (Hn&Hh0&Hh1&Hh2&Hhp). fold hp in Hn, Hhp.
  set (h := IZR H / IZR T) in *. destruct (float_of_int_exact P) as [Hpf EP]; [lia|]. fold pf in Hpf, EP.
  assert (0 < IZR H) as HH0 by (apply IZR_lt; lia). assert (0 < IZR T) as HT0 by (apply IZR_lt; lia).
  assert (0 <= IZR P) as HP0 by (apply IZR_le; lia).
  destruct (count_error c Hc) as ([Hc0 Hcm]&_&Hce).
  assert (IZR P / h * h = IZR P) as Es by (field; lra).
  assert (h * IZR T = IZR H) as Eh by (unfold h; field; lra).
  set (x := IZR c * (1 - IZR P / h)).
  assert (x * IZR H = IZR (c * (H - P * T))) as Ex.
  { rewrite mult_IZR, minus_IZR, mult_IZR, <- Eh. unfold x.
    replace (IZR c * (1 - IZR P / h) * (h * IZR T)) with (IZR c * (h - IZR P / h * h) * IZR T) by ring.
    rewrite Es. ring. }
  assert (0 <= IZR P / h) as HPh by (apply (Rmult_le_reg_r h); lra).
  assert (x <= IZR c) as Hxc by (unfold x; nra).
  destruct (SFltb pf hp) eqn:Elt.
  - apply SFltb_R in Elt; [|done..]. rewrite EP in Elt. destruct Hq as [arch ->].
    assert (p2 (-65) <= R_of hp < p2 65) as Hb.
    { replace (-64)%Z with (-65 + 1)%Z in Hh2 by lia. replace 65%Z with (64 + 1)%Z by lia.
      rewrite p2_add in Hh2 |- *. replace (p2 1) with 2 in * by (unfold p2; simpl; lra).
      assert (eps <= / 2) by lra. split; nra. }
    destruct (quantity_error hp pf c Hn Hpf) as [Hr Hre%Rabs_le_inv]; [by rewrite EP|done|done|].
    set (r := SFmul 53 1024 (float_of_int c) (percentageToPrune hp pf)) in *. rewrite EP in Hre.
    assert (Rabs (IZR c * (1 - IZR P / R_of hp) - x) <= / 16) as Hx%Rabs_le_inv.
    { assert (IZR P / R_of hp * R_of hp = IZR P) as Ey by (field; lra). set (y := IZR P / R_of hp) in *.
      assert (0 <= y <= 1) as Hy by (split; apply (Rmult_le_reg_r (R_of hp)); lra).
      assert (Rabs (IZR P / h - y) <= eps) as Hd%Rabs_le_inv.
      { apply Rabs_le. split; apply (Rmult_le_reg_r h); try done;
          rewrite Rmult_minus_distr_r, Es, <- Ey; nra. }
      unfold x. apply Rabs_le. split; nra. }
    destruct (int64_of_float_R arch r Hr) as [Hq0 Hq1].
    { apply (Rlt_trans _ 70368744177665); [lra|]. by apply IZR_lt. }
    split; [done|]. exists x. split_and!; [done|done|lra|right; lra|].
    intros Hx0. assert (int64_of_float arch r < 1)%Z by (apply lt_IZR; lra). lia.
  - subst q. split; [done|]. exists x. split_and!; try done.
    2: by left.
    assert (R_of hp <= IZR P) as Hle.
      { apply Rnot_lt_le. rewrite <- EP. rewrite <- SFltb_R by done. by rewrite Elt. }
    assert (1 - IZR P / h <= eps) by (apply (Rmult_le_reg_r h); [done|]; lra).
    assert (x <= IZR c * eps) by (by apply Rmult_le_compat_l). lra.
Qed.
End Error.

(** What the consultant asks for, in integers: nothing unless the heap exceeds
    its share of the total, never more than there is, and otherwise the share of
    the entries that is over the limit, less at most two and plus less than one. *)
Definition prunes (heap total percent storeCount q : Z) : Prop :=
  0 ≤ q ≤ storeCount ∧
  (heap * 100 ≤ percent * total → q = 0) ∧
  (percent * total < heap * 100 →
   storeCount * (heap * 100 - percent * total) - 2 * (heap * 100) < q * (heap * 100) <
     storeCount * (heap * 100 - percent * total) + heap * 100).

Lemma quantity_spec arch {M} `{Memory M} (r : reading) storeCount percent (pc : PruneConsultant M) :
  percentToFill pc = float_of_int percent → 0 ≤ percent < 2 ^ 53 → 0 ≤ storeCount < 2 ^ 46 →
  let '(_, (heap, total)) := memory r (m pc) in
  0 ≤ heap * 100 < 2 ^ 64 → 0 < total < 2 ^ 64 →
  prunes heap total percent storeCount (GetQuantityToPrune arch r storeCount pc).2.
Proof.
  intros Hp HP Hc. unfold GetQuantityToPrune. destruct (memory r (m pc)) as [m' [heap total]].
  intros Hh Ht. rewrite Hp. cbn [snd]. unfold wrapu64. rewrite Z.mod_small by done.
  set (q := if SFltb _ _ then _ else _). unfold prunes. set (H' := heap * 100) in *.
  destruct (decide (H' = 0)) as [E|Hne].
  { assert (q = 0) as ->; [|split_and!; lia || nia]. unfold q. rewrite E.
    destruct (float_of_int_close total) as [Hf _]; [lia|]. destruct (float_of_int_exact percent HP) as [Hpf _].
    assert (SFdiv 53 1024 (float_of_int 0) (float_of_int total) = S754_zero false ∨
            SFdiv 53 1024 (float_of_int 0) (float_of_int total) = S754_nan) as Hz.
    { destruct (float_of_int total) as [| | |s p e]; try done; simpl in Hf; [by right|].
      destruct Hf as [-> _]. by left. }
    destruct (float_of_int percent) as [[]| | |[] p e]; simpl in Hpf; destruct_and?; try done;
      destruct Hz as [-> | ->]; done. }
  destruct (exact_quantity_error H' total percent storeCount q) as (Hq&x&Ex&Hxc&Hlo&Hup&Hx0); [lia|done..| |].
  { unfold q. by destruct (SFltb _ _); [exists arch|]. }
  assert (0 < IZR H')%R as HR by (apply IZR_lt; lia).
  split_and!; [done| | |].
  - destruct Hup as [->|Hup]; [lia|]. apply Z.lt_succ_r, lt_IZR. rewrite succ_IZR. lra.
  - intros Hle. apply Hx0. apply (Rmult_le_reg_r (IZR H')); [done|]. rewrite Ex, Rmult_0_l.
    apply IZR_le. nia.
  - intros Hgt. assert (0 <= x)%R.
    { apply (Rmult_le_reg_r (IZR H')); [done|]. rewrite Ex, Rmult_0_l. apply IZR_le. nia. }
    assert (IZR q < x + 1)%R as Hup' by (destruct Hup as [->|]; lra).
    split; apply lt_IZR; rewrite ?minus_IZR, ?plus_IZR, <- Ex, !mult_IZR; nra.
Qed.

(** ** Concrete readings *)
Definition demo_consultant : PruneConsultant StaticMemoryAnalyzer :=
  NewPruneConsultant 2 (float_of_int 50) (NewStaticMemoryAnalyzer 1000).

(** A heap of 800 bytes of a limit of 1000 with 50 per cent to fill: 3/8 of the
    entries go. *)
Example prunes_three_eighths :
  (GetQuantityToPrune (λ _, 0) (mkReading 0 0 800) 1000 demo_consultant).2 = 375.
Proof. by vm_compute. Qed.

(** The percentage applies to a limit in bytes too: half of it starts the pruning. *)
Fact limit_does_not_override_percent :
  (GetQuantityToPrune (λ _, 0) (mkReading 0 0 501) 1000000 demo_consultant).2 = 1996.
Proof. by vm_compute. Qed.

(** When the system reports no total the percentage is infinite and the quantity
    is whatever the processor makes of a NaN: the cache is never pruned where that
    is zero. *)
Fact unknown_total_asks_for_nan arch :
  (GetQuantityToPrune arch (mkReading 0 0 1000000) 1000 (NewPruneConsultant 2 (float_of_int 50) NewMemoryAnalyzer)).2
  = arch S754_nan.
Proof. by vm_compute. Qed.
