(* ===== verification/Query.v ===== *)
(** * PromQL queries

    Models [New], [InstantQuery], [RangeQuery] and the conversion of results in
    internal/promql/promql.go.  The Prometheus engine is a parameter: given a
    query and its times it is refused or becomes a run, a tree that asks for
    series through the queryable and continues with the answer.  [Select] of
    PromQL.v gives the answers.  The engine does not hand errors of the queryable
    back, so the code keeps the last one aside: [closureErr].

    The timers are not modelled.  A value the code does not know panics. *)

From S2P Require Import Prelude Envelope GoStrings GoFloat FloatRound GoFormat Json NumberText PromQLMessages.
From S2P Require Import Proxies PromQLSources PromQL Marshaler MarshalerSpec Parsing.

(** ** The engine *)
Record Point := mkEnginePoint { Point_T : Z; Point_V : float64 }.
Abbreviation Labels := (list (string * string)).

Inductive EngineValue :=
| ValueScalar (p : Point)
| ValueVector (l : list (Labels * Point))
| ValueMatrix (l : list (Labels * list Point))
| ValueString (s : string).

(** [promql.Result]. *)
Abbreviation EngineResult := (result string EngineValue).

Inductive EngineRun :=
| Finished (r : EngineResult)
| Selecting (mint maxt : Z) (ll : list Matcher) (k : result string concreteSeriesSet → EngineRun).

Record EngineOpts := mkOpts { MaxConcurrent : Z; MaxSamples : Z; Timeout : Z }.

(** ** The querier's state *)
Record PromQL := mkPromQL { queryTimeout : Z; failureCounter : Z }.
Definition New (queryTimeout : Z) : PromQL := mkPromQL queryTimeout 0.
Definition count_failure (q : PromQL) : PromQL := mkPromQL (queryTimeout q) (failureCounter q + 1).

(** ** Results *)
Definition metric_of (ls : Labels) : gmap string string :=
  foldl (λ metric m, <[m.1 := m.2]> metric) ∅ ls.

Definition to_point (p : Point) : PromQL_Point := mkPromPoint (formatPromqlTime (Point_T p)) (Point_V p).

Definition to_matrix (l : list (Labels * list Point)) : PromQL_Matrix :=
  mkMatrix ((λ s, mkPromSeries (metric_of s.1) (to_point <$> s.2)) <$> l).

Definition toInstantQueryResult (r : EngineResult) : outcome (result string PromQL_InstantQueryResult) :=
  match r with
  | Err e => Done (Err e)
  | Ok (ValueScalar s) =>
      Done (Ok (mkInstant (Some (InstantQueryResult_Scalar (mkScalar (formatPromqlTime (Point_T s)) (Point_V s))))))
  | Ok (ValueVector l) =>
      Done (Ok (mkInstant (Some (InstantQueryResult_Vector (mkVector
        ((λ s, mkPromSample (metric_of s.1) (Some (to_point s.2))) <$> l))))))
  | Ok (ValueMatrix l) => Done (Ok (mkInstant (Some (InstantQueryResult_Matrix (to_matrix l)))))
  | Ok (ValueString _) => Panic
  end.

Definition toRangeQueryResult (r : EngineResult) : outcome (result string PromQL_RangeQueryResult) :=
  match r with
  | Err e => Done (Err e)
  | Ok (ValueMatrix l) => Done (Ok (mkRange (Some (to_matrix l))))
  | Ok _ => Panic
  end.

(** ** Queries *)
Section Query.
Variable arch : float64 → Z.
Variable order : gmap string GaugeValue → list (string * GaugeValue).
Variable range : gmap string string → list (string * string).
Context {W : Type}.
Variable Read : ReadRequest → W → W * result string (list Envelope).
(** The orders in which Go visits the source ids and the series. *)
Variable ids_order : gset string → list string.
Variable visit : gmap string seriesData → list (string * seriesData).
Variable NewInstantQuery : EngineOpts → string → Z → result string EngineRun.
Variable NewRangeQuery : EngineOpts → string → Z → Z → Z → result string EngineRun.

(** [Querier]: milliseconds to nanoseconds. *)
Definition Querier_start (mint : Z) : Z := wrap64 (mint * Millisecond).

(** [qq.Exec], with the error the queryable reported last. *)
Fixpoint Exec (e : EngineRun) (closureErr : option string) (w : W) : W * option string * EngineResult :=
  match e with
  | Finished r => (w, closureErr, r)
  | Selecting mint maxt ll k =>
      let '(w, s) := Select order range Read (Querier_start mint) (Querier_start maxt) ids_order visit ll w in
      Exec (k s) (match s with Err err => Some err | Ok _ => closureErr end) w
  end.

Definition engine_opts (q : PromQL) : EngineOpts := mkOpts 10 50000000 (queryTimeout q).

(** What both queries do with a run. *)
Definition finish_query {A} (convert : EngineResult → outcome (result string A)) (qq : EngineRun)
    (q : PromQL) (w : W) : outcome (PromQL * W * result string A) :=
  let '(w, closureErr, r) := Exec qq None w in
  match closureErr with
  | Some err => Done (count_failure q, w, Err err)
  | None => r ← convert r; Done (q, w, r)
  end.

(** [now] is the clock, in nanoseconds. *)
Definition InstantQuery (now : Z) (req : PromQL_InstantQueryRequest) (q : PromQL) (w : W) :
    outcome (PromQL * W * result string PromQL_InstantQueryResult) :=
  let requestTime :=
    if decide (IReq_Time req = "") then Ok (now / Second * Second) else ParseTime arch (IReq_Time req) in
  match requestTime with
  | Err err => Done (q, w, Err err)
  | Ok requestTime =>
      match NewInstantQuery (engine_opts q) (IReq_Query req) requestTime with
      | Err err => Done (q, w, Err err)
      | Ok qq => finish_query toInstantQueryResult qq q w
      end
  end.

Definition RangeQuery (req : PromQL_RangeQueryRequest) (q : PromQL) (w : W) :
    outcome (PromQL * W * result string PromQL_RangeQueryResult) :=
  match ParseStep arch (RReq_Step req) with
  | Err err => Done (q, w, Err ("couldn't parse step: " +:+ err))
  | Ok step =>
      match ParseTime arch (RReq_Start req) with
      | Err err => Done (q, w, Err ("couldn't parse start: " +:+ err))
      | Ok startTime =>
          match ParseTime arch (RReq_End req) with
          | Err err => Done (q, w, Err ("couldn't parse end: " +:+ err))
          | Ok endTime =>
              match NewRangeQuery (engine_opts q) (RReq_Query req) startTime endTime step with
              | Err err => Done (q, w, Err err)
              | Ok qq => finish_query toRangeQueryResult qq q w
              end
          end
      end
  end.
End Query.

(** ** Failures *)
Section QuerySpec.
Context (arch : float64 → Z) (order : gmap string GaugeValue → list (string * GaugeValue)).
Context (range : gmap string string → list (string * string)).
Context {W : Type} (Read : ReadRequest → W → W * result string (list Envelope)).
Context (ids_order : gset string → list string).
Context (visit : gmap string seriesData → list (string * seriesData)).
Context (NewInstantQuery : EngineOpts → string → Z → result string EngineRun).
Context (NewRangeQuery : EngineOpts → string → Z → Z → Z → result string EngineRun).

(** The answers the engine gets in a run, in order, and how the run ends. *)
Fixpoint answers (e : EngineRun) (w : W) : list (result string concreteSeriesSet) * W * EngineResult :=
  match e with
  | Finished r => ([], w, r)
  | Selecting mint maxt ll k =>
      let '(w, s) := Select order range Read (Querier_start mint) (Querier_start maxt) ids_order visit ll w in
      let '(l, w, r) := answers (k s) w in (s :: l, w, r)
  end.

Definition failures (l : list (result string concreteSeriesSet)) : list string :=
  omap (λ s, match s with Err e => Some e | Ok _ => None end) l.

Lemma Exec_answers e c w :
  let '(l, w', r) := answers e w in
  Exec order range Read ids_order visit e c w = (w', default c (Some <$> last (failures l)), r).
Proof.
  revert c w. induction e as [r|mint maxt ll k IH]; intros c w; [done|]. cbn [answers Exec].
  destruct (Select _ _ _ _ _ _ _ _) as [w1 s]. specialize (IH s (match s with Err err => Some err | Ok _ => c end) w1).
  destruct (answers (k s) w1) as [[l w'] r]. rewrite IH. destruct s as [s|err]; [done|].
  change (failures (Err err :: l)) with (err :: failures l). rewrite last_cons.
  by destruct (last (failures l)).
Qed.

(** C27: a query never hides a failed read.  Whatever the engine makes of an
    error of the queryable, a query fails with the last one and counts one
    failure; it returns the engine's own result, converted, only when each of
    its reads was answered. *)
Theorem queries_report_failures now ireq rreq q w :
  let run {A} (convert : _ → outcome (result string A)) qq : outcome (PromQL * W * result string A) :=
    let '(l, w', r) := answers qq w in
    match last (failures l) with
    | Some err => Done (count_failure q, w', Err err)
    | None => r ← convert r; Done (q, w', r)
    end in
  (∀ time qq,
    (if decide (IReq_Time ireq = "") then Ok (now / Second * Second) else ParseTime arch (IReq_Time ireq)) = Ok time →
    NewInstantQuery (engine_opts q) (IReq_Query ireq) time = Ok qq →
    InstantQuery arch order range Read ids_order visit NewInstantQuery now ireq q w = run toInstantQueryResult qq) ∧
  (∀ step start end_ qq,
    ParseStep arch (RReq_Step rreq) = Ok step → ParseTime arch (RReq_Start rreq) = Ok start →
    ParseTime arch (RReq_End rreq) = Ok end_ →
    NewRangeQuery (engine_opts q) (RReq_Query rreq) start end_ step = Ok qq →
    RangeQuery arch order range Read ids_order visit NewRangeQuery rreq q w = run toRangeQueryResult qq).
Proof.
  intros run.
  assert (∀ A (convert : _ → outcome (result string A)) qq,
    finish_query order range Read ids_order visit convert qq q w = run A convert qq) as Hrun.
  { intros A convert qq. unfold finish_query, run. pose proof (Exec_answers qq None w) as E.
    destruct (answers qq w) as [[l w'] r]. rewrite E. by destruct (last (failures l)). }
  split.
  - intros time qq Ht Hq. unfold InstantQuery. by rewrite Ht, Hq.
  - intros step start end_ qq Hs H1 H2 Hq. unfold RangeQuery. by rewrite Hs, H1, H2, Hq.
Qed.
End QuerySpec.

(** ** Results on the wire *)
Definition engine_point_ok (p : Point) : Prop := Z.abs (Point_T p) < 2 ^ 52 ∧ value_ok (Point_V p).
Definition labels_ok (ls : Labels) : Prop := Forall (λ m, utf8 m.1 ∧ utf8 m.2) ls.

Definition engine_value_ok (v : EngineValue) : Prop :=
  match v with
  | ValueScalar p => engine_point_ok p
  | ValueVector l => Forall (λ s, labels_ok s.1 ∧ engine_point_ok s.2) l
  | ValueMatrix l => Forall (λ s, labels_ok s.1 ∧ Forall engine_point_ok s.2) l
  | ValueString _ => True
  end.

Lemma time_of_result ms : Z.abs ms < 2 ^ 52 →
  time_ok (formatPromqlTime ms) ∧ canonical_time (formatPromqlTime ms) = formatPromqlTime ms.
Proof.
  intros Hms. rewrite formatPromqlTime_fixed by done. unfold time_ok, canonical_time.
  rewrite ParseFloat_decimal by lia. destruct (scaled_round_decimal (ms <? 0) (Z.abs ms) 3) as [H _]; [lia..|].
  split; [|apply FormatFixed_round_decimal; lia]. eexists _, _. split_and!; [done..|lia|lia].
Qed.

Lemma metric_of_ok ls : labels_ok ls → metric_ok (metric_of ls).
Proof.
  unfold metric_of. intros H. assert (metric_ok (∅ : gmap string string)) as H0 by apply map_Forall_empty.
  revert H0. generalize (∅ : gmap string string). induction H as [|m ls [Hk Hv] _ IH]; intros metric Hm; [done|].
  cbn [foldl]. apply IH. by apply map_Forall_insert_2.
Qed.

Lemma to_point_ok p : engine_point_ok p → point_ok (to_point p) ∧ canonical_point (to_point p) = to_point p.
Proof.
  intros [Ht Hv]. destruct (time_of_result _ Ht) as [H1 H2]. split; [by split|].
  unfold canonical_point, to_point. simpl. by rewrite H2.
Qed.

Lemma fmap_fixed {A} (f : A → A) l : Forall (λ x, f x = x) l → f <$> l = l.
Proof. induction 1 as [|x l Hx _ IH]; [done|]. rewrite fmap_cons. by rewrite Hx, IH. Qed.

Lemma to_matrix_ok l : Forall (λ s, labels_ok s.1 ∧ Forall engine_point_ok s.2) l →
  Forall series_ok (Series (to_matrix l)) ∧ canonical_matrix (to_matrix l) = to_matrix l.
Proof.
  intros H. assert (Forall (λ s, series_ok s ∧ canonical_series s = s) (Series (to_matrix l))) as Hs.
  { simpl. rewrite Forall_fmap. eapply Forall_impl; [exact H|]. intros [ls ps] [Hl Hp]. cbn [fst snd] in *.
    assert (Forall (λ p, point_ok p ∧ canonical_point p = p) (to_point <$> ps)) as Hps.
    { rewrite Forall_fmap. eapply Forall_impl; [exact Hp|]. apply to_point_ok. }
    apply Forall_and in Hps as [Hps1 Hps2]. split; [split; [by apply metric_of_ok|done]|].
    unfold canonical_series. cbn [Series_Metric Series_Points compose fst snd]. by rewrite fmap_fixed. }
  apply Forall_and in Hs as [Hs1 Hs2]. split; [done|]. unfold canonical_matrix. by rewrite fmap_fixed.
Qed.

Lemma instant_result_ok v r : engine_value_ok v → toInstantQueryResult (Ok v) = Done (Ok r) →
  result_ok (X := unit) (AnyInstant r) ∧ canonical (X := unit) (AnyInstant r) = AnyInstant r.
Proof.
  intros Hv. destruct v as [p|l|l|s]; [..|done]; intros [= <-]; cbn [result_ok canonical Instant_Result from_option fmap option_fmap option_map].
  - destruct Hv as [Ht Hp]. destruct (time_of_result _ Ht) as [H1 H2]. split; [by split|].
    cbn [canonical_instant Scalar_Time Scalar_Value]. by rewrite H2.
  - assert (Forall (λ s, sample_ok s ∧ canonical_sample s = s)
      ((λ s, mkPromSample (metric_of s.1) (Some (to_point s.2))) <$> l)) as Hs.
    { rewrite Forall_fmap. eapply Forall_impl; [exact Hv|]. intros [ls p] [Hl Hp]. cbn [fst snd compose] in *.
      destruct (to_point_ok p Hp) as [H1 H2]. split.
      - split; [by apply metric_of_ok|]. by eexists.
      - unfold canonical_sample. cbn [Sample_Metric Sample_Point fmap option_fmap option_map compose fst snd]. by rewrite H2. }
    apply Forall_and in Hs as [Hs1 Hs2]. split; [done|]. cbn [canonical_instant Samples]. by rewrite fmap_fixed.
  - destruct (to_matrix_ok l Hv) as [H1 H2]. split; [done|]. cbn [canonical_instant]. by rewrite H2.
Qed.

(** C26: a client of the gateway reads exactly what the engine computed.  When a
    query succeeds with an engine value whose labels are UTF-8 and whose times
    lie within 2 ^ 52 milliseconds of 1970, marshalling the result and
    unmarshalling the text gives the same result: the labels, the values bit for
    bit and the times to the millisecond, for instant and for range queries. *)
Theorem query_result_roundtrip (fM fE : unit → string * option error) (fU : string → unit → unit * option error)
    (fD : string → unit → unit * option error * string) v :
  engine_value_ok v →
  (∀ r old, toInstantQueryResult (Ok v) = Done (Ok r) →
    ∃ text, Marshal fM (AnyInstant r) = (text, None) ∧ NewEncoder fE (AnyInstant r) = (text, None) ∧
      Unmarshal fU text (AnyInstant old) = (AnyInstant r, None) ∧
      (NewDecoder fD text (AnyInstant old)).1 = (AnyInstant r, None)) ∧
  (∀ r old, toRangeQueryResult (Ok v) = Done (Ok r) →
    ∃ text, Marshal fM (AnyRange r) = (text, None) ∧ NewEncoder fE (AnyRange r) = (text, None) ∧
      Unmarshal fU text (AnyRange old) = (AnyRange r, None) ∧
      (NewDecoder fD text (AnyRange old)).1 = (AnyRange r, None)).
Proof.
  intros Hv. split; intros r old Hr.
  - destruct (instant_result_ok v r Hv Hr) as [Hok Hc].
    destruct (Marshal_back fM fE fU fD (AnyInstant r) (AnyInstant old) "" Hok I) as (text&H1&H2&H3&H4).
    exists text. rewrite sapp_nil_r, Hc in H4. rewrite H3, H4, Hc. by split_and!.
  - destruct v as [|?|l|]; [done|done| |done]. injection Hr as <-.
    destruct (to_matrix_ok l Hv) as [Hok Hc].
    destruct (Marshal_back fM fE fU fD (AnyRange (mkRange (Some (to_matrix l)))) (AnyRange old) "" Hok I)
      as (text&H1&H2&H3&H4).
    exists text. cbn [canonical Range_Result fmap option_fmap option_map] in H3, H4. rewrite sapp_nil_r, Hc in H4.
    rewrite H3, H4, Hc. by split_and!.
Qed.

(** A query over one source that is asked for twice; the first read fails. *)
Lemma queries_report_failures_witness :
  let ll := [mkMatcher MatchEqual "source_id" "a"] in
  let qq := Selecting 0 5 ll (λ _, Selecting 0 5 ll (λ _, Finished (Ok (ValueMatrix [])))) in
  let Read (_ : ReadRequest) (w : nat) := (S w, if decide (w = 0%nat) then Err "down"%string else Ok []) in
  let ids (s : gset string) := elements s in
  let visit (b : gmap string seriesData) := map_to_list b in
  let q := New 10 in
  InstantQuery (λ _, 0) map_to_list map_to_list Read ids visit (λ _ _ _, Ok qq) 7 (mkInstantRequest "m" "1") q 0%nat =
    Done (count_failure q, 2%nat, Err "down"%string) ∧
  RangeQuery (λ _, 0) map_to_list map_to_list Read ids visit (λ _ _ _ _ _, Ok qq) (mkRangeRequest "m" "1" "2" "1s") q 1%nat =
    Done (q, 3%nat, Ok (mkRange (Some (mkMatrix [])))).
Proof.
  intros ll qq Read ids visit q. split.
  - rewrite (proj1 (queries_report_failures (λ _, 0) map_to_list map_to_list Read ids visit (λ _ _ _, Ok qq)
      (λ _ _ _ _ _, Ok qq) 7 (mkInstantRequest "m" "1") (mkRangeRequest "m" "1" "2" "1s") q 0%nat) Second qq);
      by vm_compute.
  - rewrite (proj2 (queries_report_failures (λ _, 0) map_to_list map_to_list Read ids visit (λ _ _ _, Ok qq)
      (λ _ _ _ _ _, Ok qq) 7 (mkInstantRequest "m" "1") (mkRangeRequest "m" "1" "2" "1s") q 1%nat)
      Second Second (2 * Second) qq); by vm_compute.
Defined.

Lemma query_result_roundtrip_witness :
  let v := ValueMatrix [([("source_id", "a")]%string, [mkEnginePoint 1696530000123 S754_nan])] in
  let r := mkRange (Some (to_matrix [([("source_id", "a")]%string, [mkEnginePoint 1696530000123 S754_nan])])) in
  let fD := λ (s : string) (x : unit), (x, @None error, s) in
  ∃ text, Marshal (λ _ : unit, (""%string, None)) (AnyRange r) = (text, None) ∧
    NewEncoder (λ _ : unit, (""%string, None)) (AnyRange r) = (text, None) ∧
    Unmarshal (λ _ (x : unit), (x, None)) text (AnyRange (mkRange None)) = (AnyRange r, None) ∧
    (NewDecoder fD text (AnyRange (mkRange None))).1 = (AnyRange r, None).
Proof.
  intros v r fD.
  apply (query_result_roundtrip (λ _, (""%string, None)) (λ _, (""%string, None)) (λ _ x, (x, None)) fD v); [|done].
  apply Forall_cons_2; [split|apply Forall_nil_2].
  - apply Forall_cons_2; [split; by apply ascii_text_utf8|apply Forall_nil_2].
  - apply Forall_cons_2; [split; by vm_compute|apply Forall_nil_2].
Defined.

(** A value of another kind takes the process down ([Panicf] in a handler); the
    vendored engine never gives one, it refuses string literals with an error. *)
Fact string_value_panics s :
  toInstantQueryResult (Ok (ValueString s)) = Panic ∧ toRangeQueryResult (Ok (ValueString s)) = Panic.
Proof. done. Qed.
