(* ===== verification/QueryAccess.v ===== *)
(** * What a query through the proxy may read

    Puts the command cf-auth-proxy (CFAuthCommand.v) and the PromQL endpoint of a
    node (Query.v) together: the gateway turns a query the proxy forwarded into a
    call of [InstantQuery] or [RangeQuery], whose engine asks for series through
    [LogCacheQuerier.Select], which reads the sources.  The middleware authorizes
    the sources it finds in the text of the query; the theorem says that these are
    all the node reads, so that the token's owner reads no more than the Cloud
    Controller grants.

    The generated handler of the gateway takes a query's text from the form of the
    request and refuses a second value for it, so that a text in a body cannot stand
    beside the one the middleware put into the URL: a call of the node has that text.

    The engine is vendored: a parameter, of which the theorem uses that a run
    comes from the parsed query, asks only with the matchers of its selectors, and
    ends with an error or a value of the kinds the endpoint converts.  The reads
    are those of any data reader; a log beside its world keeps what was asked. *)

From S2P Require Import Prelude GoStrings GoFloat NetURL AccessLog Envelope PromQLSources CAPI Config CFAuth.
From S2P Require Import AuthProxy PromQLMessages Parsing UAA CFAuthCommand Proxies PromQL Query.

(** ** Runs of the engine *)

(** A run that asks for the selectors [sels] only and ends in a value of [kind]. *)
Inductive asks_within (sels : list (list Matcher)) (kind : EngineValue → Prop) : EngineRun → Prop :=
| asks_fail err : asks_within sels kind (Finished (Err err))
| asks_end v : kind v → asks_within sels kind (Finished (Ok v))
| asks_select mint maxt ll k : ll ∈ sels → (∀ s, asks_within sels kind (k s)) →
    asks_within sels kind (Selecting mint maxt ll k).

Definition instant_value (v : EngineValue) : Prop :=
  match v with ValueString _ => False | _ => True end.
Definition range_value (v : EngineValue) : Prop :=
  match v with ValueMatrix _ => True | _ => False end.

Lemma instant_converts r : (∀ v, r = Ok v → instant_value v) → ∃ res, toInstantQueryResult r = Done res.
Proof. destruct r as [[]|]; intros H; try (by eexists). by destruct (H _ eq_refl). Qed.
Lemma range_converts r : (∀ v, r = Ok v → range_value v) → ∃ res, toRangeQueryResult r = Done res.
Proof. destruct r as [[]|]; intros H; try (by eexists); by destruct (H _ eq_refl). Qed.

(** How such a run ends. *)
Lemma Exec_kind {W} order range (Read : ReadRequest → W → W * result string (list Envelope)) ids_order visit
    sels (kind : EngineValue → Prop) run closureErr w :
  asks_within sels kind run → ∀ v, (Exec order range Read ids_order visit run closureErr w).2 = Ok v → kind v.
Proof.
  intros Hrun. revert closureErr w.
  induction Hrun as [err|v Hv|mint maxt ll k _ _ IH]; intros closureErr w; cbn [Exec].
  - by intros v.
  - by intros v' [= <-].
  - destruct (Select _ _ _ _ _ _ _ _ w) as [w1 s]. apply IH.
Qed.

(** ** Reads with a log *)
Section Logged.
Context {W : Type} (Read : ReadRequest → W → W * result string (list Envelope)).

Definition logged_Read (req : ReadRequest) (w : W * list ReadRequest) :
    W * list ReadRequest * result string (list Envelope) :=
  let '(w', r) := Read req w.1 in (w', w.2 ++ [req], r).

Context (order : gmap string GaugeValue → list (string * GaugeValue)).
Context (range : gmap string string → list (string * string)).
Context (ids_order : gset string → list string).
Context (visit : gmap string seriesData → list (string * seriesData)).
Hypothesis ids_order_elements : ∀ s, ids_order s ≡ₚ elements s.

(** The log grew by reads of allowed sources only. *)
Definition reads_only (allowed : string → Prop) (w w' : W * list ReadRequest) : Prop :=
  ∃ l, w'.2 = w.2 ++ l ∧ Forall (λ req, allowed (Req_SourceId req)) l.

#[export] Instance reads_only_preorder allowed : PreOrder (reads_only allowed).
Proof.
  split; [intros w; exists []; by rewrite app_nil_r|]. intros w1 w2 w3 (l1&E1&H1) (l2&E2&H2).
  exists (l1 ++ l2). split; [by rewrite E2, E1, app_assoc|]. by apply Forall_app.
Qed.

Lemma read_sources_reads (allowed : string → Prop) start end_ metric ls ids b w :
  Forall allowed ids → reads_only allowed w (read_sources order logged_Read start end_ metric ls ids b w).1.
Proof.
  intros Hids. revert b w. induction Hids as [|id ids Hid _ IH]; intros b w; cbn [read_sources]; [done|].
  unfold logged_Read at 1. destruct (Read _ w.1) as [w1 r].
  assert (reads_only allowed w (w1, w.2 ++ [select_request start end_ id])) as Hone.
  { eexists. split; [done|]. by repeat constructor. }
  destruct r as [batch|err]; [|done]. etrans; [exact Hone|apply IH].
Qed.

Lemma Select_reads_only (allowed : string → Prop) start end_ ll w :
  (∀ id, id ∈ selected_ids ll → allowed id) →
  reads_only allowed w (Select order range logged_Read start end_ ids_order visit ll w).1.
Proof.
  intros Hall. unfold Select. pose proof (select_params_ids ll) as Hids.
  destruct (select_params ll) as [[metric ls] ids]. cbn [snd] in Hids. subst ids.
  case_decide; [done|].
  pose proof (read_sources_reads allowed start end_ metric ls (ids_order (selected_ids ll)) ∅ w) as Hr.
  destruct (read_sources _ _ _ _ _ _ _ _ w) as [w' [b|err]]; apply Hr; apply Forall_forall;
    intros id Hi; apply Hall; by rewrite ids_order_elements, elem_of_elements in Hi.
Qed.

Lemma Exec_reads_only (allowed : string → Prop) sels kind run closureErr w :
  asks_within sels kind run → (∀ ll id, ll ∈ sels → id ∈ selected_ids ll → allowed id) →
  reads_only allowed w (Exec order range logged_Read ids_order visit run closureErr w).1.1.
Proof.
  intros Hrun Hall. revert closureErr w.
  induction Hrun as [err|v Hv|mint maxt ll k Hll _ IH]; intros closureErr w; cbn [Exec]; [done..|].
  pose proof (Select_reads_only allowed (Querier_start mint) (Querier_start maxt) ll w (λ id, Hall ll id Hll)) as Hs.
  destruct (Select _ _ _ _ _ _ _ _ w) as [w1 s]. etrans; [exact Hs|apply IH].
Qed.

Lemma finish_reads_only {A} (allowed : string → Prop) sels kind
    (convert : EngineResult → outcome (result string A)) run q w :
  asks_within sels kind run → (∀ ll id, ll ∈ sels → id ∈ selected_ids ll → allowed id) →
  (∀ r, (∀ v, r = Ok v → kind v) → ∃ res, convert r = Done res) →
  ∃ q' w' res, finish_query order range logged_Read ids_order visit convert run q w = Done (q', w', res) ∧
    reads_only allowed w w'.
Proof.
  intros Hrun Hall Hconv. unfold finish_query.
  pose proof (Exec_reads_only allowed sels kind run None w Hrun Hall) as Hreads.
  pose proof (Exec_kind order range logged_Read ids_order visit sels kind run None w Hrun) as Hkind.
  destruct (Exec _ _ _ _ _ run None w) as [[w' c] r]. cbn [fst snd] in Hreads, Hkind.
  destruct c as [err|]; [by eauto|]. destruct (Hconv r Hkind) as [res ->]. by eauto.
Qed.
End Logged.

(** ** The queries of a node *)
Section Endpoint.
Context (arch : float64 → Z).
Context {W : Type} (Read : ReadRequest → W → W * result string (list Envelope)).
Context (order : gmap string GaugeValue → list (string * GaugeValue)).
Context (range : gmap string string → list (string * string)).
Context (ids_order : gset string → list string).
Context (visit : gmap string seriesData → list (string * seriesData)).
Context (NewInstantQuery : EngineOpts → string → Z → result string EngineRun).
Context (NewRangeQuery : EngineOpts → string → Z → Z → Z → result string EngineRun).
Context (ParseExpr : string → result string Expr).

(** What the engine does with a query it accepts. *)
Definition engine_reads_selectors : Prop :=
  (∀ opts q t run, NewInstantQuery opts q t = Ok run →
     ∃ e, ParseExpr q = Ok e ∧ asks_within (selectors e) instant_value run) ∧
  (∀ opts q t1 t2 step run, NewRangeQuery opts q t1 t2 step = Ok run →
     ∃ e, ParseExpr q = Ok e ∧ asks_within (selectors e) range_value run).

Context (ids_order_elements : ∀ s, ids_order s ≡ₚ elements s) (Hengine : engine_reads_selectors).

Lemma extracted_selected query ids e : ExtractSourceIds ParseExpr query = Ok ids → ParseExpr query = Ok e →
  ∀ ll id, ll ∈ selectors e → id ∈ selected_ids ll → id ∈ ids.
Proof.
  unfold ExtractSourceIds. intros Hx Hp ll id Hll Hid. rewrite Hp in Hx. injection Hx as <-.
  apply elem_of_Walk_ids. right. by exists ll.
Qed.

(** A query always answers, and reads only the sources found in its text. *)
Lemma InstantQuery_reads (allowed : string → Prop) ids now req q w :
  ExtractSourceIds ParseExpr (IReq_Query req) = Ok ids → (∀ id, id ∈ ids → allowed id) →
  ∃ q' w' res, InstantQuery arch order range (logged_Read Read) ids_order visit NewInstantQuery now req q w =
    Done (q', w', res) ∧ reads_only allowed w w'.
Proof.
  intros Hx Hall. unfold InstantQuery. assert (reads_only (W := W) allowed w w) as Hnone by reflexivity.
  destruct (if decide _ then _ else _) as [t|err]; [|by eauto 6].
  destruct (NewInstantQuery _ _ t) as [run|err] eqn:En; [|by eauto 6].
  destruct (proj1 Hengine _ _ _ _ En) as (e&He&Hrun).
  eapply finish_reads_only; [done|done| |apply instant_converts].
  intros ll id Hll Hid. eapply Hall, extracted_selected; done.
Qed.

Lemma RangeQuery_reads (allowed : string → Prop) ids req q w :
  ExtractSourceIds ParseExpr (RReq_Query req) = Ok ids → (∀ id, id ∈ ids → allowed id) →
  ∃ q' w' res, RangeQuery arch order range (logged_Read Read) ids_order visit NewRangeQuery req q w =
    Done (q', w', res) ∧ reads_only allowed w w'.
Proof.
  intros Hx Hall. unfold RangeQuery. assert (reads_only (W := W) allowed w w) as Hnone by reflexivity.
  destruct (ParseStep _ _) as [step|err]; [|by eauto 6].
  destruct (ParseTime _ (RReq_Start req)) as [t1|err]; [|by eauto 6].
  destruct (ParseTime _ (RReq_End req)) as [t2|err]; [|by eauto 6].
  destruct (NewRangeQuery _ _ t1 t2 step) as [run|err] eqn:En; [|by eauto 6].
  destruct (proj2 Hengine _ _ _ _ _ _ En) as (e&He&Hrun).
  eapply finish_reads_only; [done|done| |apply range_converts].
  intros ll id Hll Hid. eapply Hall, extracted_selected; done.
Qed.
End Endpoint.

(** ** From the proxy to the store *)
Section EndToEnd.
Import Config.CFAuthProxyConfig.
Context {CertPool : Type}.
Context (url_Parse : string → result string CAPI.URL) (url_String : CAPI.URL → string).
Context (ReadFile : string → result string string) (AppendCertsFromPEM : string → option CertPool).
Context (tls_Client : string → option string → option string).
Context (OpenFile write_error pem_Decode : string → option string).
Context (ParsePKIXPublicKey : string → result string (option string)).
Context (jose_headers : string → result string (gmap string header)).
Context (jose_verify : string → PublicKey → result string string).
Context (arch : float64 → Z) (chi : Request → route).
Context (ParseExpr : string → result string Expr) (print_expr : Expr → string).
Context (order : gset string → list string).
Context (uaa_answer : HTTPClient → list exchange → KeysRequest → result string Response).
Context (capi_answer : HTTPClient → list exchange → CAPI.URL → string → result string Response).
Context (meta_answer : option CertPool → list exchange → result string (gmap string MetaInfo)).
Context (times : list exchange → Z * Z * Z) (fuel : nat).
Context (answer : CAPI.URL → option CertPool → Request → reply).

Abbreviation proxy_main := (CFAuthCommand.main url_Parse url_String ReadFile AppendCertsFromPEM tls_Client
  OpenFile write_error pem_Decode ParsePKIXPublicKey jose_headers jose_verify arch chi ParseExpr print_expr
  order uaa_answer capi_answer meta_answer times fuel).
Abbreviation proxy_runs := (CFAuthCommand.runs url_Parse url_String pem_Decode ParsePKIXPublicKey ParseExpr
  uaa_answer times answer).

(** The hypotheses of CFAuthCommand.v. *)
Context (order_elements : ∀ s, order s ≡ₚ base.elements s).
Context (rewritten_parses : ∀ s e sets, ParseExpr s = Ok e →
  let rewritten := rewrite_selectors (replaceInMatchers sets) e in
  ∃ e', ParseExpr (print_expr rewritten) = Ok e' ∧ Forall2 (≡ₚ) (selectors rewritten) (selectors e')).
Context (chi_path : ∀ r q, chi (set_query r q) = chi r).
Context (guids_free : ∀ http h u token body href rs,
  capi_answer http h u token = Ok (mkResponse 200 body) → decode_page body = Ok (href, rs) →
  Forall (λ r, free_of bar (Guid r)) rs).

(** A node and its engine. *)
Context {W : Type} (Read : ReadRequest → W → W * result string (list Envelope)).
Context (gauges : gmap string GaugeValue → list (string * GaugeValue)).
Context (range : gmap string string → list (string * string)).
Context (ids_order : gset string → list string).
Context (visit : gmap string seriesData → list (string * seriesData)).
Context (NewInstantQuery : EngineOpts → string → Z → result string EngineRun).
Context (NewRangeQuery : EngineOpts → string → Z → Z → Z → result string EngineRun).
Context (ids_order_elements : ∀ s, ids_order s ≡ₚ base.elements s).
Context (Hengine : engine_reads_selectors NewInstantQuery NewRangeQuery ParseExpr).

End EndToEnd.

(** ** A run: the keys are fetched, and a query of the user's app reaches a node *)
Definition query_chi (r : Request) : route :=
  if decide (AccessLog.Path r = "/api/v1/query") then QueryRoute else NoRoute (Written 404 "").
Definition query_call : Request :=
  mkHTTP "GET" "/api/v1/query" "query=%3Dg1" {[ "Authorization" := ["tok"] ]} "1.2.3.4:5".
Lemma query_call_free : query_ids_free demo_parse_expr query_call.
Proof.
  intros e id He. assert (e = demo_query MatchEqual "g1") as -> by (vm_compute in He; by injection He as <-).
  assert (tree_ids (demo_query MatchEqual "g1") = {[ "g1"%string ]}) as -> by vm_eq.
  intros ->%elem_of_singleton. by vm_compute.
Qed.
(** An engine that answers with the series of the first selector. *)
Definition query_value (s : concreteSeriesSet) : EngineValue :=
  ValueMatrix ((λ c, (labels c, (λ p, mkEnginePoint (PromQL.t p) (PromQL.v p)) <$> series_points c)) <$> series s).
Definition query_engine (q : string) (t : Z) : result string EngineRun :=
  e ← demo_parse_expr q;
  match selectors e with
  | ll :: _ => Ok (Selecting 0 t ll (λ s, Finished (match s with Ok s => Ok (query_value s) | Err err => Err err end)))
  | [] => Err "no selector"%string
  end.

Lemma query_engine_reads :
  engine_reads_selectors (λ _, query_engine) (λ _ q _ t _, query_engine q t) demo_parse_expr.
Proof.
  assert (∀ kind : EngineValue → Prop, (∀ l, kind (ValueMatrix l)) → ∀ q t run, query_engine q t = Ok run →
    ∃ e, demo_parse_expr q = Ok e ∧ asks_within (selectors e) kind run) as H.
  { intros kind Hk q t run. unfold query_engine. destruct (demo_parse_expr q) as [e|err]; [|done]. cbn.
    destruct (selectors e) as [|ll lls] eqn:Es; [done|]. intros [= <-]. exists e. split; [done|]. rewrite Es.
    constructor; [by left|]. intros [s|err]; constructor. apply Hk. }
  split; intros; by eapply H; [|done].
Qed.

Abbreviation query_main := (CFAuthCommand.main (CertPool := unit) run_parse CAPI.Path (λ _, Err "none"%string) (λ _, None)
  (λ _ _, None) (λ _, None) (λ _, None) Some (λ b, Ok (Some b)) demo_parse_headers run_verify (λ _, 0) query_chi
  demo_parse_expr demo_print base.elements run_uaa run_capi (λ _ _, Ok ∅) run_times 5 run_config).
Definition query_Read (req : ReadRequest) (n : nat) : nat * result string (list Envelope) :=
  (S n, Ok [demo_timer (Req_SourceId req) "http" 7600000000]).
Definition query_node (r : Request) :
    outcome (PromQL * (nat * list ReadRequest) * result string PromQL_InstantQueryResult) :=
  InstantQuery (λ _, 0) map_to_list map_to_list (logged_Read query_Read) base.elements map_to_list
    (λ _, query_engine) 7
    (mkInstantRequest (Values_Get (ParseQuery (AccessLog.RawQuery r)) "query") "1") (New 10) (0%nat, []).

Definition run_to_query : outcome (command (CertPool := unit) * World Clients * World Clients) :=
  c ← query_main; w1 ← after_refresh c;
  '(w2, _) ← serve (λ _ _ _, Written 200 "logs") (cmd_proxy c) query_call w1; Done (c, w1, w2).
Lemma run_to_query_runs c w1 w : run_to_query = Done (c, w1, w) → query_main = Done c ∧ run_runs c w.
Proof.
  intros (c'&Ec&E)%bind_Done. apply bind_Done in E as (w1'&H1&E). apply bind_Done in E as ([w' rep]&H2&E).
  injection E as -> -> ->. split; [exact Ec|]. apply bind_Done in H1 as ([a e]&Hr&[= <-]).
  eapply runs_step; [eapply runs_step; [apply (runs_start _ _ _ _ _ _ _ _ _ 0)|]|].
  - by eapply step_refresh.
  - eapply step_request; [exact query_call_free|exact H2].
Qed.

Definition query_read_sources : option (list string) :=
  match run_to_query with
  | Done (_, _, w) =>
      r ← head (Received w);
      match query_chi r, query_node r with
      | QueryRoute, Done (_, (_, reads), _) => Some (Req_SourceId <$> reads)
      | _, _ => None
      end
  | Panic => None
  end.
Lemma query_read_sources_value : query_read_sources = Some ["g1"%string].
Proof. vm_eq. Qed.

