(* ===== verification/Syslog.v ===== *)
(** * The syslog server

    Models internal/syslog/server.go: what the listener does with each parsed
    message, the conversion into envelopes, and the channel between the
    connections and the stream.

    A connection delivers [Result]s: the framing is OctetCounting.v, and
    deadlines, TLS and accepting connections are SyslogServer.v.  A [range] over
    the structured data takes the order of the visit. *)

From S2P Require Import Prelude Envelope GoStrings GoFloat.

(** ** Go's [strings] on bytes *)

Definition bytes (s : string) : list ascii := String.list_ascii_of_string s.
Definition of_bytes (l : list ascii) : string := String.string_of_list_ascii l.

(** Strips words of [ws] from the front while there are any. *)
Fixpoint strip (fuel : nat) (ws : list (list ascii)) (l : list ascii) : list ascii :=
  match fuel with
  | O => l
  | S fuel =>
      match filter (λ w, w ≠ [] ∧ w `prefix_of` l) ws with
      | w :: _ => strip fuel ws (drop (length w) l)
      | [] => l
      end
  end.

Definition strip_both (ws : list (list ascii)) (s : string) : string :=
  let l := strip (length (bytes s)) ws (bytes s) in
  of_bytes (reverse (strip (length l) (reverse <$> ws) (reverse l))).

(** The UTF-8 encodings of the runes of [unicode.IsSpace]. *)
Definition spaces : list (list ascii) :=
  map (map ascii_of_nat)
    ([[9]; [10]; [11]; [12]; [13]; [32]; [194; 133]; [194; 160]; [225; 154; 128];
      [226; 128; 168]; [226; 128; 169]; [226; 128; 175]; [226; 129; 159]; [227; 128; 128]] ++
     map (λ n, [226; 128; 128 + n]) (seq 0 11))%nat.

Definition TrimSpace (s : string) : string := strip_both spaces s.

(** [strings.Trim] with a cutset of single bytes. *)
Definition Trim (s cutset : string) : string := strip_both ((λ c, [c]) <$> bytes cutset) s.

Definition TrimSuffix (s suffix : string) : string :=
  let l := reverse (bytes s) in
  let w := reverse (bytes suffix) in
  if decide (w `prefix_of` l) then of_bytes (reverse (drop (length w) l)) else s.

Definition HasPrefix (s p : string) : bool := String.prefix p s.

(** ** Messages *)

(** The parsed message: pointers are options, [Timestamp] is its [UnixNano]. *)
Record SyslogMessage := mkSyslog {
  Priority : option Z;
  Msg_Timestamp : option Z;
  Appname : option string;
  ProcID : option string;
  StructuredData : option (gmap string (gmap string string));
  Msg_Message : option string;
}.

(** What the parser reports: a message (of another format: [None]) or an error. *)
Definition Result := result string (option SyslogMessage).

(** Indexing a map of strings: the zero value when the key is absent. *)
Definition index (m : gmap string string) (k : string) : string := default ""%string (m !! k).

Definition set_Message (m : Message_t) (e : Envelope) : Envelope :=
  mkEnvelope (Timestamp e) (SourceId e) (InstanceId e) (DeprecatedTags e) (Tags e) (Some m).
Definition set_Tags (t : gmap string string) (e : Envelope) : Envelope :=
  mkEnvelope (Timestamp e) (SourceId e) (InstanceId e) (DeprecatedTags e) t (Message e).

(** ** Conversion *)
Definition num_error (e : NumError) : string :=
  match e with ErrSyntax => "invalid syntax" | ErrRange => "value out of range" end.

Definition convertTimer (env : Envelope) (msg : gmap string string) : result string Envelope :=
  match ParseInt (index msg "start") with
  | (_, Some err) => Err (num_error err)
  | (start, None) =>
      match ParseInt (index msg "stop") with
      | (_, Some err) => Err (num_error err)
      | (stop, None) => Ok (set_Message (Envelope_Timer (mkTimer (index msg "name") start stop)) env)
      end
  end.

Definition convertEvent (env : Envelope) (msg : gmap string string) : result string Envelope :=
  Ok (set_Message (Envelope_Event (mkEvent (index msg "title") (index msg "body"))) env).

Definition convertCounter (env : Envelope) (msg : gmap string string) : result string Envelope :=
  match ParseUint (index msg "delta") with
  | (_, Some err) => Err (num_error err)
  | (delta, None) =>
      match ParseUint (index msg "total") with
      | (_, Some err) => Err (num_error err)
      | (total, None) =>
          Ok (set_Message (Envelope_Counter (mkCounter (index msg "name") delta total)) env)
      end
  end.

Definition convertGauge (env : Envelope) (msg : gmap string string) : result string Envelope :=
  match msg !! "unit"%string with
  | None => Err "expected unit not found in gauge"%string
  | Some unit =>
      match ParseFloat (index msg "value") with
      | Err err => Err (num_error err)
      | Ok value =>
          Ok (set_Message (Envelope_Gauge (mkGauge {[index msg "name" := mkGaugeValue unit value]})) env)
      end
  end.

Definition convertTags (env : Envelope) (msg : gmap string string) : Envelope :=
  set_Tags (msg ∪ Tags env) env.

(** The message of the default case prints the payload too. *)
Definition convertStructuredData (env : Envelope) (envType : string) (payload : gmap string string) :
    result string Envelope :=
  if HasPrefix envType "counter" then convertCounter env payload
  else if HasPrefix envType "gauge" then convertGauge env payload
  else if HasPrefix envType "event" then convertEvent env payload
  else if HasPrefix envType "timer" then convertTimer env payload
  else if HasPrefix envType "tags" then Ok (convertTags env payload)
  else Err ("unknown envelope type for structured data: " +:+ envType).

Definition typeFromPriority (priority : Z) : Log_Type :=
  if priority =? 11 then Log_ERR else Log_OUT.

(** [pidToks[len(pidToks)-1]]; [Split] has at least one element. *)
Definition instanceIdFromPID (pid : string) : outcome string :=
  must (last (Split "/" (Trim pid "[]"))).

Section Server.
(** The option [WithServerTrimMessageWhitespace]. *)
Variable trimMessageWhitespace : bool.

Definition newline : string := String (ascii_of_nat 10) EmptyString.

Definition convertMessage (env : Envelope) (msg : SyslogMessage) : outcome Envelope :=
  text ← must (Msg_Message msg);
  priority ← must (Priority msg);
  let payload := if trimMessageWhitespace then TrimSpace text else TrimSuffix text newline in
  Done (set_Message (Envelope_Log (mkLog payload (typeFromPriority priority))) env).

(** The loop over the structured data. *)
Fixpoint convert_elements (env : Envelope) (sd : list (string * gmap string string)) :
    result string Envelope :=
  match sd with
  | [] => Ok env
  | (envType, payload) :: sd =>
      env ← convertStructuredData env envType payload;
      convert_elements env sd
  end.

(** [convertToEnvelope]; a nil [msg] is [None]. *)
Definition convertToEnvelope (order : gmap string (gmap string string) → list (string * gmap string string))
    (msg : option SyslogMessage) : outcome (result string Envelope) :=
  msg ← must msg;
  match ProcID msg with
  | None => Done (Err "missing proc ID in syslog message"%string)
  | Some procID =>
      instanceId ← instanceIdFromPID procID;
      match Appname msg with
      | None => Done (Err "missing app name in syslog message"%string)
      | Some sourceID =>
          ts ← must (Msg_Timestamp msg);
          let env := mkEnvelope ts sourceID instanceId ∅ ∅ None in
          match convert_elements env (order (default ∅ (StructuredData msg))) with
          | Err err => Done (Err err)
          | Ok env =>
              env ← (if decide (Message env = None ∧ Msg_Message msg ≠ None)
                     then convertMessage env msg else Done env);
              Done (match Message env with
                    | None => Err "missing message data in syslog message"%string
                    | Some _ => Ok env
                    end)
          end
      end
  end.

(** ** The server *)

(** The channel, oldest envelope first, and the two counters. *)
Record Server := mkServer { envelopes : list Envelope; ingress : Z; invalidIngress : Z }.

Definition channel_capacity : nat := 100.

Definition NewServer : Server := mkServer [] 0 0.

Definition count_invalid (s : Server) : Server :=
  mkServer (envelopes s) (ingress s) (invalidIngress s + 1).

(** [parseListener]; [None] when the send on the channel blocks. *)
Definition parseListener (order : gmap string (gmap string string) → list (string * gmap string string))
    (res : Result) (s : Server) : outcome (option Server) :=
  match res with
  | Err _ => Done (Some (count_invalid s))
  | Ok msg =>
      let s := match msg with Some _ => s | None => count_invalid s end in
      r ← convertToEnvelope order msg;
      match r with
      | Err _ => Done (Some (count_invalid s))
      | Ok env =>
          if decide (length (envelopes s) < channel_capacity)%nat
          then Done (Some (mkServer (envelopes s ++ [env]) (ingress s + 1) (invalidIngress s)))
          else Done None
      end
  end.

(** The function [Stream] returns: the select between the channel and the
    context, [choice] deciding when both are ready; [None] when it blocks. *)
Definition Stream (ctx_done choice : bool) (s : Server) : option (list Envelope * Server) :=
  match envelopes s with
  | env :: rest =>
      if ctx_done && choice then Some ([], s)
      else Some ([env], mkServer rest (ingress s) (invalidIngress s))
  | [] => if ctx_done then Some ([], s) else None
  end.

(** Any number of connections and streams: the steps of a server in the order
    they take effect. *)
Inductive action :=
| Listen (order : gmap string (gmap string string) → list (string * gmap string string)) (res : Result)
| Receive (ctx_done choice : bool) (out : list Envelope).

Inductive runs : list action → Server → Prop :=
| runs_new : runs [] NewServer
| runs_listen acts s order res s' :
    runs acts s → parseListener order res s = Done (Some s') →
    runs (acts ++ [Listen order res]) s'
| runs_receive acts s ctx_done choice out s' :
    runs acts s → Stream ctx_done choice s = Some (out, s') →
    runs (acts ++ [Receive ctx_done choice out]) s'.

(** ** The accounts of a run *)
Definition converted (a : action) : list Envelope :=
  match a with
  | Listen order (Ok msg) =>
      match convertToEnvelope order msg with Done (Ok env) => [env] | _ => [] end
  | _ => []
  end.
Definition streamed (a : action) : list Envelope :=
  match a with Receive _ _ out => out | _ => [] end.
Definition refused (a : action) : Z :=
  match a with
  | Listen order (Ok msg) =>
      match convertToEnvelope order msg with Done (Ok _) => 0 | _ => 1 end
  | Listen _ (Err _) => 1
  | Receive _ _ _ => 0
  end.

(** Whatever the interleaving of connections and streams, every message is
    accounted for once: the envelopes streamed and those still in the channel
    are together the conversions of the messages in the order they arrived,
    [ingress] counts them, [invalid_ingress] counts the messages refused, and
    the channel never holds more than its capacity. *)
Theorem server_accounts acts s :
  runs acts s →
  (acts ≫= streamed) ++ envelopes s = acts ≫= converted ∧
  ingress s = Z.of_nat (length (acts ≫= converted)) ∧
  invalidIngress s = sum (refused <$> acts) ∧
  (length (envelopes s) ≤ channel_capacity)%nat.
Proof.
  induction 1 as [|acts s order res s' _ (IH1&IH2&IH3&IH4) E|acts s cd ch out s' _ (IH1&IH2&IH3&IH4) E].
  - split_and!; try done. simpl. lia.
  - rewrite !bind_app, fmap_app, sum_app. cbn [mbind list_bind streamed converted refused fmap list_fmap sum foldr].
    rewrite !app_nil_r, ?Z.add_0_r. destruct res as [msg|err]; simpl in E.
    + destruct msg as [msg|]; [|done].
      destruct (convertToEnvelope order (Some msg)) as [[env|err]|]; simpl in E; [| |done].
      * case_decide; [|done]. injection E as <-. simpl. rewrite app_assoc, IH1.
        rewrite !length_app, IH2. simpl. split_and!; try done; lia.
      * injection E as <-. simpl. rewrite app_nil_r. split_and!; try done; lia.
    + injection E as <-. simpl. rewrite app_nil_r. split_and!; try done; lia.
  - rewrite !bind_app, fmap_app, sum_app. cbn [mbind list_bind streamed converted refused fmap list_fmap sum foldr].
    rewrite !app_nil_r, !Z.add_0_r. unfold Stream in E.
    destruct (envelopes s) as [|env rest] eqn:Eq.
    + destruct cd; [|done]. injection E as <- <-. simpl. rewrite Eq, !app_nil_r in *. done.
    + destruct (cd && ch); injection E as <- <-; simpl in *.
      * by rewrite Eq, ?app_nil_r.
      * rewrite ?app_nil_r, <- app_assoc. simpl. split_and!; try done. lia.
Qed.
End Server.

(** ** What a message becomes *)

Definition blank : Envelope := mkEnvelope 0 "" "" ∅ ∅ None.

(** What an element of structured data adds: a message, or tags. *)
Definition message_of (envType : string) (payload : gmap string string) : option Message_t :=
  match convertStructuredData blank envType payload with Ok e => Message e | Err _ => None end.
Definition tags_of (envType : string) (payload : gmap string string) : gmap string string :=
  match convertStructuredData blank envType payload with Ok e => Tags e | Err _ => ∅ end.

(** An envelope with an element's contribution. *)
Definition contribute (env : Envelope) (m : option Message_t) (t : gmap string string) : Envelope :=
  mkEnvelope (Timestamp env) (SourceId env) (InstanceId env) (DeprecatedTags env)
    (t ∪ Tags env) (match m with Some m => Some m | None => Message env end).

(** The conversion of an element succeeds or fails whatever the envelope. *)
Lemma convertStructuredData_contribute env k p :
  convertStructuredData env k p =
  match convertStructuredData blank k p with
  | Ok _ => Ok (contribute env (message_of k p) (tags_of k p))
  | Err e => Err e
  end.
Proof.
  unfold message_of, tags_of, convertStructuredData, contribute.
  destruct (HasPrefix k "counter").
  { unfold convertCounter. destruct (ParseUint _) as [? []]; [done|].
    destruct (ParseUint _) as [? []]; [done|]. simpl. by rewrite (left_id ∅ (∪)). }
  destruct (HasPrefix k "gauge").
  { unfold convertGauge. destruct (p !! "unit"%string); [|done].
    destruct (ParseFloat _); simpl; [by rewrite (left_id ∅ (∪))|done]. }
  destruct (HasPrefix k "event"); [simpl; by rewrite (left_id ∅ (∪))|].
  destruct (HasPrefix k "timer").
  { unfold convertTimer. destruct (ParseInt _) as [? []]; [done|].
    destruct (ParseInt _) as [? []]; [done|]. simpl. by rewrite (left_id ∅ (∪)). }
  destruct (HasPrefix k "tags"); [|done]. unfold convertTags, set_Tags. simpl. by rewrite (right_id ∅ (∪)).
Qed.

Definition element_ok (kp : string * gmap string string) : Prop :=
  failed (convertStructuredData blank kp.1 kp.2) = false.

Lemma convert_elements_ok env sd :
  Forall element_ok sd →
  convert_elements env sd =
  Ok (foldl (λ e kp, contribute e (message_of kp.1 kp.2) (tags_of kp.1 kp.2)) env sd).
Proof.
  intros H. revert env. induction H as [|[k p] sd Hk _ IH]; intros env; simpl; [done|].
  rewrite convertStructuredData_contribute. unfold element_ok in Hk. simpl in Hk.
  destruct (convertStructuredData blank k p); [|done]. simpl. apply IH.
Qed.

(** The first element that does not convert decides, so one is enough. *)
Lemma convert_elements_failed env sd :
  failed (convert_elements env sd) = false ↔ Forall element_ok sd.
Proof.
  revert env. induction sd as [|[k p] sd IH]; intros env; simpl; [by split|].
  rewrite convertStructuredData_contribute, Forall_cons. unfold element_ok at 1. simpl.
  destruct (convertStructuredData blank k p); simpl; [rewrite IH; tauto|].
  split; [done|]. by intros [? _].
Qed.

Section Elements.
Context (sd : list (string * gmap string string)).
(** At most one element carries a message. *)
Definition one_message : Prop := ∀ a b m m',
  a ∈ sd → b ∈ sd → message_of a.1 a.2 = Some m → message_of b.1 b.2 = Some m' → m = m'.
(** The elements agree on the tags. *)
Definition tags_agree : Prop := ∀ a b x v v',
  a ∈ sd → b ∈ sd → tags_of a.1 a.2 !! x = Some v → tags_of b.1 b.2 !! x = Some v' → v = v'.
End Elements.

Notation contributed env sd :=
  (foldl (λ e kp, contribute e (message_of kp.1 kp.2) (tags_of kp.1 kp.2)) env sd).

Lemma contributed_frame env sd :
  Timestamp (contributed env sd) = Timestamp env ∧ SourceId (contributed env sd) = SourceId env ∧
  InstanceId (contributed env sd) = InstanceId env.
Proof. revert env. induction sd; intros env; [done|]. simpl. rewrite !(proj1 (IHsd _)).
  destruct (IHsd (contribute env (message_of a.1 a.2) (tags_of a.1 a.2))) as (?&?&?). done. Qed.

Lemma contributed_message env sd m :
  one_message sd →
  Message (contributed env sd) = Some m ↔
  (∃ a, a ∈ sd ∧ message_of a.1 a.2 = Some m) ∨
  (Forall (λ a, message_of a.1 a.2 = None) sd ∧ Message env = Some m).
Proof.
  revert env. induction sd as [|b sd IH]; intros env H1; simpl.
  - split; [by right|]. intros [(?&?%elem_of_nil&_)|[_ ?]]; done.
  - rewrite IH by (intros a a' m1 m2 Ha Ha'; apply H1; by right).
    rewrite Forall_cons. unfold contribute at 1. simpl. split.
    + intros [(a&Ha&Hm)|[Hn Hm]]; [left; exists a; split; [by right|done]|].
      destruct (message_of b.1 b.2) as [mb|] eqn:Eb; [|by right].
      left. exists b. split; [left|congruence].
    + intros [(a&Ha&Hm)|[[Hb Hn] Hm]]; [|right; split; [done|]; by rewrite Hb].
      apply elem_of_cons in Ha as [->|Ha]; [|left; by exists a].
      destruct (decide (Forall (λ a, message_of a.1 a.2 = None) sd)) as [Hn|Hn].
      * right. split; [done|]. by rewrite Hm.
      * left. apply not_Forall_Exists in Hn; [|apply _]. apply Exists_exists in Hn as (c&Hc&Hne).
        destruct (message_of c.1 c.2) as [mc|] eqn:Ec; [|done]. exists c. split; [done|].
        rewrite Ec. f_equal. apply (H1 c b); [by right|left|done|done].
Qed.

Lemma contributed_none env sd :
  one_message sd → Message env = None →
  Message (contributed env sd) = None ↔ Forall (λ a, message_of a.1 a.2 = None) sd.
Proof.
  intros H1 He. destruct (Message (contributed env sd)) as [m|] eqn:Em.
  - apply contributed_message in Em as [(a&Ha&Hm)|[_ ?]]; [|congruence|done].
    split; [done|]. rewrite Forall_forall. intros H. by rewrite (H a Ha) in Hm.
  - split; [intros _|done]. apply Forall_forall. intros a Ha.
    destruct (message_of a.1 a.2) as [m|] eqn:E; [|done].
    rewrite <- Em. symmetry. apply contributed_message; [done|]. left. by exists a.
Qed.

Lemma contributed_tags env sd x v :
  tags_agree sd → Tags env = ∅ →
  Tags (contributed env sd) !! x = Some v ↔ ∃ a, a ∈ sd ∧ tags_of a.1 a.2 !! x = Some v.
Proof.
  intros Ht He.
  assert (∀ env, Tags (contributed env sd) !! x = Some v ↔
    (∃ a, a ∈ sd ∧ tags_of a.1 a.2 !! x = Some v) ∨
    (Forall (λ a, tags_of a.1 a.2 !! x = None) sd ∧ Tags env !! x = Some v)) as H.
  2: { rewrite H, He, lookup_empty. naive_solver. }
  clear He env. induction sd as [|b sd IH]; intros env; simpl.
  - split; [by right|]. intros [(?&?%elem_of_nil&_)|[_ ?]]; done.
  - rewrite IH by (intros a a' x' v1 v2 Ha Ha'; apply Ht; by right).
    rewrite Forall_cons. unfold contribute at 1. cbn [Tags]. rewrite lookup_union_Some_raw. split.
    + intros [(a&Ha&Hm)|[Hn [Hm|[Hm1 Hm2]]]].
      * left. exists a. split; [by right|done].
      * left. exists b. split; [left|done].
      * by right.
    + intros [(a&Ha&Hm)|[[Hb Hn] Hm]]; [|right; split; [done|]; by right].
      apply elem_of_cons in Ha as [->|Ha]; [|left; by exists a].
      destruct (decide (Forall (λ a, tags_of a.1 a.2 !! x = None) sd)) as [Hn|Hn].
      * right. split; [done|]. by left.
      * left. apply not_Forall_Exists in Hn; [|apply _]. apply Exists_exists in Hn as (c&Hc&Hne).
        destruct (tags_of c.1 c.2 !! x) as [vc|] eqn:Ec; [|done]. exists c. split; [done|].
        rewrite Ec. f_equal. apply (Ht c b x); [by right|left|done|done].
Qed.

Section Convert.
Variable trim : bool.
Variable order : gmap string (gmap string string) → list (string * gmap string string).
Hypothesis order_perm : ∀ m, order m ≡ₚ map_to_list m.

(** What a message without an element that carries a message becomes. *)
Definition log_message (m : SyslogMessage) (text : string) : Message_t :=
  Envelope_Log (mkLog (if trim then TrimSpace text else TrimSuffix text newline)
    (typeFromPriority (default 0 (Priority m)))).

Definition elements (m : SyslogMessage) : list (string * gmap string string) :=
  map_to_list (default ∅ (StructuredData m)).

Lemma order_elements m : order (default ∅ (StructuredData m)) ≡ₚ elements m.
Proof. apply order_perm. Qed.

Lemma instanceIdFromPID_Done pid : ∃ id, instanceIdFromPID pid = Done id ∧ free_of "/" id.
Proof.
  unfold instanceIdFromPID. pose proof (Split_free "/" (Trim pid "[]")) as Hf.
  pose proof (Split_not_nil "/" (Trim pid "[]")).
  destruct (Split _ _) as [|w ws _] using rev_ind; [done|].
  rewrite last_snoc. apply Forall_app in Hf as [_ [Hw _]%Forall_cons]. by exists w.
Qed.

End Convert.

(** ** Concrete messages *)
Definition demo_msg (ts : option Z) (sd : gmap string (gmap string string)) (text : option string) :
    SyslogMessage := mkSyslog (Some 11) ts (Some "app"%string) (Some "[APP/PROC/WEB/7]"%string) (Some sd) text.

Definition demo_counter : gmap string string :=
  {["name"%string := "c"%string; "delta"%string := "1"%string; "total"%string := "5"%string]}.
Definition demo_tags : gmap string string := {["origin"%string := "o"%string]}.
Definition demo_event : gmap string string := {["title"%string := "t"%string]}.


(** A timestamp of [-] is a nil pointer, which [UnixNano] dereferences. *)
Fact nil_timestamp_panics trim order :
  convertToEnvelope trim order (Some (demo_msg None ∅ (Some "x"%string))) = Panic.
Proof. reflexivity. Qed.

(** [parseListener] goes on after a message of another format. *)
Fact other_format_panics trim order s : parseListener trim order (Ok None) s = Panic.
Proof. reflexivity. Qed.

(** With two elements that carry a message the order of the map decides. *)
Fact last_element_wins :
  let m := demo_msg (Some 3) {["counter"%string := demo_counter; "event"%string := demo_event]} None in
  (λ r, match r with Done (Ok e) => Message e | _ => None end) <$>
    [convertToEnvelope true map_to_list (Some m); convertToEnvelope true (reverse ∘ map_to_list) (Some m)] ≡ₚ
  [Some (Envelope_Counter (mkCounter "c" 1 5)); Some (Envelope_Event (mkEvent "t" ""))].
Proof. vm_compute. (reflexivity + apply Permutation_swap). Qed.

Lemma server_accounts_witness :
  let l := Listen map_to_list (Ok (Some (demo_msg (Some 3) ∅ (Some " x "%string)))) in
  let bad := Listen map_to_list (Err "bad"%string) in
  let acts := [l; bad; l; Receive false false [mkEnvelope 3 "app" "7" ∅ ∅ (Some (Envelope_Log (mkLog "x" Log_ERR)))]] in
  ∃ s, runs true acts s ∧
    (acts ≫= streamed) ++ envelopes s = acts ≫= converted true ∧
    ingress s = Z.of_nat (length (acts ≫= converted true)) ∧
    invalidIngress s = sum (refused true <$> acts) ∧
    (length (envelopes s) ≤ channel_capacity)%nat.
Proof.
  intros l bad acts.
  set (e := mkEnvelope 3 "app" "7" ∅ ∅ (Some (Envelope_Log (mkLog "x" Log_ERR)))) in *.
  assert (runs true acts (mkServer [e] 2 1)) as Hr.
  { unfold acts. apply (runs_receive true [l; bad; l] (mkServer [e; e] 2 1)); [|done].
    apply (runs_listen true [l; bad] (mkServer [e] 1 1)); [|by vm_compute].
    apply (runs_listen true [l] (mkServer [e] 1 0)); [|by vm_compute].
    apply (runs_listen true [] NewServer); [constructor|by vm_compute]. }
  exists (mkServer [e] 2 1). split; [exact Hr|]. exact (server_accounts true acts _ Hr).
Defined.
