(* ===== verification/OctetCounting.v ===== *)
(** * The framing of a syslog connection

    Models the vendored octetcounting package (RFC 5425) the syslog server reads
    its connections with: the scanner over a buffered connection with a read
    deadline, its tokens, and the parser's loop, which reports one result per
    frame.  The RFC 5424 machine behind it is generated code and a parameter.

    A connection is the bytes its peer sends with the times they arrive, and the
    time the peer closes it, if it does; computing takes no time, so that
    reading ahead never changes what a deadline cuts off. *)

From S2P Require Import Prelude Envelope GoStrings GoFloat Syslog.

(** ** A buffered connection *)
Record reader := mkReader {
  buffered : list ascii;
  size : Z;
  incoming : list (Z * ascii);
  closes : option Z;
  clock : Z;
  deadline : Z;
}.

Definition set_buffered (l : list ascii) (r : reader) : reader :=
  mkReader l (size r) (incoming r) (closes r) (clock r) (deadline r).

(** [bufio.NewReaderSize]: at least 16 bytes. *)
Definition NewReaderSize (size : Z) (incoming : list (Z * ascii)) (closes : option Z) (now deadline : Z) : reader :=
  mkReader [] (Z.max 16 size) incoming closes now deadline.

(** Waiting on the connection until the time [t]: whether that is before the
    deadline, and the reader then. *)
Definition wait (t : Z) (r : reader) : bool * reader :=
  let now := Z.max t (clock r) in
  if now <? deadline r
  then (true, mkReader (buffered r) (size r) (incoming r) (closes r) now (deadline r))
  else (false, mkReader (buffered r) (size r) (incoming r) (closes r)
          (Z.max (clock r) (deadline r)) (deadline r)).

(** The next byte from the connection goes into the buffer; [false] is an error:
    the deadline or the end. *)
Definition fill1 (r : reader) : bool * reader :=
  match incoming r with
  | (t, b) :: rest =>
      let '(ok, r) := wait t r in
      if ok then (true, mkReader (buffered r ++ [b]) (size r) rest (closes r) (clock r) (deadline r))
      else (false, r)
  | [] => match closes r with
          | Some t => (false, (wait t r).2)
          | None => (false, (wait (deadline r) r).2)
          end
  end.

Fixpoint fill (n : nat) (r : reader) : reader :=
  match n with
  | O => r
  | S n => let '(ok, r) := fill1 r in if ok then fill n r else r
  end.

Definition ReadByte (r : reader) : option ascii * reader :=
  let r := match buffered r with [] => (fill1 r).2 | _ => r end in
  match buffered r with
  | b :: bs => (Some b, set_buffered bs r)
  | [] => (None, r)
  end.

Definition UnreadByte (b : ascii) (r : reader) : reader := set_buffered (b :: buffered r) r.

(** [Peek]: the bytes and whether there are [n] of them. *)
Definition Peek (n : Z) (r : reader) : list ascii * bool * reader :=
  if n <? 0 then ([], false, r) else
  let r := fill (Z.to_nat (Z.min n (size r)) - length (buffered r)) r in
  (take (Z.to_nat n) (buffered r), n <=? Z.of_nat (length (buffered r)), r).

Definition Discard (n : Z) (r : reader) : reader := set_buffered (drop (Z.to_nat n) (buffered r)) r.

(** ** Tokens *)
Inductive TokenType := ILLEGAL | EOF | WS | MSGLEN | SYSLOGMSG.
#[export] Instance TokenType_eq_dec : EqDecision TokenType.
Proof. solve_decision. Defined.

Record Token := mkToken { typ : TokenType; lit : list ascii }.

Definition TokenType_String (t : TokenType) : string :=
  match t with
  | ILLEGAL => "ILLEGAL" | EOF => "EOF" | WS => "WS" | MSGLEN => "MSGLEN" | SYSLOGMSG => "SYSLOGMSG"
  end.

Definition Token_String (t : Token) : string :=
  match typ t with
  | WS | EOF => TokenType_String (typ t)
  | _ => TokenType_String (typ t) +:+ "(" +:+ of_bytes (lit t) +:+ ")"
  end.

(** ** The scanner *)
Definition eof : ascii := ascii_of_nat 0.
Definition ws : ascii := ascii_of_nat 32.
Definition lt : ascii := ascii_of_nat 60.
Definition quote : ascii := ascii_of_nat 34.

Definition isDigit (c : ascii) : bool := (47 <=? nat_of_ascii c)%nat && (nat_of_ascii c <=? 57)%nat.
Definition isNonZeroDigit (c : ascii) : bool := (48 <=? nat_of_ascii c)%nat && (nat_of_ascii c <=? 57)%nat.

Record Scanner := mkScanner { rd : reader; msglen : Z; ready : bool }.

Definition NewScanner (rd : reader) : Scanner := mkScanner rd 0 false.

(** A byte 0 and an error look the same. *)
Definition read (r : reader) : ascii * reader :=
  let '(b, r) := ReadByte r in (default eof b, r).

(** Bytes left to read; each pass of the loop takes one. *)
Definition left (r : reader) : nat := (length (buffered r) + length (incoming r))%nat.

Fixpoint msglen_loop (fuel : nat) (buf : list ascii) (r : reader) : list ascii * reader :=
  match fuel with
  | O => (buf, r)
  | S fuel =>
      let '(b, r) := read r in
      if decide (b = eof) then (buf, r)
      else if negb (isDigit b) then (buf, UnreadByte b r)
      else msglen_loop fuel (buf ++ [b]) r
  end.

Definition scanMsgLen (s : Scanner) : Token * Scanner :=
  let '(b, r) := read (rd s) in
  let '(buf, r) := msglen_loop (S (left r)) [b] r in
  (mkToken MSGLEN buf, mkScanner r (ParseUint (of_bytes buf)).1 (ready s)).

Definition scanSyslogMsg (s : Scanner) : Token * Scanner :=
  let n := wrap64 (msglen s) in
  let '(b, ok, r) := Peek n (rd s) in
  if ok then (mkToken SYSLOGMSG b, mkScanner (Discard n r) 0 false)
  else (mkToken EOF b, mkScanner r (msglen s) (ready s)).

Definition Scan (s : Scanner) : Token * Scanner :=
  let '(b, r) := read (rd s) in
  let s := mkScanner r (msglen s) (ready s) in
  if isNonZeroDigit b then scanMsgLen (mkScanner (UnreadByte b r) (msglen s) false)
  else if decide (b = eof) then (mkToken EOF [], mkScanner r (msglen s) false)
  else if decide (b = ws) then (mkToken WS [ws], mkScanner r (msglen s) true)
  else if bool_decide (b = lt) && (0 <? msglen s) && ready s
    then scanSyslogMsg (mkScanner (UnreadByte b r) (msglen s) (ready s))
  else (mkToken ILLEGAL [b], s).

(** ** The parser *)
Section Parser.
(** [rfc5424.NewMachine().Parse], without best effort. *)
Variable Machine_Parse : list ascii → result string SyslogMessage.
Variable maxMessageLength : Z.

(** The scanner, and the token that was read and put back. *)
Record parser := mkParser { sc : Scanner; stepback : option Token }.

Definition scan (p : parser) : Token * parser :=
  match stepback p with
  | Some tok => (tok, mkParser (sc p) None)
  | None => let '(tok, s) := Scan (sc p) in (tok, mkParser s None)
  end.

Definition unscan (last : Token) (p : parser) : parser := mkParser (sc p) (Some last).

(** [NewScanner] makes the buffer 20 bytes longer than a message. *)
Definition NewParser (incoming : list (Z * ascii)) (closes : option Z) (now deadline : Z) : parser :=
  mkParser (NewScanner (NewReaderSize (wrap64 (maxMessageLength + 20)) incoming closes now deadline)) None.

Definition expecting (tok : Token) (t : TokenType) : Result :=
  Err ("found " +:+ Token_String tok +:+ ", expecting a " +:+ TokenType_String t).

(** [run] from the start of a frame to the call of the listener: the result it is
    given and whether the loop goes on. *)
Definition frame (p : parser) : Result * bool * parser :=
  let '(tok, p) := scan p in
  if decide (typ tok ≠ MSGLEN) then (expecting tok MSGLEN, false, p)
  else if maxMessageLength <? wrap64 (msglen (sc p)) then
    (Err ("message too long to parse. was size " +:+ FormatInt (msglen (sc p)) +:+ ", max length " +:+
          FormatInt maxMessageLength), false, p)
  else
    let '(tok, p) := scan p in
    if decide (typ tok ≠ WS) then (expecting tok WS, false, p)
    else
      let '(tok, p) := scan p in
      if decide (typ tok ≠ SYSLOGMSG) then
        (Err ("found " +:+ Token_String tok +:+ " after " +:+ String quote (of_bytes (lit tok)) +:+ String quote ", expecting a " +:+
              TokenType_String SYSLOGMSG +:+ " containing " +:+ FormatInt (msglen (sc p)) +:+ " octets"), false, p)
      else
        match Machine_Parse (lit tok) with
        | Ok msg => (Ok (Some msg), true, p)
        | Err err => (Err err, false, p)
        end.

(** [run] after the listener returned: it goes on unless the input ended. *)
Definition resume (p : parser) : bool * parser :=
  let '(tok, p) := scan p in
  if decide (typ tok = EOF) then (false, p) else (true, unscan tok p).
End Parser.

(** ** Reading what has arrived *)

(** A reader with nothing buffered, and one with everything read ahead. *)
Definition fresh (r : reader) : Prop := buffered r = [] ∧ clock r < deadline r.

(** The reader after bytes that arrived by the time [a]. *)
Definition taken (a : Z) (rest : list (Z * ascii)) (r : reader) : reader :=
  mkReader [] (size r) rest (closes r) (Z.max a (clock r)) (deadline r).

Lemma taken_fresh a rest r : fresh r → a < deadline r → fresh (taken a rest r).
Proof. intros [_ H] Ha. split; simpl; [done|lia]. Qed.

Lemma taken_taken a l l' r : taken a l (taken a l' r) = taken a l r.
Proof. unfold taken. simpl. f_equal. lia. Qed.

Lemma fill1_arrived a b rest r :
  clock r < deadline r → a < deadline r → incoming r = (a, b) :: rest →
  fill1 r = (true, mkReader (buffered r ++ [b]) (size r) rest (closes r) (Z.max a (clock r)) (deadline r)).
Proof.
  intros Hc Ha E. unfold fill1. rewrite E. unfold wait.
  by rewrite (proj2 (Z.ltb_lt _ _)) by lia.
Qed.

Lemma read_arrived a b rest r :
  fresh r → a < deadline r → incoming r = (a, b) :: rest → read r = (b, taken a rest r).
Proof.
  intros [Hb Hc] Ha E. unfold read, ReadByte. rewrite Hb, (fill1_arrived a b rest) by done.
  cbn [snd buffered]. by rewrite Hb.
Qed.

Lemma read_unread b r : read (UnreadByte b r) = (b, set_buffered (buffered r) r).
Proof. done. Qed.

Lemma read_unread_taken a b rest r : read (UnreadByte b (taken a rest r)) = (b, taken a rest r).
Proof. done. Qed.

Lemma fill_arrived a w rest r :
  clock r < deadline r → a < deadline r → incoming r = ((a,.) <$> w) ++ rest → w ≠ [] →
  fill (length w) r =
  mkReader (buffered r ++ w) (size r) rest (closes r) (Z.max a (clock r)) (deadline r).
Proof.
  revert r. induction w as [|b w IH]; intros r Hc Ha E Hw; [done|]. simpl.
  rewrite (fill1_arrived a b (((a,.) <$> w) ++ rest)) by done.
  destruct w as [|b' w]; [done|]. rewrite IH; simpl; [|lia|lia|done|done].
  rewrite <- app_assoc. simpl. f_equal. lia.
Qed.

Lemma Peek_arrived a b w rest r :
  fresh r → a < deadline r → incoming r = ((a,.) <$> w) ++ rest →
  Z.of_nat (length (b :: w)) ≤ size r →
  Peek (Z.of_nat (length (b :: w))) (UnreadByte b r) =
  (b :: w, true,
   mkReader (b :: w) (size r) rest (closes r) (if decide (w = []) then clock r else Z.max a (clock r)) (deadline r)).
Proof.
  intros [Hb Hc] Ha E Hs. unfold Peek. rewrite (proj2 (Z.ltb_ge _ _)) by lia.
  set (k := length (b :: w)). rewrite Nat2Z.id.
  replace (Z.to_nat (Z.min (Z.of_nat k) (size (UnreadByte b r))) - length (buffered (UnreadByte b r)))%nat
    with (length w) by (subst k; simpl in *; rewrite Hb; simpl; lia).
  case_decide as Hw.
  - subst w. simpl in E. destruct r; simpl in *; subst. done.
  - rewrite (fill_arrived a w rest) by done. cbn [buffered UnreadByte set_buffered size incoming closes clock deadline].
    rewrite Hb. simpl app. subst k. rewrite firstn_all, Z.leb_refl. done.
Qed.

(** ** Scanning a frame *)

Definition digits (n : nat) : list ascii := bytes (FormatInt (Z.of_nat n)).

(** A message as the peer frames it. *)
Definition encode (m : list ascii) : list ascii := digits (length m) ++ ws :: m.

Lemma digit_isDigit c : digit c ≠ None → isDigit c = true ∧ isNonZeroDigit c = true ∧ c ≠ eof.
Proof. destruct c as [[] [] [] [] [] [] [] []]; try done; by intros []. Qed.

Lemma parse_digits_all acc s n :
  parse_digits acc s = Ok n → Forall (λ c, digit c ≠ None) (bytes s).
Proof.
  revert acc. induction s as [|c s IH]; intros acc; simpl; [constructor|].
  destruct (digit c) as [d|] eqn:Ed; [|done]. destruct (_ <? _); [done|]. intros Hs.
  constructor; [by rewrite Ed|]. by eapply IH.
Qed.

Lemma digits_spec n : Z.of_nat n ≤ MaxUint64 →
  ParseUint (of_bytes (digits n)) = (Z.of_nat n, None) ∧
  ∃ c w, digits n = c :: w ∧ Forall (λ c, digit c ≠ None) (c :: w).
Proof.
  intros Hn. unfold digits. unfold of_bytes, bytes at 1. rewrite String.string_of_list_ascii_of_string.
  assert (ParseUint (FormatInt (Z.of_nat n)) = (Z.of_nat n, None)) as E.
  { unfold FormatInt. pose proof (parse_digits_N (N.of_nat n) ltac:(lia)) as E.
    rewrite nat_N_Z in E. rewrite <- E. f_equal. by destruct n. }
  split; [done|]. unfold ParseUint in E. destruct (FormatInt (Z.of_nat n)) as [|c s] eqn:Es; [done|].
  exists c, (bytes s). split; [done|].
  destruct (parse_digits 0 (String c s)) as [|[]] eqn:Ep; [|done..]. by apply parse_digits_all in Ep.
Qed.

Lemma msglen_loop_arrived a w b rest fuel buf r :
  Forall (λ c, digit c ≠ None) w → isDigit b = false → b ≠ eof →
  fresh r → a < deadline r → incoming r = ((a,.) <$> w) ++ (a, b) :: rest → (length w < fuel)%nat →
  msglen_loop fuel buf r = (buf ++ w, UnreadByte b (taken a rest r)).
Proof.
  intros Hw Hb Hbe. revert fuel buf r. induction Hw as [|c w Hc Hw IH]; intros fuel buf r Hf Ha E Hl;
    (destruct fuel as [|fuel]; [simpl in *; lia|]); simpl in *.
  - rewrite (read_arrived a b rest) by done. rewrite decide_False, Hb, app_nil_r by done. done.
  - rewrite (read_arrived a c (((a,.) <$> w) ++ (a, b) :: rest)) by done.
    destruct (digit_isDigit c Hc) as (->&_&Hce). rewrite decide_False by done. simpl.
    rewrite IH; [|by apply taken_fresh|done|done|lia].
    by rewrite taken_taken, <- app_assoc.
Qed.

(** The three tokens of a frame that arrived at [a]. *)
Section ScanFrame.
Context (a : Z) (rest : list (Z * ascii)) (n : nat) (s : Scanner).
Hypothesis Hfresh : fresh (rd s).
Hypothesis Hdead : a < deadline (rd s).
Hypothesis Hn : Z.of_nat n ≤ MaxInt64.

Lemma Scan_MSGLEN :
  incoming (rd s) = ((a,.) <$> digits n) ++ (a, ws) :: rest →
  Scan s = (mkToken MSGLEN (digits n),
            mkScanner (UnreadByte ws (taken a rest (rd s))) (Z.of_nat n) false).
Proof.
  intros E. destruct (digits_spec n) as (Ep&c&w&Ed&[Hc Hw]%Forall_cons); [unfold MaxUint64, MaxInt64 in *; lia|].
  rewrite Ed in E |- *. simpl in E. unfold Scan.
  rewrite (read_arrived a c _ _ Hfresh Hdead E). destruct (digit_isDigit c Hc) as (_&->&_).
  unfold scanMsgLen. cbn [rd]. rewrite read_unread_taken.
  rewrite (msglen_loop_arrived a w ws rest); try done.
  - rewrite taken_taken. cbn [app fst ready]. by rewrite <- Ed, Ep.
  - by apply taken_fresh.
  - unfold left. cbn [buffered incoming taken length]. rewrite length_app, length_fmap. lia.
Qed.

Lemma Scan_WS z r : rd s = UnreadByte ws r → msglen s = z →
  Scan s = (mkToken WS [ws], mkScanner (set_buffered (buffered r) r) z true).
Proof. intros E <-. unfold Scan. rewrite E, read_unread. done. Qed.

Lemma Scan_SYSLOGMSG w :
  n = length (lt :: w) → Z.of_nat n ≤ size (rd s) →
  incoming (rd s) = ((a,.) <$> lt :: w) ++ rest → msglen s = Z.of_nat n → ready s = true →
  Scan s = (mkToken SYSLOGMSG (lt :: w), mkScanner (taken a rest (rd s)) 0 false).
Proof.
  intros -> Hs E Em Er. unfold Scan. rewrite (read_arrived a lt _ _ Hfresh Hdead E).
  cbn [msglen ready rd]. rewrite Em, Er.
  change (isNonZeroDigit lt) with false. cbn match.
  rewrite !decide_False by done. rewrite bool_decide_true by done.
  rewrite (proj2 (Z.ltb_lt _ _)) by (simpl; lia). cbn [andb].
  unfold scanSyslogMsg. cbn [msglen rd ready]. rewrite wrap64_id by (unfold int64_range, MinInt64; lia).
  rewrite (Peek_arrived a lt w rest); [|by apply taken_fresh|done|done|done].
  unfold Discard. cbn [buffered]. rewrite Nat2Z.id, drop_all.
  unfold taken, set_buffered. cbn. case_decide; [done|].
  by rewrite (Z.max_r a (Z.max _ _)) by lia.
Qed.
End ScanFrame.

(** ** One frame *)
Section Frame.
Variable Machine_Parse : list ascii → result string SyslogMessage.
Variable maxMessageLength : Z.

(** The length of a message that arrives at [a] has been read. *)
Definition begun (a : Z) (m : list ascii) (rest : list (Z * ascii)) (r : reader) (p : parser) : Prop :=
  scan p = (mkToken MSGLEN (digits (length m)),
            mkParser (mkScanner (UnreadByte ws (taken a (((a,.) <$> m) ++ rest) r)) (Z.of_nat (length m)) false) None).

(** What a framed message must be for the scanner. *)
Definition framable (r : reader) (m : list ascii) : Prop :=
  head m = Some lt ∧ Z.of_nat (length m) ≤ maxMessageLength ∧ Z.of_nat (length m) ≤ size r ∧
  Z.of_nat (length m) ≤ MaxInt64.

Lemma frame_message a m rest r p msg :
  begun a m rest r p → fresh r → a < deadline r → framable r m → Machine_Parse m = Ok msg →
  frame Machine_Parse maxMessageLength p =
  (Ok (Some msg), true, mkParser (mkScanner (taken a rest r) 0 false) None).
Proof.
  intros Hb Hf Ha (Hh&Hmax&Hs&H64) Hm. destruct m as [|c w]; [done|]. injection Hh as ->.
  unfold frame. rewrite Hb. cbn [typ sc msglen]. rewrite decide_False by auto.
  rewrite wrap64_id by (unfold int64_range, MinInt64; lia).
  rewrite (proj2 (Z.ltb_ge _ _)) by lia. unfold scan at 1. cbn [stepback sc].
  rewrite (Scan_WS (mkScanner (UnreadByte ws (taken a (((a,.) <$> lt :: w) ++ rest) r)) _ _) _ _ eq_refl eq_refl).
  cbn [typ]. rewrite decide_False by auto.
  unfold scan. cbn [stepback sc].
  erewrite (Scan_SYSLOGMSG a rest (length (lt :: w))); try done; [|by apply (taken_fresh a (((a,.) <$> lt :: w) ++ rest))].
  cbn [typ lit]. rewrite decide_False by auto. rewrite Hm.
  by rewrite <- (taken_taken a rest (((a,.) <$> lt :: w) ++ rest) r).
Qed.

Lemma scan_begun a m rest s :
  fresh (rd s) → a < deadline (rd s) → framable (rd s) m →
  incoming (rd s) = ((a,.) <$> encode m) ++ rest →
  begun a m rest (rd s) (mkParser s None).
Proof.
  intros Hf Ha (_&_&_&H64) E. unfold begun, scan. cbn [stepback sc].
  rewrite (Scan_MSGLEN a (((a,.) <$> m) ++ rest) (length m)); try done.
  unfold encode in E. rewrite fmap_app in E. simpl in E. by rewrite <- app_assoc in E.
Qed.

(** What follows a message: another one, or the end. *)
Lemma resume_begun a m rest s :
  fresh (rd s) → a < deadline (rd s) → framable (rd s) m →
  incoming (rd s) = ((a,.) <$> encode m) ++ rest →
  ∃ p, resume (mkParser s None) = (true, p) ∧ begun a m rest (rd s) p.
Proof.
  intros Hf Ha Hm E. pose proof (scan_begun a m rest s Hf Ha Hm E) as Hb. unfold begun in Hb.
  unfold resume. rewrite Hb. eexists. split; [done|]. done.
Qed.

Lemma resume_end s : fresh (rd s) → incoming (rd s) = [] → (resume (mkParser s None)).1 = false.
Proof.
  intros [Hb Hc] E. unfold resume, scan. cbn [stepback sc]. unfold Scan, read, ReadByte.
  rewrite Hb. assert ((fill1 (rd s)).1 = false ∧ buffered (fill1 (rd s)).2 = []) as [_ Hf].
  { unfold fill1, wait. rewrite E. destruct (closes (rd s)); simpl; by case_match. }
  by rewrite Hf.
Qed.

(** ** Time and progress *)

(** How far a step may take a reader: not past the deadline, and bytes are only
    consumed. *)
Definition later (r r' : reader) : Prop :=
  clock r ≤ clock r' ≤ Z.max (clock r) (deadline r) ∧ deadline r' = deadline r ∧ (left r' ≤ left r)%nat.

Lemma later_refl r : later r r.
Proof. unfold later. lia. Qed.
Lemma later_trans r1 r2 r3 : later r1 r2 → later r2 r3 → later r1 r3.
Proof. unfold later. lia. Qed.

Lemma fill1_later r : later r (fill1 r).2 ∧ left (fill1 r).2 = left r.
Proof.
  unfold fill1, wait, later, left.
  destruct (incoming r) as [|[t b] rest] eqn:E; [destruct (closes r) as [t|]|].
  all: match goal with |- context [?x <? ?y] => destruct (Z.ltb_spec x y) end;
    cbn [fst snd clock deadline buffered incoming]; rewrite ?E, ?length_app; simpl; lia.
Qed.

Lemma fill_later n r : later r (fill n r).
Proof.
  revert r. induction n as [|n IH]; intros r; simpl; [apply later_refl|].
  pose proof (fill1_later r) as [H _]. destruct (fill1 r) as [[] r1]; [|done].
  by eapply later_trans, IH.
Qed.

(** One byte is consumed, or nothing is left that can be read. *)
Lemma ReadByte_later r :
  later r (ReadByte r).2 ∧ (if (ReadByte r).1 then S (left (ReadByte r).2) = left r else True)%nat.
Proof.
  unfold ReadByte. pose proof (fill1_later r) as [H1 H2].
  destruct (buffered r) as [|b bs] eqn:E.
  - destruct (buffered (fill1 r).2) as [|b bs] eqn:E2; [done|].
    unfold later, left in *. cbn [snd set_buffered buffered incoming clock deadline]. rewrite E2 in *. simpl in *. rewrite E in *. simpl in *. lia.
  - rewrite E. unfold later, left. rewrite E. simpl. lia.
Qed.

Lemma read_later r b r' : read r = (b, r') →
  later r r' ∧ (b ≠ eof → S (left r') = left r)%nat.
Proof.
  unfold read. pose proof (ReadByte_later r) as [H1 H2].
  destruct (ReadByte r) as [[c|] r1]; simpl in *; intros [= <- <-]; done.
Qed.
Lemma later_unread r r' b : later r r' → S (left r') = left r → later r (UnreadByte b r').
Proof. unfold later, left. simpl. lia. Qed.

Lemma msglen_loop_S fuel buf r :
  msglen_loop (S fuel) buf r =
  let '(b, r) := read r in
  if decide (b = eof) then (buf, r)
  else if negb (isDigit b) then (buf, UnreadByte b r)
  else msglen_loop fuel (buf ++ [b]) r.
Proof. done. Qed.

(** The fuel of the loop is enough: more of it changes nothing. *)
Lemma msglen_loop_enough fuel buf r :
  (left r < fuel)%nat → msglen_loop (S fuel) buf r = msglen_loop fuel buf r.
Proof.
  revert buf r. induction fuel as [|fuel IH]; intros buf r Hl; [lia|].
  rewrite msglen_loop_S, (msglen_loop_S fuel). destruct (read r) as [b r1] eqn:E.
  apply read_later in E as [_ Hb]. case_decide as He; [done|]. destruct (negb _); [done|].
  apply IH. specialize (Hb He). lia.
Qed.

Lemma msglen_loop_later fuel buf r : later r (msglen_loop fuel buf r).2.
Proof.
  revert buf r. induction fuel as [|fuel IH]; intros buf r; [apply later_refl|].
  rewrite msglen_loop_S. destruct (read r) as [b r1] eqn:E. apply read_later in E as [Hr Hb].
  case_decide as He; [done|]. destruct (negb _); [by apply later_unread; [|auto]|].
  by eapply later_trans, IH.
Qed.

Lemma scanMsgLen_later s : later (rd s) (rd (scanMsgLen s).2) ∧ typ (scanMsgLen s).1 = MSGLEN.
Proof.
  unfold scanMsgLen. destruct (read (rd s)) as [b r] eqn:E. apply read_later in E as [Hr _].
  pose proof (msglen_loop_later (S (left r)) [b] r) as H.
  destruct (msglen_loop _ _ _) as [buf r1]. split; [|done]. by eapply later_trans.
Qed.

Lemma Peek_later n r : later r (Peek n r).2.
Proof. unfold Peek. case_match; [apply later_refl|apply fill_later]. Qed.

Lemma Discard_later n r : later r (Discard n r).
Proof. unfold later, left, Discard. simpl. rewrite length_drop. lia. Qed.

Lemma scanSyslogMsg_later s :
  later (rd s) (rd (scanSyslogMsg s).2) ∧ typ (scanSyslogMsg s).1 ≠ WS ∧ typ (scanSyslogMsg s).1 ≠ MSGLEN.
Proof.
  unfold scanSyslogMsg. pose proof (Peek_later (wrap64 (msglen s)) (rd s)) as H.
  destruct (Peek _ _) as [[b []] r]; simpl in *; [|done].
  split; [|done]. by eapply later_trans, Discard_later.
Qed.

(** A token never reads past the deadline, and a space is consumed. *)
Lemma Scan_later s :
  later (rd s) (rd (Scan s).2) ∧ (typ (Scan s).1 = WS → S (left (rd (Scan s).2)) = left (rd s)).
Proof.
  unfold Scan. destruct (read (rd s)) as [b r] eqn:E. apply read_later in E as [Hr Hb].
  destruct (isNonZeroDigit b) eqn:Ed.
  { assert (b ≠ eof) as Hne by (intros ->; done).
    destruct (scanMsgLen_later (mkScanner (UnreadByte b r) (msglen s) false)) as [H Ht].
    split; [|cbn [msglen]; by rewrite Ht]. eapply later_trans; [|exact H]. by apply later_unread; [|auto]. }
  case_decide as He; [done|]. case_decide as Hw; [split; [done|intros _; by apply Hb]|].
  cbn [msglen ready rd]. destruct (bool_decide (b = lt) && (0 <? msglen s) && ready s); [|by split].
  destruct (scanSyslogMsg_later (mkScanner (UnreadByte b r) (msglen s) (ready s))) as (H&Ht&_).
  split; [|done]. eapply later_trans; [|exact H]. by apply later_unread; [|auto].
Qed.

Lemma scan_later p :
  later (rd (sc p)) (rd (sc (scan p).2)) ∧
  (stepback p = None → typ (scan p).1 = WS → S (left (rd (sc (scan p).2))) = left (rd (sc p))) ∧
  stepback (scan p).2 = None.
Proof.
  unfold scan. destruct (stepback p) as [tok|]; [split_and!; try done; apply later_refl|].
  pose proof (Scan_later (sc p)) as [H1 H2]. by destruct (Scan (sc p)).
Qed.

(** A frame ends by the deadline, and the loop goes on only past a byte. *)
Lemma frame_later p :
  later (rd (sc p)) (rd (sc (frame Machine_Parse maxMessageLength p).2)) ∧
  ((frame Machine_Parse maxMessageLength p).1.2 = true →
   (left (rd (sc (frame Machine_Parse maxMessageLength p).2)) < left (rd (sc p)))%nat ∧
   stepback (frame Machine_Parse maxMessageLength p).2 = None).
Proof.
  unfold frame. pose proof (scan_later p) as (H1&_&S1). destruct (scan p) as [t1 p1]. simpl in *.
  case_decide; [done|]. case_match; [done|].
  pose proof (scan_later p1) as (H2&W2&S2). destruct (scan p1) as [t2 p2]. simpl in *.
  assert (later (rd (sc p)) (rd (sc p2))) as H12 by by eapply later_trans.
  case_decide as Hw; [done|]. pose proof (scan_later p2) as (H3&_&S3). destruct (scan p2) as [t3 p3].
  simpl in *. assert (later (rd (sc p)) (rd (sc p3))) as H123 by by eapply later_trans.
  case_decide; [done|]. specialize (W2 S1 ltac:(by destruct (typ t2))).
  destruct (Machine_Parse _); [|done]. split; [done|]. intros _. split; [|done].
  unfold later in *. simpl. lia.
Qed.

Lemma resume_later p :
  later (rd (sc p)) (rd (sc (resume p).2)).
Proof.
  unfold resume. pose proof (scan_later p) as (H&_). destruct (scan p) as [t p1]. simpl in *. by case_decide.
Qed.
End Frame.
