(* ===== verification/Diode.v ===== *)
(** * The ring buffer between a writer and a reader

    Models the [OneToOne] diode of go-diodes (vendored one_to_one.go), which
    carries envelopes to the batched ingress client and through the nozzle.

    One goroutine calls [Set] and one [TryNext].  The write index belongs to the
    first, the read index to the second, and each operation touches the buffer
    by one atomic instruction, so that a run of the two goroutines is an
    interleaving of whole operations; [diode_run] is such a run.  [hist] in the
    invariant is the list of all values set so far. *)

From S2P Require Import Prelude.

Section Diode.
Context {A : Type}.

Record bucket := mkBucket { data : A; seq : Z }.

Record OneToOne := mkDiode {
  buffer : list (option bucket);
  writeIndex : Z;
  readIndex : Z;
}.

Definition NewOneToOne (size : nat) : OneToOne := mkDiode (replicate size None) 0 0.

(** [index % len(buffer)]: a division by zero for an empty buffer. *)
Definition slot (d : OneToOne) (i : Z) : outcome nat :=
  match buffer d with
  | [] => Panic
  | _ => Done (Z.to_nat (i `mod` Z.of_nat (length (buffer d))))
  end.

(** [Set] in two parts: the index and the sequence number it reads, and what it
    then writes; the write index is an ordinary variable. *)
Definition Set_load (d : OneToOne) : outcome (nat * Z) :=
  idx ← slot d (writeIndex d);
  Done (idx, writeIndex d).

Definition Set_store (x : A) (idx : nat) (seq : Z) (d : OneToOne) : OneToOne :=
  mkDiode (<[idx := Some (mkBucket x seq)]> (buffer d)) (wrapu64 (seq + 1)) (readIndex d).

Definition Set_ (x : A) (d : OneToOne) : outcome OneToOne :=
  '(idx, seq) ← Set_load d;
  Done (Set_store x idx seq d).

(** [TryNext]: the value and the number of dropped values handed to the alerter
    (zero when it is not called).  The value is swapped out even if it is
    ignored. *)
Definition TryNext (d : OneToOne) : outcome (option A * Z * OneToOne) :=
  idx ← slot d (readIndex d);
  result ← must (buffer d !! idx);
  let d := mkDiode (<[idx := None]> (buffer d)) (writeIndex d) (readIndex d) in
  match result with
  | None => Done (None, 0, d)
  | Some b =>
      if seq b <? readIndex d then Done (None, 0, d)
      else
        let dropped := seq b - readIndex d in
        Done (Some (data b), dropped,
              mkDiode (buffer d) (writeIndex d) (wrapu64 (seq b + 1)))
  end.

(** ** Runs *)
Inductive diode_op := OSet (x : A) | ONext (out : option A) (dropped : Z).

Inductive diode_run (size : nat) : list diode_op → OneToOne → Prop :=
| run_new : diode_run size [] (NewOneToOne size)
| run_set ops d x d' :
    diode_run size ops d → Set_ x d = Done d' → diode_run size (ops ++ [OSet x]) d'
| run_next ops d out dropped d' :
    diode_run size ops d → TryNext d = Done (out, dropped, d') →
    diode_run size (ops ++ [ONext out dropped]) d'.

Definition set_by (o : diode_op) : list A := match o with OSet x => [x] | ONext _ _ => [] end.
Definition read_by (o : diode_op) : list A :=
  match o with ONext (Some x) _ => [x] | _ => [] end.
Definition dropped_by (o : diode_op) : Z := match o with ONext _ n => n | OSet _ => 0 end.

(** ** The invariant *)

(** The bucket of the [k]-th value. *)
Definition holds (hist : list A) (d : OneToOne) (k : Z) : Prop :=
  ∃ x, hist !! Z.to_nat k = Some x ∧
    buffer d !! Z.to_nat (k `mod` Z.of_nat (length (buffer d))) = Some (Some (mkBucket x k)).

Record diode_inv (size : nat) (hist : list A) (d : OneToOne) : Prop := {
  di_size : length (buffer d) = size;
  di_write : writeIndex d = Z.of_nat (length hist);
  di_read : 0 ≤ readIndex d ≤ writeIndex d;
  (** an unread value that was not overwritten is in its slot *)
  di_unread k :
    readIndex d ≤ k → writeIndex d - Z.of_nat size ≤ k < writeIndex d → holds hist d k;
  (** whatever is in a slot is the last value written there *)
  di_slot j b : buffer d !! j = Some (Some b) →
    0 ≤ seq b ∧ writeIndex d - Z.of_nat size ≤ seq b < writeIndex d ∧
    hist !! Z.to_nat (seq b) = Some (data b) ∧
    j = Z.to_nat (seq b `mod` Z.of_nat size);
}.

Definition small (d : OneToOne) : Prop := writeIndex d < MaxUint64.

Lemma slot_Done d i : (0 < length (buffer d))%nat →
  slot d i = Done (Z.to_nat (i `mod` Z.of_nat (length (buffer d)))).
Proof. unfold slot. destruct (buffer d); simpl; [lia|done]. Qed.

Lemma mod_range i n : (0 < n)%nat → (Z.to_nat (i `mod` Z.of_nat n) < n)%nat.
Proof. intros. pose proof (Z.mod_pos_bound i (Z.of_nat n)). lia. Qed.

(** Two indices less than [n] apart with one slot are equal. *)
Lemma mod_inj n k k' : 0 < n →
  Z.to_nat (k `mod` n) = Z.to_nat (k' `mod` n) → k - n < k' < k + n → k = k'.
Proof.
  intros Hn E Hk. pose proof (Z.mod_pos_bound k n Hn). pose proof (Z.mod_pos_bound k' n Hn).
  pose proof (Z.div_mod k n ltac:(lia)). pose proof (Z.div_mod k' n ltac:(lia)).
  assert (k `mod` n = k' `mod` n) as E' by lia.
  assert (k `div` n = k' `div` n) by nia. lia.
Qed.

Lemma inv_new size : diode_inv size [] (NewOneToOne size).
Proof.
  split; simpl; [apply length_replicate|done|lia|lia|].
  intros j b Hb. apply lookup_replicate_1 in Hb as [[=] _].
Qed.

Lemma inv_Set size hist d x :
  (0 < size)%nat → diode_inv size hist d → small d →
  ∃ d', Set_ x d = Done d' ∧ diode_inv size (hist ++ [x]) d' ∧
    writeIndex d' = writeIndex d + 1 ∧ readIndex d' = readIndex d.
Proof.
  intros Hs [Hlen Hw Hr Hu Hsl] Hsmall. unfold small, MaxUint64 in Hsmall. unfold Set_, Set_load, Set_store.
  rewrite slot_Done by lia. cbn [mbind outcome_bind]. rewrite Hlen.
  assert (wrapu64 (writeIndex d + 1) = writeIndex d + 1) as Ew
    by (unfold wrapu64; apply Z.mod_small; lia).
  rewrite Ew. set (w := writeIndex d) in *. eexists. split; [done|]. split; [|done].
  assert (∀ k, 0 ≤ k < w → (hist ++ [x]) !! Z.to_nat k = hist !! Z.to_nat k) as Hh
    by (intros; apply lookup_app_l; lia).
  assert ((hist ++ [x]) !! Z.to_nat w = Some x) as Hx
    by (rewrite Hw, Nat2Z.id, lookup_app_r, Nat.sub_diag by lia; done).
  pose proof (mod_range w size Hs) as Hms.
  split; cbn [buffer writeIndex readIndex].
  - by rewrite length_insert.
  - rewrite length_app. simpl. lia.
  - lia.
  - intros k Hk Hkw. unfold holds. cbn [buffer]. rewrite length_insert, Hlen.
    destruct (decide (k = w)) as [->|Hne].
    + exists x. split; [done|]. apply list_lookup_insert_eq. lia.
    + destruct (Hu k Hk ltac:(lia)) as (y&Hy&Hb). exists y. rewrite Hh by lia. split; [done|].
      rewrite Hlen in Hb. rewrite list_lookup_insert_ne; [done|].
      intros E. apply Hne. symmetry. apply (mod_inj (Z.of_nat size)); [lia|done|lia].
  - intros j b Hb. apply list_lookup_insert_Some in Hb as [(<-&[= <-]&_)|[Hne Hb]].
    + cbn [seq data]. split_and!; done || lia.
    + destruct (Hsl j b Hb) as (Hb1&Hb2&Hb3&->). split_and!; try done; try lia.
      * destruct (decide (seq b = w - Z.of_nat size)) as [E|]; [|lia]. destruct Hne.
        rewrite E. f_equal. replace w with (w - Z.of_nat size + 1 * Z.of_nat size) at 1 by lia.
        apply Z_mod_plus_full.
      * by rewrite Hh by lia.
Qed.

(** When there is an unread value, the reader's slot holds one. *)
Lemma unread_slot size hist d :
  (0 < size)%nat → diode_inv size hist d → readIndex d < writeIndex d →
  ∃ x k, buffer d !! Z.to_nat (readIndex d `mod` Z.of_nat size) = Some (Some (mkBucket x k)) ∧
    readIndex d ≤ k ∧ (writeIndex d - readIndex d ≤ Z.of_nat size → k = readIndex d).
Proof.
  intros Hs [Hlen Hw Hr Hu Hsl] Hlt.
  set (r := readIndex d) in *. set (w := writeIndex d) in *. set (n := Z.of_nat size) in *.
  set (k := if decide (w - r ≤ n) then r else r + (w - 1 - r) `div` n * n).
  assert (r ≤ k ∧ w - n ≤ k < w ∧ k `mod` n = r `mod` n) as (H1&H2&H3).
  { unfold k. case_decide; [split_and!; lia|].
    pose proof (Z.div_mod (w - 1 - r) n ltac:(lia)).
    pose proof (Z.mod_pos_bound (w - 1 - r) n ltac:(lia)).
    split_and!; try nia. apply Z_mod_plus_full. }
  destruct (Hu k H1 ltac:(lia)) as (x&_&Hb). rewrite Hlen in Hb. fold n in Hb. rewrite H3 in Hb.
  exists x, k. split_and!; try done. intros. unfold k. by rewrite decide_True.
Qed.

(** Emptying a slot loses nothing but the unread values in it. *)
Lemma inv_clear size hist d d' r :
  (0 < size)%nat → diode_inv size hist d →
  buffer d' = <[Z.to_nat (r `mod` Z.of_nat size) := None]> (buffer d) → writeIndex d' = writeIndex d →
  (∀ k, readIndex d' ≤ k → writeIndex d - Z.of_nat size ≤ k < writeIndex d →
    k `mod` Z.of_nat size ≠ r `mod` Z.of_nat size) →
  readIndex d ≤ readIndex d' ≤ writeIndex d → diode_inv size hist d'.
Proof.
  intros Hs [Hlen Hw Hr Hu Hsl] Eb Ew Hk Hr'. split; rewrite ?Eb, ?Ew.
  - by rewrite length_insert.
  - done.
  - lia.
  - intros k Hk1 Hk2. destruct (Hu k ltac:(lia) Hk2) as (x&Hx&Hb). exists x. split; [done|].
    rewrite Eb, length_insert. rewrite list_lookup_insert_ne; [done|]. rewrite Hlen.
    intros E. specialize (Hk k Hk1 Hk2).
    pose proof (Z.mod_pos_bound k (Z.of_nat size) ltac:(lia)).
    pose proof (Z.mod_pos_bound r (Z.of_nat size) ltac:(lia)). lia.
  - intros j b Hb. apply list_lookup_insert_Some in Hb as [(_&[=]&_)|[_ Hb]]. by apply Hsl.
Qed.

(** What a read returns: nothing exactly when there is no unread value, else
    the value in the reader's slot, skipping to it. *)
Lemma inv_TryNext size hist d :
  (0 < size)%nat → diode_inv size hist d → small d →
  ∃ out dropped d', TryNext d = Done (out, dropped, d') ∧ diode_inv size hist d' ∧
    writeIndex d' = writeIndex d ∧ 0 ≤ dropped ∧
    match out with
    | None => readIndex d = writeIndex d ∧ readIndex d' = readIndex d ∧ dropped = 0
    | Some x => readIndex d' = readIndex d + dropped + 1 ∧
        hist !! Z.to_nat (readIndex d + dropped) = Some x ∧
        (writeIndex d - readIndex d ≤ Z.of_nat size → dropped = 0)
    end.
Proof.
  intros Hs Hinv Hsmall. pose proof Hinv as [Hlen Hw Hr Hu Hsl].
  unfold small, MaxUint64 in Hsmall. unfold TryNext.
  rewrite slot_Done by lia. cbn [mbind outcome_bind]. rewrite Hlen.
  set (r := readIndex d) in *. set (w := writeIndex d) in *. set (n := Z.of_nat size) in *.
  set (idx := Z.to_nat (r `mod` n)). pose proof (mod_range r size Hs) as Hms. fold n idx in Hms.
  destruct (lookup_lt_is_Some_2 (buffer d) idx ltac:(lia)) as [result Hres].
  rewrite Hres. cbn [must mbind outcome_bind writeIndex readIndex buffer].
  pose proof (unread_slot size hist d Hs Hinv) as Hfound.
  pose proof (λ d', inv_clear size hist d d' r Hs Hinv) as Hmk.
  fold r w n idx in Hfound, Hmk. rewrite Hres in Hfound.
  assert (∀ k, r ≤ k → w - n ≤ k < w → k `mod` n = r `mod` n → r < w) as Hlt by lia.
  destruct result as [[x k]|]; cbn [seq data].
  - destruct (Hsl idx _ Hres) as (Hb1&Hb2&Hb3&Hb4). cbn [seq data] in *. fold n in Hb2, Hb4.
    destruct (Z.ltb_spec k r) as [Hkr|Hkr].
    + assert (r = w) as Erw.
      { destruct (decide (r = w)); [done|]. destruct Hfound as (?&?&[= -> ->]&?&_); lia. }
      eexists None, 0, _. split; [done|]. cbn [writeIndex readIndex]. split_and!; try done; try lia.
      apply Hmk; [done..| |simpl; lia]. cbn [readIndex]. lia.
    + assert (wrapu64 (k + 1) = k + 1) as -> by (unfold wrapu64; apply Z.mod_small; lia).
      eexists (Some x), (k - r), _. split; [done|]. cbn [writeIndex readIndex].
      split_and!; try done; try lia.
      * apply Hmk; [done..| |simpl; lia]. cbn [readIndex]. intros k' H1 H2 E.
        assert (k = k'); [|lia]. apply (mod_inj n); [lia| |lia]. rewrite E. symmetry. exact Hb4.
      * by replace (r + (k - r)) with k by lia.
      * intros. destruct Hfound as (?&?&[= <- <-]&_&Hf); [lia|]. rewrite Hf by lia. lia.
  - assert (r = w) as Erw.
    { destruct (decide (r = w)); [done|]. destruct Hfound as (?&?&[=]&_). lia. }
    eexists None, 0, _. split; [done|]. cbn [writeIndex readIndex]. split_and!; try done; try lia.
    apply Hmk; [done..| |simpl; lia]. cbn [readIndex]. lia.
Qed.

(** A run's invariant: the values read so far are among the first [readIndex]. *)
Lemma run_inv size ops d :
  (0 < size)%nat → diode_run size ops d → Z.of_nat (length ops) < MaxUint64 →
  diode_inv size (ops ≫= set_by) d ∧
  (ops ≫= read_by) `sublist_of` take (Z.to_nat (readIndex d)) (ops ≫= set_by) ∧
  Z.of_nat (length (ops ≫= read_by)) + sum (dropped_by <$> ops) = readIndex d ∧
  0 ≤ sum (dropped_by <$> ops) ∧ (length (ops ≫= set_by) ≤ length ops)%nat ∧
  ((length (ops ≫= set_by) ≤ size)%nat → sum (dropped_by <$> ops) = 0).
Proof.
  intros Hs. induction 1 as [|ops d x d' Hrun IH E|ops d out n d' Hrun IH E]; intros Hlen.
  { split_and!; try done. apply inv_new. }
  - rewrite length_app in Hlen. simpl in Hlen. destruct IH as (Hinv&Hsub&Hr&Hd&Hl&Hno); [lia|].
    pose proof (di_write _ _ _ Hinv) as Hw. pose proof (di_read _ _ _ Hinv) as Hri.
    destruct (inv_Set size _ d x Hs Hinv) as (d1&E1&Hinv'&_&Er); [unfold small; lia|].
    rewrite E in E1. injection E1 as ->.
    rewrite !bind_app, fmap_app, sum_app. cbn. rewrite !app_nil_r, Er, !length_app. cbn.
    split_and!; try done; try lia.
    + rewrite take_app_le by lia. done.
  - rewrite length_app in Hlen. simpl in Hlen. destruct IH as (Hinv&Hsub&Hr&Hd&Hl&Hno); [lia|].
    pose proof (di_write _ _ _ Hinv) as Hw. pose proof (di_read _ _ _ Hinv) as Hri.
    destruct (inv_TryNext size _ d Hs Hinv) as (out1&n1&d1&E1&Hinv'&_&Hn&Hout); [unfold small; lia|].
    rewrite E in E1. injection E1 as -> -> ->.
    rewrite !bind_app, fmap_app, sum_app. cbn. rewrite !app_nil_r, !length_app.
    destruct out1 as [x|]; cbn; rewrite ?app_nil_r.
    + destruct Hout as (Er&Hx&Hz). rewrite Er. split_and!; try done; try lia.
      replace (Z.to_nat (readIndex d + n1 + 1)) with (S (Z.to_nat (readIndex d + n1))) by lia.
      rewrite (take_snoc _ _ x Hx). apply sublist_app; [|done].
      etransitivity; [exact Hsub|]. apply sublist_take_le. lia.
    + destruct Hout as (Er&Er'&->). rewrite Er'. split_and!; try done; try lia.
Qed.

(** In any interleaving of a writer and a reader, the values read are a
    subsequence of those written, in order; every value before the read index
    was either read or counted as dropped; a read finds nothing exactly when no
    value is left, and otherwise the value at the new read index; and while no
    more values were written than the buffer holds, nothing is lost. *)
Theorem diode_accounts size ops d :
  diode_run size ops d → (0 < size)%nat → Z.of_nat (length ops) < MaxUint64 →
  let sets := ops ≫= set_by in let reads := ops ≫= read_by in
  let dropped := sum (dropped_by <$> ops) in
  reads `sublist_of` sets ∧
  0 ≤ dropped ∧ Z.of_nat (length reads) + dropped ≤ Z.of_nat (length sets) ∧
  (dropped = 0 → reads `prefix_of` sets) ∧
  ((length sets ≤ size)%nat → dropped = 0) ∧
  ∃ out n d', TryNext d = Done (out, n, d') ∧
    (out = None ↔ Z.of_nat (length reads) + dropped = Z.of_nat (length sets)) ∧
    (out = None → n = 0) ∧
    (∀ x, out = Some x → sets !! Z.to_nat (Z.of_nat (length reads) + dropped + n) = Some x).
Proof.
  intros Hrun Hs Hlen sets reads dropped.
  destruct (run_inv size ops d Hs Hrun Hlen) as (Hinv&Hsub&Hr&Hd&Hl&Hno).
  fold sets reads dropped in Hinv, Hsub, Hr, Hd, Hl, Hno.
  pose proof (di_write _ _ _ Hinv) as Hw. pose proof (di_read _ _ _ Hinv) as Hri.
  split_and!; try done; try lia.
  - etransitivity; [exact Hsub|]. apply sublist_take.
  - intros E. assert (reads = take (Z.to_nat (readIndex d)) sets) as ->; [|by eexists; rewrite take_drop].
    apply sublist_same_length; [done|]. rewrite length_take. lia.
  - destruct (inv_TryNext size sets d Hs Hinv) as (out&n&d'&E&_&_&Hn&Hout); [unfold small; lia|].
    exists out, n, d'. split; [done|]. rewrite Hr. destruct out as [x|].
    + destruct Hout as (Er&Hx&_). split_and!; try done; [|by intros ? [= ->]].
      split; [done|]. intros E'. apply lookup_lt_Some in Hx. lia.
    + destruct Hout as (Er&_&->). split_and!; try done. split; [lia|done].
Qed.
End Diode.
Arguments bucket : clear implicits.
Arguments OneToOne : clear implicits.
Arguments diode_op : clear implicits.

(** ** A concrete run *)

(** The diode after some operations, and the operations with their results. *)
Fixpoint play (ops : list (option Z)) (d : OneToOne Z) : outcome (list (diode_op Z) * OneToOne Z) :=
  match ops with
  | [] => Done ([], d)
  | Some x :: ops => d ← Set_ x d; '(l, d) ← play ops d; Done (OSet x :: l, d)
  | None :: ops =>
      '(out, n, d) ← TryNext d; '(l, d) ← play ops d; Done (ONext out n :: l, d)
  end.

Lemma play_run size ops l d ops' d' :
  diode_run size l d → play ops d = Done (ops', d') → diode_run size (l ++ ops') d'.
Proof.
  revert l d ops'. induction ops as [|[x|] ops IH]; intros l d ops' Hr; simpl.
  - intros [= <- <-]. by rewrite app_nil_r.
  - destruct (Set_ x d) as [d1|] eqn:E; [|done]. simpl.
    destruct (play ops d1) as [[l1 d2]|] eqn:Ep; [|done]. intros [= <- <-].
    rewrite cons_middle, app_assoc. eapply IH; [by eapply run_set|done].
  - destruct (TryNext d) as [[[out n] d1]|] eqn:E; [|done]. simpl.
    destruct (play ops d1) as [[l1 d2]|] eqn:Ep; [|done]. intros [= <- <-].
    rewrite cons_middle, app_assoc. eapply IH; [by eapply run_next|done].
Qed.

Lemma diode_accounts_witness :
  let ops := [OSet 10; ONext (Some 10) 0; OSet 11; OSet 12; OSet 13; ONext (Some 13) 2; ONext None 0; OSet 14] in
  ∃ d : OneToOne Z, diode_run 2 ops d ∧
  let sets := ops ≫= set_by in let reads := ops ≫= read_by in
  let dropped := sum (dropped_by <$> ops) in
  reads `sublist_of` sets ∧
  0 ≤ dropped ∧ Z.of_nat (length reads) + dropped ≤ Z.of_nat (length sets) ∧
  (dropped = 0 → reads `prefix_of` sets) ∧
  ((length sets ≤ 2)%nat → dropped = 0) ∧
  ∃ out n d', TryNext d = Done (out, n, d') ∧
    (out = None ↔ Z.of_nat (length reads) + dropped = Z.of_nat (length sets)) ∧
    (out = None → n = 0) ∧
    (∀ x, out = Some x → sets !! Z.to_nat (Z.of_nat (length reads) + dropped + n) = Some x).
Proof.
  intros ops.
  destruct (play [Some 10; None; Some 11; Some 12; Some 13; None; None; Some 14] (NewOneToOne 2))
    as [[ops' d]|] eqn:E; [|by vm_compute in E].
  assert (ops' = ops) as -> by (vm_compute in E; injection E as <- <-; done).
  pose proof (play_run 2 _ [] _ _ _ (run_new 2) E) as Hr. simpl in Hr.
  exists d. split; [exact Hr|].
  apply (diode_accounts 2 ops d Hr); [lia|]. unfold MaxUint64. simpl. lia.
Defined.

(** With two writers a value can be lost without being counted: both load the
    same index. *)
Fact two_writers_lose :
  (let d := NewOneToOne 4 in
   '(i, s) ← Set_load d;
   '(i', s') ← Set_load d;
   let d := Set_store 20 i' s' (Set_store 10 i s d) in
   '(out, n, d) ← TryNext d;
   '(out', n', d) ← TryNext d;
   Done (out, n, out', n')) = Done (Some 20, 0, None, 0).
Proof. by vm_compute. Qed.
