(* ===== verification/Batching.v ===== *)
(** * Batches between nodes

    Models the batcher of go-batching (vendored batcher.go) and the batched
    ingress client of internal/routing/batched_ingress_client.go, through which
    a node sends the envelopes of other nodes to them.

    [Send] puts envelopes into a diode; one goroutine reads them, one loop
    iteration being [start_step], and sends them in batches.  The clock readings
    of an iteration are arguments; its 50 ms pause is left out. *)

From S2P Require Import Prelude AvlTree Envelope ExpirationHeap Store StoreInv StoreTruncate StoreGet Proxies Diode.

(** ** The batcher *)
Record Batcher (A : Type) := mkBatcher {
  size : Z; interval : Z; batch : list A; lastSent : Z }.
Arguments mkBatcher {A}.
Arguments size {A}.
Arguments interval {A}.
Arguments batch {A}.
Arguments lastSent {A}.

Section Batcher.
Context {A W : Type}.
(** The [Write] of the batcher's writer. *)
Variable write : list A → W → outcome W.

Definition NewBatcher (size interval now : Z) : Batcher A := mkBatcher size interval [] now.

Definition partialBatch (b : Batcher A) : bool := Z.of_nat (length (batch b)) <? size b.
Definition partialInterval (now : Z) (b : Batcher A) : bool := now - lastSent b <? interval b.

(** [now'] is the clock after the write. *)
Definition writeBatch (now' : Z) (b : Batcher A) (w : W) : outcome (Batcher A * W) :=
  match batch b with
  | [] => Done (b, w)
  | l => w ← write l w; Done (mkBatcher (size b) (interval b) [] now', w)
  end.

Definition Write (x : A) (now now' : Z) (b : Batcher A) (w : W) : outcome (Batcher A * W) :=
  let b := mkBatcher (size b) (interval b) (batch b ++ [x]) (lastSent b) in
  if partialBatch b && partialInterval now b then Done (b, w) else writeBatch now' b w.

Definition ForcedFlush (now' : Z) (b : Batcher A) (w : W) : outcome (Batcher A * W) :=
  writeBatch now' b w.

Definition Flush (now now' : Z) (b : Batcher A) (w : W) : outcome (Batcher A * W) :=
  if partialInterval now b then Done (b, w) else writeBatch now' b w.
End Batcher.

(** ** The batched ingress client *)
Record BatchedIngressClient := mkBatched {
  bc_buffer : OneToOne Envelope;
  batcher : Batcher Envelope;
  localOnly : bool;
  dropped : Z;
  sendFailures : Z;
}.

Section Client.
Context {W : Type}.
Variable c_Send : SendRequest → W → outcome (W * result error unit).

Definition NewBatchedIngressClient (size interval now : Z) (local_disabled : bool) :
    BatchedIngressClient :=
  mkBatched (NewOneToOne 10000) (NewBatcher size interval now) (negb local_disabled) 0 0.

Definition set_buffer (d : OneToOne Envelope) (b : BatchedIngressClient) : BatchedIngressClient :=
  mkBatched d (batcher b) (localOnly b) (dropped b) (sendFailures b).

Fixpoint set_all (es : list Envelope) (d : OneToOne Envelope) : outcome (OneToOne Envelope) :=
  match es with
  | [] => Done d
  | e :: es => d ← Set_ e d; set_all es d
  end.

(** [Send] always succeeds. *)
Definition Send (in_ : SendRequest) (b : BatchedIngressClient) :
    outcome (BatchedIngressClient * result error unit) :=
  d ← set_all (default [] (Envelopes in_)) (bc_buffer b);
  Done (set_buffer d b, Ok tt).

(** [write]: a failed request only counts. *)
Definition write (localOnly : bool) (e : list Envelope) (w : W * Z) : outcome (W * Z) :=
  '(w', err) ← c_Send (mkSend localOnly (Some e)) w.1;
  Done (w', if failed err then w.2 + 1 else w.2).

(** One iteration of [start]. *)
Definition start_step (now now' : Z) (b : BatchedIngressClient) (w : W) :
    outcome (BatchedIngressClient * W) :=
  '(e, missed, d) ← TryNext (bc_buffer b);
  '(bt, wf) ←
    match e with
    | None => Flush (write (localOnly b)) now now' (batcher b) (w, sendFailures b)
    | Some e => Write (write (localOnly b)) e now now' (batcher b) (w, sendFailures b)
    end;
  Done (mkBatched d bt (localOnly b) (dropped b + missed) wf.2, wf.1).

(** ** Runs of the senders and the loop *)
Inductive client_event := ESend (in_ : SendRequest) | EStep (now now' : Z).

Definition exec_client (ev : client_event) (b : BatchedIngressClient) (w : W) :
    outcome (BatchedIngressClient * W) :=
  match ev with
  | ESend in_ => '(b, _) ← Send in_ b; Done (b, w)
  | EStep now now' => start_step now now' b w
  end.

Fixpoint exec_clients (evs : list client_event) (b : BatchedIngressClient) (w : W) :
    outcome (BatchedIngressClient * W) :=
  match evs with
  | [] => Done (b, w)
  | ev :: evs => '(b, w) ← exec_client ev b w; exec_clients evs b w
  end.

Definition enqueued (ev : client_event) : list Envelope :=
  match ev with ESend in_ => default [] (Envelopes in_) | EStep _ _ => [] end.

(** Buffer operations of a run: one per envelope and one per iteration. *)
Definition operations (evs : list client_event) : nat :=
  (length (evs ≫= enqueued) + length evs)%nat.

Definition carried (r : SendRequest) : list Envelope := default [] (Envelopes r).
End Client.

(** ** Batches *)
Section BatcherSpec.
Context {A W : Type}.
Variable write : list A → W → outcome W.
(** What a writer was handed: the batches, in order. *)
Variable log : W → list (list A).
Hypothesis write_logged : ∀ l w, ∃ w', write l w = Done w' ∧ log w' = log w ++ [l].

(** The batches of the log were not empty and at most [size] long, and the open
    batch is shorter. *)
Definition batcher_ok (size : Z) (b : Batcher A) (w : W) : Prop :=
  Batching.size b = size ∧ Z.of_nat (length (batch b)) < size ∧
  Forall (λ l, 1 ≤ Z.of_nat (length l) ≤ size) (log w).

(** All data handed to the batcher. *)
Definition handed (b : Batcher A) (w : W) : list A := mjoin (log w) ++ batch b.

Lemma writeBatch_spec size now' b w :
  Batching.size b = size → Z.of_nat (length (batch b)) ≤ size → 1 ≤ size →
  Forall (λ l, 1 ≤ Z.of_nat (length l) ≤ size) (log w) →
  ∃ b' w', writeBatch write now' b w = Done (b', w') ∧ batcher_ok size b' w' ∧
    handed b' w' = handed b w ∧ batch b' = [] ∧ interval b' = interval b.
Proof.
  intros Hs Hl H1 Hlog. unfold writeBatch, handed, batcher_ok. destruct (batch b) as [|x l] eqn:Eb.
  - exists b, w. rewrite Eb. simpl in *. split_and!; done || lia.
  - destruct (write_logged (x :: l) w) as (w'&->&Hlog'). simpl. eexists _, w'. split; [done|].
    rewrite Hlog'. cbn [batch Batching.size interval]. rewrite join_app, app_nil_r. cbn.
    rewrite app_nil_r. split_and!; try done; [lia|].
    apply Forall_app. split; [done|]. constructor; [|constructor]. simpl in *. lia.
Qed.

Lemma Write_spec size x now now' b w :
  1 ≤ size → batcher_ok size b w →
  ∃ b' w', Write write x now now' b w = Done (b', w') ∧ batcher_ok size b' w' ∧
    handed b' w' = handed b w ++ [x].
Proof.
  intros H1 (Hs&Hl&Hlog). unfold Write. set (b1 := mkBatcher _ _ _ _).
  assert (handed b1 w = handed b w ++ [x]) as Hh by (unfold handed; simpl; by rewrite app_assoc).
  assert (Batching.size b1 = size) as Hs1 by done.
  assert (Z.of_nat (length (batch b1)) ≤ size) as Hl1 by (simpl; rewrite length_app; simpl; lia).
  destruct (partialBatch b1) eqn:Ep; simpl.
  - destruct (partialInterval now b1).
    + exists b1, w. split_and!; try done. unfold batcher_ok. apply Z.ltb_lt in Ep. rewrite Hs1 in Ep. done.
    + destruct (writeBatch_spec size now' b1 w) as (b'&w'&->&?&Hh'&_); try done.
      exists b', w'. by rewrite Hh', Hh.
  - destruct (writeBatch_spec size now' b1 w) as (b'&w'&->&?&Hh'&_); try done.
    exists b', w'. by rewrite Hh', Hh.
Qed.

Lemma Flush_spec size now now' b w :
  1 ≤ size → batcher_ok size b w →
  ∃ b' w', Flush write now now' b w = Done (b', w') ∧ batcher_ok size b' w' ∧
    handed b' w' = handed b w ∧ (interval b ≤ now - lastSent b → batch b' = []).
Proof.
  intros H1 Hok. pose proof Hok as (Hs&Hl&Hlog). unfold Flush, partialInterval.
  destruct (Z.ltb_spec (now - lastSent b) (interval b)).
  - exists b, w. split_and!; try done. lia.
  - destruct (writeBatch_spec size now' b w) as (b'&w'&->&?&Hh'&?&_); try done; [lia|].
    exists b', w'. done.
Qed.
End BatcherSpec.

Lemma buffer_size : (0 < 10000)%nat.
Proof. apply Nat.ltb_lt. reflexivity. Qed.

Section ClientSpec.
Context {W : Type}.
Variable c_Send : SendRequest → W → outcome (W * result error unit).
(** The requests the other node was sent. *)
Variable log : W → list SendRequest.
Hypothesis Send_logged : ∀ r w, ∃ w' res, c_Send r w = Done (w', res) ∧ log w' = log w ++ [r].

(** The batches of the requests. *)
Definition batches (wf : W * Z) : list (list Envelope) := carried <$> log wf.1.

Lemma write_logged local l wf :
  ∃ wf', write c_Send local l wf = Done wf' ∧ log wf'.1 = log wf.1 ++ [mkSend local (Some l)].
Proof.
  unfold write. destruct (Send_logged (mkSend local (Some l)) wf.1) as (w'&res&->&Hl).
  simpl. by eexists.
Qed.

Lemma write_batches local l wf :
  ∃ wf', write c_Send local l wf = Done wf' ∧ batches wf' = batches wf ++ [l].
Proof.
  destruct (write_logged local l wf) as (wf'&E&Hl). exists wf'. split; [done|].
  unfold batches. by rewrite Hl, fmap_app.
Qed.

(** The state after the envelopes [sends] were enqueued and [n] buffer
    operations ran, from a log that was empty. *)
Definition client_inv (size : Z) (local : bool) (sends : list Envelope) (n : nat)
    (b : BatchedIngressClient) (w : W) : Prop :=
  localOnly b = local ∧ Forall (λ r, LocalOnly r = local) (log w) ∧
  batcher_ok batches size (batcher b) (w, sendFailures b) ∧
  ∃ ops, diode_run 10000 ops (bc_buffer b) ∧ (length ops ≤ n)%nat ∧
    ops ≫= set_by = sends ∧
    ops ≫= read_by = handed batches (batcher b) (w, sendFailures b) ∧
    sum (dropped_by <$> ops) = dropped b.

Lemma set_all_spec es ops d :
  diode_run 10000 ops d → Z.of_nat (length ops + length es) < MaxUint64 →
  ∃ d', set_all es d = Done d' ∧ diode_run 10000 (ops ++ (OSet <$> es)) d'.
Proof.
  revert ops d. induction es as [|e es IH]; intros ops d Hr Hl; simpl in *.
  { exists d. by rewrite app_nil_r. }
  destruct (run_inv 10000 ops d) as (Hinv&_&_&_&Hlen&_); [exact buffer_size|done|lia|].
  destruct (inv_Set 10000 _ d e buffer_size Hinv) as (d1&E&_).
  { unfold small. rewrite (di_write _ _ _ Hinv). lia. }
  rewrite E. simpl. destruct (IH (ops ++ [OSet e]) d1) as (d'&->&Hr').
  - by eapply run_set.
  - rewrite length_app. simpl. lia.
  - exists d'. split; [done|]. by rewrite <- app_assoc in Hr'.
Qed.

Lemma set_by_sets (es : list Envelope) :
  (OSet <$> es) ≫= set_by = es ∧ (OSet <$> es) ≫= read_by = [] ∧
  sum (dropped_by <$> (OSet <$> es)) = 0.
Proof.
  induction es as [|e es (IH1&IH2&IH3)]; [done|]. rewrite !fmap_cons, !bind_cons, IH1, IH2.
  split_and!; [done..|exact IH3].
Qed.

Lemma Send_inv size local sends n in_ b w :
  client_inv size local sends n b w →
  Z.of_nat (n + length (default [] (Envelopes in_))) < MaxUint64 →
  ∃ b', Send in_ b = Done (b', Ok tt) ∧
    client_inv size local (sends ++ default [] (Envelopes in_))
      (n + length (default [] (Envelopes in_))) b' w ∧ batcher b' = batcher b.
Proof.
  intros (Hlo&Hlog&Hok&ops&Hr&Hn&Hs&Hrd&Hd) Hl. unfold Send.
  set (es := default [] (Envelopes in_)) in *.
  destruct (set_all_spec es ops (bc_buffer b) Hr) as (d'&->&Hr'); [lia|].
  simpl. eexists. split; [done|]. split; [|done]. unfold client_inv. simpl.
  destruct (set_by_sets es) as (E1&E2&E3). split_and!; try done.
  exists (ops ++ (OSet <$> es)). rewrite length_app, length_fmap, !bind_app, fmap_app, sum_app.
  rewrite E1, E2, E3, app_nil_r, Hs. split_and!; try done; lia.
Qed.

Definition unread (b : BatchedIngressClient) : Z :=
  writeIndex (bc_buffer b) - readIndex (bc_buffer b).

(** What the batcher sends keeps its destination. *)
Lemma writeBatch_local local now' b0 wf b1 wf' :
  writeBatch (write c_Send local) now' b0 wf = Done (b1, wf') →
  Forall (λ r, LocalOnly r = local) (log wf.1) → Forall (λ r, LocalOnly r = local) (log wf'.1).
Proof.
  unfold writeBatch. destruct (batch b0) as [|x l]; [by intros [= _ <-]|].
  destruct (write_logged local (x :: l) wf) as (w1&->&Hl). simpl. intros [= _ <-] Hlog. rewrite Hl.
  apply Forall_app. split; [done|]. by constructor.
Qed.

Lemma Write_local local x now now' b0 wf b1 wf' :
  Write (write c_Send local) x now now' b0 wf = Done (b1, wf') →
  Forall (λ r, LocalOnly r = local) (log wf.1) → Forall (λ r, LocalOnly r = local) (log wf'.1).
Proof. unfold Write. destruct (_ && _); [by intros [= _ <-]|apply writeBatch_local]. Qed.

Lemma Flush_local local now now' b0 wf b1 wf' :
  Flush (write c_Send local) now now' b0 wf = Done (b1, wf') →
  Forall (λ r, LocalOnly r = local) (log wf.1) → Forall (λ r, LocalOnly r = local) (log wf'.1).
Proof. unfold Flush. destruct (partialInterval _ _); [by intros [= _ <-]|apply writeBatch_local]. Qed.

(** One iteration: it makes progress while something is unread. *)
Lemma step_inv size local sends n now now' b w :
  1 ≤ size → client_inv size local sends n b w → Z.of_nat n < MaxUint64 →
  ∃ b' w', start_step c_Send now now' b w = Done (b', w') ∧
    client_inv size local sends (S n) b' w' ∧
    0 ≤ unread b' ≤ Z.max 0 (unread b - 1) ∧
    (unread b = 0 → interval (batcher b) ≤ now - lastSent (batcher b) → batch (batcher b') = []).
Proof.
  intros H1 (Hlo&Hlog&Hok&ops&Hr&Hn&Hs&Hrd&Hd) Hl. unfold start_step.
  destruct (run_inv 10000 ops (bc_buffer b)) as (Hinv&_&_&_&Hlen&_); [exact buffer_size|done|lia|].
  destruct (inv_TryNext 10000 _ (bc_buffer b) buffer_size Hinv) as (out&m&d'&E&Hinv'&Ew&Hm&Hout).
  { unfold small. rewrite (di_write _ _ _ Hinv). lia. }
  rewrite E. cbn [mbind outcome_bind].
  pose proof (di_read _ _ _ Hinv). pose proof (di_read _ _ _ Hinv').
  assert (diode_run 10000 (ops ++ [ONext out m]) d') as Hr' by by eapply run_next.
  assert (∀ bt wf, batcher_ok batches size bt wf →
    handed batches bt wf = handed batches (batcher b) (w, sendFailures b) ++ option_list out →
    Forall (λ r, LocalOnly r = local) (log wf.1) →
    client_inv size local sends (S n) (mkBatched d' bt (localOnly b) (dropped b + m) wf.2) wf.1)
    as Hmk.
  { intros bt [w1 f1] Hbt Hh Hl1. unfold client_inv. simpl. split_and!; try done.
    exists (ops ++ [ONext out m]).
    rewrite length_app, !bind_app, fmap_app, sum_app, Hs, Hrd, Hh, Hd. simpl.
    destruct out; simpl; rewrite ?app_nil_r, ?Z.add_0_r; split_and!; try done; lia. }
  destruct out as [x|].
  - destruct (Write_spec _ batches (write_batches (localOnly b)) size x now now' (batcher b)
      (w, sendFailures b) H1 Hok) as (bt&wf&EW&Hbt&Hh).
    rewrite EW. cbn [mbind outcome_bind]. eexists _, _. split; [done|]. split; [|split].
    + apply Hmk; [done..|]. subst local. by apply (Write_local _ _ _ _ _ _ _ _ EW).
    + unfold unread. cbn [bc_buffer]. lia.
    + unfold unread. intros. lia.
  - destruct (Flush_spec _ batches (write_batches (localOnly b)) size now now' (batcher b)
      (w, sendFailures b) H1 Hok) as (bt&wf&EF&Hbt&Hh&Hi).
    rewrite EF. cbn [mbind outcome_bind]. eexists _, _. split; [done|]. split; [|split].
    + apply Hmk; [done|simpl; by rewrite app_nil_r|]. subst local. by apply (Flush_local _ _ _ _ _ _ _ EF).
    + unfold unread. cbn [bc_buffer]. lia.
    + intros _ Hnow. by apply Hi.
Qed.

Lemma client_inv_new size interval now local_disabled w :
  1 ≤ size → log w = [] →
  client_inv size (negb local_disabled) [] 0
    (NewBatchedIngressClient size interval now local_disabled) w.
Proof.
  intros Hs Hw. unfold client_inv, batcher_ok, handed, batches. simpl. rewrite Hw.
  split_and!; try done; [lia|]. exists []. split_and!; try done. constructor.
Qed.

Lemma exec_clients_inv size local evs sends n b w :
  1 ≤ size → client_inv size local sends n b w → Z.of_nat (n + operations evs) < MaxUint64 →
  ∃ b' w', exec_clients c_Send evs b w = Done (b', w') ∧
    client_inv size local (sends ++ (evs ≫= enqueued)) (n + operations evs) b' w'.
Proof.
  intros Hs. revert sends n b w. induction evs as [|ev evs IH]; intros sends n b w Hinv Hl.
  { exists b, w. simpl. rewrite app_nil_r. unfold operations. simpl. by rewrite Nat.add_0_r. }
  assert (operations (ev :: evs) = length (enqueued ev) + 1 + operations evs)%nat as Eo
    by (unfold operations; rewrite bind_cons, length_app; simpl; lia).
  rewrite Eo in Hl |- *. rewrite bind_cons. destruct ev as [in_|now now']; cbn [exec_clients exec_client enqueued].
  - destruct (Send_inv size local sends n in_ b w Hinv) as (b1&->&Hinv1&_); [simpl in Hl; lia|].
    cbn [mbind outcome_bind]. simpl in Hl.
    destruct (IH _ _ b1 w Hinv1) as (b'&w'&->&Hinv'); [lia|]. exists b', w'. split; [done|].
    rewrite <- app_assoc in Hinv'. destruct Hinv' as (?&?&?&ops&?&?&?). do 3 (split; [done|]).
    exists ops. split; [done|]. simpl. split; [lia|done].
  - destruct (step_inv size local sends n now now' b w Hs Hinv) as (b1&w1&->&Hinv1&_); [lia|].
    cbn [mbind outcome_bind]. simpl in Hl.
    destruct (IH _ _ b1 w1 Hinv1) as (b'&w'&->&Hinv'); [lia|]. exists b', w'. split; [done|].
    simpl. by replace (n + S (operations evs))%nat with (S n + operations evs)%nat by lia.
Qed.

Lemma join_carried (rs : list SendRequest) : mjoin (carried <$> rs) = rs ≫= carried.
Proof. induction rs as [|r rs IH]; [done|]. by rewrite bind_cons, <- IH. Qed.

(** What the invariant says of a run. *)
Lemma client_inv_accounts size local sends n b w :
  client_inv size local sends n b w → Z.of_nat n < MaxUint64 →
  let sent := log w ≫= carried in
  sent ++ batch (batcher b) `sublist_of` sends ∧
  Z.of_nat (length (sent ++ batch (batcher b))) + dropped b + unread b = Z.of_nat (length sends) ∧
  0 ≤ dropped b ∧ 0 ≤ unread b ∧ (Z.of_nat (length sends) ≤ 10000 → dropped b = 0) ∧
  Forall (λ r, LocalOnly r = local ∧ 1 ≤ Z.of_nat (length (carried r)) ≤ size) (log w) ∧
  Z.of_nat (length (batch (batcher b))) < size.
Proof.
  intros (Hlo&Hlog&(Hs&Hb&Hbs)&ops&Hr&Hn&Hsets&Hreads&Hd) Hl sent.
  destruct (run_inv 10000 ops (bc_buffer b)) as (Hinv&Hsub&Hrd&Hpos&Hlen&Hno);
    [exact buffer_size|done|lia|].
  rewrite Hsets, Hreads, Hd in *.
  assert (handed batches (batcher b) (w, sendFailures b) = sent ++ batch (batcher b)) as Eh.
  { unfold handed, batches, sent. by rewrite join_carried. }
  rewrite Eh in *. pose proof (di_write _ _ _ Hinv). pose proof (di_read _ _ _ Hinv).
  unfold unread. split_and!; try done; try lia.
  - etransitivity; [exact Hsub|]. apply sublist_take.
  - intros H10. apply Hno. apply Nat2Z.inj_le. change (Z.of_nat 10000) with 10000. lia.
  - apply Forall_forall. intros r Hin. rewrite Forall_forall in Hlog. rewrite Forall_forall in Hbs.
    split; [by apply Hlog|]. apply (Hbs (carried r)). unfold batches. apply list_elem_of_fmap. by exists r.
Qed.


Lemma steps_drain size local clocks sends n b w :
  1 ≤ size → client_inv size local sends n b w → Z.of_nat (n + length clocks) < MaxUint64 →
  unread b ≤ Z.of_nat (length clocks) →
  ∃ b' w', exec_clients c_Send ((λ p, EStep p.1 p.2) <$> clocks) b w = Done (b', w') ∧
    client_inv size local sends (n + length clocks) b' w' ∧ unread b' = 0.
Proof.
  intros Hs. revert n b w. induction clocks as [|[c c'] clocks IH]; intros n b w Hinv Hl Hu.
  - exists b, w. rewrite Nat.add_0_r. split_and!; [done..|].
    pose proof (client_inv_accounts _ _ _ _ _ _ Hinv ltac:(simpl in Hl; lia)) as (_&_&_&?&_).
    simpl in Hu. lia.
  - simpl in Hl, Hu.
    destruct (step_inv size local sends n c c' b w Hs Hinv) as (b1&w1&E&Hinv1&Hu1&_); [lia|].
    cbn [fmap list_fmap exec_clients exec_client fst snd]. rewrite E. cbn [mbind outcome_bind].
    destruct (IH (S n) b1 w1 Hinv1) as (b'&w'&E'&Hinv'&Hu'); [lia..|].
    exists b', w'. split; [exact E'|]. split; [|done].
    simpl. by replace (n + S (length clocks))%nat with (S n + length clocks)%nat by lia.
Qed.

End ClientSpec.

(** ** A concrete run *)
Definition demo_env (ts : Z) : Envelope := mkEnvelope ts "a" "0" ∅ ∅ None.
Definition demo_events : list client_event :=
  [ESend (mkSend false (Some [demo_env 1; demo_env 2; demo_env 3])); EStep 1 1; EStep 2 2;
   ESend (mkSend false None); EStep 3 3].
(** A node that refuses every request but keeps it. *)
Definition refusing (r : SendRequest) (w : list SendRequest) :
    outcome (list SendRequest * result error unit) := Done (w ++ [r], Err (Errorf "down")).

Lemma refusing_logged r w : ∃ w' res, refusing r w = Done (w', res) ∧ w' = w ++ [r].
Proof. by eexists _, _. Qed.

Lemma demo_operations : Z.of_nat (operations demo_events) < MaxUint64.
Proof. by vm_compute. Qed.


