(* ===== verification/Nozzle.v ===== *)
(** * The nozzle

    Models internal/nozzle/nozzle.go: the reader that fills the stream buffer,
    the batcher that moves it in batches into a bounded channel, the workers
    that send the batches to a node, and the request for the stream.

    The goroutines interleave; an event is one iteration of the reader's or the
    batcher's loop, a worker's receive or a worker's send, and [fired] tells
    whether the flush timer had gone off.  Pauses are left out. *)

From S2P Require Import Prelude AvlTree Envelope ExpirationHeap Store StoreInv StoreTruncate StoreGet Proxies Diode.

(** ** The request for the stream *)
Inductive Selector := Selector_Log | Selector_Gauge | Selector_Counter | Selector_Timer | Selector_Event.

Definition selectorTypes : gmap string Selector :=
  {["log"%string := Selector_Log; "gauge"%string := Selector_Gauge;
    "counter"%string := Selector_Counter; "timer"%string := Selector_Timer;
    "event"%string := Selector_Event]}.

(** The request: a selector that is not in the map is a nil pointer, [None]. *)
Record EgressBatchRequest := mkEgressReq {
  ShardId : string; UsePreferredTags : bool; Selectors : list (option Selector) }.

Definition buildBatchReq (shardId : string) (selectors : list string) : EgressBatchRequest :=
  mkEgressReq shardId true ((λ s, selectorTypes !! s) <$> selectors).

(** ** The state *)
Definition BATCH_CHANNEL_SIZE : nat := 512.

Record Nozzle := mkNozzle {
  streamBuffer : OneToOne Envelope;
  envelopes : list Envelope;          (** the open batch of [envelopeBatcher] *)
  ch : list (list Envelope);          (** the channel, oldest batch first *)
  working : list (list Envelope);     (** the batches the workers hold *)
  ingressCounter : Z;
  egressCounter : Z;
  errCounter : Z;
}.

Definition NewNozzle : Nozzle := mkNozzle (NewOneToOne (Z.to_nat 100000)) [] [] [] 0 0 0.

(** One iteration of [envelopeReader]. *)
Fixpoint envelopeReader (es : list Envelope) (n : Nozzle) : outcome Nozzle :=
  match es with
  | [] => Done n
  | e :: es =>
      d ← Set_ e (streamBuffer n);
      envelopeReader es (mkNozzle d (envelopes n) (ch n) (working n)
        (ingressCounter n + 1) (egressCounter n) (errCounter n))
  end.

(** The two [select]s that hand over the batch: a full channel drops it. *)
Definition hand_over (n : Nozzle) : Nozzle :=
  mkNozzle (streamBuffer n) []
    (if decide (length (ch n) < BATCH_CHANNEL_SIZE)%nat then ch n ++ [envelopes n] else ch n)
    (working n) (ingressCounter n) (egressCounter n) (errCounter n).

(** One iteration of [envelopeBatcher]. *)
Definition envelopeBatcher (fired : bool) (n : Nozzle) : outcome Nozzle :=
  '(data, _, d) ← TryNext (streamBuffer n);
  let n := mkNozzle d (envelopes n ++ option_list data) (ch n) (working n)
             (ingressCounter n) (egressCounter n) (errCounter n) in
  Done (if fired then
          if decide (0 < length (envelopes n))%nat then hand_over n else n
        else
          if decide (BATCH_CHANNEL_SIZE ≤ length (envelopes n))%nat then hand_over n else n).

Section Workers.
Context {W : Type}.
Variable client_Send : SendRequest → W → outcome (W * result error unit).

(** [envelopeWriter] receives a batch; it blocks on an empty channel, and there
    are [workers] of them. *)
Definition receive (workers : nat) (n : Nozzle) : option Nozzle :=
  match ch n with
  | [] => None
  | b :: rest =>
      if decide (length (working n) < workers)%nat then
        Some (mkNozzle (streamBuffer n) (envelopes n) rest (working n ++ [b])
          (ingressCounter n) (egressCounter n) (errCounter n))
      else None
  end.

(** The worker that holds the [i]-th batch sends it. *)
Definition envelopeWriter (i : nat) (n : Nozzle) (w : W) : outcome (option (Nozzle * W)) :=
  match working n !! i with
  | None => Done None
  | Some b =>
      '(w, err) ← client_Send (mkSend false (Some b)) w;
      Done (Some (mkNozzle (streamBuffer n) (envelopes n) (ch n) (delete i (working n))
        (ingressCounter n)
        (if failed err then egressCounter n else egressCounter n + Z.of_nat (length b))
        (if failed err then errCounter n + 1 else errCounter n), w))
  end.

(** ** Runs *)
Inductive event :=
| NRead (es : list Envelope)
| NBatch (fired : bool)
| NReceive
| NSend (i : nat).

Inductive nstep (workers : nat) : event → Nozzle * W → Nozzle * W → Prop :=
| nstep_read es n w n' :
    envelopeReader es n = Done n' → nstep workers (NRead es) (n, w) (n', w)
| nstep_batch fired n w n' :
    envelopeBatcher fired n = Done n' → nstep workers (NBatch fired) (n, w) (n', w)
| nstep_receive n w n' :
    receive workers n = Some n' → nstep workers NReceive (n, w) (n', w)
| nstep_send i n w n' w' :
    envelopeWriter i n w = Done (Some (n', w')) → nstep workers (NSend i) (n, w) (n', w').

Inductive nruns (workers : nat) (w0 : W) : list event → Nozzle * W → Prop :=
| nruns_new : nruns workers w0 [] (NewNozzle, w0)
| nruns_step evs c ev c' :
    nruns workers w0 evs c → nstep workers ev c c' → nruns workers w0 (evs ++ [ev]) c'.
End Workers.

Definition received (ev : event) : list Envelope := match ev with NRead es => es | _ => [] end.

(** Buffer operations of a run. *)
Definition operations (evs : list event) : nat := (length (evs ≫= received) + length evs)%nat.

(** ** The invariant *)
Lemma stream_buffer_size : (0 < Z.to_nat 100000)%nat.
Proof. lia. Qed.

Definition batch_sized (b : list Envelope) : Prop := (1 ≤ length b ≤ BATCH_CHANNEL_SIZE)%nat.

(** A buffer after some values were set and some were read. *)
Definition buffered (d : OneToOne Envelope) (sets reads : list Envelope) (n : nat) : Prop :=
  ∃ ops, diode_run (Z.to_nat 100000) ops d ∧ ops ≫= set_by = sets ∧ ops ≫= read_by = reads ∧
    (length ops ≤ n)%nat.

Lemma buffered_Set d sets reads n e :
  buffered d sets reads n → Z.of_nat n < MaxUint64 →
  ∃ d', Set_ e d = Done d' ∧ buffered d' (sets ++ [e]) reads (S n).
Proof.
  intros (ops&Hr&Hs&Hrd&Hn) Hl.
  destruct (run_inv _ ops d stream_buffer_size Hr) as (Hinv&_&_&_&Hlen&_); [lia|].
  destruct (inv_Set _ _ d e stream_buffer_size Hinv) as (d'&E&_).
  { unfold small. rewrite (di_write _ _ _ Hinv). lia. }
  exists d'. split; [done|]. exists (ops ++ [OSet e]).
  rewrite !bind_app, Hs, Hrd, length_app. simpl. rewrite app_nil_r.
  split_and!; [by eapply run_set|done..|lia].
Qed.

Lemma buffered_TryNext d sets reads n :
  buffered d sets reads n → Z.of_nat n < MaxUint64 →
  ∃ out m d', TryNext d = Done (out, m, d') ∧ buffered d' sets (reads ++ option_list out) (S n).
Proof.
  intros (ops&Hr&Hs&Hrd&Hn) Hl.
  destruct (run_inv _ ops d stream_buffer_size Hr) as (Hinv&_&_&_&Hlen&_); [lia|].
  destruct (inv_TryNext _ _ d stream_buffer_size Hinv) as (out&m&d'&E&_).
  { unfold small. rewrite (di_write _ _ _ Hinv). lia. }
  exists out, m, d'. split; [done|]. exists (ops ++ [ONext out m]).
  rewrite !bind_app, Hs, Hrd, length_app. simpl.
  destruct out; simpl; rewrite ?app_nil_r; split_and!; try done; try lia; by eapply run_next.
Qed.

Lemma buffered_sublist d sets reads n :
  buffered d sets reads n → Z.of_nat n < MaxUint64 → reads `sublist_of` sets.
Proof.
  intros (ops&Hr&<-&<-&Hn) Hl.
  destruct (run_inv _ ops d stream_buffer_size Hr) as (_&Hsub&_); [lia|].
  etransitivity; [exact Hsub|]. apply sublist_take.
Qed.

Section NozzleSpec.
Context {W : Type}.
Variable client_Send : SendRequest → W → outcome (W * result error unit).
(** The requests the node was sent, and whether each succeeded. *)
Variable log : W → list (SendRequest * bool).
Hypothesis Send_logged : ∀ r w, ∃ w' res,
  client_Send r w = Done (w', res) ∧ log w' = log w ++ [(r, negb (failed res))].

Definition batch_of (p : SendRequest * bool) : list Envelope := default [] (Envelopes p.1).
Definition accepted (p : SendRequest * bool) : Z := if p.2 then Z.of_nat (length (batch_of p)) else 0.
Definition refused (p : SendRequest * bool) : Z := if p.2 then 0 else 1.

(** The envelopes that left the buffer and were not dropped: sent, held by a
    worker, in the channel or in the open batch. *)
Definition passed (n : Nozzle) (w : W) : list Envelope :=
  (log w ≫= batch_of) ++ mjoin (working n) ++ mjoin (ch n) ++ envelopes n.

Record nozzle_inv (sets : list Envelope) (k : nat) (n : Nozzle) (w : W) : Prop := {
  ni_buffer : ∃ reads, buffered (streamBuffer n) sets reads k ∧ passed n w ⊆+ reads;
  ni_ingress : ingressCounter n = Z.of_nat (length sets);
  ni_egress : egressCounter n = sum (accepted <$> log w);
  ni_err : errCounter n = sum (refused <$> log w);
  ni_open : (length (envelopes n) < BATCH_CHANNEL_SIZE)%nat;
  ni_ch : Forall batch_sized (ch n) ∧ (length (ch n) ≤ BATCH_CHANNEL_SIZE)%nat;
  ni_working : Forall batch_sized (working n);
  ni_log : Forall (λ p, LocalOnly p.1 = false ∧ batch_sized (batch_of p)) (log w);
}.

Lemma reader_inv es sets k n w :
  nozzle_inv sets k n w → Z.of_nat (k + length es) < MaxUint64 →
  ∃ n', envelopeReader es n = Done n' ∧ nozzle_inv (sets ++ es) (k + length es) n' w.
Proof.
  revert sets k n. induction es as [|e es IH]; intros sets k n Hinv Hl; simpl in *.
  { exists n. by rewrite app_nil_r, Nat.add_0_r. }
  destruct Hinv as [(reads&Hb&Hp) ? ? ? ? ? ? ?].
  destruct (buffered_Set _ _ _ _ e Hb) as (d'&->&Hb'); [lia|]. simpl.
  destruct (IH (sets ++ [e]) (S k) (mkNozzle d' (envelopes n) (ch n) (working n)
    (ingressCounter n + 1) (egressCounter n) (errCounter n))) as (n'&->&Hinv'); [|lia|].
  - split; try done; [by exists reads|]. simpl. rewrite length_app. simpl. lia.
  - exists n'. split; [done|]. rewrite <- app_assoc in Hinv'.
    by replace (k + S (length es))%nat with (S k + length es)%nat by lia.
Qed.

Lemma hand_over_inv sets k n w :
  (length (envelopes n) ≤ BATCH_CHANNEL_SIZE)%nat → (0 < length (envelopes n))%nat →
  (∃ reads, buffered (streamBuffer n) sets reads k ∧ passed n w ⊆+ reads) →
  ingressCounter n = Z.of_nat (length sets) → egressCounter n = sum (accepted <$> log w) →
  errCounter n = sum (refused <$> log w) →
  Forall batch_sized (ch n) ∧ (length (ch n) ≤ BATCH_CHANNEL_SIZE)%nat →
  Forall batch_sized (working n) →
  Forall (λ p, LocalOnly p.1 = false ∧ batch_sized (batch_of p)) (log w) →
  nozzle_inv sets k (hand_over n) w.
Proof.
  intros Hl H0 (reads&Hb&Hp) ? ? ? [Hc Hcl] ? ?. unfold hand_over.
  split; simpl; try done; [|unfold BATCH_CHANNEL_SIZE; simpl; lia|].
  - exists reads. split; [done|]. etransitivity; [|exact Hp]. unfold passed. simpl.
    apply submseteq_app; [done|]. apply submseteq_app; [done|]. rewrite app_nil_r.
    case_decide; [|by apply submseteq_inserts_r].
    rewrite join_app. simpl. by rewrite app_nil_r.
  - case_decide; [|done]. rewrite length_app. simpl. split; [|lia].
    apply Forall_app. split; [done|]. constructor; [|constructor]. split; lia.
Qed.

Lemma batcher_inv fired sets k n w :
  nozzle_inv sets k n w → Z.of_nat k < MaxUint64 →
  ∃ n', envelopeBatcher fired n = Done n' ∧ nozzle_inv sets (S k) n' w.
Proof.
  intros [(reads&Hb&Hp) ? ? ? Ho ? ? ?] Hl. unfold envelopeBatcher.
  destruct (buffered_TryNext _ _ _ _ Hb Hl) as (out&m&d'&->&Hb'). simpl.
  set (n1 := mkNozzle d' (envelopes n ++ option_list out) (ch n) (working n)
    (ingressCounter n) (egressCounter n) (errCounter n)).
  assert (∃ reads, buffered (streamBuffer n1) sets reads (S k) ∧ passed n1 w ⊆+ reads) as Hp1.
  { exists (reads ++ option_list out). split; [done|]. unfold passed in *. simpl.
    rewrite !app_assoc in *. by apply submseteq_app. }
  assert (length (envelopes n1) ≤ BATCH_CHANNEL_SIZE)%nat as Hl1
    by (simpl; rewrite length_app; destruct out; simpl; lia).
  eexists. split; [done|].
  assert ((length (envelopes n1) < BATCH_CHANNEL_SIZE)%nat → nozzle_inv sets (S k) n1 w) as Hkeep
    by (intros; by split).
  fold n1. destruct fired; case_decide as Hd.
  - by apply hand_over_inv.
  - apply Hkeep. unfold BATCH_CHANNEL_SIZE. simpl in *. lia.
  - apply hand_over_inv; try done. unfold BATCH_CHANNEL_SIZE in Hd. simpl in *. lia.
  - apply Hkeep. simpl in *. lia.
Qed.

Lemma receive_inv workers sets k n n' w :
  nozzle_inv sets k n w → receive workers n = Some n' → nozzle_inv sets (S k) n' w.
Proof.
  intros [(reads&(ops&?&?&?&?)&Hp) ? ? ? ? [Hc Hcl] ? ?]. unfold receive.
  destruct (ch n) as [|b rest] eqn:Ec; [done|]. case_decide; [|done]. intros [= <-].
  apply Forall_cons in Hc as [Hb Hc]. split; simpl in *; try done; [| |].
  - exists reads. split; [exists ops; split_and!; try done; lia|].
    unfold passed in *. simpl. rewrite Ec in Hp. rewrite join_app. simpl in *.
    rewrite app_nil_r, <- !app_assoc. by rewrite <- !app_assoc in Hp.
  - split; [done|lia].
  - apply Forall_app. split; [done|]. by constructor.
Qed.

Lemma send_inv i sets k n w n' w' :
  nozzle_inv sets k n w → envelopeWriter client_Send i n w = Done (Some (n', w')) →
  nozzle_inv sets (S k) n' w'.
Proof.
  intros [(reads&(ops&?&?&?&?)&Hp) ? He Hr ? ? Hw Hlog]. unfold envelopeWriter.
  destruct (working n !! i) as [b|] eqn:Ei; [|done].
  destruct (Send_logged (mkSend false (Some b)) w) as (w1&res&->&Hl). simpl.
  intros [= <- <-]. pose proof (list_elem_of_lookup_2 _ _ _ Ei) as Hin.
  rewrite Forall_forall in Hw. pose proof (Hw b Hin) as Hb. split; simpl; try done.
  - exists reads. split; [exists ops; split_and!; try done; lia|].
    etransitivity; [|exact Hp]. unfold passed. simpl. rewrite Hl, bind_app. cbn.
    rewrite app_nil_r, <- app_assoc.
    assert (mjoin (working n) ≡ₚ b ++ mjoin (delete i (working n))) as ->
      by exact (join_Permutation _ _ (delete_Permutation _ _ _ Ei)).
    by rewrite <- app_assoc.
  - rewrite Hl, fmap_app, sum_app, He.
    assert (sum (accepted <$> [(mkSend false (Some b), negb (failed res))]) =
      if failed res then 0 else Z.of_nat (length b)) as ->
      by (destruct (failed res); cbn; lia). destruct (failed res); lia.
  - rewrite Hl, fmap_app, sum_app, Hr.
    assert (sum (refused <$> [(mkSend false (Some b), negb (failed res))]) =
      if failed res then 1 else 0) as -> by (by destruct (failed res)). destruct (failed res); lia.
  - apply Forall_forall. intros x Hx. apply Hw.
    eapply elem_of_sublist; [exact Hx|apply sublist_delete].
  - rewrite Hl. apply Forall_app. split; [done|]. by constructor.
Qed.

Lemma nruns_inv workers w0 evs n w :
  log w0 = [] → nruns client_Send workers w0 evs (n, w) → Z.of_nat (operations evs) < MaxUint64 →
  nozzle_inv (evs ≫= received) (operations evs) n w.
Proof.
  intros H0 Hr. remember (n, w) as c eqn:Ec. revert n w Ec.
  induction Hr as [|evs c ev c' Hr IH Hstep]; intros n w Ec Hl.
  { injection Ec as <- <-. split; simpl; rewrite ?H0; try done.
    - exists []. split; [exists []; split_and!; try done; constructor|]. unfold passed. by rewrite H0.
    - unfold BATCH_CHANNEL_SIZE. lia.
    - split; [done|]. lia. }
  assert (operations (evs ++ [ev]) = operations evs + length (received ev) + 1)%nat as Eo.
  { unfold operations. rewrite bind_app, !length_app. simpl. rewrite app_nil_r. lia. }
  rewrite bind_app. cbn [mbind list_bind]. rewrite app_nil_r. subst c'. rewrite Eo in Hl |- *.
  destruct c as [n0 w1]. specialize (IH n0 w1 eq_refl ltac:(lia)).
  assert (∀ sets k k' n w, nozzle_inv sets k n w → (k ≤ k')%nat → nozzle_inv sets k' n w) as Hmono.
  { intros sets k k' n1 w2 [(reads&(ops&?&?&?&?)&?) ? ? ? ? ? ? ?] Hk. split; try done.
    exists reads. split; [|done]. exists ops. split_and!; try done. lia. }
  inversion Hstep as [es ? ? ? E|fired ? ? ? E|? ? ? E|i ? ? ? ? E]; subst; cbn [received length] in *;
    rewrite ?app_nil_r.
  - destruct (reader_inv es _ _ _ _ IH) as (n2&E'&Hinv); [lia|]. rewrite E in E'. injection E' as <-.
    eapply Hmono; [exact Hinv|lia].
  - destruct (batcher_inv fired _ _ _ _ IH) as (n2&E'&Hinv); [lia|]. rewrite E in E'. injection E' as <-.
    eapply Hmono; [exact Hinv|lia].
  - eapply Hmono; [by eapply receive_inv|lia].
  - eapply Hmono; [by eapply send_inv|lia].
Qed.

(** Whatever the interleaving of the reader, the batcher and the workers,
    the envelopes sent, held by workers, waiting in the channel and in the open
    batch are, with their multiplicities, among those received: none is
    invented or sent twice.  The ingress counter counts the envelopes received,
    the egress counter those in accepted requests and the error counter the
    refused requests; each request leaves routing to the node and carries
    between one and 512 envelopes; the channel holds at most 512 batches; and
    neither the reader nor the batcher can panic. *)
Theorem nozzle_accounts workers w0 evs n w :
  log w0 = [] → nruns client_Send workers w0 evs (n, w) →
  Z.of_nat (operations evs) < MaxUint64 →
  passed n w ⊆+ evs ≫= received ∧
  ingressCounter n = Z.of_nat (length (evs ≫= received)) ∧
  egressCounter n = sum (accepted <$> log w) ∧ errCounter n = sum (refused <$> log w) ∧
  Forall (λ p, LocalOnly p.1 = false ∧ batch_sized (batch_of p)) (log w) ∧
  (length (ch n) ≤ BATCH_CHANNEL_SIZE)%nat ∧ (length (envelopes n) < BATCH_CHANNEL_SIZE)%nat ∧
  (∀ fired, is_Some (match envelopeBatcher fired n with Done n' => Some n' | Panic => None end)) ∧
  (∀ es, Z.of_nat (operations evs + length es) < MaxUint64 →
    is_Some (match envelopeReader es n with Done n' => Some n' | Panic => None end)).
Proof.
  intros H0 Hr Hl. pose proof (nruns_inv workers w0 evs n w H0 Hr Hl) as Hinv.
  pose proof Hinv as [(reads&Hb&Hp) ? ? ? ? [? ?] ? ?]. split_and!; try done.
  - etransitivity; [exact Hp|]. apply sublist_submseteq. by eapply buffered_sublist.
  - intros fired. destruct (batcher_inv fired _ _ _ _ Hinv) as (n'&->&_); [lia|eauto].
  - intros es He. destruct (reader_inv es _ _ _ _ Hinv) as (n'&->&_); [lia|eauto].
Qed.
End NozzleSpec.

(** ** Concrete runs *)
Definition demo_env (ts : Z) : Envelope := mkEnvelope ts "a" "0" ∅ ∅ None.

Definition logging (r : SendRequest) (w : list (SendRequest * bool)) :
    outcome (list (SendRequest * bool) * result error unit) :=
  Done (w ++ [(r, true)], Ok tt).

Lemma logging_logged r w : ∃ w' res,
  logging r w = Done (w', res) ∧ w' = w ++ [(r, negb (failed res))].
Proof. by eexists _, _. Qed.

(** The state after an event whose outcome is computed. *)
Definition next (ev : event) (c : Nozzle * list (SendRequest * bool)) :
    option (Nozzle * list (SendRequest * bool)) :=
  match ev with
  | NRead es => match envelopeReader es c.1 with Done n => Some (n, c.2) | Panic => None end
  | NBatch fired => match envelopeBatcher fired c.1 with Done n => Some (n, c.2) | Panic => None end
  | NReceive => n ← receive 2 c.1; Some (n, c.2)
  | NSend i => match envelopeWriter logging i c.1 c.2 with Done (Some c) => Some c | _ => None end
  end.

Lemma next_step ev c c' : next ev c = Some c' → nstep logging 2 ev c c'.
Proof.
  destruct c as [n w], ev as [es|fired| |i]; simpl.
  - destruct (envelopeReader es n) eqn:E; [|done]. intros [= <-]. by constructor.
  - destruct (envelopeBatcher fired n) eqn:E; [|done]. intros [= <-]. by constructor.
  - destruct (receive 2 n) eqn:E; [|done]. intros [= <-]. by constructor.
  - destruct (envelopeWriter logging i n w) as [[[n' w']|]|] eqn:E; [|done..]. intros [= <-]. by constructor.
Qed.

Lemma next_runs evs evs0 c c' :
  nruns logging 2 [] evs0 c → foldl (λ o ev, o ≫= next ev) (Some c) evs = Some c' →
  nruns logging 2 [] (evs0 ++ evs) c'.
Proof.
  revert evs0 c. induction evs as [|ev evs IH]; intros evs0 c Hr; simpl.
  { intros [= <-]. by rewrite app_nil_r. }
  destruct (next ev c) as [c1|] eqn:E.
  - intros E'. rewrite cons_middle, app_assoc. eapply IH; [|exact E'].
    eapply nruns_step; [exact Hr|by apply next_step].
  - intros E'. exfalso. clear -E'. induction evs as [|e evs IH]; simpl in *; [done|auto].
Qed.

Definition demo_events : list event :=
  [NRead [demo_env 1; demo_env 2]; NBatch false; NBatch true; NReceive; NRead [demo_env 3]; NSend 0; NBatch false].

Lemma nozzle_accounts_witness :
  ∃ n w, nruns logging 2 [] demo_events (n, w) ∧
  passed (λ w, w) n w ⊆+ demo_events ≫= received ∧
  ingressCounter n = Z.of_nat (length (demo_events ≫= received)) ∧
  egressCounter n = sum (accepted <$> w) ∧ errCounter n = sum (refused <$> w) ∧
  Forall (λ p, LocalOnly p.1 = false ∧ batch_sized (batch_of p)) w ∧
  (length (ch n) ≤ BATCH_CHANNEL_SIZE)%nat ∧ (length (envelopes n) < BATCH_CHANNEL_SIZE)%nat ∧
  (∀ fired, is_Some (match envelopeBatcher fired n with Done n' => Some n' | Panic => None end)) ∧
  (∀ es, Z.of_nat (operations demo_events + length es) < MaxUint64 →
    is_Some (match envelopeReader es n with Done n' => Some n' | Panic => None end)).
Proof.
  destruct (foldl (λ o ev, o ≫= next ev) (Some (NewNozzle, [])) demo_events) as [[n w]|] eqn:E.
  - pose proof (next_runs demo_events [] _ _ (nruns_new logging 2 []) E) as Hr.
    exists n, w. split; [exact Hr|].
    apply (nozzle_accounts logging (λ w, w) logging_logged 2 [] demo_events n w eq_refl Hr).
    by vm_compute.
  - exfalso. assert (is_Some (foldl (λ o ev, o ≫= next ev) (Some (NewNozzle, [])) demo_events)) as [? E'].
    { apply (bool_decide_eq_true_1 _). by vm_compute. }
    by rewrite E in E'.
Defined.

(** A full channel drops the open batch, and no counter notices. *)
Fact full_channel_drops d b n :
  (length (ch n) = BATCH_CHANNEL_SIZE)%nat → TryNext (streamBuffer n) = Done (Some b, 0, d) →
  envelopeBatcher true n =
  Done (mkNozzle d [] (ch n) (working n) (ingressCounter n) (egressCounter n) (errCounter n)).
Proof.
  intros Hc E. unfold envelopeBatcher. rewrite E. simpl.
  rewrite decide_True by (rewrite length_app; simpl; lia). unfold hand_over. simpl.
  by rewrite decide_False by lia.
Qed.

(** A selector name outside the map puts a nil selector into the request. *)
Fact unknown_selector_is_nil :
  Selectors (buildBatchReq "s" ["log"; "logs"]%string) = [Some Selector_Log; None].
Proof. reflexivity. Qed.
