(* ===== verification/SyslogServer.v ===== *)
(** * The syslog server, from the listener to the node

    Models the rest of internal/syslog/server.go, the options and [Start] of
    internal/nozzle/nozzle.go and cmd/syslog-server/main.go: the options of the
    server, listening with or without TLS, the accept loop and [Stop], the
    connections with their read deadlines (the parser is OctetCounting.v, the
    listener Syslog.v), and the nozzle (Nozzle.v) that drains the server's stream
    into a node.

    TLS configurations, sockets and the dial options of grpc are parameters; a
    [log.Fatal] and a failed listen end the process.  An open connection accepts
    a deadline. *)

From S2P Require Import Prelude Envelope GoStrings GoFloat Config Syslog OctetCounting.
From S2P Require Proxies Nozzle.

(** ** The server and its options *)

(** [queue] is the channel with the two counters, [l] the listener's address. *)
Record Server := mkServer {
  port : Z;
  l : option string;
  queue : Syslog.Server;
  syslogClientCA : string;
  syslogCert : string;
  syslogKey : string;
  idleTimeout : Z;
  maxMessageLength : Z;
  trimMessageWhitespace : bool;
}.

Definition ServerOption := Server → Server.

Definition NewServer (opts : list ServerOption) : Server :=
  foldl (λ s o, o s)
    (mkServer 0 None Syslog.NewServer "" "" "" (2 * Minute) (65 * 1024) true) opts.

Definition WithServerPort (p : Z) : ServerOption := λ s,
  mkServer p (l s) (queue s) (syslogClientCA s) (syslogCert s) (syslogKey s) (idleTimeout s)
    (maxMessageLength s) (trimMessageWhitespace s).
Definition WithServerMaxMessageLength (n : Z) : ServerOption := λ s,
  mkServer (port s) (l s) (queue s) (syslogClientCA s) (syslogCert s) (syslogKey s) (idleTimeout s)
    n (trimMessageWhitespace s).
Definition WithServerTrimMessageWhitespace (t : bool) : ServerOption := λ s,
  mkServer (port s) (l s) (queue s) (syslogClientCA s) (syslogCert s) (syslogKey s) (idleTimeout s)
    (maxMessageLength s) t.
Definition WithServerTLS (cert key : string) : ServerOption := λ s,
  mkServer (port s) (l s) (queue s) (syslogClientCA s) cert key (idleTimeout s)
    (maxMessageLength s) (trimMessageWhitespace s).
Definition WithSyslogClientCA (ca : string) : ServerOption := λ s,
  mkServer (port s) (l s) (queue s) ca (syslogCert s) (syslogKey s) (idleTimeout s)
    (maxMessageLength s) (trimMessageWhitespace s).
Definition WithIdleTimeout (d : Z) : ServerOption := λ s,
  mkServer (port s) (l s) (queue s) (syslogClientCA s) (syslogCert s) (syslogKey s) d
    (maxMessageLength s) (trimMessageWhitespace s).

Definition set_l (a : option string) (s : Server) : Server :=
  mkServer (port s) a (queue s) (syslogClientCA s) (syslogCert s) (syslogKey s) (idleTimeout s)
    (maxMessageLength s) (trimMessageWhitespace s).
Definition set_queue (q : Syslog.Server) (s : Server) : Server :=
  mkServer (port s) (l s) q (syslogClientCA s) (syslogCert s) (syslogKey s) (idleTimeout s)
    (maxMessageLength s) (trimMessageWhitespace s).

(** [Addr]: empty before the listener is published and after [Stop]. *)
Definition Addr (s : Server) : string := default ""%string (l s).

(** [Stop] forgets the listener it closes; without one it does nothing. *)
Definition Stop (s : Server) : Server := set_l None s.

(** ** Listening *)
Section Listening.
Context {TLSConfig : Type}.
(** [tlsconfig.Build] with the internal service defaults and an identity, then
    [Server], with client authentication when an authority is given. *)
Variable Build_Server : string * string → option string → result string TLSConfig.
Variable net_Listen : string → result string string.
Variable tls_Listen : string → TLSConfig → result string string.

Definition or_fatal {A} (r : result string A) : outcome A :=
  match r with Ok a => Done a | Err _ => Panic end.

Definition buildTLSConfig (s : Server) : outcome TLSConfig :=
  or_fatal (Build_Server (syslogCert s, syslogKey s)
    (if decide (syslogClientCA s ≠ ""%string) then Some (syslogClientCA s) else None)).

(** The first half of [Start]: the listener, over TLS with a key or a certificate. *)
Definition listen (s : Server) : outcome string :=
  let addr := ":" +:+ FormatInt (port s) in
  if decide (syslogKey s ≠ ""%string ∨ syslogCert s ≠ ""%string) then
    tlsConfig ← buildTLSConfig s; or_fatal (tls_Listen addr tlsConfig)
  else or_fatal (net_Listen addr).
End Listening.

(** ** Connections *)
Section Connections.
Variable Machine_Parse : list ascii → result string SyslogMessage.
Variables idle max : Z.

(** The deadline of a reader is moved at the time [now]. *)
Definition setReadDeadline (now : Z) (p : parser) : parser :=
  let s := sc p in let r := rd s in
  mkParser (mkScanner (mkReader (buffered r) (size r) (incoming r) (closes r)
    (Z.max now (clock r)) (now + idle)) (msglen s) (ready s)) (stepback p).

(** A connection: its parser, about to look for a frame, or when it was closed. *)
Inductive connection := Open (p : parser) | Closed (at_ : Z).

(** [handleConnection] up to [Parse]: accepted at [now]. *)
Definition handleConnection (now : Z) (input : list (Z * ascii)) (closes : option Z) : connection :=
  Open (NewParser max input closes now (now + idle)).

(** When the next result is ready, and what it is. *)
Definition next_result (p : parser) : Z * Result :=
  let '(res, _, p) := frame Machine_Parse max p in (clock (rd (sc p)), res).

(** [parseListenerForConnection] returned at [now]: the deadline is moved and the
    parser goes on, or the connection is closed. *)
Definition listened (now : Z) (p : parser) : connection :=
  let '(_, go, p) := frame Machine_Parse max p in
  let p := setReadDeadline now p in
  if go : bool then
    let '(more, p) := resume p in
    if more : bool then Open p else Closed (Z.max now (clock (rd (sc p))))
  else Closed now.

(** The history of a connection: the times a result was ready and the listener
    returned, and the result. *)
Inductive serves (t0 : Z) (input : list (Z * ascii)) (closes : option Z) :
    list (Z * Z * Result) → connection → Prop :=
| serves_accept : serves t0 input closes [] (handleConnection t0 input closes)
| serves_listen h p now ready res :
    serves t0 input closes h (Open p) → next_result p = (ready, res) → ready ≤ now →
    serves t0 input closes (h ++ [(ready, now, res)]) (listened now p).

(** A connection whose listener returns at the given times, or as soon as it can. *)
Fixpoint serve (times : list Z) (c : connection) : list (Z * Z * Result) * connection :=
  match times, c with
  | now :: times, Open p =>
      let '(ready, res) := next_result p in
      let now := Z.max now ready in
      let '(h, c) := serve times (listened now p) in ((ready, now, res) :: h, c)
  | _, _ => ([], c)
  end.

Lemma serve_serves t0 input closes times h c :
  serves t0 input closes h c →
  serves t0 input closes (h ++ (serve times c).1) (serve times c).2.
Proof.
  revert h c. induction times as [|now times IH]; intros h c H; simpl; [by rewrite app_nil_r|].
  destruct c as [p|t]; simpl; [|by rewrite app_nil_r].
  destruct (next_result p) as [ready res] eqn:E.
  pose proof (IH _ _ (serves_listen _ _ _ h p (Z.max now ready) ready res H E ltac:(lia))) as H'.
  destruct (serve times _) as [h' c']. by rewrite <- app_assoc in H'.
Qed.

Lemma serve_accepted t0 input closes times :
  let r := serve times (handleConnection t0 input closes) in serves t0 input closes r.1 r.2.
Proof. apply (serve_serves t0 input closes times []). constructor. Qed.

(** ** The idle timeout *)

(** When the listener last returned. *)
Definition last_time (t0 : Z) (h : list (Z * Z * Result)) : Z := foldl (λ _ e, e.1.2) t0 h.

Lemma last_time_snoc t0 h e : last_time t0 (h ++ [e]) = e.1.2.
Proof. unfold last_time. by rewrite foldl_app. Qed.

(** Each result was ready within [d] of the previous one. *)
Fixpoint within (d t0 : Z) (h : list (Z * Z * Result)) : Prop :=
  match h with
  | [] => True
  | (ready, now, _) :: h => ready ≤ t0 + d ∧ ready ≤ now ∧ within d now h
  end.

Lemma within_snoc d t0 h ready now res :
  within d t0 h → ready ≤ last_time t0 h + d → ready ≤ now → within d t0 (h ++ [(ready, now, res)]).
Proof.
  revert t0. induction h as [|[[r n] x] h IH]; intros t0; simpl; [done|].
  intros (?&?&?) ? ?. split_and!; try done. by apply IH.
Qed.

(** The time a connection has reached. *)
Definition reached (c : connection) : Z :=
  match c with Open p => clock (rd (sc p)) | Closed t => t end.

Definition serves_inv (t0 : Z) (input : list (Z * ascii)) (h : list (Z * Z * Result)) (c : connection) : Prop :=
  within (Z.max 0 idle) t0 h ∧ reached c ≤ last_time t0 h + Z.max 0 idle ∧
  match c with
  | Open p => deadline (rd (sc p)) = last_time t0 h + idle ∧ (length h + left (rd (sc p)) ≤ length input)%nat
  | Closed _ => (length h ≤ S (length input))%nat
  end.

Lemma serves_inv_run t0 input closes h c :
  serves t0 input closes h c → serves_inv t0 input h c.
Proof.
  unfold serves_inv. induction 1 as [|h p now ready res _ (Hw&Hr&Hd&Hl) E Hn].
  { simpl. split_and!; try done; unfold left; simpl; lia. }
  unfold next_result in E. unfold listened.
  pose proof (frame_later Machine_Parse max p) as [Hf Hg].
  destruct (frame Machine_Parse max p) as [[res' go] p1]. simpl in Hf, Hg, Hr.
  injection E as <- <-. destruct Hf as ([Hc1 Hc2]&Hd1&Hl1).
  rewrite last_time_snoc, length_app. cbn [fst snd length reached]. split.
  { apply within_snoc; [done|lia|done]. }
  destruct go.
  - destruct Hg as [Hlt _]; [done|]. set (p2 := setReadDeadline now p1).
    pose proof (resume_later p2) as ([? ?]&?&?). destruct (resume p2) as [[] p3]; simpl in *; unfold left in *; simpl in *; lia.
  - simpl. lia.
Qed.
(** ** Framed messages *)

(** The bytes of framed messages, each with the time it arrives. *)
Definition framed (frames : list (Z * list ascii)) : list (Z * ascii) :=
  frames ≫= λ f, (f.1,.) <$> encode f.2.

(** Each message arrives before the idle timeout has passed since the one before. *)
Fixpoint prompt (t : Z) (frames : list (Z * list ascii)) : Prop :=
  match frames with
  | [] => True
  | (a, _) :: frames => a < t + idle ∧ prompt (Z.max t a) frames
  end.

Lemma prompt_mono t t' frames : t ≤ t' → prompt t frames → prompt t' frames.
Proof.
  revert t t'. induction frames as [|[a m] frames IH]; intros t t' Ht; simpl; [done|].
  intros [? H]. split; [lia|]. eapply IH, H. lia.
Qed.

(** What the server takes: a line of RFC 5424 starts with [<]. *)
Definition acceptable (m : list ascii) : Prop :=
  head m = Some OctetCounting.lt ∧ Z.of_nat (length m) ≤ max.

Section Framed.
Context (t0 : Z) (closes : option Z) (frames : list (Z * list ascii)) (msgs : list SyslogMessage).
Hypothesis idle_pos : 0 < idle.
Hypothesis max_range : 0 ≤ max ≤ MaxInt64 - 20.
Hypothesis frames_prompt : prompt t0 frames.
Hypothesis frames_acceptable : Forall (λ f, acceptable f.2) frames.
Hypothesis frames_parse : Forall2 (λ f msg, Machine_Parse f.2 = Ok msg) frames msgs.

(** The next message has begun. *)
Definition due (k : nat) (p : parser) : Prop :=
  ∃ a m r t, frames !! k = Some (a, m) ∧ begun a m (framed (drop (S k) frames)) r p ∧ fresh r ∧
    a < deadline r ∧ size r = max + 20 ∧ t ≤ clock r ∧ prompt (Z.max t a) (drop (S k) frames).

(** A reader before the messages that are left. *)
Lemma next_frame k s t :
  fresh (rd s) → size (rd s) = max + 20 → t ≤ clock (rd s) → deadline (rd s) = clock (rd s) + idle →
  incoming (rd s) = framed (drop k frames) → prompt t (drop k frames) → (k < length frames)%nat →
  ∃ a m, a < deadline (rd s) ∧ framable max (rd s) m ∧
    incoming (rd s) = ((a,.) <$> encode m) ++ framed (drop (S k) frames) ∧
    (∀ p, begun a m (framed (drop (S k) frames)) (rd s) p → due k p).
Proof.
  intros Hf Hs Ht Hd Hi Hp [[a m] Hk]%lookup_lt_is_Some. rewrite (drop_S _ _ _ Hk) in Hi, Hp.
  destruct Hp as [Ha Hp]. exists a, m.
  assert (a < deadline (rd s)) as Hdead by lia.
  pose proof (Forall_lookup_1 _ _ _ _ frames_acceptable Hk) as [Hlt Hm]. simpl in Hlt, Hm.
  split_and!; [done| |done|].
  - unfold framable. rewrite Hs. split_and!; [done|lia..].
  - intros p Hb. by exists a, m, (rd s), t.
Qed.

Lemma listened_due k p now ready res :
  due k p → next_result p = (ready, res) → ready ≤ now →
  ∃ msg, msgs !! k = Some msg ∧ res = Ok (Some msg) ∧
  match listened now p with
  | Open p => due (S k) p
  | Closed _ => length frames = S k
  end.
Proof.
  intros (a&m&r&t&Hk&Hb&Hf&Ha&Hs&Ht&Hp) E Hn.
  destruct (Forall2_lookup_l _ _ _ _ _ frames_parse Hk) as (msg&Hmsg&Hparse). simpl in Hparse.
  pose proof (Forall_lookup_1 _ _ _ _ frames_acceptable Hk) as [Hlt Hm]. simpl in Hlt, Hm.
  assert (framable max r m) as Hfr by (unfold framable; rewrite Hs; split_and!; [done|lia..]).
  unfold next_result, listened in *. rewrite (frame_message _ _ _ _ _ _ _ _ Hb Hf Ha Hfr Hparse) in *.
  injection E as <- <-. exists msg. split_and!; [done..|]. cbn [sc rd clock taken] in Hn.
  unfold setReadDeadline. cbn [sc rd buffered size incoming OctetCounting.closes clock deadline msglen ready stepback taken].
  rewrite (Z.max_l now) by lia.
  set (s := mkScanner _ 0 false).
  assert (fresh (rd s)) as Hfs by (split; simpl; [done|lia]).
  destruct (decide (S k < length frames)%nat) as [Hlen|Hlen].
  - destruct (next_frame (S k) s (Z.max t a) Hfs Hs) as (a'&m'&?&?&?&Hdue); simpl; try done; [lia|].
    destruct (resume_begun max a' m' (framed (drop (S (S k)) frames)) s Hfs) as (p'&->&Hb'); try done. by apply Hdue.
  - pose proof (lookup_lt_Some _ _ _ Hk). pose proof (resume_end s Hfs) as He.
    cbn [s rd incoming] in He. rewrite drop_ge in He by lia. specialize (He eq_refl).
    destruct (resume (mkParser s None)) as [[] p']; [done|]. lia.
Qed.

Lemma serves_framed h c : (0 < length frames)%nat →
  serves t0 (framed frames) closes h c →
  h.*2 = (Ok ∘ Some) <$> take (length h) msgs ∧
  match c with Open p => due (length h) p | Closed _ => length h = length frames end.
Proof.
  intros Hne. induction 1 as [|h p now ready res _ [Hh Hdue] E Hn].
  - split; [done|]. unfold handleConnection, NewParser, NewReaderSize.
    rewrite wrap64_id by (unfold int64_range, MinInt64, MaxInt64 in *; lia).
    rewrite (Z.max_r 16) by lia.
    set (s := NewScanner _).
    destruct (next_frame 0 s t0) as (a&m&?&?&?&Hd); try done; [split; simpl; [done|lia]|].
    apply Hd. apply (scan_begun max); try done. split; simpl; [done|lia].
  - destruct (listened_due _ _ _ _ _ Hdue E Hn) as (msg&Hm&->&Hc).
    rewrite length_app, Nat.add_1_r. split.
    + rewrite fmap_app, Hh. rewrite (take_S_r _ _ _ Hm), fmap_app. done.
    + destruct (listened now p); [done|by symmetry].
Qed.
End Framed.

(** C32: framed messages that each arrive before the idle timeout has passed since
    the one before are delivered as they parse, each once and in order, whatever
    time the listener takes over each; and the connection stays open exactly until
    the last one. *)
Theorem connection_delivers_messages t0 closes frames msgs h c :
  0 < idle → 0 ≤ max ≤ MaxInt64 - 20 → prompt t0 frames →
  Forall (λ f, acceptable f.2) frames →
  Forall2 (λ f msg, Machine_Parse f.2 = Ok msg) frames msgs → (0 < length frames)%nat →
  serves t0 (framed frames) closes h c →
  h.*2 = (Ok ∘ Some) <$> take (length h) msgs ∧
  match c with Open _ => (length h < length msgs)%nat | Closed _ => length h = length msgs end.
Proof.
  intros Hi Hm Hp Ha Hparse Hne Hs.
  destruct (serves_framed t0 closes frames msgs Hi Hm Hp Ha Hparse h c Hne Hs) as [Hh Hc].
  split; [done|]. rewrite <- (Forall2_length _ _ _ Hparse). destruct c as [p|]; [|done].
  destruct Hc as (a&m&r&t&Hk&_). by eapply lookup_lt_Some.
Qed.

(** C33: whatever a peer sends and however slowly, each result is ready within the
    idle timeout of the listener's previous return (of the accept, for the first),
    the connection is closed within the idle timeout of the last one, and it makes
    at most one result more than its bytes; a frame does not extend the deadline
    while it trickles in. *)
Theorem connection_times_out t0 input closes h c :
  serves t0 input closes h c →
  within (Z.max 0 idle) t0 h ∧
  match c with
  | Open p => (next_result p).1 ≤ last_time t0 h + Z.max 0 idle
  | Closed t => t ≤ last_time t0 h + Z.max 0 idle
  end ∧
  (length h ≤ S (length input))%nat.
Proof.
  intros Hs. destruct (serves_inv_run t0 input closes h c Hs) as (Hw&Hr&Hc).
  split; [done|]. destruct c as [p|t]; [|done]. destruct Hc as [Hd Hl]. split; [|lia].
  unfold next_result. pose proof (frame_later Machine_Parse max p) as [[Hf ?] _].
  destruct (frame Machine_Parse max p) as [[res go] p1]. simpl in *. lia.
Qed.
End Connections.

(** ** A running server

    [Start]'s goroutine: not started, between listening and publishing the
    listener, in the accept loop, or returned. *)
Inductive activity := NotStarted | Listening (addr : string) | Accepting | Returned.

(** [socket]: whether the listener accepts.  The connections are in the order they
    were accepted; [now] is the time of the last event. *)
Record system := mkSystem {
  server : Server;
  starting : activity;
  socket : bool;
  conns : list connection;
  now : Z;
}.

Definition idle_system (s : Server) : system := mkSystem s NotStarted false [] 0.

(** The order a [range] over the structured data visits. *)
Definition visiting := gmap string (gmap string string) → list (string * gmap string string).

Inductive event :=
| EListen (addr : string)
| EPublish
| EAccept (input : list (Z * ascii)) (closes : option Z)
| EAcceptFails
| EStop
| EResult (i : nat) (order : visiting) (ready : Z) (res : Result)
| EStream (ctx_done choice : bool) (out : list Envelope).

Section Running.
Variable Machine_Parse : list ascii → result string SyslogMessage.
Variable listens : Server → outcome string.

(** The steps at time [t].  A step that panics ends the process and has none. *)
Inductive sstep (t : Z) : event → system → system → Prop :=
| step_listen addr s : starting s = NotStarted → listens (server s) = Done addr →
    sstep t (EListen addr) s (mkSystem (server s) (Listening addr) true (conns s) t)
| step_publish addr s : starting s = Listening addr →
    sstep t EPublish s (mkSystem (set_l (Some addr) (server s)) Accepting (socket s) (conns s) t)
| step_accept input closes s : starting s = Accepting → socket s = true →
    sstep t (EAccept input closes) s
      (mkSystem (server s) Accepting true
        (conns s ++ [handleConnection (idleTimeout (server s)) (maxMessageLength (server s)) t input closes]) t)
| step_accept_fails s : starting s = Accepting →
    sstep t EAcceptFails s (mkSystem (Stop (server s)) Returned false (conns s) t)
| step_stop s :
    sstep t EStop s (mkSystem (Stop (server s)) (starting s)
      (if l (server s) then false else socket s) (conns s) t)
| step_result i order ready res p q s : conns s !! i = Some (Open p) →
    next_result Machine_Parse (maxMessageLength (server s)) p = (ready, res) → ready ≤ t →
    parseListener (trimMessageWhitespace (server s)) order res (queue (server s)) = Done (Some q) →
    sstep t (EResult i order ready res) s
      (mkSystem (set_queue q (server s)) (starting s) (socket s)
        (<[i := listened Machine_Parse (idleTimeout (server s)) (maxMessageLength (server s)) t p]> (conns s)) t)
| step_stream ctx_done choice out q s : Stream ctx_done choice (queue (server s)) = Some (out, q) →
    sstep t (EStream ctx_done choice out) s
      (mkSystem (set_queue q (server s)) (starting s) (socket s) (conns s) t).

Inductive sruns (s0 : Server) : list (Z * event) → system → Prop :=
| sruns_new : sruns s0 [] (idle_system s0)
| sruns_step evs s t ev s' : sruns s0 evs s → now s ≤ t → sstep t ev s s' →
    sruns s0 (evs ++ [(t, ev)]) s'.

(** What a run did to the channel, which connections it accepted, and the history
    of each of them. *)
Definition acted (e : Z * event) : list action :=
  match e.2 with
  | EResult _ order _ res => [Listen order res]
  | EStream ctx_done choice out => [Receive ctx_done choice out]
  | _ => []
  end.
Definition accepts (e : Z * event) : list (Z * list (Z * ascii) * option Z) :=
  match e.2 with EAccept input closes => [(e.1, input, closes)] | _ => [] end.
Definition heard (i : nat) (e : Z * event) : list (Z * Z * Result) :=
  match e.2 with
  | EResult j _ ready res => if decide (i = j) then [(ready, e.1, res)] else []
  | _ => []
  end.

(** The settings never change. *)
Definition same_settings (s s' : Server) : Prop :=
  idleTimeout s' = idleTimeout s ∧ maxMessageLength s' = maxMessageLength s ∧
  trimMessageWhitespace s' = trimMessageWhitespace s.

Record system_inv (s0 : Server) (evs : list (Z * event)) (s : system) : Prop := {
  si_settings : same_settings s0 (server s);
  si_queue : Syslog.runs (trimMessageWhitespace s0) (evs ≫= acted) (queue (server s));
  si_conns : length (conns s) = length (evs ≫= accepts);
  si_serves : ∀ i t0 input closes, (evs ≫= accepts) !! i = Some (t0, input, closes) →
    ∃ c, conns s !! i = Some c ∧
      serves Machine_Parse (idleTimeout s0) (maxMessageLength s0) t0 input closes (evs ≫= heard i) c;
  si_strangers : ∀ i, (length (conns s) ≤ i)%nat → evs ≫= heard i = [];
  si_socket : socket s = true → starting s ≠ NotStarted;
}.
#[export] Instance SyslogMessage_eq_dec : EqDecision SyslogMessage.
Proof. solve_decision. Defined.
#[export] Instance Result_eq_dec : EqDecision Result.
Proof. unfold Result. solve_decision. Defined.

(** The step of an event, when it can happen. *)
Definition snext (t : Z) (ev : event) (s : system) : option system :=
  match ev with
  | EListen addr =>
      match starting s, listens (server s) with
      | NotStarted, Done a =>
          if decide (a = addr) then Some (mkSystem (server s) (Listening addr) true (conns s) t) else None
      | _, _ => None
      end
  | EPublish =>
      match starting s with
      | Listening addr => Some (mkSystem (set_l (Some addr) (server s)) Accepting (socket s) (conns s) t)
      | _ => None
      end
  | EAccept input closes =>
      match starting s, socket s with
      | Accepting, true => Some (mkSystem (server s) Accepting true
          (conns s ++ [handleConnection (idleTimeout (server s)) (maxMessageLength (server s)) t input closes]) t)
      | _, _ => None
      end
  | EAcceptFails =>
      match starting s with
      | Accepting => Some (mkSystem (Stop (server s)) Returned false (conns s) t)
      | _ => None
      end
  | EStop => Some (mkSystem (Stop (server s)) (starting s) (if l (server s) then false else socket s) (conns s) t)
  | EResult i order ready res =>
      match conns s !! i with
      | Some (Open p) =>
          if decide (next_result Machine_Parse (maxMessageLength (server s)) p = (ready, res) ∧ ready ≤ t) then
            match parseListener (trimMessageWhitespace (server s)) order res (queue (server s)) with
            | Done (Some q) => Some (mkSystem (set_queue q (server s)) (starting s) (socket s)
                (<[i := listened Machine_Parse (idleTimeout (server s)) (maxMessageLength (server s)) t p]> (conns s)) t)
            | _ => None
            end
          else None
      | _ => None
      end
  | EStream ctx_done choice out =>
      match Stream ctx_done choice (queue (server s)) with
      | Some (out', q) =>
          if decide (out' = out) then Some (mkSystem (set_queue q (server s)) (starting s) (socket s) (conns s) t)
          else None
      | None => None
      end
  end.

Lemma snext_step t ev s s' : snext t ev s = Some s' ↔ sstep t ev s s'.
Proof.
  split.
  - destruct ev as [addr| |input closes| | |i order ready res|cd ch out]; simpl.
    + destruct (starting s) eqn:Es, (listens (server s)) eqn:El; try done. case_decide; [|done].
      subst. intros [= <-]. by constructor.
    + destruct (starting s) eqn:Es; try done. intros [= <-]. by constructor.
    + destruct (starting s) eqn:Es, (socket s) eqn:Ek; try done. intros [= <-]. by constructor.
    + destruct (starting s) eqn:Es; try done. intros [= <-]. by constructor.
    + intros [= <-]. constructor.
    + destruct (conns s !! i) as [[p|]|] eqn:Ei; try done. case_decide as Hd; [|done].
      destruct Hd. destruct (parseListener _ _ _ _) as [[q|]|] eqn:Eq; try done.
      intros [= <-]. by eapply step_result.
    + destruct (Stream _ _ _) as [[out' q]|] eqn:Eq; [|done]. case_decide; [|done]. subst.
      intros [= <-]. by constructor.
  - destruct 1; simpl; simplify_option_eq; try done; by repeat case_match; simplify_eq.
Qed.

(** Events that touch neither the channel nor a connection. *)
Lemma system_inv_quiet s0 evs s t ev s' :
  acted (t, ev) = [] → accepts (t, ev) = [] → (∀ i, heard i (t, ev) = []) →
  same_settings s0 (server s') → queue (server s') = queue (server s) → conns s' = conns s →
  (socket s' = true → starting s' ≠ NotStarted) →
  system_inv s0 evs s → system_inv s0 (evs ++ [(t, ev)]) s'.
Proof.
  intros Ha Hc Hh Hset Eq Ec Hsock [? ? ? Hs Hst ?].
  assert (∀ i, (evs ++ [(t, ev)]) ≫= heard i = evs ≫= heard i) as E
    by (intros i; rewrite snoc_bind, Hh; apply app_nil_r).
  split; try done; rewrite ?snoc_bind, ?Ha, ?Hc, ?app_nil_r, ?Eq, ?Ec; try done.
  - intros i t0 input closes Hi. rewrite E. by apply Hs.
  - intros i Hi. rewrite E. by apply Hst.
Qed.

Lemma system_inv_accept s0 evs s t input closes :
  starting s = Accepting → socket s = true →
  system_inv s0 evs s → system_inv s0 (evs ++ [(t, EAccept input closes)])
    (mkSystem (server s) Accepting true
      (conns s ++ [handleConnection (idleTimeout (server s)) (maxMessageLength (server s)) t input closes]) t).
Proof.
  intros _ _ [Hset ? Hl Hs Hst ?]. pose proof Hset as (Ei&Em&_).
  assert (∀ i, (evs ++ [(t, EAccept input closes)]) ≫= heard i = evs ≫= heard i) as E
    by (intros i; rewrite snoc_bind; apply app_nil_r).
  split; cbn [server conns socket starting]; try done; rewrite ?snoc_bind; cbn [acted accepts snd fst].
  - by rewrite app_nil_r.
  - rewrite !length_app. simpl. lia.
  - intros i t0 input' closes' Hi. rewrite E.
    apply lookup_app_Some in Hi as [Hi|[Hge Hi]].
    + destruct (Hs _ _ _ _ Hi) as (c&Hc&?). exists c. split; [by apply lookup_app_l_Some|done].
    + apply list_lookup_singleton_Some in Hi as [Hi [= <- <- <-]].
      eexists. split; [rewrite lookup_app_r by lia; by replace (i - length (conns s))%nat with O by lia|].
      rewrite Hst by lia. rewrite Ei, Em. constructor.
  - intros i Hi. rewrite E. apply Hst. rewrite length_app in Hi. lia.
Qed.

Lemma system_inv_result s0 evs s t i order ready res p q :
  conns s !! i = Some (Open p) →
  next_result Machine_Parse (maxMessageLength (server s)) p = (ready, res) → ready ≤ t →
  parseListener (trimMessageWhitespace (server s)) order res (queue (server s)) = Done (Some q) →
  system_inv s0 evs s → system_inv s0 (evs ++ [(t, EResult i order ready res)])
    (mkSystem (set_queue q (server s)) (starting s) (socket s)
      (<[i := listened Machine_Parse (idleTimeout (server s)) (maxMessageLength (server s)) t p]> (conns s)) t).
Proof.
  intros Hi E Ht Hq [Hset Hr Hl Hs Hst ?]. pose proof Hset as (Ei&Em&Et).
  rewrite Ei, Em, Et in *.
  split; cbn [server conns socket starting]; try done; rewrite ?snoc_bind; cbn [acted accepts snd fst].
  - by econstructor.
  - by rewrite app_nil_r, length_insert.
  - rewrite app_nil_r. intros j t0 input closes Hj. rewrite snoc_bind. cbn [heard snd fst].
    destruct (Hs _ _ _ _ Hj) as (c&Hc&Hrun). case_decide as Hij.
    + subst j. rewrite Hi in Hc. injection Hc as <-. eexists. split.
      * apply list_lookup_insert_eq. by eapply lookup_lt_Some.
      * by econstructor.
    + exists c. rewrite list_lookup_insert_ne by done. by rewrite app_nil_r.
  - intros j Hj. rewrite length_insert in Hj. rewrite snoc_bind, (Hst j Hj). cbn [heard snd fst].
    rewrite decide_False; [done|]. intros ->. apply lookup_lt_Some in Hi. lia.
Qed.

Lemma system_inv_stream s0 evs s t cd ch out q :
  Stream cd ch (queue (server s)) = Some (out, q) →
  system_inv s0 evs s → system_inv s0 (evs ++ [(t, EStream cd ch out)])
    (mkSystem (set_queue q (server s)) (starting s) (socket s) (conns s) t).
Proof.
  intros Hq [Hset Hr Hl Hs Hst ?].
  assert (∀ i, (evs ++ [(t, EStream cd ch out)]) ≫= heard i = evs ≫= heard i) as E
    by (intros i; rewrite snoc_bind; apply app_nil_r).
  split; cbn [server conns socket starting]; try done; rewrite ?snoc_bind; cbn [acted accepts snd fst].
  - by econstructor.
  - by rewrite app_nil_r.
  - rewrite app_nil_r. intros i t0 input closes Hi. rewrite E. by apply Hs.
  - intros i Hi. rewrite E. by apply Hst.
Qed.

(** The run of the server is a run of its channel, and each connection's history
    one of its own. *)
Lemma sruns_inv s0 evs s :
  queue s0 = Syslog.NewServer → sruns s0 evs s → system_inv s0 evs s.
Proof.
  intros Hq. induction 1 as [|evs s t ev s' _ IH Ht Hstep].
  { split; try done; simpl; rewrite ?Hq; constructor. }
  pose proof IH as [Hset ? ? ? ? Hsock].
  destruct Hstep; [..|by apply system_inv_accept|idtac|idtac|by apply system_inv_result|by apply system_inv_stream].
  all: refine (system_inv_quiet _ _ _ _ _ _ _ _ _ _ _ _ _ IH); try done.
  all: cbn [starting socket]; try (intros; congruence).
  case_match; [done|apply Hsock].
Qed.
End Running.

(** ** The nozzle and its options *)
Section NozzleOptions.
Context {DialOption Client : Type}.
Variable insecure : DialOption.
Variable grpc_NewClient : string → list DialOption → result string Client.
Variable NumCPU : nat.

Record NozzleSettings := mkNozzleSettings {
  addr : string;
  dial_opts : list DialOption;
  shardId : string;
  selectors : list string;
}.

Definition NozzleOption := NozzleSettings → NozzleSettings.

Definition WithDialOpts (opts : list DialOption) : NozzleOption := λ n,
  mkNozzleSettings (addr n) opts (shardId n) (selectors n).
Definition WithShardID (shardId : string) : NozzleOption := λ n,
  mkNozzleSettings (addr n) (dial_opts n) shardId (selectors n).
Definition WithSelectors (selectors : list string) : NozzleOption := λ n,
  mkNozzleSettings (addr n) (dial_opts n) (shardId n) selectors.

Definition NewNozzle (logCacheAddr : string) (opts : list NozzleOption) : NozzleSettings :=
  foldl (λ n o, o n) (mkNozzleSettings logCacheAddr [insecure] "" []) opts.

(** What [Start] sets up: the request for the stream, the client and the number of
    workers; it ends the process when there is no client. *)
Record Started := mkStarted { request : Nozzle.EgressBatchRequest; client : Client; workers : nat }.

Definition StartNozzle (n : NozzleSettings) : outcome Started :=
  client ← or_fatal (grpc_NewClient (addr n) (dial_opts n));
  Done (mkStarted (Nozzle.buildBatchReq (shardId n) (selectors n)) client (2 * NumCPU)).

(** ** cmd/syslog-server *)
Section Main.
Import Config.SyslogConfig.
(** The transport credentials made of the TLS files. *)
Variable tls_transport : TLS.TLS → result string DialOption.

Definition server_options (cfg : Config) : list ServerOption :=
  [WithServerPort (SyslogPort cfg); WithIdleTimeout (SyslogIdleTimeout cfg);
   WithServerMaxMessageLength (SyslogMaxMessageLength cfg);
   WithServerTrimMessageWhitespace (SyslogTrimMessageWhitespace cfg)] ++
  (if decide (SyslogTLSCertPath cfg ≠ ""%string ∨ SyslogTLSKeyPath cfg ≠ ""%string)
   then [WithServerTLS (SyslogTLSCertPath cfg) (SyslogTLSKeyPath cfg)] else []) ++
  (if decide (SyslogClientTrustedCAFile cfg ≠ ""%string)
   then [WithSyslogClientCA (SyslogClientTrustedCAFile cfg)] else []).

Definition nozzle_options (cfg : Config) : outcome (list NozzleOption) :=
  if TLS.HasAnyCredential (LogCacheTLS cfg) then
    transport ← or_fatal (tls_transport (LogCacheTLS cfg)); Done [WithDialOpts [transport]]
  else Done [WithDialOpts [insecure]].

Definition main (cfg : Config) : outcome (Server * Started) :=
  let server := NewServer (server_options cfg) in
  opts ← nozzle_options cfg;
  started ← StartNozzle (NewNozzle (LogCacheAddr cfg) opts);
  Done (server, started).

(** The server [main] starts. *)
Lemma main_server cfg s0 st : main cfg = Done (s0, st) →
  port s0 = SyslogPort cfg ∧ l s0 = None ∧ queue s0 = Syslog.NewServer ∧
  syslogCert s0 = SyslogTLSCertPath cfg ∧ syslogKey s0 = SyslogTLSKeyPath cfg ∧
  syslogClientCA s0 = SyslogClientTrustedCAFile cfg ∧ idleTimeout s0 = SyslogIdleTimeout cfg ∧
  maxMessageLength s0 = SyslogMaxMessageLength cfg ∧
  trimMessageWhitespace s0 = SyslogTrimMessageWhitespace cfg ∧ workers st = (2 * NumCPU)%nat.
Proof.
  unfold main. destruct (nozzle_options cfg) as [opts|]; [|done]. simpl.
  unfold StartNozzle. destruct (or_fatal _) as [c|]; [|done]. simpl. intros [= <- <-].
  unfold NewServer, server_options. rewrite !foldl_app.
  repeat case_decide; simpl; split_and!; try done; symmetry; apply dec_stable; naive_solver.
Qed.
End Main.
End NozzleOptions.

(** ** The whole command *)
Section Command.
Context {W : Type}.
Variable Machine_Parse : list ascii → result string SyslogMessage.
Variable listens : Server → outcome string.
Variable client_Send : Proxies.SendRequest → W → outcome (W * result Proxies.error unit).

(** A step of the server, of the nozzle's batcher and workers, or of its reader,
    which takes what the stream hands out; its context is never done. *)
Inductive mevent :=
| MServer (t : Z) (ev : event)
| MRead (t : Z) (out : list Envelope)
| MNozzle (ev : Nozzle.event).

Definition of_server (e : mevent) : list (Z * event) :=
  match e with
  | MServer t ev => [(t, ev)]
  | MRead t out => [(t, EStream false false out)]
  | MNozzle _ => []
  end.
Definition of_nozzle (e : mevent) : list Nozzle.event :=
  match e with MServer _ _ => [] | MRead _ out => [Nozzle.NRead out] | MNozzle ev => [ev] end.

Inductive mruns (s0 : Server) (workers : nat) (w0 : W) : list mevent → system → Nozzle.Nozzle * W → Prop :=
| mruns_new : mruns s0 workers w0 [] (idle_system s0) (Nozzle.NewNozzle, w0)
| mruns_server evs s c t ev s' :
    mruns s0 workers w0 evs s c → now s ≤ t → acted (t, ev) ≫= streamed = [] →
    sstep Machine_Parse listens t ev s s' →
    mruns s0 workers w0 (evs ++ [MServer t ev]) s' c
| mruns_read evs s c t out s' c' :
    mruns s0 workers w0 evs s c → now s ≤ t →
    sstep Machine_Parse listens t (EStream false false out) s s' →
    Nozzle.nstep client_Send workers (Nozzle.NRead out) c c' →
    mruns s0 workers w0 (evs ++ [MRead t out]) s' c'
| mruns_nozzle evs s c ev c' :
    mruns s0 workers w0 evs s c → Nozzle.received ev = [] →
    Nozzle.nstep client_Send workers ev c c' →
    mruns s0 workers w0 (evs ++ [MNozzle ev]) s c'.

(** Each part runs as it does alone, and the nozzle receives what is streamed. *)
Lemma mruns_parts s0 workers w0 evs s c : mruns s0 workers w0 evs s c →
  sruns Machine_Parse listens s0 (evs ≫= of_server) s ∧
  Nozzle.nruns client_Send workers w0 (evs ≫= of_nozzle) c ∧
  ((evs ≫= of_server) ≫= acted) ≫= streamed = (evs ≫= of_nozzle) ≫= Nozzle.received.
Proof.
  induction 1 as [|evs s c t ev s' _ (H1&H2&H3) Ht Hq Hs|evs s c t out s' c' _ (H1&H2&H3) Ht Hs Hn
    |evs s c ev c' _ (H1&H2&H3) Hq Hn]; [by repeat constructor|..];
    rewrite !(snoc_bind of_server), !(snoc_bind of_nozzle); cbn [of_server of_nozzle]; rewrite ?app_nil_r.
  - split_and!; [by econstructor|done|]. by rewrite snoc_bind, bind_app, Hq, app_nil_r.
  - split_and!; [by econstructor|by econstructor|].
    rewrite !snoc_bind, bind_app, H3. cbn. by rewrite app_nil_r.
  - split_and!; [done|by econstructor|]. by rewrite snoc_bind, Hq, app_nil_r.
Qed.

Variable log : W → list (Proxies.SendRequest * bool).
Hypothesis Send_logged : ∀ r w, ∃ w' res,
  client_Send r w = Done (w', res) ∧ log w' = log w ++ [(r, negb (failed res))].

(** C9: from the sockets to the node, under the configuration: whatever the
    interleaving of connections, stops, the stream and the nozzle's goroutines,
    what was streamed and what waits in the channel are the conversions of the
    results the connections made, in order; the envelopes in requests to the node,
    in the nozzle's hands and in its channel are, with multiplicities, among those
    streamed; every counter counts what it says; every request leaves routing to
    the node and carries 1 to 512 envelopes; and each accepted connection's
    results are those its parser makes of its input, under the configured idle
    timeout and message length. *)
Theorem syslog_to_cache {DialOption Client} (insecure : DialOption)
    (NewClient : string → list DialOption → result string Client) NumCPU tls_transport
    cfg s0 st w0 evs s n w :
  main insecure NewClient NumCPU tls_transport cfg = Done (s0, st) →
  log w0 = [] → mruns s0 (workers st) w0 evs s (n, w) →
  Z.of_nat (Nozzle.operations (evs ≫= of_nozzle)) < MaxUint64 →
  let trim := SyslogConfig.SyslogTrimMessageWhitespace cfg in
  let acts := (evs ≫= of_server) ≫= acted in
  let received := (evs ≫= of_nozzle) ≫= Nozzle.received in
  (received ++ envelopes (queue (server s)) = acts ≫= converted trim ∧
   ingress (queue (server s)) = Z.of_nat (length (acts ≫= converted trim)) ∧
   invalidIngress (queue (server s)) = sum (refused trim <$> acts) ∧
   (length (envelopes (queue (server s))) ≤ channel_capacity)%nat) ∧
  (Nozzle.passed log n w ⊆+ received ∧
   Nozzle.ingressCounter n = Z.of_nat (length received) ∧
   Nozzle.egressCounter n = sum (Nozzle.accepted <$> log w) ∧
   Nozzle.errCounter n = sum (Nozzle.refused <$> log w) ∧
   Forall (λ p, Proxies.LocalOnly p.1 = false ∧ Nozzle.batch_sized (Nozzle.batch_of p)) (log w)) ∧
  ∀ i t0 input closes, ((evs ≫= of_server) ≫= accepts) !! i = Some (t0, input, closes) →
    ∃ c, conns s !! i = Some c ∧
      serves Machine_Parse (SyslogConfig.SyslogIdleTimeout cfg) (SyslogConfig.SyslogMaxMessageLength cfg)
        t0 input closes ((evs ≫= of_server) ≫= heard i) c.
Proof.
  intros Hm H0 Hr Hl trim acts received.
  destruct (main_server _ _ _ _ _ _ _ Hm) as (_&_&Hq&_&_&_&Hidle&Hmax&Htrim&_).
  destruct (mruns_parts _ _ _ _ _ _ Hr) as (Hs&Hn&Hst).
  destruct (sruns_inv _ _ _ _ _ Hq Hs) as [_ Hruns _ Hserves _ _].
  rewrite Hidle, Hmax in Hserves. rewrite Htrim in Hruns.
  destruct (server_accounts _ _ _ Hruns) as (A1&A2&A3&A4). rewrite Hst in A1.
  destruct (Nozzle.nozzle_accounts client_Send log Send_logged _ _ _ _ _ H0 Hn Hl) as (B1&B2&B3&B4&B5&_).
  done.
Qed.
End Command.

(** ** Concrete runs *)
Definition demo_parse (m : list ascii) : result string SyslogMessage :=
  Ok (demo_msg (Some 3) ∅ (Some (of_bytes m))).

Definition demo_frames : list (Z * list ascii) := [(1, bytes "<11>1 a"); (7, bytes "<11>1 bc")].

Definition demo_msgs : list SyslogMessage :=
  [demo_msg (Some 3) ∅ (Some "<11>1 a"%string); demo_msg (Some 3) ∅ (Some "<11>1 bc"%string)].

Lemma connection_delivers_messages_witness :
  let r := serve demo_parse 10 100 [5] (handleConnection 10 100 0 (framed demo_frames) None) in
  serves demo_parse 10 100 0 (framed demo_frames) None r.1 r.2 ∧
  r.1.*2 = (Ok ∘ Some) <$> take (length r.1) demo_msgs ∧
  match r.2 with Open _ => (length r.1 < length demo_msgs)%nat | Closed _ => length r.1 = length demo_msgs end.
Proof.
  pose proof (serve_accepted demo_parse 10 100 0 (framed demo_frames) None [5]) as Hs.
  cbv zeta in Hs |- *.
  split; [exact Hs|].
  apply (connection_delivers_messages demo_parse 10 100 0 None demo_frames demo_msgs _ _);
    [lia|unfold MaxInt64; lia|simpl; lia| |by repeat constructor|simpl; lia|exact Hs].
  repeat constructor; simpl; lia.
Defined.

Lemma connection_times_out_witness :
  let r := serve demo_parse 10 100 [5; 30] (handleConnection 10 100 0 (framed demo_frames) None) in
  serves demo_parse 10 100 0 (framed demo_frames) None r.1 r.2 ∧
  within (Z.max 0 10) 0 r.1 ∧
  match r.2 with
  | Open p => (next_result demo_parse 100 p).1 ≤ last_time 0 r.1 + Z.max 0 10
  | Closed t => t ≤ last_time 0 r.1 + Z.max 0 10
  end ∧
  (length r.1 ≤ S (length (framed demo_frames)))%nat.
Proof.
  pose proof (serve_accepted demo_parse 10 100 0 (framed demo_frames) None [5; 30]) as Hs.
  cbv zeta in Hs |- *.
  split; [exact Hs|].
  exact (connection_times_out demo_parse 10 100 0 (framed demo_frames) None _ _ Hs).
Defined.

(** A whole run, computed. *)
Definition demo_listens (s : Server) : outcome string :=
  listen (TLSConfig := unit) (λ _ _, Ok tt) (λ a, Ok a) (λ a _, Ok a) s.

Definition mnext (e : mevent) (o : option (system * (Nozzle.Nozzle * list (Proxies.SendRequest * bool)))) :
    option (system * (Nozzle.Nozzle * list (Proxies.SendRequest * bool))) :=
  '(s, c) ← o;
  match e with
  | MServer t ev =>
      if decide (now s ≤ t ∧ acted (t, ev) ≫= streamed = [])
      then s ← snext demo_parse demo_listens t ev s; Some (s, c) else None
  | MRead t out =>
      if decide (now s ≤ t) then
        s ← snext demo_parse demo_listens t (EStream false false out) s;
        c ← Nozzle.next (Nozzle.NRead out) c; Some (s, c)
      else None
  | MNozzle ev =>
      if decide (Nozzle.received ev = []) then c ← Nozzle.next ev c; Some (s, c) else None
  end.

Lemma mnext_runs s0 evs o s c :
  foldl (λ o e, mnext e o) o evs = Some (s, c) →
  ∀ evs0, (∀ s1 c1, o = Some (s1, c1) →
    mruns demo_parse demo_listens Nozzle.logging s0 2 [] evs0 s1 c1) →
  mruns demo_parse demo_listens Nozzle.logging s0 2 [] (evs0 ++ evs) s c.
Proof.
  revert o. induction evs as [|e evs IH]; intros o; simpl.
  { intros -> evs0 H. rewrite app_nil_r. by apply H. }
  intros Hf evs0 H. rewrite cons_middle, app_assoc. apply (IH _ Hf). intros s1 c1 E.
  destruct o as [[s2 c2]|]; [|done]. specialize (H s2 c2 eq_refl). destruct e as [t ev|t out|ev]; cbn [mnext mbind option_bind] in E.
  - case_decide as Hd; [|done]. destruct Hd as [Hn Hq].
    destruct (snext _ _ _ _ _) eqn:En; [|done]. injection E as <- <-.
    econstructor; [exact H|done|done|by apply snext_step].
  - case_decide; [|done]. destruct (snext _ _ _ _ _) eqn:En; [|done]. cbn [mbind option_bind] in E.
    destruct (Nozzle.next _ _) as [c3|] eqn:Ez; [|done]. injection E as <- <-.
    econstructor; [exact H|done|by apply snext_step|by apply Nozzle.next_step].
  - case_decide; [|done]. destruct (Nozzle.next _ _) as [c3|] eqn:Ez; [|done]. injection E as <- <-.
    econstructor; [exact H|done|by apply Nozzle.next_step].
Qed.

Definition demo_main : outcome (Server * Started (Client := unit)) :=
  main () (λ _ _, Ok tt) 1 (λ _, Ok ()) SyslogConfig.default_config.

Definition demo_out : Envelope :=
  mkEnvelope 3 "app" "7" ∅ ∅ (Some (Envelope_Log (mkLog "<11>1 a" Log_ERR))).

Definition demo_events : list mevent :=
  [MServer 0 (SyslogServer.EListen ":8888"); MServer 0 EPublish;
   MServer 0 (EAccept (framed demo_frames) None);
   MServer 2 (EResult 0 map_to_list 1 (Ok (Some (demo_msg (Some 3) ∅ (Some "<11>1 a"%string)))));
   MRead 3 [demo_out]; MNozzle (Nozzle.NBatch true); MServer 4 EStop; MServer 4 EAcceptFails;
   MServer 7 (EResult 0 map_to_list 7 (Ok (Some (demo_msg (Some 3) ∅ (Some "<11>1 bc"%string)))));
   MNozzle Nozzle.NReceive; MNozzle (Nozzle.NSend 0)].

Definition demo_server : Server := NewServer (server_options SyslogConfig.default_config).

Definition demo_final := foldl (λ o e, mnext e o) (Some (idle_system demo_server, (Nozzle.NewNozzle, []))) demo_events.

Lemma syslog_to_cache_witness :
  ∃ s n w, mruns demo_parse demo_listens Nozzle.logging demo_server 2 [] demo_events s (n, w) ∧
    length w = 1%nat ∧
    (demo_events ≫= of_nozzle) ≫= Nozzle.received = [demo_out] ∧
    [demo_out] ++ envelopes (queue (server s)) =
      ((demo_events ≫= of_server) ≫= acted) ≫= converted true ∧
    Nozzle.passed (λ w, w) n w ⊆+ [demo_out] ∧
    ∀ i t0 input closes, ((demo_events ≫= of_server) ≫= accepts) !! i = Some (t0, input, closes) →
      ∃ c, conns s !! i = Some c ∧
        serves demo_parse (2 * Minute) (65 * 1024) t0 input closes ((demo_events ≫= of_server) ≫= heard i) c.
Proof.
  destruct demo_final as [[s [n w]]|] eqn:E.
  - assert (mruns demo_parse demo_listens Nozzle.logging demo_server 2 [] demo_events s (n, w)) as Hr.
    { apply (mnext_runs demo_server demo_events _ _ _ E []). intros s1 c1 [= <- <-]. constructor. }
    assert (main () (λ _ _, Ok tt) 1 (λ _, Ok ()) SyslogConfig.default_config =
      Done (demo_server, mkStarted (Nozzle.buildBatchReq "" []) () 2)) as Em by done.
    pose proof (syslog_to_cache demo_parse demo_listens Nozzle.logging (λ w, w) Nozzle.logging_logged
      () (λ _ _, Ok tt) 1 (λ _, Ok ()) SyslogConfig.default_config _ _ [] demo_events s n w
      Em eq_refl Hr ltac:(by vm_compute)) as ((H1&_)&(H2&_)&H3).
    assert (length w = 1%nat) as Hw.
    { assert (match demo_final with Some (_, (_, w)) => length w | None => 0%nat end = 1%nat) as Hl by by vm_compute.
      by rewrite E in Hl. }
    exists s, n, w. split_and!; [exact Hr|exact Hw|reflexivity|exact H1|exact H2|exact H3].
  - exfalso. assert (bool_decide (is_Some demo_final) = true) as Hb by by vm_compute.
    by rewrite E in Hb.
Defined.

(** [Stop] between listening and publishing finds no listener, and the server goes
    on to accept. *)
Fact early_Stop_is_lost :
  let evs := [(0, SyslogServer.EListen ":8888"); (0, EStop); (0, EPublish); (0, EAccept [] None)] in
  is_Some (foldl (λ o e, o ≫= snext demo_parse demo_listens e.1 e.2) (Some (idle_system demo_server)) evs).
Proof. apply (bool_decide_eq_true_1 _). by vm_compute. Qed.

(** A connection goes on after [Stop]: its next message is taken. *)
Fact Stop_leaves_connections :
  In (MServer 4 EStop) demo_events ∧ is_Some demo_final.
Proof.
  split; [simpl; tauto|]. destruct demo_final eqn:E; [done|].
  assert (bool_decide (is_Some demo_final) = true) as Hb by by vm_compute. by rewrite E in Hb.
Qed.

(** With a key or a certificate the server never listens in the clear. *)
Lemma listen_tls {TLSConfig} (Build : string * string → option string → result string TLSConfig) net1 net2 tls s :
  syslogKey s ≠ ""%string ∨ syslogCert s ≠ ""%string → listen Build net1 tls s = listen Build net2 tls s.
Proof. intros H. unfold listen. by rewrite !decide_True. Qed.
