(* ===== verification/Cluster.v ===== *)
(** * A node and a cluster of nodes

    Models [setupRouting] of internal/cache/log_cache.go: the routing table, the
    clients of the peers and the local ones, the two reverse proxies.

    A cluster is the list of the stores of its nodes.  The nodes run with the
    same list of addresses; a connection is known by the address it was made
    for.  A remote call is the handler of the node at that address, so that a
    request can travel from node to node; [fuel] bounds the hops, and the
    theorems show that one is enough.  The batching between nodes (Batching.v)
    only delays and groups what is sent, and is left out here. *)

From S2P Require Import Prelude AvlTree Envelope ExpirationHeap Store StoreInv StoreTruncate StoreGet StoreRefine Routing Proxies.

(** ** The wiring of a node *)
Inductive Client := LocalClient | Remote (addr : string).

(** The clients of both services: the loop appends to the two lists alike. *)
Record Node := mkNode { lookup : RoutingTable; clients : list Client; localIdx : Z }.

Section Wiring.
(** [grpc.NewClient] fails for an address. *)
Variable dial_fails : string → bool.

(** The loop over the addresses from index [i]. *)
Fixpoint register_peers (i nodeIndex : Z) (addrs : list string) (cs : list Client) (local : Z) :
    list Client * Z :=
  match addrs with
  | [] => (cs, local)
  | addr :: addrs =>
      if negb (i =? nodeIndex) then
        if dial_fails addr then register_peers (i + 1) nodeIndex addrs cs local
        else register_peers (i + 1) nodeIndex addrs (cs ++ [Remote addr]) local
      else register_peers (i + 1) nodeIndex addrs (cs ++ [LocalClient]) i
  end.

(** [setupRouting]; a failing routing table ends the process. *)
Definition setupRouting (nodeAddrs : list string) (nodeIndex : Z) : outcome Node :=
  match NewRoutingTable nodeAddrs 1 with
  | Err _ => Panic
  | Ok lookup =>
      let '(cs, local) := register_peers 0 nodeIndex nodeAddrs [] 0 in
      Done (mkNode lookup cs local)
  end.
End Wiring.

(** With every peer dialled, client [i] is the one of address [i]. *)
Definition wired (nodeIndex i : Z) (addrs : list string) : list Client :=
  imap (λ k addr, if decide (i + Z.of_nat k = nodeIndex) then LocalClient else Remote addr) addrs.

Lemma wired_cons nodeIndex i addr addrs :
  wired nodeIndex i (addr :: addrs) =
  (if decide (i = nodeIndex) then LocalClient else Remote addr) :: wired nodeIndex (i + 1) addrs.
Proof.
  unfold wired. simpl. rewrite Z.add_0_r. f_equal. apply imap_ext. intros k a _. simpl.
  by replace (i + Z.of_nat (S k)) with (i + 1 + Z.of_nat k) by lia.
Qed.

Lemma register_peers_wired dial_fails i nodeIndex addrs cs local :
  Forall (λ a, dial_fails a = false) addrs →
  register_peers dial_fails i nodeIndex addrs cs local =
  (cs ++ wired nodeIndex i addrs,
   if decide (i ≤ nodeIndex < i + Z.of_nat (length addrs)) then nodeIndex else local).
Proof.
  intros H. revert i cs local. induction H as [|addr addrs Ha _ IH]; intros i cs local.
  { simpl. rewrite decide_False by lia. unfold wired. simpl. by rewrite app_nil_r. }
  rewrite wired_cons. cbn [register_peers length]. rewrite Ha.
  destruct (Z.eqb_spec i nodeIndex) as [->|Hne]; cbn [negb]; rewrite IH, <- app_assoc; simpl.
  - rewrite (decide_True (P := nodeIndex = nodeIndex)) by done. f_equal. by repeat case_decide; try lia.
  - rewrite (decide_False (P := i = nodeIndex)) by done. f_equal. by repeat case_decide; try lia.
Qed.

(** ** A cluster *)
Abbreviation cluster := (list Store).

Section Cluster.
Variable Sum64String : string → Z.
Variable Hash : Z → Z → Z.
Variable Compile : string → result string (string → bool).
Variable dial_fails : string → bool.
Variable nodeAddrs : list string.
(** The clocks: when an envelope is put and when a read takes its defaults. *)
Variable put_time read_time : Z.

(** The node a connection leads to. *)
Definition peer (addr : string) : outcome nat :=
  fst <$> must (list_find (eq addr) nodeAddrs).

Definition client_at (nd : Node) (idx : Z) : outcome Client := if idx <? 0 then Panic else must (clients nd !! Z.to_nat idx).

(** The lookup handed to the proxies. *)
Definition route (nd : Node) (src : string) : list Z :=
  match Lookup Sum64String Hash (lookup nd) src with Done l => l | Panic => [] end.

(** The ingress client of the node itself. *)
Fixpoint put_all (es : list Envelope) (s : Store) : outcome Store :=
  match es with
  | [] => Done s
  | e :: es => s ← Put s put_time e (Envelope.SourceId e); put_all es s
  end.

Definition local_ingress (n : nat) (r : SendRequest) (w : cluster) :
    outcome (cluster * result error unit) :=
  s ← must (w !! n);
  s ← put_all (default [] (Envelopes r)) s;
  Done (<[n := s]> w, Ok tt).

(** [Send] on a node, which may call other nodes [fuel] deep; the order of a
    forwarded request does not matter, since it is local. *)
Fixpoint node_Send (fuel : nat) (n : nat) (r : SendRequest) (order : list Z) (w : cluster) :
    outcome (cluster * result error unit) :=
  nd ← setupRouting dial_fails nodeAddrs (Z.of_nat n);
  IngressReverseProxy_Send
    (λ idx r w,
       c ← client_at nd idx;
       match c, fuel with
       | LocalClient, _ => local_ingress n r w
       | Remote addr, S fuel => j ← peer addr; node_Send fuel j r [] w
       | Remote _, O => Panic
       end)
    (Z.of_nat (length (clients nd))) (route nd) (localIdx nd) r order w.

Definition local_egress (n : nat) (req : ReadRequest) (w : cluster) :
    outcome (cluster * result error (list Envelope)) :=
  s ← must (w !! n);
  '(s, _, res) ← LocalStoreReader_Read Compile s read_time req;
  Done (<[n := s]> w, res).

Fixpoint node_Read (fuel : nat) (n : nat) (rand : result error nat) (req : ReadRequest) (w : cluster) :
    outcome (cluster * result error (list Envelope)) :=
  nd ← setupRouting dial_fails nodeAddrs (Z.of_nat n);
  EgressReverseProxy_Read
    (λ idx req w,
       c ← client_at nd idx;
       match c, fuel with
       | LocalClient, _ => local_egress n req w
       | Remote addr, S fuel => j ← peer addr; node_Read fuel j rand req w
       | Remote _, O => Panic
       end)
    (Z.of_nat (length (clients nd))) (route nd) (localIdx nd) rand req w.
End Cluster.

(** ** One store *)
Section ClusterSpec.
Context (Sum64String : string → Z) (Hash : Z → Z → Z).
Context (Compile : string → result string (string → bool)).
Context (dial_fails : string → bool) (nodeAddrs : list string) (put_time read_time : Z).
Context (Hhash : hash_in_range Hash) (Hdup : NoDup nodeAddrs).
Context (Hsome : (0 < length nodeAddrs)%nat) (Hmax : Z.of_nat (length nodeAddrs) ≤ MaxInt64).
Context (Hdial : Forall (λ a, dial_fails a = false) nodeAddrs).

(** The node that keeps a source. *)
Definition home (src : string) : nat :=
  Z.to_nat (Hash (Z.of_nat (length nodeAddrs)) (Sum64String src)).

Lemma home_lt src : (home src < length nodeAddrs)%nat.
Proof.
  unfold home. destruct (Hhash (Z.of_nat (length nodeAddrs)) (Sum64String src)); lia.
Qed.

Definition node_of (n : nat) : Node :=
  mkNode (mkRoutingTable (index_addresses 0 nodeAddrs ∅) 1 (Z.of_nat (length nodeAddrs)) [])
    (wired (Z.of_nat n) 0 nodeAddrs) (Z.of_nat n).

Lemma setupRouting_node n :
  (n < length nodeAddrs)%nat → setupRouting dial_fails nodeAddrs (Z.of_nat n) = Done (node_of n).
Proof.
  intros Hn. unfold setupRouting, NewRoutingTable. simpl.
  destruct (Z.ltb_spec (Z.of_nat (length nodeAddrs)) 1); [lia|].
  rewrite register_peers_wired by done. rewrite decide_True by lia. done.
Qed.

Lemma clients_length n : length (clients (node_of n)) = length nodeAddrs.
Proof. apply length_imap. Qed.

Lemma client_at_node n i addr :
  nodeAddrs !! i = Some addr →
  client_at (node_of n) (Z.of_nat i) = Done (if decide (i = n) then LocalClient else Remote addr).
Proof.
  intros Hi. unfold client_at. destruct (Z.ltb_spec (Z.of_nat i) 0); [lia|].
  rewrite Nat2Z.id. simpl. unfold wired. rewrite list_lookup_imap, Hi. simpl.
  by repeat case_decide; try lia.
Qed.

Lemma peer_node i addr : nodeAddrs !! i = Some addr → peer nodeAddrs addr = Done i.
Proof.
  intros Hi. unfold peer. destruct (list_find_elem_of (eq addr) nodeAddrs addr) as [[j a] E].
  - by eapply list_elem_of_lookup_2.
  - done.
  - rewrite E. simpl. apply list_find_Some in E as (Hj&->&_). f_equal. by eapply NoDup_lookup.
Qed.

Lemma route_home n src : route Sum64String Hash (node_of n) src = [Z.of_nat (home src)].
Proof.
  pose proof (home_lt src) as Hh. pose proof (Hhash (Z.of_nat (length nodeAddrs)) (Sum64String src)) as Hr.
  unfold route, Lookup. cbn [lookup node_of replicationFactor hasher_n addresses table].
  rewrite size_index_addresses by (try done; intros; apply lookup_empty).
  rewrite map_size_empty. change (Z.of_nat 0 + ?z) with z. change (seqZ 0 (wrap64 1)) with [0].
  cbn [mapM]. unfold go_rem.
  destruct (Z.eqb_spec (Z.of_nat (length nodeAddrs)) 0); [lia|].
  change (wrap64 (0 * wrap64 1)) with 0. unfold home in *. rewrite Z.add_0_r, wrap64_id.
  - rewrite Z.rem_small by lia. cbn. f_equal. lia.
  - unfold int64_range, MinInt64, MaxInt64 in *. lia.
Qed.

(** ** Writing *)

(** What a batch adds to the entries of a source. *)
Definition put_entries (max fudge : Z) (es : list Envelope) (l : list (Z * Envelope)) :
    list (Z * Envelope) := foldl (λ l e, insert_spec max fudge e l) l es.

Definition of_source (src : string) (es : list Envelope) : list Envelope :=
  filter (λ e, Envelope.SourceId e = src) es.

Lemma put_all_ok es s :
  wf_store s → ∃ s', put_all put_time es s = Done s' ∧ wf_store s' ∧ same_config s s' ∧
    ∀ src, entries (abs s') src =
      put_entries (maxPerSource s) (maxTimestampFudge s) (of_source src es) (entries (abs s) src).
Proof.
  revert s. induction es as [|e es IH]; intros s Hwf; [by exists s|]. cbn [put_all].
  destruct (Put_ok s put_time e (Envelope.SourceId e) Hwf) as (s1&->&Hwf1&Hcfg&Ha&_).
  cbn [mbind outcome_bind]. destruct (IH s1 Hwf1) as (s'&->&Hwf'&Hcfg'&Hs').
  exists s'. split; [done|]. split; [done|]. split; [by etransitivity|]. intros src.
  rewrite Hs'. destruct Hcfg as (->&->&_). rewrite Ha. unfold of_source. rewrite filter_cons.
  unfold put_spec, entries at 1. case_decide as Hd.
  - by rewrite Hd, lookup_insert_eq.
  - by rewrite lookup_insert_ne.
Qed.

(** The stores of a cluster: one per node, in a good state. *)
Definition wf_cluster (max fudge : Z) (w : cluster) : Prop :=
  length w = length nodeAddrs ∧
  Forall (λ s, wf_store s ∧ maxPerSource s = max ∧ maxTimestampFudge s = fudge) w.

(** The entries of a source: those on its home node. *)
Definition cluster_entries (w : cluster) (src : string) : list (Z * Envelope) :=
  entries (abs (default (NewStore 1 1) (w !! home src))) src.

Lemma wf_cluster_lookup max fudge w n :
  wf_cluster max fudge w → (n < length nodeAddrs)%nat →
  ∃ s, w !! n = Some s ∧ wf_store s ∧ maxPerSource s = max ∧ maxTimestampFudge s = fudge.
Proof.
  intros [Hl Hf] Hn. destruct (lookup_lt_is_Some_2 w n) as [s Hs]; [lia|]. exists s.
  split; [done|]. rewrite Forall_forall in Hf. apply Hf. by eapply list_elem_of_lookup_2.
Qed.

(** What one store of a cluster gains. *)
Definition gains (max fudge : Z) (n : nat) (es : list Envelope) (w w' : cluster) : Prop :=
  wf_cluster max fudge w' ∧ (∀ m, m ≠ n → w' !! m = w !! m) ∧
  ∃ s s', w !! n = Some s ∧ w' !! n = Some s' ∧
    ∀ src, entries (abs s') src = put_entries max fudge (of_source src es) (entries (abs s) src).

Lemma local_ingress_gains max fudge n r w :
  wf_cluster max fudge w → (n < length nodeAddrs)%nat →
  ∃ w', local_ingress put_time n r w = Done (w', Ok tt) ∧
    gains max fudge n (default [] (Envelopes r)) w w'.
Proof.
  intros Hw Hn. destruct (wf_cluster_lookup _ _ _ _ Hw Hn) as (s&Hs&Hwf&<-&<-).
  unfold local_ingress. rewrite Hs. simpl.
  destruct (put_all_ok (default [] (Envelopes r)) s Hwf) as (s'&->&Hwf'&(E1&E2&_)&He). simpl.
  eexists. split; [done|]. destruct Hw as [Hl Hf]. split_and!.
  - split; [by rewrite length_insert|]. apply Forall_insert; [done|]. by split_and!.
  - intros m Hm. by rewrite list_lookup_insert_ne.
  - exists s, s'. split_and!; try done. rewrite list_lookup_insert_eq; [done|].
    by apply lookup_lt_Some in Hs.
Qed.

(** A local request on any node goes into its store. *)
Lemma node_Send_local max fudge fuel n es order w :
  wf_cluster max fudge w → (n < length nodeAddrs)%nat →
  ∃ w', node_Send Sum64String Hash dial_fails nodeAddrs put_time fuel n (mkSend true (Some es)) order w =
    Done (w', Ok tt) ∧ gains max fudge n es w w'.
Proof.
  intros Hw Hn. destruct fuel as [|fuel]; cbn [node_Send];
    rewrite setupRouting_node by done; cbn [mbind outcome_bind];
    unfold IngressReverseProxy_Send; cbn [LocalOnly]; unfold call_Send;
    rewrite clients_length; cbn [localIdx node_of];
    destruct (lookup_lt_is_Some_2 nodeAddrs n Hn) as [addr Ha];
    rewrite (proj2 (Z.leb_le 0 (Z.of_nat n))), (proj2 (Z.ltb_lt (Z.of_nat n) _)) by lia;
    cbn [andb]; rewrite (client_at_node n n addr Ha), decide_True by done; cbn [mbind outcome_bind];
    by apply local_ingress_gains.
Qed.

Lemma gains_entries max fudge n es w w' src :
  gains max fudge n es w w' →
  cluster_entries w' src =
  if decide (home src = n) then put_entries max fudge (of_source src es) (cluster_entries w src)
  else cluster_entries w src.
Proof.
  intros (_&Hne&s&s'&Hs&Hs'&He). unfold cluster_entries. case_decide as Hd.
  - rewrite Hd, Hs, Hs'. apply He.
  - by rewrite Hne.
Qed.

(** The clients of a node, as [node_Send] calls them. *)
Definition send_client (fuel n : nat) (idx : Z) (r : SendRequest) (w : cluster) :
    outcome (cluster * result error unit) :=
  c ← client_at (node_of n) idx;
  match c, fuel with
  | LocalClient, _ => local_ingress put_time n r w
  | Remote addr, S fuel =>
      j ← peer nodeAddrs addr;
      node_Send Sum64String Hash dial_fails nodeAddrs put_time fuel j r [] w
  | Remote _, O => Panic
  end.

(** Every client brings a local request to the store of its node. *)
Lemma send_client_gains max fudge fuel n i es w :
  wf_cluster max fudge w → (n < length nodeAddrs)%nat → (i < length nodeAddrs)%nat →
  ∃ w', call_Send (send_client (S fuel) n) (Z.of_nat (length nodeAddrs)) (Z.of_nat i)
    (mkSend true (Some es)) w = Done (w', Ok tt) ∧ gains max fudge i es w w'.
Proof.
  intros Hw Hn Hi. unfold call_Send, send_client.
  rewrite (proj2 (Z.leb_le 0 (Z.of_nat i))), (proj2 (Z.ltb_lt (Z.of_nat i) _)) by lia. cbn [andb].
  destruct (lookup_lt_is_Some_2 nodeAddrs i Hi) as [addr Ha].
  rewrite (client_at_node n i addr Ha). cbn [mbind outcome_bind]. case_decide as Hd.
  - subst. by apply local_ingress_gains.
  - rewrite (peer_node i addr Ha). cbn [mbind outcome_bind]. by apply node_Send_local.
Qed.

Lemma send_all_cluster max fudge fuel n m order w :
  wf_cluster max fudge w → (n < length nodeAddrs)%nat → NoDup order →
  (∀ idx, idx ∈ order → ∃ i, idx = Z.of_nat i ∧ (i < length nodeAddrs)%nat) →
  ∃ w', send_all (send_client (S fuel) n) (Z.of_nat (length nodeAddrs)) m order w = Done w' ∧
    wf_cluster max fudge w' ∧
    ∀ src, cluster_entries w' src =
      if decide (Z.of_nat (home src) ∈ order)
      then put_entries max fudge (of_source src (default [] (m !! Z.of_nat (home src))))
             (cluster_entries w src)
      else cluster_entries w src.
Proof.
  intros Hw Hn Hnd. revert w Hw. induction Hnd as [|idx order Hidx Hnd IH]; intros w Hw Hr.
  { exists w. by split_and!. }
  destruct (Hr idx) as (i&->&Hi); [left|]. cbn [send_all].
  destruct (send_client_gains max fudge fuel n i (default [] (m !! Z.of_nat i)) w Hw Hn Hi)
    as (w1&->&Hg). cbn [mbind outcome_bind].
  destruct (IH w1 (proj1 Hg)) as (w'&->&Hw'&He); [intros; apply Hr; by right|].
  exists w'. split_and!; [done..|]. intros src. rewrite He, (gains_entries _ _ _ _ _ _ src Hg).
  destruct (decide (home src = i)) as [<-|Hne].
  - rewrite (decide_True (P := _ ∈ _ :: _)) by left. by rewrite decide_False by done.
  - assert (Z.of_nat (home src) ∈ Z.of_nat i :: order ↔ Z.of_nat (home src) ∈ order) as Hiff
      by (rewrite elem_of_cons; split; [intros [?|?]; [lia|done]|by right]).
    by rewrite (decide_ext _ _ _ _ Hiff).
Qed.

(** The envelopes of a source all go home. *)
Lemma of_source_home n src batch :
  of_source src (envelopes_for (route Sum64String Hash (node_of n)) (Z.of_nat (home src)) batch) =
  of_source src batch.
Proof.
  unfold of_source, envelopes_for. induction batch as [|e batch IH]; [done|].
  rewrite bind_cons, filter_app, IH, filter_cons. rewrite route_home.
  destruct (decide (Envelope.SourceId e = src)) as [<-|Hne].
  - rewrite filter_cons_True by done. simpl. by rewrite filter_cons_True.
  - rewrite (filter_none _ (replicate _ e)); [done|]. intros x [-> _]%elem_of_replicate. done.
Qed.

Lemma node_Send_spec max fudge n batch order w :
  wf_cluster max fudge w → (n < length nodeAddrs)%nat →
  order ≡ₚ (map_to_list (envelopesByNode (route Sum64String Hash (node_of n)) batch)).*1 →
  ∃ w', node_Send Sum64String Hash dial_fails nodeAddrs put_time 1 n (mkSend false (Some batch)) order w =
    Done (w', Ok tt) ∧ wf_cluster max fudge w' ∧
    ∀ src, cluster_entries w' src =
      put_entries max fudge (of_source src batch) (cluster_entries w src).
Proof.
  intros Hw Hn Ho. set (l := route Sum64String Hash (node_of n)) in *.
  assert (node_Send Sum64String Hash dial_fails nodeAddrs put_time 1 n (mkSend false (Some batch)) order w =
    (w ← send_all (send_client 1 n) (Z.of_nat (length (clients (node_of n)))) (envelopesByNode l batch)
           order w; Done (w, Ok tt))) as ->
    by (cbn [node_Send]; rewrite setupRouting_node by done; reflexivity).
  rewrite clients_length.
  destruct (send_all_cluster max fudge 0 n (envelopesByNode l batch) order w Hw Hn) as (w'&E&Hw'&He).
  - rewrite Ho. apply NoDup_fst_map_to_list.
  - intros idx Hi. rewrite Ho in Hi. apply envelopesByNode_keys in Hi as (e&_&Hi).
    unfold l in Hi. rewrite route_home in Hi. apply list_elem_of_singleton in Hi as ->.
    eexists. split; [done|apply home_lt].
  - exists w'. rewrite E. cbn [mbind outcome_bind]. split_and!; [done..|].
    intros src. rewrite He, envelopesByNode_lookup. unfold l. rewrite of_source_home.
    case_decide as Hd; [done|].
    assert (of_source src batch = []) as ->; [|done]. apply filter_none. intros e He' <-.
    apply Hd. rewrite Ho. apply list_elem_of_fmap.
    destruct (envelopesByNode l batch !! Z.of_nat (home (Envelope.SourceId e))) as [v|] eqn:Ev.
    + exists (Z.of_nat (home (Envelope.SourceId e)), v). split; [done|]. by apply elem_of_map_to_list.
    + pose proof (envelopesByNode_lookup l batch (Z.of_nat (home (Envelope.SourceId e)))) as Hx.
      rewrite Ev in Hx. simpl in Hx.
      assert (e ∈ envelopes_for l (Z.of_nat (home (Envelope.SourceId e))) batch) as Hin.
      { apply elem_of_envelopes_for. split; [done|]. unfold l. rewrite route_home. left. }
      rewrite <- Hx in Hin. by apply elem_of_nil in Hin.
Qed.

(** ** Reading *)

(** What a read of a node's own store gives. *)
Definition reads_own (n : nat) (req : ReadRequest) (w w' : cluster) (res : list Envelope) : Prop :=
  let req' := with_defaults read_time req in
  let full := in_order (Req_Descending req') (answer None (wanted_types req')
    (Req_StartTime req') (Req_EndTime req') (cluster_entries w (Req_SourceId req))) in
  (∀ src, cluster_entries w' src = cluster_entries w src) ∧
  res `sublist_of` full ∧
  (no_fudge (cluster_entries w (Req_SourceId req)) → res = take (Z.to_nat (Req_Limit req')) full).

Definition valid_request (req : ReadRequest) : Prop :=
  known_types (Some (Req_EnvelopeTypes req)) ∧ Req_NameFilter req = ""%string ∧
  (Req_EndTime req = 0 ∨ Req_StartTime req ≤ Req_EndTime req) ∧ 0 ≤ Req_Limit req ≤ 1000.

Lemma with_defaults_source now req : Req_SourceId (with_defaults now req) = Req_SourceId req ∧
  Req_NameFilter (with_defaults now req) = Req_NameFilter req.
Proof. unfold with_defaults. by destruct (Req_EndTime req =? 0); simpl; destruct (_ =? _). Qed.

Lemma local_read_config s req s' req' res :
  wf_store s → LocalStoreReader_Read Compile s read_time req = Done (s', req', res) → same_config s s'.
Proof.
  intros Hwf. unfold LocalStoreReader_Read. destruct (validate req); [by intros [= <- _ _]|].
  destruct (compile_filter _ _) as [nf|]; [|by intros [= <- _ _]].
  simpl store_Get. set (r := with_defaults read_time req).
  destruct (Get_walk s (Req_SourceId r) (Req_StartTime r) (Req_EndTime r) (wanted_types r) nf
    (Req_Limit r) (Req_Descending r) Hwf) as (t&_&->).
  destruct (walk _ _ _ _ _ _) as [[b x]|]; [|done]. simpl. by intros [= <- _ _].
Qed.

Lemma local_egress_spec max fudge n req w :
  wf_cluster max fudge w → (n < length nodeAddrs)%nat → home (Req_SourceId req) = n →
  valid_request req →
  ∃ w' res, local_egress Compile read_time n req w = Done (w', Ok res) ∧
    wf_cluster max fudge w' ∧ reads_own n req w w' res.
Proof.
  intros Hw Hn Hhome (Hk&Hnf&Ht&Hl). pose proof Hw as [Hlen Hf].
  destruct (wf_cluster_lookup _ _ _ _ Hw Hn) as (s&Hs&Hwf&Em&Efu).
  unfold local_egress. rewrite Hs. cbn [must mbind outcome_bind].
  destruct (with_defaults_source read_time req) as [Esrc Ename].
  assert (compile_filter Compile (with_defaults read_time req) = Ok None) as Ec
    by (unfold compile_filter; by rewrite decide_True by congruence).
  assert (ready (S := Store) s) as Hready by exact Hwf.
  destruct (local_read (S := Store) Compile s read_time req None Hready Hk Ht Hl Ec)
    as (s'&res&E&Hwf'&Hc&_&Hsub&Htake).
  destruct (local_read_config _ _ _ _ _ Hwf E) as (E1&E2&_).
  rewrite E. cbn [mbind outcome_bind]. eexists _, res. split; [done|].
  assert (cluster_entries w (Req_SourceId req) = content s (Req_SourceId (with_defaults read_time req)))
    as Econt by (unfold cluster_entries; rewrite Hhome, Hs, Esrc; done).
  split; [|unfold reads_own; rewrite Econt; split_and!; [|done..]].
  - split; [by rewrite length_insert|]. apply Forall_insert; [done|]. by rewrite E1, E2.
  - intros src. unfold cluster_entries. destruct (decide (home src = n)) as [->|Hne].
    + rewrite Hs, list_lookup_insert_eq by (by apply lookup_lt_Some in Hs). simpl.
      change (entries (abs ?x)) with (content x). by rewrite Hc.
    + by rewrite list_lookup_insert_ne by congruence.
Qed.

Lemma outcome_bind_Done {A B} (m : outcome A) (f : A → outcome B) a b :
  m = Done a → f a = Done b → m ≫= f = Done b.
Proof. by intros ->. Qed.

Lemma node_Read_spec max fudge n req w :
  wf_cluster max fudge w → (n < length nodeAddrs)%nat → valid_request req →
  ∃ w' res, node_Read Sum64String Hash Compile dial_fails nodeAddrs read_time 1 n (Ok 0%nat) req w =
    Done (w', Ok res) ∧ wf_cluster max fudge w' ∧ reads_own (home (Req_SourceId req)) req w w' res.
Proof.
  intros Hw Hn Hv. set (h := home (Req_SourceId req)).
  pose proof (home_lt (Req_SourceId req)) as Hh. fold h in Hh.
  destruct (local_egress_spec max fudge h req w Hw Hh eq_refl Hv) as (w'&res&E&Hw'&Hres).
  exists w', res. split; [|done].
  assert (∀ fuel, node_Read Sum64String Hash Compile dial_fails nodeAddrs read_time fuel h (Ok 0%nat) req w =
    Done (w', Ok res)) as Hown.
  { intros fuel. destruct fuel as [|fuel]; cbn [node_Read];
      rewrite setupRouting_node by done; cbn [mbind outcome_bind]; unfold EgressReverseProxy_Read;
      rewrite route_home; fold h; rewrite decide_False by done; cbn [localIdx node_of];
      rewrite decide_True by (apply list_elem_of_singleton; done); unfold call_Read;
      rewrite clients_length, (proj2 (Z.leb_le 0 (Z.of_nat h))), (proj2 (Z.ltb_lt (Z.of_nat h) _)) by lia;
      cbn [andb]; destruct (lookup_lt_is_Some_2 nodeAddrs h Hh) as [addr Ha];
      rewrite (client_at_node h h addr Ha), decide_True by done; exact E. }
  destruct (decide (n = h)) as [->|Hne]; [apply Hown|].
  cbn [node_Read]. rewrite setupRouting_node by done. cbn [mbind outcome_bind].
  unfold EgressReverseProxy_Read. rewrite route_home. fold h. rewrite decide_False by done.
  cbn [localIdx node_of].
  rewrite decide_False by (intros H%list_elem_of_singleton; lia). unfold remoteRead.
  change (must ([Z.of_nat h] !! 0%nat)) with (Done (Z.of_nat h)). cbn [mbind outcome_bind].
  unfold call_Read.
  rewrite clients_length, (proj2 (Z.leb_le 0 (Z.of_nat h))), (proj2 (Z.ltb_lt (Z.of_nat h) _)) by lia.
  cbn [andb]. destruct (lookup_lt_is_Some_2 nodeAddrs h Hh) as [addr Ha].
  rewrite (client_at_node n h addr Ha), decide_False by congruence. cbn [mbind outcome_bind].
  rewrite (peer_node h addr Ha). cbn [mbind outcome_bind].
  by apply (outcome_bind_Done _ _ (w', Ok res)); [apply (Hown 0%nat)|].
Qed.

End ClusterSpec.


(** A peer that cannot be dialled gets no client, and the indices after it
    shift: node 2 of three takes itself for client 2 but has two clients, and
    node 0 sends what belongs to node 1 to node 2. *)
Fact failed_dial_shifts :
  let fails a := bool_decide (a = "n1"%string) in
  let addrs := ["n0"; "n1"; "n2"]%string in
  (clients <$> setupRouting fails addrs 0) = Done [LocalClient; Remote "n2"] ∧
  ((λ nd, (clients nd, localIdx nd)) <$> setupRouting fails addrs 2) =
    Done ([Remote "n0"%string; LocalClient], 2).
Proof. by split. Qed.

(** The node that is not among its own addresses takes client 0 for itself. *)
Fact foreign_index_is_zero :
  (λ nd, (clients nd, localIdx nd)) <$> setupRouting (λ _, false) ["n0"; "n1"]%string 5 =
    Done ([Remote "n0"; Remote "n1"]%string, 0).
Proof. done. Qed.
