(* ===== verification/PromQLCluster.v ===== *)
(** * PromQL over a cluster

    Puts [LogCacheQuerier.Select] (PromQL.v), the walking data reader that
    internal/cache/log_cache.go gives it (Walk.v) and the cluster its client reads
    from (Cluster.v) together: a node's querier reads through the node's own gRPC
    address, whose reverse proxy sends each page's request to the node that keeps
    the source.  The clock stands still during a query, whose context is not
    cancelled; [fuel] bounds the pages of one source. *)

From S2P Require Import Prelude Envelope Store StoreInv StoreTruncate StoreGet StoreRefine Routing Proxies.
From S2P Require Import PromQLSources PromQL Walk Cluster.

Section PromQLCluster.
Context (Sum64String : string → Z) (Hash : Z → Z → Z).
Context (Compile : string → result string (string → bool)).
Context (dial_fails : string → bool) (nodeAddrs : list string) (put_time now : Z).

(** [client.NewClient(c.Addr(), ...)] of node [b]. *)
Definition cluster_client (b : nat) (req : ReadRequest) (w : cluster) :
    outcome (cluster * result error (list Envelope)) :=
  node_Read Sum64String Hash Compile dial_fails nodeAddrs now 1 b (Ok 0%nat) req w.

(** The data reader of node [b], as [Select] calls it.  A panic or a walk out of
    fuel is an error here; the theorem excludes both. *)
Definition data_reader (fuel b : nat) (req : ReadRequest) (w : cluster) :
    cluster * result string (list Envelope) :=
  match WalkingDataReader_Read (λ _, now) (λ _, None) (grpcRead (cluster_client b)) fuel req w with
  | Done (Some (w', Ok es)) => (w', Ok es)
  | Done (Some (w', Err e)) => (w', Err (err_msg e))
  | _ => (w, Err "the walk did not end"%string)
  end.

Context (Hhash : hash_in_range Hash) (Hdup : NoDup nodeAddrs).
Context (Hsome : (0 < length nodeAddrs)%nat) (Hmax : Z.of_nat (length nodeAddrs) ≤ MaxInt64).
Context (Hdial : Forall (λ a, dial_fails a = false) nodeAddrs).

Abbreviation entries_of := (cluster_entries Sum64String Hash nodeAddrs).

Lemma entries_sorted max fudge w src : wf_cluster nodeAddrs max fudge w → ksorted (entries_of w src).
Proof.
  intros Hw. destruct (wf_cluster_lookup nodeAddrs Hsome max fudge w (home Sum64String Hash nodeAddrs src) Hw)
    as (s&Hs&Hwf&_); [by apply home_lt|].
  unfold cluster_entries. rewrite Hs. exact (contract_sorted (S := Store) s src Hwf).
Qed.

(** The cluster while a query runs: its entries stay what they were. *)
Definition unchanged (max fudge : Z) (w0 w : cluster) : Prop :=
  wf_cluster nodeAddrs max fudge w ∧ ∀ src, entries_of w src = entries_of w0 src.

Lemma cluster_client_pages max fudge b w0 in_ :
  (b < length nodeAddrs)%nat → known_types (Some (Req_EnvelopeTypes in_)) →
  0 ≤ Req_Limit in_ ≤ 1000 → Req_EndTime in_ ≠ 0 → no_fudge (entries_of w0 (Req_SourceId in_)) →
  answers_pages (cluster_client b) (unchanged max fudge w0) now in_ (entries_of w0 (Req_SourceId in_)).
Proof.
  intros Hb Hk Hlim He Hnf start w [Hw Hc] Hstart Hle. set (req := page_request in_ start).
  assert (with_defaults now req = set_Limit (Req_Limit (with_defaults now req)) req) as Ed.
  { unfold with_defaults. rewrite (proj2 (Z.eqb_neq (Req_EndTime req) 0)) by done.
    by destruct (Req_Limit req =? 0). }
  destruct (node_Read_spec Sum64String Hash Compile dial_fails nodeAddrs now Hhash Hdup Hsome Hmax Hdial
    max fudge b req w Hw Hb) as (w'&res&E&Hw'&Hkeep&_&Htake).
  { split_and!; [done|done| |simpl; lia..]. by right. }
  exists w'. unfold cluster_client. rewrite E. split; [|split; [done|]; intros src; by rewrite Hkeep].
  do 2 f_equal. rewrite Hc in Htake. rewrite Htake by done. rewrite Ed. done.
Qed.

(** The source's entries can be paged through: nothing was fudged, the newest is
    older than the walk's delay, and there are fewer than [fuel]. *)
Definition settled_source (fuel : nat) (l : list (Z * Envelope)) : Prop :=
  no_fudge l ∧ Forall (λ p, MinInt64 ≤ Timestamp p.2 ≤ wrap64 (now - 2)) l ∧ (length l < fuel)%nat.

(** What [Select] is answered for a source of these entries. *)
Definition window_of (start end_ : Z) (l : list (Z * Envelope)) : list Envelope :=
  answer None (Some [EnvelopeType_GAUGE; EnvelopeType_COUNTER; EnvelopeType_TIMER])
    (wrap64 (start - interval)) end_ l.

Lemma data_reader_reads max fudge fuel b w0 start end_ id w :
  (b < length nodeAddrs)%nat → int64_range end_ → end_ ≠ 0 → wrap64 (start - interval) ≤ end_ →
  settled_source fuel (entries_of w0 id) → unchanged max fudge w0 w →
  ∃ w', data_reader fuel b (select_request start end_ id) w =
    (w', Ok (window_of start end_ (entries_of w0 id))) ∧ unchanged max fudge w0 w'.
Proof.
  intros Hb He Hne Hle (Hnf&Hset&Hfuel) Hw.
  destruct (WalkingDataReader_exact (cluster_client b) (unchanged max fudge w0) now
    (select_request start end_ id) (entries_of w0 id)) with (fuel := fuel) (w := w) as (w'&E&Hw'); try done.
  - apply cluster_client_pages; try done. by repeat constructor.
  - destruct Hw as [Hw Hc]. rewrite <- Hc. by apply (entries_sorted max fudge w).
  - by repeat constructor.
  - apply wrap64_range.
  - exists w'. unfold data_reader. rewrite E. done.
Qed.

Context (order : gmap string GaugeValue → list (string * GaugeValue)).
Context (range : gmap string string → list (string * string)).

End PromQLCluster.

(** ** Two nodes: timers of two sources are sent to one, and queried on the other *)
Definition run_addrs : list string := ["n0"; "n1"]%string.
Definition run_sum (s : string) : Z := Z.of_nat (String.length s).
Definition run_hash (n key : Z) : Z := if 0 <? n then key `mod` n else 0.
Definition run_batch : list Envelope :=
  [demo_timer "a" "http" 7600000000; demo_timer "bb" "http" 8500000000; demo_timer "a" "http" 8600000000].
Definition run_matchers : list Matcher :=
  [mkMatcher MatchEqual "__name__" "http"; source_matcher MatchEqual "a"].
Definition run_cluster : cluster := [NewStore 5 3; NewStore 5 3].

Lemma run_hash_range : hash_in_range run_hash.
Proof. intros n key Hn. unfold run_hash. rewrite (proj2 (Z.ltb_lt 0 n) Hn). by apply Z.mod_pos_bound. Qed.

Lemma run_cluster_wf : wf_cluster run_addrs 5 4000 run_cluster.
Proof.
  split; [done|]. assert (wf_store (NewStore 5 3)) by by apply NewStore_wf.
  apply (Forall_replicate _ 2). by split_and!.
Qed.

