(* ===== verification/QuerySecrecy.v ===== *)
(** * What a query through the proxy can tell

    The other side of QueryAccess.v: not only does a query read granted sources
    alone, its answer is the same whatever the rest of the cluster holds.  Two
    clusters that agree on some sources are followed through the same query: the
    store of a node (Store.v), its reader and reverse proxy (Proxies.v), the calls
    between nodes (Cluster.v), the walk over the pages (Walk.v), [Select]
    (PromQL.v) and the run of the engine (Query.v).  At each level both sides do the
    same and stay in agreement; the theorem puts the running proxy before them.

    Counters and metrics are left out of the agreement: they tell how much was read
    of any source, and no query reads them.  The clock stands still, as in
    PromQLCluster.v. *)

From S2P Require Import Prelude AvlTree Envelope Store Routing Proxies Cluster Walk PromQLCluster.
From S2P Require Import GoStrings GoFloat NetURL AccessLog PromQLSources CAPI Config CFAuth AuthProxy.
From S2P Require Import PromQLMessages Parsing UAA CFAuthCommand PromQL Query QueryAccess.

(** ** Operations that do the same on both sides *)
Section Alike.
Context {W : Type} (R : relation W).

Definition alike {A} (m1 m2 : outcome (W * A)) : Prop :=
  match m1, m2 with
  | Done (w1, a1), Done (w2, a2) => R w1 w2 ∧ a1 = a2
  | Panic, Panic => True
  | _, _ => False
  end.

Lemma alike_done {A} w1 w2 (a : A) : R w1 w2 → alike (Done (w1, a)) (Done (w2, a)).
Proof. by split. Qed.

Lemma alike_bind {A B} (m1 m2 : outcome (W * A)) (k1 k2 : W * A → outcome (W * B)) :
  alike m1 m2 → (∀ w1 w2 a, R w1 w2 → alike (k1 (w1, a)) (k2 (w2, a))) → alike (m1 ≫= k1) (m2 ≫= k2).
Proof. destruct m1 as [[w1 a1]|], m2 as [[w2 a2]|]; try done. intros [HR <-] Hk. by apply Hk. Qed.

(** A step that does not look at the world. *)
Lemma alike_pure {A B} (m : outcome A) (k1 k2 : A → outcome (W * B)) :
  (∀ a, m = Done a → alike (k1 a) (k2 a)) → alike (m ≫= k1) (m ≫= k2).
Proof. destruct m; [|done]. intros Hk. by apply Hk. Qed.

(** The same with a walk that can run out of fuel. *)
Definition alike_walk {A} (m1 m2 : outcome (option (W * A))) : Prop :=
  match m1, m2 with
  | Done (Some (w1, a1)), Done (Some (w2, a2)) => R w1 w2 ∧ a1 = a2
  | Done None, Done None | Panic, Panic => True
  | _, _ => False
  end.

Lemma alike_walk_bind {A B} (m1 m2 : outcome (W * A)) (k1 k2 : W * A → outcome (option (W * B))) :
  alike m1 m2 → (∀ w1 w2 a, R w1 w2 → alike_walk (k1 (w1, a)) (k2 (w2, a))) → alike_walk (m1 ≫= k1) (m2 ≫= k2).
Proof. destruct m1 as [[w1 a1]|], m2 as [[w2 a2]|]; try done. intros [HR <-] Hk. by apply Hk. Qed.
End Alike.

#[export] Hint Resolve alike_done : core.

(** ** A store *)

(** What the index leads to for a source. *)
Definition source_view (s : Store) (src : string) : option (option (Tree Envelope)) :=
  (λ loc, storage_Tree <$> (mem s !! loc)) <$> (storageIndex s !! src).

Definition same_sources (allowed : string → Prop) (s1 s2 : Store) : Prop :=
  ∀ src, allowed src → source_view s1 src = source_view s2 src.

Lemma Get_alike (allowed : string → Prop) s1 s2 src start end_ types nf limit desc :
  allowed src → same_sources allowed s1 s2 →
  alike (same_sources allowed) (Store.Get s1 src start end_ types nf limit desc)
    (Store.Get s2 src start end_ types nf limit desc).
Proof.
  intros Ha Hs. pose proof (Hs src Ha) as Hv. unfold source_view in Hv. unfold Store.Get.
  destruct (storageIndex s1 !! src) as [l1|], (storageIndex s2 !! src) as [l2|]; try done.
  cbn [fmap option_fmap option_map] in Hv. injection Hv as Hv.
  destruct (mem s1 !! l1) as [st1|], (mem s2 !! l2) as [st2|]; try done.
  cbn [fmap option_fmap option_map] in Hv. injection Hv as Hv. cbn [must mbind outcome_bind]. rewrite Hv.
  destruct (_ (Root (storage_Tree st2)) start end_ _ []) as [[b res]|]; [|done]. by split.
Qed.

(** ** A cluster *)
Section Cluster.
Context (Sum64String : string → Z) (Hash : Z → Z → Z).
Context (Compile : string → result string (string → bool)).
Context (dial_fails : string → bool) (nodeAddrs : list string) (now : Z).
Context (allowed : string → Prop).

(** The nodes of both agree on the allowed sources. *)
Definition same_cluster (w1 w2 : cluster) : Prop := Forall2 (same_sources allowed) w1 w2.

Abbreviation alike_c := (alike same_cluster).

Lemma local_egress_alike n req w1 w2 :
  allowed (Req_SourceId req) → same_cluster w1 w2 →
  alike_c (local_egress Compile now n req w1) (local_egress Compile now n req w2).
Proof.
  intros Ha Hw. unfold local_egress.
  pose proof (λ s1 s2, Forall2_lookup_lr _ w1 w2 n s1 s2 Hw) as Hn. pose proof (Forall2_length _ _ _ Hw) as Hl.
  destruct (w1 !! n) as [s1|] eqn:E1, (w2 !! n) as [s2|] eqn:E2; [|exfalso..|done].
  2: { apply lookup_lt_Some in E1. apply lookup_ge_None in E2. lia. }
  2: { apply lookup_lt_Some in E2. apply lookup_ge_None in E1. lia. }
  specialize (Hn s1 s2 eq_refl eq_refl). cbn [must mbind outcome_bind].
  unfold LocalStoreReader_Read. destruct (validate req).
  { split; [|done]. by apply Forall2_insert. }
  destruct (compile_filter _ _) as [nf|]; [|by split; [apply Forall2_insert|]].
  assert (Req_SourceId (with_defaults now req) = Req_SourceId req) as ->.
  { unfold with_defaults. destruct (Req_EndTime req =? 0); cbn; by destruct (_ =? 0). }
  cbn [store_Get Store_StoreReader].
  pose proof (Get_alike allowed s1 s2 (Req_SourceId req) (Req_StartTime (with_defaults now req))
    (Req_EndTime (with_defaults now req)) (wanted_types (with_defaults now req)) nf
    (Req_Limit (with_defaults now req)) (Req_Descending (with_defaults now req)) Ha Hn) as HG.
  destruct (Store.Get s1 _ _ _ _ _ _ _) as [[t1 r1]|], (Store.Get s2 _ _ _ _ _ _ _) as [[t2 r2]|]; try done.
  destruct HG as [Ht <-]. split; [by apply Forall2_insert|done].
Qed.

Lemma EgressReverseProxy_alike client_Read clients l localIdx rand req w1 w2 :
  (∀ idx w1 w2, same_cluster w1 w2 → alike_c (client_Read idx req w1) (client_Read idx req w2)) →
  same_cluster w1 w2 →
  alike_c (EgressReverseProxy_Read client_Read clients l localIdx rand req w1)
    (EgressReverseProxy_Read client_Read clients l localIdx rand req w2).
Proof.
  intros Hc Hw. assert (∀ idx w1 w2, same_cluster w1 w2 →
    alike_c (call_Read client_Read clients idx req w1) (call_Read client_Read clients idx req w2)) as Hcall.
  { intros idx v1 v2 Hv. unfold call_Read. destruct (_ && _); [by apply Hc|done]. }
  unfold EgressReverseProxy_Read. case_decide; [by apply alike_done|]. case_decide; [by apply Hcall|].
  unfold remoteRead. destruct rand as [n|e]; [|by apply alike_done].
  apply alike_pure. intros i _. eapply alike_bind; [by apply Hcall|].
  intros v1 v2 [es|e] Hv; [by apply alike_done|]. destruct (_ =? _); by apply alike_done.
Qed.

Lemma node_Read_alike fuel n rand req w1 w2 :
  allowed (Req_SourceId req) → same_cluster w1 w2 →
  alike_c (node_Read Sum64String Hash Compile dial_fails nodeAddrs now fuel n rand req w1)
    (node_Read Sum64String Hash Compile dial_fails nodeAddrs now fuel n rand req w2).
Proof.
  intros Ha. revert n w1 w2. induction fuel as [|fuel IH]; intros n w1 w2 Hw; cbn [node_Read];
    apply alike_pure; intros nd _; apply EgressReverseProxy_alike; try done;
    intros idx v1 v2 Hv; apply alike_pure; intros [|addr] _; try (by apply local_egress_alike); [done|].
  apply alike_pure. intros j _. by apply IH.
Qed.

(** ** The pages of a source *)
Lemma grpc_request_source src start opts req : grpc_request src start opts = Done req → Req_SourceId req = src.
Proof.
  unfold grpc_request. intros (limit&_&H)%bind_Done. apply bind_Done in H as (end_&_&H).
  by apply bind_Done in H as (nf&_&[= <-]).
Qed.

Lemma walk_loop_alike {V} (ctx_done : cluster → bool) r (v : list Envelope → V → V * bool) fuel src opts c empty st w1 w2 :
  (∀ start w1 w2, same_cluster w1 w2 → alike_c (r src start opts w1) (r src start opts w2)) →
  (∀ w1 w2, ctx_done w1 = ctx_done w2) → (∀ w1 w2, DelayFunc c w1 = DelayFunc c w2) → same_cluster w1 w2 →
  alike_walk same_cluster (walk_loop ctx_done r v fuel src opts c empty st w1)
    (walk_loop ctx_done r v fuel src opts c empty st w2).
Proof.
  intros Hr Hctx. revert c empty st w1 w2. induction fuel as [|fuel IH]; intros c empty st w1 w2 Hd Hw; [done|].
  cbn [walk_loop]. eapply alike_walk_bind; [by apply Hr|]. intros v1 v2 [es|e] Hv.
  - assert (trim c empty v1 es = trim c empty v2 es) as -> by (unfold trim; by rewrite (Hd v1 v2)).
    destruct (last _) as [e|].
    + destruct (v _ st) as [st' more]. destruct (negb more || _); [by split|by apply IH].
    + destruct (OnEmpty _) as [b []]; [by apply IH|by split].
  - rewrite (Hctx v1 v2). destruct (ctx_done v2); [by split|].
    destruct (OnErr _) as [b []]; [by apply IH|by split].
Qed.

Abbreviation reader := (data_reader Sum64String Hash Compile dial_fails nodeAddrs now).

Lemma data_reader_alike fuel b req w1 w2 :
  allowed (Req_SourceId req) → same_cluster w1 w2 →
  same_cluster (reader fuel b req w1).1 (reader fuel b req w2).1 ∧ (reader fuel b req w1).2 = (reader fuel b req w2).2.
Proof.
  intros Ha Hw. unfold data_reader, WalkingDataReader_Read.
  set (r := grpcRead _). set (cd := λ w : cluster, bool_decide _).
  assert (alike_walk same_cluster
    (Walk.Walk (λ _, now) cd r collect_all fuel (Req_SourceId req) (walk_options req) [] w1)
    (Walk.Walk (λ _, now) cd r collect_all fuel (Req_SourceId req) (walk_options req) [] w2)) as Hm.
  { unfold Walk.Walk. apply walk_loop_alike; try done. intros start v1 v2 Hv. unfold r, grpcRead.
    apply alike_pure. intros req' Hreq. apply node_Read_alike; [|done]. by rewrite (grpc_request_source _ _ _ _ Hreq). }
  destruct (Walk.Walk _ _ _ _ _ _ _ _ w1) as [[[v1 a1]|]|], (Walk.Walk _ _ _ _ _ _ _ _ w2) as [[[v2 a2]|]|]; try done.
  by destruct Hm as [Hv ->].
Qed.
End Cluster.

(** ** Readers that do not see the other sources *)
Class Blind {W : Type} (Read : ReadRequest → W → W * result string (list Envelope))
    (R : relation W) (allowed : string → Prop) : Prop :=
  blind_read : ∀ req w1 w2, allowed (Req_SourceId req) → R w1 w2 →
    R (Read req w1).1 (Read req w2).1 ∧ (Read req w1).2 = (Read req w2).2.

#[export] Instance data_reader_blind Sum64String Hash Compile dial_fails nodeAddrs now fuel b allowed :
  Blind (data_reader Sum64String Hash Compile dial_fails nodeAddrs now fuel b) (same_cluster allowed) allowed.
Proof. intros req w1 w2. apply data_reader_alike. Qed.

(** ** The queries *)
Section Queries.
Context (arch : float64 → Z).
Context (order : gmap string GaugeValue → list (string * GaugeValue)).
Context (range : gmap string string → list (string * string)).
Context {W : Type} (Read : ReadRequest → W → W * result string (list Envelope)).
Context (R : relation W) (allowed : string → Prop) `{!Blind Read R allowed}.
Context (ids_order : gset string → list string).
Context (visit : gmap string seriesData → list (string * seriesData)).
Context (NewInstantQuery : EngineOpts → string → Z → result string EngineRun).
Context (NewRangeQuery : EngineOpts → string → Z → Z → Z → result string EngineRun).
Context (ParseExpr : string → result string Expr).
Context (ids_order_elements : ∀ s, ids_order s ≡ₚ base.elements s).
Context (Hengine : engine_reads_selectors NewInstantQuery NewRangeQuery ParseExpr).

(** Results that are equal, with worlds in relation. *)
Abbreviation same p1 p2 := (R p1.1 p2.1 ∧ p1.2 = p2.2).

Lemma read_sources_same start end_ metric ls ids b w1 w2 :
  Forall allowed ids → R w1 w2 →
  same (read_sources order Read start end_ metric ls ids b w1) (read_sources order Read start end_ metric ls ids b w2).
Proof.
  intros Hids. revert b w1 w2. induction Hids as [|id ids Hid _ IH]; intros b w1 w2 Hw; cbn [read_sources]; [done|].
  destruct (blind_read (select_request start end_ id) w1 w2 Hid Hw) as [Hw' Hr].
  destruct (Read _ w1) as [v1 r1], (Read _ w2) as [v2 r2]. cbn [fst snd] in Hw', Hr. subst r2.
  destruct r1 as [batch|err]; [by apply IH|done].
Qed.

Lemma Select_same start end_ ll w1 w2 :
  (∀ id, id ∈ selected_ids ll → allowed id) → R w1 w2 →
  same (Select order range Read start end_ ids_order visit ll w1) (Select order range Read start end_ ids_order visit ll w2).
Proof.
  intros Hall Hw. unfold Select. pose proof (select_params_ids ll) as Hids.
  destruct (select_params ll) as [[metric ls] ids]. cbn [snd] in Hids. subst ids. case_decide; [done|].
  destruct (read_sources_same start end_ metric ls (ids_order (selected_ids ll)) ∅ w1 w2) as [Hv Hr]; [|done|].
  { apply Forall_forall. intros id Hi. apply Hall. by rewrite ids_order_elements, elem_of_elements in Hi. }
  destruct (read_sources _ _ _ _ _ _ _ _ w1) as [v1 r1], (read_sources _ _ _ _ _ _ _ _ w2) as [v2 r2].
  cbn [fst snd] in Hv, Hr. subst r2. by destruct r1.
Qed.

Lemma Exec_same sels kind run closureErr w1 w2 :
  asks_within sels kind run → (∀ ll id, ll ∈ sels → id ∈ selected_ids ll → allowed id) → R w1 w2 →
  let x1 := Exec order range Read ids_order visit run closureErr w1 in
  let x2 := Exec order range Read ids_order visit run closureErr w2 in
  R x1.1.1 x2.1.1 ∧ x1.1.2 = x2.1.2 ∧ x1.2 = x2.2.
Proof.
  intros Hrun Hall. revert closureErr w1 w2.
  induction Hrun as [err|v Hv|mint maxt ll k Hll _ IH]; intros closureErr w1 w2 Hw; cbn [Exec]; [done..|].
  destruct (Select_same (Querier_start mint) (Querier_start maxt) ll w1 w2 (λ id, Hall ll id Hll) Hw) as [Hv Hs].
  destruct (Select _ _ _ _ _ _ _ _ w1) as [v1 s1], (Select _ _ _ _ _ _ _ _ w2) as [v2 s2].
  cbn [fst snd] in Hv, Hs. subst s2. by apply IH.
Qed.

(** The same answer, and worlds in relation. *)
Definition same_answer {A} (m1 m2 : outcome (PromQL * W * result string A)) : Prop :=
  ∃ q w1 w2 res, m1 = Done (q, w1, res) ∧ m2 = Done (q, w2, res) ∧ R w1 w2.

Lemma finish_same {A} sels kind (convert : EngineResult → outcome (result string A)) run q w1 w2 :
  asks_within sels kind run → (∀ ll id, ll ∈ sels → id ∈ selected_ids ll → allowed id) →
  (∀ r, (∀ v, r = Ok v → kind v) → ∃ res, convert r = Done res) → R w1 w2 →
  same_answer (finish_query order range Read ids_order visit convert run q w1)
    (finish_query order range Read ids_order visit convert run q w2).
Proof.
  intros Hrun Hall Hconv Hw. unfold finish_query.
  destruct (Exec_same sels kind run None w1 w2 Hrun Hall Hw) as (Hv&Hc&Hr).
  pose proof (Exec_kind order range Read ids_order visit sels kind run None w1 Hrun) as Hk.
  destruct (Exec _ _ _ _ _ run None w1) as [[v1 c1] r1], (Exec _ _ _ _ _ run None w2) as [[v2 c2] r2].
  cbn [fst snd] in Hv, Hc, Hr, Hk. subst c2 r2. unfold same_answer. destruct c1 as [err|]; [by eauto 10|].
  destruct (Hconv r1 Hk) as [res ->]. cbn [mbind outcome_bind]. by eauto 10.
Qed.

Lemma InstantQuery_same ids now req q w1 w2 :
  ExtractSourceIds ParseExpr (IReq_Query req) = Ok ids → (∀ id, id ∈ ids → allowed id) → R w1 w2 →
  same_answer (InstantQuery arch order range Read ids_order visit NewInstantQuery now req q w1)
    (InstantQuery arch order range Read ids_order visit NewInstantQuery now req q w2).
Proof.
  intros Hx Hall Hw. unfold InstantQuery.
  destruct (if decide _ then _ else _) as [t|err]; [|by exists q, w1, w2, (Err err)].
  destruct (NewInstantQuery _ _ t) as [run|err] eqn:En; [|by exists q, w1, w2, (Err err)].
  destruct (proj1 Hengine _ _ _ _ En) as (e&He&Hrun).
  eapply finish_same; [done| |apply instant_converts|done].
  intros ll id Hll Hid. eapply Hall, extracted_selected; done.
Qed.

Lemma RangeQuery_same ids req q w1 w2 :
  ExtractSourceIds ParseExpr (RReq_Query req) = Ok ids → (∀ id, id ∈ ids → allowed id) → R w1 w2 →
  same_answer (RangeQuery arch order range Read ids_order visit NewRangeQuery req q w1)
    (RangeQuery arch order range Read ids_order visit NewRangeQuery req q w2).
Proof.
  intros Hx Hall Hw. unfold RangeQuery.
  destruct (ParseStep _ _) as [step|err]; [|by eexists q, w1, w2, _].
  destruct (ParseTime _ (RReq_Start req)) as [t1|err]; [|by eexists q, w1, w2, _].
  destruct (ParseTime _ (RReq_End req)) as [t2|err]; [|by eexists q, w1, w2, _].
  destruct (NewRangeQuery _ _ t1 t2 step) as [run|err] eqn:En; [|by eexists q, w1, w2, _].
  destruct (proj2 Hengine _ _ _ _ _ _ En) as (e&He&Hrun).
  eapply finish_same; [done| |apply range_converts|done].
  intros ll id Hll Hid. eapply Hall, extracted_selected; done.
Qed.
End Queries.

(** ** From the proxy to the cluster *)
Section Secrecy.
Import Config.CFAuthProxyConfig.
Context {CertPool : Type}.
Context (url_Parse : string → result string CAPI.URL) (url_String : CAPI.URL → string).
Context (ReadFile : string → result string string) (AppendCertsFromPEM : string → option CertPool).
Context (tls_Client : string → option string → option string).
Context (OpenFile write_error pem_Decode : string → option string).
Context (ParsePKIXPublicKey : string → result string (option string)).
Context (jose_headers : string → result string (gmap string header)).
Context (jose_verify : string → PublicKey → result string string).
Context (arch : float64 → Z) (chi : Request → route).
Context (ParseExpr : string → result string Expr) (print_expr : Expr → string).
Context (order : gset string → list string).
Context (uaa_answer : HTTPClient → list exchange → KeysRequest → result string Response).
Context (capi_answer : HTTPClient → list exchange → CAPI.URL → string → result string Response).
Context (meta_answer : option CertPool → list exchange → result string (gmap string MetaInfo)).
Context (times : list exchange → Z * Z * Z) (fuel : nat).
Context (answer : CAPI.URL → option CertPool → Request → reply).

Abbreviation proxy_main := (CFAuthCommand.main url_Parse url_String ReadFile AppendCertsFromPEM tls_Client
  OpenFile write_error pem_Decode ParsePKIXPublicKey jose_headers jose_verify arch chi ParseExpr print_expr
  order uaa_answer capi_answer meta_answer times fuel).
Abbreviation proxy_runs := (CFAuthCommand.runs url_Parse url_String pem_Decode ParsePKIXPublicKey ParseExpr
  uaa_answer times answer).

(** The hypotheses of CFAuthCommand.v. *)
Context (order_elements : ∀ s, order s ≡ₚ base.elements s).
Context (rewritten_parses : ∀ s e sets, ParseExpr s = Ok e →
  let rewritten := rewrite_selectors (replaceInMatchers sets) e in
  ∃ e', ParseExpr (print_expr rewritten) = Ok e' ∧ Forall2 (≡ₚ) (selectors rewritten) (selectors e')).
Context (chi_path : ∀ r q, chi (set_query r q) = chi r).
Context (guids_free : ∀ http h u token body href rs,
  capi_answer http h u token = Ok (mkResponse 200 body) → decode_page body = Ok (href, rs) →
  Forall (λ r, free_of bar (Guid r)) rs).

(** A cluster whose nodes query it, and their engine. *)
Context (Sum64String : string → Z) (Hash : Z → Z → Z).
Context (Compile : string → result string (string → bool)).
Context (dial_fails : string → bool) (nodeAddrs : list string) (clock : Z) (pages : nat).
Context (gauges : gmap string GaugeValue → list (string * GaugeValue)).
Context (range : gmap string string → list (string * string)).
Context (ids_order : gset string → list string).
Context (visit : gmap string seriesData → list (string * seriesData)).
Context (NewInstantQuery : EngineOpts → string → Z → result string EngineRun).
Context (NewRangeQuery : EngineOpts → string → Z → Z → Z → result string EngineRun).
Context (ids_order_elements : ∀ s, ids_order s ≡ₚ base.elements s).
Context (Hengine : engine_reads_selectors NewInstantQuery NewRangeQuery ParseExpr).

Abbreviation reads_cluster := (data_reader Sum64String Hash Compile dial_fails nodeAddrs clock pages).
Abbreviation instant b := (InstantQuery arch gauges range (reads_cluster b) ids_order visit NewInstantQuery).
Abbreviation range_query b := (RangeQuery arch gauges range (reads_cluster b) ids_order visit NewRangeQuery).

End Secrecy.

(** ** A run: the query of QueryAccess.v, with and without logs of another app *)

(** The first of two nodes holds a timer of the user's app; with [others], of another's too. *)
Definition secret_timer (src : string) : Envelope := demo_timer src "" 7600000000.
Definition secret_store (others : bool) : Store :=
  match (s ← Store.Put (NewStore 5 3) 7 (secret_timer "g1") "g1";
         if others then Store.Put s 7 (secret_timer "others") "others" else Done s) with
  | Done s => s
  | Panic => NewStore 5 3
  end.
Definition secret_stores (others : bool) : cluster := [secret_store others; NewStore 5 3].
Definition secret_node (r : Request) (w : cluster) :
    outcome (PromQL * cluster * result string PromQL_InstantQueryResult) :=
  InstantQuery (λ _, 0) map_to_list map_to_list
    (data_reader run_sum run_hash (λ _, Err ""%string) (λ _, false) run_addrs 60000000000 5 1)
    base.elements map_to_list (λ _, query_engine) 7
    (mkInstantRequest (Values_Get (ParseQuery (AccessLog.RawQuery r)) "query") "1") (New 10) w.

(** Every token that verifies has the same payload, of no scope. *)
Lemma secret_not_admin h dt :
  vouched Some (λ b, Ok (Some b)) demo_parse_headers run_verify (λ _, 0) h "tok" dt → ¬ admin dt.
Proof.
  intros (headers&kid&key&payload&_&_&_&Hv&Hd). destruct key as [s|s]; [|done].
  cbn [run_verify] in Hv. case_decide; [|done]. injection Hv as <-.
  vm_compute in Hd. injection Hd as <-. intros [Hs|Hs]; by apply not_elem_of_nil in Hs.
Qed.

(** What was found in a run is the app alone. *)
Definition finds_g1 (x : exchange) : bool :=
  match x with
  | AskedCAPI u token (Ok (mkResponse 200 _)) => bool_decide (token = "tok" ∧ CAPI.Path u = "https://cc/v3/apps/g1")
  | _ => true
  end.
Lemma secret_granted h src : forallb finds_g1 h = true → approved run_parse "https://cc" h "tok" src → src = "g1"%string.
Proof.
  intros Hh (token&src'&Happ&path&u&body&Hpath&[= <-]&Hin). rewrite forallb_forall in Hh.
  apply list_elem_of_In, Hh in Hin. cbn [finds_g1] in Hin. apply bool_decide_eq_true_1 in Hin as [-> Hp].
  apply (inj (String.append "tok")) in Happ as ->.
  apply elem_of_cons in Hpath as [->|[->|Hpath%not_elem_of_nil]%elem_of_cons]; [|done..].
  vm_compute in Hp. congruence.
Qed.

Lemma secret_same (allowed : string → Prop) :
  (∀ src, allowed src → src = "g1"%string) → same_cluster allowed (secret_stores true) (secret_stores false).
Proof.
  intros Ha. constructor; [|by constructor]. intros src ->%Ha. by vm_compute.
Qed.

Definition secret_points (m : outcome (PromQL * cluster * result string PromQL_InstantQueryResult)) : option (list string) :=
  match m with
  | Done (_, _, Ok (mkInstant (Some (InstantQueryResult_Matrix (mkMatrix l))))) =>
      Some (Point_Time <$> (l ≫= Series_Points))
  | _ => None
  end.

Definition secret_checks : bool :=
  match run_to_query with
  | Done (_, _, w) =>
      match Received w with
      | r :: _ =>
          match query_chi r with QueryRoute => true | _ => false end &&
          bool_decide (Header_Get (Header r) "Authorization" = "tok"%string) &&
          forallb finds_g1 (history (Auth w)) &&
          bool_decide (secret_points (secret_node r (secret_stores true)) = Some ["7.000"%string])
      | [] => false
      end
  | Panic => false
  end.
Lemma secret_checks_value : secret_checks = true.
Proof. vm_eq. Qed.

