(* ===== verification/LogCache.v ===== *)
(** * A node, from its configuration to its store

    Models internal/cache/log_cache.go and the part of cmd/log-cache/main.go that
    configures it: [New] and its options, and [Start], which chooses the memory
    analyzer, makes the consultant and the store and wires the node (Cluster.v).
    The listener and the options of grpc are parameters; the server's goroutine is
    in NodeServer.v. *)

From S2P Require Import Prelude Envelope FloatRound Parsing Memory Config.
From S2P Require Import AvlTree ExpirationHeap Store StoreInv StoreTruncate StoreRefine Cluster.
From S2P Require Query.

(** ** The two analyzers behind one interface *)
#[export] Instance sum_Memory {A B} `{Memory A, Memory B} : Memory (A + B) := λ r a,
  match a with
  | inl a => let '(a, p) := memory r a in (inl a, p)
  | inr b => let '(b, p) := memory r b in (inr b, p)
  end.

Definition Analyzer : Type := StaticMemoryAnalyzer + MemoryAnalyzer.

Section LogCache.
Context {DialOption ServerOption : Type}.
Variable insecure : DialOption.

Record LogCache := mkLogCache {
  serverOpts : list ServerOption;
  closing : Z;
  maxPerSource : Z;
  memoryLimitPercent : float64;
  memoryLimit : Z;
  queryTimeout : Z;
  truncationInterval : Z;
  prunesPerGC : Z;
  addr : string;
  dialOpts : list DialOption;
  extAddr : string;
  nodeAddrs : list string;
  nodeIndex : Z;
}.

Definition LogCacheOption := LogCache → LogCache.

Definition with_nodeAddrs (l : list string) (c : LogCache) : LogCache :=
  mkLogCache (serverOpts c) (closing c) (maxPerSource c) (memoryLimitPercent c) (memoryLimit c)
    (queryTimeout c) (truncationInterval c) (prunesPerGC c) (addr c) (dialOpts c) (extAddr c) l
    (nodeIndex c).

Definition New (opts : list LogCacheOption) : LogCache :=
  let cache := foldl (λ c o, o c)
    (mkLogCache [] 0 100000 (float_of_int 50) 0 (10 * Second) (1 * Second) 3 ":8080" [insecure] "" [] 0)
    opts in
  if decide (length (nodeAddrs cache) = 0%nat) then with_nodeAddrs [addr cache] cache else cache.

Definition WithMaxPerSource (size : Z) : LogCacheOption := λ c,
  mkLogCache (serverOpts c) (closing c) size (memoryLimitPercent c) (memoryLimit c)
    (queryTimeout c) (truncationInterval c) (prunesPerGC c) (addr c) (dialOpts c) (extAddr c)
    (nodeAddrs c) (nodeIndex c).
Definition WithTruncationInterval (interval : Z) : LogCacheOption := λ c,
  mkLogCache (serverOpts c) (closing c) (maxPerSource c) (memoryLimitPercent c) (memoryLimit c)
    (queryTimeout c) interval (prunesPerGC c) (addr c) (dialOpts c) (extAddr c) (nodeAddrs c) (nodeIndex c).
Definition WithPrunesPerGC (consecutivePrunes : Z) : LogCacheOption := λ c,
  mkLogCache (serverOpts c) (closing c) (maxPerSource c) (memoryLimitPercent c) (memoryLimit c)
    (queryTimeout c) (truncationInterval c) consecutivePrunes (addr c) (dialOpts c) (extAddr c)
    (nodeAddrs c) (nodeIndex c).
Definition WithAddr (addr : string) : LogCacheOption := λ c,
  mkLogCache (serverOpts c) (closing c) (maxPerSource c) (memoryLimitPercent c) (memoryLimit c)
    (queryTimeout c) (truncationInterval c) (prunesPerGC c) addr (dialOpts c) (extAddr c)
    (nodeAddrs c) (nodeIndex c).
Definition WithServerOpts (opts : list ServerOption) : LogCacheOption := λ c,
  mkLogCache opts (closing c) (maxPerSource c) (memoryLimitPercent c) (memoryLimit c)
    (queryTimeout c) (truncationInterval c) (prunesPerGC c) (addr c) (dialOpts c) (extAddr c)
    (nodeAddrs c) (nodeIndex c).
Definition WithMemoryLimitPercent (memoryPercent : float64) : LogCacheOption := λ c,
  mkLogCache (serverOpts c) (closing c) (maxPerSource c) memoryPercent (memoryLimit c)
    (queryTimeout c) (truncationInterval c) (prunesPerGC c) (addr c) (dialOpts c) (extAddr c)
    (nodeAddrs c) (nodeIndex c).
Definition WithMemoryLimit (memoryLimit : Z) : LogCacheOption := λ c,
  mkLogCache (serverOpts c) (closing c) (maxPerSource c) (memoryLimitPercent c) memoryLimit
    (queryTimeout c) (truncationInterval c) (prunesPerGC c) (addr c) (dialOpts c) (extAddr c)
    (nodeAddrs c) (nodeIndex c).
Definition WithQueryTimeout (queryTimeout : Z) : LogCacheOption := λ c,
  mkLogCache (serverOpts c) (closing c) (maxPerSource c) (memoryLimitPercent c) (memoryLimit c)
    queryTimeout (truncationInterval c) (prunesPerGC c) (addr c) (dialOpts c) (extAddr c)
    (nodeAddrs c) (nodeIndex c).
Definition WithClustered (nodeIndex : Z) (nodeAddrs : list string) (opts : list DialOption) :
    LogCacheOption := λ c,
  mkLogCache (serverOpts c) (closing c) (maxPerSource c) (memoryLimitPercent c) (memoryLimit c)
    (queryTimeout c) (truncationInterval c) (prunesPerGC c) (addr c) opts (extAddr c)
    nodeAddrs nodeIndex.

(** ** Start *)
(** What runs after [Start]: the wired node, its store and consultant, the
    PromQL querier. *)
Record Running := mkRunning {
  node : Node;
  store : Store;
  mc : PruneConsultant Analyzer;
  querier : Query.PromQL;
}.

(** [net.Listen] fails, or gives the address it listens on. *)
Variable Listen : string → result string string.
Variable dial_fails : string → bool.

Definition new_consultant (c : LogCache) : PruneConsultant Analyzer :=
  let analyzer := if negb (memoryLimit c =? 0) then inl (NewStaticMemoryAnalyzer (memoryLimit c))
                  else inr NewMemoryAnalyzer in
  NewPruneConsultant 2 (memoryLimitPercent c) analyzer.

(** The head of [setupRouting] and the querier at its end; Cluster.v has the wiring
    between.  A failure to listen or to build the table ends the process. *)
Definition setupRouting (s : Store) (p : PruneConsultant Analyzer) (c : LogCache) :
    outcome (LogCache * Running) :=
  match Listen (addr c) with
  | Err _ => Panic
  | Ok lis =>
      let c := mkLogCache (serverOpts c) (closing c) (maxPerSource c) (memoryLimitPercent c) (memoryLimit c)
        (queryTimeout c) (truncationInterval c) (prunesPerGC c) (addr c) (dialOpts c)
        (if decide (extAddr c = "") then lis else extAddr c) (nodeAddrs c) (nodeIndex c) in
      nd ← Cluster.setupRouting dial_fails (nodeAddrs c) (nodeIndex c);
      Done (c, mkRunning nd s p (Query.New (queryTimeout c)))
  end.

(** [store.NewStore] hands its gauge to the consultant. *)
Definition Start (c : LogCache) : outcome (LogCache * Running) :=
  let p := new_consultant c in
  let store := NewStore (maxPerSource c) (prunesPerGC c) in
  let p := SetMemoryReporter (S754_zero false) p in
  setupRouting store p c.

(** [Close] marks the node before it stops the server, whose error is then ignored. *)
Definition Close (c : LogCache) : LogCache :=
  mkLogCache (serverOpts c) (wrap64 (closing c + 1)) (maxPerSource c) (memoryLimitPercent c) (memoryLimit c)
    (queryTimeout c) (truncationInterval c) (prunesPerGC c) (addr c) (dialOpts c) (extAddr c)
    (nodeAddrs c) (nodeIndex c).

(** ** cmd/log-cache *)
Section Main.
Import Config.LogCacheConfig.
(** The credentials made of the TLS files for clients and for the server, if they
    can be read, and the other options. *)
Variable tls_transport : TLS.TLS → outcome DialOption.
Variable tls_server : TLS.TLS → outcome (list ServerOption).
Variable max_recv : DialOption.

Definition main_options (cfg : Config) : outcome (list LogCacheOption) :=
  let opts := [WithAddr (Addr cfg);
               WithMemoryLimitPercent (float_of_int (MemoryLimitPercent cfg));
               WithMemoryLimit (MemoryLimit cfg);
               WithMaxPerSource (MaxPerSource cfg);
               WithQueryTimeout (QueryTimeout cfg);
               WithTruncationInterval (TruncationInterval cfg);
               WithPrunesPerGC (PrunesPerGC cfg)] in
  '(transport, server) ← (if TLS.HasAnyCredential (cfg_TLS cfg) then
      transport ← tls_transport (cfg_TLS cfg);
      server ← tls_server (cfg_TLS cfg);
      Done (transport, [WithServerOpts server])
    else Done (insecure, []));
  Done (opts ++ server ++ [WithClustered (NodeIndex cfg) (NodeAddrs cfg) [transport; max_recv]]).

Definition main_cache (cfg : Config) : outcome (LogCache * Running) :=
  opts ← main_options cfg; Start (New opts).
End Main.
End LogCache.

(** ** The memory limit *)

(** The consultant after a run of questions: readings and counts. *)
Definition consulted (arch : float64 → Z) (asked : list (reading * Z)) (pc : PruneConsultant Analyzer) :
    PruneConsultant Analyzer :=
  foldl (λ pc q, (GetQuantityToPrune arch q.1 q.2 pc).1) pc asked.

(** What the analyzer of a configured limit reports as the total. *)
Definition total_memory (limit : Z) (r : reading) : Z := if limit =? 0 then Total r else limit.

(** The consultant of a node: its limits stay as configured. *)
Definition limits (limit : Z) (percent : float64) (pc : PruneConsultant Analyzer) : Prop :=
  percentToFill pc = percent ∧
  match m pc with inl a => limit ≠ 0 ∧ Memory.limit a = limit | inr _ => limit = 0 end.

Lemma limits_consulted arch asked limit percent pc :
  limits limit percent pc → limits limit percent (consulted arch asked pc).
Proof.
  revert pc. induction asked as [|[r n] asked IH]; intros pc H; [done|]. apply IH.
  destruct H as [Hp Hm]. unfold GetQuantityToPrune. destruct (m pc) as [a|a]; by split.
Qed.

Lemma limits_memory limit percent pc r :
  limits limit percent pc → ∃ a, memory r (m pc) = (a, (HeapInuse r, total_memory limit r)).
Proof.
  intros [_ Hm]. unfold total_memory, memory, sum_Memory. destruct (m pc) as [a|a]; simpl.
  - destruct Hm as [Hl <-]. rewrite (proj2 (Z.eqb_neq _ _)) by done. by eexists.
  - subst limit. by eexists.
Qed.

Section Limit.
Context {DialOption ServerOption : Type}.
Variable insecure max_recv : DialOption.
Variable Listen : string → result string string.
Variable dial_fails : string → bool.
Variable tls_transport : TLS.TLS → outcome DialOption.
Variable tls_server : TLS.TLS → outcome (list ServerOption).
Abbreviation main := (main_cache insecure Listen dial_fails tls_transport tls_server max_recv).

Lemma main_cache_spec cfg c run : main cfg = Done (c, run) →
  store run = NewStore (LogCacheConfig.MaxPerSource cfg) (LogCacheConfig.PrunesPerGC cfg) ∧
  limits (LogCacheConfig.MemoryLimit cfg) (float_of_int (LogCacheConfig.MemoryLimitPercent cfg)) (mc run) ∧
  Cluster.setupRouting dial_fails (if decide (length (LogCacheConfig.NodeAddrs cfg) = 0%nat)
      then [LogCacheConfig.Addr cfg] else LogCacheConfig.NodeAddrs cfg)
    (LogCacheConfig.NodeIndex cfg) = Done (node run).
Proof.
  unfold main_cache. intros (opts&Ho&Hs)%bind_Done. unfold main_options in Ho.
  apply bind_Done in Ho as ([transport server]&Ht&[= <-]).
  assert (server = [] ∨ ∃ o, server = [WithServerOpts o]) as Hserver.
  { destruct (TLS.HasAnyCredential _); [|injection Ht as _ <-; by left].
    apply bind_Done in Ht as (t&_&Ht). apply bind_Done in Ht as (o&_&[= _ <-]). eauto. }
  unfold Start, setupRouting in Hs. destruct (Listen _) as [lis|]; [|done].
  apply bind_Done in Hs as (nd&Hn&[= _ <-]).
  unfold New in *. destruct Hserver as [->|[o ->]]; simpl in *;
    (destruct (decide (length (LogCacheConfig.NodeAddrs cfg) = 0%nat)) as [E|E]; simpl in *;
     (split; [done|split; [|done]])).
  all: unfold limits, new_consultant; simpl;
    destruct (Z.eqb_spec (LogCacheConfig.MemoryLimit cfg) 0) as [->|]; by split_and!.
Qed.

End Limit.

(** ** A concrete node *)
Definition demo_config : LogCacheConfig.Config :=
  LogCacheConfig.mkConfig ":8080" (10 * Second) 50 1000 2 (1 * Second) 1 0 [] TLS.none (metrics_on 6060) false.
Definition demo_main : outcome (LogCache (DialOption := unit) (ServerOption := unit) * Running) :=
  main_cache tt (λ a, Ok a) (λ _, false) (λ _, Panic) (λ _, Panic) tt demo_config.
Definition demo_reading : reading := mkReading 0 0 1000.
Definition demo_order : list (string * nat) := [("b"%string, 1%nat); ("a"%string, 0%nat)].


(** The truncation removes one of the three envelopes. *)
Example half_of_three :
  (GetQuantityToPrune (λ _, 0) demo_reading 3
     (new_consultant (DialOption := unit) (ServerOption := unit) (New tt
        [WithMemoryLimit 1000; WithMemoryLimitPercent (float_of_int 50)]))).2 = 1.
Proof. by vm_compute. Qed.

(** With no address configured the node is the only one; its data is all local. *)
Example standalone :
  match demo_main with
  | Done (_, run) => clients (node run) = [LocalClient] ∧ localIdx (node run) = 0
  | Panic => False
  end.
Proof. by vm_compute. Qed.
