(* ===== verification/NodeServer.v ===== *)
(** * The gRPC server of a node

    Models the goroutine at the end of [setupRouting] and [Close] of
    internal/cache/log_cache.go, which share a node's gRPC server, with the parts
    of the vendored google.golang.org/grpc/server.go they meet: registration,
    [Serve] and [GracefulStop].  A step is one call, or one critical section of a
    call that another may interrupt; the calls a client makes are in Cluster.v.

    [perform] is [None] where no goroutine can take the step and a panic where the
    process ends with a fatal log line. *)

From S2P Require Import Prelude.

Inductive service := Ingress | Egress | PromQLQuerier.
#[export] Instance service_eq_dec : EqDecision service.
Proof. solve_decision. Defined.

(** ** The vendored server *)
(** [lis] is false once the listeners are closed and the map of them is nil. *)
Record Server := mkServer { services : list service; serve : bool; lis : bool; quit : bool }.
Definition NewServer : Server := mkServer [] false true false.

(** [RegisterService] ends the process once the server serves and when the service
    is already there. *)
Definition register (sd : service) (s : Server) : outcome Server :=
  if serve s then Panic
  else if decide (sd ∈ services s) then Panic
  else Done (mkServer (services s ++ [sd]) (serve s) (lis s) (quit s)).

Definition ErrServerStopped : string := "grpc: the server has been stopped".

Definition set_serve (s : Server) : Server := mkServer (services s) true (lis s) (quit s).
(** [stop] fires [quit] and then, under the mutex, closes the listeners. *)
Definition fire_quit (s : Server) : Server := mkServer (services s) (serve s) (lis s) true.
Definition closeListenersLocked (s : Server) : Server := mkServer (services s) (serve s) false (quit s).

(** ** The goroutine and the calls of [Close] *)
Inductive goroutine :=
| Registering (todo : list service)
| Accepting
| Returned (err : option string)
| Ended.

(** A [Close] has added to [closing], or has fired [quit], or is done with the
    listeners. *)
Inductive close_call := Marked | Quitting | Stopped.

Record node := mkNode {
  closing : Z;
  server : Server;
  serving : goroutine;
  closes : list close_call;
}.

Definition started : node := mkNode 0 NewServer (Registering [Ingress; Egress; PromQLQuerier]) [].

Inductive action :=
| Register
| Serve
| AcceptFails (e : string)
| CheckClosing
| Close
| FireQuit (i : nat)
| CloseListeners (i : nat).

Definition perform (n : node) (a : action) : option (outcome node) :=
  match a with
  | Register =>
      match serving n with
      | Registering (sd :: todo) =>
          Some (s ← register sd (server n); Done (mkNode (closing n) s (Registering todo) (closes n)))
      | _ => None
      end
  | Serve =>
      match serving n with
      | Registering [] =>
          let s := set_serve (server n) in
          Some (Done (mkNode (closing n) s
            (if lis s then Accepting else Returned (Some ErrServerStopped)) (closes n)))
      | _ => None
      end
  | AcceptFails e =>
      match serving n with
      | Accepting =>
          Some (Done (mkNode (closing n) (server n)
            (Returned (if quit (server n) then None else Some e)) (closes n)))
      | _ => None
      end
  | CheckClosing =>
      match serving n with
      | Returned err =>
          Some (if bool_decide (err ≠ None) && (closing n =? 0) then Panic
                else Done (mkNode (closing n) (server n) Ended (closes n)))
      | _ => None
      end
  | Close => Some (Done (mkNode (wrap64 (closing n + 1)) (server n) (serving n) (closes n ++ [Marked])))
  | FireQuit i =>
      match closes n !! i with
      | Some Marked => Some (Done (mkNode (closing n) (fire_quit (server n)) (serving n) (<[i := Quitting]> (closes n))))
      | _ => None
      end
  | CloseListeners i =>
      match closes n !! i with
      | Some Quitting =>
          Some (Done (mkNode (closing n) (closeListenersLocked (server n)) (serving n) (<[i := Stopped]> (closes n))))
      | _ => None
      end
  end.

Inductive runs : node → list action → node → Prop :=
| runs_nil n : runs n [] n
| runs_cons n a n' acts n'' : perform n a = Some (Done n') → runs n' acts n'' → runs n (a :: acts) n''.

(** What holds between any two steps. *)
Record inv (k : nat) (n : node) : Prop := {
  inv_closing : closing n = Z.of_nat (length (closes n));
  inv_bound : (length (closes n) ≤ k)%nat;
  inv_stopped : lis (server n) = false ∨ quit (server n) = true → closes n ≠ [];
  inv_services : match serving n with
    | Registering todo => services (server n) ++ todo = [Ingress; Egress; PromQLQuerier] ∧
                          serve (server n) = false
    | _ => services (server n) = [Ingress; Egress; PromQLQuerier]
    end;
}.

(** How the step panics, if it does. *)
Definition fatal_listener (n : node) (a : action) : Prop :=
  a = CheckClosing ∧ closes n = [] ∧ closing n = 0 ∧ ∃ e, serving n = Returned (Some e).

Lemma insert_not_nil {A} i (x : A) l : l ≠ [] → <[i := x]> l ≠ [].
Proof. destruct l, i; done. Qed.

(** The service to register is not there yet. *)
Lemma register_next l sd todo :
  l ++ sd :: todo = [Ingress; Egress; PromQLQuerier] → sd ∉ l.
Proof.
  intros E. assert (NoDup (l ++ sd :: todo)) as H by (rewrite E; apply (bool_decide_eq_true_1 _); by vm_compute).
  apply NoDup_app in H as (_&Hd&_). intros Hin. apply (Hd sd Hin). set_solver.
Qed.

Lemma perform_inv k n a r : Z.of_nat k < MaxInt64 → inv k n → perform n a = Some r →
  match r with Done n' => inv (S k) n' | Panic => fatal_listener n a end.
Proof.
  intros Hk [Hc Hb Hs Hv] E. destruct a; simpl in E.
  - destruct (serving n) as [[|sd todo]| | |] eqn:Eg; try done. destruct Hv as [Hv Hse].
    unfold register in E. rewrite Hse, decide_False in E by (by eapply register_next).
    injection E as <-. split; simpl; try done; [lia|]. by rewrite <- (assoc_L (++)).
  - destruct (serving n) as [[|sd todo]| | |] eqn:Eg; try done. destruct Hv as [Hv _]. rewrite app_nil_r in Hv.
    injection E as <-. split; simpl; try done; [lia|]. by destruct (lis (server n)).
  - destruct (serving n) as [| | |] eqn:Eg; try done. injection E as <-. split; simpl; try done. lia.
  - destruct (serving n) as [| |err|] eqn:Eg; try done. injection E as <-.
    destruct (Z.eqb_spec (closing n) 0) as [E0|]; [|rewrite andb_false_r; split; simpl; try done; lia].
    destruct err as [e|]; simpl; [|split; simpl; try done; lia].
    rewrite Hc in E0. apply (inj Z.of_nat _ 0%nat), nil_length_inv in E0.
    split_and!; [done|done| |by exists e]. by rewrite Hc, E0.
  - injection E as <-. split; simpl; try done.
    + rewrite length_app, wrap64_id; [simpl; lia|]. unfold int64_range, MinInt64, MaxInt64 in *. lia.
    + rewrite length_app. simpl. lia.
    + intros _. by destruct (closes n).
  - destruct (closes n !! i) as [[]|] eqn:Ei; try done. injection E as <-.
    assert (closes n ≠ []) as Hne by (by destruct (closes n)).
    split; simpl; rewrite ?length_insert; try done; [lia|]. intros _. by apply insert_not_nil.
  - destruct (closes n !! i) as [[]|] eqn:Ei; try done. injection E as <-.
    assert (closes n ≠ []) as Hne by (by destruct (closes n)).
    split; simpl; rewrite ?length_insert; try done; [lia|]. intros _. by apply insert_not_nil.
Qed.

Lemma started_inv : inv 0 started.
Proof. split; simpl; try done. intros [?|?]; done. Qed.

Lemma runs_inv acts : ∀ k n n', Z.of_nat (k + length acts) < MaxInt64 → inv k n → runs n acts n' →
  inv (k + length acts) n'.
Proof.
  induction acts as [|a acts IH]; intros k n n' Hk Hi Hr; inversion Hr as [|? ? n1 ? ? E Hr']; subst.
  - by rewrite Nat.add_0_r.
  - simpl in Hk |- *. rewrite <- Nat.add_succ_comm. apply (IH _ n1); [lia| |done].
    apply (perform_inv k n a (Done n1)); [lia|done|done].
Qed.

(** The calls of [Close] are never forgotten. *)
Lemma perform_no_close n a n' : perform n a = Some (Done n') → closes n' = [] → a ≠ Close ∧ closes n = [].
Proof.
  intros E Hn. assert (a ≠ Close) as Ha.
  { intros ->. injection E as <-. simpl in Hn. by destruct (closes n). }
  split; [done|]. destruct a; simpl in E; try done.
  - destruct (serving n) as [[|sd todo]| | |]; try done. injection E as E.
    by apply bind_Done in E as (s&_&[= <-]).
  - destruct (serving n) as [[|sd todo]| | |]; try done. by injection E as <-.
  - destruct (serving n); try done. by injection E as <-.
  - destruct (serving n); try done. destruct (_ && _); [done|]. by injection E as <-.
  - destruct (closes n !! i) as [[]|] eqn:Ei; try done. injection E as <-. simpl in Hn.
    by apply (f_equal length) in Hn; rewrite length_insert in Hn; apply nil_length_inv in Hn.
  - destruct (closes n !! i) as [[]|] eqn:Ei; try done. injection E as <-. simpl in Hn.
    by apply (f_equal length) in Hn; rewrite length_insert in Hn; apply nil_length_inv in Hn.
Qed.

Lemma runs_no_close n acts n' : runs n acts n' → closes n' = [] → Forall (λ a, a ≠ Close) acts ∧ closes n = [].
Proof.
  induction 1 as [|n a n' acts n'' E _ IH]; [by split|].
  intros (HF&(?&?)%(perform_no_close _ _ _ E))%IH. by split; [constructor|].
Qed.

(** C37: a node's server goroutine and any number of calls of [Close], in any
    interleaving: the process ends with a fatal line only when the listener failed
    while [Close] had never been called; and the server accepts connections only
    once its three services are registered, each once. *)
Theorem Close_never_crashes acts n a :
  Z.of_nat (length acts) < MaxInt64 → runs started acts n →
  (perform n a = Some Panic → fatal_listener n a ∧ Forall (λ a, a ≠ Close) acts) ∧
  (serving n = Accepting → services (server n) = [Ingress; Egress; PromQLQuerier]).
Proof.
  intros Hlen Hr. pose proof (runs_inv acts 0 _ _ Hlen started_inv Hr) as Hi.
  split.
  - intros E. pose proof (perform_inv _ n a Panic Hlen Hi E) as H. split; [done|]. by apply (runs_no_close _ _ _ Hr), H.
  - intros E. destruct Hi as [_ _ _ Hv]. by rewrite E in Hv.
Qed.

(** [Close] comes first: [Serve] fails, and the error is ignored; a failing listener of
    a node that nobody closed ends the process. *)
Fixpoint run_all (n : node) (acts : list action) : option (outcome node) :=
  match acts with
  | [] => Some (Done n)
  | a :: acts => match perform n a with Some (Done n) => run_all n acts | r => r end
  end.
Lemma node_run_all acts : ∀ n n', run_all n acts = Some (Done n') → runs n acts n'.
Proof.
  induction acts as [|a acts IH]; intros n n'; simpl; [intros [= <-]; constructor|].
  destruct (perform n a) as [[n1|]|] eqn:E; try done. intros H. econstructor; eauto.
Qed.

Definition early_close : list action :=
  [Register; Close; Register; FireQuit 0; CloseListeners 0; Register; Serve].
Definition early_closed : node :=
  match run_all started early_close with Some (Done n) => n | _ => started end.

Lemma Close_never_crashes_witness :
  serving early_closed = Returned (Some ErrServerStopped) ∧ perform early_closed CheckClosing ≠ Some Panic.
Proof.
  split; [by vm_compute|]. intros H.
  destruct (Close_never_crashes early_close early_closed CheckClosing) as [Hc _].
  - by vm_compute.
  - apply node_run_all. by vm_compute.
  - destruct (Hc H) as [(_&Hn&_) _]. vm_compute in Hn. discriminate.
Defined.

Example failing_listener :
  run_all started [Register; Register; Register; Serve; AcceptFails "closed"; CheckClosing] = Some Panic.
Proof. by vm_compute. Qed.
