(* ===== verification/Commands.v ===== *)
(** * The four commands

    Models what the main functions under cmd/ have in common, and puts it before
    the parts each of them starts: loading the configuration, the loggers, the
    endpoint of the metrics (the vendored go-metric-registry), the profiler, the
    uptime gauge and the wait for a signal.  The parts are in LogCache.v,
    Gateway.v, SyslogServer.v and CFAuthCommand.v, the metrics they register in
    Metrics.v, the lines of the loggers in LogWriter.v.

    [log.Fatalf] and [panic] end the process: [Panic].  What the code registers
    piece by piece while it starts its parts is registered here at once. *)

From S2P Require Import Prelude Envelope GoStrings Json GoFloat FloatRound Parsing LogWriter Metrics Config.
From S2P Require Import AccessLog CAPI UAA PromQLSources AuthProxy CFAuthCommand.
From S2P Require Cluster LogCache Gateway SyslogServer.

(** ** Loggers *)
Inductive Output := Discard | Stderr | ToLogWriter.
Record Logger := mkLogger { out : Output; prefix : string; flags : Z }.

(** [Ldate | Ltime] and [Lmicroseconds]. *)
Definition LstdFlags : Z := 3.
Definition Lmicroseconds : Z := 4.

Definition new_logger (UseRFC339 : bool) (prefix : string) : Logger :=
  if UseRFC339 then mkLogger ToLogWriter prefix 0 else mkLogger Stderr prefix LstdFlags.
(** The standard logger after [SetOutput] and [SetFlags]. *)
Definition std_logger (UseRFC339 : bool) : Logger :=
  if UseRFC339 then mkLogger ToLogWriter "" 0 else mkLogger Stderr "" (Z.lor LstdFlags Lmicroseconds).
Definition discard_logger : Logger := mkLogger Discard "" 0.

Fixpoint ends_with_newline (s : string) : bool :=
  match s with
  | EmptyString => false
  | String c EmptyString => byte c =? 0x0a
  | String _ s => ends_with_newline s
  end.
Definition nl : string := String (ascii_of_nat 10) "".

Section Print.
Context {W : Type}.
Variable WriteString : string → W → W * (Z * option string).
(** The date and time the flags ask for, in local time. *)
Variable local_header : Z → Z → string.

Definition log_line (l : Logger) (now : Z) (s : string) : string :=
  prefix l +:+ (if flags l =? 0 then "" else local_header (flags l) now) +:+ s +:+
  (if ends_with_newline s then "" else nl).

(** [l.Print(s)]; the time is read again by the writer. *)
Definition Print (l : Logger) (now now' : Z) (s : string) (w : W) : W :=
  match out l with
  | Discard => w
  | Stderr => (WriteString (log_line l now s) w).1
  | ToLogWriter => (LogWriter.Write WriteString now' (log_line l now s) w).1
  end.
End Print.

(** ** The head of the main functions *)
Inductive Endpoint :=
| Plain (addr : string)
| Mutual (addr certFile keyFile caFile : string).

(** [metricServerOption], with the addresses of [WithPublicServer] and [WithTLSServer]. *)
Definition metrics_endpoint (m : MetricsServer) : Endpoint :=
  if decide (CAFile m = "") then Plain ("0.0.0.0:" +:+ FormatInt (Port m))
  else Mutual ("127.0.0.1:" +:+ FormatInt (Port m)) (CertFile m) (KeyFile m) (CAFile m).

Record HTTPServer := mkHTTPServer { server_Addr : string; ReadHeaderTimeout : Z }.
Definition pprof_server (m : MetricsServer) : option HTTPServer :=
  if DebugMetrics m then Some (mkHTTPServer ("127.0.0.1:" +:+ FormatInt (PprofPort m)) (2 * Second)) else None.

(** The line of the profiler's goroutine, whose server only returns with an error. *)
Definition pprof_stopped (err : string) : string := "PPROF SERVER STOPPED " +:+ err +:+ nl.

(** [printed] are the lines at the start, with their loggers. *)
Record Head := mkHead {
  std : Logger;
  loggers : list Logger;
  printed : list (Logger * string);
  endpoint : Endpoint;
  debug_metrics : bool;
  pprof : option HTTPServer;
}.

(** [float64(time.Since(start) / time.Second)]. *)
Definition uptime (start now : Z) : float64 := float_of_int (Z.quot (wrap64 (now - start)) Second).

Inductive Signal := SIGTERM | SIGINT | OtherSignal (number : Z).
(** The signals still to come when [waitForTermination] returns. *)
Fixpoint waitForTermination (signals : list Signal) : option (list Signal) :=
  match signals with
  | [] => None
  | (SIGTERM | SIGINT) :: signals => Some signals
  | OtherSignal _ :: signals => waitForTermination signals
  end.

Section Commands.
(** The endpoint of the metrics can be opened, with the files it names. *)
Variable opens : Endpoint → bool.

Definition head (UseRFC339 : bool) (prefixes : list string) (printed : list (Logger * string)) (m : MetricsServer) :
    outcome Head :=
  if opens (metrics_endpoint m) then
    Done (mkHead (std_logger UseRFC339) (new_logger UseRFC339 <$> prefixes) printed (metrics_endpoint m)
      (DebugMetrics m) (pprof_server m))
  else Panic.

(** A report of the configuration that cannot be written is only a line. *)
Definition report_line (std : Logger) (what : string) (report : option string) : list (Logger * string) :=
  match report with
  | Some err => [(std, "Failed to " +:+ what +:+ " a report of the from environment: " +:+ err +:+ nl)]
  | None => []
  end.

(** ** cmd/log-cache *)
Section Node.
Context {DialOption ServerOption : Type}.
Variable insecure max_recv : DialOption.
Variable Listen : string → result string string.
Variable dial_fails : string → bool.
Variable tls_transport : TLS.TLS → outcome DialOption.
Variable tls_server : TLS.TLS → outcome (list ServerOption).
Import Config.LogCacheConfig.
Variable WriteReport : Config → option string.

Record node_process := mkNodeProcess {
  node_head : Head;
  node_registry : Registry;
  node_cache : LogCache.LogCache (DialOption := DialOption) (ServerOption := ServerOption);
  node_running : LogCache.Running;
}.

Definition node_main (load : result string Config) : outcome node_process :=
  cfg ← or_exit load;
  let std := std_logger (UseRFC339 cfg) in
  h ← head (UseRFC339 cfg) [""] ((std, "Starting Log Cache...") :: report_line std "write" (WriteReport cfg))
        (cfg_MetricsServer cfg);
  '(c, run) ← LogCache.main_cache insecure Listen dial_fails tls_transport tls_server max_recv cfg;
  '(r, _) ← register_all [] (log_cache_metrics (LogCache.memoryLimit c)
              (dialed_peers dial_fails (LogCache.nodeAddrs c) (LogCache.nodeIndex c)));
  Done (mkNodeProcess h r c run).

(** The deferred line, once a signal has come. *)
Definition node_ends (h : Head) (signals : list Signal) : option (Logger * string) :=
  match waitForTermination signals with Some _ => Some (std h, "Closing Log Cache.") | None => None end.
End Node.

(** ** cmd/gateway *)
Section GatewayMain.
Context {DialOption Conn : Type}.
Variable host_Info : option Z.
Variable tls_DialOpts : TLS.TLS → outcome (list DialOption).
Variable insecure_DialOpts : list DialOption.
Variable Listen : string → result string string.
Variable NewClient : string → list DialOption → result string Conn.
Variable RegisterEgress RegisterPromQL : Conn → option string.
Import Config.GatewayConfig.

Definition gateway_main (load : result string Config) :
    outcome (Head * Gateway.Gateway (Logger := Logger) (DialOption := DialOption) * Gateway.started (Conn := Conn)) :=
  cfg ← or_exit load;
  h ← head (UseRFC339 cfg) ["[METRICS] "; "[GATEWAY] "]%string
        [(std_logger (UseRFC339 cfg), "Starting Log Cache Gateway...")] (cfg_MetricsServer cfg);
  g ← Gateway.main_gateway discard_logger host_Info (new_logger (UseRFC339 cfg) "[GATEWAY] ") tls_DialOpts
        insecure_DialOpts cfg;
  st ← or_exit (Gateway.Start Listen NewClient RegisterEgress RegisterPromQL g);
  Done (h, g, st).
End GatewayMain.

(** ** cmd/syslog-server *)
Section SyslogMain.
Context {DialOption Client : Type}.
Variable insecure : DialOption.
Variable grpc_NewClient : string → list DialOption → result string Client.
Variable NumCPU : nat.
Variable tls_transport : TLS.TLS → result string DialOption.
Import Config.SyslogConfig.
Variable WriteReport : Config → option string.

Definition syslog_main (load : result string Config) :
    outcome (Head * Registry * SyslogServer.Server * SyslogServer.Started (Client := Client)) :=
  cfg ← or_exit load;
  let std := std_logger (UseRFC339 cfg) in
  h ← head (UseRFC339 cfg) ["[LOGGR] "]%string
        ((std, "Starting Syslog Server...") :: report_line std "print" (WriteReport cfg)) (cfg_MetricsServer cfg);
  '(s, st) ← SyslogServer.main insecure grpc_NewClient NumCPU tls_transport cfg;
  '(r, _) ← register_all [] syslog_server_metrics;
  Done (h, r, s, st).
End SyslogMain.

(** ** cmd/cf-auth-proxy *)
Section AuthMain.
Import Config.CFAuthProxyConfig.
Context {CertPool : Type}.
(** As in CFAuthCommand.v. *)
Context (url_Parse : string → result string CAPI.URL) (url_String : CAPI.URL → string).
Context (ReadFile : string → result string string) (AppendCertsFromPEM : string → option CertPool).
Context (tls_Client : string → option string → option string).
Context (OpenFile write_error pem_Decode : string → option string).
Context (ParsePKIXPublicKey : string → result string (option string)).
Context (jose_headers : string → result string (gmap string header)).
Context (jose_verify : string → PublicKey → result string string).
Context (arch : float64 → Z) (chi : Request → route).
Context (ParseExpr : string → result string Expr) (print_expr : Expr → string).
Context (order : gset string → list string).
Context (uaa_answer : HTTPClient → list exchange → KeysRequest → result string Response).
Context (capi_answer : HTTPClient → list exchange → CAPI.URL → string → result string Response).
Context (meta_answer : option CertPool → list exchange → result string (gmap string MetaInfo)).
Context (times : list exchange → Z * Z * Z) (fuel : nat).
Variable WriteReport : Config → option string.

Definition auth_main (load : result string Config) :
    outcome (Head * Registry * CFAuthCommand.command (CertPool := CertPool)) :=
  cfg ← or_exit load;
  h ← head (UseRFC339 cfg) [""%string]
        ((new_logger (UseRFC339 cfg) "", "Starting Log Cache CF Auth Reverse Proxy...") ::
         report_line (std_logger (UseRFC339 cfg)) "print" (WriteReport cfg)) (cfg_MetricsServer cfg);
  c ← CFAuthCommand.main url_Parse url_String ReadFile AppendCertsFromPEM tls_Client OpenFile write_error pem_Decode
        ParsePKIXPublicKey jose_headers jose_verify arch chi ParseExpr print_expr order uaa_answer capi_answer
        meta_answer times fuel cfg;
  '(r, _) ← register_all [] cf_auth_proxy_metrics;
  Done (h, r, c).
End AuthMain.
End Commands.

(** ** What the commands open *)

(** The profiler listens on the loopback only, and only when it was asked for;
    the metrics leave the machine only without a CA, and then without TLS. *)
Lemma head_endpoints opens rfc prefixes lines m h : head opens rfc prefixes lines m = Done h →
  pprof h = (if DebugMetrics m then Some (mkHTTPServer ("127.0.0.1:" +:+ FormatInt (PprofPort m)) (2 * Second)) else None) ∧
  (CAFile m = "" → endpoint h = Plain ("0.0.0.0:" +:+ FormatInt (Port m))) ∧
  (CAFile m ≠ "" → endpoint h = Mutual ("127.0.0.1:" +:+ FormatInt (Port m)) (CertFile m) (KeyFile m) (CAFile m)).
Proof.
  unfold head. destruct (opens _); [|done]. intros [= <-]. cbn [pprof endpoint]. unfold metrics_endpoint, pprof_server.
  split_and!; [done| |]; intros H; by case_decide.
Qed.

(** A line of a command that was asked for RFC 3339 starts with a time that a query
    reads back. *)
Lemma logged_line {W} (WriteString : string → W → W * (Z * option string)) local_header pre arch now now' s w :
  int64_range now' →
  ∃ ts, Print WriteString local_header (new_logger true pre) now now' s w =
      (WriteString (ts +:+ " " +:+ pre +:+ s +:+ (if ends_with_newline s then "" else nl)) w).1 ∧
    ParseTime arch ts = Ok now'.
Proof.
  intros Ht. exists (LogWriter.timestamp now'). split.
  - unfold Print, LogWriter.Write, log_line. cbn [new_logger out flags Commands.prefix Z.eqb]. by rewrite sapp_nil.
  - by apply ParseTime_timestamp.
Qed.

Section NodeStarts.
Context {DialOption ServerOption : Type}.
Context (opens : Endpoint → bool) (insecure max_recv : DialOption).
Context (Listen : string → result string string) (dial_fails : string → bool).
Context (tls_transport : TLS.TLS → outcome DialOption) (tls_server : TLS.TLS → outcome (list ServerOption)).
Context (WriteReport : LogCacheConfig.Config → option string).
Abbreviation main := (node_main opens insecure max_recv Listen dial_fails tls_transport tls_server WriteReport).
Import Config.LogCacheConfig.

Lemma node_metrics_register limit peers : ∃ r hs, register_all [] (log_cache_metrics limit peers) = Done (r, hs).
Proof.
  destruct (register_all_fits node_schema [] (log_cache_metrics limit peers)) as (r&hs&E&_);
    [constructor|apply NoDup_nil_2|apply node_metrics_fit|]. eauto.
Qed.

(** What [main_cache] needs: files of TLS that can be read, and the address. *)
Definition readable (t : TLS.TLS) : Prop := TLS.HasAnyCredential t = true →
  (∃ o, tls_transport t = Done o) ∧ (∃ o, tls_server t = Done o).

Lemma New_nodeAddrs (opts : list (LogCache.LogCacheOption (DialOption := DialOption) (ServerOption := ServerOption))) :
  LogCache.nodeAddrs (LogCache.New insecure opts) ≠ [].
Proof.
  unfold LogCache.New. case_decide as H; [done|]. intros E. apply H. by rewrite E.
Qed.

(** A node starts once it can listen. *)
Lemma Start_starts (c : LogCache.LogCache (DialOption := DialOption) (ServerOption := ServerOption)) :
  LogCache.nodeAddrs c ≠ [] →
  (∃ p, LogCache.Start Listen dial_fails c = Done p) ↔ ∃ lis, Listen (LogCache.addr c) = Ok lis.
Proof.
  intros Hne. unfold LogCache.Start, LogCache.setupRouting.
  destruct (Listen (LogCache.addr c)) as [lis|err]; [|split; [by intros [p E]|by intros [lis E]]].
  split; [eauto|]. intros _. cbn [LogCache.nodeAddrs LogCache.nodeIndex].
  unfold Cluster.setupRouting, Routing.NewRoutingTable. cbn [Z.eqb].
  destruct (LogCache.nodeAddrs c) as [|a l]; [done|]. rewrite (proj2 (Z.ltb_ge _ _)) by (cbn [length]; lia).
  destruct (Cluster.register_peers _ _ _ _ _). cbn [mbind outcome_bind]. eauto.
Qed.

Lemma main_options_starts cfg opts :
  LogCache.main_options insecure tls_transport tls_server max_recv cfg = Done opts →
  LogCache.addr (LogCache.New insecure opts) = Addr cfg.
Proof.
  unfold LogCache.main_options. intros ([t server]&Ht&[= <-])%bind_Done.
  assert (server = [] ∨ ∃ o, server = [LogCache.WithServerOpts o]) as Hs.
  { destruct (TLS.HasAnyCredential _); [|injection Ht as _ <-; by left].
    apply bind_Done in Ht as (t'&_&Ht). apply bind_Done in Ht as (o&_&[= _ <-]). eauto. }
  unfold LogCache.New. destruct Hs as [->|[o ->]]; cbn; by case_decide.
Qed.

Lemma main_options_readable cfg :
  (∃ opts, LogCache.main_options insecure tls_transport tls_server max_recv cfg = Done opts) ↔ readable (cfg_TLS cfg).
Proof.
  unfold LogCache.main_options, readable. destruct (TLS.HasAnyCredential _); [|split; [done|]; cbn; eauto].
  split.
  - intros (opts&H). apply bind_Done in H as (?&H&_). apply bind_Done in H as (t&Ht&H).
    apply bind_Done in H as (o&Ho&_). eauto.
  - intros ((t&->)&(o&->)); [done|]. cbn. eauto.
Qed.

(** C36: a node's command starts exactly when it should.  It runs if and only if its
    configuration loads, the endpoint of its metrics can be opened, its TLS files
    (if any are named) make credentials and its address can be listened on; no
    other panic or fatal line comes before it serves, whatever the addresses of its
    peers.  It then has the store, the limits and the wiring of its configuration,
    and a profiler only if one was asked for, on the loopback. *)
Theorem node_starts load :
  ((∃ p, main load = Done p) ↔
   ∃ cfg, load = Ok cfg ∧ opens (metrics_endpoint (cfg_MetricsServer cfg)) = true ∧
     readable (cfg_TLS cfg) ∧ ∃ lis, Listen (Addr cfg) = Ok lis) ∧
  ∀ p cfg, load = Ok cfg → main load = Done p →
    let addrs := if decide (length (NodeAddrs cfg) = 0%nat) then [Addr cfg] else NodeAddrs cfg in
    LogCache.store (node_running p) = Store.NewStore (MaxPerSource cfg) (PrunesPerGC cfg) ∧
    LogCache.limits (MemoryLimit cfg) (float_of_int (MemoryLimitPercent cfg)) (LogCache.mc (node_running p)) ∧
    Cluster.setupRouting dial_fails addrs (NodeIndex cfg) = Done (LogCache.node (node_running p)) ∧
    pprof (node_head p) = (if DebugMetrics (cfg_MetricsServer cfg)
      then Some (mkHTTPServer ("127.0.0.1:" +:+ FormatInt (PprofPort (cfg_MetricsServer cfg))) (2 * Second)) else None).
Proof.
  split.
  - unfold node_main, head, LogCache.main_cache. split.
    + intros (p&H). apply bind_Done in H as (cfg&Hl&H). exists cfg. destruct load as [cfg'|]; [|done].
      injection Hl as ->. apply bind_Done in H as (h&Hh&H). apply bind_Done in H as ([c run]&Hc&_).
      destruct (opens _); [|done]. apply bind_Done in Hc as (opts&Ho&Hs). split_and!; [done..| |].
      * apply main_options_readable. eauto.
      * rewrite <- (main_options_starts _ _ Ho). apply Start_starts; [apply New_nodeAddrs|eauto].
    + intros (cfg&->&Hop&[opts Ho]%main_options_readable&Hlis). cbn [CFAuthCommand.or_exit mbind outcome_bind].
      rewrite Hop, Ho. cbn [mbind outcome_bind]. rewrite <- (main_options_starts _ _ Ho) in Hlis.
      apply (Start_starts (LogCache.New insecure opts) (New_nodeAddrs opts)) in Hlis as ([c run]&->).
      cbn [mbind outcome_bind].
      destruct (node_metrics_register (LogCache.memoryLimit c)
        (dialed_peers dial_fails (LogCache.nodeAddrs c) (LogCache.nodeIndex c))) as (r&hs&->). cbn. eauto.
  - intros p cfg -> H addrs. apply bind_Done in H as (cfg'&[= <-]&H). apply bind_Done in H as (h&Hh&H).
    apply bind_Done in H as ([c run]&Hc&H). apply bind_Done in H as ([r hs]&_&[= <-]).
    apply LogCache.main_cache_spec in Hc as (?&?&?). apply head_endpoints in Hh as (?&_). by split_and!.
Qed.
End NodeStarts.

(** ** A node that was asked for the profiler *)
Definition demo_node_config : LogCacheConfig.Config :=
  LogCacheConfig.mkConfig ":8080" (10 * Second) 50 1000 2 (1 * Second) 1 1 ["n0"; "n1"; "n2"]%string TLS.none
    (mkMetricsServer 6060 "" "" "" true 6061) true.
Definition demo_node_main : outcome (node_process (DialOption := unit) (ServerOption := unit)) :=
  node_main (λ _, true) tt tt (λ a, Ok a) (λ _, false) (λ _, Panic) (λ _, Panic) (λ _, None) (Ok demo_node_config).

Lemma node_starts_witness :
  (∃ p, demo_node_main = Done p) ∧
  ∀ p, demo_node_main = Done p →
    LogCache.store (node_running p) = Store.NewStore 2 1 ∧
    pprof (node_head p) = Some (mkHTTPServer "127.0.0.1:6061" (2 * Second)).
Proof.
  pose proof (node_starts (λ _, true) tt tt (λ a, Ok a) (λ _, false) (λ _ : TLS.TLS, Panic (A := unit))
    (λ _ : TLS.TLS, Panic (A := list unit)) (λ _, None) (Ok demo_node_config)) as [[_ H] Hp]. split.
  - apply H. exists demo_node_config. split_and!; [done..|by eexists].
  - intros p E. destruct (Hp p demo_node_config eq_refl E) as (->&_&_&->). split; vm_compute; done.
Defined.

(** Peers that were dialed share the counter of failed batches. *)
Example peers_share_a_counter :
  (λ x, x.2) <$> register_all [] ([0; 2]%nat ≫= peer_metrics) = Done [0; 1; 2; 1]%nat.
Proof. vm_eq. Qed.
